(* ===== verification/_CoqProject ===== *)
-Q . S2P
Prelude.v
Sha256.v
Router.v
Topology.v
GoStd.v
Json.v
NodeMeta.v
View.v
Manager.v
Fsm.v
Store.v
Bridge.v
Service.v
Transport.v
Client.v
ClientClose.v
Config.v
Sidecar.v
Launch.v
Promexport.v
Exporter.v
Exposition.v
ChaosOracle.v
ChaosCoherence.v
ChaosRun.v
ChaosLeader.v
SmokeWait.v
Values.v
Smoke.v
BenchStats.v
BenchLoad.v
NodeBench.v
BenchRoute.v
BenchReport.v
BenchRun.v
BenchSummary.v
