(* ===== verification/Prelude.v ===== *)
(** * PulseKV control plane: a verification development

    PulseKV is a distributed in-memory cache.  Its control plane (src/control, in
    Go) decides which node owns which shard, agrees on the live nodes through
    gossip and Raft, publishes the result, and gives clients a library that routes
    by it.  This library models that code and proves what makes it correct.

    ** The program

    A data node is announced by a sidecar ([cmd/pulsekv-member]) that gossips its
    identity with memberlist ([internal/membership]).  Every control-plane replica
    ([cmd/controlplane]) keeps a view of the gossiped nodes; the Raft leader's
    bridge ([internal/metastore/bridge.go]) proposes it, and every replica applies
    the committed states ([internal/metastore]).  The metadata service
    ([internal/metadata]) derives the shard map from the committed state with the
    rendezvous router ([internal/router]) and publishes it with a content
    fingerprint.  Clients ([pkg/client]) fetch a coherent snapshot
    ([internal/topology]), route keys, and move values with [internal/transport].
    One configuration file ([internal/config]) starts it all; an exporter
    ([cmd/pulsekv-metrics], [internal/promexport]) watches it.  Four drivers judge a
    running cluster: the smoke suite ([cmd/pulsekv-smoke]), the chaos verifier
    ([cmd/pulsekv-chaos]) and two benchmarks ([cmd/pulsekv-cluster-bench],
    [cmd/pulsekv-node-bench]); what their verdicts are worth is proved too.

    ** The files, in dependency order

    - [Prelude]: results, machine integers, byte strings, sorting, automation.
    - [Sha256]: the hash behind the fingerprint, executable, checked on vectors.
    - [Router] (internal/router/router.go): FNV-1a and SplitMix weights at 64
      bits, [AssignShards], [AssignShardOwners], [ShardForKey].
    - [Topology] (internal/topology/topology.go): the fingerprint's byte stream,
      [validate], and [Fetch], a bounded loop over an arbitrary sequence of answers.
    - [GoStd]: what the source uses of strings, strconv and net (TrimSpace, Atoi,
      Itoa, SplitHostPort, JoinHostPort, ParseIP).
    - [Json]: encoding/json on the types the source uses: quoting, parsing,
      UTF-8 repair, struct decoding by folded field names.
    - [NodeMeta], [View], [Manager] (internal/membership): the gossiped record,
      the event-driven view and its publication rule, and the life of a
      memberlist participant, whose calls are explicit outputs.
    - [Fsm], [Store], [Bridge] (internal/metastore): the replicated state machine
      with its snapshots, the Raft store (start-up, readiness, proposals), and the
      leader's reconcile loop.
    - [Service] (internal/metadata/service.go): both topology RPCs over a
      membership source, an interface ([Source]) that the gossip view and the Raft
      store implement and whose law ([LawfulSource]) they discharge.
    - [Transport] (internal/transport/transport.go): unary and chunked values.
    - [Client], [ClientClose] (pkg/client/client.go): construction, routing, the
      connection cache, refresh and [Close] as interleaved critical sections.
    - [Config] (internal/config/config.go): defaults, validation, accessors.
    - [Sidecar] (cmd/pulsekv-member/main.go): the sidecar process as a trace.
    - [Launch] (cmd/controlplane/main.go): the replica process: selection, wiring,
      start and clean-up, joining, inventory output; path/filepath on Unix.
    - [Promexport], [Exporter], [Exposition] (internal/promexport,
      cmd/pulsekv-metrics/main.go): the exposition format, the exporter's state
      and pool, and the response it writes.
    - [ChaosOracle] (cmd/pulsekv-chaos/main.go): settings, the pure checks of a
      topology change, and the workloads they are applied to.
    - [ChaosCoherence]: the replica observations, the leader summary and the
      coherence check, against a group of services over one Raft log.
    - [ChaosRun]: the data-node scenario as a state monad over a world (the class
      [World]) with a log of what was published: reading, seeding, proofs, waiting.
    - [ChaosLeader]: the leader scenario, the coherence watcher, and the
      concurrent read load as a step relation.
    - [SmokeWait], [Smoke] (cmd/pulsekv-smoke/main.go): the waits and probes, and
      the suite's assertions with the code that runs them, over a network (the
      class [Net]).
    - [Values]: the values the drivers write and verify.
    - [BenchStats], [BenchLoad] (cmd/pulsekv-cluster-bench: main.go, llm_shape.go):
      statistics on binary64 floats, sampling, splitting the work, the load loop as
      interleaved events, and the verdicts.
    - [NodeBench] (cmd/pulsekv-node-bench/main.go): the node benchmark's run.
    - [BenchRoute]: the cluster benchmark's topology record and routing proof.
    - [BenchReport] (sustained.go, metrics.go): the interval reporter, interleaved
      with the workers access by access, and the metrics endpoint.
    - [BenchRun]: [run], [mixedAcross] and [runSustained], all phases composed.
    - [BenchSummary]: the tables and the structured report of a run.

    ** How code becomes definitions

    A Go function is a Rocq function of the same name; an error pair is [result],
    with one constructor per error the source builds; a struct is a record, a map
    a [gmap], a string or byte slice a list of bytes or a [string].  Integers are
    [Z] with the wrap-around of their width written out ([u64], [i64], [u32]).
    Code outside the repository (memberlist, hashicorp/raft, gRPC, YAML) is never
    defined: its answers are arguments, and sequences of answers are scripts, so a
    theorem holds whatever they are.  Where Go leaves an order open (map iteration,
    goroutines), the order is an argument or a step relation ([Client.sys_step])
    over which theorems quantify.  Shared client state is one record stepped by
    critical sections, so that aliasing and interleaving are the code's.

    ** What is proved

    - Placement: owners are the rendezvous order; maps depend on the set of nodes,
      not its order; a node's arrival or death moves only what it must; replicas
      are promoted in the recorded order.
    - Agreement: replicas on prefixes of one log that report one generation hold
      one state; snapshots restore to the replayed state; a replica becomes ready
      exactly when no command it can read in its log is left unapplied, and stays
      so; the bridge never wipes a membership on a cold view, and in a loop with a
      Raft log that commits what it is given it commits a stable view and then
      stops proposing.
    - Publication: what a client accepts is one coherent, well-formed topology,
      equal to the router's placement of the published nodes; accepting answers of
      two moments means that both had the same content or a SHA-256 collision.
    - Client: no connection is leaked or closed twice under any interleaving;
      calls get live connections; [Close] completes, and can always complete.
    - Codecs: metadata, commands and snapshots, chunked values, endpoint lists and
      inventories come back as they were written.
    - Processes: a configuration that loads, with its two intervals in range of
      the millisecond conversion, starts every component it is turned into; a sidecar announces its node only after a successful probe and
      withdraws it exactly on the configured run of failures; start-up ends within
      its budget; processes release what they open; replicas keep separate state.
    - Exporter: responses are well formed; the pool is safe until it is closed.
      The theorems [label_roundtrip_iff], [converged_overclaims] and the second
      half of [pool_safe] say where the code does not do what it means to.
    - Chaos verifier: its checks accept exactly the correct transitions, replicas
      of one log are never called incoherent, every recorded transition and every
      published count is backed by what was read from the cluster, its workload
      never moves by itself, and its waits end.
    - Smoke suite: each probe and assertion is characterised exactly, and exit
      code 0 is turned into what the calls of that run have seen, in their order;
      the waits end.
    - Benchmarks: work is split without gap or overlap while the split does not
      wrap ([split_fits]; [split_wraps], [bench_run_wraps] and [node_bench_wraps]
      show what happens beyond); within that bound runs pass exactly when routing,
      populating and every operation were right under any interleaving of single
      shared accesses; the routing proof raises no false alarm; each interval row
      counts exactly its stretch of the run; values identify their keys; the latency reservoir is uniform,
      and a report says when its percentiles come from it.

    ** Bounds and fuel

    [Json.parse_value] and the chunkers take the input's length as fuel, which the
    round-trip lemmas show is enough; [nat_digits] takes the binary length;
    [ipv6_loop] the eight groups an address can hold; [Fetch] its eight attempts,
    the source's constant.  Loops without a bound consume a script of answers: a
    script that ends leaves the loop running ([None], [Blocked]), and termination
    theorems give a length that is enough.  The polling loops of the drivers
    take fuel, one unit per poll, and [StillRunning] or [None] when it is used up;
    [timeout / interval + 2] is proved enough.  The searches for keys that hit given
    shards keep the source's own candidate limits.  Sizes of the benchmarks are
    Go ints that wrap; counters of events (operations, latencies, live counters)
    are unbounded, and an allocation never fails: overflowing them takes 2^63
    events.

    ** Not modelled

    - The C++ data plane and its engine (src/, node/, bulk transport), the Python
      adapters and the gateway: other languages, reached only through RPCs.
    - Generated protobuf code, beyond the messages' fields.
    - [cmd/pulsekv-example]: a demonstration of the client library.
    - Flag parsing, logging, HTTP and gRPC serving, TLS, signals (in [Launch.run]
      the TCP listener is not among the tracked handles); [HealthCheck]
      and [LogSummary] of the metadata service.
    - Formatting: exposition values are formatted by a parameter; the drivers'
      tables, progress lines and report files are not rendered, and the time a run
      takes is an input. *)

From Stdlib Require Export ZArith Lia.
From Stdlib Require Export Strings.Byte Sorted.
From stdpp Require Export prelude gmap strings sorting list_relations.

#[export] Set Default Goal Selector "!".

(** ** Errors as values

    Go's [(T, error)] pairs: [Ok v] is [(v, nil)], [Err e] is [(zero, e)].
    Each component instantiates [E] with an inductive type that has one
    constructor per error the source constructs. *)

Inductive result (E A : Type) : Type :=
| Ok (a : A)
| Err (e : E).
Arguments Ok {E A} a.
Arguments Err {E A} e.

#[export] Instance result_ret {E} : MRet (result E) := fun A a => Ok a.
#[export] Instance result_bind {E} : MBind (result E) :=
  fun A B f m => match m with Ok a => f a | Err e => Err e end.
#[export] Instance result_fmap {E} : FMap (result E) :=
  fun A B f m => match m with Ok a => Ok (f a) | Err e => Err e end.

Definition is_ok {E A} (r : result E A) : bool :=
  match r with Ok _ => true | Err _ => false end.

(** [guard_err b e]: the early return [if !b { return zero, e }]. *)
Definition guard_err {E} (b : bool) (e : E) : result E () :=
  if b then Ok () else Err e.

#[export] Instance result_eq_dec {E A} `{EqDecision E, EqDecision A} :
  EqDecision (result E A).
Proof. solve_decision. Defined.

Section result_lemmas.
Context {E A B : Type}.
Implicit Types (m : result E A) (f : A → result E B).

Lemma result_bind_Ok m f b :
  m ≫= f = Ok b ↔ ∃ a, m = Ok a ∧ f a = Ok b.
Proof. destruct m; cbn; naive_solver. Qed.

Lemma guard_err_Ok (b : bool) (e : E) u : guard_err b e = Ok u ↔ b = true.
Proof. destruct b, u; cbn; naive_solver. Qed.
End result_lemmas.

(** A [for] loop whose body may return an error. *)
Fixpoint foldM {E A B} (f : A → B → result E A) (a : A) (l : list B) : result E A :=
  match l with
  | [] => Ok a
  | b :: l => a' ← f a b; foldM f a' l
  end.

Lemma foldM_app {E A B} (f : A → B → result E A) a l k :
  foldM f a (l ++ k) = (a' ← foldM f a l; foldM f a' k).
Proof.
  revert a. induction l as [|b l IH]; intros a; cbn; [done|].
  destruct (f a b); cbn; [apply IH|done].
Qed.

(** ** Machine integers

    A [uintN] or [int64] of the source is a [Z] in range; arithmetic that can
    leave the range is followed by the wrap the hardware performs. *)

Definition u8 (z : Z) : Z := (z `mod` 2 ^ 8)%Z.
Definition u32 (z : Z) : Z := (z `mod` 2 ^ 32)%Z.
Definition u64 (z : Z) : Z := (z `mod` 2 ^ 64)%Z.
Definition i64 (z : Z) : Z := ((z + 2 ^ 63) `mod` 2 ^ 64 - 2 ^ 63)%Z.

Definition maxInt64 : Z := (2 ^ 63 - 1)%Z.

Definition in_u32 (z : Z) : Prop := (0 ≤ z < 2 ^ 32)%Z.
Definition in_u64 (z : Z) : Prop := (0 ≤ z < 2 ^ 64)%Z.
Definition in_i64 (z : Z) : Prop := (- 2 ^ 63 ≤ z < 2 ^ 63)%Z.

Lemma u32_range z : in_u32 (u32 z).
Proof. unfold in_u32, u32. apply Z.mod_pos_bound. lia. Qed.
Lemma u64_range z : in_u64 (u64 z).
Proof. unfold in_u64, u64. apply Z.mod_pos_bound. lia. Qed.
Lemma u32_id z : in_u32 z → u32 z = z.
Proof. intros ?. unfold u32. by apply Z.mod_small. Qed.
Lemma u64_id z : in_u64 z → u64 z = z.
Proof. intros ?. unfold u64. by apply Z.mod_small. Qed.
Lemma i64_id z : in_i64 z → i64 z = z.
Proof. unfold in_i64, i64. intros ?. rewrite Z.mod_small; lia. Qed.
Lemma i64_overflow : i64 (maxInt64 + 1) = (- 2 ^ 63)%Z.
Proof. reflexivity. Qed.

Lemma u64_mul_u64_l a b : u64 (u64 a * b) = u64 (a * b).
Proof. unfold u64. by rewrite Zmult_mod_idemp_l. Qed.

(** [Z.lxor] stays within a power-of-two bound: what the source's [^] on
    [uint64] needs. *)
Lemma lxor_range n a b :
  (0 ≤ n → 0 ≤ a < 2 ^ n → 0 ≤ b < 2 ^ n → 0 ≤ Z.lxor a b < 2 ^ n)%Z.
Proof.
  intros Hn Ha Hb.
  assert (0 ≤ Z.lxor a b)%Z as Hx by (apply Z.lxor_nonneg; lia).
  split; [done|].
  destruct (Z.eq_dec (Z.lxor a b) 0%Z) as [->|Hnz]; [lia|].
  apply Z.log2_lt_pow2; [lia|].
  eapply Z.le_lt_trans; [apply Z.log2_lxor; lia|].
  assert (0 < 2 ^ n)%Z by lia.
  apply Z.max_lub_lt.
  - destruct (Z.eq_dec a 0%Z) as [->|]; [|apply Z.log2_lt_pow2; lia].
    cbn. destruct (Z.eq_dec n 0%Z) as [->|]; [|lia].
    exfalso. apply Hnz. assert (b = 0)%Z as -> by lia. done.
  - destruct (Z.eq_dec b 0%Z) as [->|]; [|apply Z.log2_lt_pow2; lia].
    cbn. destruct (Z.eq_dec n 0%Z) as [->|]; [|lia].
    exfalso. apply Hnz. assert (a = 0)%Z as -> by lia. done.
Qed.

Lemma shiftr_range n k a :
  (0 ≤ k → 0 ≤ a < 2 ^ n → 0 ≤ Z.shiftr a k < 2 ^ n)%Z.
Proof.
  intros Hk [Ha Hb]. rewrite Z.shiftr_div_pow2 by done.
  assert (0 < 2 ^ k)%Z by lia.
  split; [by apply Z.div_pos|].
  eapply Z.le_lt_trans; [|done]. apply Z.div_le_upper_bound; nia.
Qed.

(** ** Byte strings

    A Go [string] is a [string] of 8-bit characters; a [[]byte] is a
    [list byte]. *)

Abbreviation bytes := (list byte).

Definition bytes_of_string (s : string) : bytes := String.list_byte_of_string s.
Definition byteZ (b : byte) : Z := Z.of_N (Byte.to_N b).

#[export] Instance byte_eq_dec : EqDecision byte := Byte.byte_eq_dec.

Lemma byteZ_range b : (0 ≤ byteZ b < 256)%Z.
Proof. unfold byteZ. pose proof (Byte.to_N_bounded b). lia. Qed.

#[export] Instance byteZ_inj : Inj (=) (=) byteZ.
Proof.
  intros a b H. unfold byteZ in H. apply N2Z.inj in H.
  apply (f_equal Byte.of_N) in H. rewrite !Byte.of_to_N in H. congruence.
Qed.

#[export] Instance bytes_of_string_inj : Inj (=) (=) bytes_of_string.
Proof.
  intros s1 s2 H. apply (f_equal String.string_of_list_byte) in H.
  unfold bytes_of_string in H.
  by rewrite !String.string_of_list_byte_of_string in H.
Qed.

(** Go's [a < b] on strings is the bytewise lexicographic order. *)
Definition string_ltb (a b : string) : bool := String.ltb a b.

Lemma string_ltb_lt a b : string_ltb a b = true ↔ ¬ String.le b a.
Proof.
  unfold string_ltb, String.ltb, String.le, String.leb.
  rewrite (String.compare_antisym b a).
  destruct (String.compare a b); cbn; naive_solver.
Qed.

Lemma string_ltb_irrefl a : string_ltb a a = false.
Proof.
  apply not_true_iff_false. rewrite string_ltb_lt. intros H. by apply H.
Qed.

(** [sort.Strings]: any sorting algorithm returns the same list, because the
    order is total and antisymmetric ([sort_strings_unique]). *)
Definition sort_strings (l : list string) : list string := merge_sort String.le l.

Section sorting.
Context {A} (R : relation A) `{!RelDecision R, !PartialOrder R, !Total R}.

Lemma merge_sort_StronglySorted l : StronglySorted R (merge_sort R l).
Proof. apply StronglySorted_merge_sort; apply _. Qed.

Lemma merge_sort_unique l k :
  StronglySorted R k → k ≡ₚ l → merge_sort R l = k.
Proof.
  intros Hk Hp. apply (StronglySorted_unique R); [|done|].
  - apply merge_sort_StronglySorted.
  - by rewrite merge_sort_Permutation.
Qed.

Lemma merge_sort_sorted_id l : StronglySorted R l → merge_sort R l = l.
Proof. intros ?. by apply merge_sort_unique. Qed.

Lemma merge_sort_Permutation_eq l k : l ≡ₚ k → merge_sort R l = merge_sort R k.
Proof.
  intros ?. apply merge_sort_unique.
  - apply merge_sort_StronglySorted.
  - by rewrite merge_sort_Permutation.
Qed.

Lemma elem_of_merge_sort l x : x ∈ merge_sort R l ↔ x ∈ l.
Proof. by rewrite merge_sort_Permutation. Qed.

Lemma length_merge_sort l : length (merge_sort R l) = length l.
Proof. by rewrite merge_sort_Permutation. Qed.

Lemma StronglySorted_filter (P : A → Prop) `{!∀ x, Decision (P x)} l :
  StronglySorted R l → StronglySorted R (filter P l).
Proof.
  induction 1 as [|x l Hs IH Hx]; [constructor|].
  rewrite filter_cons. case_decide; [|done].
  constructor; [done|].
  rewrite Forall_forall in Hx |- *.
  intros y [_ Hy]%list_elem_of_filter. by apply Hx.
Qed.

Lemma StronglySorted_take n l : StronglySorted R l → StronglySorted R (take n l).
Proof.
  intros H. rewrite <-(take_drop n l) in H.
  by apply StronglySorted_app_1_l in H.
Qed.
End sorting.

(** ** List lemmas shared by the components *)

Lemma list_filter_fmap {A B} (f : A → B) (P : B → Prop) `{!∀ x, Decision (P x)} (l : list A) :
  filter P (f <$> l) = f <$> filter (fun x => P (f x)) l.
Proof.
  induction l as [|x l IH]; [done|].
  rewrite fmap_cons, !filter_cons, IH. by case_decide.
Qed.

Lemma list_to_map_union_cons {A} (k : string) (v : A) l (m : gmap string A) :
  k ∉ l.*1 →
  list_to_map ((k, v) :: l) ∪ m = (list_to_map l : gmap string A) ∪ <[k := v]> m.
Proof.
  intros Hk. rewrite list_to_map_cons, <-insert_union_l, insert_union_r; [done|].
  by apply not_elem_of_list_to_map_1.
Qed.

(** ** Proof automation of the development *)

Create HintDb pulsekv discriminated.

#[export] Hint Resolve u32_range u64_range byteZ_range : pulsekv.

(** A map is its two halves. *)
Lemma map_to_list_filter_split {A} (P : string * A → Prop) `{!∀ x, Decision (P x)} (m : gmap string A) :
  map_to_list m ≡ₚ map_to_list (filter P m) ++ map_to_list (filter (fun x => ¬ P x) m).
Proof.
  apply NoDup_Permutation; [apply NoDup_map_to_list| |].
  - apply NoDup_app. split_and!; [apply NoDup_map_to_list| |apply NoDup_map_to_list].
    intros [k x]. rewrite !elem_of_map_to_list, !map_lookup_filter_Some. naive_solver.
  - intros [k x]. rewrite elem_of_app, !elem_of_map_to_list, !map_lookup_filter_Some.
    destruct (decide (P (k, x))); naive_solver.
Qed.

(** Break an equation [m = Ok r] through the binds and guards of a handler. *)
Ltac inv_ok :=
  repeat match goal with
  | H : mbind _ _ = Ok _ |- _ =>
      apply result_bind_Ok in H; destruct H as (? & ? & ?)
  | H : (let (_, _) := ?x in _) = Ok _ |- _ => is_var x; destruct x
  | H : guard_err _ _ = Ok _ |- _ => apply guard_err_Ok in H
  | H : Ok _ = Ok _ |- _ => injection H as H
  | H : Err _ = Ok _ |- _ => discriminate H
  | H : Ok _ = Err _ |- _ => discriminate H
  end.

(** Case split on the boolean tests of the source, turning them into [Prop]. *)
Ltac case_bool :=
  repeat match goal with
  | H : context [Z.eqb ?a ?b] |- _ => destruct (Z.eqb_spec a b)
  | |- context [Z.eqb ?a ?b] => destruct (Z.eqb_spec a b)
  | H : context [Z.ltb ?a ?b] |- _ => destruct (Z.ltb_spec a b)
  | |- context [Z.ltb ?a ?b] => destruct (Z.ltb_spec a b)
  | H : context [Z.leb ?a ?b] |- _ => destruct (Z.leb_spec a b)
  | |- context [Z.leb ?a ?b] => destruct (Z.leb_spec a b)
  end.
