(* ===== verification/Sha256.v ===== *)
(** * SHA-256 ([crypto/sha256])

    The standard library's digest, executable, so that topology fingerprints can
    be evaluated on concrete clusters.  No theorem of the development assumes
    anything about it beyond the digest length proved here. *)

From S2P Require Import Prelude.
Local Open Scope Z_scope.

(** The byte of value [z mod 256]. *)
Definition byte_of_Z (z : Z) : byte :=
  match Byte.of_N (Z.to_N (z `mod` 256)) with Some b => b | None => x00 end.

(** [binary.BigEndian.PutUint32]. *)
Definition be32 (v : Z) : bytes :=
  [byte_of_Z (Z.shiftr v 24); byte_of_Z (Z.shiftr v 16);
   byte_of_Z (Z.shiftr v 8); byte_of_Z v].

Definition rotr (n x : Z) : Z :=
  Z.lor (Z.shiftr x n) (u32 (Z.shiftl x (32 - n))).

Definition ch (x y z : Z) : Z := Z.lxor (Z.land x y) (Z.land (Z.lxor x 0xffffffff) z).
Definition maj (x y z : Z) : Z :=
  Z.lxor (Z.lxor (Z.land x y) (Z.land x z)) (Z.land y z).
Definition Sigma0 (x : Z) : Z := Z.lxor (Z.lxor (rotr 2 x) (rotr 13 x)) (rotr 22 x).
Definition Sigma1 (x : Z) : Z := Z.lxor (Z.lxor (rotr 6 x) (rotr 11 x)) (rotr 25 x).
Definition sigma0 (x : Z) : Z := Z.lxor (Z.lxor (rotr 7 x) (rotr 18 x)) (Z.shiftr x 3).
Definition sigma1 (x : Z) : Z := Z.lxor (Z.lxor (rotr 17 x) (rotr 19 x)) (Z.shiftr x 10).

(** The round constants are the first 32 bits of the fractional parts of the
    cube roots of the first 64 primes, computed from that definition. *)
Definition is_prime (n : nat) : bool :=
  forallb (fun d => negb (Nat.eqb (n mod d) 0)) (seq 2 (n - 2)).

Definition primes : list Z :=
  Eval vm_compute in (Z.of_nat <$> filter is_prime (seq 2 310)).

Fixpoint icbrt (bits : nat) (n r : Z) : Z :=
  match bits with
  | O => r
  | S b =>
      let r' := r + 2 ^ Z.of_nat b in
      icbrt b n (if r' * r' * r' <=? n then r' else r)
  end.

Definition sha256_k : list Z :=
  Eval vm_compute in ((fun p => u32 (icbrt 36 (p * 2 ^ 96) 0)) <$> primes).

Record digest := Digest { da : Z; db : Z; dc : Z; dd : Z; de : Z; df : Z; dg : Z; dh : Z }.

Definition sha256_init : digest :=
  Digest 0x6a09e667 0xbb67ae85 0x3c6ef372 0xa54ff53a
         0x510e527f 0x9b05688c 0x1f83d9ab 0x5be0cd19.

Definition sha256_round (d : digest) (kw : Z * Z) : digest :=
  let '(Digest a b c d' e f g h) := d in
  let t1 := h + Sigma1 e + ch e f g + kw.1 + kw.2 in
  let t2 := Sigma0 a + maj a b c in
  Digest (u32 (t1 + t2)) a b c (u32 (d' + t1)) e f g.

Definition word_of (b0 b1 b2 b3 : byte) : Z :=
  byteZ b0 * 2 ^ 24 + byteZ b1 * 2 ^ 16 + byteZ b2 * 2 ^ 8 + byteZ b3.

Fixpoint words_of (l : bytes) : list Z :=
  match l with
  | b0 :: b1 :: b2 :: b3 :: l' => word_of b0 b1 b2 b3 :: words_of l'
  | _ => []
  end.

(** The message schedule, [w] holding the words computed so far, last first. *)
Fixpoint schedule (n : nat) (w : list Z) : list Z :=
  match n with
  | O => reverse w
  | S n =>
      let at_ i := default 0 (w !! i) in
      schedule n
        (u32 (sigma1 (at_ 1%nat) + at_ 6%nat + sigma0 (at_ 14%nat) + at_ 15%nat) :: w)
  end.

Definition sha256_block (d : digest) (block : bytes) : digest :=
  let w := schedule 48 (reverse (words_of block)) in
  let '(Digest a b c d' e f g h) := foldl sha256_round d (zip sha256_k w) in
  Digest (u32 (da d + a)) (u32 (db d + b)) (u32 (dc d + c)) (u32 (dd d + d'))
         (u32 (de d + e)) (u32 (df d + f)) (u32 (dg d + g)) (u32 (dh d + h)).

Definition sha256_pad (m : bytes) : bytes :=
  let len := length m in
  let zeros := (Z.to_nat ((55 - Z.of_nat len) `mod` 64))%Z in
  m ++ [x80] ++ replicate zeros x00 ++
    be32 (Z.shiftr (8 * Z.of_nat len) 32) ++ be32 (8 * Z.of_nat len).

Fixpoint sha256_blocks (n : nat) (d : digest) (l : bytes) : digest :=
  match n with
  | O => d
  | S n => sha256_blocks n (sha256_block d (take 64 l)) (drop 64 l)
  end.

Definition sha256 (m : bytes) : bytes :=
  let p := sha256_pad m in
  let '(Digest a b c d e f g h) := sha256_blocks (length p / 64) sha256_init p in
  be32 a ++ be32 b ++ be32 c ++ be32 d ++ be32 e ++ be32 f ++ be32 g ++ be32 h.

Lemma length_sha256 m : length (sha256 m) = 32%nat.
Proof. unfold sha256. by destruct (sha256_blocks _ _ _). Qed.

(** FIPS 180-4 test vectors: the one-block and the two-block message. *)
Example sha256_abc :
  words_of (sha256 (bytes_of_string "abc")) =
  [0xba7816bf; 0x8f01cfea; 0x414140de; 0x5dae2223;
   0xb00361a3; 0x96177a9c; 0xb410ff61; 0xf20015ad].
Proof. vm_compute. reflexivity. Qed.

Example sha256_two_blocks :
  words_of (sha256 (bytes_of_string
    "abcdbcdecdefdefgefghfghighijhijkijkljklmklmnlmnomnopnopq")) =
  [0x248d6a61; 0xd20638b8; 0xe5c02693; 0x0c3e6039;
   0xa33ce459; 0x64ff2167; 0xf6ecedd4; 0x19db06c1].
Proof. vm_compute. reflexivity. Qed.

(** ** Big-endian encoding is injective on [uint32] *)

Lemma byteZ_byte_of_Z z : byteZ (byte_of_Z z) = z `mod` 256.
Proof.
  unfold byteZ, byte_of_Z. pose proof (Z.mod_pos_bound z 256).
  destruct (Byte.of_N (Z.to_N (z `mod` 256))) as [b|] eqn:E.
  - apply Byte.to_of_N in E. rewrite E. lia.
  - apply Byte.of_N_None_iff in E. lia.
Qed.

Lemma be32_decode v b0 b1 b2 b3 : be32 v = [b0; b1; b2; b3] → word_of b0 b1 b2 b3 = u32 v.
Proof.
  unfold be32. intros [= <- <- <- <-]. unfold word_of, u32.
  rewrite !byteZ_byte_of_Z, !Z.shiftr_div_pow2 by lia.
  change (2 ^ 24) with 16777216. change (2 ^ 16) with 65536. change (2 ^ 8) with 256.
  change (2 ^ 32) with 4294967296.
  pose proof (Z.div_mod v 256). pose proof (Z.div_mod (v / 256) 256).
  Z.div_mod_to_equations. lia.
Qed.

Lemma be32_app_inj a b r r' :
  be32 a ++ r = be32 b ++ r' → u32 a = u32 b ∧ r = r'.
Proof.
  intros H. apply app_inj_1 in H as [H ->]; [|done]. split; [|done].
  by rewrite <-(be32_decode a _ _ _ _ H), <-(be32_decode b _ _ _ _ eq_refl).
Qed.
