(* ===== verification/Router.v ===== *)
(** * Router: key-to-shard and shard-to-node hashing
    (src/control/internal/router/router.go)

    [ShardForKey], [nodeSeed], [mix64], [weight], [AssignShards],
    [AssignShardOwners], [PrimaryMap] and [OwnerForKey] are the functions of the
    Go package, loop by loop.  The specification they are compared with is
    [ranking]: the list of all nodes sorted by decreasing rendezvous weight. *)

From S2P Require Import Prelude.
Local Open Scope Z_scope.

(** ** [hash/fnv]: 64-bit FNV-1a *)

Definition fnv_offset64 : Z := 14695981039346656037.
Definition fnv_prime64 : Z := 1099511628211.

Definition fnv1a_step (h : Z) (b : byte) : Z :=
  u64 (Z.lxor h (byteZ b) * fnv_prime64).

Definition fnv64a (data : bytes) : Z := foldl fnv1a_step fnv_offset64 data.

(** ** The hashes of the package *)

Definition ShardForKey (key : bytes) (shardCount : Z) : Z :=
  if shardCount =? 0 then 0 else u32 (fnv64a key `mod` shardCount).

Definition nodeSeed (nodeID : string) : Z := fnv64a (bytes_of_string nodeID).

Definition xorshift (k x : Z) : Z := Z.lxor x (Z.shiftr x k).

Definition mix64 (x : Z) : Z :=
  let x := xorshift 30 x in
  let x := u64 (x * 0xbf58476d1ce4e5b9) in
  let x := xorshift 27 x in
  let x := u64 (x * 0x94d049bb133111eb) in
  xorshift 31 x.

Definition weight (shard : Z) (nodeID : string) : Z :=
  mix64 (Z.lxor (nodeSeed nodeID) (mix64 shard)).

(** ** [AssignShards]: argmax per shard *)

Record best := Best { bestID : string; bestW : Z; found : bool }.

Definition best_step (shardSeed : Z) (b : best) (c : string * Z) : best :=
  let '(id, seed) := c in
  let w := mix64 (Z.lxor seed shardSeed) in
  if negb (found b) || (bestW b <? w) || ((w =? bestW b) && string_ltb id (bestID b))
  then Best id w true else b.

Definition AssignShards (nodeIDs : list string) (shardCount : Z) : gmap Z string :=
  if bool_decide (nodeIDs = []) || (shardCount =? 0) then ∅ else
  let seeds := nodeSeed <$> nodeIDs in
  foldl (fun assignment shard =>
           let shardSeed := mix64 shard in
           let b := foldl (best_step shardSeed) (Best "" 0 false) (zip nodeIDs seeds) in
           <[shard := bestID b]> assignment)
        ∅ (seqZ 0 shardCount).

(** ** [AssignShardOwners]: top-K insertion scan *)

Record ShardOwners := MkShardOwners { Primary : string; Replicas : list string }.

#[export] Instance ShardOwners_eq_dec : EqDecision ShardOwners.
Proof. solve_decision. Defined.

Record rankedNode := Ranked { rn_id : string; rn_weight : Z }.

#[export] Instance rankedNode_eq_dec : EqDecision rankedNode.
Proof. solve_decision. Defined.

Definition ranksBefore (a b : rankedNode) : bool :=
  (rn_weight b <? rn_weight a) ||
  ((rn_weight a =? rn_weight b) && string_ltb (rn_id a) (rn_id b)).

(** The inner [for position > 0 && ...] loop with the final store
    [top[position] = candidate]. *)
Fixpoint shift_down (candidate : rankedNode) (top : list rankedNode) (position : nat)
    : list rankedNode :=
  match position with
  | O => <[0%nat := candidate]> top
  | S p =>
      match top !! p with
      | Some previous =>
          if ranksBefore candidate previous
          then shift_down candidate (<[S p := previous]> top) p
          else <[S p := candidate]> top
      | None => top
      end
  end.

(** One iteration of the candidate loop; [wanted] is [cap(top)]. *)
Definition consider (wanted : nat) (top : list rankedNode) (candidate : rankedNode)
    : list rankedNode :=
  let full := bool_decide (length top = wanted) in
  let rejected := match last top with
                  | Some l => negb (ranksBefore candidate l)
                  | None => false
                  end in
  if full && rejected then top else
  let top := if bool_decide (length top < wanted)%nat
             then top ++ [Ranked "" 0] else top in
  shift_down candidate top (length top - 1).

Definition owners_of_top (top : list rankedNode) : ShardOwners :=
  match top with
  | [] => MkShardOwners "" []
  | p :: rest => MkShardOwners (rn_id p) (rn_id <$> rest)
  end.

(** [None] is the run-time panic of [make([]rankedNode, 0, wanted)] with a
    negative capacity, which the overflow of [replicaFactor + 1] produces. *)
Definition AssignShardOwners (nodeIDs : list string) (shardCount replicaFactor : Z)
    : option (gmap Z ShardOwners) :=
  if bool_decide (nodeIDs = []) || (shardCount =? 0) then Some ∅ else
  let replicaFactor := if replicaFactor <? 0 then 0 else replicaFactor in
  let seeds := nodeSeed <$> nodeIDs in
  let n := Z.of_nat (length nodeIDs) in
  let wanted := i64 (replicaFactor + 1) in
  let wanted := if n <? wanted then n else wanted in
  if wanted <? 0 then None else
  Some (foldl (fun assignment shard =>
           let shardSeed := mix64 shard in
           let top := foldl (fun top '(id, seed) =>
                               consider (Z.to_nat wanted) top
                                 (Ranked id (mix64 (Z.lxor seed shardSeed))))
                            [] (zip nodeIDs seeds) in
           <[shard := owners_of_top top]> assignment)
        ∅ (seqZ 0 shardCount)).

Definition PrimaryMap (owners : gmap Z ShardOwners) : gmap Z string :=
  Primary <$> owners.

(** [(owner, true)] is [Some owner]; [(_, false)] is [None]. *)
Definition OwnerForKey (key : bytes) (shardCount : Z) (shardMap : gmap Z string)
    : option string :=
  match shardMap !! ShardForKey key shardCount with
  | Some nodeID => if bool_decide (nodeID = "") then None else Some nodeID
  | None => None
  end.

(** ** Specification: the rendezvous ranking of a shard *)

Definition ranks_le (a b : rankedNode) : Prop := ranksBefore b a = false.

#[export] Instance ranks_le_dec : RelDecision ranks_le.
Proof. intros a b. unfold ranks_le. apply _. Defined.

Definition ranked (shard : Z) (id : string) : rankedNode := Ranked id (weight shard id).

Definition ranking (shard : Z) (nodeIDs : list string) : list rankedNode :=
  merge_sort ranks_le (ranked shard <$> nodeIDs).

(** The node IDs in promotion order. *)
Definition ranked_ids (shard : Z) (nodeIDs : list string) : list string :=
  rn_id <$> ranking shard nodeIDs.

Example ShardForKey_ex : ShardForKey (bytes_of_string "hello") 256 = 11.
Proof. vm_compute. reflexivity. Qed.

(** ** The ranking order is a total order *)

Lemma ranks_le_spec a b :
  ranks_le a b ↔
    rn_weight b < rn_weight a ∨
    (rn_weight a = rn_weight b ∧ String.le (rn_id a) (rn_id b)).
Proof.
  unfold ranks_le, ranksBefore.
  destruct (Z.ltb_spec (rn_weight a) (rn_weight b)) as [|Hle]; cbn; [lia|].
  destruct (Z.eqb_spec (rn_weight b) (rn_weight a)) as [Heq|Hne]; cbn; [|lia].
  rewrite <-not_true_iff_false, string_ltb_lt.
  destruct (decide (String.le (rn_id a) (rn_id b))); naive_solver lia.
Qed.

#[export] Instance ranks_le_po : PartialOrder ranks_le.
Proof.
  split; [split|].
  - intros a. apply ranks_le_spec. right. done.
  - intros a b c. rewrite !ranks_le_spec.
    intros [?|[? Hab]] [?|[? Hbc]]; [lia|lia|lia|].
    right. split; [lia|]. by etrans.
  - intros [i w] [i' w']. rewrite !ranks_le_spec; cbn.
    intros [?|[-> ?]] [?|[? ?]]; [lia|lia|lia|].
    f_equal. by apply (anti_symm String.le).
Qed.

#[export] Instance ranks_le_total : Total ranks_le.
Proof.
  intros a b. rewrite !ranks_le_spec.
  destruct (Z.lt_trichotomy (rn_weight a) (rn_weight b)) as [?|[?|?]]; [by auto| |by auto].
  destruct (total String.le (rn_id a) (rn_id b)); auto.
Qed.

Lemma ranksBefore_not_le a b : ranksBefore a b = true ↔ ¬ ranks_le b a.
Proof. unfold ranks_le. destruct (ranksBefore a b); naive_solver. Qed.

Lemma ranksBefore_le a b : ranksBefore a b = true → ranks_le a b.
Proof.
  intros H%ranksBefore_not_le. by destruct (total ranks_le a b).
Qed.

(** ** Insertion into a ranked prefix *)

Fixpoint insert_ranked (c : rankedNode) (l : list rankedNode) : list rankedNode :=
  match l with
  | [] => [c]
  | x :: l' => if ranksBefore c x then c :: x :: l' else x :: insert_ranked c l'
  end.

Lemma insert_ranked_Permutation c l : insert_ranked c l ≡ₚ c :: l.
Proof.
  induction l as [|x l IH]; cbn; [done|].
  destruct (ranksBefore c x); [done|]. rewrite IH. constructor.
Qed.

Lemma insert_ranked_sorted c l :
  StronglySorted ranks_le l → StronglySorted ranks_le (insert_ranked c l).
Proof.
  induction 1 as [|x l Hs IH Hx]; cbn; [repeat constructor|].
  destruct (ranksBefore c x) eqn:Hc.
  - apply ranksBefore_le in Hc.
    constructor; [by constructor|]. constructor; [done|].
    eapply Forall_impl; [done|]. intros y ?. by etrans.
  - constructor; [done|].
    rewrite insert_ranked_Permutation. by constructor.
Qed.

Lemma insert_ranked_snoc_before c l x :
  ranksBefore c x = true → insert_ranked c (l ++ [x]) = insert_ranked c l ++ [x].
Proof.
  intros Hx. induction l as [|y l IH]; cbn; [by rewrite Hx|].
  destruct (ranksBefore c y); cbn; [done|]. by rewrite IH.
Qed.

Lemma insert_ranked_last c l x :
  StronglySorted ranks_le (l ++ [x]) → ranksBefore c x = false →
  insert_ranked c (l ++ [x]) = l ++ [x; c].
Proof.
  intros Hs Hx. induction l as [|y l IH]; cbn; [by rewrite Hx|].
  cbn in Hs. apply StronglySorted_cons in Hs as [Hy Hs].
  assert (ranksBefore c y = false) as ->.
  { change (ranks_le y c). transitivity x; [|exact Hx].
    rewrite Forall_forall in Hy. apply Hy. set_solver. }
  by rewrite IH.
Qed.

(** The in-place shifting loop is sorted insertion. *)
Lemma shift_down_spec c l x suffix :
  StronglySorted ranks_le l →
  shift_down c (l ++ x :: suffix) (length l) = insert_ranked c l ++ suffix.
Proof.
  revert x suffix. induction l as [|y l IH] using rev_ind; intros x suffix Hs; [done|].
  rewrite length_app, Nat.add_1_r. cbn [shift_down].
  rewrite <-app_assoc. cbn [app].
  rewrite list_lookup_middle by done.
  destruct (ranksBefore c y) eqn:Hc.
  - replace (<[S (length l):=y]> (l ++ y :: x :: suffix)) with (l ++ y :: y :: suffix).
    2: { rewrite insert_app_r_alt by lia.
         replace (S (length l) - length l)%nat with 1%nat by lia. done. }
    rewrite IH by (by eapply StronglySorted_app_1_l).
    rewrite insert_ranked_snoc_before by done. by rewrite <-app_assoc.
  - rewrite insert_app_r_alt by lia.
    replace (S (length l) - length l)%nat with 1%nat by lia. cbn.
    rewrite insert_ranked_last by done. by rewrite <-app_assoc.
Qed.

Lemma take_insert_ranked n c l :
  take n (insert_ranked c (take n l)) = take n (insert_ranked c l).
Proof.
  revert n. induction l as [|x l IH]; intros [|n]; cbn; try done.
  destruct (ranksBefore c x); cbn.
  - f_equal. destruct n; cbn; [done|]. f_equal. by rewrite take_take, Nat.min_l by lia.
  - by rewrite IH.
Qed.

(** One candidate of the top-K scan. *)
Lemma consider_spec wanted top c :
  (0 < wanted)%nat → (length top ≤ wanted)%nat → StronglySorted ranks_le top →
  consider wanted top c = take wanted (insert_ranked c top).
Proof.
  intros Hw Hlen Hs. unfold consider.
  destruct (decide (length top = wanted)) as [Hfull|Hnfull].
  - rewrite bool_decide_eq_true_2 by done.
    destruct (exists_last (l := top)) as (l & x & ->); [by intros ->; cbn in *; lia|].
    rewrite last_snoc. rewrite length_app in Hfull; cbn in Hfull.
    destruct (ranksBefore c x) eqn:Hc; cbn [negb andb].
    + rewrite bool_decide_eq_false_2 by (rewrite length_app; cbn; lia).
      rewrite length_app. replace (length l + length [x] - 1)%nat with (length l) by (cbn; lia).
      rewrite shift_down_spec by (by eapply StronglySorted_app_1_l).
      rewrite app_nil_r, insert_ranked_snoc_before by done.
      rewrite take_app_le.
      2: { rewrite insert_ranked_Permutation; cbn. lia. }
      rewrite take_ge; [done|]. rewrite insert_ranked_Permutation; cbn; lia.
    + rewrite insert_ranked_last by done.
      replace (l ++ [x; c]) with ((l ++ [x]) ++ [c]) by (by rewrite <-app_assoc).
      rewrite take_app_le, take_ge; [done|..]; rewrite length_app; cbn; lia.
  - rewrite bool_decide_eq_false_2 by done. cbn [andb].
    rewrite bool_decide_eq_true_2 by lia.
    rewrite length_app. replace (length top + length [Ranked "" 0] - 1)%nat with (length top)
      by (cbn; lia).
    rewrite shift_down_spec by done. rewrite app_nil_r, take_ge; [done|].
    rewrite insert_ranked_Permutation; cbn; lia.
Qed.

Lemma foldl_insert_ranked_Permutation l acc :
  foldl (fun t c => insert_ranked c t) acc l ≡ₚ acc ++ l.
Proof.
  revert acc. induction l as [|c l IH]; intros acc; cbn; [by rewrite app_nil_r|].
  rewrite IH, insert_ranked_Permutation. cbn. by rewrite Permutation_middle.
Qed.

Lemma foldl_insert_ranked_sorted l acc :
  StronglySorted ranks_le acc →
  StronglySorted ranks_le (foldl (fun t c => insert_ranked c t) acc l).
Proof.
  revert acc. induction l as [|c l IH]; intros acc ?; cbn; [done|].
  by apply IH, insert_ranked_sorted.
Qed.

Lemma foldl_consider wanted l acc :
  (0 < wanted)%nat → StronglySorted ranks_le acc →
  foldl (consider wanted) (take wanted acc) l =
  take wanted (foldl (fun t c => insert_ranked c t) acc l).
Proof.
  intros Hw. revert acc. induction l as [|c l IH]; intros acc Hs; cbn; [done|].
  rewrite consider_spec, take_insert_ranked; [|done| |by apply StronglySorted_take].
  - by apply IH, insert_ranked_sorted.
  - rewrite length_take. lia.
Qed.

(** The top-K scan returns the first [wanted] entries of the full sort. *)
Lemma scan_is_top_of_sort wanted l :
  (0 < wanted)%nat → foldl (consider wanted) [] l = take wanted (merge_sort ranks_le l).
Proof.
  intros Hw.
  assert (foldl (fun t c => insert_ranked c t) [] l = merge_sort ranks_le l) as <-.
  { symmetry. apply merge_sort_unique; [apply _..| |].
    - apply foldl_insert_ranked_sorted. constructor.
    - apply foldl_insert_ranked_Permutation. }
  rewrite <-foldl_consider by (done || constructor). by rewrite take_nil.
Qed.

(** ** Loop plumbing: hoisted seeds and the shard loop *)

Lemma foldl_zip_seeds {A} (f : A → string * Z → A) acc ids :
  foldl f acc (zip ids (nodeSeed <$> ids)) =
  foldl (fun a id => f a (id, nodeSeed id)) acc ids.
Proof. revert acc. induction ids as [|i ids IH]; intros acc; cbn; [done|]. apply IH. Qed.

Lemma foldl_fmap {A B C} (f : A → B → A) (g : C → B) acc (l : list C) :
  foldl f acc (g <$> l) = foldl (fun a c => f a (g c)) acc l.
Proof. revert acc. induction l as [|c l IH]; intros acc; cbn; [done|]. apply IH. Qed.

Lemma lookup_foldl_insert {A} (f : Z → A) l (m : gmap Z A) s :
  foldl (fun acc x => <[x := f x]> acc) m l !! s =
  if decide (s ∈ l) then Some (f s) else m !! s.
Proof.
  revert m. induction l as [|x l IH]; intros m; cbn; [done|].
  rewrite IH. destruct (decide (s ∈ l)); [by rewrite decide_True by set_solver|].
  destruct (decide (s = x)) as [->|].
  - rewrite lookup_insert_eq, decide_True by set_solver. done.
  - rewrite lookup_insert_ne by done. by rewrite decide_False by set_solver.
Qed.

Lemma lookup_shard_loop {A} (f : Z → A) n s :
  foldl (fun acc x => <[x := f x]> acc) (∅ : gmap Z A) (seqZ 0 n) !! s =
  if decide (0 ≤ s < n) then Some (f s) else None.
Proof.
  rewrite lookup_foldl_insert, lookup_empty.
  destruct (decide (s ∈ seqZ 0 n)) as [Hs|Hs]; rewrite elem_of_seqZ in Hs.
  - by rewrite decide_True by lia.
  - by rewrite decide_False by lia.
Qed.

(** ** [AssignShards] is the head of the ranking *)

Definition best_node (b : best) : rankedNode := Ranked (bestID b) (bestW b).

Definition better (a c : rankedNode) : rankedNode := if ranksBefore c a then c else a.

Lemma best_step_found shard b id :
  found b = true →
  best_step (mix64 shard) b (id, nodeSeed id) =
    let r := better (best_node b) (ranked shard id) in Best (rn_id r) (rn_weight r) true.
Proof.
  intros Hf. destruct b as [i w f]; cbn in Hf; subst f.
  unfold best_step, better, ranked, ranksBefore, best_node; cbn -[mix64].
  fold (weight shard id). by destruct (_ || _).
Qed.

Lemma foldl_best_found shard ids b :
  found b = true →
  best_node (foldl (fun b id => best_step (mix64 shard) b (id, nodeSeed id)) b ids) =
  foldl better (best_node b) (ranked shard <$> ids).
Proof.
  revert b. induction ids as [|id ids IH]; intros b Hb; cbn -[best_step]; [done|].
  rewrite (IH (best_step _ _ _)); rewrite best_step_found by done; cbn; [|done].
  do 2 f_equal. by destruct (better _ _).
Qed.

Lemma merge_sort_head_better l a :
  head (merge_sort ranks_le (a :: l)) = Some (foldl better a l).
Proof.
  assert (∃ k, merge_sort ranks_le (a :: l) = foldl better a l :: k) as [k ->]; [|done].
  revert a. induction l as [|c l IH]; intros a.
  { exists []. done. }
  cbn [foldl]. destruct (IH (better a c)) as [k Hk].
  set (o := if ranksBefore c a then a else c).
  assert (ranks_le (better a c) o) as Hle.
  { unfold o, better. destruct (ranksBefore c a) eqn:E; [by apply ranksBefore_le|done]. }
  assert (Hp : a :: c :: l ≡ₚ o :: better a c :: l).
  { unfold o, better. destruct (ranksBefore c a); [done|constructor]. }
  rewrite (merge_sort_Permutation_eq _ _ _ Hp).
  pose proof (merge_sort_StronglySorted ranks_le (better a c :: l)) as Hs.
  pose proof (merge_sort_Permutation ranks_le (better a c :: l)) as Hpk.
  rewrite Hk in Hs, Hpk.
  assert (Hho : ranks_le (foldl better (better a c) l) o).
  { transitivity (better a c); [|done].
    apply StronglySorted_cons in Hs as [Hh _]. rewrite Forall_forall in Hh.
    assert (better a c ∈ foldl better (better a c) l :: k) as [Heq|]%elem_of_cons;
      [rewrite Hpk; set_solver|by rewrite <-Heq|by apply Hh]. }
  exists (insert_ranked o k). apply merge_sort_unique; [apply _..| |].
  - apply StronglySorted_cons in Hs as [Hh Hs]. constructor.
    + by apply insert_ranked_sorted.
    + rewrite insert_ranked_Permutation. by constructor.
  - rewrite insert_ranked_Permutation, <-Hpk. constructor.
Qed.

(** What the argmax loop computes for one shard. *)
Lemma best_loop_spec shard ids :
  ids ≠ [] →
  Some (bestID (foldl (best_step (mix64 shard)) (Best "" 0 false)
                  (zip ids (nodeSeed <$> ids)))) = head (ranked_ids shard ids).
Proof.
  intros Hne. rewrite foldl_zip_seeds.
  destruct ids as [|id ids]; [done|]. cbn -[best_step ranked_ids].
  unfold ranked_ids, ranking. rewrite fmap_cons.
  assert (best_step (mix64 shard) (Best "" 0 false) (id, nodeSeed id) =
          Best id (weight shard id) true) as -> by done.
  change (ranked shard id) with (best_node (Best id (weight shard id) true)).
  pose proof (merge_sort_head_better (ranked shard <$> ids)
                (best_node (Best id (weight shard id) true))) as Hh.
  rewrite <-foldl_best_found in Hh by done.
  destruct (merge_sort _ _) as [|r rs]; cbn in Hh |- *; [done|].
  by simplify_eq/=.
Qed.

Lemma ranked_ids_nil shard : ranked_ids shard [] = [].
Proof. done. Qed.

Lemma length_ranked_ids shard ids : length (ranked_ids shard ids) = length ids.
Proof. unfold ranked_ids, ranking. by rewrite length_fmap, length_merge_sort, length_fmap. Qed.

Lemma ranked_ids_Permutation shard ids : ranked_ids shard ids ≡ₚ ids.
Proof.
  unfold ranked_ids, ranking. rewrite merge_sort_Permutation.
  rewrite <-list_fmap_compose. cbn. by rewrite list_fmap_id.
Qed.

(** [AssignShards], shard by shard. *)
Lemma lookup_AssignShards ids n s :
  AssignShards ids n !! s =
  if decide (0 ≤ s < n) then head (ranked_ids s ids) else None.
Proof.
  unfold AssignShards.
  destruct (bool_decide_reflect (ids = [])) as [->|Hne]; cbn [orb].
  { rewrite lookup_empty. by case_decide. }
  destruct (Z.eqb_spec n 0) as [->|]; cbn [orb].
  { rewrite lookup_empty, decide_False by lia. done. }
  rewrite (lookup_shard_loop (fun shard => bestID (foldl (best_step (mix64 shard))
             (Best "" 0 false) (zip ids (nodeSeed <$> ids))))).
  case_decide; [|done]. by apply best_loop_spec.
Qed.

(** The primary and replicas of one shard, read off the ranking. *)
Definition owners_spec (s : Z) (ids : list string) (rf : Z) : option ShardOwners :=
  match take (S (Z.to_nat rf)) (ranked_ids s ids) with
  | [] => None
  | p :: rest => Some (MkShardOwners p rest)
  end.

Lemma owners_of_top_spec s ids rf wanted :
  ids ≠ [] → wanted = (S (Z.to_nat rf) `min` length ids)%nat →
  Some (owners_of_top (foldl (fun top '(id, seed) =>
          consider wanted top (Ranked id (mix64 (Z.lxor seed (mix64 s))))) []
          (zip ids (nodeSeed <$> ids)))) = owners_spec s ids rf.
Proof.
  intros Hne ->. rewrite foldl_zip_seeds.
  assert (length ids ≠ 0)%nat by (by destruct ids).
  rewrite <-(foldl_fmap (consider _) (ranked s)), scan_is_top_of_sort by lia.
  unfold owners_spec, ranked_ids. rewrite <-fmap_take.
  rewrite <-take_take.
  rewrite (take_ge _ (length ids)).
  2: { rewrite length_merge_sort, length_fmap. lia. }
  fold (ranking s ids).
  assert (length (ranking s ids) ≠ 0)%nat.
  { unfold ranking. rewrite length_merge_sort, length_fmap. lia. }
  by destruct (ranking s ids) as [|r rs]; cbn.
Qed.

(** [AssignShardOwners] never panics below [MaxInt64], and is the first
    [1 + replicaFactor] entries of every shard's ranking. *)
Lemma AssignShardOwners_total ids n rf :
  in_i64 rf → rf ≠ maxInt64 →
  ∃ m, AssignShardOwners ids n rf = Some m ∧
       ∀ s, m !! s = if decide (0 ≤ s < n) then owners_spec s ids rf else None.
Proof.
  intros Hrf Hmax. unfold AssignShardOwners.
  destruct (bool_decide_reflect (ids = [])) as [->|Hne]; cbn [orb].
  { exists ∅. split; [done|]. intros s. rewrite lookup_empty. by case_decide. }
  destruct (Z.eqb_spec n 0) as [->|]; cbn [orb].
  { exists ∅. split; [done|]. intros s. by rewrite lookup_empty, decide_False by lia. }
  set (rf' := if rf <? 0 then 0 else rf).
  assert (0 ≤ rf' < maxInt64 ∧ Z.to_nat rf' = Z.to_nat rf) as [Hrf' Hnat].
  { unfold rf', in_i64, maxInt64 in *. case_bool; lia. }
  rewrite (i64_id (rf' + 1)) by (unfold in_i64, maxInt64 in *; lia).
  set (wanted := if Z.of_nat (length ids) <? rf' + 1 then _ else _).
  assert (Hw : Z.to_nat wanted = (S (Z.to_nat rf) `min` length ids)%nat ∧ 0 ≤ wanted).
  { unfold wanted. case_bool; lia. }
  rewrite (proj2 (Z.ltb_ge wanted 0)) by lia.
  eexists. split; [reflexivity|]. intros s.
  rewrite (lookup_shard_loop (fun shard => owners_of_top (foldl (fun top '(id, seed) =>
     consider (Z.to_nat wanted) top (Ranked id (mix64 (Z.lxor seed (mix64 shard))))) []
     (zip ids (nodeSeed <$> ids))))).
  case_decide; [|done]. apply owners_of_top_spec; [done|apply Hw].
Qed.

Lemma AssignShardOwners_MaxInt64 ids n :
  ids ≠ [] → n ≠ 0 → AssignShardOwners ids n maxInt64 = None.
Proof.
  intros Hne Hn. unfold AssignShardOwners.
  rewrite bool_decide_eq_false_2 by done.
  rewrite (proj2 (Z.eqb_neq n 0)) by done. cbn [orb].
  change (if maxInt64 <? 0 then 0 else maxInt64) with maxInt64.
  rewrite i64_overflow. rewrite (proj2 (Z.ltb_ge (Z.of_nat (length ids)) _)) by lia.
  done.
Qed.

Lemma lookup_AssignShardOwners ids n rf m s :
  in_i64 rf → AssignShardOwners ids n rf = Some m →
  m !! s = if decide (0 ≤ s < n) then owners_spec s ids rf else None.
Proof.
  intros Hrf Hm. destruct (decide (rf = maxInt64)) as [->|Hne].
  - destruct (decide (ids = [])) as [->|].
    { cbn in Hm. simplify_eq. rewrite lookup_empty. by case_decide. }
    destruct (decide (n = 0)) as [->|].
    { unfold AssignShardOwners in Hm. rewrite orb_true_r in Hm.
      simplify_eq. by rewrite lookup_empty, decide_False by lia. }
    by rewrite AssignShardOwners_MaxInt64 in Hm.
  - destruct (AssignShardOwners_total ids n rf Hrf Hne) as (m' & Hm' & Hlk).
    rewrite Hm in Hm'. by simplify_eq.
Qed.

(** ** The ranking under a change of membership *)

Lemma ranked_ids_Proper shard ids ids' :
  ids ≡ₚ ids' → ranked_ids shard ids = ranked_ids shard ids'.
Proof.
  intros Hp. unfold ranked_ids, ranking. f_equal.
  apply merge_sort_Permutation_eq; [apply _..|]. by rewrite Hp.
Qed.

Lemma ranked_elem shard ids r : r ∈ ranking shard ids → r = ranked shard (rn_id r).
Proof.
  unfold ranking. rewrite elem_of_merge_sort. intros (id & -> & _)%list_elem_of_fmap. done.
Qed.

(** Nodes leaving remove their entries from the ranking and change nothing
    else: what makes every movement property exact. *)
Lemma ranked_ids_filter (P : string → Prop) `{!∀ x, Decision (P x)} shard ids :
  ranked_ids shard (filter P ids) = filter P (ranked_ids shard ids).
Proof.
  unfold ranked_ids. rewrite list_filter_fmap. f_equal.
  unfold ranking. apply merge_sort_unique; [apply _..| |].
  - apply StronglySorted_filter, merge_sort_StronglySorted; apply _.
  - rewrite merge_sort_Permutation, list_filter_fmap. done.
Qed.

Lemma ranking_sorted shard ids : StronglySorted ranks_le (ranking shard ids).
Proof. apply merge_sort_StronglySorted; apply _. Qed.

Lemma head_ranked_ids_argmax shard ids o :
  head (ranked_ids shard ids) = Some o ↔
  o ∈ ids ∧ ∀ id, id ∈ ids → ranks_le (ranked shard o) (ranked shard id).
Proof.
  assert (∀ k, head (ranked_ids shard ids) = Some k →
    k ∈ ids ∧ ∀ id, id ∈ ids → ranks_le (ranked shard k) (ranked shard id)) as Hfwd.
  { intros k Hk. pose proof (ranked_ids_Permutation shard ids) as Hp.
    pose proof (ranking_sorted shard ids) as Hs.
    unfold ranked_ids in *. destruct (ranking shard ids) as [|r rs] eqn:E; [done|].
    cbn in Hk. simplify_eq. split; [rewrite <-Hp; set_solver|].
    assert (ranked shard (rn_id r) = r) as ->.
    { symmetry. apply (ranked_elem shard ids). rewrite E. set_solver. }
    intros id Hid. rewrite <-Hp in Hid. cbn in Hid.
    apply StronglySorted_cons in Hs as [Hr _]. rewrite Forall_forall in Hr.
    apply elem_of_cons in Hid as [->|(q & -> & Hq)%list_elem_of_fmap].
    - rewrite <-(ranked_elem shard ids r); [done|]. rewrite E; set_solver.
    - rewrite <-(ranked_elem shard ids q); [by apply Hr|]. rewrite E; set_solver. }
  split; [apply Hfwd|]. intros [Ho Hmax].
  destruct (ranked_ids shard ids) as [|k ks] eqn:E.
  { pose proof (ranked_ids_Permutation shard ids) as Hp. rewrite E in Hp.
    apply Permutation_nil in Hp. subst. by apply elem_of_nil in Ho. }
  cbn. destruct (Hfwd k eq_refl) as [Hk Hkmax]. f_equal.
  assert (ranked shard k = ranked shard o) as Heq.
  { apply (anti_symm ranks_le); [by apply Hkmax|by apply Hmax]. }
  by apply (f_equal rn_id) in Heq.
Qed.

(** ** [mix64] is a bijection of [uint64] *)

Lemma xorshift_range k x : 0 ≤ k → in_u64 x → in_u64 (xorshift k x).
Proof. intros. apply lxor_range; [lia|done|]. by apply shiftr_range. Qed.

Definition unxorshift (k y : Z) : Z :=
  Z.lxor (Z.lxor y (Z.shiftr y k)) (Z.shiftr y (k + k)).

Lemma unxorshift_range k y : 0 ≤ k → in_u64 y → in_u64 (unxorshift k y).
Proof.
  intros. apply lxor_range; [lia| |apply shiftr_range; [lia|done]].
  by apply xorshift_range.
Qed.

Lemma shiftr_u64_zero k x : 64 ≤ k → in_u64 x → Z.shiftr x k = 0.
Proof.
  intros Hk [Hx Hx']. rewrite Z.shiftr_div_pow2 by lia. apply Z.div_small.
  split; [lia|]. eapply Z.lt_le_trans; [done|]. apply Z.pow_le_mono_r; lia.
Qed.

Lemma lxor_cancel_mid a b c : Z.lxor (Z.lxor a b) (Z.lxor b c) = Z.lxor a c.
Proof. by rewrite Z.lxor_assoc, <-(Z.lxor_assoc b b c), Z.lxor_nilpotent, Z.lxor_0_l. Qed.

Lemma unxorshift_xorshift k x :
  22 ≤ k → in_u64 x → unxorshift k (xorshift k x) = x.
Proof.
  intros Hk Hx. unfold unxorshift, xorshift.
  rewrite !Z.shiftr_lxor, !Z.shiftr_shiftr by lia.
  rewrite lxor_cancel_mid.
  rewrite (shiftr_u64_zero (k + (k + k))) by (done || lia).
  by rewrite Z.lxor_0_r, Z.lxor_assoc, Z.lxor_nilpotent, Z.lxor_0_r.
Qed.

Lemma xorshift_unxorshift k y :
  22 ≤ k → in_u64 y → xorshift k (unxorshift k y) = y.
Proof.
  intros Hk Hy. unfold unxorshift, xorshift.
  rewrite !Z.shiftr_lxor, !Z.shiftr_shiftr by lia.
  rewrite (shiftr_u64_zero (k + k + k)) by (done || lia). rewrite Z.lxor_0_r.
  rewrite (Z.lxor_assoc y), (Z.lxor_assoc y).
  by rewrite Z.lxor_nilpotent, Z.lxor_0_r.
Qed.

Lemma u64_mul_cancel a b x :
  in_u64 x → u64 (a * b) = 1 → u64 (u64 (x * a) * b) = x.
Proof.
  intros Hx Hab. rewrite u64_mul_u64_l, <-Z.mul_assoc.
  unfold u64 in *. rewrite <-Zmult_mod_idemp_r, Hab, Z.mul_1_r. by apply Z.mod_small.
Qed.

(** The inverse of the splitmix64 finalizer. *)
Definition unmix64 (x : Z) : Z :=
  let x := unxorshift 31 x in
  let x := u64 (x * 0x319642b2d24d8ec3) in
  let x := unxorshift 27 x in
  let x := u64 (x * 0x96de1b173f119089) in
  unxorshift 30 x.

Lemma mix64_range x : in_u64 x → in_u64 (mix64 x).
Proof. intros. unfold mix64. apply xorshift_range; [lia|]. auto with pulsekv. Qed.

Lemma unmix64_mix64 x : in_u64 x → unmix64 (mix64 x) = x.
Proof.
  intros Hx. unfold unmix64, mix64.
  rewrite unxorshift_xorshift by (lia || auto with pulsekv).
  rewrite u64_mul_cancel; [|apply xorshift_range; [lia|]; auto with pulsekv|done].
  rewrite unxorshift_xorshift by (lia || auto with pulsekv).
  rewrite u64_mul_cancel; [|by apply xorshift_range|done].
  by apply unxorshift_xorshift.
Qed.

Lemma mix64_unmix64 x : in_u64 x → mix64 (unmix64 x) = x.
Proof.
  intros Hx. unfold unmix64, mix64.
  rewrite xorshift_unxorshift by (lia || auto with pulsekv).
  rewrite u64_mul_cancel; [|apply unxorshift_range; [lia|]; auto with pulsekv|done].
  rewrite xorshift_unxorshift by (lia || auto with pulsekv).
  rewrite u64_mul_cancel; [|by apply unxorshift_range|done].
  by apply xorshift_unxorshift.
Qed.

Lemma fnv64a_range data : in_u64 (fnv64a data).
Proof.
  unfold fnv64a. assert (in_u64 fnv_offset64) as H by (unfold in_u64, fnv_offset64; lia).
  revert H. generalize fnv_offset64. induction data as [|b data IH]; intros h Hh; cbn; [done|].
  apply IH. unfold fnv1a_step. auto with pulsekv.
Qed.

Lemma mix64_inj x y : in_u64 x → in_u64 y → mix64 x = mix64 y → x = y.
Proof.
  intros Hx Hy H. by rewrite <-(unmix64_mix64 x), <-(unmix64_mix64 y), H.
Qed.

Lemma ShardForKey_range key n : 0 < n → in_u32 n → 0 ≤ ShardForKey key n < n.
Proof.
  intros Hn Hu. unfold ShardForKey. rewrite (proj2 (Z.eqb_neq n 0)) by lia.
  pose proof (Z.mod_pos_bound (fnv64a key) n Hn).
  rewrite u32_id; [lia|]. unfold in_u32 in *. lia.
Qed.

Lemma owners_spec_inv s ids rf o :
  owners_spec s ids rf = Some o →
  take (S (Z.to_nat rf)) (ranked_ids s ids) = Primary o :: Replicas o.
Proof. unfold owners_spec. by destruct (take _ _); intros; simplify_eq/=. Qed.

Lemma owners_spec_head s ids rf :
  Primary <$> owners_spec s ids rf = head (ranked_ids s ids).
Proof. unfold owners_spec. by destruct (ranked_ids s ids). Qed.

Lemma PrimaryMap_AssignShardOwners ids n rf m :
  in_i64 rf → AssignShardOwners ids n rf = Some m → PrimaryMap m = AssignShards ids n.
Proof.
  intros Hrf Hm. apply map_eq. intros s. unfold PrimaryMap.
  rewrite lookup_fmap, (lookup_AssignShardOwners _ _ _ _ _ Hrf Hm), lookup_AssignShards.
  case_decide; [|done]. apply owners_spec_head.
Qed.

Lemma owners_wf s ids rf o :
  NoDup ids → owners_spec s ids rf = Some o →
  NoDup (Primary o :: Replicas o) ∧ (∀ id, id ∈ Primary o :: Replicas o → id ∈ ids) ∧
  length (Replicas o) = (Z.to_nat rf `min` (length ids - 1))%nat.
Proof.
  intros Hnd Ho%owners_spec_inv.
  pose proof (ranked_ids_Permutation s ids) as Hp.
  split; [|split].
  - rewrite <-Ho. eapply (sublist_NoDup _ (ranked_ids s ids)); [by rewrite Hp|].
    apply sublist_take.
  - intros id Hid. rewrite <-Hp. rewrite <-Ho in Hid. apply elem_of_take in Hid as (i & Hi & _).
    apply list_elem_of_lookup. eauto.
  - apply (f_equal length) in Ho. rewrite length_take, length_ranked_ids in Ho.
    cbn [length] in Ho. lia.
Qed.

(** ** Properties *)

(** C17: the owner [AssignShards] publishes for a shard is exactly the argmax of
    the rendezvous weight over the node set, an exact tie going to the
    lexicographically smaller node ID; a shard outside [0..shardCount) has no
    entry. *)
Theorem AssignShards_argmax ids n s o :
  AssignShards ids n !! s = Some o ↔
  0 ≤ s < n ∧ o ∈ ids ∧
  ∀ id, id ∈ ids →
    weight s id < weight s o ∨ (weight s id = weight s o ∧ String.le o id).
Proof.
  rewrite lookup_AssignShards.
  case_decide as Hs; [|naive_solver].
  rewrite head_ranked_ids_argmax. setoid_rewrite ranks_le_spec. cbn. naive_solver.
Qed.

(** C9: both placement functions depend only on the set of node IDs handed to
    them, never on their order: two replicas that hold the same members publish
    the same maps. *)
Theorem placement_order_independent ids ids' n rf
  (Hrf : in_i64 rf) (Hperm : ids ≡ₚ ids') :
  AssignShards ids n = AssignShards ids' n ∧
  AssignShardOwners ids n rf = AssignShardOwners ids' n rf.
Proof.
  split.
  - apply map_eq. intros s. rewrite !lookup_AssignShards.
    by rewrite (ranked_ids_Proper s ids ids').
  - destruct (decide (rf = maxInt64)) as [->|Hne].
    + destruct (decide (ids = [])) as [->|Hids].
      { by apply Permutation_nil in Hperm as ->. }
      assert (ids' ≠ []) by (intros ->; by apply Permutation_nil_r in Hperm).
      destruct (decide (n = 0)) as [->|].
      * unfold AssignShardOwners. by rewrite !orb_true_r.
      * by rewrite !AssignShardOwners_MaxInt64.
    + destruct (AssignShardOwners_total ids n rf Hrf Hne) as (m & -> & Hm).
      destruct (AssignShardOwners_total ids' n rf Hrf Hne) as (m' & -> & Hm').
      f_equal. apply map_eq. intros s. rewrite Hm, Hm'. unfold owners_spec.
      by rewrite (ranked_ids_Proper s ids ids').
Qed.

Lemma placement_order_independent_witness :
  AssignShards ["node-0"; "node-1"; "node-2"] 8 =
  AssignShards ["node-2"; "node-0"; "node-1"] 8 ∧
  AssignShardOwners ["node-0"; "node-1"; "node-2"] 8 1 =
  AssignShardOwners ["node-2"; "node-0"; "node-1"] 8 1.
Proof.
  apply placement_order_independent; [unfold in_i64; lia|].
  change ["node-2"; "node-0"; "node-1"] with (["node-2"] ++ ["node-0"; "node-1"]).
  by rewrite Permutation_app_comm.
Defined.

(** C7: the two implementations of the ranking agree: the primary column of
    [AssignShardOwners] is the map [AssignShards] computes, for every node list,
    shard count and replication factor. *)
Theorem AssignShardOwners_primary ids n rf m
  (Hrf : in_i64 rf) (Hm : AssignShardOwners ids n rf = Some m) :
  PrimaryMap m = AssignShards ids n.
Proof. by eapply PrimaryMap_AssignShardOwners. Qed.

Lemma AssignShardOwners_primary_witness :
  ∃ m, AssignShardOwners ["node-0"; "node-1"; "node-2"] 4 1 = Some m ∧
       PrimaryMap m = AssignShards ["node-0"; "node-1"; "node-2"] 4.
Proof.
  eexists. split; [reflexivity|].
  apply (AssignShardOwners_primary ["node-0"; "node-1"; "node-2"] 4 1);
    [unfold in_i64; lia|reflexivity].
Defined.

(** C18: minimal movement, in both directions at once: adding (equivalently,
    removing) one node leaves every shard's owner unchanged except for the
    shards the new node itself owns. *)
Theorem AssignShards_minimal_movement ids x n s :
  AssignShards (x :: ids) n !! s = Some x ∨
  AssignShards (x :: ids) n !! s = AssignShards ids n !! s.
Proof.
  rewrite !lookup_AssignShards. case_decide; [|by right].
  destruct (head (ranked_ids s (x :: ids))) as [o|] eqn:Ho.
  - apply head_ranked_ids_argmax in Ho as [Hin Hmax].
    destruct (decide (o = x)) as [->|Hne]; [by left|]. right. symmetry.
    apply head_ranked_ids_argmax. split; [set_solver|].
    intros id ?. apply Hmax. set_solver.
  - pose proof (length_ranked_ids s (x :: ids)) as Hl.
    by destruct (ranked_ids s (x :: ids)).
Qed.

(** C19: promotion needs no election: when some nodes leave, the new owner of a
    shard is the first of its previous owners, in published order (primary, then
    replicas), that survives. *)
Theorem AssignShardOwners_promotion (alive : gset string) ids n rf m s o p ps
  (Hrf : in_i64 rf) (Hm : AssignShardOwners ids n rf = Some m)
  (Ho : m !! s = Some o)
  (Hsurvivor : filter (.∈ alive) (Primary o :: Replicas o) = p :: ps) :
  AssignShards (filter (.∈ alive) ids) n !! s = Some p.
Proof.
  rewrite (lookup_AssignShardOwners _ _ _ _ _ Hrf Hm) in Ho.
  rewrite lookup_AssignShards. case_decide; [|done].
  apply owners_spec_inv in Ho. rewrite ranked_ids_filter.
  rewrite <-(take_drop (S (Z.to_nat rf)) (ranked_ids s ids)), filter_app, Ho, Hsurvivor.
  done.
Qed.

Lemma AssignShardOwners_promotion_witness :
  AssignShards (filter (.∈ ({["node-0"; "node-1"]} : gset string))
                  ["node-0"; "node-1"; "node-2"]) 8 !! 0 = Some "node-0".
Proof.
  eapply (AssignShardOwners_promotion {["node-0"; "node-1"]}
            ["node-0"; "node-1"; "node-2"] 8 1 _ 0 (MkShardOwners "node-2" ["node-0"]));
    [unfold in_i64; lia|reflexivity|vm_compute; reflexivity|vm_compute; reflexivity].
Defined.

(** Placement is well formed: with distinct member IDs, every shard below
    [shardCount] has one primary and exactly [min(factor, members - 1)] replicas
    (a negative factor counts as 0), all of them distinct live members, the
    primary not among its replicas. *)
Theorem AssignShardOwners_well_formed ids n rf m s
  (Hrf : in_i64 rf) (Hne : ids ≠ []) (Hnd : NoDup ids) (Hs : 0 ≤ s < n)
  (Hm : AssignShardOwners ids n rf = Some m) :
  ∃ o, m !! s = Some o ∧ NoDup (Primary o :: Replicas o) ∧
       (∀ id, id ∈ Primary o :: Replicas o → id ∈ ids) ∧
       length (Replicas o) = (Z.to_nat rf `min` (length ids - 1))%nat.
Proof.
  destruct (owners_spec s ids rf) as [o|] eqn:Ho.
  - exists o. split; [|by apply (owners_wf s ids rf o)].
    by rewrite (lookup_AssignShardOwners _ _ _ _ _ Hrf Hm), decide_True.
  - pose proof (owners_spec_head s ids rf) as Hh. rewrite Ho in Hh.
    pose proof (length_ranked_ids s ids) as Hl.
    by destruct (ranked_ids s ids), ids.
Qed.

Lemma AssignShardOwners_well_formed_witness :
  ∃ m o, AssignShardOwners ["node-0"; "node-1"; "node-2"] 8 5 = Some m ∧
         m !! 3 = Some o ∧ length (Replicas o) = 2%nat.
Proof.
  eexists. destruct (AssignShardOwners_well_formed ["node-0"; "node-1"; "node-2"] 8 5 _ 3
    ltac:(unfold in_i64; lia) ltac:(discriminate)
    ltac:(vm_compute; repeat constructor; set_solver) ltac:(lia) eq_refl)
    as (o & Ho & _ & _ & Hlen).
  exists o. repeat split; [exact Ho|exact Hlen].
Defined.

(** The finalizer is a bijection of [uint64] (its inverse is [unmix64]),
    so for a given shard two nodes tie exactly when their FNV-1a seeds collide. *)
Theorem weight_tie_iff_seed_collision s a b (Hs : in_u32 s) :
  (∀ x, in_u64 x → unmix64 (mix64 x) = x ∧ mix64 (unmix64 x) = x) ∧
  (weight s a = weight s b ↔ nodeSeed a = nodeSeed b).
Proof.
  split; [auto using unmix64_mix64, mix64_unmix64|].
  unfold weight. split; [|by intros ->]. intros H.
  assert (in_u64 (mix64 s)) by (apply mix64_range; unfold in_u32, in_u64 in *; lia).
  apply mix64_inj in H; [|by apply lxor_range; [lia|apply fnv64a_range|]..].
  apply (f_equal (Z.lxor (mix64 s))) in H.
  rewrite !(Z.lxor_comm (mix64 s)), !Z.lxor_assoc, Z.lxor_nilpotent, !Z.lxor_0_r in H.
  done.
Qed.

Lemma weight_tie_iff_seed_collision_witness :
  weight 7 "node-0" = weight 7 "node-1" ↔ nodeSeed "node-0" = nodeSeed "node-1".
Proof. apply (weight_tie_iff_seed_collision 7); unfold in_u32; lia. Defined.

(** Every key routes: with a non-empty member list (no empty IDs), the map
    [AssignShards] computes resolves any key to a member, and that member is the
    one recorded for the key's shard, which lies in [0..shardCount). *)
Theorem OwnerForKey_total key ids n
  (Hn : 0 < n) (Hu : in_u32 n) (Hne : ids ≠ []) (Hempty : "" ∉ ids) :
  ∃ o, OwnerForKey key n (AssignShards ids n) = Some o ∧ o ∈ ids ∧
       AssignShards ids n !! ShardForKey key n = Some o ∧ 0 ≤ ShardForKey key n < n.
Proof.
  pose proof (ShardForKey_range key n Hn Hu) as Hr.
  unfold OwnerForKey. rewrite lookup_AssignShards, decide_True by done.
  destruct (head (ranked_ids (ShardForKey key n) ids)) as [o|] eqn:Ho.
  - apply head_ranked_ids_argmax in Ho as [Hin _]. exists o.
    rewrite bool_decide_eq_false_2 by (intros ->; done). done.
  - pose proof (length_ranked_ids (ShardForKey key n) ids) as Hl.
    by destruct (ranked_ids (ShardForKey key n) ids), ids.
Qed.

Lemma OwnerForKey_total_witness :
  ∃ o, OwnerForKey (bytes_of_string "hello") 16 (AssignShards ["node-0"; "node-1"] 16) = Some o.
Proof.
  destruct (OwnerForKey_total (bytes_of_string "hello") ["node-0"; "node-1"] 16)
    as (o & Ho & _); [lia|unfold in_u32; lia|discriminate|vm_compute; set_solver|].
  exists o. exact Ho.
Defined.

(** [AssignShardOwners] returns a map for every factor except [MaxInt64],
    where [replicaFactor + 1] wraps to a negative capacity and the [make] panics
    on any non-empty cluster. *)
Theorem AssignShardOwners_panic ids n rf
  (Hrf : in_i64 rf) (Hne : ids ≠ []) (Hn : n ≠ 0) :
  AssignShardOwners ids n rf = None ↔ rf = maxInt64.
Proof.
  split; [|intros ->; by apply AssignShardOwners_MaxInt64].
  intros H. destruct (decide (rf = maxInt64)) as [|Hmax]; [done|].
  destruct (AssignShardOwners_total ids n rf Hrf Hmax) as (m & Hm & _). congruence.
Qed.

Lemma AssignShardOwners_panic_witness :
  AssignShardOwners ["node-0"] 1 maxInt64 = None.
Proof.
  apply (AssignShardOwners_panic ["node-0"] 1 maxInt64);
    [unfold in_i64, maxInt64; lia|discriminate|lia|reflexivity].
Defined.
