(* ===== verification/Topology.v ===== *)
(** * Topology: coherent cluster-routing snapshots
    (src/control/internal/topology/topology.go)

    [validate] and [Fetch] are the client-side acceptance of a node list and a
    shard map fetched by two separate RPCs; [Fingerprint] is the content hash
    both sides compute.  The metadata server is an arbitrary sequence of
    responses ([attempt]), so every theorem about [Fetch] holds whatever the
    server answers and whatever changes between its two answers. *)

From S2P Require Import Prelude Sha256 Router.
Local Open Scope Z_scope.

(** ** Data *)

(** [metadatav1.NodeInfo]; the wire list holds pointers, [None] is nil. *)
Record NodeInfo := MkNodeInfo { NodeId : string; NodeAddress : string; Alive : bool }.

Record Snapshot := MkSnapshot {
  Generation : Z;
  SnapFingerprint : bytes;
  ShardCount : Z;
  ShardMap : gmap Z string;
  Nodes : gmap string string;
  Owners : gmap Z ShardOwners;          (* the nil map is the empty map *)
  ReplicationFactor : Z;
  RaftLeaderID : string;
  RaftTerm : Z
}.

Record FingerprintInput := MkFingerprintInput {
  fi_ShardCount : Z;
  fi_ReplicationFactor : Z;
  fi_Nodes : gmap string string;
  fi_ShardMap : gmap Z string;
  fi_Owners : gmap Z ShardOwners
}.

Definition Snapshot_FingerprintInput (s : Snapshot) : FingerprintInput :=
  MkFingerprintInput (ShardCount s) (ReplicationFactor s) (Nodes s) (ShardMap s) (Owners s).

(** [s.Owners[shard].Replicas]; a missing entry is the zero value. *)
Definition Snapshot_Replicas (s : Snapshot) (shard : Z) : list string :=
  match Owners s !! shard with Some o => Replicas o | None => [] end.

(** ** Fingerprint *)

Definition FingerprintSize : nat := 32.

Definition writeUint32 (value : Z) : bytes := be32 value.
Definition writeBytes (value : bytes) : bytes :=
  writeUint32 (u32 (Z.of_nat (length value))) ++ value.
Definition writeString (s : string) : bytes := writeBytes (bytes_of_string s).

Definition domain_tag : bytes := bytes_of_string "pulsekv-topology-v2" ++ [x00].

Definition write_node (nodes : gmap string string) (id : string) : bytes :=
  writeString id ++ writeString (default "" (nodes !! id)).

Definition write_shard (m : gmap Z string) (shard : Z) : bytes :=
  match m !! shard with
  | None => []
  | Some owner => writeUint32 shard ++ writeString owner
  end.

Definition write_owners (m : gmap Z ShardOwners) (shard : Z) : bytes :=
  match m !! shard with
  | None => []
  | Some o =>
      writeUint32 shard ++ writeString (Primary o) ++
      writeUint32 (u32 (Z.of_nat (length (Replicas o)))) ++
      concat (writeString <$> Replicas o)
  end.

(** Everything written to the hash, in order. *)
Definition fingerprint_stream (fi : FingerprintInput) : bytes :=
  let ids := sort_strings (map_to_list (fi_Nodes fi)).*1 in
  let shards := seqZ 0 (fi_ShardCount fi) in
  domain_tag ++
  writeUint32 (fi_ShardCount fi) ++
  writeUint32 (fi_ReplicationFactor fi) ++
  writeUint32 (u32 (Z.of_nat (length ids))) ++
  concat (write_node (fi_Nodes fi) <$> ids) ++
  writeUint32 (u32 (Z.of_nat (size (fi_ShardMap fi)))) ++
  concat (write_shard (fi_ShardMap fi) <$> shards) ++
  writeUint32 (u32 (Z.of_nat (size (fi_Owners fi)))) ++
  concat (write_owners (fi_Owners fi) <$> shards).

Definition Fingerprint (fi : FingerprintInput) : bytes := sha256 (fingerprint_stream fi).

(** ** validate *)

Inductive validate_error :=
| ZeroShardCount
| EmptyIdOrAddress
| DuplicateNodeID (id : string)
| DuplicateNodeAddress (address previousID id : string)
| ShardMapTooLarge
| OwnersWithNoLiveNodes
| WrongShardOwnerCount (got want : Z)
| WrongOwnerEntryCount (got want : Z)
| MissingShard (shard : Z)
| UnknownOwner (shard : Z) (owner : string)
| MissingShardOwners (shard : Z)
| PrimaryDisagrees (shard : Z) (primary owner : string)
| TooManyReplicas (shard : Z) (replicas live : Z)
| UnknownReplica (shard : Z) (replica : string)
| ReplicaTwice (shard : Z) (replica : string).

#[export] Instance validate_error_eq_dec : EqDecision validate_error.
Proof. solve_decision. Defined.

Definition node_step (acc : gmap string string * gmap string string)
    (node : option NodeInfo) : result validate_error (gmap string string * gmap string string) :=
  let '(byID, byAddress) := acc in
  match node with
  | None => Err EmptyIdOrAddress
  | Some n =>
      _ ← guard_err (negb (bool_decide (NodeId n = "") || bool_decide (NodeAddress n = "")))
            EmptyIdOrAddress;
      _ ← guard_err (bool_decide (byID !! NodeId n = None)) (DuplicateNodeID (NodeId n));
      match byAddress !! NodeAddress n with
      | Some previousID => Err (DuplicateNodeAddress (NodeAddress n) previousID (NodeId n))
      | None => Ok (<[NodeId n := NodeAddress n]> byID, <[NodeAddress n := NodeId n]> byAddress)
      end
  end.

Definition replica_step (byID : gmap string string) (shard : Z)
    (acc : gset string * list string) (replica : string)
    : result validate_error (gset string * list string) :=
  let '(seen, replicas) := acc in
  _ ← guard_err (negb (bool_decide (byID !! replica = None))) (UnknownReplica shard replica);
  _ ← guard_err (bool_decide (replica ∉ seen)) (ReplicaTwice shard replica);
  Ok ({[replica]} ∪ seen, replicas ++ [replica]).

(** The owner-map half of one iteration of the shard loop. *)
Definition check_owners (byID : gmap string string)
    (ownerMap : gmap Z (option ShardOwners)) (shard : Z) (owner : string)
    : result validate_error ShardOwners :=
  match ownerMap !! shard with
  | None | Some None => Err (MissingShardOwners shard)
  | Some (Some entry) =>
      _ ← guard_err (bool_decide (Primary entry = owner))
            (PrimaryDisagrees shard (Primary entry) owner);
      let n := Z.of_nat (length (Replicas entry)) in
      let live := Z.of_nat (size byID) in
      _ ← guard_err (negb (u32 live <? u32 n)) (TooManyReplicas shard n live);
      '(_, replicas) ← foldM (replica_step byID shard) ({[owner]}, []) (Replicas entry);
      Ok (MkShardOwners owner replicas)
  end.

(** [hasOwners] is [owners != nil]. *)
Definition shard_step (byID : gmap string string) (shardMap : gmap Z string)
    (ownerMap : gmap Z (option ShardOwners)) (hasOwners : bool)
    (acc : gmap Z string * gmap Z ShardOwners) (shard : Z)
    : result validate_error (gmap Z string * gmap Z ShardOwners) :=
  let '(shards, owners) := acc in
  match shardMap !! shard with
  | None => Err (MissingShard shard)
  | Some owner =>
      _ ← guard_err (negb (bool_decide (byID !! owner = None))) (UnknownOwner shard owner);
      let shards := <[shard := owner]> shards in
      if negb hasOwners then Ok (shards, owners) else
      o ← check_owners byID ownerMap shard owner;
      Ok (shards, <[shard := o]> owners)
  end.

Definition validate (generation shardCount : Z) (nodes : list (option NodeInfo))
    (shardMap : gmap Z string) (ownerMap : gmap Z (option ShardOwners))
    (replicationFactor : Z) : result validate_error Snapshot :=
  _ ← guard_err (negb (shardCount =? 0)) ZeroShardCount;
  '(byID, _) ← foldM node_step (∅, ∅) nodes;
  let nshards := Z.of_nat (size shardMap) in
  let nowners := Z.of_nat (size ownerMap) in
  _ ← guard_err (nshards <=? 2 ^ 32 - 1) ShardMapTooLarge;
  if bool_decide (nodes = []) then
    _ ← guard_err ((nshards =? 0) && (nowners =? 0)) OwnersWithNoLiveNodes;
    Ok (MkSnapshot generation [] shardCount ∅ byID ∅ replicationFactor "" 0)
  else
    _ ← guard_err (u32 nshards =? shardCount) (WrongShardOwnerCount nshards shardCount);
    _ ← guard_err ((nowners =? 0) || (u32 nowners =? shardCount))
          (WrongOwnerEntryCount nowners shardCount);
    '(shards, owners) ← foldM (shard_step byID shardMap ownerMap (negb (nowners =? 0)))
                          (∅, ∅) (seqZ 0 shardCount);
    Ok (MkSnapshot generation [] shardCount shards byID owners replicationFactor "" 0).

(** [Validate], the exported pre-Phase-4 form. *)
Definition Validate (generation : Z) (nodes : list (option NodeInfo))
    (shardMap : gmap Z string) : result validate_error Snapshot :=
  let n := Z.of_nat (size shardMap) in
  _ ← guard_err (n <=? 2 ^ 32 - 1) ShardMapTooLarge;
  validate generation (u32 n) nodes shardMap ∅ 0.

(** ** Fetch *)

Record GetNodeListResponse := MkNodeListResponse {
  nl_Nodes : list (option NodeInfo);
  nl_TopologyGeneration : Z;
  nl_TopologyFingerprint : bytes
}.

Record GetShardMapResponse := MkShardMapResponse {
  sm_ShardToNodeId : gmap Z string;
  sm_TopologyGeneration : Z;
  sm_TopologyFingerprint : bytes;
  sm_ShardCount : Z;
  sm_ShardToOwners : gmap Z (option ShardOwners);
  sm_ReplicationFactor : Z;
  sm_RaftLeaderId : string;
  sm_RaftTerm : Z
}.

(** What one pass of the loop observes: the context's error, and the answers of
    the two RPCs, which may come from different server states. [E] is the type
    of transport errors. *)
Record attempt (E : Type) := MkAttempt {
  at_ctx : option E;
  at_nodes : result E GetNodeListResponse;
  at_shards : result E GetShardMapResponse
}.
Arguments MkAttempt {E}.
Arguments at_ctx {E}.
Arguments at_nodes {E}.
Arguments at_shards {E}.

Inductive fetch_error (E : Type) :=
| ContextError (e : E)
| GetNodeListFailed (e : E)
| GetShardMapFailed (e : E)
| BadFingerprintSizes (nodes shards : nat)
| InvalidTopology (e : validate_error)
| FingerprintMismatch
| DidNotConverge (attempts : nat) (nodeGeneration shardGeneration : Z).
Arguments ContextError {E}.
Arguments GetNodeListFailed {E}.
Arguments GetShardMapFailed {E}.
Arguments BadFingerprintSizes {E}.
Arguments InvalidTopology {E}.
Arguments FingerprintMismatch {E}.
Arguments DidNotConverge {E}.

Definition maxCoherenceAttempts : nat := 8.

(** [snapshot.RaftLeaderID = ...; snapshot.RaftTerm = ...] *)
Definition with_raft (s : Snapshot) (leader : string) (term : Z) : Snapshot :=
  MkSnapshot (Generation s) (SnapFingerprint s) (ShardCount s) (ShardMap s) (Nodes s)
    (Owners s) (ReplicationFactor s) leader term.

Definition with_fingerprint (s : Snapshot) (fp : bytes) : Snapshot :=
  MkSnapshot (Generation s) fp (ShardCount s) (ShardMap s) (Nodes s)
    (Owners s) (ReplicationFactor s) (RaftLeaderID s) (RaftTerm s).

Section Fetch.
Context {E : Type}.

Inductive loop_exit :=
| Continue
| Return (r : result (fetch_error E) Snapshot).

(** Phase 3+ branch: at least one response carries a fingerprint. *)
Definition accept_fingerprinted (nl : GetNodeListResponse) (sm : GetShardMapResponse)
    : loop_exit :=
  let nfp := nl_TopologyFingerprint nl in
  let sfp := sm_TopologyFingerprint sm in
  if bool_decide (nfp = []) || bool_decide (sfp = []) then Continue else
  if negb (bool_decide (length nfp = FingerprintSize) &&
           bool_decide (length sfp = FingerprintSize))
  then Return (Err (BadFingerprintSizes (length nfp) (length sfp))) else
  if negb (bool_decide (nfp = sfp)) then Continue else
  match validate (sm_TopologyGeneration sm) (sm_ShardCount sm) (nl_Nodes nl)
          (sm_ShardToNodeId sm) (sm_ShardToOwners sm) (sm_ReplicationFactor sm) with
  | Err e => Return (Err (InvalidTopology e))
  | Ok snapshot =>
      let expected := Fingerprint (Snapshot_FingerprintInput snapshot) in
      if negb (bool_decide (sfp = expected)) then Return (Err FingerprintMismatch) else
      Return (Ok (with_raft (with_fingerprint snapshot sfp)
                    (sm_RaftLeaderId sm) (sm_RaftTerm sm)))
  end.

(** Pre-fingerprint fallback: the generations are the join key. *)
Definition accept_generation (nl : GetNodeListResponse) (sm : GetShardMapResponse)
    : loop_exit :=
  if negb (nl_TopologyGeneration nl =? sm_TopologyGeneration sm) then Continue else
  let n := Z.of_nat (size (sm_ShardToNodeId sm)) in
  let shardCount := if (sm_ShardCount sm =? 0) && (0 <? n) then u32 n
                    else sm_ShardCount sm in
  match validate (nl_TopologyGeneration nl) shardCount (nl_Nodes nl)
          (sm_ShardToNodeId sm) (sm_ShardToOwners sm) (sm_ReplicationFactor sm) with
  | Err e => Return (Err (InvalidTopology e))
  | Ok snapshot => Return (Ok (with_raft snapshot (sm_RaftLeaderId sm) (sm_RaftTerm sm)))
  end.

Definition accept (nl : GetNodeListResponse) (sm : GetShardMapResponse) : loop_exit :=
  if negb (bool_decide (nl_TopologyFingerprint nl = [])) ||
     negb (bool_decide (sm_TopologyFingerprint sm = []))
  then accept_fingerprinted nl sm else accept_generation nl sm.

(** The retry loop over the attempts that remain; [gens] are the generations
    seen last, reported when the loop gives up. *)
Fixpoint fetch_loop (attempts : list (attempt E)) (gens : Z * Z)
    : result (fetch_error E) Snapshot :=
  match attempts with
  | [] => Err (DidNotConverge maxCoherenceAttempts gens.1 gens.2)
  | a :: rest =>
      match at_ctx a with
      | Some e => Err (ContextError e)
      | None =>
          match at_nodes a with
          | Err e => Err (GetNodeListFailed e)
          | Ok nl =>
              match at_shards a with
              | Err e => Err (GetShardMapFailed e)
              | Ok sm =>
                  match accept nl sm with
                  | Return r => r
                  | Continue =>
                      fetch_loop rest (nl_TopologyGeneration nl, sm_TopologyGeneration sm)
                  end
              end
          end
      end
  end.

(** [server i] is what the [i]-th pass observes. *)
Definition Fetch (server : nat → attempt E) : result (fetch_error E) Snapshot :=
  fetch_loop (server <$> seq 1 maxCoherenceAttempts) (0, 0).
End Fetch.

(** ** Addresses that own a shard *)

(** [s.Nodes[owner]], the empty string when absent. *)
Definition owner_address (s : Snapshot) (owner : string) : string :=
  default "" (Nodes s !! owner).

Definition OwnerAddresses (s : Snapshot) : list string :=
  let seen := foldr (fun (kv : Z * string) (seen : gset string) =>
                let address := owner_address s kv.2 in
                if bool_decide (address = "") then seen else {[address]} ∪ seen)
              ∅ (map_to_list (ShardMap s)) in
  sort_strings (elements seen).

Definition OwnsAddress (s : Snapshot) (address : string) : bool :=
  existsb (fun (kv : Z * string) => bool_decide (owner_address s kv.2 = address))
    (map_to_list (ShardMap s)).

(** ** The node loop accepts exactly the lists without empty or repeated fields *)

Definition node_ok (n : NodeInfo) : Prop := NodeId n ≠ "" ∧ NodeAddress n ≠ "".

Definition node_pairs (infos : list NodeInfo) : list (string * string) :=
  (fun n => (NodeId n, NodeAddress n)) <$> infos.

Definition node_list_ok (infos : list NodeInfo) : Prop :=
  Forall node_ok infos ∧ NoDup (NodeId <$> infos) ∧ NoDup (NodeAddress <$> infos).

Lemma node_step_Ok byID byAddr node acc :
  node_step (byID, byAddr) node = Ok acc ↔
  ∃ n, node = Some n ∧ node_ok n ∧ byID !! NodeId n = None ∧
       byAddr !! NodeAddress n = None ∧
       acc = (<[NodeId n := NodeAddress n]> byID, <[NodeAddress n := NodeId n]> byAddr).
Proof.
  unfold node_step, node_ok. destruct node as [n|]; [|naive_solver].
  split.
  - intros H. inv_ok.
    rewrite negb_true_iff, orb_false_iff, !bool_decide_eq_false in *.
    rewrite !bool_decide_eq_true in *.
    destruct (byAddr !! NodeAddress n) eqn:E; inv_ok. naive_solver.
  - intros (n' & [= <-] & [Hid Ha] & H1 & H2 & ->).
    rewrite (bool_decide_eq_false_2 (NodeId n = "")) by done.
    rewrite (bool_decide_eq_false_2 (NodeAddress n = "")) by done.
    rewrite bool_decide_eq_true_2 by done. cbn. by rewrite H2.
Qed.

(** The state of the two indexes after the loop has consumed [infos]. *)
Definition node_loop_post (byID byAddr : gmap string string) (infos : list NodeInfo)
    (acc : gmap string string * gmap string string) : Prop :=
  node_list_ok infos ∧
  (∀ n, n ∈ infos → byID !! NodeId n = None ∧ byAddr !! NodeAddress n = None) ∧
  acc = (list_to_map (node_pairs infos) ∪ byID,
         list_to_map (prod_swap <$> node_pairs infos) ∪ byAddr).

Lemma node_loop_post_cons byID byAddr n infos acc :
  node_loop_post byID byAddr (n :: infos) acc ↔
  node_ok n ∧ byID !! NodeId n = None ∧ byAddr !! NodeAddress n = None ∧
  node_loop_post (<[NodeId n := NodeAddress n]> byID)
    (<[NodeAddress n := NodeId n]> byAddr) infos acc.
Proof.
  unfold node_loop_post, node_list_ok.
  rewrite Forall_cons, !fmap_cons, !NoDup_cons.
  assert (Hfst : (node_pairs infos).*1 = NodeId <$> infos)
    by (unfold node_pairs; by rewrite <-list_fmap_compose).
  assert (Hsnd : (prod_swap <$> node_pairs infos).*1 = NodeAddress <$> infos)
    by (unfold node_pairs; by rewrite <-!list_fmap_compose).
  assert (Hmaps : NodeId n ∉ NodeId <$> infos → NodeAddress n ∉ NodeAddress <$> infos →
    (list_to_map (node_pairs (n :: infos)) ∪ byID,
     list_to_map (prod_swap <$> node_pairs (n :: infos)) ∪ byAddr) =
    (list_to_map (node_pairs infos) ∪ <[NodeId n := NodeAddress n]> byID,
     list_to_map (prod_swap <$> node_pairs infos) ∪ <[NodeAddress n := NodeId n]> byAddr)).
  { intros H1 H2. f_equal; apply list_to_map_union_cons; [by rewrite Hfst|by rewrite Hsnd]. }
  split.
  - intros (([Hn HF] & [Hx1 Hnd1] & [Hx2 Hnd2]) & Hfresh & ->).
    rewrite Hmaps by done. destruct (Hfresh n) as [? ?]; [set_solver|].
    repeat (split; [done|]). split; [|done]. intros n' Hn'.
    destruct (Hfresh n') as [? ?]; [set_solver|].
    rewrite !lookup_insert_ne; [done|..]; intros Heq;
      [apply Hx2|apply Hx1]; rewrite Heq; by apply list_elem_of_fmap_2.
  - intros (Hn & Hid & Ha & (HF & Hnd1 & Hnd2) & Hfresh & ->).
    assert (NodeId n ∉ NodeId <$> infos).
    { intros (n' & Heq & [Hc _]%Hfresh)%list_elem_of_fmap.
      by rewrite <-Heq, lookup_insert_eq in Hc. }
    assert (NodeAddress n ∉ NodeAddress <$> infos).
    { intros (n' & Heq & [_ Hc]%Hfresh)%list_elem_of_fmap.
      by rewrite <-Heq, lookup_insert_eq in Hc. }
    rewrite Hmaps by done. split; [done|]. split; [|done].
    intros n' [->|[Hf1 Hf2]%Hfresh]%elem_of_cons; [done|].
    by apply lookup_insert_None in Hf1 as [? _], Hf2 as [? _].
Qed.

Lemma node_loop_Ok nodes byID byAddr acc :
  foldM node_step (byID, byAddr) nodes = Ok acc ↔
  ∃ infos, nodes = Some <$> infos ∧ node_loop_post byID byAddr infos acc.
Proof.
  revert byID byAddr. induction nodes as [|node nodes IH]; intros byID byAddr; cbn [foldM].
  - split.
    + intros [= <-]. exists []. split; [done|].
      unfold node_loop_post, node_list_ok. cbn. rewrite !(left_id_L ∅ (∪)).
      split; [split_and!; constructor|]. split; [by intros n ?%elem_of_nil|done].
    + intros ([|] & ? & (_ & _ & ->)); [|done]. cbn. by rewrite !(left_id_L ∅ (∪)).
  - rewrite result_bind_Ok. split.
    + intros (acc' & (n & -> & Hok & Hid & Ha & ->)%node_step_Ok & Hrest).
      apply IH in Hrest as (infos & -> & Hpost).
      exists (n :: infos). split; [done|]. by apply node_loop_post_cons.
    + intros ([|n infos] & Hnodes & Hpost); [done|]. cbn in Hnodes. simplify_eq.
      apply node_loop_post_cons in Hpost as (Hok & Hid & Ha & Hpost).
      eexists. split; [apply node_step_Ok; eauto 10|]. apply IH. eauto.
Qed.

(** ** The replica and shard loops *)

Lemma replica_loop_Ok byID shard rs seen acc seen' acc' :
  foldM (replica_step byID shard) (seen, acc) rs = Ok (seen', acc') ↔
  Forall (fun r => is_Some (byID !! r)) rs ∧ NoDup rs ∧ (∀ r, r ∈ rs → r ∉ seen) ∧
  seen' = list_to_set rs ∪ seen ∧ acc' = acc ++ rs.
Proof.
  revert seen acc. induction rs as [|r rs IH]; intros seen acc; cbn [foldM].
  - cbn [list_to_set foldr]. rewrite app_nil_r. split.
    + intros [= <- <-]. rewrite (left_id_L ∅ (∪)).
      split_and!; [constructor|constructor|by intros ? ?%elem_of_nil|done|done].
    + intros (_ & _ & _ & -> & ->). by rewrite (left_id_L ∅ (∪)).
  - rewrite Forall_cons, NoDup_cons, list_to_set_cons. split.
    + intros H. cbn in H. inv_ok. rewrite bool_decide_eq_true in *.
      destruct (bool_decide_reflect (byID !! r = None)) as [|Hsome]; [done|].
      simplify_eq. apply IH in H0 as (HF & Hnd & Hfresh & -> & ->).
      rewrite <-app_assoc. split_and!; [..|set_solver|done].
      * by apply not_eq_None_Some.
      * done.
      * intros Hr. apply (Hfresh r Hr). set_solver.
      * done.
      * set_solver.
    + intros ([[a Ha] HF] & [Hr Hnd] & Hfresh & -> & ->). cbn.
      rewrite (bool_decide_eq_false_2 (byID !! r = None)) by (by rewrite Ha). cbn.
      rewrite bool_decide_eq_true_2 by set_solver. cbn.
      apply IH. rewrite <-app_assoc. split_and!; [done..| |set_solver|done].
      intros r' Hr'. set_solver.
Qed.

(** What the shard loop demands of one owner entry. *)
Definition owners_ok (byID : gmap string string) (owner : string) (o : ShardOwners) : Prop :=
  Primary o = owner ∧ NoDup (owner :: Replicas o) ∧
  Forall (fun r => is_Some (byID !! r)) (Replicas o).

Lemma owners_ok_length byID owner o :
  owners_ok byID owner o → (length (Replicas o) ≤ size byID)%nat.
Proof.
  intros (_ & Hnd & HF). apply NoDup_cons in Hnd as [_ Hnd].
  rewrite <-(size_list_to_set (C := gset string) _ Hnd), <-size_dom.
  apply subseteq_size. intros r Hr%elem_of_list_to_set. apply elem_of_dom.
  rewrite Forall_forall in HF. by apply HF.
Qed.

Lemma check_owners_Ok byID ownerMap shard owner o :
  Z.of_nat (size byID) < 2 ^ 32 →
  check_owners byID ownerMap shard owner = Ok o ↔
  ownerMap !! shard = Some (Some o) ∧ owners_ok byID owner o.
Proof.
  intros Hsize. unfold check_owners. split.
  - destruct (ownerMap !! shard) as [[entry|]|] eqn:E; [|done..].
    intros H. inv_ok. subst o.
    rewrite bool_decide_eq_true in *. subst owner.
    apply replica_loop_Ok in H1 as (HF & Hnd & Hfresh & -> & ->).
    destruct entry as [p rs]; cbn in *. split; [done|]. split; [done|]. split; [|done].
    constructor; [|done]. intros Hp. apply (Hfresh p Hp). set_solver.
  - intros [-> Hok]. pose proof (owners_ok_length _ _ _ Hok) as Hlen.
    destruct Hok as (Hp & Hnd & HF).
    rewrite bool_decide_eq_true_2 by done. cbn.
    rewrite (u32_id (Z.of_nat (size byID))) by (unfold in_u32; lia).
    rewrite (u32_id (Z.of_nat (length (Replicas o)))) by (unfold in_u32; lia).
    rewrite (proj2 (Z.ltb_ge _ _)) by lia. cbn.
    apply NoDup_cons in Hnd as [Hpn Hnd].
    assert (foldM (replica_step byID shard) ({[owner]}, []) (Replicas o) =
            Ok (list_to_set (Replicas o) ∪ {[owner]}, Replicas o)) as ->.
    { apply replica_loop_Ok. split_and!; [done|done| |done|done].
      intros r Hr ->%elem_of_singleton. done. }
    cbn. subst owner. by destruct o.
Qed.

Definition shard_ok (byID : gmap string string) (shardMap : gmap Z string)
    (ownerMap : gmap Z (option ShardOwners)) (hasOwners : bool) (s : Z) : Prop :=
  ∃ owner, shardMap !! s = Some owner ∧ is_Some (byID !! owner) ∧
    (hasOwners = true → ∃ o, ownerMap !! s = Some (Some o) ∧ owners_ok byID owner o).

Lemma shard_step_Ok byID shardMap ownerMap hasOwners shards owners s acc :
  Z.of_nat (size byID) < 2 ^ 32 →
  shard_step byID shardMap ownerMap hasOwners (shards, owners) s = Ok acc ↔
  shard_ok byID shardMap ownerMap hasOwners s ∧
  acc = (partial_alter (fun _ => shardMap !! s) s shards,
         if hasOwners then partial_alter (fun _ => mjoin (ownerMap !! s)) s owners else owners).
Proof.
  intros Hsize. unfold shard_step, shard_ok. split.
  - destruct (shardMap !! s) as [owner|]; [|done]. intros H. inv_ok.
    destruct (bool_decide_reflect (byID !! owner = None)) as [|Hsome]; [done|].
    assert (is_Some (byID !! owner)) by (by apply not_eq_None_Some).
    destruct hasOwners; cbn in *; inv_ok.
    + match goal with Hc : check_owners _ _ _ _ = Ok _ |- _ =>
        apply check_owners_Ok in Hc as [Ho Hok]; [|done] end. subst acc. rewrite Ho. cbn. eauto 10.
    + subst acc. split; [|done]. exists owner. done.
  - intros ((owner & -> & [a Ha] & Ho) & ->).
    rewrite (bool_decide_eq_false_2 (byID !! owner = None)) by (by rewrite Ha). cbn.
    destruct hasOwners; cbn; [|done].
    destruct Ho as (o & Hlk & Hok); [done|].
    rewrite (proj2 (check_owners_Ok _ _ _ _ o Hsize)) by done. by rewrite Hlk.
Qed.

(** A loop that stores [f x] at every key [x] it visits. *)
Lemma lookup_store_cons {A} (f : Z → option A) x l (m : gmap Z A) s :
  (if decide (s ∈ l) then f s else partial_alter (fun _ => f x) x m !! s) =
  (if decide (s ∈ x :: l) then f s else m !! s).
Proof.
  destruct (decide (s = x)) as [->|Hne].
  - rewrite lookup_partial_alter_eq, (decide_True (P := x ∈ x :: l)) by set_solver.
    by case_decide.
  - rewrite lookup_partial_alter_ne by done. apply decide_ext. set_solver.
Qed.

Lemma decide_and_true {A} (P : Prop) `{!Decision P} (b : bool) (x y : A) :
  (if decide (P ∧ b = true) then x else y) = if b then (if decide P then x else y) else y.
Proof. destruct b; repeat case_decide; naive_solver. Qed.

Lemma shard_loop_Ok byID shardMap ownerMap hasOwners l shards owners shards' owners' :
  Z.of_nat (size byID) < 2 ^ 32 →
  foldM (shard_step byID shardMap ownerMap hasOwners) (shards, owners) l
    = Ok (shards', owners') ↔
  (∀ s, s ∈ l → shard_ok byID shardMap ownerMap hasOwners s) ∧
  (∀ s, shards' !! s = if decide (s ∈ l) then shardMap !! s else shards !! s) ∧
  (∀ s, owners' !! s = if decide (s ∈ l ∧ hasOwners = true)
                       then mjoin (ownerMap !! s) else owners !! s).
Proof.
  intros Hsize. setoid_rewrite decide_and_true. revert shards owners.
  induction l as [|x l IH]; intros shards owners; cbn [foldM].
  - setoid_rewrite (decide_False (P := _ ∈ [])); [|apply not_elem_of_nil..].
    split.
    + intros [= <- <-]. split; [by intros ? ?%elem_of_nil|]. by destruct hasOwners.
    + intros (_ & H1 & H2). f_equal. f_equal; apply map_eq; intros s; [done|].
      rewrite H2. by destruct hasOwners.
  - rewrite result_bind_Ok. setoid_rewrite shard_step_Ok; [|done].
    assert (Hrw : ∀ s, (if hasOwners then (if decide (s ∈ x :: l)
        then mjoin (ownerMap !! s) else owners !! s) else owners !! s) =
      (if hasOwners then (if decide (s ∈ l) then mjoin (ownerMap !! s)
        else (if hasOwners then partial_alter (fun _ => mjoin (ownerMap !! x)) x owners
              else owners) !! s) else (if hasOwners then
          partial_alter (fun _ => mjoin (ownerMap !! x)) x owners else owners) !! s)).
    { intros s. destruct hasOwners; [|done].
      by rewrite (lookup_store_cons (fun s => mjoin (ownerMap !! s))). }
    split.
    + intros (acc & [Hx ->] & (Hok & H1 & H2)%IH). split_and!.
      * intros s [->|]%elem_of_cons; auto.
      * intros s. rewrite H1. apply (lookup_store_cons (fun s => shardMap !! s)).
      * intros s. by rewrite H2, <-Hrw.
    + intros (Hok & H1 & H2). eexists. split; [split; [|reflexivity]|].
      * apply Hok. left.
      * apply IH. split_and!.
        -- intros s ?. apply Hok. by right.
        -- intros s. by rewrite H1, <-(lookup_store_cons (fun s => shardMap !! s)).
        -- intros s. by rewrite H2, Hrw.
Qed.

(** ** What [validate] accepts, exactly *)

(** A map of [n] entries that covers [0..n) has no other key. *)
Lemma dense_map_dom {A} (m : gmap Z A) n :
  Z.of_nat (size m) = n → (∀ s, 0 ≤ s < n → is_Some (m !! s)) →
  ∀ s, is_Some (m !! s) ↔ 0 ≤ s < n.
Proof.
  intros Hsize Hall s. split; [|apply Hall].
  assert (list_to_set (seqZ 0 n) = dom m) as Heq.
  { apply set_subseteq_size_eq.
    - intros k [? ?]%elem_of_list_to_set%elem_of_seqZ. apply elem_of_dom, Hall. lia.
    - rewrite size_dom, size_list_to_set by apply NoDup_seqZ. rewrite length_seqZ. lia. }
  intros Hs%elem_of_dom. rewrite <-Heq, elem_of_list_to_set, elem_of_seqZ in Hs. lia.
Qed.

Definition in_shards (sc s : Z) : Prop := 0 ≤ s < sc.
#[export] Instance in_shards_dec sc s : Decision (in_shards sc s).
Proof. unfold in_shards. apply _. Defined.

(** The owner entries of the wire map for the shards that exist. *)
Definition wire_owners (sc : Z) (om : gmap Z (option ShardOwners)) : gmap Z ShardOwners :=
  omap id (filter (fun kv => in_shards sc kv.1) om).

Lemma lookup_wire_owners sc om s :
  wire_owners sc om !! s = if decide (0 ≤ s < sc) then mjoin (om !! s) else None.
Proof.
  unfold wire_owners. rewrite lookup_omap, map_lookup_filter. unfold in_shards.
  destruct (om !! s) as [o|]; cbn; [|by case_decide].
  repeat case_guard; repeat case_decide; naive_solver.
Qed.

Definition accepted (g sc : Z) (infos : list NodeInfo) (sm : gmap Z string)
    (om : gmap Z (option ShardOwners)) (rf : Z) : Snapshot :=
  MkSnapshot g [] sc sm (list_to_map (node_pairs infos)) (wire_owners sc om) rf "" 0.

Definition acceptable (sc : Z) (infos : list NodeInfo) (sm : gmap Z string)
    (om : gmap Z (option ShardOwners)) : Prop :=
  sc ≠ 0 ∧ node_list_ok infos ∧
  if decide (infos = []) then sm = ∅ ∧ om = ∅ else
  Z.of_nat (size sm) = sc ∧ (om = ∅ ∨ u32 (Z.of_nat (size om)) = sc) ∧
  ∀ s, 0 ≤ s < sc →
    shard_ok (list_to_map (node_pairs infos)) sm om (negb (Z.of_nat (size om) =? 0)) s.

Lemma size_eqb_0 {A} (m : gmap Z A) : (Z.of_nat (size m) =? 0) = bool_decide (m = ∅).
Proof.
  destruct (Z.eqb_spec (Z.of_nat (size m)) 0) as [H|H]; symmetry.
  - apply bool_decide_eq_true. apply map_size_empty_iff. lia.
  - apply bool_decide_eq_false. intros ->. rewrite map_size_empty in H. done.
Qed.

Lemma size_node_pairs infos :
  NoDup (NodeId <$> infos) →
  size (list_to_map (node_pairs infos) : gmap string string) = length infos.
Proof.
  intros Hnd. unfold node_pairs.
  rewrite map_size_list_to_map; [by rewrite length_fmap|].
  by rewrite <-list_fmap_compose.
Qed.

Lemma validate_nodes_Ok nodes acc :
  foldM node_step (∅, ∅) nodes = Ok acc ↔
  ∃ infos, nodes = Some <$> infos ∧ node_list_ok infos ∧
    acc = (list_to_map (node_pairs infos), list_to_map (prod_swap <$> node_pairs infos)).
Proof.
  rewrite node_loop_Ok. unfold node_loop_post.
  setoid_rewrite (right_id_L ∅ (∪)). setoid_rewrite lookup_empty. naive_solver.
Qed.

Lemma validate_shards_Ok sc infos sm om acc :
  node_list_ok infos → Z.of_nat (length infos) < 2 ^ 32 → Z.of_nat (size sm) = sc →
  foldM (shard_step (list_to_map (node_pairs infos)) sm om (negb (Z.of_nat (size om) =? 0)))
    (∅, ∅) (seqZ 0 sc) = Ok acc ↔
  (∀ s, 0 ≤ s < sc →
    shard_ok (list_to_map (node_pairs infos)) sm om (negb (Z.of_nat (size om) =? 0)) s) ∧
  acc = (sm, wire_owners sc om).
Proof.
  intros (_ & Hnd & _) Hlen Hsc. destruct acc as [shards owners].
  rewrite shard_loop_Ok by (by rewrite size_node_pairs).
  assert (Hin : ∀ s, s ∈ seqZ 0 sc ↔ 0 ≤ s < sc) by (intros; rewrite elem_of_seqZ; lia).
  assert (Hom : ∀ s, (if decide (s ∈ seqZ 0 sc ∧ negb (Z.of_nat (size om) =? 0) = true)
      then mjoin (om !! s) else (∅ : gmap Z ShardOwners) !! s) = wire_owners sc om !! s).
  { intros s. rewrite lookup_wire_owners, size_eqb_0, decide_and_true, lookup_empty.
    case_bool_decide; cbn; [subst; rewrite lookup_empty; by case_decide|].
    apply decide_ext, Hin. }
  assert (Hsm : (∀ s, 0 ≤ s < sc → shard_ok (list_to_map (node_pairs infos)) sm om
      (negb (Z.of_nat (size om) =? 0)) s) →
    ∀ s, (if decide (s ∈ seqZ 0 sc) then sm !! s else (∅ : gmap Z string) !! s) = sm !! s).
  { intros Hok s. destruct (decide (s ∈ seqZ 0 sc)) as [Hs|Hs]; [done|]. rewrite lookup_empty.
    destruct (sm !! s) eqn:E; [|done]. exfalso. apply Hs, Hin.
    apply (dense_map_dom sm sc Hsc); [|by rewrite E].
    intros k Hk. destruct (Hok k Hk) as (o & -> & _). done. }
  setoid_rewrite Hom. split.
  - intros (Hok & H1 & H2).
    assert (Hok' : ∀ s, 0 ≤ s < sc → shard_ok (list_to_map (node_pairs infos)) sm om
      (negb (Z.of_nat (size om) =? 0)) s) by (intros s ?; by apply Hok, Hin).
    split; [done|]. f_equal; apply map_eq; intros s; [|done]. by rewrite H1, Hsm.
  - intros [Hok [= -> ->]]. split; [intros s ?%Hin; auto|]. split; [|done].
    intros s. by rewrite Hsm.
Qed.

Lemma validate_Ok g sc nodes sm om rf s :
  in_u32 sc → Z.of_nat (length nodes) < 2 ^ 32 →
  validate g sc nodes sm om rf = Ok s ↔
  ∃ infos, nodes = Some <$> infos ∧ acceptable sc infos sm om ∧
           s = accepted g sc infos sm om rf.
Proof.
  intros Hsc Hlen. unfold validate, acceptable, accepted. split.
  - intros H. inv_ok. rewrite negb_true_iff, Z.eqb_neq in *.
    match goal with Hn : foldM node_step _ _ = _ |- _ =>
      apply validate_nodes_Ok in Hn as (infos & -> & Hinfos & [= -> ->]) end.
    rewrite length_fmap in Hlen. exists infos. split; [done|].
    destruct infos as [|n infos].
    + cbn in *. inv_ok. rewrite andb_true_iff, !size_eqb_0, !bool_decide_eq_true in *.
      destruct_and!. subst. done.
    + rewrite (bool_decide_eq_false_2 (Some <$> n :: infos = [])) in * by done.
      inv_ok. rewrite Z.leb_le, ?Z.eqb_eq, orb_true_iff in *.
      rewrite (u32_id (Z.of_nat (size sm))) in * by (unfold in_u32; lia).
      match goal with Hn : foldM (shard_step _ _ _ _) _ _ = _ |- _ =>
        apply validate_shards_Ok in Hn as [Hok [= -> ->]]; [|done..] end.
      split; [|done]. rewrite decide_False by done. do 3 (split; [done|]). split; [|done].
      match goal with Hn : (Z.of_nat (size om) =? 0) = true ∨ _ |- _ =>
        rewrite size_eqb_0, bool_decide_eq_true, Z.eqb_eq in Hn; exact Hn end.
  - intros (infos & -> & (Hnz & Hinfos & Hrest) & ->). rewrite length_fmap in Hlen.
    rewrite (proj2 (Z.eqb_neq sc 0)) by done. cbn [negb guard_err mbind result_bind].
    rewrite (proj2 (validate_nodes_Ok _ _)) by eauto. cbn [mbind result_bind].
    destruct infos as [|n infos].
    + destruct Hrest as [-> ->]. cbn. done.
    + rewrite decide_False in Hrest by done. destruct Hrest as (Hsize & Hom & Hok).
      rewrite (bool_decide_eq_false_2 (Some <$> n :: infos = [])) by done.
      unfold in_u32 in Hsc.
      rewrite (proj2 (Z.leb_le (Z.of_nat (size sm)) (2 ^ 32 - 1))) by lia. cbn [guard_err mbind result_bind].
      rewrite (u32_id (Z.of_nat (size sm))) by (unfold in_u32; lia).
      rewrite (proj2 (Z.eqb_eq (Z.of_nat (size sm)) sc)) by done. cbn [guard_err mbind result_bind].
      assert ((Z.of_nat (size om) =? 0) || (u32 (Z.of_nat (size om)) =? sc) = true) as ->.
      { destruct Hom as [->| ->]; [done|]. by rewrite Z.eqb_refl, orb_true_r. }
      cbn [guard_err mbind result_bind].
      rewrite (proj2 (validate_shards_Ok sc (n :: infos) sm om _ Hinfos Hlen Hsize)
                (conj Hok eq_refl)). done.
Qed.

(** ** Prefix codes: why the hashed stream is unambiguous *)

(** [enc] is injective on [valid] values even when followed by other data. *)
Class PrefixCode {A} (valid : A → Prop) (enc : A → bytes) : Prop :=
  prefix_code a b r r' :
    valid a → valid b → enc a ++ r = enc b ++ r' → a = b ∧ r = r'.

Definition short (s : string) : Prop := Z.of_nat (length (bytes_of_string s)) < 2 ^ 32.

#[export] Instance writeUint32_code : PrefixCode in_u32 writeUint32.
Proof.
  intros a b r r' Ha Hb [H ->]%be32_app_inj. by rewrite !u32_id in H.
Qed.

#[export] Instance writeString_code : PrefixCode short writeString.
Proof.
  intros a b r r' Ha Hb. unfold writeString, writeBytes. rewrite <-!app_assoc.
  intros [Hlen H]%be32_app_inj. unfold short in *.
  rewrite !u32_id in Hlen by (try apply u32_range; unfold in_u32; lia).
  apply app_inj_1 in H as [H ->]; [|lia]. split; [|done]. by apply (inj bytes_of_string).
Qed.

#[export] Instance pair_code {A B} (P : A → Prop) (Q : B → Prop) ea eb
    `{!PrefixCode P ea, !PrefixCode Q eb} :
  PrefixCode (fun p => P p.1 ∧ Q p.2) (fun p => ea p.1 ++ eb p.2).
Proof.
  intros [a b] [a' b'] r r' [??] [??]; cbn in *. rewrite <-!app_assoc.
  intros [-> [-> ->]%prefix_code]%prefix_code; done.
Qed.

(** Two sequences of the same number of encoded elements. *)
Lemma concat_code {A} (P : A → Prop) enc `{!PrefixCode P enc} l l' r r' :
  length l = length l' → Forall P l → Forall P l' →
  concat (enc <$> l) ++ r = concat (enc <$> l') ++ r' → l = l' ∧ r = r'.
Proof.
  intros Hlen Hl. revert l' Hlen. induction Hl as [|x l Hx Hl IH]; intros [|y l'] Hlen Hl';
    try done; cbn in *.
  apply Forall_cons in Hl' as [Hy Hl']. rewrite <-!app_assoc.
  intros [-> H]%prefix_code; [|done..].
  apply IH in H as [-> ->]; [done|lia|done].
Qed.

(** A counted sequence is a prefix code again. *)
#[export] Instance list_code {A} (P : A → Prop) enc `{!PrefixCode P enc} :
  PrefixCode (fun l => Forall P l ∧ Z.of_nat (length l) < 2 ^ 32)
    (fun l => writeUint32 (u32 (Z.of_nat (length l))) ++ concat (enc <$> l)).
Proof.
  intros l l' r r' [Hl Hn] [Hl' Hn']. rewrite <-!app_assoc.
  rewrite !u32_id by (unfold in_u32; lia).
  intros [Hlen H]%prefix_code; [|unfold in_u32; lia..].
  apply (concat_code P enc l l' r r'); [lia|done..].
Qed.

(** One shard's entry in the owner section. *)
Definition owner_tuple (kv : Z * ShardOwners) : Z * (string * list string) :=
  (kv.1, (Primary kv.2, Replicas kv.2)).

(** ** The three tables of a topology as the lists the stream carries *)

Definition entries {A} (m : gmap Z A) (n : Z) : list (Z * A) :=
  omap (fun s => (s,.) <$> m !! s) (seqZ 0 n).

Lemma entries_Permutation {A} (m : gmap Z A) n :
  (∀ s, is_Some (m !! s) → 0 ≤ s < n) → entries m n ≡ₚ map_to_list m.
Proof.
  intros Hdom. apply NoDup_Permutation; [|apply NoDup_map_to_list|].
  - apply (NoDup_fmap_1 fst). unfold entries.
    eapply (sublist_NoDup _ (seqZ 0 n)); [apply NoDup_seqZ|].
    generalize (seqZ 0 n). intros l. induction l as [|x l IH]; cbn; [done|].
    by destruct (m !! x); cbn; constructor.
  - intros [s a]. rewrite elem_of_map_to_list. unfold entries.
    rewrite list_elem_of_omap. setoid_rewrite elem_of_seqZ. split.
    + intros (s' & _ & H). destruct (m !! s') eqn:E; cbn in H; by simplify_eq.
    + intros H. exists s. split; [|by rewrite H].
      destruct (Hdom s); [by rewrite H|]. lia.
Qed.

Definition node_entries (nodes : gmap string string) : list (string * string) :=
  (fun id => (id, default "" (nodes !! id))) <$> sort_strings (map_to_list nodes).*1.

Lemma node_entries_Permutation nodes : node_entries nodes ≡ₚ map_to_list nodes.
Proof.
  unfold node_entries, sort_strings. rewrite merge_sort_Permutation.
  apply NoDup_Permutation; [|apply NoDup_map_to_list|].
  - apply (NoDup_fmap_1 fst). rewrite <-list_fmap_compose. cbn. rewrite list_fmap_id.
    apply NoDup_fst_map_to_list.
  - intros [id a]. rewrite elem_of_map_to_list, list_elem_of_fmap. split.
    + intros (id' & [= -> ->] & ([? b] & -> & H)%list_elem_of_fmap).
      apply elem_of_map_to_list in H. cbn. by rewrite H.
    + intros H. exists id. rewrite H. split; [done|].
      apply list_elem_of_fmap. exists (id, a). by rewrite elem_of_map_to_list.
Qed.

Lemma concat_omap {A B} (f : A → option B) (enc : B → bytes) l :
  concat ((fun x => match f x with Some b => enc b | None => [] end) <$> l) =
  concat (enc <$> omap f l).
Proof.
  induction l as [|x l IH]; cbn; [done|]. rewrite IH. by destruct (f x).
Qed.

(** Topologies whose hashed fields fit their wire widths and whose tables only
    mention existing shards; [validate] and the metadata service build no other. *)
Record fi_wf (fi : FingerprintInput) : Prop := {
  fi_wf_count : in_u32 (fi_ShardCount fi);
  fi_wf_factor : in_u32 (fi_ReplicationFactor fi);
  fi_wf_nnodes : Z.of_nat (size (fi_Nodes fi)) < 2 ^ 32;
  fi_wf_nodes : ∀ id a, fi_Nodes fi !! id = Some a → short id ∧ short a;
  fi_wf_shards : ∀ s o, fi_ShardMap fi !! s = Some o → 0 ≤ s < fi_ShardCount fi ∧ short o;
  fi_wf_owners : ∀ s o, fi_Owners fi !! s = Some o →
    0 ≤ s < fi_ShardCount fi ∧ short (Primary o) ∧ Forall short (Replicas o) ∧
    Z.of_nat (length (Replicas o)) < 2 ^ 32
}.

Abbreviation node_enc := (fun p : string * string => writeString p.1 ++ writeString p.2).
Abbreviation shard_enc := (fun p : Z * string => writeUint32 p.1 ++ writeString p.2).
Abbreviation counted enc :=
  (fun l => writeUint32 (u32 (Z.of_nat (length l))) ++ concat (enc <$> l)).
Abbreviation owner_enc := (fun p : Z * (string * list string) =>
  writeUint32 p.1 ++ (fun q : string * list string =>
    writeString q.1 ++ counted writeString q.2) p.2).

Lemma size_entries {A} (m : gmap Z A) n :
  (∀ s, is_Some (m !! s) → 0 ≤ s < n) → length (entries m n) = size m.
Proof. intros H. rewrite entries_Permutation by done. apply length_map_to_list. Qed.

Lemma size_entries_bound {A} (m : gmap Z A) n :
  in_u32 n → (∀ s, is_Some (m !! s) → 0 ≤ s < n) → Z.of_nat (length (entries m n)) < 2 ^ 32.
Proof.
  intros Hn Hd. rewrite size_entries, <-size_dom by done.
  assert (dom m ⊆ list_to_set (seqZ 0 n)) as Hsub%subseteq_size.
  { intros s Hs%elem_of_dom%Hd. apply elem_of_list_to_set, elem_of_seqZ. lia. }
  rewrite size_list_to_set, length_seqZ in Hsub by apply NoDup_seqZ.
  unfold in_u32 in Hn. lia.
Qed.

(** The stream as one encoding of the five fields. *)
Lemma fingerprint_stream_tuple fi :
  fi_wf fi →
  fingerprint_stream fi =
  domain_tag ++ writeUint32 (fi_ShardCount fi) ++ writeUint32 (fi_ReplicationFactor fi) ++
  counted node_enc (node_entries (fi_Nodes fi)) ++
  counted shard_enc (entries (fi_ShardMap fi) (fi_ShardCount fi)) ++
  counted owner_enc (owner_tuple <$> entries (fi_Owners fi) (fi_ShardCount fi)) ++ [].
Proof.
  intros Hwf. unfold fingerprint_stream. rewrite app_nil_r, <-!app_assoc.
  rewrite length_fmap, !size_entries.
  2: { intros s [o Ho]. by apply (fi_wf_owners _ Hwf s o). }
  2: { intros s [o Ho]. by apply (fi_wf_shards _ Hwf s o). }
  do 3 f_equal. f_equal; [by unfold node_entries; rewrite length_fmap|].
  f_equal; [unfold node_entries; by rewrite <-list_fmap_compose|].
  do 2 f_equal; [|f_equal].
  - unfold entries. rewrite <-concat_omap. f_equal. apply list_fmap_ext.
    intros _ s _. unfold write_shard. by destruct (fi_ShardMap fi !! s).
  - rewrite <-list_fmap_compose. unfold entries. rewrite <-concat_omap. f_equal.
    apply list_fmap_ext. intros _ s _. unfold write_owners. by destruct (fi_Owners fi !! s).
Qed.

Lemma map_from_list {A B} `{Countable K} (m m' : gmap K A) (f : K * A → B)
    `{!Inj (=) (=) f} (l1 l2 : list (K * A)) :
  l1 ≡ₚ map_to_list m → l2 ≡ₚ map_to_list m' → f <$> l1 = f <$> l2 → m = m'.
Proof.
  intros H1 H2 Heq. apply (inj (fmap f)) in Heq as ->. apply map_to_list_inj.
  by rewrite <-H1, <-H2.
Qed.

#[export] Instance owner_tuple_inj : Inj (=) (=) owner_tuple.
Proof. intros [s [p rs]] [s' [p' rs']] [= -> -> ->]. done. Qed.

Lemma Forall_Permutation_map_to_list {A} `{Countable K} (P : K * A → Prop) (m : gmap K A) l :
  l ≡ₚ map_to_list m → (∀ k a, m !! k = Some a → P (k, a)) → Forall P l.
Proof.
  intros -> HP. apply Forall_forall. intros [k a] Hka%elem_of_map_to_list. by apply HP.
Qed.

(** A table is valid for its counted encoding. *)
Definition table_ok {A} (P : A → Prop) (l : list A) : Prop :=
  Forall P l ∧ Z.of_nat (length l) < 2 ^ 32.

Abbreviation node_valid := (fun p : string * string => short p.1 ∧ short p.2).
Abbreviation shard_valid := (fun p : Z * string => in_u32 p.1 ∧ short p.2).
Abbreviation owner_valid := (fun p : Z * (string * list string) =>
  in_u32 p.1 ∧ (fun q : string * list string =>
    short q.1 ∧ (fun l => Forall short l ∧ Z.of_nat (length l) < 2 ^ 32) q.2) p.2).

#[export] Instance owner_code : PrefixCode owner_valid owner_enc.
Proof.
  exact (pair_code in_u32 _ writeUint32 _
    (PrefixCode1 := pair_code short _ writeString _ (PrefixCode1 := list_code short writeString))).
Qed.

Section tables.
Context (fi : FingerprintInput) (Hwf : fi_wf fi).

Lemma fi_shards_dom s : is_Some (fi_ShardMap fi !! s) → 0 ≤ s < fi_ShardCount fi.
Proof using Hwf. intros [o Ho]. by apply (fi_wf_shards _ Hwf s o). Qed.

Lemma fi_owners_dom s : is_Some (fi_Owners fi !! s) → 0 ≤ s < fi_ShardCount fi.
Proof using Hwf. intros [o Ho]. by apply (fi_wf_owners _ Hwf s o). Qed.

Lemma node_table_ok : table_ok node_valid (node_entries (fi_Nodes fi)).
Proof using Hwf.
  split; [|by rewrite node_entries_Permutation, length_map_to_list; apply fi_wf_nnodes].
  eapply Forall_Permutation_map_to_list; [apply node_entries_Permutation|].
  apply (fi_wf_nodes _ Hwf).
Qed.

Lemma shard_table_ok :
  table_ok shard_valid (entries (fi_ShardMap fi) (fi_ShardCount fi)).
Proof using Hwf.
  pose proof (fi_wf_count _ Hwf) as Hc.
  split; [|apply size_entries_bound; [done|apply fi_shards_dom]].
  eapply Forall_Permutation_map_to_list; [apply entries_Permutation, fi_shards_dom|].
  intros s o [Hs Ho]%(fi_wf_shards _ Hwf). cbn. unfold in_u32 in *. split; [lia|done].
Qed.

Lemma owner_table_ok :
  table_ok owner_valid (owner_tuple <$> entries (fi_Owners fi) (fi_ShardCount fi)).
Proof using Hwf.
  pose proof (fi_wf_count _ Hwf) as Hc. split.
  - apply Forall_fmap.
    eapply Forall_Permutation_map_to_list; [apply entries_Permutation, fi_owners_dom|].
    intros s o [Hs Ho]%(fi_wf_owners _ Hwf). cbn. unfold in_u32 in *. split; [lia|done].
  - rewrite length_fmap. apply size_entries_bound; [done|apply fi_owners_dom].
Qed.
End tables.

Lemma fingerprint_stream_inj fi fi' :
  fi_wf fi → fi_wf fi' → fingerprint_stream fi = fingerprint_stream fi' → fi = fi'.
Proof.
  intros Hwf Hwf'. rewrite !fingerprint_stream_tuple by done.
  intros [_ H]%app_inj_1; [|done].
  apply prefix_code in H as [Hsc H]; [|apply fi_wf_count; done..].
  apply prefix_code in H as [Hrf H]; [|apply fi_wf_factor; done..].
  apply (list_code node_valid node_enc) in H as [Hn H]; [|by apply node_table_ok..].
  apply (list_code shard_valid shard_enc) in H as [Hs H]; [|by apply shard_table_ok..].
  apply (list_code owner_valid owner_enc) in H as [Ho _]; [|by apply owner_table_ok..].
  destruct fi as [sc rf ns sm om], fi' as [sc' rf' ns' sm' om']; cbn in *. subst sc' rf'.
  f_equal.
  - apply (map_from_list ns ns' id (node_entries ns) (node_entries ns'));
      [apply node_entries_Permutation..|by rewrite !list_fmap_id].
  - apply (map_from_list sm sm' id (entries sm sc) (entries sm' sc));
      [apply entries_Permutation..|by rewrite !list_fmap_id].
    + apply (fi_shards_dom _ Hwf).
    + apply (fi_shards_dom _ Hwf').
  - apply (map_from_list om om' owner_tuple (entries om sc) (entries om' sc));
      [apply entries_Permutation..|done].
    + apply (fi_owners_dom _ Hwf).
    + apply (fi_owners_dom _ Hwf').
Qed.

(** ** The invariant of an installed snapshot *)

Record snapshot_wf (s : Snapshot) : Prop := {
  swf_count : 0 < ShardCount s;
  swf_nonempty : ∀ id a, Nodes s !! id = Some a → id ≠ "" ∧ a ≠ "";
  swf_inj : ∀ id id' a, Nodes s !! id = Some a → Nodes s !! id' = Some a → id = id';
  swf_dom : ∀ sh, is_Some (ShardMap s !! sh) ↔ Nodes s ≠ ∅ ∧ 0 ≤ sh < ShardCount s;
  swf_live : ∀ sh o, ShardMap s !! sh = Some o → is_Some (Nodes s !! o);
  swf_owners : ∀ sh o, Owners s !! sh = Some o →
    ShardMap s !! sh = Some (Primary o) ∧ NoDup (Primary o :: Replicas o) ∧
    Forall (fun r => is_Some (Nodes s !! r)) (Replicas o);
  swf_owners_dom : Owners s = ∅ ∨
    ∀ sh, is_Some (Owners s !! sh) ↔ is_Some (ShardMap s !! sh)
}.

Lemma lookup_node_pairs infos id a :
  node_list_ok infos →
  (list_to_map (node_pairs infos) : gmap string string) !! id = Some a ↔
  ∃ n, n ∈ infos ∧ NodeId n = id ∧ NodeAddress n = a.
Proof.
  intros (_ & Hnd & _).
  rewrite <-elem_of_list_to_map.
  - unfold node_pairs. rewrite list_elem_of_fmap. split.
    + intros (n & [= -> ->] & Hn). eauto.
    + intros (n & Hn & <- & <-). eauto.
  - unfold node_pairs. by rewrite <-list_fmap_compose.
Qed.

Lemma NoDup_fmap_inj {A B} (f : A → B) l x y :
  NoDup (f <$> l) → x ∈ l → y ∈ l → f x = f y → x = y.
Proof.
  intros Hnd [i Hi]%list_elem_of_lookup [j Hj]%list_elem_of_lookup Heq.
  assert (i = j); [|congruence].
  eapply NoDup_lookup; [done|..]; rewrite list_lookup_fmap; [by rewrite Hi|by rewrite Hj, Heq].
Qed.

Lemma accepted_wf g sc infos sm om rf :
  in_u32 sc → acceptable sc infos sm om → snapshot_wf (accepted g sc infos sm om rf).
Proof.
  intros Hsc (Hnz & Hinfos & Hrest). pose proof Hinfos as (HF & Hnd & Hnda).
  set (ns := list_to_map (node_pairs infos) : gmap string string).
  assert (Hne : ns ≠ ∅ ↔ infos ≠ []).
  { unfold ns. destruct infos as [|n infos]; [done|]. split; [done|].
    intros _. apply insert_non_empty. }
  assert (Hok : ∀ s, infos ≠ [] → 0 ≤ s < sc →
    shard_ok ns sm om (negb (Z.of_nat (size om) =? 0)) s ∧ Z.of_nat (size sm) = sc).
  { intros s Hi Hs. rewrite decide_False in Hrest by done. naive_solver. }
  assert (Hdom : ∀ s, is_Some (sm !! s) ↔ infos ≠ [] ∧ 0 ≤ s < sc).
  { intros s. destruct (decide (infos = [])) as [->|Hi].
    - destruct Hrest as [-> _]. rewrite lookup_empty. split; [by intros []|naive_solver].
    - destruct Hrest as (Hsize & _ & _). rewrite (dense_map_dom sm sc Hsize); [naive_solver|].
      intros k Hk. destruct (Hok k Hi Hk) as [(o & -> & _) _]. done. }
  unfold in_u32 in Hsc. split; cbn; fold ns.
  - lia.
  - intros id a (n & Hn & <- & <-)%lookup_node_pairs; [|done].
    rewrite Forall_forall in HF. by apply HF.
  - intros id id' a (n & Hn & <- & Ha)%lookup_node_pairs (n' & Hn' & <- & Ha')%lookup_node_pairs;
      [|done..]. f_equal. eapply (NoDup_fmap_inj NodeAddress); eauto. congruence.
  - intros sh. by rewrite Hne.
  - intros sh o Ho. destruct (proj1 (Hdom sh)) as [Hi Hs]; [by rewrite Ho|].
    destruct (Hok sh Hi Hs) as [(o' & Ho' & Hlive & _) _]. congruence.
  - intros sh o. rewrite lookup_wire_owners.
    destruct (decide (0 ≤ sh < sc)) as [Hs|]; [|done]. intros Ho.
    destruct (decide (infos = [])) as [->|Hi].
    { destruct Hrest as [_ ->]. by rewrite lookup_empty in Ho. }
    destruct (Hok sh Hi Hs) as [(owner & Hsm & _ & Hown) _].
    destruct Hown as (o' & Ho' & Hp & Hnd' & HF').
    { rewrite size_eqb_0, negb_true_iff. apply bool_decide_eq_false. intros ->.
      by rewrite lookup_empty in Ho. }
    rewrite Ho' in Ho. cbn in Ho. simplify_eq. done.
  - destruct (decide (om = ∅)) as [->|Hom]; [by left|right].
    destruct (decide (infos = [])) as [->|Hi]; [by destruct Hrest|].
    intros sh. rewrite Hdom, lookup_wire_owners. destruct (decide (0 ≤ sh < sc)) as [Hs|].
    + split; [naive_solver|]. intros _.
      destruct (Hok sh Hi Hs) as [(owner & _ & _ & Hown) _].
      destruct Hown as (o' & -> & _); [|done].
      rewrite size_eqb_0, negb_true_iff. by apply bool_decide_eq_false.
    + split; [by intros []|naive_solver].
Qed.

(** ** What the retry loop returns *)

Section fetch_lemmas.
Context {E : Type}.
Implicit Types (a : attempt E).

(** The attempt answered both RPCs and the pair was incoherent. *)
Definition incoherent a : Prop :=
  ∃ nl sm, at_ctx a = None ∧ at_nodes a = Ok nl ∧ at_shards a = Ok sm ∧
           accept (E := E) nl sm = Continue.

Lemma fetch_loop_Ok l gens s :
  fetch_loop l gens = Ok s →
  ∃ l1 a l2 nl sm, l = l1 ++ a :: l2 ∧ Forall incoherent l1 ∧ at_ctx a = None ∧
    at_nodes a = Ok nl ∧ at_shards a = Ok sm ∧ accept (E := E) nl sm = Return (Ok s).
Proof.
  revert gens. induction l as [|a l IH]; intros gens; cbn; [done|].
  destruct (at_ctx a) eqn:Hc; [done|].
  destruct (at_nodes a) as [nl|] eqn:Hn; [|done].
  destruct (at_shards a) as [sm|] eqn:Hs; [|done].
  destruct (accept nl sm) as [|r] eqn:Ha.
  - intros (l1 & b & l2 & nl' & sm' & -> & HF & H)%IH.
    exists (a :: l1), b, l2, nl', sm'. split; [done|]. split; [|done].
    constructor; [|done]. by exists nl, sm.
  - intros ->. exists [], a, l, nl, sm. split; [done|]. by split; [constructor|].
Qed.

Lemma accept_not_DidNotConverge nl sm k g g' :
  accept (E := E) nl sm ≠ Return (Err (DidNotConverge k g g')).
Proof.
  unfold accept, accept_fingerprinted, accept_generation.
  repeat case_match; congruence.
Qed.

Lemma fetch_loop_DidNotConverge l gens :
  (∃ g g', fetch_loop l gens = Err (DidNotConverge maxCoherenceAttempts g g')) ↔
  Forall incoherent l.
Proof.
  revert gens. induction l as [|a l IH]; intros gens; cbn.
  - split; [constructor|eauto].
  - rewrite Forall_cons. split.
    + intros (g & g' & H). destruct (at_ctx a) eqn:Hc; [done|].
      destruct (at_nodes a) as [nl|] eqn:Hn; [|done].
      destruct (at_shards a) as [sm|] eqn:Hs; [|done].
      destruct (accept nl sm) as [|r] eqn:Ha.
      * split; [by exists nl, sm|]. eapply IH. eauto.
      * subst. by apply accept_not_DidNotConverge in Ha.
    + intros [(nl & sm & -> & -> & -> & ->) HF]. by apply IH.
Qed.

Lemma accept_Ok nl sm s :
  in_u32 (sm_ShardCount sm) → Z.of_nat (length (nl_Nodes nl)) < 2 ^ 32 →
  accept (E := E) nl sm = Return (Ok s) →
  ∃ g sc infos,
    nl_Nodes nl = Some <$> infos ∧ in_u32 sc ∧
    acceptable sc infos (sm_ShardToNodeId sm) (sm_ShardToOwners sm) ∧
    s = with_raft (with_fingerprint
          (accepted g sc infos (sm_ShardToNodeId sm) (sm_ShardToOwners sm)
             (sm_ReplicationFactor sm)) (sm_TopologyFingerprint sm))
          (sm_RaftLeaderId sm) (sm_RaftTerm sm) ∧
    nl_TopologyFingerprint nl = sm_TopologyFingerprint sm ∧
    (sm_TopologyFingerprint sm = Fingerprint (Snapshot_FingerprintInput s) ∧
     sc = sm_ShardCount sm ∨
     sm_TopologyFingerprint sm = [] ∧
     nl_TopologyGeneration nl = sm_TopologyGeneration sm).
Proof.
  intros Hsc Hlen. unfold accept.
  destruct (bool_decide_reflect (nl_TopologyFingerprint nl = [])) as [Hn|Hn];
  destruct (bool_decide_reflect (sm_TopologyFingerprint sm = [])) as [Hs|Hs];
    cbn [negb orb]; unfold accept_fingerprinted.
  - unfold accept_generation.
    destruct (Z.eqb_spec (nl_TopologyGeneration nl) (sm_TopologyGeneration sm)); [|done].
    cbn [negb].
    set (sc := if (sm_ShardCount sm =? 0) && (0 <? Z.of_nat (size (sm_ShardToNodeId sm)))
               then _ else _).
    assert (in_u32 sc) as Hsc' by (unfold sc; case_match; [apply u32_range|done]).
    destruct (validate _ _ _ _ _ _) as [snap|] eqn:Hv; [|done].
    apply validate_Ok in Hv as (infos & Hi & Hacc & ->); [|done..].
    intros [= <-]. exists (nl_TopologyGeneration nl), sc, infos.
    rewrite Hs, Hn. split_and!; try done. by right.
  - by rewrite (bool_decide_eq_true_2 (nl_TopologyFingerprint nl = [])).
  - by rewrite (bool_decide_eq_true_2 (sm_TopologyFingerprint sm = [])), orb_true_r.
  - rewrite (bool_decide_eq_false_2 (nl_TopologyFingerprint nl = [])),
      (bool_decide_eq_false_2 (sm_TopologyFingerprint sm = [])) by done. cbn [orb].
    destruct (negb (bool_decide (_ = FingerprintSize) && _)); [done|].
    destruct (bool_decide_reflect (nl_TopologyFingerprint nl = sm_TopologyFingerprint sm));
      [|done]. cbn [negb].
    destruct (validate _ _ _ _ _ _) as [snap|] eqn:Hv; [|done].
    apply validate_Ok in Hv as (infos & Hi & Hacc & ->); [|done..].
    case_bool_decide as Hfp; [|done]. intros [= <-].
    exists (sm_TopologyGeneration sm), (sm_ShardCount sm), infos.
    split_and!; try done. by left.
Qed.
End fetch_lemmas.

Lemma elem_of_owner_fold (f : string → string) (l : list (Z * string)) a :
  a ∈ foldr (fun (kv : Z * string) (seen : gset string) =>
               let address := f kv.2 in
               if bool_decide (address = "") then seen else {[address]} ∪ seen) ∅ l ↔
  a ≠ "" ∧ ∃ kv, kv ∈ l ∧ f kv.2 = a.
Proof.
  induction l as [|kv l IH]; cbn; [set_solver|].
  case_bool_decide as Hkv; [|rewrite elem_of_union, elem_of_singleton]; rewrite IH;
    setoid_rewrite elem_of_cons; naive_solver.
Qed.

(** ** A two-node cluster, for the witnesses *)

Module Fixture.
Definition infos : list NodeInfo :=
  [MkNodeInfo "node-0" "10.0.0.1:7100" true; MkNodeInfo "node-1" "10.0.0.2:7100" true].
Definition ids : list string := NodeId <$> infos.
Definition shards : gmap Z string := AssignShards ids 4.
Definition owners : gmap Z ShardOwners := default ∅ (AssignShardOwners ids 4 1).
Definition input : FingerprintInput :=
  MkFingerprintInput 4 1 (list_to_map (node_pairs infos)) shards owners.
Definition nodes_response (g : Z) : GetNodeListResponse :=
  MkNodeListResponse (Some <$> infos) g (Fingerprint input).
Definition shards_response (g : Z) : GetShardMapResponse :=
  MkShardMapResponse shards g (Fingerprint input) 4 (Some <$> owners) 1 "cp-0" 3.
(** The first pass straddles a publisher change, the second is coherent. *)
Definition server (i : nat) : attempt unit :=
  if bool_decide (i = 1%nat)
  then MkAttempt None (Ok (MkNodeListResponse [] 6 [])) (Ok (shards_response 7))
  else MkAttempt None (Ok (nodes_response 7)) (Ok (shards_response 7)).
Definition churning (i : nat) : attempt unit :=
  MkAttempt None (Ok (MkNodeListResponse [] (Z.of_nat i) [])) (Ok (shards_response 7)).
End Fixture.

(** ** Properties *)

(** The snapshot a client installs is well formed whatever the metadata
    server answered: [validate] returns one only when every node has a distinct
    non-empty ID and address, the shard map covers exactly [0..shardCount) (or is
    empty with no live node), every owner is live, and the owner map, if sent,
    names for each shard its shard-map owner and distinct live replicas. *)
Theorem validate_well_formed g sc nodes sm om rf s
  (Hsc : in_u32 sc) (Hlen : Z.of_nat (length nodes) < 2 ^ 32)
  (Hok : validate g sc nodes sm om rf = Ok s) :
  snapshot_wf s ∧ ShardMap s = sm ∧
  (∀ sh o, Owners s !! sh = Some o → om !! sh = Some (Some o)).
Proof.
  apply validate_Ok in Hok as (infos & _ & Hacc & ->); [|done..].
  split; [by apply accepted_wf|]. split; [done|]. intros sh o. cbn.
  rewrite lookup_wire_owners. case_decide; [|done].
  destruct (om !! sh) as [[]|]; cbn; by intros; simplify_eq.
Qed.

Lemma validate_well_formed_witness :
  ∃ s, validate 7 4 (Some <$> Fixture.infos) Fixture.shards (Some <$> Fixture.owners) 1 = Ok s
       ∧ snapshot_wf s.
Proof.
  eexists. split; [vm_compute; reflexivity|].
  apply (validate_well_formed 7 4 (Some <$> Fixture.infos) Fixture.shards
           (Some <$> Fixture.owners) 1); [unfold in_u32; lia|cbn; lia|vm_compute; reflexivity].
Defined.

(** C20: [validate] rejects nothing else: it accepts exactly the acceptable
    inputs and returns exactly their content, so every error it reports names a
    real inconsistency. *)
Theorem validate_accepts_iff g sc nodes sm om rf s
  (Hsc : in_u32 sc) (Hlen : Z.of_nat (length nodes) < 2 ^ 32) :
  validate g sc nodes sm om rf = Ok s ↔
  ∃ infos, nodes = Some <$> infos ∧ acceptable sc infos sm om ∧
           s = accepted g sc infos sm om rf.
Proof. by apply validate_Ok. Qed.

Lemma validate_accepts_iff_witness :
  validate 7 4 [] ∅ ∅ 1 = Ok (accepted 7 4 [] ∅ ∅ 1).
Proof.
  apply validate_accepts_iff; [unfold in_u32; lia|cbn; lia|].
  exists []. repeat split; [lia|constructor..].
Defined.

(** The byte stream hashed into the topology fingerprint is unambiguous:
    two topologies that write the same stream are equal, so equal fingerprints of
    different topologies would be a SHA-256 collision. *)
Theorem fingerprint_stream_injective fi fi'
  (Hwf : fi_wf fi) (Hwf' : fi_wf fi')
  (Heq : fingerprint_stream fi = fingerprint_stream fi') : fi = fi'.
Proof. by apply fingerprint_stream_inj. Qed.

Definition fixture_empty (rf : Z) : FingerprintInput := MkFingerprintInput 4 rf ∅ ∅ ∅.

Lemma fingerprint_stream_injective_witness :
  fi_wf (fixture_empty 1) ∧
  (fingerprint_stream (fixture_empty 1) = fingerprint_stream (fixture_empty (2 - 1)) →
   fixture_empty 1 = fixture_empty (2 - 1)).
Proof.
  assert (fi_wf (fixture_empty 1)) as Hwf.
  { constructor; cbn; [unfold in_u32; lia..| | | |].
    - rewrite map_size_empty. lia.
    - intros ? ?. by rewrite lookup_empty.
    - intros ? ?. by rewrite lookup_empty.
    - intros ? ?. by rewrite lookup_empty. }
  split; [exact Hwf|]. intros H. by apply (fingerprint_stream_injective _ _ Hwf Hwf).
Defined.

(** C2: [Fetch] never installs a torn topology: a snapshot it returns was built
    from the two responses of ONE pass, all earlier passes having been incoherent;
    it is well formed and keeps the fingerprint of the responses; and either both
    responses carried the fingerprint this very content hashes to, or both came
    from a pre-fingerprint server and agreed on the generation. *)
Theorem Fetch_coherent {E} (server : nat → attempt E) s
  (Hcount : ∀ i sm, at_shards (server i) = Ok sm → in_u32 (sm_ShardCount sm))
  (Hlen : ∀ i nl, at_nodes (server i) = Ok nl → Z.of_nat (length (nl_Nodes nl)) < 2 ^ 32)
  (Hok : Fetch server = Ok s) :
  ∃ i nl sm, (1 ≤ i ≤ maxCoherenceAttempts)%nat ∧
    (∀ j, (1 ≤ j < i)%nat → incoherent (server j)) ∧
    at_nodes (server i) = Ok nl ∧ at_shards (server i) = Ok sm ∧ snapshot_wf s ∧
    ShardMap s = sm_ShardToNodeId sm ∧ SnapFingerprint s = sm_TopologyFingerprint sm ∧
    (∃ infos, nl_Nodes nl = Some <$> infos ∧ Nodes s = list_to_map (node_pairs infos)) ∧
    nl_TopologyFingerprint nl = sm_TopologyFingerprint sm ∧
    (sm_TopologyFingerprint sm = Fingerprint (Snapshot_FingerprintInput s) ∨
     sm_TopologyFingerprint sm = [] ∧ nl_TopologyGeneration nl = sm_TopologyGeneration sm).
Proof.
  apply fetch_loop_Ok in Hok as (l1 & a & l2 & nl & sm & Hl & HF & Hc & Hn & Hs & Ha).
  assert (Hserver : ∀ j b, (l1 ++ a :: l2) !! j = Some b →
    b = server (S j) ∧ (j < maxCoherenceAttempts)%nat).
  { intros j b Hj. rewrite <-Hl in Hj. apply list_lookup_fmap_Some in Hj as (k & -> & Hk).
    by apply lookup_seq in Hk as [-> ?]. }
  destruct (Hserver (length l1) a) as [-> Hi]; [by apply list_lookup_middle|].
  apply accept_Ok in Ha as (g & sc & infos & Hinfos & Hsc & Hacc & -> & Hfp & Hor);
    [|by eapply Hcount|by eapply Hlen].
  exists (S (length l1)), nl, sm. split; [lia|].
  split; [|split_and!; try done; [|by eauto|by destruct Hor as [[? _]|?]; [left|right]]].
  - intros j Hj. destruct (lookup_lt_is_Some_2 l1 (j - 1)) as [b Hb]; [lia|].
    destruct (Hserver (j - 1)%nat b) as [-> _]; [by apply lookup_app_l_Some|].
    replace (S (j - 1)) with j in Hb by lia.
    rewrite Forall_forall in HF. apply HF, list_elem_of_lookup. eauto.
  - by destruct (accepted_wf g sc infos (sm_ShardToNodeId sm) (sm_ShardToOwners sm)
                   (sm_ReplicationFactor sm) Hsc Hacc).
Qed.

Lemma Fetch_coherent_witness :
  ∃ s i, Fetch Fixture.server = Ok s ∧ (1 ≤ i ≤ maxCoherenceAttempts)%nat ∧ snapshot_wf s.
Proof.
  destruct (Fetch_coherent Fixture.server
    (match Fetch Fixture.server with Ok s => s | Err _ => accepted 0 0 [] ∅ ∅ 0 end))
    as (i & nl & sm & Hi & _ & _ & _ & Hwf & _).
  - intros [|[|i]] sm [= <-]; unfold in_u32; cbn; lia.
  - intros [|[|i]] nl [= <-]; cbn; lia.
  - vm_compute. reflexivity.
  - eexists. exists i. split; [vm_compute; reflexivity|]. split; [exact Hi|exact Hwf].
Defined.

(** The retry loop is bounded and gives up only on genuine churn: it reports
    non-convergence exactly when all eight passes answered both RPCs with an
    incoherent pair. *)
Theorem Fetch_gives_up_iff {E} (server : nat → attempt E) :
  (∃ g g', Fetch server = Err (DidNotConverge maxCoherenceAttempts g g')) ↔
  ∀ i, (1 ≤ i ≤ maxCoherenceAttempts)%nat → incoherent (server i).
Proof.
  unfold Fetch. rewrite fetch_loop_DidNotConverge, Forall_fmap, Forall_forall.
  setoid_rewrite elem_of_seq. cbn. split; intros H i Hi; apply H; lia.
Qed.

(** Cluster-wide scans visit exactly the owners: [OwnerAddresses] is sorted,
    has no repetition, and lists precisely the non-empty addresses [OwnsAddress]
    accepts. *)
Theorem OwnerAddresses_spec s :
  StronglySorted String.le (OwnerAddresses s) ∧ NoDup (OwnerAddresses s) ∧
  ∀ a, a ∈ OwnerAddresses s ↔ a ≠ "" ∧ OwnsAddress s a = true.
Proof.
  unfold OwnerAddresses, sort_strings. split_and!.
  - apply merge_sort_StronglySorted; apply _.
  - rewrite merge_sort_Permutation. apply NoDup_elements.
  - intros a. rewrite elem_of_merge_sort, elem_of_elements.
    rewrite (elem_of_owner_fold (owner_address s)). unfold OwnsAddress.
    rewrite existsb_exists. setoid_rewrite list_elem_of_In.
    setoid_rewrite bool_decide_eq_true. done.
Qed.
