(* ===== verification/GoStd.v ===== *)
(** * The parts of Go's standard library the control plane calls

    [strings.TrimSpace], [strconv.Itoa]/[Atoi]/[ParseUint], [net.SplitHostPort],
    [net.JoinHostPort] and [net.ParseIP], on byte strings, with the facts the
    components use: decimal and host:port round trips, and that trimming leaves a
    string of graphic characters alone. *)

From S2P Require Import Prelude Sha256.
Local Open Scope byte_scope.
Local Open Scope Z_scope.

(** ** Searching *)

(** [bytealg.IndexByteString] and [LastIndexByteString]; [None] is -1. *)
Fixpoint index_byte (c : byte) (l : bytes) : option nat :=
  match l with
  | [] => None
  | b :: l => if bool_decide (b = c) then Some O else S <$> index_byte c l
  end.

Fixpoint last_index_byte (c : byte) (l : bytes) : option nat :=
  match l with
  | [] => None
  | b :: l =>
      match last_index_byte c l with
      | Some i => Some (S i)
      | None => if bool_decide (b = c) then Some O else None
      end
  end.

Lemma index_byte_None c l : index_byte c l = None ↔ c ∉ l.
Proof.
  induction l as [|b l IH]; cbn; [set_solver|].
  case_bool_decide; [set_solver|]. destruct (index_byte c l); set_solver.
Qed.

Lemma last_index_byte_None c l : last_index_byte c l = None ↔ c ∉ l.
Proof.
  induction l as [|b l IH]; cbn; [set_solver|].
  destruct (last_index_byte c l); [set_solver|]. case_bool_decide; set_solver.
Qed.

Lemma index_byte_app c l k : c ∉ l → index_byte c (l ++ c :: k) = Some (length l).
Proof.
  induction l as [|b l IH]; intros Hc; cbn; [by rewrite bool_decide_eq_true_2|].
  rewrite bool_decide_eq_false_2 by set_solver. rewrite IH by set_solver. done.
Qed.

Lemma last_index_byte_app c l k : c ∉ k → last_index_byte c (l ++ c :: k) = Some (length l).
Proof.
  intros Hc. induction l as [|b l IH]; cbn; [|by rewrite IH].
  apply last_index_byte_None in Hc as ->. by rewrite bool_decide_eq_true_2.
Qed.

Lemma last_index_byte_Some c l i :
  last_index_byte c l = Some i →
  l = take i l ++ c :: drop (S i) l ∧ c ∉ drop (S i) l.
Proof.
  revert i. induction l as [|b l IH]; intros i; cbn; [done|].
  destruct (last_index_byte c l) as [j|] eqn:Hj.
  - intros [= <-]. destruct (IH j) as [H1 H2]; [done|]. cbn. split; [by f_equal|done].
  - case_bool_decide; [|done]. intros [= <-]. subst. cbn.
    rewrite drop_0. split; [done|]. by apply last_index_byte_None.
Qed.

(** ** [strings.TrimSpace]

    Unicode white space, recognised in its UTF-8 encoding: a well-formed
    multi-byte sequence is self-delimiting, so matching the encodings at either
    end is decoding a rune there. *)

Definition ascii_space (b : byte) : bool :=
  bool_decide (b ∈ [x09; x0a; x0b; x0c; x0d; x20]).

Definition space2 (a b : byte) : bool :=
  bool_decide (a = xc2) && bool_decide (b ∈ [x85; xa0]).

Definition space3 (a b c : byte) : bool :=
  bool_decide ((a, b, c) = (xe1, x9a, x80)) ||
  bool_decide ((a, b) = (xe2, x80)) &&
    (let v := byteZ c in ((0x80 <=? v) && (v <=? 0x8a)) || bool_decide (c ∈ [xa8; xa9; xaf])) ||
  bool_decide ((a, b, c) = (xe2, x81, x9f)) || bool_decide ((a, b, c) = (xe3, x80, x80)).

Fixpoint trim_left (l : bytes) : bytes :=
  match l with
  | [] => []
  | a :: l1 =>
      if ascii_space a then trim_left l1 else
      match l1 with
      | [] => l
      | b :: l2 =>
          if space2 a b then trim_left l2 else
          match l2 with
          | [] => l
          | c :: l3 => if space3 a b c then trim_left l3 else l
          end
      end
  end.

(** The same from the other end, on the reversed string. *)
Fixpoint trim_left_rev (l : bytes) : bytes :=
  match l with
  | [] => []
  | a :: l1 =>
      if ascii_space a then trim_left_rev l1 else
      match l1 with
      | [] => l
      | b :: l2 =>
          if space2 b a then trim_left_rev l2 else
          match l2 with
          | [] => l
          | c :: l3 => if space3 c b a then trim_left_rev l3 else l
          end
      end
  end.

Definition TrimSpace_bytes (l : bytes) : bytes :=
  reverse (trim_left_rev (reverse (trim_left l))).

Definition TrimSpace (s : string) : string :=
  String.string_of_list_byte (TrimSpace_bytes (bytes_of_string s)).

(** Printable ASCII. *)
Definition graphic (b : byte) : Prop := 0x21 ≤ byteZ b ≤ 0x7e.

Lemma graphic_not_space a : graphic a → ascii_space a = false.
Proof. unfold graphic. by destruct a; cbn; intros; try lia. Qed.

Lemma graphic_not_space2 a b : graphic a ∨ graphic b → space2 a b = false.
Proof.
  unfold graphic, space2. intros H. apply andb_false_iff.
  destruct (decide (a = xc2)) as [->|]; [right|left; by apply bool_decide_eq_false_2].
  apply bool_decide_eq_false_2. intros Hb. destruct H as [H|H]; [cbn in H; lia|].
  apply list_elem_of_In in Hb. cbn in Hb. destruct Hb as [<-|[<-|[]]]; cbn in H; lia.
Qed.

Lemma graphic_not_space3 a b c : graphic a ∨ graphic c → space3 a b c = false.
Proof.
  unfold graphic, space3. intros H.
  assert (∀ x y, (graphic a ∨ graphic c) → ¬ graphic x → ¬ graphic y →
    ∀ z, bool_decide ((a, b, c) = (x, z, y)) = false) as Hne.
  { intros x y ? ? ? z. apply bool_decide_eq_false_2. intros [= -> -> ->]. tauto. }
  rewrite !Hne by (done || (unfold graphic; cbn; lia)). cbn [orb]. rewrite !orb_false_r.
  apply andb_false_iff. destruct H as [H|H].
  - left. apply bool_decide_eq_false_2. intros [= -> ->]. cbn in H. lia.
  - right. apply orb_false_iff. split; [case_bool; cbn; lia|].
    apply bool_decide_eq_false_2. intros Hb. apply list_elem_of_In in Hb. cbn in Hb.
    destruct Hb as [<-|[<-|[<-|[]]]]; cbn in H; lia.
Qed.

Lemma trim_left_graphic a l : graphic a → trim_left (a :: l) = a :: l.
Proof.
  intros Ha. cbn. rewrite graphic_not_space by done.
  destruct l as [|b [|c l]]; [done|by rewrite graphic_not_space2 by auto|].
  by rewrite graphic_not_space2, graphic_not_space3 by auto.
Qed.

Lemma trim_left_rev_graphic a l : graphic a → trim_left_rev (a :: l) = a :: l.
Proof.
  intros Ha. cbn. rewrite graphic_not_space by done.
  destruct l as [|b [|c l]]; [done|by rewrite graphic_not_space2 by auto|].
  by rewrite graphic_not_space2, graphic_not_space3 by auto.
Qed.

(** A string whose first and last bytes are graphic has nothing to trim. *)
Lemma TrimSpace_graphic s :
  Forall graphic (bytes_of_string s) → TrimSpace s = s.
Proof.
  intros H. unfold TrimSpace, TrimSpace_bytes.
  assert (trim_left (bytes_of_string s) = bytes_of_string s) as ->.
  { destruct (bytes_of_string s); [done|]. apply Forall_cons in H as [? _].
    by apply trim_left_graphic. }
  assert (trim_left_rev (reverse (bytes_of_string s)) = reverse (bytes_of_string s)) as ->.
  { apply Forall_reverse in H.
    destruct (reverse (bytes_of_string s)); [done|]. apply Forall_cons in H as [? _].
    by apply trim_left_rev_graphic. }
  rewrite reverse_involutive. apply String.string_of_list_byte_of_string.
Qed.

(** ** Decimal integers *)

Definition digit_val (b : byte) : option Z :=
  let v := byteZ b - 48 in if (0 <=? v) && (v <=? 9) then Some v else None.

Definition digit (d : Z) : byte := byte_of_Z (48 + d).

Fixpoint parse_digits (acc : Z) (l : bytes) : option Z :=
  match l with
  | [] => Some acc
  | b :: l => d ← digit_val b; parse_digits (acc * 10 + d) l
  end.

(** [strconv.ParseUint(s, 10, _)] with the given maximum. *)
Definition ParseUint (max : Z) (l : bytes) : option Z :=
  match l with
  | [] => None
  | _ => v ← parse_digits 0 l; if v <=? max then Some v else None
  end.

(** [strconv.ParseInt(s, 10, 64)], which is [Atoi] on a 64-bit platform. *)
Definition ParseInt (l : bytes) : option Z :=
  match l with
  | [] => None
  | b :: l' =>
      if bool_decide (b = "-") then Z.opp <$> ParseUint (2 ^ 63) l'
      else if bool_decide (b = "+") then ParseUint maxInt64 l'
      else ParseUint maxInt64 l
  end.

Definition Atoi (s : string) : option Z := ParseInt (bytes_of_string s).

Fixpoint digits (fuel : nat) (n : Z) (acc : bytes) : bytes :=
  match fuel with
  | O => acc
  | S fuel =>
      let acc' := digit (n `mod` 10) :: acc in
      if n <? 10 then acc' else digits fuel (n / 10) acc'
  end.

(** [strconv.Itoa]; a number below [2^f] has at most [f] decimal digits. *)
Definition nat_digits (n : Z) : bytes := digits (S (Z.to_nat (Z.log2 n))) n [].

Definition Itoa_bytes (n : Z) : bytes :=
  if n <? 0 then "-" :: nat_digits (- n) else nat_digits n.

Definition Itoa (n : Z) : string := String.string_of_list_byte (Itoa_bytes n).

Lemma digit_val_digit d : 0 ≤ d < 10 → digit_val (digit d) = Some d.
Proof.
  intros Hd. unfold digit_val, digit. rewrite byteZ_byte_of_Z.
  rewrite Z.mod_small by lia.
  replace (48 + d - 48) with d by lia.
  by rewrite (proj2 (Z.leb_le 0 d)), (proj2 (Z.leb_le d 9)) by lia.
Qed.

Lemma parse_digits_app a l k :
  parse_digits a (l ++ k) = (b ← parse_digits a l; parse_digits b k).
Proof.
  revert a. induction l as [|b l IH]; intros a; cbn; [done|].
  destruct (digit_val b); cbn; [apply IH|done].
Qed.

Lemma digits_acc f n acc : digits f n acc = digits f n [] ++ acc.
Proof.
  revert n acc. induction f as [|f IH]; intros n acc; cbn [digits]; [done|].
  destruct (n <? 10); [done|].
  rewrite IH, (IH _ [_]), <-app_assoc. done.
Qed.

Lemma parse_digits_digits f n :
  0 ≤ n < 2 ^ Z.of_nat f → (0 < f)%nat → parse_digits 0 (digits f n []) = Some n.
Proof.
  revert n. induction f as [|f IH]; intros n Hn Hf; [lia|]. cbn [digits].
  destruct (Z.ltb_spec n 10).
  - cbn. rewrite Z.mod_small, digit_val_digit by lia. cbn. done.
  - rewrite digits_acc, parse_digits_app.
    assert (n / 10 < 2 ^ Z.of_nat f).
    { rewrite Nat2Z.inj_succ, Z.pow_succ_r in Hn by lia.
      apply Z.div_lt_upper_bound; lia. }
    rewrite IH; [|split; [apply Z.div_pos; lia|done]|destruct f; [cbn in *; lia|lia]].
    pose proof (Z.mod_pos_bound n 10). cbn. rewrite digit_val_digit by lia. cbn.
    f_equal. pose proof (Z.div_mod n 10). lia.
Qed.

Lemma parse_nat_digits n : 0 ≤ n → parse_digits 0 (nat_digits n) = Some n.
Proof.
  intros Hn. apply parse_digits_digits; [|lia].
  rewrite Nat2Z.inj_succ, Z2Nat.id by apply Z.log2_nonneg.
  split; [done|]. destruct (decide (n = 0)) as [->|]; [done|]. apply Z.log2_spec. lia.
Qed.

(** The digits of [n] are digits, and the leading one is not a zero unless the
    number is [0]. *)
Lemma digits_shape f n acc :
  0 ≤ n < 2 ^ Z.of_nat f → (0 < f)%nat →
  ∃ d ds, digits f n acc = digit d :: map digit ds ++ acc ∧
    Forall (fun d => 0 ≤ d < 10) (d :: ds) ∧ (d = 0 → n = 0 ∧ ds = []).
Proof.
  revert n acc. induction f as [|f IH]; intros n acc Hn Hf; [lia|]. cbn [digits].
  pose proof (Z.mod_pos_bound n 10).
  destruct (Z.ltb_spec n 10).
  - exists (n `mod` 10), []. split; [done|]. split; [repeat constructor; lia|].
    rewrite Z.mod_small by lia. done.
  - assert (1 ≤ n / 10 < 2 ^ Z.of_nat f).
    { rewrite Nat2Z.inj_succ, Z.pow_succ_r in Hn by lia.
      split; [apply Z.div_le_lower_bound; lia|apply Z.div_lt_upper_bound; lia]. }
    destruct (IH (n / 10) (digit (n `mod` 10) :: acc)) as (d & ds & Heq & HF & Hz);
      [lia|destruct f; [cbn in *; lia|lia]|].
    exists d, (ds ++ [n `mod` 10]). rewrite Heq, map_app, <-app_assoc. split; [done|].
    split; [|intros ->; destruct Hz; lia].
    apply Forall_cons in HF as [? ?]. constructor; [done|].
    apply Forall_app. split; [done|]. repeat constructor; lia.
Qed.

Lemma nat_digits_shape n :
  0 ≤ n →
  ∃ d ds, nat_digits n = digit d :: map digit ds ∧
    Forall (fun d => 0 ≤ d < 10) (d :: ds) ∧ (d = 0 → n = 0 ∧ ds = []).
Proof.
  intros Hn. destruct (digits_shape (S (Z.to_nat (Z.log2 n))) n []) as (d & ds & H).
  - rewrite Nat2Z.inj_succ, Z2Nat.id by apply Z.log2_nonneg.
    split; [done|]. destruct (decide (n = 0)) as [->|]; [done|]. apply Z.log2_spec. lia.
  - lia.
  - rewrite app_nil_r in H. eauto.
Qed.

Lemma digit_val_sign : digit_val "-" = None ∧ digit_val "+" = None.
Proof. done. Qed.

Lemma ParseUint_nat_digits max n :
  0 ≤ n ≤ max → ParseUint max (nat_digits n) = Some n.
Proof.
  intros Hn. destruct (nat_digits_shape n) as (d & ds & Heq & _); [lia|].
  unfold ParseUint. rewrite Heq, <-Heq, parse_nat_digits by lia. cbn.
  by rewrite (proj2 (Z.leb_le n max)) by lia.
Qed.

Lemma ParseInt_Itoa n : in_i64 n → ParseInt (Itoa_bytes n) = Some n.
Proof.
  unfold in_i64, Itoa_bytes. intros Hn. destruct (Z.ltb_spec n 0).
  - cbn [ParseInt]. rewrite bool_decide_eq_true_2 by done.
    rewrite ParseUint_nat_digits by lia. cbn. by rewrite Z.opp_involutive.
  - destruct (nat_digits_shape n) as (d & ds & Heq & HF & _); [done|].
    rewrite <-(ParseUint_nat_digits maxInt64 n) by (unfold maxInt64; lia).
    rewrite Heq. cbn [ParseInt].
    apply Forall_cons in HF as [Hd _].
    assert (∀ c, digit_val c = None → digit d ≠ c) as Hne
      by (intros c Hc <-; by rewrite digit_val_digit in Hc).
    rewrite !bool_decide_eq_false_2; [done|by apply Hne..].
Qed.

Lemma digit_val_range b d : digit_val b = Some d → 0 ≤ d ≤ 9.
Proof. unfold digit_val. case_bool; cbn; intros; simplify_eq; lia. Qed.

Lemma parse_digits_nonneg a l v : 0 ≤ a → parse_digits a l = Some v → 0 ≤ v.
Proof.
  revert a. induction l as [|b l IH]; intros a Ha; cbn; [by intros [= <-]|].
  intros (d & Hd%digit_val_range & H)%bind_Some. eapply IH; [|done]. lia.
Qed.

Lemma ParseUint_range max l v : ParseUint max l = Some v → 0 ≤ v ≤ max.
Proof.
  destruct l as [|b l]; [done|]. unfold ParseUint. intros (w & Hw & H)%bind_Some.
  destruct (Z.leb_spec w max); [|done]. injection H as <-. split; [|done].
  by eapply parse_digits_nonneg; [|done].
Qed.

Lemma ParseInt_range l v : ParseInt l = Some v → in_i64 v.
Proof.
  unfold in_i64. destruct l as [|b l]; [done|]. cbn [ParseInt].
  case_bool_decide; [|case_bool_decide].
  - destruct (ParseUint _ l) as [w|] eqn:Hw; [|done]. apply ParseUint_range in Hw.
    cbn. intros [= <-]. lia.
  - intros Hw%ParseUint_range. unfold maxInt64 in Hw. lia.
  - intros Hw%ParseUint_range. unfold maxInt64 in Hw. lia.
Qed.

Lemma Atoi_Itoa n : in_i64 n → Atoi (Itoa n) = Some n.
Proof.
  intros. unfold Atoi, Itoa, bytes_of_string.
  rewrite String.list_byte_of_string_of_list_byte. by apply ParseInt_Itoa.
Qed.

(** ** [net.SplitHostPort] and [net.JoinHostPort] *)

Inductive addr_error :=
| MissingPort | TooManyColons | MissingBracket | UnexpectedOpen | UnexpectedClose.

#[export] Instance addr_error_eq_dec : EqDecision addr_error.
Proof. solve_decision. Defined.

Definition SplitHostPort_bytes (hostport : bytes) : result addr_error (bytes * bytes) :=
  match last_index_byte ":" hostport with
  | None => Err MissingPort
  | Some i =>
      '(host, j, k) ←
        (if bool_decide (head hostport = Some "[") then
           match index_byte "]" hostport with
           | None => Err MissingBracket
           | Some fin =>
               if bool_decide (S fin = length hostport) then Err MissingPort
               else if bool_decide (S fin = i)
               then Ok (drop 1 (take fin hostport), 1%nat, S fin)
               else if bool_decide (hostport !! S fin = Some ":") then Err TooManyColons
               else Err MissingPort
           end
         else
           let host := take i hostport in
           if bool_decide (":" ∈ host) then Err TooManyColons else Ok (host, O, O));
      _ ← guard_err (bool_decide ("[" ∉ drop j hostport)) UnexpectedOpen;
      _ ← guard_err (bool_decide ("]" ∉ drop k hostport)) UnexpectedClose;
      Ok (host, drop (S i) hostport)
  end.

Definition SplitHostPort (hostport : string) : result addr_error (string * string) :=
  '(h, p) ← SplitHostPort_bytes (bytes_of_string hostport);
  Ok (String.string_of_list_byte h, String.string_of_list_byte p).

Definition JoinHostPort_bytes (host port : bytes) : bytes :=
  if bool_decide (":" ∈ host) then "[" :: host ++ "]" :: ":" :: port
  else host ++ ":" :: port.

Definition JoinHostPort (host port : string) : string :=
  String.string_of_list_byte
    (JoinHostPort_bytes (bytes_of_string host) (bytes_of_string port)).

Lemma SplitHostPort_JoinHostPort_bytes h p :
  "[" ∉ h → "]" ∉ h → ":" ∉ p → "[" ∉ p → "]" ∉ p →
  SplitHostPort_bytes (JoinHostPort_bytes h p) = Ok (h, p).
Proof.
  intros Hho Hhc Hpc Hpo Hpx. unfold JoinHostPort_bytes, SplitHostPort_bytes.
  destruct (bool_decide_reflect (":" ∈ h)) as [Hc|Hc].
  - set (hp := "[" :: h ++ "]" :: ":" :: p).
    assert (hp = ("[" :: h ++ ["]"]) ++ ":" :: p) as Heq
      by (unfold hp; cbn; by rewrite <-app_assoc).
    assert (length ("[" :: h ++ ["]"]) = S (S (length h))) as Hl
      by (cbn; rewrite length_app; cbn; lia).
    assert (drop (S (S (S (length h)))) hp = p) as Hport.
    { rewrite Heq, <-Hl, <-(Nat.add_1_r (length _)), <-drop_drop, drop_app_length. done. }
    assert (drop (S (S (length h))) hp = ":" :: p) as Hrest
      by (by rewrite Heq, <-Hl, drop_app_length).
    assert (last_index_byte ":" hp = Some (S (S (length h)))) as ->
      by (by rewrite Heq, last_index_byte_app, Hl).
    rewrite (bool_decide_eq_true_2 (head hp = _)) by done.
    assert (index_byte "]" hp = Some (S (length h))) as ->
      by (apply (index_byte_app "]" ("[" :: h)); set_solver).
    rewrite bool_decide_eq_false_2
      by (rewrite Heq, length_app, Hl; cbn; lia).
    rewrite bool_decide_eq_true_2 by done. cbn [mbind result_bind].
    rewrite Hport, Hrest. unfold hp. cbn [drop take]. rewrite !drop_0, take_app_length.
    rewrite (bool_decide_eq_true_2 ("[" ∉ _)) by set_solver.
    by rewrite (bool_decide_eq_true_2 ("]" ∉ _)) by set_solver.
  - rewrite last_index_byte_app by done.
    rewrite bool_decide_eq_false_2.
    2:{ destruct h as [|b h]; cbn; [done|]. intros [= ->]. set_solver. }
    rewrite take_app_length, bool_decide_eq_false_2 by done. cbn [mbind result_bind].
    rewrite drop_0, (bool_decide_eq_true_2 ("[" ∉ _)) by set_solver.
    rewrite (bool_decide_eq_true_2 ("]" ∉ _)) by set_solver. cbn.
    f_equal. f_equal. change (h ++ ":" :: p) with (h ++ [":"] ++ p). rewrite app_assoc.
    rewrite drop_app_length'; [done|]. rewrite length_app. cbn. lia.
Qed.

(** ** [net.ParseIP]

    An address is its 16-byte form, as [net.IP] holds it; an IPv4 address is
    mapped under [::ffff:0:0/96]. *)

Abbreviation IP := (list Z).

(** [parseIPv4Fields]: [fields] are the octets completed so far, [prev] the
    previous byte. *)
Fixpoint parseIPv4Fields (l : bytes) (fields : list Z) (val digLen : Z)
    (prev : option byte) : option (list Z) :=
  match l with
  | [] => if bool_decide (length fields = 3%nat) then Some (fields ++ [val]) else None
  | c :: l =>
      match digit_val c with
      | Some d =>
          if (digLen =? 1) && (val =? 0) then None
          else
            let val := val * 10 + d in
            if 255 <? val then None
            else parseIPv4Fields l fields val (digLen + 1) (Some c)
      | None =>
          if bool_decide (c = ".") then
            if bool_decide (prev = None ∨ l = [] ∨ prev = Some ".") then None
            else if bool_decide (length fields = 3%nat) then None
            else parseIPv4Fields l (fields ++ [val]) 0 0 (Some c)
          else None
      end
  end.

Definition v4_prefix : list Z := [0; 0; 0; 0; 0; 0; 0; 0; 0; 0; 255; 255].

Definition parseIPv4 (l : bytes) : option IP :=
  f ← parseIPv4Fields l [] 0 0 None; Some (v4_prefix ++ f).

Definition hex_val (b : byte) : option Z :=
  let v := byteZ b in
  if (48 <=? v) && (v <=? 57) then Some (v - 48)
  else if (97 <=? v) && (v <=? 102) then Some (v - 97 + 10)
  else if (65 <=? v) && (v <=? 70) then Some (v - 65 + 10)
  else None.

(** The hex digits at the front of [l]: how many, their value, what follows;
    [None] when there are more than four. *)
Fixpoint hex_group (fuel : nat) (off : nat) (acc : Z) (l : bytes) : option (nat * Z * bytes) :=
  match l with
  | c :: l' =>
      match hex_val c with
      | Some v =>
          match fuel with
          | O => None
          | S fuel => hex_group fuel (S off) (acc * 16 + v) l'
          end
      | None => Some (off, acc, l)
      end
  | [] => Some (off, acc, l)
  end.

(** The group loop of [parseIPv6]: [ip] the bytes saved so far, [ell] the
    position of the ellipsis; eight iterations fill the sixteen bytes. *)
Fixpoint ipv6_loop (fuel : nat) (ip : list Z) (ell : option nat) (s : bytes)
    : option (list Z * option nat * bytes) :=
  match fuel with
  | O => Some (ip, ell, s)
  | S fuel =>
      '(off, acc, rest) ← hex_group 4 0 0 s;
      if bool_decide (off = O) then None
      else if bool_decide (head rest = Some ".") then
        if bool_decide (ell = None ∧ length ip ≠ 12%nat) then None
        else if bool_decide (16 < length ip + 4)%nat then None
        else f ← parseIPv4Fields s [] 0 0 None; Some (ip ++ f, ell, [])
      else
        let ip := ip ++ [acc / 256; acc `mod` 256] in
        match rest with
        | [] => Some (ip, ell, [])
        | [c] => None
        | c :: c2 :: s2 =>
            if bool_decide (c = ":") then
              if bool_decide (c2 = ":") then
                if bool_decide (ell = None) then
                  match s2 with
                  | [] => Some (ip, Some (length ip), [])
                  | _ => ipv6_loop fuel ip (Some (length ip)) s2
                  end
                else None
              else ipv6_loop fuel ip ell (c2 :: s2)
            else None
        end
  end.

Definition parseIPv6 (s : bytes) : option IP :=
  let '(ell, s') :=
    match s with
    | a :: b :: s'' =>
        if bool_decide (a = ":" ∧ b = ":") then (Some O, s'') else (None, s)
    | _ => (None, s)
    end in
  if bool_decide (ell = Some O ∧ s' = []) then Some (replicate 16 0)
  else
    '(ip, ell, rest) ← ipv6_loop 8 [] ell s';
    if bool_decide (rest ≠ []) then None
    else if bool_decide (length ip < 16)%nat then
      e ← ell;
      Some (take e ip ++ replicate (16 - length ip) 0 ++ drop e ip)
    else if bool_decide (ell = None) then Some ip else None.

(** [netip.ParseAddr] chooses by the first of ['.'], [':'] and ['%'], and
    [ParseIP] refuses a zone, so any ['%'] is a failure. *)
Fixpoint first_separator (l : bytes) : option byte :=
  match l with
  | [] => None
  | c :: l => if bool_decide (c ∈ ["."; ":"; "%"]) then Some c else first_separator l
  end.

Definition ParseIP_bytes (l : bytes) : option IP :=
  if bool_decide ("%" ∈ l) then None
  else match first_separator l with
       | Some c =>
           if bool_decide (c = ".") then parseIPv4 l
           else if bool_decide (c = ":") then parseIPv6 l else None
       | None => None
       end.

Definition ParseIP (s : string) : option IP := ParseIP_bytes (bytes_of_string s).

Definition To4 (ip : IP) : option (list Z) :=
  if bool_decide (length ip = 16%nat ∧ take 12 ip = v4_prefix) then Some (drop 12 ip) else None.

(** [IP.IsUnspecified] and [IP.IsLoopback]; a nil address is neither. *)
Definition IsUnspecified (ip : option IP) : bool :=
  bool_decide (ip = Some (v4_prefix ++ [0; 0; 0; 0])) || bool_decide (ip = Some (replicate 16 0)).

Definition IsLoopback (ip : option IP) : bool :=
  match ip with
  | None => false
  | Some ip =>
      match To4 ip with
      | Some v4 => bool_decide (head v4 = Some 127)
      | None => bool_decide (ip = replicate 15 0 ++ [1])
      end
  end.

Example ParseIP_examples :
  ((fun s => bool_decide (is_Some (ParseIP s))) <$>
     (["127.0.0.1"; "::1"; "fe80::1:2"; "::ffff:10.0.0.1"; "1:2:3:4:5:6:7:8"; "::"; "1::"]%string))
    = replicate 7 true ∧
  ((fun s => bool_decide (is_Some (ParseIP s))) <$>
     ([""; "localhost"; "1.2.3"; "1.2.3.4.5"; "01.2.3.4"; "256.1.1.1"; ":"; "1:2:3:4:5:6:7:8:9";
      "1::2::3"; "::1%eth0"; "12345::"; "1.2.3."; "1:2"]%string)) = replicate 13 false ∧
  IsLoopback (ParseIP "127.8.9.10"%string) = true ∧ IsLoopback (ParseIP "::1"%string) = true ∧
  IsLoopback (ParseIP "10.0.0.1"%string) = false ∧ IsUnspecified (ParseIP "::ffff:0.0.0.0"%string) = true.
Proof. by vm_compute. Qed.

(** ** How long the text of an address can be *)

Lemma digits_length f n acc k :
  0 ≤ n < 10 ^ Z.of_nat k → (1 ≤ k)%nat → (length (digits f n acc) ≤ k + length acc)%nat.
Proof.
  revert n acc k. induction f as [|f IH]; intros n acc k Hn Hk; cbn [digits]; [lia|].
  destruct (Z.ltb_spec n 10); [cbn; lia|]. destruct k as [|k]; [lia|].
  rewrite Nat2Z.inj_succ, Z.pow_succ_r in Hn by lia.
  destruct k as [|k]; [cbn in Hn; lia|].
  etrans; [apply (IH (n / 10) _ (S k)); [|lia]|cbn; lia].
  split; [apply Z.div_pos; lia|]. apply Z.div_lt_upper_bound; lia.
Qed.

Lemma Itoa_length n k : 0 ≤ n < 10 ^ Z.of_nat k → (1 ≤ k)%nat → (length (Itoa_bytes n) ≤ k)%nat.
Proof.
  intros Hn Hk. unfold Itoa_bytes. rewrite (proj2 (Z.ltb_ge n 0)) by lia.
  etrans; [by apply (digits_length _ _ _ k)|cbn; lia].
Qed.

(** An octet has at most three digits: no leading zeros, and at most 255. *)
Definition octet_prefix (val digLen : Z) : Prop :=
  0 ≤ val ∧ 0 ≤ digLen ≤ 3 ∧ (digLen = 2 → 10 ≤ val) ∧ (digLen = 3 → 100 ≤ val).

Lemma parseIPv4Fields_length l fields val digLen prev r :
  octet_prefix val digLen → (length fields ≤ 3)%nat →
  parseIPv4Fields l fields val digLen prev = Some r →
  Z.of_nat (length l) + digLen ≤ 15 - 4 * Z.of_nat (length fields).
Proof.
  unfold octet_prefix. revert fields val digLen prev.
  induction l as [|c l IH]; intros fields val digLen prev Ho Hf; cbn [parseIPv4Fields].
  { case_bool_decide as Hl; [|done]. intros _. cbn. lia. }
  destruct (digit_val c) as [d|] eqn:Hd.
  - apply digit_val_range in Hd. destruct ((digLen =? 1) && (val =? 0)) eqn:Hz; [done|].
    destruct (Z.ltb_spec 255 (val * 10 + d)); [done|]. intros Hp%IH; [cbn [length]; lia| |done].
    assert (¬ (digLen = 1 ∧ val = 0)) by (intros [-> ->]; done).
    assert (digLen ≠ 3) by lia. split_and!; try lia.
  - case_bool_decide; [|done]. case_bool_decide; [done|]. case_bool_decide; [done|].
    intros Hp%IH; [|lia|rewrite length_app; cbn; lia].
    rewrite length_app in Hp. cbn [length] in *. lia.
Qed.

Lemma hex_group_length fuel off acc l off' acc' rest :
  hex_group fuel off acc l = Some (off', acc', rest) → (length l ≤ fuel + length rest)%nat.
Proof.
  revert fuel off acc. induction l as [|c l IH]; intros fuel off acc; [cbn; lia|].
  destruct fuel as [|fuel]; cbn [hex_group]; destruct (hex_val c); try done.
  - intros [= <- <- <-]. lia.
  - intros Hl%IH. cbn. lia.
  - intros [= <- <- <-]. lia.
Qed.

Lemma ipv6_loop_length fuel ip ell s ip' ell' :
  ipv6_loop fuel ip ell s = Some (ip', ell', []) → (length s ≤ 6 * fuel + 15)%nat.
Proof.
  revert ip ell s. induction fuel as [|fuel IH]; intros ip ell s; cbn [ipv6_loop].
  { intros [= _ _ ->]. cbn. lia. }
  destruct (hex_group 4 0 0 s) as [[[off acc] rest]|] eqn:Hg; cbn [mbind option_bind]; [|done].
  apply hex_group_length in Hg. case_bool_decide; [done|]. case_bool_decide.
  { case_bool_decide; [done|]. case_bool_decide; [done|].
    destruct (parseIPv4Fields _ _ _ _ _) eqn:H4; cbn; [|done]. intros _.
    apply parseIPv4Fields_length in H4; [|unfold octet_prefix; lia|cbn; lia]. cbn in H4. lia. }
  destruct rest as [|c [|c2 s2]]; [cbn in *; lia|done|].
  case_bool_decide; [|done]. case_bool_decide.
  - case_bool_decide; [|done]. destruct s2 as [|c3 s2]; [cbn in *; lia|]. intros Hl%IH. cbn in *. lia.
  - intros Hl%IH. cbn in *. lia.
Qed.

Lemma ParseIP_length h ip : ParseIP h = Some ip → (length (bytes_of_string h) ≤ 65)%nat.
Proof.
  unfold ParseIP, ParseIP_bytes. generalize (bytes_of_string h). intros l.
  case_bool_decide; [done|]. destruct (first_separator l) as [c|]; [|done].
  case_bool_decide; [|case_bool_decide; [|done]].
  { unfold parseIPv4. destruct (parseIPv4Fields _ _ _ _ _) eqn:H4; cbn; [|done]. intros _.
    apply parseIPv4Fields_length in H4; [|unfold octet_prefix; lia|cbn; lia]. cbn in H4. lia. }
  unfold parseIPv6. set (p := match l with a :: b :: s'' => _ | _ => _ end).
  assert (Hp : (length l ≤ 2 + length p.2)%nat)
    by (unfold p; destruct l as [|a [|b l]]; cbn; [lia..|]; case_bool_decide; cbn; lia).
  destruct p as [ell s']. cbn [snd] in Hp. case_bool_decide as He; [destruct He as [_ ->]; cbn in *; lia|].
  destruct (ipv6_loop _ _ _ _) as [[[ip' ell'] rest]|] eqn:Hl; cbn [mbind option_bind]; [|done].
  case_bool_decide as Hr; [done|]. assert (rest = []) as -> by (by destruct rest). intros _.
  apply ipv6_loop_length in Hl. lia.
Qed.
