(* ===== verification/Json.v ===== *)
(** * JSON as [encoding/json] reads and writes it

    What gossip metadata, Raft log entries and FSM snapshots are encoded with:
    [Marshal]'s compact output with HTML-safe escaping, and [Unmarshal]'s parser,
    string unquoting and struct decoding (case-insensitive field names, unknown
    fields ignored, last duplicate wins, [null] a no-op).  A field setter returns
    [None] where [Unmarshal] reports a type error.

    Round trip: [parse_print] — parsing what was printed gives the value back, up
    to the replacement of invalid UTF-8 that [Marshal] itself performs. *)

From S2P Require Import Prelude Sha256 GoStd.
Local Open Scope byte_scope.
Local Open Scope Z_scope.

(** ** UTF-8 *)

Definition byte_in (lo hi : Z) (b : byte) : bool := (lo <=? byteZ b) && (byteZ b <=? hi).
Definition cont (b : byte) : bool := byte_in 0x80 0xbf b.

(** The well-formed sequences of [unicode/utf8]. *)
Definition utf8_2 (a b : byte) : bool := byte_in 0xc2 0xdf a && cont b.

Definition utf8_3 (a b c : byte) : bool :=
  (bool_decide (a = xe0) && byte_in 0xa0 0xbf b ||
   bool_decide (a = xed) && byte_in 0x80 0x9f b ||
   (byte_in 0xe1 0xec a || byte_in 0xee 0xef a) && cont b) && cont c.

Definition utf8_4 (a b c d : byte) : bool :=
  (bool_decide (a = xf0) && byte_in 0x90 0xbf b ||
   bool_decide (a = xf4) && byte_in 0x80 0x8f b ||
   byte_in 0xf1 0xf3 a && cont b) && cont c && cont d.

(** One step of [utf8.DecodeRune]: a rune's bytes, or an invalid byte. *)
Inductive chunk := Rune (l : bytes) | Invalid (b : byte).

Definition next_chunk (a : byte) (l : bytes) : chunk :=
  if byteZ a <? 128 then Rune [a] else
  match l with
  | b :: l =>
      if utf8_2 a b then Rune [a; b] else
      match l with
      | c :: l =>
          if utf8_3 a b c then Rune [a; b; c] else
          match l with
          | d :: _ => if utf8_4 a b c d then Rune [a; b; c; d] else Invalid a
          | [] => Invalid a
          end
      | [] => Invalid a
      end
  | [] => Invalid a
  end.

Definition chunk_bytes (c : chunk) : bytes := match c with Rune l => l | Invalid b => [b] end.

Fixpoint chunks_fuel (fuel : nat) (l : bytes) : list chunk :=
  match fuel, l with
  | S fuel, a :: l' =>
      let c := next_chunk a l' in c :: chunks_fuel fuel (drop (length (chunk_bytes c)) l)
  | _, _ => []
  end.
Definition chunks (l : bytes) : list chunk := chunks_fuel (length l) l.

(** U+FFFD. *)
Definition replacement : bytes := [xef; xbf; xbd].

Definition sanitize_chunk (c : chunk) : bytes :=
  match c with Rune l => l | Invalid _ => replacement end.
(** What survives [Marshal]: invalid bytes are replaced. *)
Definition sanitize (l : bytes) : bytes := concat (sanitize_chunk <$> chunks l).

Definition valid_utf8 (l : bytes) : bool :=
  forallb (fun c => match c with Rune _ => true | Invalid _ => false end) (chunks l).

(** ** Quoting: [appendString] with HTML escaping *)

Definition hex_digit (v : Z) : byte := if v <? 10 then byte_of_Z (48 + v) else byte_of_Z (87 + v).

Definition html_safe (a : byte) : bool :=
  (32 <=? byteZ a) && bool_decide (a ∉ [x22; "\"; "<"; ">"; "&"]).

Definition quote_ascii (a : byte) : bytes :=
  if html_safe a then [a]
  else if bool_decide (a = x22 ∨ a = "\") then ["\"; a]
  else if bool_decide (a = x08) then ["\"; "b"]
  else if bool_decide (a = x0c) then ["\"; "f"]
  else if bool_decide (a = x0a) then ["\"; "n"]
  else if bool_decide (a = x0d) then ["\"; "r"]
  else if bool_decide (a = x09) then ["\"; "t"]
  else ["\"; "u"; "0"; "0"; hex_digit (byteZ a / 16); hex_digit (byteZ a `mod` 16)].

Definition quote_chunk (c : chunk) : bytes :=
  match c with
  | Invalid _ => ["\"; "u"; "f"; "f"; "f"; "d"]
  | Rune [a] => quote_ascii a
  | Rune l =>
      if bool_decide (l = [xe2; x80; xa8]) then ["\"; "u"; "2"; "0"; "2"; "8"]
      else if bool_decide (l = [xe2; x80; xa9]) then ["\"; "u"; "2"; "0"; "2"; "9"]
      else l
  end.

Definition quote_body (l : bytes) : bytes := concat (quote_chunk <$> chunks l).
Definition quote (l : bytes) : bytes := x22 :: quote_body l ++ [x22].

(** ** Unquoting *)

(** [utf8.EncodeRune]; surrogates and out-of-range values encode as U+FFFD. *)
Definition encode_rune (r : Z) : bytes :=
  if r <? 0x80 then [byte_of_Z r]
  else if r <? 0x800 then [byte_of_Z (0xc0 + r / 64); byte_of_Z (0x80 + r `mod` 64)]
  else if (0xd800 <=? r) && (r <=? 0xdfff) then replacement
  else if r <? 0x10000 then
    [byte_of_Z (0xe0 + r / 4096); byte_of_Z (0x80 + (r / 64) `mod` 64); byte_of_Z (0x80 + r `mod` 64)]
  else if r <=? 0x10ffff then
    [byte_of_Z (0xf0 + r / 262144); byte_of_Z (0x80 + (r / 4096) `mod` 64);
     byte_of_Z (0x80 + (r / 64) `mod` 64); byte_of_Z (0x80 + r `mod` 64)]
  else replacement.

(** Four hex digits, and what follows. *)
Definition hex4 (l : bytes) : option (Z * bytes) :=
  match l with
  | a :: b :: c :: d :: l =>
      va ← hex_val a; vb ← hex_val b; vc ← hex_val c; vd ← hex_val d;
      Some (va * 4096 + vb * 256 + vc * 16 + vd, l)
  | _ => None
  end.

(** After [\u]: the rune's encoding.  A surrogate pair is two escapes; a lone
    surrogate is U+FFFD and consumes only itself. *)
Definition unescape_u (l : bytes) : option (bytes * bytes) :=
  '(r, l) ← hex4 l;
  if (0xd800 <=? r) && (r <=? 0xdfff) then
    match l with
    | b :: u :: l' =>
        if bool_decide (b = "\" ∧ u = "u") then
          '(r2, l'') ← hex4 l';
          if (r <? 0xdc00) && (0xdc00 <=? r2) && (r2 <=? 0xdfff)
          then Some (encode_rune (0x10000 + (r - 0xd800) * 1024 + (r2 - 0xdc00)), l'')
          else Some (replacement, l)
        else Some (replacement, l)
    | _ => Some (replacement, l)
    end
  else Some (encode_rune r, l).

(** After a backslash. *)
Definition unescape (e : byte) (l : bytes) : option (bytes * bytes) :=
  if bool_decide (e ∈ [x22; "\"; "/"]) then Some ([e], l)
  else if bool_decide (e = "b") then Some ([x08], l)
  else if bool_decide (e = "f") then Some ([x0c], l)
  else if bool_decide (e = "n") then Some ([x0a], l)
  else if bool_decide (e = "r") then Some ([x0d], l)
  else if bool_decide (e = "t") then Some ([x09], l)
  else if bool_decide (e = "u") then unescape_u l
  else None.

(** The string literal whose opening quote has been read: its value and what
    follows the closing quote. *)
Fixpoint unquote (fuel : nat) (l : bytes) : option (bytes * bytes) :=
  match fuel, l with
  | S fuel, a :: l' =>
      if bool_decide (a = x22) then Some ([], l')
      else if byteZ a <? 32 then None
      else
        '(v, k) ←
          (if bool_decide (a = "\") then
             match l' with [] => None | e :: l'' => unescape e l'' end
           else let c := next_chunk a l' in
                Some (sanitize_chunk c, drop (length (chunk_bytes c)) l));
        '(vs, r) ← unquote fuel k; Some (v ++ vs, r)
  | _, _ => None
  end.

(** ** Values *)

(** A number keeps its literal, as [Unmarshal] does until it knows the type. *)
#[warnings="-register-all"]
Inductive json :=
| JNull | JBool (b : bool) | JNum (lit : bytes) | JStr (s : bytes)
| JArr (l : list json) | JObj (l : list (bytes * json)).

(** Comma-separated. *)
Definition commas (l : list bytes) : bytes :=
  match l with
  | [] => []
  | x :: l => x ++ concat ((cons ",") <$> l)
  end.

Fixpoint print (v : json) : bytes :=
  match v with
  | JNull => ["n"; "u"; "l"; "l"]
  | JBool true => ["t"; "r"; "u"; "e"]
  | JBool false => ["f"; "a"; "l"; "s"; "e"]
  | JNum lit => lit
  | JStr s => quote s
  | JArr l => "[" :: commas (print <$> l) ++ ["]"]
  | JObj l => "{" :: commas ((fun kv => quote kv.1 ++ ":" :: print kv.2) <$> l) ++ ["}"]
  end.

(** ** Parsing *)

Definition json_space (b : byte) : bool := bool_decide (b ∈ [x20; x09; x0d; x0a]).

Fixpoint skip_ws (l : bytes) : bytes :=
  match l with
  | b :: l' => if json_space b then skip_ws l' else l
  | [] => []
  end.

Definition is_digit (b : byte) : bool := bool_decide (is_Some (digit_val b)).

Fixpoint span_digits (l : bytes) : bytes * bytes :=
  match l with
  | b :: l' => if is_digit b then let '(d, r) := span_digits l' in (b :: d, r) else ([], l)
  | [] => ([], [])
  end.

Definition digits1 (l : bytes) : option (bytes * bytes) :=
  match span_digits l with ([], _) => None | dr => Some dr end.

(** The integer part: a zero, or digits that do not start with one. *)
Definition num_int (l : bytes) : option (bytes * bytes) :=
  match l with
  | b :: l' =>
      if bool_decide (b = "0") then Some ([b], l') else digits1 l
  | [] => None
  end.

Definition num_frac (l : bytes) : option (bytes * bytes) :=
  match l with
  | b :: l' =>
      if bool_decide (b = ".") then '(d, r) ← digits1 l'; Some (b :: d, r) else Some ([], l)
  | [] => Some ([], [])
  end.

Definition num_exp (l : bytes) : option (bytes * bytes) :=
  match l with
  | b :: l' =>
      if bool_decide (b = "e" ∨ b = "E") then
        match l' with
        | s :: l'' =>
            if bool_decide (s = "+" ∨ s = "-")
            then '(d, r) ← digits1 l''; Some (b :: s :: d, r)
            else '(d, r) ← digits1 l'; Some (b :: d, r)
        | [] => None
        end
      else Some ([], l)
  | [] => Some ([], [])
  end.

Definition parse_number (l : bytes) : option (bytes * bytes) :=
  let '(sign, l) := match l with
                    | b :: l' => if bool_decide (b = "-") then ([b], l') else ([], l)
                    | [] => ([], [])
                    end in
  '(i, l) ← num_int l; '(f, l) ← num_frac l; '(e, l) ← num_exp l;
  Some (sign ++ i ++ f ++ e, l).

(** [maxNestingDepth]. *)
Definition max_depth : Z := 10000.

Definition expect (w l : bytes) (v : json) : option (json * bytes) :=
  if bool_decide (take (length w) l = w) then Some (v, drop (length w) l) else None.

Fixpoint parse_value (fuel : nat) (depth : Z) (l : bytes) : option (json * bytes) :=
  match fuel with
  | O => None
  | S fuel =>
      match skip_ws l with
      | [] => None
      | c :: l' =>
          if bool_decide (c = "{") then
            if max_depth <=? depth then None else
            match skip_ws l' with
            | b :: k =>
                if bool_decide (b = "}") then Some (JObj [], k)
                else '(ms, k) ← parse_members fuel (depth + 1) (b :: k); Some (JObj ms, k)
            | [] => None
            end
          else if bool_decide (c = "[") then
            if max_depth <=? depth then None else
            match skip_ws l' with
            | b :: k =>
                if bool_decide (b = "]") then Some (JArr [], k)
                else '(vs, k) ← parse_elements fuel (depth + 1) (b :: k); Some (JArr vs, k)
            | [] => None
            end
          else if bool_decide (c = x22) then
            '(s, k) ← unquote (S (length l')) l'; Some (JStr s, k)
          else if bool_decide (c = "n") then expect ["u"; "l"; "l"] l' JNull
          else if bool_decide (c = "t") then expect ["r"; "u"; "e"] l' (JBool true)
          else if bool_decide (c = "f") then expect ["a"; "l"; "s"; "e"] l' (JBool false)
          else '(lit, k) ← parse_number (c :: l'); Some (JNum lit, k)
      end
  end
with parse_members (fuel : nat) (depth : Z) (l : bytes) : option (list (bytes * json) * bytes) :=
  match fuel with
  | O => None
  | S fuel =>
      match skip_ws l with
      | q :: l' =>
          if bool_decide (q = x22) then
            '(key, k) ← unquote (S (length l')) l';
            match skip_ws k with
            | c :: k =>
                if bool_decide (c = ":") then
                  '(v, k) ← parse_value fuel depth k;
                  match skip_ws k with
                  | e :: k =>
                      if bool_decide (e = ",") then
                        '(ms, k) ← parse_members fuel depth k; Some ((key, v) :: ms, k)
                      else if bool_decide (e = "}") then Some ([(key, v)], k) else None
                  | [] => None
                  end
                else None
            | [] => None
            end
          else None
      | [] => None
      end
  end
with parse_elements (fuel : nat) (depth : Z) (l : bytes) : option (list json * bytes) :=
  match fuel with
  | O => None
  | S fuel =>
      '(v, k) ← parse_value fuel depth l;
      match skip_ws k with
      | e :: k =>
          if bool_decide (e = ",") then
            '(vs, k) ← parse_elements fuel depth k; Some (v :: vs, k)
          else if bool_decide (e = "]") then Some ([v], k) else None
      | [] => None
      end
  end.

(** Each call consumes input or is followed by one that does, so twice the
    length is enough fuel. *)
Definition parse_prefix (l : bytes) : option (json * bytes) :=
  parse_value (S (2 * length l)) 0 l.

(** [json.Unmarshal]'s syntax check: one value and white space. *)
Definition parse (l : bytes) : option json :=
  '(v, k) ← parse_prefix l; if bool_decide (skip_ws k = []) then Some v else None.

(** ** Decoding into structs *)

(** [foldName]: ASCII letters upper-cased; the Kelvin sign and the long s are the
    only other runes whose case orbit contains an ASCII letter. *)
Fixpoint fold_name (l : bytes) : bytes :=
  match l with
  | [] => []
  | a :: l1 =>
      match l1 with
      | b :: l2 =>
          if bool_decide (a = xc5 ∧ b = xbf) then "S" :: fold_name l2 else
          match l2 with
          | c :: l3 =>
              if bool_decide ((a, b, c) = (xe2, x84, xaa)) then "K" :: fold_name l3
              else (if byte_in 97 122 a then byte_of_Z (byteZ a - 32) else a) :: fold_name l1
          | [] => (if byte_in 97 122 a then byte_of_Z (byteZ a - 32) else a) :: fold_name l1
          end
      | [] => [if byte_in 97 122 a then byte_of_Z (byteZ a - 32) else a]
      end
  end.

(** A struct's fields: the JSON name and how a value is stored. *)
Definition field (S : Type) : Type := string * (json → S → option S).

Definition find_field {S} (fields : list (field S)) (key : bytes) : option (json → S → option S) :=
  snd <$> List.find (fun f => bool_decide (fold_name (bytes_of_string f.1) = fold_name key)) fields.

Definition set_members {S} (fields : list (field S)) (ms : list (bytes * json)) (s : S) : option S :=
  foldl (fun acc kv => s ← acc;
           match find_field fields kv.1 with Some set => set kv.2 s | None => Some s end)
        (Some s) ms.

Definition decode_struct {S} (fields : list (field S)) (v : json) (s : S) : option S :=
  match v with
  | JObj ms => set_members fields ms s
  | JNull => Some s
  | _ => None
  end.

Definition set_string {S} (set : string → S → S) (v : json) (s : S) : option S :=
  match v with
  | JStr b => Some (set (String.string_of_list_byte b) s)
  | JNull => Some s
  | _ => None
  end.

Definition set_int {S} (set : Z → S → S) (v : json) (s : S) : option S :=
  match v with
  | JNum lit => n ← ParseInt lit; Some (set n s)
  | JNull => Some s
  | _ => None
  end.

Definition set_uint {S} (max : Z) (set : Z → S → S) (v : json) (s : S) : option S :=
  match v with
  | JNum lit => n ← ParseUint max lit; Some (set n s)
  | JNull => Some s
  | _ => None
  end.

Example parse_ex :
  parse (bytes_of_string "{ 'a' : [1, -2.5e3, true,null] }"%string) = None ∧
  parse (print (JObj [(bytes_of_string "a<b"%string, JArr [JNum ["7"]; JStr [xff; x41; x0a]; JNull])]))
    = Some (JObj [(bytes_of_string "a<b"%string,
                   JArr [JNum ["7"]; JStr (replacement ++ [x41; x0a]); JNull])]).
Proof. by vm_compute. Qed.

(** ** UTF-8 lemmas *)

(** A chunk is a rune that decodes to itself before any continuation, or one
    invalid byte. *)
Definition chunk_ok (c : chunk) : Prop :=
  match c with
  | Rune [] => False
  | Rune (a :: k) => (∀ r, next_chunk a (k ++ r) = Rune (a :: k)) ∧ (byteZ a < 128 ↔ k = [])
  | Invalid _ => True
  end.

Lemma utf8_2_lead a b : utf8_2 a b = true → 128 ≤ byteZ a.
Proof. unfold utf8_2, byte_in. intros H. apply andb_true_iff in H as [H _]. case_bool; try done; lia. Qed.

Lemma next_chunk_ok a l : chunk_ok (next_chunk a l).
Proof.
  unfold next_chunk. destruct (Z.ltb_spec (byteZ a) 128) as [Ha|Ha].
  { split; [|done]. intros r. unfold next_chunk. by rewrite (proj2 (Z.ltb_lt _ _)). }
  assert (∀ r, next_chunk a r =
    match r with
    | b :: r => if utf8_2 a b then Rune [a; b] else
        match r with
        | c :: r => if utf8_3 a b c then Rune [a; b; c] else
            match r with
            | d :: _ => if utf8_4 a b c d then Rune [a; b; c; d] else Invalid a
            | [] => Invalid a
            end
        | [] => Invalid a
        end
    | [] => Invalid a
    end) as Hn.
  { intros r. unfold next_chunk. by rewrite (proj2 (Z.ltb_ge _ _)). }
  destruct l as [|b l]; [done|].
  destruct (utf8_2 a b) eqn:H2; [split; [intros r; rewrite Hn; cbn; by rewrite H2|split; [lia|done]]|].
  destruct l as [|c l]; [done|].
  destruct (utf8_3 a b c) eqn:H3;
    [split; [intros r; rewrite Hn; cbn; by rewrite H2, H3|split; [lia|done]]|].
  destruct l as [|d l]; [done|].
  destruct (utf8_4 a b c d) eqn:H4;
    [split; [intros r; rewrite Hn; cbn; by rewrite H2, H3, H4|split; [lia|done]]|done].
Qed.

Lemma next_chunk_split a l :
  ∃ k, chunk_bytes (next_chunk a l) = a :: k ∧
       a :: l = (a :: k) ++ drop (length (a :: k)) (a :: l).
Proof.
  unfold next_chunk.
  repeat match goal with
  | |- context [if ?b then _ else _] => destruct b
  | |- context [match ?l with [] => _ | _ :: _ => _ end] => destruct l
  end; cbn [chunk_bytes]; eexists; (split; [done|]); cbn; by rewrite ?drop_0.
Qed.

Lemma chunks_spec fuel l :
  (length l ≤ fuel)%nat →
  Forall chunk_ok (chunks_fuel fuel l) ∧ concat (chunk_bytes <$> chunks_fuel fuel l) = l.
Proof.
  revert l. induction fuel as [|fuel IH]; intros [|a l] Hf; cbn [chunks_fuel]; try done;
    [cbn in Hf; lia|].
  destruct (next_chunk_split a l) as (k & Hk & Hl). rewrite Hk.
  destruct (IH (drop (length (a :: k)) (a :: l))) as [IH1 IH2].
  { rewrite length_drop. cbn in *. lia. }
  split; [constructor; [apply next_chunk_ok|done]|].
  rewrite fmap_cons. cbn [concat]. by rewrite Hk, IH2.
Qed.

Lemma chunks_ok l : Forall chunk_ok (chunks l).
Proof. by apply chunks_spec. Qed.

Lemma concat_chunks l : concat (chunk_bytes <$> chunks l) = l.
Proof. by apply chunks_spec. Qed.

Lemma sanitize_valid l : valid_utf8 l = true → sanitize l = l.
Proof.
  intros Hv. rewrite <-(concat_chunks l) at 2. unfold sanitize. f_equal.
  unfold valid_utf8 in Hv. induction (chunks l) as [|c cs IH]; [done|].
  cbn in Hv. apply andb_true_iff in Hv as [Hc Hv]. rewrite !fmap_cons, IH by done.
  by destruct c.
Qed.

(** ASCII text is valid UTF-8. *)
Lemma valid_utf8_ascii l : Forall (fun b => byteZ b < 128) l → valid_utf8 l = true.
Proof.
  unfold valid_utf8, chunks. remember (length l) as n eqn:Hn.
  assert (length l ≤ n)%nat as Hle by lia. clear Hn.
  revert l Hle. induction n as [|n IH]; intros [|a l] Hle HF; try done; cbn [chunks_fuel forallb].
  apply Forall_cons in HF as [Ha HF]. unfold next_chunk.
  rewrite (proj2 (Z.ltb_lt _ _) Ha). cbn. rewrite drop_0. apply IH; [cbn in Hle; lia|done].
Qed.

(** ** The quoting round trip *)

Lemma unquote_plain fuel a l :
  a ≠ x22 → 32 ≤ byteZ a → a ≠ "\" →
  unquote (S fuel) (a :: l) =
    ('(vs, r) ← unquote fuel (drop (length (chunk_bytes (next_chunk a l))) (a :: l));
     Some (sanitize_chunk (next_chunk a l) ++ vs, r)).
Proof.
  intros H1 H2 H3. cbn [unquote].
  rewrite bool_decide_eq_false_2 by done.
  rewrite (proj2 (Z.ltb_ge _ _)) by done.
  by rewrite bool_decide_eq_false_2 by done.
Qed.

Lemma unquote_chunk fuel c k :
  chunk_ok c →
  unquote (S fuel) (quote_chunk c ++ k) =
    ('(vs, r) ← unquote fuel k; Some (sanitize_chunk c ++ vs, r)).
Proof.
  destruct c as [[|a l]|b]; [done| |by intros _].
  intros [Hn Ha]. destruct l as [|b l].
  - assert (byteZ a < 128) as Hlt by (by apply Ha). clear Hn Ha. cbn [quote_chunk].
    by destruct a; first [reflexivity|cbn in Hlt; lia].
  - assert (128 ≤ byteZ a) as Hge.
    { destruct (decide (byteZ a < 128)) as [H|H]; [by apply Ha in H|lia]. }
    cbn [quote_chunk].
    case_bool_decide as H1; [injection H1 as -> -> ->; reflexivity|].
    case_bool_decide as H2; [injection H2 as -> -> ->; reflexivity|].
    rewrite <-app_comm_cons. rewrite unquote_plain;
      [|intros ->; cbn in Hge; lia|lia|intros ->; cbn in Hge; lia].
    rewrite Hn. cbn [chunk_bytes sanitize_chunk].
    rewrite app_comm_cons, drop_app_length. done.
Qed.

Lemma quote_chunk_nonempty c : chunk_ok c → (1 ≤ length (quote_chunk c))%nat.
Proof.
  destruct c as [[|a [|b l]]|b]; cbn [quote_chunk]; intros Hc; [done| | |cbn; lia].
  - unfold quote_ascii. repeat case_match; cbn; lia.
  - repeat case_match; cbn; lia.
Qed.

Lemma unquote_chunks fuel cs k :
  Forall chunk_ok cs → (length (concat (quote_chunk <$> cs)) < fuel)%nat →
  unquote fuel (concat (quote_chunk <$> cs) ++ x22 :: k) =
    Some (concat (sanitize_chunk <$> cs), k).
Proof.
  intros HF. revert fuel. induction HF as [|c cs Hc HF IH]; intros fuel Hf.
  - destruct fuel; [cbn in Hf; lia|]. done.
  - rewrite fmap_cons in *. cbn [concat] in *. rewrite length_app in Hf.
    pose proof (quote_chunk_nonempty c Hc). destruct fuel as [|fuel]; [lia|].
    rewrite <-app_assoc, unquote_chunk by done. rewrite IH by lia. done.
Qed.

Lemma unquote_quote fuel l k :
  (length (quote_body l ++ x22 :: k) ≤ fuel)%nat →
  unquote fuel (quote_body l ++ x22 :: k) = Some (sanitize l, k).
Proof.
  intros Hf. apply unquote_chunks; [apply chunks_ok|].
  rewrite length_app in Hf. unfold quote_body in Hf. cbn in Hf. lia.
Qed.

(** ** The value round trip *)

(** A canonical integer literal: what [Marshal] prints for an [int] or [uint]. *)
Definition canon_nat (l : bytes) : bool :=
  match l with
  | [] => false
  | b :: l' => if bool_decide (b = "0") then bool_decide (l' = []) else forallb is_digit l
  end.

Definition num_ok (l : bytes) : bool :=
  match l with
  | b :: l' => if bool_decide (b = "-") then canon_nat l' else canon_nat l
  | [] => false
  end.

(** What may follow a value inside an array or object, or the end. *)
Definition stops (r : bytes) : bool :=
  match r with [] => true | b :: _ => bool_decide (b ∈ [","; "]"; "}"]) end.

Lemma is_digit_digit d : 0 ≤ d < 10 → is_digit (digit d) = true.
Proof. intros. unfold is_digit. rewrite digit_val_digit by done. by apply bool_decide_eq_true_2. Qed.

Lemma canon_nat_digits n : 0 ≤ n → canon_nat (nat_digits n) = true.
Proof.
  intros Hn. destruct (nat_digits_shape n) as (d & ds & -> & HF & Hz); [done|].
  cbn [canon_nat]. case_bool_decide as H0.
  - apply bool_decide_eq_true_2. apply Forall_cons in HF as [Hd _].
    destruct Hz as [_ ->]; [|done].
    apply (f_equal digit_val) in H0. rewrite digit_val_digit in H0 by done.
    change (Some d = Some 0) in H0. congruence.
  - apply forallb_forall. intros x Hx.
    assert (x ∈ map digit (d :: ds)) as (y & -> & Hy)%list_elem_of_fmap
      by (by apply list_elem_of_In).
    rewrite Forall_forall in HF. apply is_digit_digit, HF, Hy.
Qed.

Lemma canon_nat_head l : canon_nat l = true → ∃ b k, l = b :: k ∧ is_digit b = true.
Proof.
  destruct l as [|b k]; [done|]. intros H. exists b, k. split; [done|].
  cbn in H. case_bool_decide; [by subst|]. by apply andb_true_iff in H as [? _].
Qed.

Lemma num_ok_Itoa n : num_ok (Itoa_bytes n) = true.
Proof.
  unfold Itoa_bytes. destruct (Z.ltb_spec n 0).
  - cbn. apply canon_nat_digits. lia.
  - pose proof (canon_nat_digits n) as Hc. destruct (canon_nat_head (nat_digits n)) as (b & k & Heq & Hb);
      [by apply Hc|]. rewrite Heq in *. cbn [num_ok].
    rewrite bool_decide_eq_false_2; [by apply Hc|by intros ->].
Qed.

Lemma span_digits_app l r :
  forallb is_digit l = true → stops r = true → span_digits (l ++ r) = (l, r).
Proof.
  induction l as [|b l IH]; cbn [forallb]; intros Hl Hr.
  - cbn. destruct r as [|b r]; [done|]. cbn. destruct (is_digit b) eqn:Hb; [|done].
    apply bool_decide_eq_true in Hr. apply list_elem_of_In in Hr. cbn in Hr.
    by destruct Hr as [<-|[<-|[<-|[]]]].
  - apply andb_true_iff in Hl as [Hb Hl]. cbn. by rewrite Hb, IH.
Qed.

Lemma stops_not b r : stops (b :: r) = true → b ∉ ["."; "e"; "E"].
Proof.
  intros Hr%bool_decide_eq_true. apply list_elem_of_In in Hr. cbn in Hr.
  destruct Hr as [<-|[<-|[<-|[]]]]; set_solver.
Qed.

Lemma num_frac_stops r : stops r = true → num_frac r = Some ([], r) ∧ num_exp r = Some ([], r).
Proof.
  destruct r as [|b r]; [done|]. intros Hr%stops_not. cbn.
  rewrite !bool_decide_eq_false_2; [done|set_solver..].
Qed.

Lemma num_int_canon l r : canon_nat l = true → stops r = true → num_int (l ++ r) = Some (l, r).
Proof.
  destruct l as [|b l]; [done|]. cbn [canon_nat num_int app]. intros Hl Hr.
  case_bool_decide as H0.
  - apply bool_decide_eq_true in Hl as ->. done.
  - unfold digits1. by rewrite app_comm_cons, span_digits_app.
Qed.

Lemma parse_number_ok l r :
  num_ok l = true → stops r = true → parse_number (l ++ r) = Some (l, r).
Proof.
  destruct l as [|b l]; [done|]. cbn [num_ok app]. intros Hl Hr. unfold parse_number.
  destruct (num_frac_stops r Hr) as [Hf He].
  case_bool_decide as Hb.
  - rewrite num_int_canon by done. cbn. rewrite Hf. cbn. rewrite He. cbn. by rewrite !app_nil_r.
  - rewrite app_comm_cons, num_int_canon by done. cbn [mbind option_bind].
    rewrite Hf. cbn [mbind option_bind]. rewrite He. cbn. by rewrite !app_nil_r.
Qed.

(** The values [Marshal] produces: integer literals, bounded nesting. *)
Fixpoint json_ok (d : Z) (v : json) : bool :=
  match v with
  | JNum lit => num_ok lit
  | JArr l => (d <? max_depth) && forallb (json_ok (d + 1)) l
  | JObj l => (d <? max_depth) && forallb (fun kv => json_ok (d + 1) kv.2) l
  | _ => true
  end.

Fixpoint sanitize_json (v : json) : json :=
  match v with
  | JStr s => JStr (sanitize s)
  | JArr l => JArr (map sanitize_json l)
  | JObj l => JObj (map (fun kv => (sanitize kv.1, sanitize_json kv.2)) l)
  | v => v
  end.

Fixpoint json_size (v : json) : nat :=
  match v with
  | JArr l => S (list_sum (map (fun v => S (json_size v)) l))
  | JObj l => S (list_sum (map (fun kv => S (json_size kv.2)) l))
  | _ => 1
  end.

Abbreviation print_member := (fun kv : bytes * json => quote kv.1 ++ ":" :: print kv.2).

Lemma commas_cons x l r :
  commas (x :: l) ++ r = x ++ match l with [] => r | _ => "," :: commas l ++ r end.
Proof. cbn. rewrite <-app_assoc. destruct l as [|y l]; cbn; [done|]. by rewrite <-!app_assoc. Qed.

Lemma commas_one {A} (f : A → bytes) x r : commas (f <$> [x]) ++ r = f x ++ r.
Proof. rewrite fmap_cons, commas_cons. done. Qed.

Lemma commas_more {A} (f : A → bytes) x y l r :
  commas (f <$> x :: y :: l) ++ r = f x ++ "," :: commas (f <$> y :: l) ++ r.
Proof. rewrite fmap_cons, commas_cons. done. Qed.

(** The first byte of a printed value tells the parser which value it is. *)
Lemma num_ok_head l :
  num_ok l = true →
  ∃ b k, l = b :: k ∧ json_space b = false ∧ b ∉ ["{"; "["; x22; "n"; "t"; "f"; "]"; "}"].
Proof.
  destruct l as [|b k]; [done|]. cbn [num_ok]. intros H. exists b, k. split; [done|].
  assert (b = "-" ∨ is_digit b = true) as [->|Hd]; [|by split; [|set_solver]|].
  - case_bool_decide; [by left|right]. by apply canon_nat_head in H as (? & ? & [= <- <-] & ?).
  - split.
    + apply bool_decide_eq_false_2. intros Hb. apply list_elem_of_In in Hb. cbn in Hb.
      by destruct Hb as [<-|[<-|[<-|[<-|[]]]]].
    + intros Hb. apply list_elem_of_In in Hb. cbn in Hb.
      by repeat (destruct Hb as [<-|Hb]; [done|]).
Qed.

Lemma print_head d v :
  json_ok d v = true → ∃ b k, print v = b :: k ∧ json_space b = false ∧ b ≠ "]" ∧ b ≠ "}".
Proof.
  destruct v as [|[]|lit|s|l|l]; cbn [json_ok print]; intros Hv; try (by eexists _, _; eauto).
  apply num_ok_head in Hv as (b & k & -> & Hs & Hb). exists b, k. set_solver.
Qed.

Lemma skip_ws_print d v r : json_ok d v = true → skip_ws (print v ++ r) = print v ++ r.
Proof. intros (b & k & -> & Hs & _)%print_head. cbn. by rewrite Hs. Qed.

Lemma quote_parse l k :
  unquote (S (length (quote_body l ++ x22 :: k))) (quote_body l ++ x22 :: k) =
    Some (sanitize l, k).
Proof. apply unquote_quote. lia. Qed.

Lemma expect_app w r v : expect w (w ++ r) v = Some (v, r).
Proof. unfold expect. by rewrite take_app_length, bool_decide_eq_true_2, drop_app_length. Qed.

Section parse_print.
(** One level of fuel: the values, members and elements that fit in [fuel]. *)
Variable fuel : nat.
Hypothesis IHv : ∀ d v r, json_ok d v = true → (json_size v ≤ fuel)%nat → stops r = true →
  parse_value fuel d (print v ++ r) = Some (sanitize_json v, r).
Hypothesis IHm : ∀ d ms r, ms ≠ [] → forallb (fun kv => json_ok d kv.2) ms = true →
  (list_sum (map (fun kv => S (json_size kv.2)) ms) ≤ fuel)%nat →
  parse_members fuel d (commas (print_member <$> ms) ++ "}" :: r) =
    Some (map (fun kv => (sanitize kv.1, sanitize_json kv.2)) ms, r).
Hypothesis IHe : ∀ d vs r, vs ≠ [] → forallb (json_ok d) vs = true →
  (list_sum (map (fun v => S (json_size v)) vs) ≤ fuel)%nat →
  parse_elements fuel d (commas (print <$> vs) ++ "]" :: r) = Some (map sanitize_json vs, r).

Lemma parse_elements_print d vs r :
  vs ≠ [] → forallb (json_ok d) vs = true →
  (list_sum (map (fun v => S (json_size v)) vs) ≤ S fuel)%nat →
  parse_elements (S fuel) d (commas (print <$> vs) ++ "]" :: r) = Some (map sanitize_json vs, r).
Proof.
  destruct vs as [|v vs]; [done|]. intros _. cbn [forallb map list_sum foldr].
  intros [Hv Hvs]%andb_true_iff Hf.
  cbn [parse_elements]. destruct vs as [|v' vs].
  - rewrite commas_one, IHv by (done || lia). done.
  - rewrite commas_more. cbn [map list_sum foldr] in Hf.
    rewrite IHv by (done || lia). cbn [mbind option_bind skip_ws].
    change (json_space ",") with false. cbn iota. rewrite bool_decide_eq_true_2 by done.
    rewrite IHe; [done|done|done|cbn [map list_sum foldr]; lia].
Qed.

Lemma parse_member_print d key v k :
  parse_members (S fuel) d (print_member (key, v) ++ k) =
    ('(v, k) ← parse_value fuel d (print v ++ k);
     match skip_ws k with
     | e :: k =>
         if bool_decide (e = ",") then
           '(ms, k) ← parse_members fuel d k; Some ((sanitize key, v) :: ms, k)
         else if bool_decide (e = "}") then Some ([(sanitize key, v)], k) else None
     | [] => None
     end).
Proof using Type.
  cbn [fst snd]. unfold quote.
  rewrite <-!app_assoc, <-!app_comm_cons. cbn [parse_members skip_ws].
  change (json_space x22) with false. cbn iota. rewrite bool_decide_eq_true_2 by done.
  rewrite <-app_assoc. cbn [app]. rewrite quote_parse. cbn [mbind option_bind skip_ws].
  change (json_space ":") with false. cbn iota. by rewrite bool_decide_eq_true_2 by done.
Qed.

Lemma parse_members_print d ms r :
  ms ≠ [] → forallb (fun kv => json_ok d kv.2) ms = true →
  (list_sum (map (fun kv => S (json_size kv.2)) ms) ≤ S fuel)%nat →
  parse_members (S fuel) d (commas (print_member <$> ms) ++ "}" :: r) =
    Some (map (fun kv => (sanitize kv.1, sanitize_json kv.2)) ms, r).
Proof.
  destruct ms as [|[key v] ms]; [done|]. intros _. cbn [forallb map list_sum foldr snd].
  intros [Hv Hms]%andb_true_iff Hf.
  destruct ms as [|m' ms].
  - rewrite commas_one, parse_member_print. rewrite IHv by (done || lia). done.
  - rewrite commas_more, parse_member_print. cbn [map list_sum foldr] in Hf.
    rewrite IHv by (done || lia). cbn [mbind option_bind skip_ws].
    change (json_space ",") with false. cbn iota. rewrite bool_decide_eq_true_2 by done.
    rewrite IHm; [done|done|done|cbn [map list_sum foldr]; lia].
Qed.

Lemma parse_value_print d v r :
  json_ok d v = true → (json_size v ≤ S fuel)%nat → stops r = true →
  parse_value (S fuel) d (print v ++ r) = Some (sanitize_json v, r).
Proof.
  intros Hv Hf Hr. cbn [parse_value]. rewrite (skip_ws_print d) by done.
  destruct v as [|[]|lit|s|vs|ms].
  - apply (expect_app ["u"; "l"; "l"]).
  - apply (expect_app ["r"; "u"; "e"]).
  - apply (expect_app ["a"; "l"; "s"; "e"]).
  - cbn [print json_ok] in *. pose proof (parse_number_ok lit r Hv Hr) as Hp.
    apply num_ok_head in Hv as (b & k & -> & _ & Hb). cbn [app] in *.
    rewrite !bool_decide_eq_false_2 by set_solver. by rewrite Hp.
  - cbn [print]. unfold quote. cbn [app]. rewrite <-app_assoc. cbn [app].
    cbn -[unquote]. by rewrite quote_parse.
  - cbn [print app json_ok] in *. apply andb_true_iff in Hv as [Hd Hvs].
    apply Z.ltb_lt in Hd. rewrite (proj2 (Z.leb_gt _ _)) by done.
    rewrite bool_decide_eq_false_2 by done. rewrite bool_decide_eq_true_2 by done.
    rewrite <-app_assoc. destruct vs as [|v vs]; [done|].
    pose proof Hvs as Hv. cbn [forallb] in Hv. apply andb_true_iff in Hv as [Hv _].
    pose proof (print_head _ _ Hv) as (b & k & Hp & Hsp & Hb & _).
    cbn [app]. replace (skip_ws _) with (commas (print <$> v :: vs) ++ "]" :: r)
      by (rewrite fmap_cons, commas_cons, Hp; cbn; by rewrite Hsp).
    pose proof (IHe (d + 1) (v :: vs) r) as He.
    rewrite fmap_cons, commas_cons, Hp in He |- *. cbn [app] in *.
    rewrite bool_decide_eq_false_2 by done.
    rewrite He; [done|done|done|cbn [json_size] in Hf; lia].
  - cbn [print app json_ok] in *. apply andb_true_iff in Hv as [Hd Hms].
    apply Z.ltb_lt in Hd. rewrite (proj2 (Z.leb_gt _ _)) by done.
    rewrite bool_decide_eq_true_2 by done.
    rewrite <-app_assoc. destruct ms as [|m ms]; [done|].
    pose proof (IHm (d + 1) (m :: ms) r) as Hm. cbn [app].
    rewrite fmap_cons, commas_cons in Hm |- *. unfold quote in Hm |- *. cbn [app skip_ws] in *.
    change (json_space x22) with false. cbn iota. rewrite bool_decide_eq_false_2 by done.
    rewrite Hm; [done|done|done|cbn [json_size] in Hf; lia].
Qed.
End parse_print.

Lemma parse_print_fuel fuel :
  (∀ d v r, json_ok d v = true → (json_size v ≤ fuel)%nat → stops r = true →
     parse_value fuel d (print v ++ r) = Some (sanitize_json v, r)) ∧
  (∀ d ms r, ms ≠ [] → forallb (fun kv => json_ok d kv.2) ms = true →
     (list_sum (map (fun kv => S (json_size kv.2)) ms) ≤ fuel)%nat →
     parse_members fuel d (commas (print_member <$> ms) ++ "}" :: r) =
       Some (map (fun kv => (sanitize kv.1, sanitize_json kv.2)) ms, r)) ∧
  (∀ d vs r, vs ≠ [] → forallb (json_ok d) vs = true →
     (list_sum (map (fun v => S (json_size v)) vs) ≤ fuel)%nat →
     parse_elements fuel d (commas (print <$> vs) ++ "]" :: r) = Some (map sanitize_json vs, r)).
Proof.
  induction fuel as [|fuel (IHv & IHm & IHe)].
  - split_and!.
    + intros d [] r ? ?; cbn in *; lia.
    + intros d [|] r ? ? ?; [done|cbn in *; lia].
    + intros d [|] r ? ? ?; [done|cbn in *; lia].
  - split_and!; intros.
    + by apply parse_value_print.
    + by apply parse_members_print.
    + by apply parse_elements_print.
Qed.

Lemma commas_length {A} (f : A → bytes) (g : A → nat) l :
  (∀ x, x ∈ l → g x ≤ length (f x))%nat →
  (list_sum (map (fun x => S (g x)) l) ≤ S (length (commas (f <$> l))))%nat.
Proof.
  intros Hg. induction l as [|x l IH]; [cbn; lia|].
  assert (g x ≤ length (f x))%nat by (apply Hg; set_solver).
  destruct l as [|y l].
  - rewrite <-(app_nil_r (commas _)), commas_one, app_nil_r. cbn. lia.
  - rewrite <-(app_nil_r (commas _)), commas_more, app_nil_r, length_app. cbn [length map].
    cbn [map] in IH. cbn [list_sum foldr] in *. specialize (IH ltac:(set_solver)). lia.
Qed.

Lemma num_ok_length l : num_ok l = true → (1 ≤ length l)%nat.
Proof. destruct l; cbn; [done|lia]. Qed.

Lemma json_size_length n d v :
  (json_size v ≤ n)%nat → json_ok d v = true → (json_size v ≤ length (print v))%nat.
Proof.
  revert d v. induction n as [|n IH]; intros d v Hn Hv; [destruct v; cbn in *; lia|].
  assert (Hlt : ∀ {A} (g : A → nat) (l : list A) x, x ∈ l →
    (S (g x) ≤ list_sum (map (fun x => S (g x)) l))%nat).
  { intros A g l x Hx. unfold list_sum. induction Hx; cbn; lia. }
  destruct v as [|[]|lit|s|vs|ms]; cbn [json_size print] in *; try (cbn; lia).
  - by apply num_ok_length.
  - apply andb_true_iff in Hv as [_ Hvs]. rewrite forallb_forall in Hvs.
    cbn [length]. rewrite length_app. cbn [length].
    assert (∀ x, x ∈ vs → json_size x ≤ length (print x))%nat as Hc%commas_length; [|lia].
    intros x Hx. apply (IH (d + 1)); [pose proof (Hlt _ json_size vs x Hx); lia|].
    apply Hvs. by apply list_elem_of_In.
  - apply andb_true_iff in Hv as [_ Hms]. rewrite forallb_forall in Hms.
    cbn [length]. rewrite length_app. cbn [length].
    assert (∀ x, x ∈ ms → json_size x.2 ≤ length (print_member x))%nat
      as Hc%(commas_length print_member (fun kv => json_size kv.2)); [|lia].
    intros x Hx. rewrite length_app. cbn [length].
    assert (json_size x.2 ≤ length (print x.2))%nat; [|lia].
    apply (IH (d + 1)); [pose proof (Hlt _ (fun kv : bytes * json => json_size kv.2) ms x Hx); lia|].
    apply Hms. by apply list_elem_of_In.
Qed.

(** Parsing what [Marshal] printed, with more input behind it or at the end. *)
Lemma parse_prefix_print v r :
  json_ok 0 v = true → stops r = true →
  parse_prefix (print v ++ r) = Some (sanitize_json v, r).
Proof.
  intros Hv Hr. apply parse_print_fuel; [done| |done].
  pose proof (json_size_length (json_size v) 0 v ltac:(lia) Hv). rewrite length_app. lia.
Qed.

Lemma parse_print v : json_ok 0 v = true → parse (print v) = Some (sanitize_json v).
Proof.
  intros Hv. unfold parse. rewrite <-(app_nil_r (print v)).
  by rewrite parse_prefix_print.
Qed.

(** ** Decoded strings are valid UTF-8 *)

Lemma chunks_fuel_enough f f' l :
  (length l ≤ f)%nat → (length l ≤ f')%nat → chunks_fuel f l = chunks_fuel f' l.
Proof.
  revert f' l. induction f as [|f IH]; intros f' [|a l] Hf Hf'; cbn in *; try lia;
    [by destruct f'|by destruct f'|].
  destruct f' as [|f']; [lia|]. cbn. f_equal.
  destruct (next_chunk_split a l) as (k & Hk & _). rewrite Hk. cbn [length drop].
  apply IH; rewrite length_drop; lia.
Qed.

Lemma chunks_cons a k l :
  (∀ r, next_chunk a (k ++ r) = Rune (a :: k)) →
  chunks ((a :: k) ++ l) = Rune (a :: k) :: chunks l.
Proof.
  intros Hn. unfold chunks. cbn [app length chunks_fuel]. rewrite Hn. f_equal.
  cbn [chunk_bytes length drop]. rewrite drop_app_length.
  apply chunks_fuel_enough; [rewrite length_app; lia|done].
Qed.

Lemma valid_utf8_app l k :
  valid_utf8 l = true → valid_utf8 k = true → valid_utf8 (l ++ k) = true.
Proof.
  intros Hl Hk. rewrite <-(concat_chunks l). unfold valid_utf8 in Hl.
  pose proof (chunks_ok l) as Hok. induction Hok as [|c cs Hc Hcs IH]; [done|].
  cbn [forallb] in Hl. apply andb_true_iff in Hl as [Hr Hl]. rewrite fmap_cons. cbn [concat].
  rewrite <-app_assoc. specialize (IH Hl).
  destruct c as [[|a m]|b]; [done| |done]. destruct Hc as [Hn _]. cbn [chunk_bytes].
  unfold valid_utf8. rewrite chunks_cons by done. cbn [forallb]. exact IH.
Qed.

Lemma valid_utf8_rune a l m :
  next_chunk a l = Rune m → valid_utf8 m = true.
Proof.
  intros H. pose proof (next_chunk_ok a l) as Hok. rewrite H in Hok.
  destruct m as [|b m]; [done|]. destruct Hok as [Hn _].
  rewrite <-(app_nil_r (b :: m)). unfold valid_utf8. by rewrite chunks_cons.
Qed.

Lemma sanitize_chunk_valid a l : valid_utf8 (sanitize_chunk (next_chunk a l)) = true.
Proof.
  destruct (next_chunk a l) as [m|b] eqn:H; [|done]. cbn. by eapply valid_utf8_rune.
Qed.

Lemma byte_in_of_Z lo hi z :
  0 ≤ lo → hi < 256 → lo ≤ z ≤ hi → byte_in lo hi (byte_of_Z z) = true.
Proof.
  intros. unfold byte_in. rewrite byteZ_byte_of_Z, Z.mod_small by lia.
  by rewrite (proj2 (Z.leb_le lo z)), (proj2 (Z.leb_le z hi)) by lia.
Qed.

Lemma cont_of_Z z : cont (byte_of_Z (0x80 + z `mod` 64)) = true.
Proof. pose proof (Z.mod_pos_bound z 64). apply byte_in_of_Z; lia. Qed.

Lemma utf8_rune l a : next_chunk a l = Rune (a :: l) → valid_utf8 (a :: l) = true.
Proof. apply valid_utf8_rune. Qed.

Lemma next_chunk_2 a b : utf8_2 a b = true → next_chunk a [b] = Rune [a; b].
Proof.
  intros H. pose proof (utf8_2_lead a b H). unfold next_chunk.
  by rewrite (proj2 (Z.ltb_ge _ _)), H by lia.
Qed.

Lemma byte_in_false lo hi b : (byteZ b < lo ∨ hi < byteZ b) → byte_in lo hi b = false.
Proof. unfold byte_in. intros [H|H]; case_bool; cbn; try done; lia. Qed.

Lemma next_chunk_3 a b c :
  224 ≤ byteZ a → utf8_3 a b c = true → next_chunk a [b; c] = Rune [a; b; c].
Proof.
  intros Ha H. unfold next_chunk. rewrite (proj2 (Z.ltb_ge _ _)) by lia.
  unfold utf8_2. by rewrite byte_in_false, H by lia.
Qed.

Lemma next_chunk_4 a b c d :
  240 ≤ byteZ a → utf8_4 a b c d = true → next_chunk a [b; c; d] = Rune [a; b; c; d].
Proof.
  intros Ha H. unfold next_chunk. rewrite (proj2 (Z.ltb_ge _ _)) by lia.
  unfold utf8_2, utf8_3. rewrite (byte_in_false 0xc2 0xdf a), (byte_in_false 0xe1 0xec a),
    (byte_in_false 0xee 0xef a) by lia.
  rewrite (bool_decide_eq_false_2 (a = xe0)), (bool_decide_eq_false_2 (a = xed))
    by (intros ->; cbn in Ha; lia). cbn [andb orb]. by rewrite H.
Qed.

Lemma encode_rune_3 r :
  0x800 ≤ r < 0x10000 → r < 0xd800 ∨ 0xdfff < r →
  valid_utf8 [byte_of_Z (0xe0 + r / 4096); byte_of_Z (0x80 + (r / 64) `mod` 64);
              byte_of_Z (0x80 + r `mod` 64)] = true.
Proof.
  intros Hr Hs. set (a := byte_of_Z (224 + _)). set (b := byte_of_Z (128 + (r / 64) `mod` 64)).
  pose proof (Z.mod_pos_bound (r / 64) 64). pose proof (Z.mod_pos_bound r 64).
  assert (0 ≤ r / 4096 < 16) by (split; [apply Z.div_pos|apply Z.div_lt_upper_bound]; lia).
  assert (byteZ a = 224 + r / 4096) as Ha by (unfold a; rewrite byteZ_byte_of_Z, Z.mod_small; lia).
  assert (byteZ b = 128 + (r / 64) `mod` 64) as Hb
    by (unfold b; rewrite byteZ_byte_of_Z, Z.mod_small; lia).
  assert (r / 64 = 64 * (r / 4096) + (r / 64) `mod` 64) as Hd.
  { replace 4096 with (64 * 64) by done. rewrite <-Z.div_div by lia.
    pose proof (Z.div_mod (r / 64) 64). lia. }
  pose proof (Z.div_mod r 64).
  apply utf8_rune, next_chunk_3; [lia|]. unfold utf8_3. rewrite cont_of_Z, andb_true_r.
  destruct (decide (r / 4096 = 0)) as [Hq|Hq].
  { rewrite (bool_decide_eq_true_2 (a = xe0)) by (apply (inj byteZ); rewrite Ha, Hq; reflexivity).
    unfold byte_in at 1.
    by rewrite (proj2 (Z.leb_le 160 (byteZ b))), (proj2 (Z.leb_le (byteZ b) 191)) by lia. }
  destruct (decide (r / 4096 = 13)) as [Hq'|Hq'].
  { rewrite (bool_decide_eq_true_2 (a = xed)) by (apply (inj byteZ); rewrite Ha, Hq'; reflexivity).
    unfold byte_in at 2. rewrite (proj2 (Z.leb_le 128 (byteZ b))), (proj2 (Z.leb_le (byteZ b) 159)) by lia.
    cbn [andb]. by rewrite orb_true_r. }
  rewrite (bool_decide_eq_false_2 (a = xe0)), (bool_decide_eq_false_2 (a = xed))
    by (intros He; rewrite He in Ha; cbn in Ha; lia).
  cbn [andb orb]. unfold b. rewrite cont_of_Z, andb_true_r. unfold byte_in. case_bool; cbn; lia.
Qed.

Lemma encode_rune_4 r :
  0x10000 ≤ r ≤ 0x10ffff →
  valid_utf8 [byte_of_Z (0xf0 + r / 262144); byte_of_Z (0x80 + (r / 4096) `mod` 64);
              byte_of_Z (0x80 + (r / 64) `mod` 64); byte_of_Z (0x80 + r `mod` 64)] = true.
Proof.
  intros Hr. set (a := byte_of_Z (240 + _)). set (b := byte_of_Z (128 + (r / 4096) `mod` 64)).
  pose proof (Z.mod_pos_bound (r / 4096) 64).
  assert (0 ≤ r / 262144 ≤ 4)
    by (split; [apply Z.div_pos; lia|apply Z.lt_succ_r, Z.div_lt_upper_bound; lia]).
  assert (byteZ a = 240 + r / 262144) as Ha by (unfold a; rewrite byteZ_byte_of_Z, Z.mod_small; lia).
  assert (byteZ b = 128 + (r / 4096) `mod` 64) as Hb
    by (unfold b; rewrite byteZ_byte_of_Z, Z.mod_small; lia).
  assert (r / 4096 = 64 * (r / 262144) + (r / 4096) `mod` 64) as Hd.
  { replace 262144 with (4096 * 64) by done. rewrite <-Z.div_div by lia.
    pose proof (Z.div_mod (r / 4096) 64). lia. }
  pose proof (Z.div_mod r 4096). pose proof (Z.mod_pos_bound r 4096).
  apply utf8_rune, next_chunk_4; [lia|]. unfold utf8_4. rewrite !cont_of_Z, !andb_true_r.
  destruct (decide (r / 262144 = 0)) as [Hq|Hq].
  { rewrite (bool_decide_eq_true_2 (a = xf0)) by (apply (inj byteZ); rewrite Ha, Hq; reflexivity).
    unfold byte_in at 1.
    by rewrite (proj2 (Z.leb_le 144 (byteZ b))), (proj2 (Z.leb_le (byteZ b) 191)) by lia. }
  destruct (decide (r / 262144 = 4)) as [Hq'|Hq'].
  { rewrite (bool_decide_eq_true_2 (a = xf4)) by (apply (inj byteZ); rewrite Ha, Hq'; reflexivity).
    unfold byte_in at 2. rewrite (proj2 (Z.leb_le 128 (byteZ b))), (proj2 (Z.leb_le (byteZ b) 143)) by lia.
    cbn [andb]. by rewrite orb_true_r. }
  rewrite (bool_decide_eq_false_2 (a = xf0)), (bool_decide_eq_false_2 (a = xf4))
    by (intros He; rewrite He in Ha; cbn in Ha; lia).
  cbn [andb orb]. unfold b. rewrite cont_of_Z, andb_true_r. unfold byte_in. case_bool; cbn; lia.
Qed.

Lemma encode_rune_valid r : 0 ≤ r → valid_utf8 (encode_rune r) = true.
Proof.
  intros Hr. unfold encode_rune.
  destruct (Z.ltb_spec r 0x80).
  { apply valid_utf8_ascii. repeat constructor.
    rewrite byteZ_byte_of_Z, Z.mod_small by lia. lia. }
  destruct (Z.ltb_spec r 0x800).
  { apply utf8_rune, next_chunk_2. unfold utf8_2. rewrite cont_of_Z, andb_true_r.
    assert (2 ≤ r / 64 < 32) by (split; [apply Z.div_le_lower_bound|apply Z.div_lt_upper_bound]; lia).
    apply byte_in_of_Z; lia. }
  destruct ((0xd800 <=? r) && (r <=? 0xdfff)) eqn:Hsur; [done|].
  destruct (Z.ltb_spec r 0x10000).
  { apply encode_rune_3; [lia|]. case_bool; cbn in Hsur; try done; lia. }
  destruct (Z.leb_spec r 0x10ffff); [|done]. by apply encode_rune_4.
Qed.

Lemma hex_val_range b v : hex_val b = Some v → 0 ≤ v < 16.
Proof. unfold hex_val. repeat case_match; intros; simplify_eq; case_bool; try done; lia. Qed.

Lemma hex4_range l r k : hex4 l = Some (r, k) → 0 ≤ r.
Proof.
  destruct l as [|a [|b [|c [|d l]]]]; try done. cbn [hex4]. intros H.
  apply bind_Some in H as (va & Ha & H). apply bind_Some in H as (vb & Hb & H).
  apply bind_Some in H as (vc & Hc & H). apply bind_Some in H as (vd & Hd & H).
  apply hex_val_range in Ha, Hb, Hc, Hd. injection H as <- _. lia.
Qed.

Lemma unescape_valid e l v k : unescape e l = Some (v, k) → valid_utf8 v = true.
Proof.
  unfold unescape, unescape_u. intros H.
  case_bool_decide as He.
  { injection H as <- _. apply list_elem_of_In in He. cbn in He.
    by destruct He as [<-|[<-|[<-|[]]]]. }
  do 5 (case_bool_decide as Hx; [by injection H as <- _|clear Hx]).
  case_bool_decide as Hx; [clear Hx|done].
  apply bind_Some in H as ([r l'] & Hr & H). apply hex4_range in Hr.
  destruct ((0xd800 <=? r) && (r <=? 0xdfff)) eqn:Hsur.
  2:{ injection H as <- _. by apply encode_rune_valid. }
  destruct l' as [|b [|u l']]; [by injection H as <- _..|].
  case_bool_decide as Hx; [clear Hx|by injection H as <- _].
  apply bind_Some in H as ([r2 l''] & Hr2 & H). apply hex4_range in Hr2.
  destruct ((_ <? _) && _ && _) eqn:Hc; [|by injection H as <- _].
  injection H as <- _. apply encode_rune_valid. case_bool; cbn in *; try done; lia.
Qed.

Lemma unquote_valid fuel l v k : unquote fuel l = Some (v, k) → valid_utf8 v = true.
Proof.
  revert l v k. induction fuel as [|fuel IH]; intros [|a l] v k; cbn [unquote]; try done.
  case_bool_decide as Hx; [by intros [= <- _]|clear Hx].
  destruct (byteZ a <? 32); [done|]. intros H.
  apply bind_Some in H as ([v1 k1] & H1 & H). apply bind_Some in H as ([vs r] & H2 & H).
  injection H as <- _. apply IH in H2. apply valid_utf8_app; [|done].
  case_bool_decide.
  - destruct l; [done|]. by eapply unescape_valid.
  - injection H1 as <- _. apply sanitize_chunk_valid.
Qed.

(** Every string of a parsed value is valid UTF-8. *)
Fixpoint json_utf8 (v : json) : bool :=
  match v with
  | JStr s => valid_utf8 s
  | JArr l => forallb json_utf8 l
  | JObj l => forallb (fun kv => json_utf8 kv.2) l
  | _ => true
  end.

Lemma expect_utf8 w l v v' k :
  expect w l v = Some (v', k) → json_utf8 v = true → json_utf8 v' = true.
Proof. unfold expect. case_bool_decide; [|done]. by intros [= <- _]. Qed.

Lemma parse_utf8_fuel fuel :
  (∀ d l v k, parse_value fuel d l = Some (v, k) → json_utf8 v = true) ∧
  (∀ d l ms k, parse_members fuel d l = Some (ms, k) → forallb (fun kv => json_utf8 kv.2) ms = true) ∧
  (∀ d l vs k, parse_elements fuel d l = Some (vs, k) → forallb json_utf8 vs = true).
Proof.
  induction fuel as [|fuel (IHv & IHm & IHe)]; [by split_and!|].
  split_and!; intros d l v k; cbn [parse_value parse_members parse_elements].
  - destruct (skip_ws l) as [|c l']; [done|].
    case_bool_decide.
    { destruct (_ <=? _); [done|]. destruct (skip_ws l') as [|b m]; [done|].
      case_bool_decide; [by intros [= <- _]|].
      intros ([ms m'] & Hm & [= <- _])%bind_Some. by apply IHm in Hm. }
    case_bool_decide.
    { destruct (_ <=? _); [done|]. destruct (skip_ws l') as [|b m]; [done|].
      case_bool_decide; [by intros [= <- _]|].
      intros ([ms m'] & Hm & [= <- _])%bind_Some. by apply IHe in Hm. }
    case_bool_decide.
    { intros ([s m'] & Hm & [= <- _])%bind_Some. by apply unquote_valid in Hm. }
    do 3 (case_bool_decide; [intros H'; by eapply expect_utf8|]).
    by intros ([s m'] & Hm & [= <- _])%bind_Some.
  - destruct (skip_ws l) as [|q l']; [done|]. case_bool_decide; [|done].
    intros ([key m1] & _ & H1)%bind_Some.
    destruct (skip_ws m1) as [|c m2]; [done|]. case_bool_decide; [|done].
    apply bind_Some in H1 as ([w m3] & Hw%IHv & H1).
    destruct (skip_ws m3) as [|e m4]; [done|].
    case_bool_decide; [|case_bool_decide; [|done]].
    + apply bind_Some in H1 as ([ms m5] & Hms%IHm & [= <- _]). cbn. by rewrite Hw, Hms.
    + injection H1 as <- _. cbn. by rewrite Hw.
  - intros ([w m3] & Hw%IHv & H1)%bind_Some.
    destruct (skip_ws m3) as [|e m4]; [done|].
    case_bool_decide; [|case_bool_decide; [|done]].
    + apply bind_Some in H1 as ([ms m5] & Hms%IHe & [= <- _]). cbn. by rewrite Hw, Hms.
    + injection H1 as <- _. cbn. by rewrite Hw.
Qed.

Lemma parse_prefix_utf8 l v k : parse_prefix l = Some (v, k) → json_utf8 v = true.
Proof. apply parse_utf8_fuel. Qed.

Lemma parse_utf8 l v : parse l = Some v → json_utf8 v = true.
Proof.
  unfold parse. intros ([w k] & Hw & H)%bind_Some. case_bool_decide; [|done].
  injection H as <-. by eapply parse_prefix_utf8.
Qed.

(** ** Slices of structs

    [Unmarshal] decodes element [i] into whatever the backing array already holds
    there: after a duplicate key, fields the second array leaves out keep their
    earlier values. *)
Record slice (A : Type) := MkSlice { backing : list A; used : nat }.
Arguments MkSlice {A} _ _.
Arguments backing {A} _.
Arguments used {A} _.

Definition nil_slice {A} : slice A := MkSlice [] 0.
Definition slice_list {A} (s : slice A) : list A := take (used s) (backing s).

Fixpoint decode_elements {A} (zero : A) (dec : json → A → option A) (vs : list json) (old : list A)
    : option (list A) :=
  match vs with
  | [] => Some old
  | v :: vs =>
      x ← dec v (default zero (head old)); xs ← decode_elements zero dec vs (tail old); Some (x :: xs)
  end.

Definition set_slice {S A} (zero : A) (dec : json → A → option A)
    (get : S → slice A) (set : slice A → S → S) (v : json) (s : S) : option S :=
  match v with
  | JNull | JArr [] => Some (set nil_slice s)
  | JArr vs => xs ← decode_elements zero dec vs (backing (get s)); Some (set (MkSlice xs (length vs)) s)
  | _ => None
  end.

(** ** Invariants of decoded structs *)

(** A setter that keeps [P] when given a value whose strings are valid UTF-8. *)
Definition setter_keeps {S} (P : S → Prop) (set : json → S → option S) : Prop :=
  ∀ v s s', json_utf8 v = true → P s → set v s = Some s' → P s'.

Lemma decode_struct_keeps {S} (P : S → Prop) (fields : list (field S)) :
  Forall (fun f => setter_keeps P f.2) fields → setter_keeps P (decode_struct fields).
Proof.
  intros Hf v s s' Hv Hs. destruct v as [| | | | |ms]; cbn [decode_struct]; try done;
    [by intros [= <-]|]. cbn in Hv. unfold set_members. revert s Hs Hv.
  induction ms as [|[key v] ms IH]; intros s Hs Hv; cbn; [by intros [= <-]|].
  cbn in Hv. apply andb_true_iff in Hv as [Hv Hms].
  destruct (match find_field fields key with Some set => set v s | None => Some s end)
    as [s1|] eqn:H1.
  - apply IH; [|done]. destruct (find_field fields key) as [set|] eqn:Hfind; [|congruence].
    unfold find_field in Hfind. apply fmap_Some in Hfind as (f & Hff & ->).
    apply find_some in Hff as [Hin _].
    rewrite Forall_forall in Hf. apply list_elem_of_In in Hin. by eapply (Hf f Hin).
  - intros H2. exfalso. clear -H2. by induction ms.
Qed.

Lemma set_string_keeps {S} (P : S → Prop) set :
  (∀ x s, valid_utf8 (bytes_of_string x) = true → P s → P (set x s)) →
  setter_keeps P (set_string set).
Proof.
  intros Hset v s s'; destruct v; cbn; intros Hv Hs; try done; [by intros [= <-]|].
  intros [= <-]. apply Hset; [|done]. unfold bytes_of_string.
  by rewrite String.list_byte_of_string_of_list_byte.
Qed.

Lemma set_int_keeps {S} (P : S → Prop) set :
  (∀ x s, in_i64 x → P s → P (set x s)) → setter_keeps P (set_int set).
Proof.
  intros Hset v s s'; destruct v; cbn; intros _ Hs; try done; [by intros [= <-]|].
  intros (n & Hn & [= <-])%bind_Some. apply Hset; [|done]. by eapply ParseInt_range.
Qed.

Lemma set_uint_keeps {S} (P : S → Prop) max set :
  (∀ x s, 0 ≤ x ≤ max → P s → P (set x s)) → setter_keeps P (set_uint max set).
Proof.
  intros Hset v s s'; destruct v; cbn; intros _ Hs; try done; [by intros [= <-]|].
  intros (n & Hn & [= <-])%bind_Some. apply Hset; [|done]. by eapply ParseUint_range.
Qed.

Lemma decode_elements_keeps {A} (P : A → Prop) zero dec vs old xs :
  setter_keeps P dec → P zero → forallb json_utf8 vs = true → Forall P old →
  decode_elements zero dec vs old = Some xs → Forall P xs.
Proof.
  intros Hdec Hz. revert old xs. induction vs as [|v vs IH]; intros old xs Hv Hold; cbn.
  - by intros [= <-].
  - cbn in Hv. apply andb_true_iff in Hv as [Hv Hvs].
    intros (x & Hx & (xs' & Hxs & [= <-])%bind_Some)%bind_Some. constructor.
    + eapply Hdec; [done| |done]. destruct Hold; done.
    + eapply IH; [done| |done]. destruct Hold; [constructor|done].
Qed.

Lemma set_slice_keeps {S A} (P : S → Prop) (Q : A → Prop) zero dec get set :
  setter_keeps Q dec → Q zero →
  (∀ s, P s → Forall Q (backing (get s))) →
  (∀ x s, Forall Q (backing x) → P s → P (set x s)) →
  setter_keeps P (set_slice zero dec get set).
Proof.
  intros Hdec Hz Hget Hset j s s'; destruct j as [| | | |[|v vs]|];
    cbn [set_slice]; intros Hv Hs; try done.
  - intros [= <-]. apply Hset; [constructor|done].
  - intros [= <-]. apply Hset; [constructor|done].
  - intros (xs & Hxs & [= <-])%bind_Some. apply Hset; [|done]. cbn [backing].
    eapply decode_elements_keeps; [done|done|exact Hv|by apply Hget|done].
Qed.

(** Decoding into a zero slice reads each element into a zero value. *)
Lemma decode_elements_zero {A} (zero : A) dec vs xs :
  mapM (fun v => dec v zero) vs = Some xs → decode_elements zero dec vs [] = Some xs.
Proof.
  revert xs. induction vs as [|v vs IH]; intros xs; cbn; [done|].
  intros (x & -> & (xs' & Hxs & [= <-])%bind_Some)%bind_Some. cbn. by rewrite (IH _ Hxs).
Qed.

Lemma set_slice_zero {S A} (zero : A) dec (get : S → slice A) set vs s xs :
  mapM (fun v => dec v zero) vs = Some xs → get s = nil_slice →
  set_slice zero dec get set (JArr vs) s = Some (set (MkSlice xs (length vs)) s).
Proof.
  intros Hxs Hg. apply decode_elements_zero in Hxs. destruct vs as [|v vs].
  - injection Hxs as <-. done.
  - unfold set_slice. rewrite Hg. cbn [backing nil_slice]. by rewrite Hxs.
Qed.
