(* ===== verification/NodeMeta.v ===== *)
(** * Gossip node metadata ([internal/membership/metadata.go])

    The versioned record every gossip participant advertises: its validation,
    its JSON encoding under memberlist's size limit, and decoding with
    re-validation.  [MetaMaxSize] is memberlist's constant, a parameter here. *)

From S2P Require Import Prelude GoStd Json.
Local Open Scope Z_scope.

Definition NodeMetaVersion : Z := 1.
Definition maxNodeIDBytes : Z := 64.

Definition RoleData : string := "data".
Definition RoleControl : string := "control".

Record NodeMeta := MkNodeMeta {
  nm_Version : Z;
  nm_Role : string;
  nm_NodeID : string;
  nm_Address : string
}.

#[export] Instance NodeMeta_eq_dec : EqDecision NodeMeta.
Proof. solve_decision. Defined.

Definition zero_meta : NodeMeta := MkNodeMeta 0 "" "" "".

(** [len] of a Go string. *)
Definition str_len (s : string) : Z := Z.of_nat (length (bytes_of_string s)).

(** [nodeIDPattern], [^[A-Za-z0-9][A-Za-z0-9._-]*$]. *)
Definition alnum (b : byte) : bool := byte_in 65 90 b || byte_in 97 122 b || byte_in 48 57 b.
Definition id_char (b : byte) : bool := alnum b || bool_decide (b ∈ [x2e; x5f; x2d]).

Definition nodeIDPattern (s : string) : bool :=
  match bytes_of_string s with
  | [] => false
  | b :: l => alnum b && forallb id_char l
  end.

Inductive address_error :=
| NotHostPort (e : addr_error) | EmptyHost | BadPort (portText : string).

Definition validateServiceAddress (address : string) : result address_error () :=
  match SplitHostPort address with
  | Err e => Err (NotHostPort e)
  | Ok (host, portText) =>
      if bool_decide (TrimSpace host = "") then Err EmptyHost
      else match Atoi portText with
           | Some port =>
               if (port <? 1) || (65535 <? port) then Err (BadPort portText) else Ok ()
           | None => Err (BadPort portText)
           end
  end.

Inductive meta_error :=
| UnsupportedVersion (v : Z)
| ControlHasIdentity
| NodeIDEmpty | NodeIDSpaces | NodeIDTooLong | NodeIDMismatch
| AddressEmpty | AddressSpaces | AddressBad (e : address_error)
| UnknownRole (r : string)
| EncodedTooLarge (n : Z) | MetaEmpty | MetaTooLarge (n : Z) | MetaSyntax.

Definition validateNodeMeta (meta : NodeMeta) : result meta_error () :=
  if negb (nm_Version meta =? NodeMetaVersion) then Err (UnsupportedVersion (nm_Version meta))
  else if bool_decide (nm_Role meta = RoleControl) then
    if bool_decide (nm_NodeID meta ≠ "" ∨ nm_Address meta ≠ "") then Err ControlHasIdentity
    else Ok ()
  else if bool_decide (nm_Role meta = RoleData) then
    if bool_decide (TrimSpace (nm_NodeID meta) = "") then Err NodeIDEmpty
    else if bool_decide (nm_NodeID meta ≠ TrimSpace (nm_NodeID meta)) then Err NodeIDSpaces
    else if maxNodeIDBytes <? str_len (nm_NodeID meta) then Err NodeIDTooLong
    else if negb (nodeIDPattern (nm_NodeID meta)) then Err NodeIDMismatch
    else if bool_decide (TrimSpace (nm_Address meta) = "") then Err AddressEmpty
    else if bool_decide (nm_Address meta ≠ TrimSpace (nm_Address meta)) then Err AddressSpaces
    else match validateServiceAddress (nm_Address meta) with
         | Err e => Err (AddressBad e)
         | Ok () => Ok ()
         end
  else Err (UnknownRole (nm_Role meta)).

(** The struct's JSON tags: [node_id] and [address] are omitted when empty. *)
Definition name (s : string) : bytes := bytes_of_string s.
Definition opt_str (k v : string) : list (bytes * json) :=
  if bool_decide (v = "") then [] else [(name k, JStr (bytes_of_string v))].

Definition meta_json (meta : NodeMeta) : json :=
  JObj ([(name "version", JNum (Itoa_bytes (nm_Version meta)));
         (name "role", JStr (bytes_of_string (nm_Role meta)))]
        ++ opt_str "node_id" (nm_NodeID meta) ++ opt_str "address" (nm_Address meta)).

Definition meta_fields : list (field NodeMeta) :=
  [("version", set_uint 255 (fun v m => MkNodeMeta v (nm_Role m) (nm_NodeID m) (nm_Address m)));
   ("role", set_string (fun v m => MkNodeMeta (nm_Version m) v (nm_NodeID m) (nm_Address m)));
   ("node_id", set_string (fun v m => MkNodeMeta (nm_Version m) (nm_Role m) v (nm_Address m)));
   ("address", set_string (fun v m => MkNodeMeta (nm_Version m) (nm_Role m) (nm_NodeID m) v))]%string.

Section codec.
Context (MetaMaxSize : Z).

Definition EncodeNodeMeta (meta : NodeMeta) : result meta_error bytes :=
  _ ← validateNodeMeta meta;
  let raw := print (meta_json meta) in
  if MetaMaxSize <? Z.of_nat (length raw) then Err (EncodedTooLarge (Z.of_nat (length raw)))
  else Ok raw.

Definition DecodeNodeMeta (raw : bytes) : result meta_error NodeMeta :=
  if bool_decide (raw = []) then Err MetaEmpty
  else if MetaMaxSize <? Z.of_nat (length raw) then Err (MetaTooLarge (Z.of_nat (length raw)))
  else match parse raw ≫= (fun v => decode_struct meta_fields v zero_meta) with
       | None => Err MetaSyntax
       | Some meta => _ ← validateNodeMeta meta; Ok meta
       end.
End codec.

(** ** Lemmas *)

(** What acceptance means. *)
Definition address_ok (address : string) : Prop :=
  TrimSpace address = address ∧
  ∃ host portText port,
    SplitHostPort address = Ok (host, portText) ∧ TrimSpace host ≠ "" ∧
    Atoi portText = Some port ∧ 1 ≤ port ≤ 65535.

Definition meta_ok (meta : NodeMeta) : Prop :=
  nm_Version meta = 1 ∧
  ((nm_Role meta = "control" ∧ nm_NodeID meta = "" ∧ nm_Address meta = "") ∨
   (nm_Role meta = "data" ∧ nodeIDPattern (nm_NodeID meta) = true ∧
    str_len (nm_NodeID meta) ≤ 64 ∧ address_ok (nm_Address meta))).

Lemma id_char_graphic b : id_char b = true → graphic b.
Proof. unfold graphic. by destruct b; vm_compute; intros; try done; split. Qed.

Lemma alnum_id_char b : alnum b = true → id_char b = true.
Proof. unfold id_char. by intros ->. Qed.

Lemma nodeIDPattern_chars s :
  nodeIDPattern s = true → Forall (fun b => id_char b = true) (bytes_of_string s).
Proof.
  unfold nodeIDPattern. destruct (bytes_of_string s) as [|b l]; [done|].
  intros [Hb Hl]%andb_true_iff. constructor; [by apply alnum_id_char|].
  apply Forall_forall. intros x Hx. rewrite forallb_forall in Hl. by apply Hl, list_elem_of_In.
Qed.

Lemma nodeIDPattern_trim s : nodeIDPattern s = true → TrimSpace s = s.
Proof.
  intros Hs%nodeIDPattern_chars. apply TrimSpace_graphic.
  eapply Forall_impl; [done|]. apply id_char_graphic.
Qed.

Lemma nodeIDPattern_nonempty s : nodeIDPattern s = true → s ≠ "".
Proof. by intros ? ->. Qed.

Lemma address_ok_nonempty a : address_ok a → a ≠ "".
Proof. intros (_ & h & p & n & Hs & _) ->. done. Qed.

Lemma validateServiceAddress_Ok a :
  validateServiceAddress a = Ok () ↔
  ∃ host portText port, SplitHostPort a = Ok (host, portText) ∧ TrimSpace host ≠ "" ∧
    Atoi portText = Some port ∧ 1 ≤ port ≤ 65535.
Proof.
  unfold validateServiceAddress. destruct (SplitHostPort a) as [[h p]|].
  2:{ split; [done|]. by intros (? & ? & ? & ? & _). }
  case_bool_decide; [split; [done|]; by intros (? & ? & ? & [= <- <-] & ? & _)|].
  destruct (Atoi p) as [n|] eqn:Hp.
  2:{ split; [done|]. intros (? & ? & ? & [= <- <-] & _ & ? & _). congruence. }
  destruct (Z.ltb_spec n 1); destruct (Z.ltb_spec 65535 n); cbn; split;
    try done; try (intros (? & ? & ? & [= <- <-] & ? & Hn & ?); rewrite Hp in Hn; injection Hn as <-; lia).
  intros _. exists h, p, n. by split_and!.
Qed.

Lemma validateNodeMeta_Ok m : validateNodeMeta m = Ok () ↔ meta_ok m.
Proof.
  unfold validateNodeMeta, meta_ok, NodeMetaVersion, RoleControl, RoleData, maxNodeIDBytes.
  destruct (Z.eqb_spec (nm_Version m) 1) as [Hv|Hv]; cbn [negb]; [|naive_solver].
  destruct (bool_decide_reflect (nm_Role m = "control")) as [Hr|Hr].
  { rewrite Hr. case_bool_decide as Hid.
    - split; [done|]. intros [_ [(_ & ? & ?)|(? & _)]]; [by destruct Hid|done].
    - split; [|done]. intros _. split; [done|]. left. split; [done|].
      split; apply dec_stable; tauto. }
  destruct (bool_decide_reflect (nm_Role m = "data")) as [Hd|Hd].
  2:{ split; [done|]. intros [_ [(? & _)|(? & _)]]; done. }
  assert (Hdata : ∀ P : Prop, meta_ok m → (nodeIDPattern (nm_NodeID m) = true →
    str_len (nm_NodeID m) ≤ 64 → address_ok (nm_Address m) → P) → P).
  { intros P [_ [(? & _)|(_ & ? & ? & ?)]]; [congruence|auto]. }
  fold (meta_ok m).
  assert (Hpat : nodeIDPattern (nm_NodeID m) = true →
    TrimSpace (nm_NodeID m) = nm_NodeID m ∧ nm_NodeID m ≠ "")
    by (eauto using nodeIDPattern_trim, nodeIDPattern_nonempty).
  assert (Haddr : address_ok (nm_Address m) →
    TrimSpace (nm_Address m) = nm_Address m ∧ nm_Address m ≠ "")
    by (intros Ha; split; [apply Ha|by apply address_ok_nonempty]).
  case_bool_decide; [split; [done|]; intros; eapply Hdata; naive_solver congruence|].
  case_bool_decide; [split; [done|]; intros; eapply Hdata; naive_solver congruence|].
  destruct (Z.ltb_spec 64 (str_len (nm_NodeID m)));
    [split; [done|]; intros; eapply Hdata; [done|lia]|].
  destruct (nodeIDPattern (nm_NodeID m)) eqn:Hp; cbn [negb];
    [|split; [done|]; intros; eapply Hdata; done].
  case_bool_decide; [split; [done|]; intros; eapply Hdata; naive_solver congruence|].
  case_bool_decide as Hat; [split; [done|]; intros; eapply Hdata; naive_solver congruence|].
  pose proof (validateServiceAddress_Ok (nm_Address m)) as Hs.
  destruct (validateServiceAddress (nm_Address m)) as [[]|e].
  - split; [|done]. intros _. split; [done|]. right. split_and!; try done. split; [done|by apply Hs].
  - split; [done|]. intros Hm. apply (Hdata _ Hm). intros _ _ [_ Ha]. by apply Hs in Ha.
Qed.

Lemma EncodeNodeMeta_Ok M m raw :
  EncodeNodeMeta M m = Ok raw ↔
  meta_ok m ∧ raw = print (meta_json m) ∧ Z.of_nat (length raw) ≤ M.
Proof.
  unfold EncodeNodeMeta. rewrite <-validateNodeMeta_Ok.
  destruct (validateNodeMeta m) as [[]|]; cbn [mbind result_bind]; [|naive_solver].
  destruct (Z.ltb_spec M (Z.of_nat (length (print (meta_json m))))); naive_solver lia.
Qed.

Lemma DecodeNodeMeta_Ok M raw m :
  DecodeNodeMeta M raw = Ok m ↔
  raw ≠ [] ∧ Z.of_nat (length raw) ≤ M ∧
  (parse raw ≫= fun v => decode_struct meta_fields v zero_meta) = Some m ∧ meta_ok m.
Proof.
  unfold DecodeNodeMeta. rewrite <-validateNodeMeta_Ok. case_bool_decide; [naive_solver|].
  destruct (Z.ltb_spec M (Z.of_nat (length raw))); [naive_solver lia|].
  destruct (parse raw ≫= _) as [m'|]; [|naive_solver].
  destruct (validateNodeMeta m') as [[]|] eqn:Hm; cbn [mbind result_bind]; naive_solver congruence.
Qed.

Definition sanitize_string (s : string) : string :=
  String.string_of_list_byte (sanitize (bytes_of_string s)).

Lemma sanitize_string_valid s :
  valid_utf8 (bytes_of_string s) = true → sanitize_string s = s.
Proof.
  intros H. unfold sanitize_string. rewrite sanitize_valid by done.
  apply String.string_of_list_byte_of_string.
Qed.

Lemma nodeIDPattern_utf8 s : nodeIDPattern s = true → valid_utf8 (bytes_of_string s) = true.
Proof.
  intros Hs%nodeIDPattern_chars. apply valid_utf8_ascii. eapply Forall_impl; [done|].
  intros b Hb%id_char_graphic. cbn. destruct Hb. lia.
Qed.

(** What decoding recovers from an encoding: the metadata, with invalid UTF-8 in
    its strings replaced. *)
Lemma decode_meta_json m :
  0 ≤ nm_Version m ≤ 255 →
  (parse (print (meta_json m)) ≫= fun v => decode_struct meta_fields v zero_meta) =
    Some (MkNodeMeta (nm_Version m) (sanitize_string (nm_Role m))
            (sanitize_string (nm_NodeID m)) (sanitize_string (nm_Address m))).
Proof.
  intros Hv. rewrite parse_print.
  2:{ unfold meta_json, opt_str. cbn [json_ok forallb app snd]. rewrite num_ok_Itoa.
      by do 2 case_bool_decide. }
  destruct m as [v r i a]. cbn [nm_Version nm_Role nm_NodeID nm_Address] in *.
  assert (set_uint 255 (fun v m => MkNodeMeta v (nm_Role m) (nm_NodeID m) (nm_Address m))
            (JNum (Itoa_bytes v)) zero_meta = Some (MkNodeMeta v "" "" "")) as Hnum.
  { unfold set_uint, Itoa_bytes. destruct (Z.ltb_spec v 0); [lia|].
    rewrite ParseUint_nat_digits by lia. done. }
  unfold meta_json, opt_str. cbn [sanitize_json map app mbind option_bind fst snd].
  unfold decode_struct, set_members. cbn [foldl fst snd mbind option_bind].
  change (find_field meta_fields (sanitize (name "version"))) with
    (Some (set_uint 255 (fun v m => MkNodeMeta v (nm_Role m) (nm_NodeID m) (nm_Address m)))).
  cbn iota beta. cbn [nm_Version nm_Role nm_NodeID nm_Address]. rewrite Hnum.
  cbn [mbind option_bind].
  change (find_field meta_fields (sanitize (name "role"))) with
    (Some (set_string (fun v m => MkNodeMeta (nm_Version m) v (nm_NodeID m) (nm_Address m)))).
  destruct (bool_decide_reflect (i = "")) as [->|Hi];
    destruct (bool_decide_reflect (a = "")) as [->|Ha]; cbn [map app foldl fst snd]; reflexivity.
Qed.

Lemma Encode_Decode M m raw :
  EncodeNodeMeta M m = Ok raw → valid_utf8 (bytes_of_string (nm_Address m)) = true →
  DecodeNodeMeta M raw = Ok m.
Proof.
  intros (Hok & -> & Hlen)%EncodeNodeMeta_Ok Hutf. apply DecodeNodeMeta_Ok.
  split; [done|]. split; [done|]. split; [|done].
  rewrite decode_meta_json by (destruct Hok as [-> _]; lia). f_equal.
  assert (sanitize_string (nm_Role m) = nm_Role m ∧ sanitize_string (nm_NodeID m) = nm_NodeID m)
    as [-> ->].
  { destruct Hok as [_ [(-> & -> & _)|(-> & Hp & _)]]; [done|].
    split; [done|]. by apply sanitize_string_valid, nodeIDPattern_utf8. }
  rewrite sanitize_string_valid by done. by destruct m.
Qed.

(** Decoded metadata is valid UTF-8, whatever was gossiped. *)
Lemma DecodeNodeMeta_utf8 M raw m :
  DecodeNodeMeta M raw = Ok m → valid_utf8 (bytes_of_string (nm_Address m)) = true.
Proof.
  intros (_ & _ & (v & Hv%parse_utf8 & Hm)%bind_Some & _)%DecodeNodeMeta_Ok.
  revert Hm. apply (decode_struct_keeps
    (fun m => valid_utf8 (bytes_of_string (nm_Address m)) = true)); [|done|done].
  repeat constructor; first [apply set_string_keeps|apply set_uint_keeps]; done.
Qed.

(** ** Properties *)

(** Metadata a participant encodes for gossip is decoded by every peer to
    exactly the same record, for any service address that is valid UTF-8. *)
Theorem NodeMeta_roundtrip MetaMaxSize meta raw
  (Henc : EncodeNodeMeta MetaMaxSize meta = Ok raw)
  (Hutf : valid_utf8 (bytes_of_string (nm_Address meta)) = true) :
  DecodeNodeMeta MetaMaxSize raw = Ok meta.
Proof. by apply Encode_Decode. Qed.

Definition example_meta : NodeMeta := MkNodeMeta 1 "data" "node-0" "10.0.0.1:7100".

Lemma NodeMeta_roundtrip_witness :
  ∃ raw, EncodeNodeMeta 512 example_meta = Ok raw ∧ DecodeNodeMeta 512 raw = Ok example_meta.
Proof.
  eexists. split; [vm_compute; reflexivity|].
  apply (NodeMeta_roundtrip 512 example_meta); vm_compute; reflexivity.
Defined.

(** Whatever bytes a peer gossips, decoding admits a record only if it is
    within the size limit, has the supported version, and is either a control
    observer with no data-plane identity or a data node whose ID matches
    [[A-Za-z0-9][A-Za-z0-9._-]*] in at most 64 bytes and whose address is a
    trimmed host:port with a non-blank host and a port in 1..65535; and an
    encoded record is accepted exactly then. *)
Theorem DecodeNodeMeta_validated MetaMaxSize raw meta :
  (DecodeNodeMeta MetaMaxSize raw = Ok meta →
   meta_ok meta ∧ Z.of_nat (length raw) ≤ MetaMaxSize) ∧
  (EncodeNodeMeta MetaMaxSize meta = Ok raw ↔
   meta_ok meta ∧ raw = print (meta_json meta) ∧ Z.of_nat (length raw) ≤ MetaMaxSize).
Proof.
  split; [|apply EncodeNodeMeta_Ok].
  by intros (_ & ? & _ & ?)%DecodeNodeMeta_Ok.
Qed.
