(* ===== verification/View.v ===== *)
(** * The live gossip view ([internal/membership/view.go])

    memberlist reports joins, updates and leaves; [view] keeps every peer's last
    well-formed metadata and publishes a snapshot of the data nodes, keeping the
    last good one while two peers claim the same node ID or address.

    Go iterates a map in an unspecified order: [range] is any iteration of the
    record map, with the one law that it is a permutation of the entries.  The
    abstract machine [Spec] has no iteration order, no equality short-cuts and no
    generation arithmetic; [view_refines] shows the code implements it. *)

From S2P Require Import Prelude Json NodeMeta.
Local Open Scope Z_scope.

(** ** Data *)

Record Node := MkNode { NodeID : string; Address : string }.

#[export] Instance Node_eq_dec : EqDecision Node.
Proof. solve_decision. Defined.

(** [membership.Snapshot]; a nil [*int] is [None]. *)
Record MemberSnapshot := MkMemberSnapshot {
  ms_Generation : Z;
  ms_Nodes : list Node;
  ms_ReplicationFactor : option Z
}.

Record memberRecord := MkRecord { rec_meta : NodeMeta; rec_raw : bytes }.

Record view := MkView {
  records : gmap string memberRecord;
  current : MemberSnapshot
}.

(** The comparator of the two [sort.Slice] calls on nodes. *)
Definition node_less (a b : Node) : bool :=
  if negb (bool_decide (NodeID a = NodeID b)) then string_ltb (NodeID a) (NodeID b)
  else string_ltb (Address a) (Address b).

Definition node_le (a b : Node) : Prop := node_less b a = false.

#[export] Instance node_le_dec : RelDecision node_le.
Proof. intros a b. unfold node_le. apply _. Defined.

(** Any comparison sort returns this list: the order is total and antisymmetric. *)
Definition sort_nodes (l : list Node) : list Node := merge_sort node_le l.

Fixpoint nodesEqual (a b : list Node) : bool :=
  match a, b with
  | [], [] => true
  | x :: a, y :: b => bool_decide (x = y) && nodesEqual a b
  | _, _ => false
  end.

Definition newView : view := MkView ∅ (MkMemberSnapshot 0 [] None).

(** Fresh storage with the same content. *)
Definition cloneSnapshot (s : MemberSnapshot) : MemberSnapshot :=
  MkMemberSnapshot (ms_Generation s) (ms_Nodes s) (ms_ReplicationFactor s).

Definition view_Snapshot (v : view) : MemberSnapshot := cloneSnapshot (current v).

(** ** Operations *)

(** One record of the candidate loop; [None] is its early return. *)
Definition candidate_step (acc : option (list Node * gset string * gset string))
    (r : memberRecord) : option (list Node * gset string * gset string) :=
  '(nodes, seenIDs, seenAddresses) ← acc;
  if bool_decide (nm_Role (rec_meta r) ≠ RoleData) then acc
  else if bool_decide (nm_NodeID (rec_meta r) ∈ seenIDs) then None
  else if bool_decide (nm_Address (rec_meta r) ∈ seenAddresses) then None
  else Some (nodes ++ [MkNode (nm_NodeID (rec_meta r)) (nm_Address (rec_meta r))],
             {[nm_NodeID (rec_meta r)]} ∪ seenIDs,
             {[nm_Address (rec_meta r)]} ∪ seenAddresses).

Section view.
Context (MetaMaxSize : Z).
Context (range : gmap string memberRecord → list (string * memberRecord)).

Definition publishCandidateLocked (v : view) : view :=
  match foldl candidate_step (Some ([], ∅, ∅)) (snd <$> range (records v)) with
  | None => v
  | Some (nodes, _, _) =>
      let nodes := sort_nodes nodes in
      if nodesEqual (ms_Nodes (current v)) nodes then v
      else MkView (records v)
             (MkMemberSnapshot (u64 (ms_Generation (current v) + 1)) nodes None)
  end.

Definition upsert (v : view) (memberName : string) (raw : bytes) : view * result meta_error () :=
  match DecodeNodeMeta MetaMaxSize raw with
  | Err e => (v, Err e)
  | Ok meta =>
      if bool_decide ((rec_raw <$> records v !! memberName) = Some raw) then (v, Ok ())
      else (publishCandidateLocked
              (MkView (<[memberName := MkRecord meta raw]> (records v)) (current v)), Ok ())
  end.

Definition remove (v : view) (memberName : string) : view :=
  if bool_decide (records v !! memberName = None) then v
  else publishCandidateLocked (MkView (delete memberName (records v)) (current v)).

(** memberlist's callbacks, in the order it delivers them. *)
Inductive event :=
| NotifyJoin (name : string) (raw : bytes)
| NotifyUpdate (name : string) (raw : bytes)
| NotifyLeave (name : string).

Definition eventDelegate (v : view) (e : event) : view :=
  match e with
  | NotifyJoin n raw | NotifyUpdate n raw => (upsert v n raw).1
  | NotifyLeave n => remove v n
  end.

Definition view_run (es : list event) : view := foldl eventDelegate newView es.

(** [aliveDelegate.NotifyAlive]: admission of a peer; a nil node is [None]. *)
Definition NotifyAlive (node : option (string * bytes)) : result (option meta_error) () :=
  match node with
  | None => Err None
  | Some (name, meta) =>
      if bool_decide (name = "") then Err None
      else match DecodeNodeMeta MetaMaxSize meta with
           | Ok _ => Ok ()
           | Err e => Err (Some e)
           end
  end.
End view.

(** ** The abstract machine *)

Module Spec.
(** Which metadata each peer last advertised. *)
Definition advertise (M : Z) (peers : gmap string NodeMeta) (e : event) : gmap string NodeMeta :=
  match e with
  | NotifyJoin n raw | NotifyUpdate n raw =>
      match DecodeNodeMeta M raw with Ok m => <[n := m]> peers | Err _ => peers end
  | NotifyLeave n => delete n peers
  end.

(** The data nodes they advertise, and whether that is a node set. *)
Definition data_nodes (peers : gmap string NodeMeta) : list Node :=
  (fun m => MkNode (nm_NodeID m) (nm_Address m)) <$>
    filter (fun m => nm_Role m = RoleData) (snd <$> map_to_list peers).

Definition unambiguous (peers : gmap string NodeMeta) : Prop :=
  NoDup (NodeID <$> data_nodes peers) ∧ NoDup (Address <$> data_nodes peers).

#[export] Instance unambiguous_dec peers : Decision (unambiguous peers).
Proof. apply _. Defined.

(** The published node set is that of the last unambiguous moment; the
    generation counts its changes. *)
Record state := MkState { peers : gmap string NodeMeta; nodes : list Node; changes : nat }.

Definition initial : state := MkState ∅ [] 0.

Definition step (M : Z) (s : state) (e : event) : state :=
  let p := advertise M (peers s) e in
  if decide (unambiguous p) then
    let ns := sort_nodes (data_nodes p) in
    MkState p ns (if decide (ns = nodes s) then changes s else S (changes s))
  else MkState p (nodes s) (changes s).

Definition run (M : Z) (es : list event) : state := foldl (step M) initial es.
End Spec.

(** ** Lemmas *)

Lemma string_ltb_false a b : string_ltb b a = false ↔ String.le a b.
Proof.
  rewrite <-not_true_iff_false, string_ltb_lt. split; [apply dec_stable|tauto].
Qed.

Lemma node_le_spec a b :
  node_le a b ↔
  (NodeID a = NodeID b ∧ String.le (Address a) (Address b)) ∨
  (NodeID a ≠ NodeID b ∧ String.le (NodeID a) (NodeID b)).
Proof.
  unfold node_le, node_less.
  destruct (bool_decide_reflect (NodeID b = NodeID a)) as [Hid|Hid]; cbn [negb];
    rewrite string_ltb_false; naive_solver.
Qed.

#[export] Instance node_le_order : PartialOrder node_le.
Proof.
  split; [split|].
  - intros a. apply node_le_spec. left. by split.
  - intros a b c. rewrite !node_le_spec.
    intros [[H1 H2]|[H1 H2]] [[H3 H4]|[H3 H4]].
    + left. split; [congruence|by etrans].
    + right. split; congruence.
    + right. split; congruence.
    + right. split; [|by etrans]. intros Heq. apply H1.
      apply (anti_symm String.le); [done|]. by rewrite Heq.
  - intros [i a] [j b]. rewrite !node_le_spec. cbn.
    intros [[H1 H2]|[H1 H2]] [[H3 H4]|[H3 H4]]; try congruence.
    + subst. f_equal. by apply (anti_symm String.le).
    + destruct H1. by apply (anti_symm String.le).
Qed.

#[export] Instance node_le_total : Total node_le.
Proof.
  intros a b. rewrite !node_le_spec. destruct (decide (NodeID a = NodeID b)) as [Hid|Hid].
  - destruct (total String.le (Address a) (Address b)); auto.
  - destruct (total String.le (NodeID a) (NodeID b)); auto 6.
Qed.

Lemma nodesEqual_spec a b : nodesEqual a b = true ↔ a = b.
Proof.
  revert b. induction a as [|x a IH]; intros [|y b]; cbn; try done.
  rewrite andb_true_iff, bool_decide_eq_true, IH. naive_solver.
Qed.

(** The nodes the candidate loop would collect. *)
Definition candidates (rs : list memberRecord) : list Node :=
  (fun r => MkNode (nm_NodeID (rec_meta r)) (nm_Address (rec_meta r))) <$>
    filter (fun r => nm_Role (rec_meta r) = RoleData) rs.

Definition node_set (ns : list Node) : Prop :=
  NoDup (NodeID <$> ns) ∧ NoDup (Address <$> ns).

#[export] Instance node_set_Proper : Proper ((≡ₚ) ==> iff) node_set.
Proof. intros l k Hlk. unfold node_set. by rewrite Hlk. Qed.

Lemma candidate_None rs : foldl candidate_step None rs = None.
Proof. by induction rs. Qed.

Lemma candidate_loop rs ns :
  node_set ns →
  match foldl candidate_step
          (Some (ns, list_to_set (NodeID <$> ns), list_to_set (Address <$> ns))) rs with
  | Some (ns', _, _) => ns' = ns ++ candidates rs ∧ node_set ns'
  | None => ¬ node_set (ns ++ candidates rs)
  end.
Proof.
  revert ns. induction rs as [|r rs IH]; intros ns Hns.
  - cbn. rewrite app_nil_r. done.
  - cbn [foldl candidate_step mbind option_bind]. unfold candidates. rewrite filter_cons.
    destruct (decide (nm_Role (rec_meta r) = RoleData)) as [Hr|Hr].
    2:{ rewrite bool_decide_eq_true_2 by done. by apply IH. }
    rewrite bool_decide_eq_false_2 by tauto. rewrite fmap_cons.
    set (n := MkNode _ _). fold (candidates rs).
    destruct (bool_decide_reflect (nm_NodeID (rec_meta r) ∈ list_to_set (C := gset string) (NodeID <$> ns)))
      as [Hi|Hi]; rewrite elem_of_list_to_set in Hi.
    { rewrite candidate_None. unfold node_set. rewrite fmap_app, NoDup_app, fmap_cons.
      intros [(_ & Hd & _) _]. apply (Hd _ Hi). cbn. set_solver. }
    destruct (bool_decide_reflect (nm_Address (rec_meta r) ∈ list_to_set (C := gset string) (Address <$> ns)))
      as [Ha|Ha]; rewrite elem_of_list_to_set in Ha.
    { rewrite candidate_None. unfold node_set. rewrite !fmap_app, !NoDup_app, !fmap_cons.
      intros [_ (_ & Hd & _)]. apply (Hd _ Ha). cbn. set_solver. }
    replace (ns ++ n :: candidates rs) with ((ns ++ [n]) ++ candidates rs)
      by (by rewrite <-app_assoc).
    replace ({[nm_NodeID (rec_meta r)]} ∪ list_to_set (NodeID <$> ns)) with
      (list_to_set (NodeID <$> ns ++ [n]) : gset string)
      by (apply leibniz_equiv; rewrite fmap_app, list_to_set_app; cbn; set_solver).
    replace ({[nm_Address (rec_meta r)]} ∪ list_to_set (Address <$> ns)) with
      (list_to_set (Address <$> ns ++ [n]) : gset string)
      by (apply leibniz_equiv; rewrite fmap_app, list_to_set_app; cbn; set_solver).
    apply IH. destruct Hns as [H1 H2].
    split; rewrite fmap_app; apply NoDup_app; (split; [done|]); split;
      try apply NoDup_singleton; set_solver.
Qed.

Lemma data_nodes_candidates recs :
  Spec.data_nodes (rec_meta <$> recs) = candidates (snd <$> map_to_list recs).
Proof.
  unfold Spec.data_nodes, candidates. rewrite map_to_list_fmap, <-list_fmap_compose.
  replace (snd ∘ prod_map id rec_meta <$> map_to_list recs) with
    (rec_meta <$> (snd <$> map_to_list recs))
    by (rewrite <-list_fmap_compose; by apply list_fmap_ext).
  rewrite list_filter_fmap, <-list_fmap_compose. done.
Qed.

Section refinement.
Context (M : Z).
Context (range : gmap string memberRecord → list (string * memberRecord)).
Context (range_perm : ∀ m, range m ≡ₚ map_to_list m).

Definition publish_spec (v : view) : view :=
  let peers := rec_meta <$> records v in
  let ns := sort_nodes (Spec.data_nodes peers) in
  if decide (Spec.unambiguous peers) then
    if decide (ns = ms_Nodes (current v)) then v
    else MkView (records v) (MkMemberSnapshot (u64 (ms_Generation (current v) + 1)) ns None)
  else v.

Lemma publish_ok v : publishCandidateLocked range v = publish_spec v.
Proof using range_perm.
  unfold publishCandidateLocked, publish_spec, Spec.unambiguous.
  pose proof (candidate_loop (snd <$> range (records v)) []) as Hl. cbn in Hl.
  assert (candidates (snd <$> range (records v)) ≡ₚ Spec.data_nodes (rec_meta <$> records v)) as Hp.
  { rewrite data_nodes_candidates. unfold candidates. by rewrite range_perm. }
  fold (node_set (Spec.data_nodes (rec_meta <$> records v))).
  destruct (foldl _ _ _) as [[[ns ?] ?]|].
  - destruct Hl as [-> Hns]; [by split; constructor|].
    destruct (decide _) as [|Hn]; [|by rewrite Hp in Hns].
    rewrite (merge_sort_Permutation_eq node_le _ _ Hp : sort_nodes _ = sort_nodes _).
    set (ns := sort_nodes _).
    destruct (nodesEqual (ms_Nodes (current v)) ns) eqn:He.
    + apply nodesEqual_spec in He. by rewrite decide_True.
    + rewrite decide_False; [done|]. intros Heq. symmetry in Heq.
      apply nodesEqual_spec in Heq. congruence.
  - rewrite decide_False; [done|]. rewrite <-Hp. apply Hl. by split; constructor.
Qed.

(** The simulation. *)
Record refines (v : view) (s : Spec.state) : Prop := {
  ref_peers : rec_meta <$> records v = Spec.peers s;
  ref_current : current v = MkMemberSnapshot (u64 (Z.of_nat (Spec.changes s))) (Spec.nodes s) None;
  ref_decoded : ∀ n r, records v !! n = Some r → DecodeNodeMeta M (rec_raw r) = Ok (rec_meta r);
  ref_latest : Spec.unambiguous (Spec.peers s) → Spec.nodes s = sort_nodes (Spec.data_nodes (Spec.peers s))
}.

(** Publishing after the records changed is one abstract step. *)
Lemma publish_refines recs v s e :
  rec_meta <$> recs = Spec.advertise M (Spec.peers s) e →
  (∀ n r, recs !! n = Some r → DecodeNodeMeta M (rec_raw r) = Ok (rec_meta r)) →
  refines v s →
  refines (publishCandidateLocked range (MkView recs (current v))) (Spec.step M s e).
Proof using range_perm.
  intros Hp Hd [_ Hc _ _]. rewrite publish_ok. unfold publish_spec, Spec.step.
  cbn [records current]. rewrite Hp.
  destruct (decide (Spec.unambiguous _)) as [Hu|Hu].
  2:{ by split. }
  rewrite Hc. cbn [ms_Nodes ms_Generation].
  destruct (decide (_ = Spec.nodes s)) as [Heq|Hne].
  - split; cbn; [done| |done|done]. by rewrite Heq.
  - split; cbn; [done| |done|done]. f_equal.
    unfold u64. rewrite Zplus_mod_idemp_l. f_equal. lia.
Qed.

(** A step that leaves the advertised metadata alone changes nothing. *)
Lemma stutter_refines v s e :
  Spec.advertise M (Spec.peers s) e = Spec.peers s → refines v s → refines v (Spec.step M s e).
Proof using Type.
  intros Ha Hr. unfold Spec.step. rewrite Ha. destruct s as [p ns k]. cbn in *.
  destruct (decide _) as [Hu|]; [|done].
  pose proof (ref_latest _ _ Hr Hu) as Hl. cbn in Hl. rewrite <-Hl. by rewrite decide_True.
Qed.

Lemma advertise_refines v s n raw e :
  (∀ p, Spec.advertise M p e =
    match DecodeNodeMeta M raw with Ok m => <[n := m]> p | Err _ => p end) →
  refines v s → refines (upsert M range v n raw).1 (Spec.step M s e).
Proof using range_perm.
  intros He Hr. unfold upsert. destruct (DecodeNodeMeta M raw) as [m|err] eqn:Hdec; cbn [fst].
  2:{ by apply stutter_refines. }
  case_bool_decide as Hsame.
  - apply stutter_refines; [|done]. rewrite He. apply insert_id.
    destruct (records v !! n) as [r|] eqn:Hn; [|done]. cbn in Hsame. injection Hsame as <-.
    rewrite <-(ref_peers _ _ Hr), lookup_fmap, Hn. cbn.
    apply (ref_decoded _ _ Hr) in Hn. congruence.
  - apply publish_refines; [|intros n' r'|done].
    + by rewrite fmap_insert, (ref_peers _ _ Hr), He.
    + rewrite lookup_insert. case_decide.
      * by intros [= <-].
      * apply (ref_decoded _ _ Hr).
Qed.

Lemma step_refines v s e :
  refines v s → refines (eventDelegate M range v e) (Spec.step M s e).
Proof using range_perm.
  intros Hr. destruct e as [n raw|n raw|n]; cbn [eventDelegate].
  1,2: by apply advertise_refines.
  unfold remove. case_bool_decide as Hn.
  - apply stutter_refines; [|done]. cbn. apply delete_id.
    by rewrite <-(ref_peers _ _ Hr), lookup_fmap, Hn.
  - apply publish_refines; [|intros n' r'|done].
    + by rewrite fmap_delete, (ref_peers _ _ Hr).
    + intros [_ Hr']%lookup_delete_Some. by eapply (ref_decoded _ _ Hr).
Qed.

Lemma run_refines es : refines (view_run M range es) (Spec.run M es).
Proof using range_perm.
  induction es as [|e es IH] using rev_ind.
  - split; [apply fmap_empty|done|done|]. intros _. done.
  - unfold view_run, Spec.run. rewrite !foldl_app. by apply step_refines.
Qed.
End refinement.

(** What a data node's metadata was validated for. *)
Definition node_valid (n : Node) : Prop :=
  nodeIDPattern (NodeID n) = true ∧ str_len (NodeID n) ≤ 64 ∧ address_ok (Address n) ∧
  valid_utf8 (bytes_of_string (Address n)) = true.

Definition meta_valid (m : NodeMeta) : Prop :=
  meta_ok m ∧ valid_utf8 (bytes_of_string (nm_Address m)) = true.

(** What every published node set satisfies. *)
Definition published_ok (ns : list Node) : Prop :=
  node_set ns ∧ StronglySorted node_le ns ∧
  Forall node_valid ns.

Lemma published_ok_sort ns :
  node_set ns → Forall node_valid ns →
  published_ok (sort_nodes ns).
Proof.
  intros Hn HF. split; [|split].
  - unfold sort_nodes. by rewrite merge_sort_Permutation.
  - apply merge_sort_StronglySorted; apply _.
  - unfold sort_nodes. by rewrite merge_sort_Permutation.
Qed.

Lemma advertise_valid M p e :
  map_Forall (fun _ => meta_valid) p → map_Forall (fun _ => meta_valid) (Spec.advertise M p e).
Proof.
  intros Hp. destruct e as [n raw|n raw|n]; cbn.
  1,2: destruct (DecodeNodeMeta M raw) as [m|] eqn:Hd; [|done];
    apply map_Forall_insert_2; [|done]; split;
    [by apply DecodeNodeMeta_Ok in Hd as (_ & _ & _ & ?)|by eapply DecodeNodeMeta_utf8].
  intros k m [_ Hk]%lookup_delete_Some. by eapply Hp.
Qed.

Lemma data_nodes_valid p :
  map_Forall (fun _ => meta_valid) p →
  Forall node_valid (Spec.data_nodes p).
Proof.
  intros Hp. apply Forall_forall. unfold Spec.data_nodes.
  intros n (m & -> & [Hr Hm]%list_elem_of_filter)%list_elem_of_fmap.
  apply list_elem_of_fmap in Hm as ([k m'] & -> & Hk%elem_of_map_to_list).
  apply Hp in Hk as [[_ [(Hc & _)|(_ & ? & ? & ?)]] ?]; [|done].
  unfold RoleData in Hr. cbn in Hr. congruence.
Qed.

Lemma spec_run_ok M es :
  published_ok (Spec.nodes (Spec.run M es)) ∧
  map_Forall (fun _ => meta_valid) (Spec.peers (Spec.run M es)).
Proof.
  induction es as [|e es [IH1 IH2]] using rev_ind.
  - split; [|apply map_Forall_empty]. split; [by split; constructor|]. split; constructor.
  - unfold Spec.run. rewrite foldl_app. cbn [foldl]. fold (Spec.run M es). unfold Spec.step.
    pose proof (advertise_valid M _ e IH2) as Hv.
    destruct (decide _) as [Hu|]; cbn; [|done]. split; [|done].
    apply published_ok_sort; [done|]. by apply data_nodes_valid.
Qed.

Lemma published_ok_run M range (Hrange : ∀ m, range m ≡ₚ map_to_list m) es :
  published_ok (ms_Nodes (view_Snapshot (view_run M range es))) ∧
  (Spec.unambiguous (rec_meta <$> records (view_run M range es)) →
   ms_Nodes (view_Snapshot (view_run M range es)) =
     sort_nodes (Spec.data_nodes (rec_meta <$> records (view_run M range es)))).
Proof.
  pose proof (run_refines M range Hrange es) as [Hp Hc _ Hl].
  unfold view_Snapshot. rewrite Hc, Hp. cbn. split; [apply spec_run_ok|done].
Qed.

(** ** Properties *)

(** C5: the gossip view implements its abstract machine, whatever order Go
    iterates the record map in: after any sequence of joins, updates and leaves
    the published nodes are those of the last moment at which the advertised data
    nodes had distinct IDs and addresses, the generation counts (modulo 2^64) the
    times that set changed, and no replication factor is claimed. *)
Theorem view_refines MetaMaxSize range es
  (Hrange : ∀ m, range m ≡ₚ map_to_list m) :
  let s := Spec.run MetaMaxSize es in
  view_Snapshot (view_run MetaMaxSize range es) =
    MkMemberSnapshot (u64 (Z.of_nat (Spec.changes s))) (Spec.nodes s) None.
Proof.
  cbn zeta. pose proof (run_refines MetaMaxSize range Hrange es) as [_ Hc _ _].
  unfold view_Snapshot. by rewrite Hc.
Qed.

Definition example_event (n id addr : string) : event :=
  NotifyJoin n (print (meta_json (MkNodeMeta 1 "data" id addr))).

(** Two nodes join; a third peer claims the first one's address, which freezes
    the view; it leaves and another node joins. *)
Definition example_history : list event :=
  [example_event "a" "node-0" "10.0.0.1:7100"; example_event "b" "node-1" "10.0.0.2:7100";
   example_event "c" "node-2" "10.0.0.1:7100"; NotifyLeave "b"; NotifyLeave "c"].

Lemma view_refines_witness :
  view_Snapshot (view_run 512 map_to_list example_history) =
    MkMemberSnapshot 3 [MkNode "node-0" "10.0.0.1:7100"] None.
Proof.
  rewrite (view_refines 512 map_to_list example_history); [vm_compute; reflexivity|done].
Defined.

(** No sequence of gossip events, malformed or adversarial, makes the view
    publish an invalid snapshot: the nodes are sorted, have distinct validated IDs
    and distinct validated addresses; and whenever the peers' current claims are
    unambiguous the snapshot is exactly the advertised data nodes. *)
Theorem view_snapshot_valid MetaMaxSize range es
  (Hrange : ∀ m, range m ≡ₚ map_to_list m) :
  let v := view_run MetaMaxSize range es in
  published_ok (ms_Nodes (view_Snapshot v)) ∧
  (Spec.unambiguous (rec_meta <$> records v) →
   ms_Nodes (view_Snapshot v) = sort_nodes (Spec.data_nodes (rec_meta <$> records v))).
Proof.
  by apply published_ok_run.
Qed.

Lemma view_snapshot_valid_witness :
  published_ok (ms_Nodes (view_Snapshot (view_run 512 map_to_list example_history))).
Proof. by apply (view_snapshot_valid 512 map_to_list example_history). Defined.
