(* ===== verification/Manager.v ===== *)
(** * The membership manager ([internal/membership/manager.go])

    Configuration checks, start-up and the lifecycle of one memberlist
    participant.  memberlist itself is third-party: its constants, default
    configurations and the outcome of [Create] are parameters, and the outcome of
    each later call is an input of the step that makes it; the step returns the
    calls it made, so that call sequences are explicit. *)

From S2P Require Import Prelude GoStd Json NodeMeta View.
Local Open Scope Z_scope.

(** Durations are nanoseconds ([time.Duration]). *)
Definition second : Z := 1000000000.
Definition DefaultLeaveTimeout : Z := 2 * second.

Record MemberConfig := MkMemberConfig {
  mc_Name : string; mc_Role : string; mc_NodeID : string; mc_NodeAddress : string;
  mc_BindAddr : string; mc_BindPort : Z; mc_AdvertiseAddr : string; mc_AdvertisePort : Z;
  mc_ClusterLabel : string; mc_SecretKey : bytes; mc_Local : bool;
  mc_ProbeInterval : Z; mc_ProbeTimeout : Z; mc_TCPTimeout : Z; mc_GossipInterval : Z;
  mc_PushPullInterval : Z; mc_SuspicionMult : Z; mc_LeaveTimeout : Z
}.

Inductive config_problem :=
| NameEmpty | NameSpaces
| BindAddrEmpty | BindAddrNotIP | BindPortRange
| AdvertiseAddrNotIP | AdvertisePortRange | AdvertisePortMissing | AdvertiseAddrMissing
| LabelEmpty | LabelTooLong | SecretKeySize
| NegativeDuration | NegativeSuspicion | ProbeTimeoutExceedsInterval.

#[export] Instance config_problem_eq_dec : EqDecision config_problem.
Proof. solve_decision. Defined.

(** [if b { problems = append(problems, p) }]. *)
Definition problem_if {A} (b : bool) (p : A) : list A := if b then [p] else [].

(** The fields of [memberlist.Config] the manager sets. *)
Record mlConfig := MkMlConfig {
  ml_Name : string; ml_BindAddr : string; ml_BindPort : Z;
  ml_AdvertiseAddr : string; ml_AdvertisePort : Z; ml_Label : string; ml_SecretKey : bytes;
  ml_Meta : bytes;
  ml_ProbeInterval : Z; ml_ProbeTimeout : Z; ml_TCPTimeout : Z; ml_GossipInterval : Z;
  ml_PushPullInterval : Z; ml_SuspicionMult : Z
}.

Inductive new_error (E : Type) :=
| LocalMeta (e : meta_error) | BadConfig (ps : list config_problem) | CreateFailed (e : E).
Arguments LocalMeta {E} e.
Arguments BadConfig {E} ps.
Arguments CreateFailed {E} e.

(** The lifecycle fields of [Manager]; an error value is [Some]. *)
Record manager (E : Type) := MkManager {
  m_leaveTimeout : Z;
  m_left : bool; m_leaveErr : option E;
  m_closed : bool; m_closeErr : list E
}.
Arguments MkManager {E} _ _ _ _ _.
Arguments m_leaveTimeout {E} _.
Arguments m_left {E} _.
Arguments m_leaveErr {E} _.
Arguments m_closed {E} _.
Arguments m_closeErr {E} _.

Section construction.
Context (MetaMaxSize LabelMaxSize : Z).
Context {E : Type}.
(** [DefaultLocalConfig] or [DefaultLANConfig], and [Create]. *)
Context (defaults : bool → mlConfig) (Create : mlConfig → option E).

Definition validateConfig (cfg : MemberConfig) : list config_problem :=
  (if bool_decide (TrimSpace (mc_Name cfg) = "") then [NameEmpty]
   else problem_if (bool_decide (mc_Name cfg ≠ TrimSpace (mc_Name cfg))) NameSpaces) ++
  (if bool_decide (mc_BindAddr cfg = "") then [BindAddrEmpty]
   else problem_if (bool_decide (ParseIP (mc_BindAddr cfg) = None)) BindAddrNotIP) ++
  problem_if ((mc_BindPort cfg <? 0) || (65535 <? mc_BindPort cfg)) BindPortRange ++
  problem_if (bool_decide (mc_AdvertiseAddr cfg ≠ "") &&
              bool_decide (ParseIP (mc_AdvertiseAddr cfg) = None)) AdvertiseAddrNotIP ++
  problem_if ((mc_AdvertisePort cfg <? 0) || (65535 <? mc_AdvertisePort cfg)) AdvertisePortRange ++
  problem_if (bool_decide (mc_AdvertiseAddr cfg ≠ "") && (mc_AdvertisePort cfg =? 0))
    AdvertisePortMissing ++
  problem_if (bool_decide (mc_AdvertiseAddr cfg = "") && negb (mc_AdvertisePort cfg =? 0))
    AdvertiseAddrMissing ++
  (if bool_decide (mc_ClusterLabel cfg = "") then [LabelEmpty]
   else problem_if (LabelMaxSize <? str_len (mc_ClusterLabel cfg)) LabelTooLong) ++
  problem_if (bool_decide (length (mc_SecretKey cfg) ∉ [0; 16; 24; 32]%nat)) SecretKeySize ++
  problem_if ((mc_ProbeInterval cfg <? 0) || (mc_ProbeTimeout cfg <? 0) ||
              (mc_TCPTimeout cfg <? 0) || (mc_GossipInterval cfg <? 0) ||
              (mc_PushPullInterval cfg <? 0) || (mc_LeaveTimeout cfg <? 0)) NegativeDuration ++
  problem_if (mc_SuspicionMult cfg <? 0) NegativeSuspicion ++
  problem_if ((0 <? mc_ProbeInterval cfg) && (mc_ProbeInterval cfg <? mc_ProbeTimeout cfg))
    ProbeTimeoutExceedsInterval.

Definition local_meta (cfg : MemberConfig) : NodeMeta :=
  if bool_decide (mc_Role cfg = RoleData)
  then MkNodeMeta NodeMetaVersion (mc_Role cfg) (mc_NodeID cfg) (mc_NodeAddress cfg)
  else MkNodeMeta NodeMetaVersion (mc_Role cfg) "" "".

(** [if cfg.X > 0 { base.X = cfg.X }]. *)
Definition override (base cfg : Z) : Z := if 0 <? cfg then cfg else base.

Definition base_config (cfg : MemberConfig) (rawMeta : bytes) : mlConfig :=
  let base := defaults (mc_Local cfg) in
  MkMlConfig (mc_Name cfg) (mc_BindAddr cfg) (mc_BindPort cfg)
    (mc_AdvertiseAddr cfg) (mc_AdvertisePort cfg) (mc_ClusterLabel cfg) (mc_SecretKey cfg)
    rawMeta
    (override (ml_ProbeInterval base) (mc_ProbeInterval cfg))
    (override (ml_ProbeTimeout base) (mc_ProbeTimeout cfg))
    (override (ml_TCPTimeout base) (mc_TCPTimeout cfg))
    (override (ml_GossipInterval base) (mc_GossipInterval cfg))
    (override (ml_PushPullInterval base) (mc_PushPullInterval cfg))
    (override (ml_SuspicionMult base) (mc_SuspicionMult cfg)).

(** [New]: the manager, its view, and the configuration memberlist was created
    with. *)
Definition NewManager (cfg : MemberConfig) : result (new_error E) (manager E * view * mlConfig) :=
  match EncodeNodeMeta MetaMaxSize (local_meta cfg) with
  | Err e => Err (LocalMeta e)
  | Ok rawMeta =>
      match validateConfig cfg with
      | [] =>
          let base := base_config cfg rawMeta in
          match Create base with
          | Some e => Err (CreateFailed e)
          | None =>
              let leaveTimeout :=
                if mc_LeaveTimeout cfg =? 0 then DefaultLeaveTimeout else mc_LeaveTimeout cfg in
              Ok (MkManager leaveTimeout false None false [], newView, base)
          end
      | ps => Err (BadConfig ps)
      end
  end.
End construction.

(** [nodeMetaDelegate.NodeMeta]: what memberlist is given to gossip. *)
Definition delegate_NodeMeta (raw : bytes) (limit : Z) : option bytes :=
  if limit <? Z.of_nat (length raw) then None else Some raw.

(** ** Lifecycle *)

Section lifecycle.
Context {E : Type}.

(** Calls into memberlist. *)
Inductive ml_call := ml_Join (seeds : list string) | ml_Leave (timeout : Z) | ml_Shutdown.

(** A call on the manager, with the outcomes memberlist would report for the
    calls it may make. *)
Inductive mcall :=
| Join (seeds : list string) (outcome : Z * option E)
| Leave (timeout : Z) (outcome : option E)
| Close (leave_outcome shutdown_outcome : option E)
| Shutdown (outcome : option E).

Inductive mresult :=
| ErrClosed | ErrLeft
| Joined (n : Z) (err : option E)
| Returned (errs : list E).

Definition errs (e : option E) : list E := match e with Some e => [e] | None => [] end.

Definition leaveLocked (m : manager E) (timeout : Z) (outcome : option E)
    : manager E * option E * list ml_call :=
  if m_left m then (m, m_leaveErr m, [])
  else
    let timeout := if timeout <=? 0 then m_leaveTimeout m else timeout in
    (MkManager (m_leaveTimeout m) true outcome (m_closed m) (m_closeErr m), outcome,
     [ml_Leave timeout]).

Definition manager_step (m : manager E) (c : mcall) : manager E * mresult * list ml_call :=
  match c with
  | Join seeds (n, err) =>
      if m_closed m then (m, ErrClosed, [])
      else if m_left m then (m, ErrLeft, [])
      else (m, Joined n err, [ml_Join seeds])
  | Leave timeout outcome =>
      if m_closed m then (m, ErrClosed, [])
      else let '(m, e, calls) := leaveLocked m timeout outcome in (m, Returned (errs e), calls)
  | Close leave_outcome shutdown_outcome =>
      if m_closed m then (m, Returned (m_closeErr m), [])
      else
        let '(m, leaveErr, calls) := leaveLocked m (m_leaveTimeout m) leave_outcome in
        let joined := errs leaveErr ++ errs shutdown_outcome in
        (MkManager (m_leaveTimeout m) (m_left m) (m_leaveErr m) true joined,
         Returned joined, calls ++ [ml_Shutdown])
  | Shutdown outcome =>
      if m_closed m then (m, Returned (m_closeErr m), [])
      else (MkManager (m_leaveTimeout m) (m_left m) (m_leaveErr m) true (errs outcome),
            Returned (errs outcome), [ml_Shutdown])
  end.

Fixpoint manager_run (m : manager E) (cs : list mcall)
    : manager E * list mresult * list ml_call :=
  match cs with
  | [] => (m, [], [])
  | c :: cs =>
      let '(m, r, calls) := manager_step m c in
      let '(m, rs, calls') := manager_run m cs in (m, r :: rs, calls ++ calls')
  end.

(** ** The protocol memberlist is used under *)

Definition is_join (c : ml_call) : Prop := match c with ml_Join _ => True | _ => False end.
Definition is_leave (c : ml_call) : Prop := match c with ml_Leave _ => True | _ => False end.

(** Joins, then at most one leave, then at most one shutdown, from the manager's
    current phase. *)
Definition protocol (left closed : bool) (calls : list ml_call) : Prop :=
  ∃ js ls ss, calls = js ++ ls ++ ss ∧
    Forall is_join js ∧ Forall is_leave ls ∧ Forall (.= ml_Shutdown) ss ∧
    (length ls ≤ if left || closed then 0 else 1)%nat ∧
    (length ss ≤ if closed then 0 else 1)%nat ∧
    (left || closed = true → js = []).

Lemma protocol_nil l c : protocol l c [].
Proof. exists [], [], []. split_and!; try constructor; try done; destruct l, c; cbn; lia. Qed.

Lemma protocol_closed l calls : protocol l true calls → calls = [].
Proof.
  unfold protocol. rewrite orb_true_r. intros (js & ls & ss & -> & _ & _ & _ & Hl & Hs & Hj).
  rewrite Hj by done. destruct ls, ss; cbn in *; try done; lia.
Qed.

Lemma manager_run_closed m cs :
  m_closed m = true → (manager_run m cs).2 = [] ∧ (manager_run m cs).1.1 = m.
Proof.
  intros Hc. induction cs as [|c cs IH]; [done|]. cbn.
  destruct c as [? []|?|?|?]; cbn; rewrite Hc; destruct (manager_run m cs) as [[? ?] ?];
    cbn in *; by destruct IH as [-> ->].
Qed.

Lemma manager_run_left m cs :
  m_left m = true → m_closed m = false →
  Forall (.= ml_Shutdown) (manager_run m cs).2 ∧ (length (manager_run m cs).2 ≤ 1)%nat.
Proof.
  revert m. induction cs as [|c cs IH]; intros m Hl Hc; [split; [constructor|cbn; lia]|].
  destruct c as [? []|?|?|?]; cbn; unfold leaveLocked; rewrite ?Hc, ?Hl; cbn.
  1,2: specialize (IH m Hl Hc); by destruct (manager_run m cs) as [[? ?] ?].
  all: pose proof (manager_run_closed (MkManager (m_leaveTimeout m) true (m_leaveErr m) true
         (errs (m_leaveErr m) ++ errs shutdown_outcome)) cs eq_refl) as [Hn _] ||
       pose proof (manager_run_closed (MkManager (m_leaveTimeout m) true (m_leaveErr m) true
         (errs outcome)) cs eq_refl) as [Hn _];
    destruct (manager_run _ cs) as [[? ?] ?]; cbn in *; subst; split; [by constructor|cbn; lia].
Qed.
End lifecycle.

(** ** Properties *)

(** Memberlist is only ever driven through its protocol: whatever sequence of
    [Join], [Leave], [Close] and [Shutdown] callers make, and whatever memberlist
    answers, it sees joins, then at most one leave, then at most one shutdown, and
    nothing after it. *)
Theorem manager_protocol {E} (m : manager E) cs
  (Hopen : m_left m = false ∧ m_closed m = false) :
  protocol false false (manager_run m cs).2.
Proof.
  revert m Hopen. induction cs as [|c cs IH]; intros m [Hl Hc]; [apply protocol_nil|].
  destruct c as [seeds [n err]|timeout o|o1 o2|o]; cbn; unfold leaveLocked; rewrite Hc, ?Hl; cbn.
  - destruct (IH m) as (js & ls & ss & Heq & H); [done|].
    destruct (manager_run m cs) as [[? ?] ?]. cbn in *. subst.
    exists (ml_Join seeds :: js), ls, ss. destruct H as (? & ? & ? & ? & ? & _).
    split_and!; try done. by constructor.
  - pose proof (manager_run_left (MkManager (m_leaveTimeout m) true o false (m_closeErr m)) cs
                  eq_refl eq_refl) as [HF Hlen].
    destruct (manager_run _ cs) as [[? ?] calls]. cbn in *.
    eexists [], [_], calls. split_and!; [reflexivity|constructor|by repeat constructor|done|done|done|done].
  - pose proof (manager_run_closed (MkManager (m_leaveTimeout m) true o1 true (errs o1 ++ errs o2))
                  cs eq_refl) as [Hn _].
    destruct (manager_run _ cs) as [[? ?] calls]. cbn in *. subst.
    eexists [], [_], [_].
    split_and!; [reflexivity|constructor|by repeat constructor|by repeat constructor|done|done|done].
  - pose proof (manager_run_closed (MkManager (m_leaveTimeout m) (m_left m) (m_leaveErr m) true
                  (errs o)) cs eq_refl) as [Hn _]. rewrite Hl in Hn.
    destruct (manager_run _ cs) as [[? ?] calls]. cbn in *. subst.
    eexists [], [], [_].
    split_and!; [reflexivity|constructor|constructor|by repeat constructor|cbn; lia|done|done].
Qed.

Definition open_manager : manager unit := MkManager second false None false [].

Lemma manager_protocol_witness :
  protocol false false
    (manager_run open_manager
       [Join ["10.0.0.1:7946"] (1, None); Leave 0 None; Leave 5 None; Close None (Some ())]).2.
Proof. apply (manager_protocol open_manager). split; reflexivity. Defined.

(** A started manager advertises the identity it was configured with: the
    metadata memberlist is handed decodes, at any peer, to the configured role and
    (for a data node) its node ID and service address, and is never truncated
    away by memberlist's limit. *)
Theorem NewManager_advertises {E} MetaMaxSize LabelMaxSize defaults (Create : mlConfig → option E)
    cfg m v base limit
  (Hnew : NewManager MetaMaxSize LabelMaxSize defaults Create cfg = Ok (m, v, base))
  (Hutf : valid_utf8 (bytes_of_string (mc_NodeAddress cfg)) = true)
  (Hlimit : MetaMaxSize ≤ limit) :
  m_left m = false ∧ m_closed m = false ∧ v = newView ∧
  ∃ raw, delegate_NodeMeta (ml_Meta base) limit = Some raw ∧
         DecodeNodeMeta MetaMaxSize raw = Ok (local_meta cfg).
Proof.
  unfold NewManager in Hnew. destruct (EncodeNodeMeta _ _) as [raw|] eqn:Henc; [|done].
  destruct (validateConfig _ _); [|done]. destruct (Create _); [done|].
  injection Hnew as <- <- <-. split_and!; try done. exists raw.
  pose proof Henc as (_ & _ & Hlen)%EncodeNodeMeta_Ok. unfold delegate_NodeMeta. cbn [ml_Meta base_config].
  rewrite (proj2 (Z.ltb_ge limit (Z.of_nat (length raw)))) by lia. split; [done|].
  apply (Encode_Decode MetaMaxSize (local_meta cfg)); [done|].
  unfold local_meta. by case_bool_decide.
Qed.

Definition example_ml : mlConfig := MkMlConfig "" "" 0 "" 0 "" [] [] 1 1 1 1 1 4.
Definition example_member : MemberConfig :=
  MkMemberConfig "node-0" "data" "node-0" "10.0.0.1:7100" "10.0.0.1" 7201 "" 0 "pulsekv-v2" [] true
    0 0 0 0 0 0 0.

Lemma NewManager_advertises_witness :
  ∃ m v base raw,
    NewManager (E := unit) 512 255 (fun _ => example_ml) (fun _ => None) example_member = Ok (m, v, base) ∧
    DecodeNodeMeta 512 raw = Ok (local_meta example_member).
Proof.
  destruct (NewManager (E := unit) 512 255 (fun _ => example_ml) (fun _ => None) example_member)
    as [[[m v] base]|] eqn:Hnew.
  2:{ exfalso. vm_compute in Hnew. discriminate. }
  destruct (NewManager_advertises 512 255 (fun _ => example_ml) (fun _ => None) example_member
              m v base 512 Hnew) as (_ & _ & _ & raw & _ & Hraw); [reflexivity|lia|].
  exists m, v, base, raw. split; [reflexivity|exact Hraw].
Defined.
