(* ===== verification/Fsm.v ===== *)
(** * The replicated state machine ([internal/metastore/state.go], [fsm.go])

    The Raft log carries the live node set and the replication factor as JSON
    commands; [fsm] applies them, stamps the generation with the index of the
    entry that last changed the content, and snapshots to and restores from JSON.
    The mutex makes each operation atomic, so an operation is one function on the
    state.  hashicorp/raft is third-party: what it promises (entries of one
    committed log, in increasing index order) appears as hypotheses on the
    sequences of entries. *)

From S2P Require Import Prelude GoStd Json NodeMeta View.
Local Open Scope Z_scope.

Definition stateVersion : Z := 1.

Record State := MkState {
  st_Nodes : list Node;
  st_ReplicationFactor : Z;
  st_Generation : Z
}.

#[export] Instance State_eq_dec : EqDecision State.
Proof. solve_decision. Defined.

Definition zero_state : State := MkState [] 0 0.

(** Deep copies have the same content. *)
Definition State_Clone (s : State) : State :=
  MkState (st_Nodes s) (st_ReplicationFactor s) (st_Generation s).

Definition State_Snapshot (s : State) : MemberSnapshot :=
  MkMemberSnapshot (st_Generation s) (st_Nodes s) (Some (st_ReplicationFactor s)).

Definition SameContent (s other : State) : bool :=
  if negb (st_ReplicationFactor s =? st_ReplicationFactor other) ||
     negb (bool_decide (length (st_Nodes s) = length (st_Nodes other))) then false
  else nodesEqual (st_Nodes s) (st_Nodes other).

Definition normalizeNodes (nodes : list Node) : list Node := sort_nodes nodes.

(** ** JSON shapes *)

Definition zero_node : Node := MkNode "" "".

Definition node_json (n : Node) : json :=
  JObj [(name "NodeID", JStr (bytes_of_string (NodeID n)));
        (name "Address", JStr (bytes_of_string (Address n)))].

Definition node_fields : list (field Node) :=
  [("NodeID", set_string (fun v n => MkNode v (Address n)));
   ("Address", set_string (fun v n => MkNode (NodeID n) v))]%string.

(** A nil slice is [null]; the code only marshals slices that are nil when empty. *)
Definition nodes_json (ns : list Node) : json :=
  match ns with [] => JNull | _ => JArr (map node_json ns) end.

Record command := MkCommand {
  cmd_Version : Z; cmd_Nodes : slice Node; cmd_ReplicationFactor : Z
}.
Definition zero_command : command := MkCommand 0 nil_slice 0.

Definition command_fields : list (field command) :=
  [("version", set_int (fun v c => MkCommand v (cmd_Nodes c) (cmd_ReplicationFactor c)));
   ("nodes", set_slice zero_node (decode_struct node_fields) cmd_Nodes
      (fun v c => MkCommand (cmd_Version c) v (cmd_ReplicationFactor c)));
   ("replication_factor", set_int (fun v c => MkCommand (cmd_Version c) (cmd_Nodes c) v))]%string.

Definition command_json (s : State) : json :=
  JObj [(name "version", JNum (Itoa_bytes stateVersion));
        (name "nodes", nodes_json (normalizeNodes (st_Nodes s)));
        (name "replication_factor", JNum (Itoa_bytes (st_ReplicationFactor s)))].

Definition encodeCommand (s : State) : bytes := print (command_json s).

Inductive command_error :=
| CommandSyntax | CommandVersion (v : Z) | CommandEmptyNode | CommandNegativeFactor (rf : Z).

Definition empty_node (n : Node) : bool :=
  bool_decide (NodeID n = "") || bool_decide (Address n = "").

Definition decodeCommand (raw : bytes) : result command_error command :=
  match parse raw ≫= (fun v => decode_struct command_fields v zero_command) with
  | None => Err CommandSyntax
  | Some cmd =>
      if negb (cmd_Version cmd =? stateVersion) then Err (CommandVersion (cmd_Version cmd))
      else if existsb empty_node (slice_list (cmd_Nodes cmd)) then Err CommandEmptyNode
      else if cmd_ReplicationFactor cmd <? 0 then Err (CommandNegativeFactor (cmd_ReplicationFactor cmd))
      else Ok cmd
  end.

(** ** The FSM *)

Record fsm := MkFsm { f_state : State; f_applied : Z }.

Definition newFSM : fsm := MkFsm zero_state 0.

Definition fsm_State (f : fsm) : State := State_Clone (f_state f).
Definition fsm_AppliedIndex (f : fsm) : Z := f_applied f.

Definition noteApplied (f : fsm) (index : Z) : fsm :=
  if f_applied f <? index then MkFsm (f_state f) index else f.

Record raft_Log := MkLog { log_Index : Z; log_Data : bytes }.

Inductive apply_error := ApplyError (index : Z) (e : command_error).

Definition Apply (f : fsm) (entry : raft_Log) : fsm * result apply_error State :=
  match decodeCommand (log_Data entry) with
  | Err e => (noteApplied f (log_Index entry), Err (ApplyError (log_Index entry) e))
  | Ok cmd =>
      let next := MkState (normalizeNodes (slice_list (cmd_Nodes cmd))) (cmd_ReplicationFactor cmd) 0 in
      let applied := if f_applied f <? log_Index entry then log_Index entry else f_applied f in
      if SameContent (f_state f) next then (MkFsm (f_state f) applied, Ok (State_Clone (f_state f)))
      else
        let next := MkState (st_Nodes next) (st_ReplicationFactor next) (log_Index entry) in
        (MkFsm next applied, Ok (State_Clone next))
  end.

Definition apply_log (f : fsm) (log : list raft_Log) : fsm :=
  foldl (fun f e => (Apply f e).1) f log.

(** ** Snapshots *)

Record persistedState := MkPersisted {
  ps_Version : Z; ps_Nodes : slice Node; ps_ReplicationFactor : Z;
  ps_Generation : Z; ps_AppliedIndex : Z
}.
Definition zero_persisted : persistedState := MkPersisted 0 nil_slice 0 0 0.

Record fsmSnapshot := MkFsmSnapshot { snap_state : State; snap_applied : Z }.

Definition fsm_Snapshot (f : fsm) : fsmSnapshot :=
  MkFsmSnapshot (State_Clone (f_state f)) (f_applied f).

(** [applied_index] is omitted when zero. *)
Definition persisted_json (s : fsmSnapshot) : json :=
  JObj ([(name "version", JNum (Itoa_bytes stateVersion));
         (name "nodes", nodes_json (st_Nodes (snap_state s)));
         (name "replication_factor", JNum (Itoa_bytes (st_ReplicationFactor (snap_state s))));
         (name "generation", JNum (Itoa_bytes (st_Generation (snap_state s))))] ++
        if snap_applied s =? 0 then []
        else [(name "applied_index", JNum (Itoa_bytes (snap_applied s)))]).

(** [Persist], against a sink that reports the outcome of [Write] and [Close]. *)
Inductive persist_error (E : Type) := WriteFailed (e : E) | CloseFailed (e : E).
Arguments WriteFailed {E} e.
Arguments CloseFailed {E} e.

Record sink_result (E : Type) := MkSinkResult {
  sink_written : option bytes; sink_cancelled : bool; sink_error : option (persist_error E)
}.
Arguments MkSinkResult {E} _ _ _.
Arguments sink_written {E} _.
Arguments sink_cancelled {E} _.
Arguments sink_error {E} _.

Definition Persist {E} (s : fsmSnapshot) (write close : option E) : sink_result E :=
  match write with
  | Some e => MkSinkResult None true (Some (WriteFailed e))
  | None => MkSinkResult (Some (print (persisted_json s))) false (CloseFailed <$> close)
  end.

Definition max_u64 : Z := 2 ^ 64 - 1.

Definition persisted_fields : list (field persistedState) :=
  [("version", set_int (fun v p => MkPersisted v (ps_Nodes p) (ps_ReplicationFactor p)
      (ps_Generation p) (ps_AppliedIndex p)));
   ("nodes", set_slice zero_node (decode_struct node_fields) ps_Nodes
      (fun v p => MkPersisted (ps_Version p) v (ps_ReplicationFactor p)
      (ps_Generation p) (ps_AppliedIndex p)));
   ("replication_factor", set_int (fun v p => MkPersisted (ps_Version p) (ps_Nodes p) v
      (ps_Generation p) (ps_AppliedIndex p)));
   ("generation", set_uint max_u64 (fun v p => MkPersisted (ps_Version p) (ps_Nodes p)
      (ps_ReplicationFactor p) v (ps_AppliedIndex p)));
   ("applied_index", set_uint max_u64 (fun v p => MkPersisted (ps_Version p) (ps_Nodes p)
      (ps_ReplicationFactor p) (ps_Generation p) v))]%string.

Inductive restore_error :=
| RestoreSyntax | RestoreVersion (v : Z) | RestoreNegativeFactor (rf : Z) | RestoreEmptyNode.

(** The old state is replaced, never merged; on an error it is kept. *)
Definition Restore (f : fsm) (reader : bytes) : fsm * option restore_error :=
  match parse_prefix reader ≫= (fun vk => decode_struct persisted_fields vk.1 zero_persisted) with
  | None => (f, Some RestoreSyntax)
  | Some p =>
      if negb (ps_Version p =? stateVersion) then (f, Some (RestoreVersion (ps_Version p)))
      else if ps_ReplicationFactor p <? 0
      then (f, Some (RestoreNegativeFactor (ps_ReplicationFactor p)))
      else if existsb empty_node (slice_list (ps_Nodes p)) then (f, Some RestoreEmptyNode)
      else
        (MkFsm (MkState (normalizeNodes (slice_list (ps_Nodes p))) (ps_ReplicationFactor p)
                  (ps_Generation p))
               (if ps_AppliedIndex p <? ps_Generation p then ps_Generation p else ps_AppliedIndex p),
         None)
  end.

Example fsm_example :
  let cmd := encodeCommand (MkState [MkNode "b" "h:2"; MkNode "a" "h:1"] 1 0) in
  let f := apply_log newFSM [MkLog 3 cmd; MkLog 4 [x7b]; MkLog 5 cmd] in
  f = MkFsm (MkState [MkNode "a" "h:1"; MkNode "b" "h:2"] 1 3) 5 ∧
  Restore newFSM (print (persisted_json (fsm_Snapshot f))) = (f, None).
Proof. by vm_compute. Qed.

(** ** Lemmas *)

Definition same_content (s t : State) : Prop :=
  st_Nodes s = st_Nodes t ∧ st_ReplicationFactor s = st_ReplicationFactor t.

Lemma SameContent_spec s t : SameContent s t = true ↔ same_content s t.
Proof.
  unfold SameContent, same_content.
  destruct (Z.eqb_spec (st_ReplicationFactor s) (st_ReplicationFactor t)); cbn [negb orb];
    [|split; [done|by intros [_ ?]]].
  case_bool_decide as Hl; cbn [negb].
  - rewrite nodesEqual_spec. split; [done|by intros [? _]].
  - split; [done|]. intros [Hn _]. destruct Hl. by rewrite Hn.
Qed.

(** Nodes as they come out of a decoder. *)
Definition wire_node (n : Node) : Prop :=
  valid_utf8 (bytes_of_string (NodeID n)) = true ∧ valid_utf8 (bytes_of_string (Address n)) = true.
Definition full_node (n : Node) : Prop := NodeID n ≠ "" ∧ Address n ≠ "".

Lemma empty_node_spec ns : existsb empty_node ns = false ↔ Forall full_node ns.
Proof.
  rewrite Forall_forall, <-not_true_iff_false, existsb_exists. unfold empty_node, full_node.
  split.
  - intros H n Hn. split; intros He; apply H; exists n; (split; [by apply list_elem_of_In|]);
      rewrite He; by rewrite ?orb_true_r.
  - intros H (n & Hn & He). apply list_elem_of_In, H in Hn as [? ?].
    rewrite !bool_decide_eq_false_2 in He by done. done.
Qed.

Definition sanitize_node (n : Node) : Node :=
  MkNode (sanitize_string (NodeID n)) (sanitize_string (Address n)).

Lemma sanitize_node_wire n : wire_node n → sanitize_node n = n.
Proof. intros [? ?]. unfold sanitize_node. rewrite !sanitize_string_valid by done. by destruct n. Qed.

Lemma sanitize_nodes_wire ns : Forall wire_node ns → sanitize_node <$> ns = ns.
Proof. induction 1 as [|n ns Hn _ IH]; [done|]. by rewrite fmap_cons, IH, sanitize_node_wire. Qed.

Lemma node_json_ok d n : json_ok d (node_json n) = (d <? max_depth).
Proof. unfold node_json. cbn. by rewrite andb_true_r. Qed.

Lemma nodes_json_ok d ns : d + 1 < max_depth → json_ok d (nodes_json ns) = true.
Proof.
  intros Hd. destruct ns as [|n ns]; [done|]. unfold nodes_json. cbn [json_ok].
  apply andb_true_iff. split; [apply Z.ltb_lt; lia|].
  apply forallb_forall. intros v (m & <- & _)%in_map_iff.
  rewrite node_json_ok. by apply Z.ltb_lt.
Qed.

Lemma decode_node_json n :
  decode_struct node_fields (sanitize_json (node_json n)) zero_node = Some (sanitize_node n).
Proof. reflexivity. Qed.

(** Reading a marshalled node list into a zero-valued field. *)
Lemma set_nodes_json {S} (get : S → slice Node) (set : slice Node → S → S) s ns :
  get s = nil_slice →
  set_slice zero_node (decode_struct node_fields) get set (sanitize_json (nodes_json ns)) s =
    Some (set (MkSlice (sanitize_node <$> ns) (length ns)) s).
Proof.
  intros Hg. destruct ns as [|n ns]; [done|].
  unfold nodes_json. cbn [sanitize_json]. rewrite map_map.
  rewrite (set_slice_zero _ _ _ _ _ _ (sanitize_node <$> n :: ns)); [by rewrite length_map| |done].
  induction (n :: ns) as [|m ms IH]; [done|]. cbn [map mapM].
  rewrite decode_node_json. cbn [mbind option_bind]. rewrite IH. done.
Qed.

Lemma slice_list_full {A} (l : list A) n : n = length l → slice_list (MkSlice l n) = l.
Proof. intros ->. apply firstn_all. Qed.

(** ** Commands *)

Lemma decode_command_json s :
  in_i64 (st_ReplicationFactor s) →
  (parse (encodeCommand s) ≫= fun v => decode_struct command_fields v zero_command) =
    Some (MkCommand 1 (MkSlice (sanitize_node <$> normalizeNodes (st_Nodes s))
                         (length (normalizeNodes (st_Nodes s)))) (st_ReplicationFactor s)).
Proof.
  intros Hrf. unfold encodeCommand. rewrite parse_print.
  2:{ unfold command_json. cbn [json_ok forallb snd]. rewrite !num_ok_Itoa, nodes_json_ok by done.
      done. }
  unfold command_json. cbn [mbind option_bind sanitize_json map fst snd].
  unfold decode_struct, set_members. cbn [foldl fst snd mbind option_bind].
  change (find_field command_fields (sanitize (name "nodes"))) with
    (Some (set_slice zero_node (decode_struct node_fields) cmd_Nodes
      (fun v c => MkCommand (cmd_Version c) v (cmd_ReplicationFactor c)))).
  change (find_field command_fields (sanitize (name "version"))) with
    (Some (set_int (fun v c => MkCommand v (cmd_Nodes c) (cmd_ReplicationFactor c)))).
  cbn iota.
  replace (set_int _ (JNum (Itoa_bytes stateVersion)) zero_command)
    with (Some (MkCommand 1 nil_slice 0)) by reflexivity.
  cbn [mbind option_bind]. rewrite set_nodes_json by done. cbn [mbind option_bind].
  change (find_field command_fields (sanitize (name "replication_factor"))) with
    (Some (set_int (fun v c => MkCommand (cmd_Version c) (cmd_Nodes c) v))).
  unfold set_int. rewrite ParseInt_Itoa by done. reflexivity.
Qed.

(** What the FSM needs of a proposal for it to be installed as proposed. *)
Definition proposable (s : State) : Prop :=
  Forall full_node (st_Nodes s) ∧ Forall wire_node (st_Nodes s) ∧
  0 ≤ st_ReplicationFactor s ≤ maxInt64.

Lemma decodeCommand_encodeCommand s :
  proposable s →
  ∃ cmd, decodeCommand (encodeCommand s) = Ok cmd ∧
    slice_list (cmd_Nodes cmd) = normalizeNodes (st_Nodes s) ∧
    cmd_ReplicationFactor cmd = st_ReplicationFactor s.
Proof.
  intros (Hfull & Hwire & Hrf). unfold decodeCommand.
  rewrite decode_command_json by (unfold in_i64, maxInt64 in *; lia).
  assert (Forall wire_node (normalizeNodes (st_Nodes s)) ∧ Forall full_node (normalizeNodes (st_Nodes s)))
    as [Hw Hf].
  { unfold normalizeNodes, sort_nodes. by rewrite merge_sort_Permutation. }
  rewrite sanitize_nodes_wire by done. cbn [cmd_Version cmd_Nodes cmd_ReplicationFactor Z.eqb negb].
  change (1 =? stateVersion) with true. cbn [negb].
  rewrite slice_list_full by done. rewrite (proj2 (empty_node_spec _)) by done.
  rewrite (proj2 (Z.ltb_ge _ _)) by lia. eexists. split; [done|].
  split; [by apply slice_list_full|done].
Qed.

Lemma node_fields_keep : setter_keeps wire_node (decode_struct node_fields).
Proof.
  apply decode_struct_keeps. unfold node_fields. rewrite !Forall_cons, Forall_nil.
  split_and!; [| |done]; apply set_string_keeps; intros ? ? ? []; by split.
Qed.

(** What any decoded command satisfies. *)
Lemma decodeCommand_Ok raw cmd :
  decodeCommand raw = Ok cmd →
  Forall full_node (slice_list (cmd_Nodes cmd)) ∧ Forall wire_node (slice_list (cmd_Nodes cmd)) ∧
  0 ≤ cmd_ReplicationFactor cmd ≤ maxInt64.
Proof.
  unfold decodeCommand.
  destruct (parse raw ≫= _) as [c|] eqn:Hc; [|done].
  destruct (cmd_Version c =? stateVersion); cbn [negb]; [|done].
  destruct (existsb empty_node _) eqn:He; [done|].
  destruct (Z.ltb_spec (cmd_ReplicationFactor c) 0); [done|]. intros [= <-].
  apply bind_Some in Hc as (v & Hv%parse_utf8 & Hc).
  assert (Forall wire_node (backing (cmd_Nodes c)) ∧ in_i64 (cmd_ReplicationFactor c)) as [Hw Hi].
  { revert Hc. apply (decode_struct_keeps
      (fun c => Forall wire_node (backing (cmd_Nodes c)) ∧ in_i64 (cmd_ReplicationFactor c)));
      [|done|by split; [constructor|]].
    unfold command_fields. rewrite !Forall_cons, Forall_nil. split_and!; [| | |done].
    - by apply set_int_keeps.
    - apply (set_slice_keeps _ wire_node); [apply node_fields_keep|done|by intros ? []|by intros ? ? ? []].
    - apply set_int_keeps. by intros ? ? ? []. }
  split; [by apply empty_node_spec|]. split; [|unfold in_i64, maxInt64 in *; lia].
  unfold slice_list. by apply Forall_take.
Qed.

(** ** The state machine *)

Record fsm_ok (f : fsm) : Prop := {
  fok_full : Forall full_node (st_Nodes (f_state f));
  fok_wire : Forall wire_node (st_Nodes (f_state f));
  fok_sorted : normalizeNodes (st_Nodes (f_state f)) = st_Nodes (f_state f);
  fok_factor : 0 ≤ st_ReplicationFactor (f_state f) ≤ maxInt64;
  fok_generation : 0 ≤ st_Generation (f_state f) ≤ f_applied f;
  fok_applied : in_u64 (f_applied f)
}.

Lemma normalizeNodes_idemp ns : normalizeNodes (normalizeNodes ns) = normalizeNodes ns.
Proof.
  apply (merge_sort_sorted_id node_le). apply merge_sort_StronglySorted; apply _.
Qed.

Lemma newFSM_ok : fsm_ok newFSM.
Proof. split; cbn; try constructor; unfold maxInt64, in_u64; lia. Qed.

(** The two ways an entry can act, and how far the FSM has read. *)
Lemma Apply_cases f e :
  f_applied (Apply f e).1 = Z.max (f_applied f) (log_Index e) ∧
  (f_state (Apply f e).1 = f_state f ∨
   ∃ cmd, decodeCommand (log_Data e) = Ok cmd ∧
     f_state (Apply f e).1 =
       MkState (normalizeNodes (slice_list (cmd_Nodes cmd))) (cmd_ReplicationFactor cmd) (log_Index e)).
Proof.
  unfold Apply, noteApplied. destruct (decodeCommand (log_Data e)) as [cmd|err].
  - destruct (SameContent _ _); cbn; (split; [case_bool; lia|]); [by left|right; eauto].
  - cbn. destruct (Z.ltb_spec (f_applied f) (log_Index e)); cbn; (split; [lia|by left]).
Qed.

Lemma Apply_ok f e : fsm_ok f → in_u64 (log_Index e) → fsm_ok (Apply f e).1.
Proof.
  intros Hf He. destruct (Apply_cases f e) as [Ha Hs]. unfold in_u64 in *.
  destruct Hf as [H1 H2 H3 H4 H5 H6]. unfold in_u64 in H6.
  destruct Hs as [Hs|(cmd & (Hfull & Hwire & Hrf)%decodeCommand_Ok & Hs)]; split; rewrite ?Ha, ?Hs; cbn;
    unfold in_u64; try done; try lia.
  - unfold normalizeNodes, sort_nodes. by rewrite merge_sort_Permutation.
  - unfold normalizeNodes, sort_nodes. by rewrite merge_sort_Permutation.
  - apply normalizeNodes_idemp.
Qed.

Lemma Apply_encodeCommand f s index :
  proposable s →
  ∃ f', Apply f (MkLog index (encodeCommand s)) = (f', Ok (State_Clone (f_state f'))) ∧
    st_Nodes (f_state f') = normalizeNodes (st_Nodes s) ∧
    st_ReplicationFactor (f_state f') = st_ReplicationFactor s ∧
    st_Generation (f_state f') = if decide (same_content (f_state f) (f_state f'))
                                 then st_Generation (f_state f) else index.
Proof.
  intros Hs. destruct (decodeCommand_encodeCommand s Hs) as (cmd & Hc & Hn & Hrf).
  unfold Apply. cbn [log_Data log_Index]. rewrite Hc, Hn, Hrf, normalizeNodes_idemp.
  destruct (SameContent _ _) eqn:Hsame; eexists (MkFsm _ _); (split; [reflexivity|]).
  - apply SameContent_spec in Hsame as [? ?]. cbn in *. split_and!; try done.
    by rewrite decide_True by done.
  - cbn. split_and!; try done. rewrite decide_False; [done|].
    intros Hc'. apply not_true_iff_false in Hsame. apply Hsame, SameContent_spec, Hc'.
Qed.

Lemma apply_log_app f l k : apply_log f (l ++ k) = apply_log (apply_log f l) k.
Proof. apply foldl_app. Qed.

Lemma apply_log_ok f log :
  fsm_ok f → Forall (fun e => in_u64 (log_Index e)) log → fsm_ok (apply_log f log).
Proof.
  intros Hf HF. revert f Hf. induction HF as [|e log He _ IH]; intros f Hf; [done|].
  cbn. apply IH, Apply_ok; done.
Qed.

(** Along a log the generation is the old one, with the state unchanged, or the
    index of an entry. *)
Lemma apply_log_generation f log :
  f_state (apply_log f log) = f_state f ∨
  st_Generation (f_state (apply_log f log)) ∈ log_Index <$> log.
Proof.
  revert f. induction log as [|e log IH]; intros f; [by left|]. cbn.
  destruct (IH (Apply f e).1) as [Hs|Hs]; [|right; set_solver].
  unfold apply_log in *. rewrite Hs.
  destruct (Apply_cases f e) as [_ [->|(cmd & _ & ->)]]; [by left|right; set_solver].
Qed.

(** A log of the group: positive indices, in increasing order. *)
Definition log_ok (log : list raft_Log) : Prop :=
  StronglySorted Z.lt (log_Index <$> log) ∧ Forall (fun e => 0 < log_Index e < 2 ^ 64) log.

Lemma generation_same_state log i j :
  log_ok log → (i ≤ j)%nat →
  let s k := f_state (apply_log newFSM (take k log)) in
  st_Generation (s i) ≤ st_Generation (s j) ∧
  (st_Generation (s i) = st_Generation (s j) → s i = s j).
Proof.
  intros [Hsort Hpos] Hij s.
  assert (take j log = take i log ++ take (j - i) (drop i log)) as Hj.
  { rewrite <-(take_drop i (take j log)), take_take, Nat.min_l by done. f_equal.
    rewrite skipn_firstn_comm. done. }
  unfold s. rewrite Hj, apply_log_app.
  set (f := apply_log newFSM (take i log)). set (seg := take (j - i) (drop i log)).
  assert (Hlt : ∀ g, g ∈ log_Index <$> seg → st_Generation (f_state f) < g).
  { intros g Hg. assert (g ∈ log_Index <$> drop i log) as Hg'.
    { unfold seg in Hg. rewrite <-(take_drop (j - i) (drop i log)). set_solver. }
    destruct (apply_log_generation newFSM (take i log)) as [Hs|Hs]; fold f in Hs.
    - rewrite Hs. cbn. apply list_elem_of_fmap in Hg' as (e & -> & He).
      rewrite Forall_forall in Hpos. apply Hpos.
      rewrite <-(take_drop i log). set_solver.
    - rewrite <-(take_drop i log), fmap_app in Hsort.
      eapply StronglySorted_app_1_elem_of; done. }
  destruct (apply_log_generation f seg) as [Hs|Hs].
  - rewrite Hs. split; [lia|done].
  - apply Hlt in Hs. split; [lia|]. intros Heq. lia.
Qed.

(** ** Snapshots *)

Lemma set_uint_Itoa {S} max (set : Z → S → S) n s :
  0 ≤ n ≤ max → set_uint max set (JNum (Itoa_bytes n)) s = Some (set n s).
Proof.
  intros Hn. unfold set_uint, Itoa_bytes. rewrite (proj2 (Z.ltb_ge n 0)) by lia.
  by rewrite ParseUint_nat_digits.
Qed.

Lemma set_int_Itoa {S} (set : Z → S → S) n s :
  in_i64 n → set_int set (JNum (Itoa_bytes n)) s = Some (set n s).
Proof. intros Hn. unfold set_int. by rewrite ParseInt_Itoa. Qed.

Lemma decode_persisted_json s :
  in_i64 (st_ReplicationFactor (snap_state s)) → 0 ≤ st_Generation (snap_state s) ≤ max_u64 →
  0 ≤ snap_applied s ≤ max_u64 →
  (parse_prefix (print (persisted_json s)) ≫=
     fun vk => decode_struct persisted_fields vk.1 zero_persisted) =
    Some (MkPersisted 1 (MkSlice (sanitize_node <$> st_Nodes (snap_state s))
                           (length (st_Nodes (snap_state s))))
            (st_ReplicationFactor (snap_state s)) (st_Generation (snap_state s)) (snap_applied s)).
Proof.
  intros Hrf Hg Ha. rewrite <-(app_nil_r (print _)), parse_prefix_print; [|clear Hrf Hg|done].
  2:{ unfold persisted_json. cbn [json_ok forallb snd app]. rewrite !num_ok_Itoa, nodes_json_ok by done.
      destruct (snap_applied s =? 0); [done|]. cbn [forallb snd json_ok]. by rewrite num_ok_Itoa. }
  unfold persisted_json. cbn [mbind option_bind sanitize_json map fst snd app].
  unfold decode_struct, set_members. cbn [foldl fst snd mbind option_bind].
  change (find_field persisted_fields (sanitize (name "version"))) with
    (snd <$> persisted_fields !! 0%nat).
  change (find_field persisted_fields (sanitize (name "nodes"))) with
    (snd <$> persisted_fields !! 1%nat).
  change (find_field persisted_fields (sanitize (name "replication_factor"))) with
    (snd <$> persisted_fields !! 2%nat).
  change (find_field persisted_fields (sanitize (name "generation"))) with
    (snd <$> persisted_fields !! 3%nat).
  cbn [persisted_fields lookup list_lookup fmap option_fmap option_map snd].
  rewrite set_int_Itoa by done. cbn [mbind option_bind].
  rewrite set_nodes_json by done. cbn [mbind option_bind].
  rewrite set_int_Itoa by done. cbn [mbind option_bind].
  rewrite set_uint_Itoa by done. cbn [mbind option_bind].
  destruct (Z.eqb_spec (snap_applied s) 0) as [->|Hne]; [done|].
  cbn [map foldl fst snd mbind option_bind].
  change (find_field persisted_fields (sanitize (name "applied_index"))) with
    (snd <$> persisted_fields !! 4%nat).
  cbn [persisted_fields lookup list_lookup fmap option_fmap option_map snd sanitize_json].
  rewrite set_uint_Itoa by done. done.
Qed.

Lemma Restore_Persist f g :
  fsm_ok f → Restore g (print (persisted_json (fsm_Snapshot f))) = (f, None).
Proof.
  intros [Hfull Hwire Hsort Hrf Hgen Happ]. unfold Restore, in_u64, maxInt64 in *.
  rewrite decode_persisted_json by (cbn; unfold in_i64, max_u64; lia).
  cbn [snap_state snap_applied fsm_Snapshot State_Clone st_Nodes st_ReplicationFactor st_Generation
       ps_Version ps_Nodes ps_ReplicationFactor ps_Generation ps_AppliedIndex].
  change (1 =? stateVersion) with true. cbn [negb].
  rewrite sanitize_nodes_wire by done.
  rewrite (proj2 (Z.ltb_ge _ _)) by lia.
  rewrite slice_list_full by done. rewrite (proj2 (empty_node_spec _)) by done.
  rewrite Hsort, (proj2 (Z.ltb_ge (f_applied f) _)) by lia. by destruct f as [[] ?].
Qed.

(** ** Properties *)

Definition log_in_range (log : list raft_Log) : Prop :=
  Forall (fun e => in_u64 (log_Index e)) log.

(** C4: compaction loses nothing: for any committed log — malformed entries
    included — a replica that restores the snapshot taken after a prefix,
    whatever it held before, and then applies the rest is in exactly the state
    (nodes, factor, generation and consumed index) of one that applied the whole
    log. *)
Theorem snapshot_restore_replay prefix suffix stale
  (Hrange : log_in_range prefix) :
  let snapshot := print (persisted_json (fsm_Snapshot (apply_log newFSM prefix))) in
  Restore stale snapshot = (apply_log newFSM prefix, None) ∧
  apply_log (Restore stale snapshot).1 suffix = apply_log newFSM (prefix ++ suffix).
Proof.
  cbn zeta. rewrite Restore_Persist by (apply apply_log_ok; [apply newFSM_ok|done]).
  by rewrite apply_log_app.
Qed.

Definition example_log : list raft_Log :=
  [MkLog 2 (encodeCommand (MkState [MkNode "node-1" "10.0.0.2:7100"; MkNode "node-0" "10.0.0.1:7100"] 1 0));
   MkLog 3 [x7b; x22]; MkLog 5 (encodeCommand (MkState [MkNode "node-0" "10.0.0.1:7100"] 1 0))].

Lemma snapshot_restore_replay_witness :
  apply_log (Restore newFSM
    (print (persisted_json (fsm_Snapshot (apply_log newFSM (take 2 example_log)))))).1
    (drop 2 example_log) = MkFsm (MkState [MkNode "node-0" "10.0.0.1:7100"] 1 5) 5.
Proof.
  rewrite (proj2 (snapshot_restore_replay (take 2 example_log) (drop 2 example_log) newFSM
    ltac:(repeat constructor; cbn; lia))). vm_compute. reflexivity.
Defined.

(** C21: a generation names one committed state: replicas that have applied
    different prefixes of the group's log and report the same generation hold the
    same node set and factor, and a replica's generation never goes back as it
    applies more. *)
Theorem generation_identifies_state log i j
  (Hlog : log_ok log) :
  let s k := f_state (apply_log newFSM (take k log)) in
  (st_Generation (s i) = st_Generation (s j) → s i = s j) ∧
  ((i ≤ j)%nat → st_Generation (s i) ≤ st_Generation (s j)).
Proof.
  cbn zeta. split; [|intros Hij; by apply generation_same_state].
  destruct (Nat.le_ge_cases i j) as [Hij|Hij].
  - by apply generation_same_state.
  - intros Heq. symmetry. by apply generation_same_state.
Qed.

Lemma generation_identifies_state_witness :
  f_state (apply_log newFSM (take 1 example_log)) = f_state (apply_log newFSM (take 2 example_log)).
Proof.
  apply (generation_identifies_state example_log 1 2); [|vm_compute; reflexivity].
  split; [repeat (constructor; try lia)|repeat constructor; cbn; lia].
Defined.

(** Applying a proposal installs it: an entry encoding a valid state becomes
    the state on every replica that applies it, canonically ordered, stamped with
    the entry's index if and only if the content differs from before; and whatever
    bytes an entry carries, the FSM counts it as consumed and never leaves its
    invariant. *)
Theorem Apply_installs f s index
  (Hf : fsm_ok f) (Hindex : in_u64 index) (Hs : proposable s) :
  let f' := (Apply f (MkLog index (encodeCommand s))).1 in
  st_Nodes (f_state f') = normalizeNodes (st_Nodes s) ∧
  st_ReplicationFactor (f_state f') = st_ReplicationFactor s ∧
  (st_Generation (f_state f') = if decide (same_content (f_state f) (f_state f'))
                                then st_Generation (f_state f) else index) ∧
  is_ok (Apply f (MkLog index (encodeCommand s))).2 = true ∧
  (∀ data, fsm_ok (Apply f (MkLog index data)).1 ∧
           f_applied (Apply f (MkLog index data)).1 = Z.max (f_applied f) index).
Proof.
  cbn zeta. destruct (Apply_encodeCommand f s index Hs) as (f' & -> & ? & ? & ?).
  split_and!; try done. intros data. split; [by apply Apply_ok|]. by apply Apply_cases.
Qed.

Definition example_proposal : State := MkState [MkNode "node-1" "h:2"; MkNode "node-0" "h:1"] 1 0.

Lemma example_proposable : proposable example_proposal.
Proof.
  split; [|split].
  - apply Forall_cons. split; [by split|]. apply Forall_cons. split; [by split|constructor].
  - apply Forall_cons. split; [by split|]. apply Forall_cons. split; [by split|constructor].
  - cbn. unfold maxInt64. lia.
Qed.

Lemma Apply_installs_witness :
  st_Nodes (f_state (Apply newFSM (MkLog 2 (encodeCommand example_proposal))).1) =
  [MkNode "node-0" "h:1"; MkNode "node-1" "h:2"].
Proof.
  rewrite (proj1 (Apply_installs newFSM example_proposal 2
    newFSM_ok ltac:(unfold in_u64; lia) example_proposable)).
  vm_compute. reflexivity.
Defined.
