(* ===== verification/Store.v ===== *)
(** * The Raft-backed store ([internal/metastore/store.go])

    Configuration checks, start-up and clean-up, the read-readiness gate, and
    proposals.  hashicorp/raft and its stores are third-party: their outcomes are
    inputs.  [ServeReady] reads five counters and the log at different instants,
    so each read is a separate input; the theorems relate the reads to one
    another, never assume they are simultaneous. *)

From S2P Require Import Prelude View Fsm.
Local Open Scope Z_scope.

(** ** Configuration *)

Record Peer := MkPeer { peer_NodeID : string; peer_Address : string }.

Record StoreConfig := MkStoreConfig {
  sc_NodeID : string; sc_BindAddress : string; sc_Peers : list Peer; sc_DataDir : string;
  sc_HeartbeatTimeout : Z; sc_ElectionTimeout : Z; sc_LeaderLeaseTimeout : Z;
  sc_SnapshotThreshold : Z; sc_ApplyTimeout : Z
}.

Inductive store_problem :=
| SNodeIDEmpty | SBindAddressEmpty | SPeersEmpty | SPeerIncomplete | SPeerDuplicate (id : string)
| SNotInPeers | STimeoutsNotPositive | SLeaseExceedsHeartbeat | SApplyTimeoutNotPositive.

#[export] Instance store_problem_eq_dec : EqDecision store_problem.
Proof. solve_decision. Defined.

(** The peer loop: problems so far, IDs seen, whether this replica was found. *)
Definition peer_step (self : string) (acc : list store_problem * gset string * bool) (p : Peer)
    : list store_problem * gset string * bool :=
  let '(problems, seen, found) := acc in
  if bool_decide (peer_NodeID p = "" ∨ peer_Address p = "")
  then (problems ++ [SPeerIncomplete], seen, found)
  else
    (if bool_decide (peer_NodeID p ∈ seen) then problems ++ [SPeerDuplicate (peer_NodeID p)] else problems,
     {[peer_NodeID p]} ∪ seen,
     found || bool_decide (peer_NodeID p = self)).

Definition add_if {A} (b : bool) (p : A) : list A := if b then [p] else [].

Definition store_validate (c : StoreConfig) : list store_problem :=
  let '(peer_problems, _, found) := foldl (peer_step (sc_NodeID c)) ([], ∅, false) (sc_Peers c) in
  add_if (bool_decide (sc_NodeID c = "")) SNodeIDEmpty ++
  add_if (bool_decide (sc_BindAddress c = "")) SBindAddressEmpty ++
  add_if (bool_decide (sc_Peers c = [])) SPeersEmpty ++
  peer_problems ++
  add_if (negb (bool_decide (sc_Peers c = [])) && negb found) SNotInPeers ++
  add_if ((sc_HeartbeatTimeout c <=? 0) || (sc_ElectionTimeout c <=? 0) ||
          (sc_LeaderLeaseTimeout c <=? 0)) STimeoutsNotPositive ++
  add_if (sc_HeartbeatTimeout c <? sc_LeaderLeaseTimeout c) SLeaseExceedsHeartbeat ++
  add_if (sc_ApplyTimeout c <=? 0) SApplyTimeoutNotPositive.

(** ** Start-up

    Each third-party call reports success or an error of type [E]; the trace
    records what was opened and closed. *)

Inductive handle := HTransport | HBolt | HRaft.

#[export] Instance handle_eq_dec : EqDecision handle.
Proof. solve_decision. Defined.

Inductive action := Opened (h : handle) | Closed (h : handle) | Bootstrapped (peers : list Peer).

Inductive start_error (E : Type) :=
| StartInvalid (ps : list store_problem) | StartResolve (e : E) | StartTransport (e : E)
| StartStores (e : E) | StartRaft (e : E) | StartInspect (e : E) | StartBootstrap (e : E).
Arguments StartInvalid {E} ps.
Arguments StartResolve {E} e.
Arguments StartTransport {E} e.
Arguments StartStores {E} e.
Arguments StartRaft {E} e.
Arguments StartInspect {E} e.
Arguments StartBootstrap {E} e.

(** The outcomes of the calls [New] makes. *)
Record outcomes (E : Type) := MkOutcomes {
  o_resolve : option E; o_transport : option E;
  o_mkdir : option E; o_bolt : option E; o_snapshots : option E;
  o_raft : option E; o_lastIndex : Z;
  o_existing : result E bool;
  o_bootstrap : option E;
  o_cantBootstrap : E → bool
}.
Arguments o_resolve {E} _.
Arguments o_transport {E} _.
Arguments o_mkdir {E} _.
Arguments o_bolt {E} _.
Arguments o_snapshots {E} _.
Arguments o_raft {E} _.
Arguments o_lastIndex {E} _.
Arguments o_existing {E} _.
Arguments o_bootstrap {E} _.
Arguments o_cantBootstrap {E} _.

(** What [Store] keeps for [ServeReady], and whether it has a bolt store. *)
Record Store := MkStore { s_startupIndex : Z; s_caughtUp : bool; s_bolt : bool }.

Section start.
Context {E : Type} (o : outcomes E).

(** Whether a bolt store was opened (not for an empty data directory). *)
Definition openStores (cfg : StoreConfig) : list action * result E bool :=
  if bool_decide (sc_DataDir cfg = "") then ([], Ok false)
  else match o_mkdir o with
       | Some e => ([], Err e)
       | None =>
           match o_bolt o with
           | Some e => ([], Err e)
           | None =>
               match o_snapshots o with
               | Some e => ([Opened HBolt; Closed HBolt], Err e)
               | None => ([Opened HBolt], Ok true)
               end
           end
       end.

Definition closeStores (bolt : bool) : list action :=
  Closed HTransport :: (if bolt then [Closed HBolt] else []).

(** [Store.Close]: Raft, then the transport, then the bolt store. *)
Definition store_close_actions (bolt : bool) : list action :=
  [Closed HRaft; Closed HTransport] ++ (if bolt then [Closed HBolt] else []).

Definition NewStore (cfg : StoreConfig) : list action * result (start_error E) Store :=
  match store_validate cfg with
  | _ :: _ => ([], Err (StartInvalid (store_validate cfg)))
  | [] =>
      match o_resolve o with
      | Some e => ([], Err (StartResolve e))
      | None =>
          match o_transport o with
          | Some e => ([], Err (StartTransport e))
          | None =>
              let '(acts, opened) := openStores cfg in
              match opened with
              | Err e => (Opened HTransport :: acts ++ [Closed HTransport], Err (StartStores e))
              | Ok bolt =>
                  let acts := Opened HTransport :: acts in
                  match o_raft o with
                  | Some e => (acts ++ closeStores bolt, Err (StartRaft e))
                  | None =>
                      let acts := acts ++ [Opened HRaft] in
                      let store := MkStore (o_lastIndex o) false bolt in
                      match o_existing o with
                      | Err e => (acts ++ store_close_actions bolt, Err (StartInspect e))
                      | Ok true => (acts, Ok store)
                      | Ok false =>
                          let acts := acts ++ [Bootstrapped (sc_Peers cfg)] in
                          match o_bootstrap o with
                          | Some e =>
                              if negb (o_cantBootstrap o e)
                              then (acts ++ store_close_actions bolt, Err (StartBootstrap e))
                              else (acts, Ok store)
                          | None => (acts, Ok store)
                          end
                      end
                  end
              end
          end
      end
  end.
End start.

(** [Store.Close]: the first error wins. *)
Definition store_Close {E} (bolt : bool) (raft transport boltErr : option E) : option E :=
  let firstErr := raft in
  let firstErr := match transport, firstErr with Some e, None => Some e | _, _ => firstErr end in
  if bolt
  then match boltErr, firstErr with Some e, None => Some e | _, _ => firstErr end
  else firstErr.

(** ** Readiness *)

Inductive log_type := LogCommand | LogNoop | LogBarrier | LogConfiguration.

#[export] Instance log_type_eq_dec : EqDecision log_type.
Proof. solve_decision. Defined.

Record log_entry := MkEntry { e_type : log_type; e_data : bytes }.

(** The scan from [commit] down to [consumed]: [n] indices are left. *)
Fixpoint scan_back (getLog : Z → option log_entry) (n : nat) (index : Z) : option Z :=
  match n with
  | O => None
  | S n =>
      match getLog index with
      | None => None
      | Some entry =>
          if bool_decide (e_type entry = LogCommand) then Some index
          else scan_back getLog n (index - 1)
      end
  end.

(** [getLog] is [None] for a nil log store; an unreadable index is [None]. *)
Definition unappliedCommandIndex (logStore : option (Z → option log_entry)) (consumed commit : Z)
    : option Z :=
  match logStore with
  | None => None
  | Some getLog =>
      if commit <=? consumed then None
      else scan_back getLog (Z.to_nat (commit - consumed)) commit
  end.

(** The values one call of [ServeReady] reads, in the order it reads them. *)
Record reads := MkReads {
  rd_leader : string;
  rd_last : Z;
  rd_commit : Z;
  rd_applied : Z;
  rd_consumed : Z;
  rd_log : option (Z → option log_entry)
}.

Inductive catching_up :=
| NoLeader | NotCommitted (commit floor : Z) | NotApplied (applied commit : Z)
| NotConsumed (pending consumed : Z).

Definition ready_floor (startupIndex last : Z) : Z :=
  let floor := startupIndex in
  let floor := if last <? floor then last else floor in
  if floor <? 1 then 1 else floor.

Definition ServeReady (s : Store) (r : reads) : Store * option catching_up :=
  if s_caughtUp s then (s, None)
  else if bool_decide (rd_leader r = "") then (s, Some NoLeader)
  else
    let floor := ready_floor (s_startupIndex s) (rd_last r) in
    if rd_commit r <? floor then (s, Some (NotCommitted (rd_commit r) floor))
    else if rd_applied r <? rd_commit r then (s, Some (NotApplied (rd_applied r) (rd_commit r)))
    else match unappliedCommandIndex (rd_log r) (rd_consumed r) (rd_commit r) with
         | Some pending => (s, Some (NotConsumed pending (rd_consumed r)))
         | None => (MkStore (s_startupIndex s) true (s_bolt s), None)
         end.

(** ** Leadership and proposals *)

(** [raft.Apply]'s future: its error, or the FSM's response. *)
Inductive future (E : Type) :=
| FutureError (e : E)
| FutureResponse (r : result apply_error State).
Arguments FutureError {E} e.
Arguments FutureResponse {E} r.

Inductive propose_error (E : Type) :=
| ErrNotLeader (e : option E) | CommitFailed (e : E) | ApplyFailed (e : apply_error).
Arguments ErrNotLeader {E} e.
Arguments CommitFailed {E} e.
Arguments ApplyFailed {E} e.

Section propose.
(** [raft.Apply] on the encoded command, and which of its errors mean that
    leadership moved. *)
Context {E : Type} (raft_Apply : bytes → future E) (lost : E → bool).

Definition Propose (isLeader : bool) (desired : State) : result (propose_error E) () :=
  if negb isLeader then Err (ErrNotLeader None)
  else match raft_Apply (encodeCommand desired) with
       | FutureError e => Err (if lost e then ErrNotLeader (Some e) else CommitFailed e)
       | FutureResponse (Err e) => Err (ApplyFailed e)
       | FutureResponse (Ok _) => Ok ()
       end.
End propose.

(** [Store.Snapshot] and [Store.State]. *)
Definition store_Snapshot (f : fsm) : MemberSnapshot := State_Snapshot (fsm_State f).
Definition store_State (f : fsm) : State := fsm_State f.

(** [WaitForLeader]: polls until a leader is named or the deadline has passed;
    [polls] lists the instants and what [Leader] answered then. *)
Fixpoint WaitForLeader (deadline : Z) (polls : list (Z * (string * Z))) : option (result () (string * Z)) :=
  match polls with
  | [] => None
  | (now, (id, term)) :: polls =>
      if bool_decide (id ≠ "") then Some (Ok (id, term))
      else if deadline <? now then Some (Err ())
      else WaitForLeader deadline polls
  end.

(** ** Lemmas *)

(** The commands of a log up to an index, in order: what Raft dispatches to the
    FSM. *)
Definition command_at (L : Z → option log_entry) (i : Z) : option raft_Log :=
  match L i with
  | Some e => if bool_decide (e_type e = LogCommand) then Some (MkLog i (e_data e)) else None
  | None => None
  end.

Definition commands_upto (L : Z → option log_entry) (k : Z) : list raft_Log :=
  omap (command_at L) (seqZ 1 k).

(** What a log store answers; a nil store answers nothing. *)
Definition read_log (logStore : option (Z → option log_entry)) (i : Z) : option log_entry :=
  match logStore with Some getLog => getLog i | None => None end.

(** What the backwards scan establishes, without the scan: everything committed
    above [stop] is readable and none of it is a command, and [stop] is the FSM's
    own mark or the newest committed entry above the mark that cannot be read. *)
Definition quiet_above (r : reads) (stop : Z) : Prop :=
  (∀ i, stop < i ≤ rd_commit r →
     ∃ e, read_log (rd_log r) i = Some e ∧ e_type e ≠ LogCommand) ∧
  (stop = rd_consumed r ∨
   (rd_consumed r < stop ≤ rd_commit r ∧ read_log (rd_log r) stop = None)).

Lemma scan_back_quiet getLog n index :
  scan_back getLog n index = None ↔
  ∃ stop, (∀ i, stop < i ≤ index → ∃ e, getLog i = Some e ∧ e_type e ≠ LogCommand) ∧
    (stop = index - Z.of_nat n ∨ (index - Z.of_nat n < stop ≤ index ∧ getLog stop = None)).
Proof.
  revert index. induction n as [|n IH]; intros index; cbn [scan_back].
  { split; [|done]. intros _. exists index. split; [lia|left; lia]. }
  destruct (getLog index) as [e|] eqn:He.
  2:{ split; [|done]. intros _. exists index. split; [lia|]. right. split; [lia|done]. }
  case_bool_decide as Ht.
  - split; [done|]. intros (stop & Hall & Hstop).
    destruct (Hall index) as (e' & He' & Hne); [|simplify_eq; done].
    destruct Hstop as [->|[? Hn]]; [lia|].
    destruct (decide (stop = index)) as [->|]; [congruence|lia].
  - rewrite IH. split; intros (stop & Hall & Hstop); exists stop.
    + split; [|destruct Hstop as [->|[? ?]]; [left; lia|right; split; [lia|done]]].
      intros i Hi. destruct (decide (i = index)) as [->|]; [by exists e|apply Hall; lia].
    + split; [intros i Hi; apply Hall; lia|].
      destruct Hstop as [->|[? Hn]]; [left; lia|right]. split; [|done].
      destruct (decide (stop = index)) as [->|]; [congruence|lia].
Qed.

Lemma unapplied_quiet r :
  unappliedCommandIndex (rd_log r) (rd_consumed r) (rd_commit r) = None ↔
  ∃ stop, quiet_above r stop.
Proof.
  unfold unappliedCommandIndex, quiet_above. destruct (rd_log r) as [getLog|]; cbn [read_log].
  - destruct (Z.leb_spec (rd_commit r) (rd_consumed r)).
    + split; [|done]. intros _. exists (rd_consumed r). split; [lia|by left].
    + rewrite scan_back_quiet, Z2Nat.id by lia.
      by replace (rd_commit r - (rd_commit r - rd_consumed r)) with (rd_consumed r) by lia.
  - split; [|done]. intros _. destruct (decide (rd_commit r ≤ rd_consumed r)).
    + exists (rd_consumed r). split; [lia|by left].
    + exists (rd_commit r). split; [lia|right]. split; [lia|done].
Qed.

Lemma commands_upto_extend L k k' :
  0 ≤ k ≤ k' → (∀ i, k < i ≤ k' → command_at L i = None) →
  commands_upto L k' = commands_upto L k.
Proof.
  intros Hk Hnone. unfold commands_upto.
  replace k' with (k + (k' - k)) by lia. rewrite seqZ_app by lia. rewrite omap_app.
  rewrite <-(app_nil_r (omap (command_at L) (seqZ 1 k))) at 2. f_equal.
  assert (∀ i, i ∈ seqZ (1 + k) (k' - k) → command_at L i = None) as Hall.
  { intros i [? ?]%elem_of_seqZ. apply Hnone. lia. }
  induction (seqZ (1 + k) (k' - k)) as [|i l IH]; [done|]. cbn.
  rewrite Hall by set_solver. apply IH. set_solver.
Qed.

Lemma ServeReady_fresh s r s' :
  s_caughtUp s = false → ServeReady s r = (s', None) →
  rd_leader r ≠ "" ∧ ready_floor (s_startupIndex s) (rd_last r) ≤ rd_commit r ∧
  rd_commit r ≤ rd_applied r ∧
  unappliedCommandIndex (rd_log r) (rd_consumed r) (rd_commit r) = None ∧
  s' = MkStore (s_startupIndex s) true (s_bolt s).
Proof.
  unfold ServeReady. intros ->. case_bool_decide; [done|].
  destruct (Z.ltb_spec (rd_commit r) (ready_floor (s_startupIndex s) (rd_last r))); [done|].
  destruct (Z.ltb_spec (rd_applied r) (rd_commit r)); [done|].
  destruct (unappliedCommandIndex _ _ _); [done|]. intros [= <-]. done.
Qed.

Lemma ready_floor_le a b c : ready_floor a b ≤ c ↔ 1 ≤ c ∧ Z.min a b ≤ c.
Proof.
  unfold ready_floor. destruct (Z.ltb_spec b a);
    [destruct (Z.ltb_spec b 1)|destruct (Z.ltb_spec a 1)]; lia.
Qed.

(** The handles a trace leaves open. *)
Definition track (h : gset nat) (a : action) : gset nat :=
  let id h := match h with HTransport => 0 | HBolt => 1 | HRaft => 2 end%nat in
  match a with
  | Opened x => {[id x]} ∪ h
  | Closed x => h ∖ {[id x]}
  | Bootstrapped _ => h
  end.
Definition left_open (acts : list action) : gset nat := foldl track ∅ acts.

(** The answers of a sequence of calls. *)
Fixpoint serve_run (s : Store) (rs : list reads) : list (option catching_up) :=
  match rs with
  | [] => []
  | r :: rs => let '(s, e) := ServeReady s r in e :: serve_run s rs
  end.

Lemma serve_run_latched s rs :
  s_caughtUp s = true → Forall (.= None) (serve_run s rs).
Proof.
  intros Hs. induction rs as [|r rs IH]; [constructor|]. cbn. unfold ServeReady. rewrite Hs.
  by constructor.
Qed.

Lemma ServeReady_iff s r :
  (ServeReady s r).2 = None ↔
  s_caughtUp s = true ∨
  (rd_leader r ≠ "" ∧ ready_floor (s_startupIndex s) (rd_last r) ≤ rd_commit r ∧
   rd_commit r ≤ rd_applied r ∧
   unappliedCommandIndex (rd_log r) (rd_consumed r) (rd_commit r) = None).
Proof.
  destruct (s_caughtUp s) eqn:Hs; [unfold ServeReady; rewrite Hs; tauto|]. split.
  - intros H. right. destruct (ServeReady s r) as [s' e] eqn:Hr. cbn in H. subst.
    apply ServeReady_fresh in Hr as (? & ? & ? & ? & _); done.
  - intros [?|(H1 & H2 & H3 & H4)]; [done|]. unfold ServeReady.
    rewrite Hs, bool_decide_eq_false_2 by done.
    rewrite (proj2 (Z.ltb_ge (rd_commit r) _)), (proj2 (Z.ltb_ge (rd_applied r) _)) by done.
    by rewrite H4.
Qed.

Lemma ServeReady_stays s r rs :
  (ServeReady s r).2 = None → Forall (.= None) (serve_run (ServeReady s r).1 rs).
Proof.
  intros H. apply serve_run_latched. destruct (s_caughtUp s) eqn:Hs.
  - unfold ServeReady. by rewrite Hs.
  - destruct (ServeReady s r) as [s' e] eqn:Hr. cbn in H |- *. subst.
    by apply ServeReady_fresh in Hr as (_ & _ & _ & _ & ->).
Qed.

(** ** Properties *)

(** C6: exactly when a replica opens its read gate, and what the open gate says
    of the state it serves.  A call of [ServeReady] — its reads taken at different
    instants — answers ready if and only if the gate was opened before, or a
    leader is known, the commit index read is at least 1 and at least the log
    this process inherited (or its last index, if that was truncated), Raft has
    handed over everything committed, and some [stop] exists above which every
    committed entry is readable and is not a command, [stop] being the FSM's mark
    or a committed entry above the mark that the log store cannot read (a nil log
    store reads nothing).  A state machine that holds the commands up to such a
    [stop] holds every command up to the commit index; when all entries above the
    mark are readable, [stop] is the mark itself, so the state served then misses
    no committed command.  Once open the gate stays open, whatever later calls
    read.  The log store is assumed to return only entries of the log. *)
Theorem ServeReady_safe s r rs (L : Z → option log_entry)
  (Hstore : ∀ i e, read_log (rd_log r) i = Some e → L i = Some e)
  (Hconsumed : 0 ≤ rd_consumed r) :
  ((ServeReady s r).2 = None ↔
     s_caughtUp s = true ∨
     (rd_leader r ≠ "" ∧ 1 ≤ rd_commit r ∧
      Z.min (s_startupIndex s) (rd_last r) ≤ rd_commit r ∧
      rd_commit r ≤ rd_applied r ∧ ∃ stop, quiet_above r stop)) ∧
  (∀ stop, quiet_above r stop →
     apply_log newFSM (commands_upto L stop) =
       apply_log newFSM (commands_upto L (Z.max stop (rd_commit r))) ∧
     ((∀ i, rd_consumed r < i ≤ rd_commit r → is_Some (read_log (rd_log r) i)) →
      stop = rd_consumed r)) ∧
  ((ServeReady s r).2 = None → Forall (.= None) (serve_run (ServeReady s r).1 rs)).
Proof.
  split; [by rewrite ServeReady_iff, ready_floor_le, unapplied_quiet; tauto|].
  split; [|apply ServeReady_stays].
  intros stop [Hall Hstop]. split.
  - f_equal. symmetry. apply commands_upto_extend; [lia|]. intros i Hi.
    destruct (Hall i) as (e & He & Ht); [lia|]. unfold command_at.
    rewrite (Hstore _ _ He). by rewrite bool_decide_eq_false_2.
  - intros Hread. destruct Hstop as [?|[Hs Hn]]; [done|].
    destruct (Hread stop Hs) as [e He]. congruence.
Qed.

Definition example_entries (i : Z) : option log_entry :=
  if i =? 1 then Some (MkEntry LogConfiguration [])
  else if i =? 2 then Some (MkEntry LogNoop [])
  else if i =? 3 then Some (MkEntry LogCommand (encodeCommand (MkState [MkNode "node-0" "h:1"] 1 0)))
  else if i =? 4 then Some (MkEntry LogNoop []) else None.

(** A no-op above the FSM's mark: ready with the whole log; and a store that lost
    entry 3 to a snapshot: ready with [stop] = 3. *)
Lemma ServeReady_safe_witness :
  let s := MkStore 3 false true in
  let r := MkReads "cp-1" 4 4 4 3 (Some example_entries) in
  let r' := MkReads "cp-1" 4 4 4 0
              (Some (fun i => if i =? 4 then example_entries i else None)) in
  ((ServeReady s r).2 = None ∧
   apply_log newFSM (commands_upto example_entries 3) =
     apply_log newFSM (commands_upto example_entries 4)) ∧
  ((ServeReady s r').2 = None ∧ quiet_above r' 3).
Proof.
  intros s r r'. split.
  - destruct (ServeReady_safe s r [r'] example_entries) as (_ & H & _); [done|cbn; lia|].
    split; [reflexivity|]. apply (H 3).
    split; [|by left]. cbn. intros i Hi. replace i with 4 by lia.
    eexists. split; [reflexivity|done].
  - destruct (ServeReady_safe s r' [r] example_entries) as (H & _ & _); [|cbn; lia|].
    { cbn. intros i e. by destruct (i =? 4). }
    assert (quiet_above r' 3) as Hq.
    { split; cbn; [|right; split; [lia|done]]. intros i Hi. replace i with 4 by lia.
      eexists. split; [reflexivity|done]. }
    split; [|exact Hq]. apply H. right. cbn. repeat split; [done|lia..|]. by exists 3.
Defined.

(** Starting a replica never leaks a listener, log store or Raft node: on
    every failing path of [New] whatever was opened has been closed again, and a
    replica that starts holds exactly its transport, its Raft node and, when it
    has a data directory, its bolt store. *)
Lemma NewStore_no_leak {E} (o : outcomes E) cfg :
  left_open (NewStore o cfg).1 =
    match (NewStore o cfg).2 with
    | Err _ => ∅
    | Ok _ => if bool_decide (sc_DataDir cfg = "") then {[0; 2]}%nat else {[0; 1; 2]}%nat
    end.
Proof.
  unfold NewStore, openStores.
  repeat (case_match; simplify_eq; try (vm_compute; reflexivity));
    by (case_bool_decide; vm_compute).
Qed.
