(* ===== verification/Bridge.v ===== *)
(** * The gossip-to-Raft bridge ([internal/metastore/bridge.go])

    One proposer loop per control-plane replica: every tick the leader compares
    its gossip view with committed state and proposes the difference, except that
    a new leader waits out a settle window before it believes a view that would
    empty the membership.  Time is nanoseconds; each instant the code reads the
    clock is its own input. *)

From S2P Require Import Prelude NodeMeta View Fsm Store.
Local Open Scope Z_scope.

Record BridgeConfig := MkBridgeConfig {
  bc_Store : bool; bc_Gossip : bool;      (** non-nil *)
  bc_ReplicationFactor : Z; bc_Interval : Z; bc_SettleWindow : Z
}.

Record Bridge := MkBridge {
  b_factor : Z; b_interval : Z; b_settleWindow : Z;
  b_proposals : Z; b_deferrals : Z
}.

Inductive bridge_error := NilStore | NilGossip | IntervalNotPositive | FactorNegative.

Definition NewBridge (cfg : BridgeConfig) : result bridge_error Bridge :=
  if negb (bc_Store cfg) then Err NilStore
  else if negb (bc_Gossip cfg) then Err NilGossip
  else if bc_Interval cfg <=? 0 then Err IntervalNotPositive
  else if bc_ReplicationFactor cfg <? 0 then Err FactorNegative
  else
    let settle := if bc_SettleWindow cfg <=? 0 then i64 (10 * bc_Interval cfg) else bc_SettleWindow cfg in
    Ok (MkBridge (bc_ReplicationFactor cfg) (bc_Interval cfg) settle 0 0).

Definition proposeAllowed (b : Bridge) (committed desired : State) (leaderSince now : Z) : bool :=
  if (0 <? Z.of_nat (length (st_Nodes desired))) || (Z.of_nat (length (st_Nodes committed)) =? 0)
  then true
  else b_settleWindow b <=? now - leaderSince.

(** What one pass of [reconcile] reads and the outcome of its proposal. *)
Record pass (E : Type) := MkPass {
  p_gossip : MemberSnapshot;
  p_committed : State;
  p_now : Z;                                        (** [time.Since] in [proposeAllowed] *)
  p_propose : State → result (propose_error E) ()
}.
Arguments MkPass {E} _ _ _ _.
Arguments p_gossip {E} _.
Arguments p_committed {E} _.
Arguments p_now {E} _.
Arguments p_propose {E} _.

Definition desired_state (b : Bridge) (observed : MemberSnapshot) : State :=
  MkState (normalizeNodes (ms_Nodes observed)) (b_factor b) 0.

(** The bridge after the pass, and the state it submitted, if any. *)
Definition reconcile {E} (b : Bridge) (leaderSince : Z) (p : pass E) : Bridge * option State :=
  let desired := desired_state b (p_gossip p) in
  if SameContent (p_committed p) desired then (b, None)
  else if negb (proposeAllowed b (p_committed p) desired leaderSince (p_now p))
  then (MkBridge (b_factor b) (b_interval b) (b_settleWindow b) (b_proposals b)
          (u64 (b_deferrals b + 1)), None)
  else
    (match p_propose p desired with
     | Err _ => b
     | Ok _ => MkBridge (b_factor b) (b_interval b) (b_settleWindow b)
                 (u64 (b_proposals b + 1)) (b_deferrals b)
     end, Some desired).

(** One tick of [Run]: [leaderSince] is [None] while a follower. *)
Record tick (E : Type) := MkTick { t_leader : bool; t_now : Z; t_pass : pass E }.
Arguments MkTick {E} _ _ _.
Arguments t_leader {E} _.
Arguments t_now {E} _.
Arguments t_pass {E} _.

Definition bridge_tick {E} (s : Bridge * option Z) (t : tick E) : (Bridge * option Z) * option State :=
  let '(b, leaderSince) := s in
  if negb (t_leader t) then ((b, None), None)
  else
    let since := default (t_now t) leaderSince in
    let '(b, proposed) := reconcile b since (t_pass t) in ((b, Some since), proposed).

Definition bridge_run {E} (b : Bridge) (ts : list (tick E)) : Bridge * option Z :=
  foldl (fun s t => (bridge_tick s t).1) (b, None) ts.

(** [Stats]. *)
Definition Stats (b : Bridge) : Z * Z := (b_proposals b, b_deferrals b).

(** ** Lemmas *)

Lemma reconcile_settings {E} b since (p : pass E) :
  b_factor (reconcile b since p).1 = b_factor b ∧
  b_settleWindow (reconcile b since p).1 = b_settleWindow b.
Proof. unfold reconcile. repeat case_match; done. Qed.

Lemma bridge_tick_settings {E} s (t : tick E) :
  b_factor (bridge_tick s t).1.1 = b_factor s.1 ∧
  b_settleWindow (bridge_tick s t).1.1 = b_settleWindow s.1.
Proof.
  destruct s as [b since]. unfold bridge_tick. destruct (t_leader t); cbn [negb]; [|done].
  pose proof (reconcile_settings b (default (t_now t) since) (t_pass t)).
  destruct (reconcile _ _ _) as [b' p]. done.
Qed.

Lemma bridge_run_settings {E} b (ts : list (tick E)) :
  b_factor (bridge_run b ts).1 = b_factor b ∧
  b_settleWindow (bridge_run b ts).1 = b_settleWindow b.
Proof.
  induction ts as [|t ts [IH1 IH2]] using rev_ind; [done|].
  unfold bridge_run in *. rewrite foldl_app. cbn [foldl].
  pose proof (bridge_tick_settings (foldl (fun s t => (bridge_tick s t).1) (b, None) ts) t) as [-> ->].
  done.
Qed.

(** [leaderSince] is the instant of the first tick of the current leadership. *)
Lemma bridge_run_since {E} b (ts : list (tick E)) since :
  (bridge_run b ts).2 = Some since →
  ∃ before first term, ts = before ++ first :: term ∧ t_now first = since ∧
    Forall (fun t => t_leader t = true) (first :: term).
Proof.
  induction ts as [|t ts IH] using rev_ind; [done|].
  unfold bridge_run in *. rewrite foldl_app. cbn [foldl].
  destruct (foldl _ _ ts) as [b' since'] eqn:Hs. unfold bridge_tick.
  destruct (t_leader t) eqn:Hl; cbn [negb]; [|done].
  destruct (reconcile _ _ _) as [b'' p]. cbn. intros [= <-].
  destruct since' as [s0|]; cbn.
  - destruct IH as (before & first & term & -> & Hn & HF); [done|].
    exists before, first, (term ++ [t]). rewrite <-app_assoc. split; [done|]. split; [done|].
    rewrite app_comm_cons. apply Forall_app. by split; [|constructor].
  - exists ts, t, []. by repeat constructor.
Qed.

Lemma bridge_tick_proposes {E} s (t : tick E) d :
  (bridge_tick s t).2 = Some d →
  t_leader t = true ∧ d = desired_state s.1 (p_gossip (t_pass t)) ∧
  SameContent (p_committed (t_pass t)) d = false ∧
  ∃ since, (bridge_tick s t).1.2 = Some since ∧
    proposeAllowed s.1 (p_committed (t_pass t)) d since (p_now (t_pass t)) = true.
Proof.
  destruct s as [b since]. unfold bridge_tick. destruct (t_leader t); cbn [negb]; [|done].
  unfold reconcile. destruct (SameContent _ _) eqn:Hc; [done|].
  destruct (proposeAllowed _ _ _ _ _) eqn:Ha; cbn [negb]; [|done].
  cbn. intros [= <-]. split_and!; try done. eauto.
Qed.

(** The gossip view's nodes can always be proposed. *)
Lemma published_proposable ns rf g :
  published_ok ns → 0 ≤ rf ≤ maxInt64 → proposable (MkState ns rf g).
Proof.
  intros (_ & _ & HF) Hrf. split; [|split; [|done]]; cbn; eapply Forall_impl; try done;
    intros n (Hid & _ & Ha & Hu); split; try done.
  - by apply nodeIDPattern_nonempty.
  - by apply address_ok_nonempty.
  - by apply nodeIDPattern_utf8.
Qed.

Lemma published_normal ns : published_ok ns → normalizeNodes ns = ns.
Proof. intros (_ & Hs & _). by apply (merge_sort_sorted_id node_le). Qed.

(** ** The loop closed over Raft and the state machine

    What the rest of the system does around one tick: log entries of other
    proposers that reached the state machine before it, whether Raft says this
    replica leads, the two clock readings, the gossip view, and what becomes of a
    proposal made at this tick. *)

Inductive raft_reply (E : Type) :=
| Moved                                             (** [IsLeader] is false again in [Propose] *)
| Failed (committed : option Z) (e : E)             (** an error, though the entry may commit *)
| Committed (index : Z).
Arguments Moved {E}.
Arguments Failed {E} _ _.
Arguments Committed {E} _.

Record surroundings (E : Type) := MkSurroundings {
  su_arrived : list raft_Log; su_leader : bool; su_now : Z; su_later : Z;
  su_gossip : MemberSnapshot; su_reply : raft_reply E
}.
Arguments MkSurroundings {E} _ _ _ _ _ _.
Arguments su_arrived {E} _.
Arguments su_leader {E} _.
Arguments su_now {E} _.
Arguments su_later {E} _.
Arguments su_gossip {E} _.
Arguments su_reply {E} _.

Section loop.
Context {E : Type} (lost : E → bool).

(** The index a proposal is committed at, if it is. *)
Definition reply_index (r : raft_reply E) : option Z :=
  match r with Moved => None | Failed i _ => i | Committed i => Some i end.

Definition loop_propose (f : fsm) (r : raft_reply E) (d : State) : result (propose_error E) () :=
  Propose (fun raw =>
      match r with
      | Committed i => FutureResponse (Apply f (MkLog i raw)).2
      | Failed _ e => FutureError e
      | Moved => FutureResponse (Ok zero_state)     (** not called: [Propose] sees no leader *)
      end) lost (match r with Moved => false | _ => true end) d.

(** The tick of the code over this replica's state machine, to which a committed
    proposal comes back. *)
Definition loop_tick (f : fsm) (e : surroundings E) : tick E :=
  MkTick (su_leader e) (su_now e)
    (MkPass (su_gossip e) (store_State f) (su_later e) (loop_propose f (su_reply e))).

Definition loop_step (s : (Bridge * option Z) * fsm) (e : surroundings E)
    : ((Bridge * option Z) * fsm) * option State :=
  let f := apply_log s.2 (su_arrived e) in
  let '(bs, proposed) := bridge_tick s.1 (loop_tick f e) in
  ((bs, match proposed, reply_index (su_reply e) with
        | Some d, Some i => (Apply f (MkLog i (encodeCommand d))).1
        | _, _ => f
        end), proposed).

Definition loop_run (s : (Bridge * option Z) * fsm) (es : list (surroundings E)) :=
  foldl (fun s e => (loop_step s e).1) s es.

(** What each tick proposed. *)
Fixpoint loop_proposals (s : (Bridge * option Z) * fsm) (es : list (surroundings E)) : list (option State) :=
  match es with
  | [] => []
  | e :: es => (loop_step s e).2 :: loop_proposals (loop_step s e).1 es
  end.

Lemma loop_step_settings s e :
  b_factor (loop_step s e).1.1.1 = b_factor s.1.1 ∧
  b_settleWindow (loop_step s e).1.1.1 = b_settleWindow s.1.1.
Proof.
  unfold loop_step. pose proof (bridge_tick_settings s.1 (loop_tick (apply_log s.2 (su_arrived e)) e)).
  by destruct (bridge_tick _ _).
Qed.

Lemma loop_run_settings s es :
  b_factor (loop_run s es).1.1 = b_factor s.1.1 ∧
  b_settleWindow (loop_run s es).1.1 = b_settleWindow s.1.1.
Proof.
  revert s. induction es as [|e es IH]; intros s; [done|]. change (loop_run s (e :: es)) with (loop_run (loop_step s e).1 es).
  destruct (IH (loop_step s e).1) as [-> ->]. apply loop_step_settings.
Qed.

(** The instant the tick measures the settle window from. *)
Lemma loop_step_since s e :
  (loop_step s e).1.1.2 = if su_leader e then Some (default (su_now e) s.1.2) else None.
Proof.
  unfold loop_step, bridge_tick, loop_tick. destruct s as [[b since] f]. cbn.
  destruct (su_leader e); cbn; [|done]. by destruct (reconcile _ _ _).
Qed.

Lemma loop_run_since_le s es now :
  Forall (fun e => su_now e ≤ now) es → default now s.1.2 ≤ now →
  default now (loop_run s es).1.2 ≤ now.
Proof.
  intros HF. revert s. induction HF as [|e es He _ IH]; intros s Hs; [done|].
  change (loop_run s (e :: es)) with (loop_run (loop_step s e).1 es). apply IH.
  rewrite loop_step_since. destruct (su_leader e); cbn; [|lia]. by destruct (s.1.2).
Qed.

(** Leadership that lasts keeps its first instant. *)
Lemma loop_run_since_stays s es since :
  Forall (fun e => su_leader e = true) es → s.1.2 = Some since →
  (loop_run s es).1.2 = Some since.
Proof.
  intros HF. revert s. induction HF as [|e es He _ IH]; intros s Hs; [done|].
  change (loop_run s (e :: es)) with (loop_run (loop_step s e).1 es). apply IH.
  by rewrite loop_step_since, He, Hs.
Qed.

(** The state machine holds exactly this view. *)
Definition holds_view (rf : Z) (ns : list Node) (f : fsm) : Prop :=
  st_Nodes (f_state f) = ns ∧ st_ReplicationFactor (f_state f) = rf.

Lemma desired_published b g :
  published_ok (ms_Nodes g) → desired_state b g = MkState (ms_Nodes g) (b_factor b) 0.
Proof. intros Hg. unfold desired_state. by rewrite published_normal. Qed.

Lemma SameContent_view b g f :
  published_ok (ms_Nodes g) →
  SameContent (store_State f) (desired_state b g) = true ↔ holds_view (b_factor b) (ms_Nodes g) f.
Proof. intros Hg. rewrite SameContent_spec, desired_published by done. reflexivity. Qed.

(** A tick of a leader that may propose and whose proposal commits. *)
Lemma loop_step_commits b since f e index :
  let f1 := apply_log f (su_arrived e) in
  su_leader e = true → su_reply e = Committed index →
  published_ok (ms_Nodes (su_gossip e)) → 0 ≤ b_factor b ≤ maxInt64 →
  ms_Nodes (su_gossip e) ≠ [] ∨ b_settleWindow b ≤ su_later e - default (su_now e) since →
  holds_view (b_factor b) (ms_Nodes (su_gossip e)) (loop_step ((b, since), f) e).1.2.
Proof.
  intros f1 Hl Hreply Hg Hrf Hset. unfold loop_step, bridge_tick. cbn [fst snd]. fold f1.
  cbn [loop_tick t_leader t_now t_pass]. rewrite Hl. cbn [negb]. unfold reconcile.
  cbn [p_gossip p_committed p_now p_propose].
  destruct (SameContent (store_State f1) (desired_state b (su_gossip e))) eqn:Hsame; cbn [fst snd].
  { by apply SameContent_view in Hsame. }
  assert (proposeAllowed b (store_State f1) (desired_state b (su_gossip e))
    (default (su_now e) since) (su_later e) = true) as ->.
  { unfold proposeAllowed. rewrite desired_published by done. cbn [st_Nodes].
    destruct Hset as [Hne|Hset]; [by destruct (ms_Nodes (su_gossip e))|].
    case_match; [done|]. by apply Z.leb_le. }
  cbn [negb fst snd]. rewrite Hreply. cbn [reply_index]. rewrite desired_published by done.
  destruct (Apply_encodeCommand f1 (MkState (ms_Nodes (su_gossip e)) (b_factor b) 0) index
    (published_proposable _ _ _ Hg Hrf)) as (f' & -> & Hn & Hr & _).
  split; [|done]. cbn [fst]. rewrite Hn. by apply published_normal.
Qed.

(** Ticks after convergence change nothing and propose nothing. *)
Lemma loop_quiet b since f es ns :
  published_ok ns → holds_view (b_factor b) ns f →
  Forall (fun e => ms_Nodes (su_gossip e) = ns ∧ su_arrived e = []) es →
  (loop_run ((b, since), f) es).1.1 = b ∧ (loop_run ((b, since), f) es).2 = f ∧
  Forall (.= None) (loop_proposals ((b, since), f) es).
Proof.
  intros Hns Hf HF. revert since. induction HF as [|e es [Hg Ha] _ IH]; intros since; [done|].
  assert (∃ since', loop_step ((b, since), f) e = (((b, since'), f), None)) as [since' Hstep].
  { unfold loop_step, bridge_tick, reconcile. rewrite Ha.
    cbn [fst snd loop_tick t_leader t_now t_pass p_gossip p_committed apply_log foldl].
    destruct (su_leader e); cbn [negb]; [|by exists None].
    assert (SameContent (store_State f) (desired_state b (su_gossip e)) = true) as ->
      by (apply SameContent_view; rewrite Hg; done).
    eauto. }
  cbn [loop_run loop_proposals foldl]. rewrite Hstep. cbn [fst snd].
  destruct (IH since') as (H1 & H2 & H3). split_and!; [done|done|]. by constructor.
Qed.
End loop.

(** ** Properties *)

(** C8: a new leader never wipes the membership on a cold view: if a tick
    proposes an empty node set over a non-empty committed one, then the replica
    has been leader at every tick since one at least [settleWindow] earlier. *)
Theorem bridge_settles {E} b (ts : list (tick E)) t d
  (Hpropose : (bridge_tick (bridge_run b ts) t).2 = Some d)
  (Hempty : st_Nodes d = [])
  (Hcommitted : st_Nodes (p_committed (t_pass t)) ≠ []) :
  ∃ before first term, ts ++ [t] = before ++ first :: term ∧
    Forall (fun t => t_leader t = true) (first :: term) ∧
    b_settleWindow b <= p_now (t_pass t) - t_now first.
Proof.
  apply bridge_tick_proposes in Hpropose as (_ & _ & _ & since & Hsince & Ha).
  destruct (bridge_run_since b (ts ++ [t]) since) as (before & first & term & Heq & <- & HF).
  { unfold bridge_run. rewrite foldl_app. exact Hsince. }
  exists before, first, term. split_and!; [done|done|].
  unfold proposeAllowed in Ha. rewrite Hempty in Ha.
  destruct (st_Nodes (p_committed (t_pass t))) as [|n ns]; [done|]. cbn in Ha.
  rewrite (proj2 (bridge_run_settings b ts)) in Ha. by apply Z.leb_le.
Qed.

Definition example_bridge : Bridge := MkBridge 1 200 2000 0 0.
Definition example_tick (now : Z) (leader : bool) : tick unit :=
  MkTick leader now
    (MkPass (MkMemberSnapshot 0 [] None) (MkState [MkNode "node-0" "h:1"] 1 2) now (fun _ => Ok ())).

Lemma bridge_settles_witness :
  ∃ before first term,
    [example_tick 100 true; example_tick 2200 true] = before ++ first :: term ∧
    2000 <= 2200 - t_now first.
Proof.
  destruct (bridge_settles example_bridge [example_tick 100 true] (example_tick 2200 true)
    (MkState [] 1 0)) as (before & first & term & Heq & _ & H); [reflexivity|reflexivity|discriminate|].
  exists before, first, term. split; [exact Heq|exact H].
Defined.

(** C22: the metadata plane follows gossip and then falls silent.  Take any run of
    the bridge over its own state machine, whatever Raft did with earlier
    proposals and whoever else led, and a tick at which this replica leads and
    Raft commits what it proposes, if it proposes.  If the gossip view of that tick
    is not empty, or the replica has led at every tick from one at least the settle
    window earlier, then after the tick the committed state is exactly the view's
    nodes with this replica's factor.  And as long as the view keeps those nodes
    and nobody else's entry arrives, no later tick proposes anything, the
    counters stand still and the committed state stays. *)
Theorem bridge_converges {E} (lost : E → bool) b f before t after index
  (Hview : published_ok (ms_Nodes (su_gossip t)))
  (Hfactor : 0 ≤ b_factor b ≤ maxInt64)
  (Hleader : su_leader t = true)
  (Hraft : su_reply t = Committed index)
  (Hsettled : ms_Nodes (su_gossip t) ≠ [] ∨
     ∃ earlier first mid, before = earlier ++ first :: mid ∧
       Forall (fun e => su_leader e = true) (first :: mid) ∧
       Forall (fun e => su_now e ≤ su_now first) earlier ∧
       b_settleWindow b ≤ su_later t - su_now first)
  (Hstable : Forall (fun e => ms_Nodes (su_gossip e) = ms_Nodes (su_gossip t) ∧
                              su_arrived e = []) after) :
  let s := loop_run lost ((b, None), f) (before ++ [t]) in
  holds_view (b_factor b) (ms_Nodes (su_gossip t)) s.2 ∧
  Forall (.= None) (loop_proposals lost s after) ∧
  (loop_run lost s after).1.1 = s.1.1 ∧ (loop_run lost s after).2 = s.2.
Proof.
  cbn zeta.
  replace (loop_run lost ((b, None), f) (before ++ [t]))
    with (loop_step lost (loop_run lost ((b, None), f) before) t).1 by (unfold loop_run; by rewrite foldl_app).
  destruct (loop_run lost ((b, None), f) before) as [[b' since] f'] eqn:Hrun.
  destruct (loop_run_settings lost ((b, None), f) before) as [Hrf Hsw]. rewrite Hrun in Hrf, Hsw.
  cbn in Hrf, Hsw.
  assert (holds_view (b_factor b) (ms_Nodes (su_gossip t)) (loop_step lost ((b', since), f') t).1.2) as Hv.
  { rewrite <-Hrf. apply (loop_step_commits lost b' since f' t index); [done..|lia|].
    destruct Hsettled as [?|(earlier & first & mid & -> & Hl & Hc & Hw)]; [by left|right].
    apply Forall_cons in Hl as [Hl1 Hl2].
    assert (default (su_now first) (loop_run lost ((b, None), f) earlier).1.2 ≤ su_now first) as Hle
      by (by apply loop_run_since_le; [|cbn]).
    unfold loop_run in Hrun, Hle. rewrite foldl_app in Hrun. cbn [foldl] in Hrun.
    pose proof (loop_run_since_stays lost
      (loop_step lost (foldl (fun s e => (loop_step lost s e).1) ((b, None), f) earlier) first).1 mid _ Hl2
      ltac:(rewrite loop_step_since, Hl1; reflexivity)) as Hs.
    unfold loop_run in Hs. rewrite Hrun in Hs. cbn [fst snd] in Hs. rewrite Hs, Hsw.
    unfold default, from_option, id in *. lia. }
  pose proof (loop_step_settings lost ((b', since), f') t) as [Hrf' _]. cbn [fst] in Hrf'.
  destruct (loop_step lost ((b', since), f') t).1 as [[b'' since''] f'']. cbn [fst snd] in *.
  destruct (loop_quiet lost b'' since'' f'' after _ Hview ltac:(by rewrite Hrf', Hrf) Hstable)
    as (H1 & H2 & H3).
  done.
Qed.

(** A leader whose first proposal fails, a node set emptied only once the settle
    window is over, and silence after it. *)
Definition example_around (now : Z) (g : MemberSnapshot) (r : raft_reply unit) : surroundings unit :=
  MkSurroundings [] true now now g r.
Definition example_gossip : MemberSnapshot :=
  view_Snapshot (view_run 512 map_to_list (take 2 example_history)).
Definition empty_gossip : MemberSnapshot := view_Snapshot (view_run 512 map_to_list []).

Lemma bridge_converges_witness :
  let before := [example_around 100 example_gossip (Failed None ());
                 example_around 300 example_gossip (Committed 2);
                 example_around 500 empty_gossip (Committed 3)] in
  let run := loop_run (fun _ => false) ((example_bridge, None), newFSM) in
  st_Nodes (f_state (run before).2) =
    [MkNode "node-0" "10.0.0.1:7100"; MkNode "node-1" "10.0.0.2:7100"] ∧
  st_Nodes (f_state (run (before ++ [example_around 2200 empty_gossip (Committed 3)])).2) = [] ∧
  Stats (run (before ++ [example_around 2200 empty_gossip (Committed 3)])).1.1 = (2, 1).
Proof.
  intros before run.
  destruct (bridge_converges (fun _ => false) example_bridge newFSM before
    (example_around 2200 empty_gossip (Committed 3))
    [example_around 2400 empty_gossip Moved] 3) as ([H _] & _ & _ & _).
  - apply (published_ok_run 512 map_to_list (fun _ => reflexivity _) []).
  - cbn. unfold maxInt64. lia.
  - reflexivity.
  - reflexivity.
  - right. exists [], (example_around 100 example_gossip (Failed None ())),
      [example_around 300 example_gossip (Committed 2); example_around 500 empty_gossip (Committed 3)].
    split; [reflexivity|]. split; [repeat constructor|]. split; [constructor|]. cbn. lia.
  - repeat constructor.
  - split; [vm_compute; reflexivity|]. split; [exact H|vm_compute; reflexivity].
Defined.
