(* ===== verification/Service.v ===== *)
(** * ClusterMetadataService ([internal/metadata/service.go])

    The service publishes placement computed from a [membership.Source].  The
    interface is the class [Source]: a snapshot, and the optional [Readiness]
    capability.  [LawfulSource] states what a source promises — a node set of
    distinct, complete nodes — and is discharged by the gossip view and by the
    Raft store whose log the bridge wrote; the service's theorems are proved
    against the law.  A handler consults readiness and reads the snapshot at two
    instants, so it takes the source at both. *)

From S2P Require Import Prelude Sha256 Router Topology NodeMeta View Fsm Store Bridge.
Local Open Scope Z_scope.

(** ** The source interface *)

Class Source (T : Type) := {
  source_Snapshot : T → MemberSnapshot;
  (** [None] when the source does not implement [Readiness]. *)
  source_Readiness : option (T → option catching_up)
}.

#[export] Instance view_source : Source view :=
  {| source_Snapshot := view_Snapshot; source_Readiness := None |}.

(** The Raft-backed source: the store, what [ServeReady] reads, and the FSM. *)
Record RaftSource := MkRaftSource { rs_store : Store; rs_reads : reads; rs_fsm : fsm }.

#[export] Instance raft_source : Source RaftSource :=
  {| source_Snapshot := fun s => store_Snapshot (rs_fsm s);
     source_Readiness := Some (fun s => (ServeReady (rs_store s) (rs_reads s)).2) |}.

Class LawfulSource (T : Type) `{!Source T} (reachable : T → Prop) : Prop :=
  lawful_nodes t : reachable t →
    node_set (ms_Nodes (source_Snapshot t)) ∧ Forall full_node (ms_Nodes (source_Snapshot t)).

(** ** The service *)

Record Service := MkService {
  svc_shardCount : Z;
  svc_replicationFactor : Z;
  svc_leaderInfo : option (string * Z)
}.

Inductive new_service_error := NilConfig | NilSource | ZeroShardCount | NegativeConfigFactor (rf : Z).

(** [New]; [cfg] is the shard count and effective replication factor, and a nil
    config or source is [None]. *)
Definition NewService {T} (cfg : option (Z * Z)) (source : option T) (leaderInfo : option (string * Z))
    : result new_service_error Service :=
  match cfg, source with
  | None, _ => Err NilConfig
  | _, None => Err NilSource
  | Some (shardCount, rf), Some _ =>
      if shardCount =? 0 then Err ZeroShardCount
      else if rf <? 0 then Err (NegativeConfigFactor rf)
      else Ok (MkService shardCount rf leaderInfo)
  end.

Inductive rpc_error :=
| Unavailable (e : catching_up)
| InternalEmptyNode | InternalDuplicateID (id : string) | InternalDuplicateAddress (a : string)
| InternalNegativeFactor (rf : Z)
| InternalCounts (shards owners : nat) | InternalPrimary (shard : Z)
| PanicMake.

#[export] Instance rpc_error_eq_dec : EqDecision catching_up → EqDecision rpc_error.
Proof. solve_decision. Defined.

(** The duplicate scan of [Service.snapshot]. *)
Definition scan_node (acc : gset string * gset string) (n : Node)
    : result rpc_error (gset string * gset string) :=
  let '(seenIDs, seenAddresses) := acc in
  _ ← guard_err (negb (bool_decide (NodeID n = "" ∨ Address n = ""))) InternalEmptyNode;
  _ ← guard_err (bool_decide (NodeID n ∉ seenIDs)) (InternalDuplicateID (NodeID n));
  _ ← guard_err (bool_decide (Address n ∉ seenAddresses)) (InternalDuplicateAddress (Address n));
  Ok ({[NodeID n]} ∪ seenIDs, {[Address n]} ∪ seenAddresses).

Record placement := MkPlacement {
  pl_shardCount : Z;
  pl_replicationFactor : Z;
  pl_addresses : gmap string string;
  pl_shardMap : gmap Z string;
  pl_owners : gmap Z ShardOwners
}.

Definition placement_fingerprintInput (p : placement) : FingerprintInput :=
  MkFingerprintInput (pl_shardCount p) (pl_replicationFactor p) (pl_addresses p)
    (pl_shardMap p) (pl_owners p).

(** The factor of the snapshot when the source is authoritative about it. *)
Definition effective_factor (s : Service) (snapshot : MemberSnapshot) : Z :=
  default (svc_replicationFactor s) (ms_ReplicationFactor snapshot).

(** The shard, if any, whose owner is not the computed primary. *)
Definition find_mismatch (shardMap : gmap Z string) (owners : gmap Z ShardOwners) : option Z :=
  fst <$> List.find (fun kv => negb (bool_decide
            (default "" (Primary <$> owners !! kv.1) = kv.2))) (map_to_list shardMap).

Definition service_placement (s : Service) (snapshot : MemberSnapshot) : result rpc_error placement :=
  let addresses := foldl (fun m n => <[NodeID n := Address n]> m) ∅ (ms_Nodes snapshot) in
  let nodeIDs := NodeID <$> ms_Nodes snapshot in
  let rf := effective_factor s snapshot in
  if rf <? 0 then Err (InternalNegativeFactor rf)
  else
    let shardMap := AssignShards nodeIDs (svc_shardCount s) in
    match AssignShardOwners nodeIDs (svc_shardCount s) rf with
    | None => Err PanicMake
    | Some owners =>
        if negb (bool_decide (size shardMap = size owners))
        then Err (InternalCounts (size shardMap) (size owners))
        else match find_mismatch shardMap owners with
             | Some shard => Err (InternalPrimary shard)
             | None => Ok (MkPlacement (svc_shardCount s) (u32 rf) addresses shardMap owners)
             end
    end.

(** [leader]. *)
Definition service_leader (s : Service) : string * Z := default ("", 0) (svc_leaderInfo s).

Section handlers.
Context {T : Type} `{!Source T}.

Definition service_snapshot (gate read : T) : result rpc_error MemberSnapshot :=
  match source_Readiness ≫= (fun ready => ready gate) with
  | Some e => Err (Unavailable e)
  | None =>
      let snapshot := source_Snapshot read in
      _ ← foldM scan_node (∅, ∅) (ms_Nodes snapshot);
      Ok snapshot
  end.

Definition GetNodeList (s : Service) (gate read : T) : result rpc_error GetNodeListResponse :=
  snapshot ← service_snapshot gate read;
  let nodes := (fun n => Some (MkNodeInfo (NodeID n) (Address n) true)) <$> ms_Nodes snapshot in
  placement ← service_placement s snapshot;
  Ok (MkNodeListResponse nodes (ms_Generation snapshot)
        (Fingerprint (placement_fingerprintInput placement))).

Definition GetShardMap (s : Service) (gate read : T) : result rpc_error GetShardMapResponse :=
  snapshot ← service_snapshot gate read;
  placement ← service_placement s snapshot;
  let wireOwners := Some <$> pl_owners placement in
  let '(leaderID, term) := service_leader s in
  Ok (MkShardMapResponse (pl_shardMap placement) (ms_Generation snapshot)
        (Fingerprint (placement_fingerprintInput placement)) (svc_shardCount s)
        wireOwners (pl_replicationFactor placement) leaderID term).
End handlers.

(** ** Lemmas *)

Lemma scan_node_Ok seen n acc :
  scan_node seen n = Ok acc ↔
  full_node n ∧ NodeID n ∉ seen.1 ∧ Address n ∉ seen.2 ∧
  acc = ({[NodeID n]} ∪ seen.1, {[Address n]} ∪ seen.2).
Proof.
  destruct seen as [ids addrs]. unfold scan_node, full_node. cbn [fst snd]. split.
  - intros H. inv_ok. rewrite negb_true_iff, bool_decide_eq_false in *.
    rewrite !bool_decide_eq_true in *. split_and!; tauto || done.
  - intros ([Hi Ha] & Hs1 & Hs2 & ->).
    rewrite (bool_decide_eq_false_2 (NodeID n = "" ∨ _)) by tauto.
    rewrite (bool_decide_eq_true_2 (NodeID n ∉ ids)), (bool_decide_eq_true_2 (Address n ∉ addrs)) by done.
    done.
Qed.

Lemma scan_nodes_Ok ns ids addrs :
  is_ok (foldM scan_node (ids, addrs) ns) = true ↔
  Forall full_node ns ∧ node_set ns ∧
  (∀ n, n ∈ ns → NodeID n ∉ ids ∧ Address n ∉ addrs).
Proof.
  revert ids addrs. induction ns as [|n ns IH]; intros ids addrs; cbn [foldM].
  - split; [|done]. intros _. split; [constructor|]. split; [split; constructor|set_solver].
  - destruct (scan_node (ids, addrs) n) as [[ids' addrs']|e] eqn:Hn; cbn [mbind result_bind].
    + apply scan_node_Ok in Hn as (Hf & Hi & Ha & [= -> ->]). cbn in Hi, Ha. rewrite IH.
      unfold node_set. rewrite !fmap_cons, !NoDup_cons, Forall_cons. split.
      * intros (H1 & [H2 H3] & H4). split_and!; try done.
        -- intros (m & Hm & Hin)%list_elem_of_fmap. apply H4 in Hin as [? _]. set_solver.
        -- intros (m & Hm & Hin)%list_elem_of_fmap. apply H4 in Hin as [_ ?]. set_solver.
        -- intros m [->|Hm]%elem_of_cons; [done|]. apply H4 in Hm. set_solver.
      * intros ([_ H1] & [[H2 H3] [H4 H5]] & H6). split_and!; try done. intros m Hm.
        assert (NodeID m ∉ ids ∧ Address m ∉ addrs) as [? ?] by (apply H6; set_solver).
        split; rewrite not_elem_of_union, not_elem_of_singleton; (split; [|done]); intros Heq.
        -- apply H2. apply list_elem_of_fmap. eauto.
        -- apply H4. apply list_elem_of_fmap. eauto.
    + split; [done|]. intros (HF & [Hn1 Hn2] & Hd). exfalso.
      apply Forall_cons in HF as [Hf _]. destruct (Hd n ltac:(set_solver)) as [? ?].
      assert (scan_node (ids, addrs) n = Ok ({[NodeID n]} ∪ ids, {[Address n]} ∪ addrs)) as Ho
        by (by apply scan_node_Ok). congruence.
Qed.

Definition snapshot_good (snap : MemberSnapshot) : Prop :=
  node_set (ms_Nodes snap) ∧ Forall full_node (ms_Nodes snap).

Lemma service_snapshot_Ok {T} `{!Source T} (gate read : T) snap :
  service_snapshot gate read = Ok snap ↔
  source_Readiness ≫= (fun ready => ready gate) = None ∧
  snap = source_Snapshot read ∧ snapshot_good snap.
Proof.
  unfold service_snapshot, snapshot_good. destruct (source_Readiness ≫= _); [naive_solver|].
  pose proof (scan_nodes_Ok (ms_Nodes (source_Snapshot read)) ∅ ∅) as Hs.
  destruct (foldM _ _ _) as [a|e]; cbn [mbind result_bind is_ok] in *.
  - split; [intros [= <-]|intros (_ & -> & _); done].
    destruct Hs as [Hs _]. destruct Hs as (? & ? & _); done.
  - split; [done|]. intros (_ & -> & H1 & H2). exfalso.
    assert (false = true); [|done]. apply Hs. split_and!; [done|done|]. set_solver.
Qed.

Lemma addresses_fold (ns : list Node) (m : gmap string string) :
  NoDup (NodeID <$> ns) →
  foldl (fun m n => <[NodeID n := Address n]> m) m ns =
    list_to_map ((fun n => (NodeID n, Address n)) <$> ns) ∪ m.
Proof.
  revert m. induction ns as [|n ns IH]; intros m Hnd; cbn [foldl].
  - symmetry. apply (left_id_L ∅ (∪)).
  - rewrite fmap_cons, NoDup_cons in Hnd. destruct Hnd as [Hn Hnd].
    rewrite IH by done. rewrite fmap_cons, list_to_map_union_cons; [done|].
    by rewrite <-list_fmap_compose.
Qed.

Lemma find_mismatch_None sm owners :
  PrimaryMap owners = sm → find_mismatch sm owners = None.
Proof.
  intros <-. unfold find_mismatch. rewrite fmap_None.
  destruct (List.find _ _) as [[k v]|] eqn:Hf; [|done]. exfalso.
  apply find_some in Hf as [Hin Hb]. apply list_elem_of_In, elem_of_map_to_list in Hin.
  unfold PrimaryMap in Hin. rewrite lookup_fmap in Hin. cbn in Hb. rewrite Hin in Hb. cbn in Hb.
  by rewrite bool_decide_eq_true_2 in Hb.
Qed.

(** The placement is the router's, and its internal assertions never fire. *)
Lemma service_placement_Ok s snap owners :
  0 ≤ effective_factor s snap ≤ maxInt64 → snapshot_good snap →
  AssignShardOwners (NodeID <$> ms_Nodes snap) (svc_shardCount s) (effective_factor s snap) = Some owners →
  service_placement s snap =
    Ok (MkPlacement (svc_shardCount s) (u32 (effective_factor s snap))
          (list_to_map ((fun n => (NodeID n, Address n)) <$> ms_Nodes snap))
          (AssignShards (NodeID <$> ms_Nodes snap) (svc_shardCount s)) owners).
Proof.
  intros Hrf [[Hnd _] _] Ho. unfold service_placement.
  rewrite (proj2 (Z.ltb_ge _ _)), Ho by lia.
  assert (in_i64 (effective_factor s snap)) as Hi by (unfold in_i64, maxInt64 in *; lia).
  pose proof (PrimaryMap_AssignShardOwners _ _ _ _ Hi Ho) as Hp.
  rewrite bool_decide_eq_true_2.
  2:{ rewrite <-Hp. unfold PrimaryMap. by rewrite map_size_fmap. }
  cbn [negb]. rewrite find_mismatch_None by done.
  rewrite addresses_fold, (right_id_L ∅ (∪)) by done. done.
Qed.

(** ** The law, discharged *)

(** A gossip view that came about through memberlist's events. *)
Definition view_reachable (v : view) : Prop :=
  ∃ M range es, (∀ m, range m ≡ₚ map_to_list m) ∧ v = view_run M range es.

Lemma published_full ns : published_ok ns → node_set ns ∧ Forall full_node ns.
Proof.
  intros Hp. split; [apply Hp|]. by destruct (published_proposable ns 0 0 Hp) as [? _];
    [unfold maxInt64; lia|].
Qed.

#[export] Instance view_lawful : LawfulSource view view_reachable.
Proof.
  intros v (M & range & es & Hr & ->). apply published_full. by apply published_ok_run.
Qed.

(** A replica whose log the bridges of the group wrote: every entry it applied
    encodes some bridge's view of gossip. *)
Definition bridge_entry (e : raft_Log) : Prop :=
  ∃ b obs, published_ok (ms_Nodes obs) ∧ 0 ≤ b_factor b ≤ maxInt64 ∧
           log_Data e = encodeCommand (desired_state b obs).

Definition raft_reachable (s : RaftSource) : Prop :=
  ∃ log, Forall bridge_entry log ∧ rs_fsm s = apply_log newFSM log.

Lemma bridge_log_published log :
  Forall bridge_entry log → published_ok (st_Nodes (f_state (apply_log newFSM log))).
Proof.
  intros HF. induction log as [|e log IH] using rev_ind.
  - split; [by split; constructor|]. split; constructor.
  - apply Forall_app in HF as [HF He]. rewrite apply_log_app.
    change (apply_log (apply_log newFSM log) [e]) with (Apply (apply_log newFSM log) e).1.
    apply Forall_cons in He as [(b & obs & Hobs & Hb & Hd) _]. specialize (IH HF).
    destruct e as [i data]. cbn [log_Data] in Hd. subst data.
    destruct (Apply_encodeCommand (apply_log newFSM log) (desired_state b obs) i) as (f' & -> & Hn & _).
    { unfold desired_state. rewrite published_normal by done. by apply published_proposable. }
    cbn. rewrite Hn. cbn. by rewrite !published_normal by (rewrite ?published_normal; done).
Qed.

#[export] Instance raft_lawful : LawfulSource RaftSource raft_reachable.
Proof.
  intros s (log & Hlog & Hf). cbn. rewrite Hf. by apply published_full, bridge_log_published.
Qed.

(** ** What a fetch of the service returns *)

Lemma Fingerprint_length fi : length (Fingerprint fi) = FingerprintSize.
Proof. apply length_sha256. Qed.

Section serving.
Context (s : Service) (snap : MemberSnapshot) (owners : gmap Z ShardOwners).
Context (Hgood : snapshot_good snap).
Context (Hsc : 0 < svc_shardCount s < 2 ^ 32).
Context (Hlen : Z.of_nat (length (ms_Nodes snap)) < 2 ^ 32).
Context (Hrf : 0 ≤ effective_factor s snap ≤ maxInt64).
Context (Howners : AssignShardOwners (NodeID <$> ms_Nodes snap) (svc_shardCount s)
                     (effective_factor s snap) = Some owners).

Definition wire_infos : list NodeInfo := (fun n => MkNodeInfo (NodeID n) (Address n) true) <$> ms_Nodes snap.
Definition wire_shards : gmap Z string := AssignShards (NodeID <$> ms_Nodes snap) (svc_shardCount s).

Lemma wire_pairs : node_pairs wire_infos = (fun n => (NodeID n, Address n)) <$> ms_Nodes snap.
Proof using Type. unfold node_pairs, wire_infos. by rewrite <-list_fmap_compose. Qed.

Lemma wire_infos_ok : node_list_ok wire_infos.
Proof using Hgood.
  destruct Hgood as [[H1 H2] H3]. unfold node_list_ok, wire_infos.
  rewrite <-!list_fmap_compose. split_and!; [|done|done].
  apply Forall_fmap. eapply Forall_impl; [done|]. by intros n [? ?].
Qed.

Lemma lookup_owners sh :
  owners !! sh = if decide (0 ≤ sh < svc_shardCount s)
                 then owners_spec sh (NodeID <$> ms_Nodes snap) (effective_factor s snap) else None.
Proof using Hrf Howners.
  apply lookup_AssignShardOwners; [unfold in_i64, maxInt64 in *; lia|done].
Qed.

Lemma owners_primary : PrimaryMap owners = wire_shards.
Proof using Hrf Howners.
  eapply PrimaryMap_AssignShardOwners; [|done]. unfold in_i64, maxInt64 in *. lia.
Qed.

Lemma lookup_wire_address id :
  id ∈ NodeID <$> ms_Nodes snap →
  is_Some ((list_to_map (node_pairs wire_infos) : gmap string string) !! id).
Proof using Hgood.
  intros (n & -> & Hn)%list_elem_of_fmap. exists (Address n).
  apply lookup_node_pairs; [apply wire_infos_ok|].
  exists (MkNodeInfo (NodeID n) (Address n) true). split; [|done].
  apply list_elem_of_fmap. eauto.
Qed.

(** Every shard of a non-empty cluster has its owners, all of them live. *)
Lemma wire_shard_ok sh hasOwners :
  ms_Nodes snap ≠ [] → 0 ≤ sh < svc_shardCount s →
  shard_ok (list_to_map (node_pairs wire_infos)) wire_shards (Some <$> owners) hasOwners sh.
Proof using All.
  intros Hne Hsh.
  destruct (owners_spec sh (NodeID <$> ms_Nodes snap) (effective_factor s snap)) as [o|] eqn:Ho.
  2:{ exfalso. pose proof (owners_spec_head sh (NodeID <$> ms_Nodes snap) (effective_factor s snap)) as Hh.
      rewrite Ho in Hh. cbn in Hh.
      pose proof (length_ranked_ids sh (NodeID <$> ms_Nodes snap)) as Hl.
      destruct (ranked_ids _ _); [|done]. rewrite length_fmap in Hl. by destruct (ms_Nodes snap). }
  destruct (owners_wf sh _ _ o (proj1 (proj1 Hgood)) Ho) as (Hnd & Hin & _).
  assert (owners !! sh = Some o) as Hlk by (rewrite lookup_owners, decide_True by done; done).
  exists (Primary o). split_and!.
  - rewrite <-owners_primary. unfold PrimaryMap. by rewrite lookup_fmap, Hlk.
  - apply lookup_wire_address, Hin. set_solver.
  - intros _. exists o. rewrite lookup_fmap, Hlk. split; [done|]. split_and!; [done|done|].
    apply Forall_forall. intros r Hr. apply lookup_wire_address, Hin. set_solver.
Qed.

Lemma size_wire_shards :
  ms_Nodes snap ≠ [] → Z.of_nat (size wire_shards) = svc_shardCount s.
Proof using All.
  intros Hne. replace (size wire_shards) with (length (seqZ 0 (svc_shardCount s))).
  { rewrite length_seqZ. lia. }
  rewrite <-size_dom, <-(size_list_to_set (C := gset Z)) by apply NoDup_seqZ. f_equal.
  apply leibniz_equiv. intros sh. rewrite elem_of_list_to_set, elem_of_seqZ, elem_of_dom. split.
  - intros Hs. destruct (wire_shard_ok sh false Hne) as (o & -> & _); [lia|done].
  - unfold wire_shards. rewrite lookup_AssignShards. case_decide; [lia|by intros []].
Qed.

Lemma wire_acceptable :
  acceptable (svc_shardCount s) wire_infos wire_shards (Some <$> owners).
Proof using All.
  split; [lia|]. split; [apply wire_infos_ok|].
  assert (wire_infos = [] ↔ ms_Nodes snap = []) as Hnil.
  { unfold wire_infos. split; [apply fmap_nil_inv|by intros ->]. }
  destruct (decide (wire_infos = [])) as [Hi|Hi].
  - apply Hnil in Hi. pose proof owners_primary as Hp. unfold wire_shards in *.
    rewrite Hi in *. cbn in *. split; [done|].
    assert (owners = ∅) as ->; [|apply fmap_empty].
    unfold PrimaryMap in Hp. by apply fmap_empty_iff in Hp.
  - assert (ms_Nodes snap ≠ []) as Hne by (by rewrite <-Hnil).
    split; [by apply size_wire_shards|]. split.
    + right. rewrite map_size_fmap. rewrite <-(size_wire_shards Hne), <-owners_primary.
      unfold PrimaryMap. rewrite map_size_fmap. apply u32_id.
      pose proof (size_wire_shards Hne) as Hz. rewrite <-owners_primary in Hz. unfold PrimaryMap in Hz.
      rewrite map_size_fmap in Hz. unfold in_u32. lia.
    + intros sh Hsh. by apply wire_shard_ok.
Qed.

Lemma wire_owners_id : wire_owners (svc_shardCount s) (Some <$> owners) = owners.
Proof using All.
  apply map_eq. intros sh. rewrite lookup_wire_owners, lookup_fmap.
  destruct (decide (0 ≤ sh < svc_shardCount s)) as [Hs|Hs].
  - by destruct (owners !! sh).
  - by rewrite lookup_owners, decide_False.
Qed.

Definition served_input : FingerprintInput :=
  MkFingerprintInput (svc_shardCount s) (u32 (effective_factor s snap))
    (list_to_map (node_pairs wire_infos)) wire_shards owners.

Definition served_nodes : GetNodeListResponse :=
  MkNodeListResponse (Some <$> wire_infos) (ms_Generation snap) (Fingerprint served_input).
Definition served_shards : GetShardMapResponse :=
  MkShardMapResponse wire_shards (ms_Generation snap) (Fingerprint served_input) (svc_shardCount s)
    (Some <$> owners) (u32 (effective_factor s snap)) (service_leader s).1 (service_leader s).2.
Definition served_snapshot : Snapshot :=
  MkSnapshot (ms_Generation snap) (Fingerprint served_input) (svc_shardCount s) wire_shards
    (list_to_map (node_pairs wire_infos)) owners (u32 (effective_factor s snap))
    (service_leader s).1 (service_leader s).2.

Lemma served_handlers {T} `{!Source T} (gate read : T) :
  source_Snapshot read = snap → source_Readiness ≫= (fun ready => ready gate) = None →
  GetNodeList s gate read = Ok served_nodes ∧ GetShardMap s gate read = Ok served_shards.
Proof using All.
  intros Hread Hgate. unfold GetNodeList, GetShardMap.
  rewrite (proj2 (service_snapshot_Ok gate read snap)) by done. cbn [mbind result_bind].
  rewrite (service_placement_Ok s snap owners) by done. cbn [mbind result_bind].
  unfold served_nodes, served_shards, served_input. rewrite wire_pairs.
  unfold placement_fingerprintInput. cbn [pl_shardCount pl_replicationFactor pl_addresses pl_shardMap pl_owners].
  split; [unfold wire_infos; by rewrite <-list_fmap_compose|]. by destruct (service_leader s).
Qed.

Lemma accept_served {E} :
  accept (E := E) served_nodes served_shards = Return (Ok served_snapshot).
Proof using All.
  assert (Hfp : ∀ fi, Fingerprint fi ≠ []).
  { intros fi Hf. pose proof (Fingerprint_length fi) as Hl. by rewrite Hf in Hl. }
  unfold accept, accept_fingerprinted. cbn -[Fingerprint].
  rewrite !bool_decide_eq_false_2 by apply Hfp. cbn [negb orb].
  rewrite !Fingerprint_length, bool_decide_eq_true_2 by done. cbn [negb andb].
  rewrite bool_decide_eq_true_2 by done. cbn [negb].
  rewrite (proj2 (validate_Ok (ms_Generation snap) (svc_shardCount s) (Some <$> wire_infos) wire_shards
    (Some <$> owners) (u32 (effective_factor s snap)) _ ltac:(unfold in_u32; lia)
    ltac:(unfold wire_infos; rewrite !length_fmap; lia)))
    by (exists wire_infos; split; [done|]; split; [apply wire_acceptable|reflexivity]).
  assert (Snapshot_FingerprintInput (accepted (ms_Generation snap) (svc_shardCount s) wire_infos wire_shards
    (Some <$> owners) (u32 (effective_factor s snap))) = served_input) as ->.
  { unfold Snapshot_FingerprintInput, accepted, served_input. cbn. by rewrite wire_owners_id. }
  rewrite bool_decide_eq_true_2 by done. cbn [negb].
  unfold with_raft, with_fingerprint, accepted, served_snapshot. cbn -[Fingerprint].
  by rewrite wire_owners_id.
Qed.
(** The hashed content is within the widths the stream encodes. *)
Lemma served_input_wf :
  Forall (fun n => short (NodeID n) ∧ short (Address n)) (ms_Nodes snap) → fi_wf served_input.
Proof using All.
  intros Hshort.
  assert (Hids : ∀ id, id ∈ NodeID <$> ms_Nodes snap → short id).
  { intros id (n & -> & Hn)%list_elem_of_fmap. rewrite Forall_forall in Hshort. by apply Hshort. }
  assert (Hsize : length (NodeID <$> ms_Nodes snap) = length (ms_Nodes snap)) by apply length_fmap.
  split; cbn.
  - unfold in_u32. lia.
  - apply u32_range.
  - rewrite size_node_pairs by apply wire_infos_ok. unfold wire_infos. rewrite length_fmap. lia.
  - intros id a (n & Hn & <- & <-)%lookup_node_pairs; [|apply wire_infos_ok].
    apply list_elem_of_fmap in Hn as (m & -> & Hm). rewrite Forall_forall in Hshort. by apply Hshort.
  - intros sh o Ho. unfold wire_shards in Ho. rewrite lookup_AssignShards in Ho.
    case_decide; [|done]. split; [lia|]. apply Hids. by apply (head_ranked_ids_argmax sh).
  - intros sh o Ho. rewrite lookup_owners in Ho. case_decide; [|done]. split; [lia|].
    destruct (owners_wf sh _ _ o (proj1 (proj1 Hgood)) Ho) as (_ & Hin & Hl). split_and!.
    + apply Hids, Hin. set_solver.
    + apply Forall_forall. intros r Hr. apply Hids, Hin. set_solver.
    + rewrite Hl, Hsize. lia.
Qed.
End serving.

(** Both handlers succeed only on a good snapshot, with an owner map. *)
Lemma service_placement_inv s snap p :
  service_placement s snap = Ok p →
  0 ≤ effective_factor s snap ∧
  ∃ owners, AssignShardOwners (NodeID <$> ms_Nodes snap) (svc_shardCount s)
              (effective_factor s snap) = Some owners.
Proof.
  unfold service_placement. destruct (Z.ltb_spec (effective_factor s snap) 0); [done|].
  destruct (AssignShardOwners _ _ _) as [owners|]; [|done]. intros _. eauto.
Qed.

(** What a moment of the source must fit for its topology to be hashed without
    truncation. *)
Definition moment_small {T} `{!Source T} (s : Service) (t : T) : Prop :=
  Z.of_nat (length (ms_Nodes (source_Snapshot t))) < 2 ^ 32 ∧
  effective_factor s (source_Snapshot t) ≤ maxInt64 ∧
  Forall (fun n => short (NodeID n) ∧ short (Address n)) (ms_Nodes (source_Snapshot t)).

Lemma GetNodeList_inv {T} `{!Source T} (s : Service) (gate read : T) nl :
  0 < svc_shardCount s < 2 ^ 32 → moment_small s read → GetNodeList s gate read = Ok nl →
  ∃ owners, nl = served_nodes s (source_Snapshot read) owners ∧
    fi_wf (served_input s (source_Snapshot read) owners).
Proof.
  intros Hsc (Hl & Hf & Hs) Hok. unfold GetNodeList in Hok.
  apply result_bind_Ok in Hok as (snap & Hsn & Hok).
  apply service_snapshot_Ok in Hsn as (Hgate & -> & Hg).
  apply result_bind_Ok in Hok as (p & Hp & Hok).
  destruct (service_placement_inv _ _ _ Hp) as (Hr & o & Ho). exists o.
  destruct (served_handlers s (source_Snapshot read) o Hg Hsc Hl ltac:(lia) Ho gate read eq_refl Hgate)
    as [H1 _].
  unfold GetNodeList in H1. rewrite (proj2 (service_snapshot_Ok gate read _)) in H1 by done.
  cbn [mbind result_bind] in H1. rewrite Hp in H1. cbn [mbind result_bind] in H1.
  split; [congruence|]. by apply served_input_wf; try lia.
Qed.

Lemma GetShardMap_inv {T} `{!Source T} (s : Service) (gate read : T) sm :
  0 < svc_shardCount s < 2 ^ 32 → moment_small s read → GetShardMap s gate read = Ok sm →
  ∃ owners, sm = served_shards s (source_Snapshot read) owners ∧
    wire_owners (svc_shardCount s) (Some <$> owners) = owners ∧
    fi_wf (served_input s (source_Snapshot read) owners).
Proof.
  intros Hsc (Hl & Hf & Hs) Hok. unfold GetShardMap in Hok.
  apply result_bind_Ok in Hok as (snap & Hsn & Hok).
  apply service_snapshot_Ok in Hsn as (Hgate & -> & Hg).
  apply result_bind_Ok in Hok as (p & Hp & Hok).
  destruct (service_placement_inv _ _ _ Hp) as (Hr & o & Ho). exists o.
  destruct (served_handlers s (source_Snapshot read) o Hg Hsc Hl ltac:(lia) Ho gate read eq_refl Hgate)
    as [_ H2].
  unfold GetShardMap in H2. rewrite (proj2 (service_snapshot_Ok gate read _)) in H2 by done.
  cbn [mbind result_bind] in H2. rewrite Hp in H2. cbn [mbind result_bind] in H2.
  split; [congruence|]. split; [by eapply wire_owners_id; try lia|].
  by apply served_input_wf; try lia.
Qed.

(** ** Properties *)

(** C1: end to end, a client learns exactly the router's placement of exactly the
    source's nodes: for any source that keeps its law, once the gate is open both
    RPCs succeed, and [topology.Fetch] against them accepts at the first pass and
    installs the node addresses, the rendezvous shard map, the owner map, the
    agreed factor, the generation and the leader the service published. *)
Theorem service_end_to_end {T} `{!Source T} (reachable : T → Prop) `{!LawfulSource T reachable}
    {E} (s : Service) (t : T)
  (Hreach : reachable t)
  (Hgate : source_Readiness ≫= (fun ready => ready t) = None)
  (Hshards : 0 < svc_shardCount s < 2 ^ 32)
  (Hlen : Z.of_nat (length (ms_Nodes (source_Snapshot t))) < 2 ^ 32)
  (Hfactor : match ms_ReplicationFactor (source_Snapshot t) with
             | Some agreed => 0 ≤ agreed < maxInt64
             | None => 0 ≤ svc_replicationFactor s < maxInt64
             end) :
  let snap := source_Snapshot t in
  let ids := NodeID <$> ms_Nodes snap in
  let factor := match ms_ReplicationFactor snap with
                | Some agreed => agreed | None => svc_replicationFactor s end in
  ∃ nl sm owners,
    GetNodeList s t t = Ok nl ∧ GetShardMap s t t = Ok sm ∧
    AssignShardOwners ids (svc_shardCount s) factor = Some owners ∧
    ∃ installed, Fetch (fun _ => MkAttempt (E := E) None (Ok nl) (Ok sm)) = Ok installed ∧
      ShardMap installed = AssignShards ids (svc_shardCount s) ∧ Owners installed = owners ∧
      Nodes installed = list_to_map ((fun n => (NodeID n, Address n)) <$> ms_Nodes snap) ∧
      ShardCount installed = svc_shardCount s ∧ Generation installed = ms_Generation snap ∧
      ReplicationFactor installed = u32 factor ∧
      (RaftLeaderID installed, RaftTerm installed) = service_leader s.
Proof.
  cbn zeta. set (snap := source_Snapshot t) in *.
  change (match ms_ReplicationFactor snap with
          | Some agreed => agreed | None => svc_replicationFactor s end) with (effective_factor s snap).
  assert (0 ≤ effective_factor s snap < maxInt64) as Hf
    by (unfold effective_factor; by destruct (ms_ReplicationFactor snap)).
  pose proof (lawful_nodes t Hreach : snapshot_good snap) as Hgood.
  destruct (AssignShardOwners_total (NodeID <$> ms_Nodes snap) (svc_shardCount s)
    (effective_factor s snap)) as (owners & Howners & _);
    [unfold in_i64, maxInt64 in *; lia|lia|].
  assert (0 ≤ effective_factor s snap ≤ maxInt64) as Hrf by lia.
  destruct (served_handlers s snap owners Hgood Hshards Hlen Hrf Howners t t eq_refl Hgate) as [H1 H2].
  exists (served_nodes s snap owners), (served_shards s snap owners), owners. split_and!; try done.
  exists (served_snapshot s snap owners).
  split; [unfold Fetch; cbn; by rewrite accept_served|].
  unfold served_snapshot. cbn -[Fingerprint]. rewrite wire_pairs. split_and!; try done.
  by destruct (service_leader s).
Qed.

Definition example_service : Service := MkService 4 1 (Some ("cp-0", 3)).
Definition example_view : view := view_run 512 map_to_list (take 2 example_history).

Lemma service_end_to_end_witness :
  ∃ nl sm installed,
    GetNodeList example_service example_view example_view = Ok nl ∧
    GetShardMap example_service example_view example_view = Ok sm ∧
    Fetch (fun _ => MkAttempt (E := unit) None (Ok nl) (Ok sm)) = Ok installed ∧
    ShardMap installed = AssignShards ["node-0"; "node-1"] 4.
Proof.
  destruct (service_end_to_end (E := unit) view_reachable example_service example_view)
    as (nl & sm & owners & H1 & H2 & _ & installed & H3 & H4 & _).
  - exists 512, map_to_list, (take 2 example_history). split; [intros; reflexivity|reflexivity].
  - reflexivity.
  - cbn. lia.
  - vm_compute. reflexivity.
  - vm_compute. split; congruence.
  - exists nl, sm, installed. split_and!; [exact H1|exact H2|exact H3|].
    etrans; [exact H4|]. vm_compute. reflexivity.
Defined.

(** C11: a client cannot install a topology stitched from two moments, short of a
    SHA-256 collision.  Let every pass of [topology.Fetch] get its node list from
    the service at one moment and its shard map at another.  If the fetch returns
    a topology, then in the pass that returned either both moments publish the
    very same topology (addresses, shard map, owners, factor; the generations may
    differ) and it is exactly the one installed, or SHA-256 maps the two different
    byte streams of the two topologies to one fingerprint. *)
Theorem torn_fetch_is_collision {T} `{!Source T} {E} (s : Service)
    (g1 t1 g2 t2 : nat → T) (server : nat → attempt E) installed
  (Hnodes : ∀ i nl, at_nodes (server i) = Ok nl → GetNodeList s (g1 i) (t1 i) = Ok nl)
  (Hshardmap : ∀ i sm, at_shards (server i) = Ok sm → GetShardMap s (g2 i) (t2 i) = Ok sm)
  (Hfetch : Fetch server = Ok installed)
  (Hshards : 0 < svc_shardCount s < 2 ^ 32)
  (Hsmall : ∀ i, moment_small s (t1 i) ∧ moment_small s (t2 i)) :
  ∃ i o1 o2, (1 ≤ i ≤ maxCoherenceAttempts)%nat ∧
    let fi1 := served_input s (source_Snapshot (t1 i)) o1 in
    let fi2 := served_input s (source_Snapshot (t2 i)) o2 in
    at_nodes (server i) = Ok (served_nodes s (source_Snapshot (t1 i)) o1) ∧
    at_shards (server i) = Ok (served_shards s (source_Snapshot (t2 i)) o2) ∧
    SnapFingerprint installed = Fingerprint fi1 ∧ SnapFingerprint installed = Fingerprint fi2 ∧
    (fi1 = fi2 ∧ Snapshot_FingerprintInput installed = fi1 ∨
     fingerprint_stream fi1 ≠ fingerprint_stream fi2 ∧
     sha256 (fingerprint_stream fi1) = sha256 (fingerprint_stream fi2)).
Proof.
  apply fetch_loop_Ok in Hfetch as (l1 & a & l2 & nl & sm & Hl & _ & _ & Hn & Hs & Ha).
  assert (∃ i, (1 ≤ i ≤ maxCoherenceAttempts)%nat ∧ a = server i) as (i & Hi & ->).
  { assert (a ∈ server <$> seq 1 maxCoherenceAttempts) as Hin by (rewrite Hl; set_solver).
    apply list_elem_of_fmap in Hin as (i & -> & Hin%elem_of_seq). exists i. split; [lia|done]. }
  destruct (Hsmall i) as [Hm1 Hm2].
  destruct (GetNodeList_inv s _ _ nl Hshards Hm1 (Hnodes i nl Hn)) as (o1 & -> & Hwf1).
  destruct (GetShardMap_inv s _ _ sm Hshards Hm2 (Hshardmap i sm Hs)) as (o2 & -> & Hid & Hwf2).
  apply accept_Ok in Ha as (g & sc & infos & Hinfos & _ & _ & -> & Hfp & Hor).
  2:{ cbn. unfold in_u32. lia. }
  2:{ cbn. unfold wire_infos. rewrite !length_fmap. apply Hm1. }
  cbn -[Fingerprint] in Hfp, Hor, Hinfos. apply (inj (fmap Some)) in Hinfos as <-.
  exists i, o1, o2. split; [done|]. cbn zeta. split_and!; [done..|by rewrite Hfp|done|].
  destruct Hor as [[_ ->]|[Hnil _]].
  2:{ pose proof (Fingerprint_length (served_input s (source_Snapshot (t2 i)) o2)) as Hlen.
      by rewrite Hnil in Hlen. }
  destruct (decide (fingerprint_stream (served_input s (source_Snapshot (t1 i)) o1) =
    fingerprint_stream (served_input s (source_Snapshot (t2 i)) o2))) as [Hst|Hst]; [left|by right].
  apply fingerprint_stream_inj in Hst; [|done..]. split; [done|].
  unfold Snapshot_FingerprintInput. cbn. rewrite Hid. unfold served_input in Hst |- *.
  injection Hst as H1 H2 H3 H4. by rewrite H1, H3, H4.
Qed.

(** Three moments: the first two-node view, a view with a third node, and the view
    after it left again, a later generation of the first topology. *)
Definition torn_views : list view :=
  (fun k => view_run 512 map_to_list
     (take k [example_event "a" "node-0" "10.0.0.1:7100"; example_event "b" "node-1" "10.0.0.2:7100";
              example_event "d" "node-2" "10.0.0.3:7100"; NotifyLeave "d"])) <$> [2; 3; 4]%nat.
Definition torn_view (k : nat) : view := default example_view (torn_views !! k).

(** The node list is always the first moment's; the shard map is the second
    moment's in the first pass, whose pair is refused, and the third's after. *)
Definition torn_shard_moment (i : nat) : view := torn_view (if decide (i = 1%nat) then 1 else 2)%nat.
Definition torn_server (i : nat) : attempt rpc_error :=
  MkAttempt None (GetNodeList example_service (torn_view 0) (torn_view 0))
    (GetShardMap example_service (torn_shard_moment i) (torn_shard_moment i)).

Lemma torn_fetch_is_collision_witness :
  ms_Generation (source_Snapshot (torn_view 0)) ≠ ms_Generation (source_Snapshot (torn_shard_moment 2)) ∧
  ∃ installed, Fetch torn_server = Ok installed ∧ Generation installed = 4 ∧
    ∃ fi, SnapFingerprint installed = Fingerprint fi ∧ Snapshot_FingerprintInput installed = fi.
Proof.
  split; [vm_compute; congruence|].
  destruct (Fetch torn_server) as [installed|] eqn:Hf; [|exfalso; vm_compute in Hf; discriminate].
  exists installed. split; [reflexivity|].
  split; [vm_compute in Hf; injection Hf as <-; reflexivity|].
  destruct (torn_fetch_is_collision example_service (fun _ => torn_view 0) (fun _ => torn_view 0)
    torn_shard_moment torn_shard_moment torn_server installed) as (i & o1 & o2 & _ & _ & _ & H1 & H2 & _).
  - intros i nl H. exact H.
  - intros i sm H. exact H.
  - exact Hf.
  - cbn. lia.
  - assert (∀ k, moment_small example_service (torn_view k)) as Hm.
    { assert (∀ nodes (v : view), ms_Nodes (source_Snapshot v) = nodes →
        effective_factor example_service (source_Snapshot v) = 1 →
        Z.of_nat (length nodes) < 2 ^ 32 →
        Forall (fun n => short (NodeID n) ∧ short (Address n)) nodes →
        moment_small example_service v) as Hv.
      { intros nodes v <- Hf1 ? ?. split; [done|]. rewrite Hf1. split; [vm_compute; congruence|assumption]. }
      pose (n2 := [MkNode "node-0" "10.0.0.1:7100"; MkNode "node-1" "10.0.0.2:7100"]).
      pose (n3 := n2 ++ [MkNode "node-2" "10.0.0.3:7100"]).
      assert (∀ nodes, nodes = n2 ∨ nodes = n3 →
        Z.of_nat (length nodes) < 2 ^ 32 ∧
        Forall (fun n => short (NodeID n) ∧ short (Address n)) nodes) as Hn.
      { intros nodes [->| ->]; (split; [vm_compute; reflexivity|]); unfold n3, n2; cbn [app];
          repeat (apply Forall_cons; split; [split; vm_compute; reflexivity|]); constructor. }
      intros [|[|[|k]]];
        [apply (Hv n2)|apply (Hv n3)|apply (Hv n2)|apply (Hv n2)];
        first [apply Hn; tauto|vm_compute; reflexivity]. }
    intros i. split; apply Hm.
  - eexists. split; [|reflexivity]. vm_compute in Hf. injection Hf as <-. vm_compute. reflexivity.
Defined.

(** The two RPCs never disagree about whether this replica may answer, and
    the placement assertions are dead code: from the same source state they fail
    together with the same error; the error is [Unavailable] exactly while the
    readiness gate is closed; and the internal "maps disagree" errors are never
    returned for any source, node list or factor. *)
Theorem service_errors {T} `{!Source T} (s : Service) (gate read : T)
  (Hfactor : effective_factor s (source_Snapshot read) ≤ maxInt64) :
  (∀ e, GetNodeList s gate read = Err e ↔ GetShardMap s gate read = Err e) ∧
  (∀ c, GetNodeList s gate read = Err (Unavailable c) ↔
        source_Readiness ≫= (fun ready => ready gate) = Some c) ∧
  (∀ a b, GetNodeList s gate read ≠ Err (InternalCounts a b)) ∧
  (∀ sh, GetNodeList s gate read ≠ Err (InternalPrimary sh)).
Proof.
  assert (Hscan : ∀ ns acc e, foldM scan_node acc ns = Err e →
    e = InternalEmptyNode ∨ (∃ i, e = InternalDuplicateID i) ∨ ∃ a, e = InternalDuplicateAddress a).
  { intros ns. induction ns as [|n ns IH]; intros [ids addrs] e; cbn [foldM]; [done|].
    unfold scan_node, guard_err. repeat case_match; cbn [mbind result_bind]; intros H';
      try (injection H' as <-; naive_solver). by eapply IH. }
  unfold GetNodeList, GetShardMap.
  destruct (service_snapshot gate read) as [snap|e] eqn:Hs; cbn [mbind result_bind].
  - apply service_snapshot_Ok in Hs as (Hgate & -> & Hg). rewrite Hgate.
    assert (∀ e, service_placement s (source_Snapshot read) = Err e →
      e = PanicMake ∨ ∃ rf, e = InternalNegativeFactor rf) as Hp.
    { intros e. destruct (decide (0 ≤ effective_factor s (source_Snapshot read))) as [Hr|Hr].
      - destruct (AssignShardOwners (NodeID <$> ms_Nodes (source_Snapshot read)) (svc_shardCount s)
          (effective_factor s (source_Snapshot read))) as [o|] eqn:Ho.
        + by rewrite (service_placement_Ok _ _ o) by done.
        + unfold service_placement. rewrite (proj2 (Z.ltb_ge _ _)), Ho by lia.
          intros [= <-]. by left.
      - unfold service_placement. rewrite (proj2 (Z.ltb_lt _ _)) by lia. intros [= <-]. eauto. }
    destruct (service_placement s (source_Snapshot read)) as [p|e] eqn:Hpl; cbn [mbind result_bind].
    + destruct (service_leader s). split_and!; intros; first [done|split; congruence].
    + destruct (Hp e eq_refl) as [->|[rf ->]]; split_and!; intros; first [done|split; congruence].
  - unfold service_snapshot in Hs. destruct (source_Readiness ≫= _) as [c|].
    + injection Hs as <-. split_and!; intros; first [done|split; congruence].
    + destruct (foldM _ _ _) as [|e'] eqn:Hf; [done|]. cbn in Hs. injection Hs as <-.
      apply Hscan in Hf as [->|[[i ->]|[a ->]]]; split_and!; intros; first [done|split; congruence].
Qed.

Lemma service_errors_witness :
  GetNodeList example_service (MkRaftSource (MkStore 0 false true)
    (MkReads "" 0 0 0 0 None) newFSM) (MkRaftSource (MkStore 0 false true)
    (MkReads "" 0 0 0 0 None) newFSM) = Err (Unavailable NoLeader).
Proof.
  apply (service_errors example_service
    (MkRaftSource (MkStore 0 false true) (MkReads "" 0 0 0 0 None) newFSM)
    (MkRaftSource (MkStore 0 false true) (MkReads "" 0 0 0 0 None) newFSM));
    [vm_compute; congruence|reflexivity].
Defined.
