(* ===== verification/Transport.v ===== *)
(** * The value transport ([internal/transport/transport.go])

    Writing a value as one unary [Put] or as a stream of 1 MiB frames, and
    reading it back through the unary RPC, the frame stream, or both.  The node
    service is a remote peer: what it answers to each call is an input, and the
    requests and frames sent to it are outputs. *)

From S2P Require Import Prelude.
Local Open Scope Z_scope.

Definition UnaryValueLimit : Z := 4 * 1024 * 1024.
Definition ChunkSize : Z := 1024 * 1024.

Inductive ReadMode := ReadAuto | ReadUnary | ReadChunked | ReadInvalid (mode : Z).

Definition ReadModeForSize (size : Z) : ReadMode :=
  if UnaryValueLimit <? size then ReadChunked else ReadUnary.

(** [len] of a byte slice. *)
Definition blen (b : bytes) : Z := Z.of_nat (length b).

Record PutRequest := MkPutRequest {
  pr_Key : bytes; pr_Value : bytes; pr_RequireReplicaAcks : Z
}.

(** A frame of either stream; only the first [PutChunk] carries the key. *)
Record Chunk := MkChunk {
  ch_Key : bytes; ch_Index : Z; ch_TotalChunks : Z; ch_TotalLength : Z; ch_Data : bytes
}.

(** ** Writing *)

Inductive put_error (E : Type) :=
| PutRpc (e : E) | ChunkedAcksUnsupported (len : Z) | TooManyChunks (n : Z).
Arguments PutRpc {E} e.
Arguments ChunkedAcksUnsupported {E} len.
Arguments TooManyChunks {E} n.

(** What reached the node. *)
Inductive sent := SentNothing | SentUnary (r : PutRequest) | SentFrames (l : list Chunk).

(** [value[lo:hi]]. *)
Definition slice_bytes (v : bytes) (lo hi : Z) : bytes := take (Z.to_nat (hi - lo)) (drop (Z.to_nat lo) v).

Definition total_chunks (value : bytes) : Z := 1 + (blen value - 1) `quot` ChunkSize.

Definition frame (key value : bytes) (totalChunks i : Z) : Chunk :=
  let lo := i * ChunkSize in
  let hi := Z.min (lo + ChunkSize) (blen value) in
  MkChunk (if i =? 0 then key else []) (u32 i) (u32 totalChunks) (u64 (blen value))
    (slice_bytes value lo hi).

(** The send loop stops at the first error; the failing frame was handed over. *)
Fixpoint send_frames {E} (send : Chunk → option E) (frames : list Chunk) : list Chunk * option E :=
  match frames with
  | [] => ([], None)
  | c :: frames =>
      match send c with
      | Some e => ([c], Some e)
      | None => let '(l, e) := send_frames send frames in (c :: l, e)
      end
  end.

Section put.
Context {E : Type}.
(** The node: its answer to a unary [Put] (replicas acked), to opening a stream,
    to each frame, and to closing it. *)
Context (rpc_Put : PutRequest → result E Z) (open : option E)
        (send : Chunk → option E) (closeAndRecv : option E).

Definition PutWithAck (key value : bytes) (acks : Z) : sent * result (put_error E) Z :=
  if blen value <=? UnaryValueLimit then
    let req := MkPutRequest key value acks in
    (SentUnary req, match rpc_Put req with Err e => Err (PutRpc e) | Ok acked => Ok acked end)
  else if 0 <? acks then (SentNothing, Err (ChunkedAcksUnsupported (blen value)))
  else
    let totalChunks := total_chunks value in
    if 2 ^ 32 - 1 <? u64 totalChunks then (SentNothing, Err (TooManyChunks totalChunks))
    else match open with
         | Some e => (SentNothing, Err (PutRpc e))
         | None =>
             let '(l, err) := send_frames send (frame key value totalChunks <$> seqZ 0 totalChunks) in
             (SentFrames l,
              match err with
              | Some e => Err (PutRpc e)
              | None => match closeAndRecv with Some e => Err (PutRpc e) | None => Ok 0 end
              end)
         end.

Definition Put (key value : bytes) : sent * result (put_error E) () :=
  let '(s, r) := PutWithAck key value 0 in
  (s, match r with Ok _ => Ok () | Err e => Err e end).
End put.

(** ** Reading *)

Inductive get_error (E : Type) :=
| GetRpc (e : E) | NilResponse | NilChunk
| EndedEarly (received total : Z) | ShortData (received total : Z)
| ZeroChunks | ChangedMetadata (i : Z) | TooManyReceived (total : Z)
| WrongIndex (got want : Z) | DataExceedsTotal (total : Z) | InvalidMode (m : Z).
Arguments GetRpc {E} e.
Arguments NilResponse {E}.
Arguments NilChunk {E}.
Arguments EndedEarly {E} _ _.
Arguments ShortData {E} _ _.
Arguments ZeroChunks {E}.
Arguments ChangedMetadata {E} _.
Arguments TooManyReceived {E} _.
Arguments WrongIndex {E} _ _.
Arguments DataExceedsTotal {E} _.
Arguments InvalidMode {E} _.

(** [Ok None] is a miss; a response is [(found, value)], nil is [None]. *)
Definition getUnary {E} (resp : result E (option (bool * bytes))) : result (get_error E) (option bytes) :=
  match resp with
  | Err e => Err (GetRpc e)
  | Ok None => Err NilResponse
  | Ok (Some (found, value)) => if negb found then Ok None else Ok (Some value)
  end.

Record recv_state := MkRecv {
  rv_out : bytes; rv_totalChunks : Z; rv_totalLength : Z;
  rv_receivedChunks : Z; rv_receivedLength : Z
}.
Definition recv_init : recv_state := MkRecv [] 0 0 0 0.

(** One chunk of the receive loop. *)
Definition recv_chunk {E} (s : recv_state) (c : Chunk) : result (get_error E) recv_state :=
  '(totalChunks, totalLength) ←
    (if rv_receivedChunks s =? 0 then
       if ch_TotalChunks c =? 0 then Err ZeroChunks else Ok (ch_TotalChunks c, ch_TotalLength c)
     else if negb (ch_TotalChunks c =? rv_totalChunks s) || negb (ch_TotalLength c =? rv_totalLength s)
     then Err (ChangedMetadata (rv_receivedChunks s))
     else Ok (rv_totalChunks s, rv_totalLength s));
  if totalChunks <=? rv_receivedChunks s then Err (TooManyReceived totalChunks)
  else if negb (ch_Index c =? u32 (rv_receivedChunks s))
  then Err (WrongIndex (ch_Index c) (rv_receivedChunks s))
  else
    let dataLength := blen (ch_Data c) in
    if u64 (totalLength - rv_receivedLength s) <? dataLength then Err (DataExceedsTotal totalLength)
    else Ok (MkRecv (rv_out s ++ ch_Data c) totalChunks totalLength
               (u64 (rv_receivedChunks s + 1)) (u64 (rv_receivedLength s + dataLength))).

Definition recv_eof {E} (s : recv_state) : result (get_error E) (option bytes) :=
  if rv_receivedChunks s =? 0 then Ok None
  else if negb (rv_receivedChunks s =? rv_totalChunks s)
  then Err (EndedEarly (rv_receivedChunks s) (rv_totalChunks s))
  else if negb (rv_receivedLength s =? rv_totalLength s)
  then Err (ShortData (rv_receivedLength s) (rv_totalLength s))
  else Ok (Some (rv_out s)).

(** The loop over what [stream.Recv] returns; the end of the list is [io.EOF]. *)
Fixpoint recv_loop {E} (s : recv_state) (recvs : list (result E (option Chunk)))
    : result (get_error E) (option bytes) :=
  match recvs with
  | [] => recv_eof s
  | Err e :: _ => Err (GetRpc e)
  | Ok None :: _ => Err NilChunk
  | Ok (Some c) :: recvs => s ← recv_chunk s c; recv_loop s recvs
  end.

Definition getChunked {E} (open : result E (list (result E (option Chunk))))
    : result (get_error E) (option bytes) :=
  match open with
  | Err e => Err (GetRpc e)
  | Ok recvs => recv_loop recv_init recvs
  end.

(** [failedPrecondition] is [status.Code(err) == FailedPrecondition]. *)
Definition GetWithMode {E} (failedPrecondition : E → bool)
    (unary : result E (option (bool * bytes))) (chunked : result E (list (result E (option Chunk))))
    (mode : ReadMode) : result (get_error E) (option bytes) :=
  match mode with
  | ReadAuto =>
      match getUnary unary with
      | Err (GetRpc e) => if failedPrecondition e then getChunked chunked else Err (GetRpc e)
      | r => r
      end
  | ReadUnary => getUnary unary
  | ReadChunked => getChunked chunked
  | ReadInvalid m => Err (InvalidMode m)
  end.

Definition Get {E} (failedPrecondition : E → bool)
    (unary : result E (option (bool * bytes))) (chunked : result E (list (result E (option Chunk))))
    : result (get_error E) (option bytes) :=
  GetWithMode failedPrecondition unary chunked ReadAuto.

(** ** Lemmas *)

Lemma blen_app a b : blen (a ++ b) = blen a + blen b.
Proof. unfold blen. rewrite length_app. lia. Qed.

Lemma blen_nonneg b : 0 ≤ blen b.
Proof. unfold blen. lia. Qed.

(** What the receive loop has established after the frames [fs]. *)
Record recv_inv (s : recv_state) (fs : list Chunk) : Prop := {
  ri_out : rv_out s = concat (ch_Data <$> fs);
  ri_chunks : rv_receivedChunks s = Z.of_nat (length fs);
  ri_length : rv_receivedLength s = blen (rv_out s);
  ri_meta : ∀ i f, fs !! i = Some f →
    ch_Index f = Z.of_nat i ∧ ch_TotalChunks f = rv_totalChunks s ∧ ch_TotalLength f = rv_totalLength s;
  ri_bound : fs ≠ [] → Z.of_nat (length fs) ≤ rv_totalChunks s ∧ rv_receivedLength s ≤ rv_totalLength s ∧
    in_u32 (rv_totalChunks s) ∧ in_u64 (rv_totalLength s)
}.

(** The widths the protocol buffer fields have. *)
Definition wire_chunk (c : Chunk) : Prop := in_u32 (ch_TotalChunks c) ∧ in_u64 (ch_TotalLength c).

Lemma recv_inv_init : recv_inv recv_init [].
Proof. split; try done. Qed.

Lemma recv_chunk_inv {E} s fs c s' :
  wire_chunk c → recv_inv s fs → recv_chunk (E := E) s c = Ok s' → recv_inv s' (fs ++ [c]).
Proof.
  intros [Hw1 Hw2] [Ho Hc Hl Hm Hb] H. unfold recv_chunk in H.
  apply result_bind_Ok in H as ([tc tl] & Hmeta & H).
  assert (tc = ch_TotalChunks c ∧ tl = ch_TotalLength c ∧
          (fs ≠ [] → tc = rv_totalChunks s ∧ tl = rv_totalLength s)) as (-> & -> & Hsame).
  { destruct (Z.eqb_spec (rv_receivedChunks s) 0) as [H0|H0].
    - destruct (ch_TotalChunks c =? 0); [done|]. injection Hmeta as <- <-.
      split_and!; try done. intros Hne. destruct fs; [done|]. cbn in Hc. lia.
    - destruct (Z.eqb_spec (ch_TotalChunks c) (rv_totalChunks s)); [|done].
      destruct (Z.eqb_spec (ch_TotalLength c) (rv_totalLength s)); [|done].
      cbn in Hmeta. injection Hmeta as <- <-. done. }
  destruct (Z.leb_spec (ch_TotalChunks c) (rv_receivedChunks s)); [done|].
  unfold in_u32, in_u64 in *.
  rewrite (u32_id (rv_receivedChunks s)) in H by (unfold in_u32; lia).
  destruct (Z.eqb_spec (ch_Index c) (rv_receivedChunks s)) as [Hi|]; [|done]. cbn [negb] in H.
  assert (rv_receivedLength s ≤ ch_TotalLength c ∧ 0 ≤ rv_receivedLength s) as [Hle Hge].
  { split; [|rewrite Hl; apply blen_nonneg]. destruct fs as [|f0 fs0].
    - cbn in Ho. rewrite Hl, Ho. unfold blen. cbn. lia.
    - destruct (Hsame ltac:(done)) as [_ ->]. by apply Hb. }
  rewrite (u64_id (ch_TotalLength c - _)) in H by (unfold in_u64; lia).
  destruct (Z.ltb_spec (ch_TotalLength c - rv_receivedLength s) (blen (ch_Data c))); [done|].
  injection H as <-. pose proof (blen_nonneg (ch_Data c)). split; cbn.
  - rewrite Ho, fmap_app, concat_app. cbn. by rewrite app_nil_r.
  - rewrite Hc, u64_id by (unfold in_u64; lia). rewrite length_app. cbn. lia.
  - rewrite u64_id by (unfold in_u64; lia). rewrite blen_app. lia.
  - intros i f Hf. apply lookup_app_Some in Hf as [Hf|[Hge' Hf]].
    + destruct (Hm i f Hf) as (? & ? & ?). destruct Hsame as [-> ->]; [|done].
      intros ->. done.
    + apply list_lookup_singleton_Some in Hf as [Hi' <-]. split_and!; [lia|done|done].
  - intros _. rewrite u64_id by (unfold in_u64; lia). rewrite length_app. unfold in_u32, in_u64. cbn [length]. lia.
Qed.

Lemma recv_loop_sound {E} (recvs : list (result E (option Chunk))) s fs v :
  Forall (fun r => match r with Ok (Some c) => wire_chunk c | _ => True end) recvs →
  recv_inv s fs → recv_loop s recvs = Ok (Some v) →
  ∃ gs, recvs = (fun c => Ok (Some c)) <$> gs ∧ fs ++ gs ≠ [] ∧
    v = concat (ch_Data <$> fs ++ gs) ∧
    ∀ i f, (fs ++ gs) !! i = Some f → ch_Index f = Z.of_nat i ∧
      ch_TotalChunks f = Z.of_nat (length (fs ++ gs)) ∧ ch_TotalLength f = blen v.
Proof.
  intros HF. revert s fs. induction HF as [|[[c|]|e] recvs Hc HF IH]; intros s fs Hs; cbn [recv_loop].
  - unfold recv_eof. destruct (Z.eqb_spec (rv_receivedChunks s) 0) as [|Hne]; [done|].
    destruct (Z.eqb_spec (rv_receivedChunks s) (rv_totalChunks s)) as [H1|]; [|done].
    destruct (Z.eqb_spec (rv_receivedLength s) (rv_totalLength s)) as [H2|]; [|done].
    cbn. intros [= <-]. exists []. rewrite app_nil_r. destruct Hs as [Ho Hck Hl Hm _].
    split; [done|]. split; [intros ->; done|]. split; [done|].
    intros i f Hf. destruct (Hm i f Hf) as (? & ? & ?). split_and!; [done|lia|lia].
  - intros (s' & Hs' & Hr)%result_bind_Ok.
    destruct (IH s' (fs ++ [c])) as (gs & -> & Hne & Hv & Hall);
      [by eapply recv_chunk_inv|done|].
    rewrite <-app_assoc in Hne, Hv, Hall. exists (c :: gs). done.
  - done.
  - done.
Qed.

(** ** Frames *)

Section frames.
Context (key value : bytes).
Context (Hpos : 0 < blen value) (Hsmall : total_chunks value ≤ 2 ^ 32 - 1).

Lemma total_chunks_bound :
  (total_chunks value - 1) * ChunkSize < blen value ≤ total_chunks value * ChunkSize.
Proof using Hpos.
  unfold total_chunks. rewrite Z.quot_div_nonneg by (unfold ChunkSize; lia).
  pose proof (Z.div_mod (blen value - 1) ChunkSize).
  pose proof (Z.mod_pos_bound (blen value - 1) ChunkSize). unfold ChunkSize in *. lia.
Qed.

Lemma total_chunks_pos : 1 ≤ total_chunks value.
Proof using Hpos.
  unfold total_chunks. rewrite Z.quot_div_nonneg by (unfold ChunkSize; lia).
  pose proof (Z.div_pos (blen value - 1) ChunkSize). unfold ChunkSize in *. lia.
Qed.

Lemma blen_u64 : in_u64 (blen value).
Proof using Hpos Hsmall.
  pose proof total_chunks_bound. unfold in_u64, ChunkSize in *. lia.
Qed.

(** Appending the next frame extends the received prefix. *)
Lemma frame_data i :
  0 ≤ i < total_chunks value →
  take (Z.to_nat (i * ChunkSize)) value ++ ch_Data (frame key value (total_chunks value) i) =
    take (Z.to_nat ((i + 1) * ChunkSize)) value.
Proof using Hpos.
  intros Hi. pose proof total_chunks_bound. cbn [frame ch_Data]. unfold slice_bytes.
  assert (i * ChunkSize < blen value).
  { eapply Z.le_lt_trans; [|apply total_chunks_bound]. unfold ChunkSize. lia. }
  unfold blen in *.
  destruct (Z.min_spec (i * ChunkSize + ChunkSize) (Z.of_nat (length value))) as [[Hlt ->]|[Hge ->]].
  - replace (i * ChunkSize + ChunkSize - i * ChunkSize) with ChunkSize by lia.
    replace (Z.to_nat ((i + 1) * ChunkSize)) with
      (Z.to_nat (i * ChunkSize) + Z.to_nat ChunkSize)%nat by (unfold ChunkSize in *; lia).
    apply take_take_drop.
  - rewrite (take_ge (drop _ value)) by (rewrite length_drop; lia).
    rewrite take_drop. symmetry. apply take_ge. unfold ChunkSize in *. lia.
Qed.

(** The receiver after the first [i] frames. *)
Definition recv_at (i : Z) : recv_state :=
  MkRecv (take (Z.to_nat (i * ChunkSize)) value) (total_chunks value) (blen value) i
    (Z.min (i * ChunkSize) (blen value)).

Lemma recv_frame {E} s i :
  0 ≤ i < total_chunks value → (i = 0 ∧ s = recv_init ∨ 0 < i ∧ s = recv_at i) →
  recv_chunk (E := E) s (frame key value (total_chunks value) i) = Ok (recv_at (i + 1)).
Proof using Hpos Hsmall.
  intros Hi Hs. pose proof blen_u64 as Hu. pose proof total_chunks_bound as Hb.
  pose proof total_chunks_pos.
  assert (Ht : u32 (total_chunks value) = total_chunks value) by (apply u32_id; unfold in_u32; lia).
  assert (Hidx : u32 i = i) by (apply u32_id; unfold in_u32; lia).
  assert (Hbl : u64 (blen value) = blen value) by (by apply u64_id).
  assert (i * ChunkSize < blen value).
  { eapply Z.le_lt_trans; [|apply Hb]. unfold ChunkSize. lia. }
  assert (Hst : rv_out s = take (Z.to_nat (i * ChunkSize)) value ∧ rv_receivedChunks s = i ∧
    rv_receivedLength s = i * ChunkSize ∧
    (0 < i → rv_totalChunks s = total_chunks value ∧ rv_totalLength s = blen value)).
  { destruct Hs as [[-> ->]|[Hpi ->]]; cbn; [split_and!; done || lia|].
    split_and!; try done. lia. }
  destruct Hst as (Ho & Hrc & Hrl & Htot).
  unfold recv_chunk. rewrite Hrc, Hrl, Ho. cbn [frame ch_TotalChunks ch_TotalLength ch_Index ch_Data].
  rewrite Ht, Hbl, Hidx.
  assert ((if i =? 0 then if total_chunks value =? 0 then Err ZeroChunks
           else Ok (total_chunks value, blen value)
           else if negb (total_chunks value =? rv_totalChunks s) || negb (blen value =? rv_totalLength s)
           then Err (ChangedMetadata i) else Ok (rv_totalChunks s, rv_totalLength s)) =
          (Ok (total_chunks value, blen value) : result (get_error E) (Z * Z))) as ->.
  { destruct (Z.eqb_spec i 0).
    - by rewrite (proj2 (Z.eqb_neq (total_chunks value) 0)) by lia.
    - destruct Htot as [-> ->]; [lia|]. by rewrite !Z.eqb_refl. }
  cbn [mbind result_bind]. rewrite (proj2 (Z.leb_gt (total_chunks value) i)) by lia.
  rewrite Z.eqb_refl. cbn [negb].
  set (d := slice_bytes value (i * ChunkSize) (Z.min (i * ChunkSize + ChunkSize) (blen value))).
  assert (Hd : take (Z.to_nat (i * ChunkSize)) value ++ d = take (Z.to_nat ((i + 1) * ChunkSize)) value)
    by (by apply frame_data).
  assert (blen d = Z.min ((i + 1) * ChunkSize) (blen value) - i * ChunkSize) as Hdl.
  { apply (f_equal (fun l => Z.of_nat (length l))) in Hd. rewrite length_app, !length_take in Hd.
    unfold blen in *. unfold ChunkSize in *. lia. }
  rewrite u64_id by (unfold in_u64 in *; unfold ChunkSize in *; lia).
  rewrite (proj2 (Z.ltb_ge _ (blen d))) by lia.
  unfold recv_at. rewrite Hd. f_equal. f_equal; apply u64_id || (rewrite u64_id);
    unfold in_u64 in *; unfold ChunkSize in *; lia.
Qed.

Lemma recv_frames {E} n i s :
  Z.of_nat n = total_chunks value - i → 0 ≤ i →
  (i = 0 ∧ s = recv_init ∨ 0 < i ∧ s = recv_at i) →
  recv_loop (E := E) s ((fun c => Ok (Some c)) <$>
    (frame key value (total_chunks value) <$> seqZ i (Z.of_nat n))) = Ok (Some value).
Proof using Hpos Hsmall.
  pose proof total_chunks_pos. pose proof total_chunks_bound as Hb.
  revert i s. induction n as [|n IH]; intros i s Hn Hi Hs.
  - destruct Hs as [[-> ->]|[_ ->]]; [lia|].
    change (recv_eof (E := E) (recv_at i) = Ok (Some value)). unfold recv_eof, recv_at.
    cbn [rv_receivedChunks rv_totalChunks rv_receivedLength rv_totalLength rv_out].
    assert (i = total_chunks value) as -> by lia.
    rewrite (proj2 (Z.eqb_neq (total_chunks value) 0)) by lia. rewrite Z.eqb_refl. cbn [negb].
    rewrite (Z.min_r _ (blen value)) by lia. rewrite Z.eqb_refl. cbn [negb].
    rewrite take_ge; [done|]. unfold blen in *. lia.
  - rewrite seqZ_cons by lia. rewrite !fmap_cons. cbn [recv_loop].
    rewrite recv_frame by (done || lia). cbn [mbind result_bind].
    replace (Z.pred (Z.of_nat (S n))) with (Z.of_nat n) by lia. rewrite <-Z.add_1_r.
    apply IH; [lia|lia|]. right. split; [lia|done].
Qed.
End frames.

Lemma send_frames_all {E} (send : Chunk → option E) l :
  Forall (fun c => send c = None) l → send_frames send l = (l, None).
Proof. induction 1 as [|c l Hc _ IH]; [done|]. cbn. by rewrite Hc, IH. Qed.

(** ** Claims *)

(** C10: a value above the unary limit written without acks goes out as one stream
    of frames, none above [ChunkSize], and a reader that is handed those same frames
    by [GetChunked] reassembles exactly the value, whether it asks for the
    chunked mode or falls back to it from the unary refusal. *)
Theorem chunked_roundtrip {E} (rpc_Put : PutRequest → result E Z) send key value
    (fp : E → bool) (e : E) :
  UnaryValueLimit < blen value → total_chunks value ≤ 2 ^ 32 - 1 →
  (∀ c, send c = None) → fp e = true →
  ∃ fs, PutWithAck rpc_Put None send None key value 0 = (SentFrames fs, Ok 0) ∧
    Forall (fun c => blen (ch_Data c) ≤ ChunkSize) fs ∧
    (∀ unary, GetWithMode fp unary (Ok ((fun c => Ok (Some c)) <$> fs)) (ReadModeForSize (blen value)) =
       Ok (Some value)) ∧
    Get fp (Err e) (Ok ((fun c => Ok (Some c)) <$> fs)) = Ok (Some value).
Proof.
  intros Hlim Hsmall Hsend Hfp.
  assert (Hpos : 0 < blen value) by (unfold UnaryValueLimit in *; lia).
  pose proof (total_chunks_pos value Hpos) as H1.
  assert (Hrd : ∀ E', getChunked (E := E') (Ok ((fun c => Ok (Some c)) <$>
    (frame key value (total_chunks value) <$> seqZ 0 (total_chunks value)))) = Ok (Some value)).
  { intros E'. cbn [getChunked].
    pose proof (recv_frames key value Hpos Hsmall (E := E') (Z.to_nat (total_chunks value)) 0 recv_init) as H.
    rewrite Z2Nat.id in H by lia. apply H; [lia|lia|by left]. }
  exists (frame key value (total_chunks value) <$> seqZ 0 (total_chunks value)). split_and!.
  - unfold PutWithAck. rewrite (proj2 (Z.leb_gt _ _) Hlim). cbn [Z.ltb Z.compare].
    rewrite u64_id by (unfold in_u64; lia). rewrite (proj2 (Z.ltb_ge _ _)) by lia.
    rewrite send_frames_all; [done|]. by apply Forall_true.
  - apply Forall_fmap, Forall_true. intros i. cbn [frame ch_Data compose]. unfold slice_bytes, blen.
    rewrite length_take. unfold ChunkSize. lia.
  - intros unary. unfold ReadModeForSize. rewrite (proj2 (Z.ltb_lt _ _) Hlim). apply Hrd.
  - unfold Get, GetWithMode. cbn [getUnary]. rewrite Hfp. apply Hrd.
Qed.

Lemma blen_replicate n b : blen (replicate n b) = Z.of_nat n.
Proof. unfold blen. by rewrite length_replicate. Qed.

Definition big_value : bytes := replicate (Z.to_nat (UnaryValueLimit + 1)) x2a.

Lemma blen_big_value : blen big_value = UnaryValueLimit + 1.
Proof. unfold big_value. rewrite blen_replicate. unfold UnaryValueLimit. lia. Qed.

Lemma chunked_roundtrip_witness :
  ∃ fs, PutWithAck (E := ()) (fun _ => Ok 0) None (fun _ => None) None [x6b] big_value 0 = (SentFrames fs, Ok 0) ∧
    Get (fun _ : () => true) (Err ()) (Ok ((fun c => Ok (Some c)) <$> fs)) = Ok (Some big_value).
Proof.
  destruct (chunked_roundtrip (E := ()) (fun _ => Ok 0) (fun _ => None) [x6b] big_value (fun _ => true) ())
    as (fs & Hp & _ & _ & Hg).
  - rewrite blen_big_value. lia.
  - unfold total_chunks. rewrite blen_big_value. by vm_compute.
  - done.
  - done.
  - exists fs. exact (conj Hp Hg).
Defined.

(** Whatever a node streams, a value [getChunked] returns is complete: no receive
    failed, the frames came in order with one agreed total, exactly that many of
    them, and their data is the value at the announced length. *)
Theorem getChunked_complete {E} (recvs : list (result E (option Chunk))) v :
  Forall (fun r => match r with Ok (Some c) => wire_chunk c | _ => True end) recvs →
  getChunked (Ok recvs) = Ok (Some v) →
  ∃ fs, recvs = (fun c => Ok (Some c)) <$> fs ∧ fs ≠ [] ∧ v = concat (ch_Data <$> fs) ∧
    ∀ i f, fs !! i = Some f → ch_Index f = Z.of_nat i ∧
      ch_TotalChunks f = Z.of_nat (length fs) ∧ ch_TotalLength f = blen v.
Proof. intros HF H. by apply (recv_loop_sound recvs recv_init []); [|apply recv_inv_init|]. Qed.

Lemma getChunked_complete_witness :
  ∃ fs, [Ok (Some (MkChunk [] 0 2 3 [x61; x62])); Ok (Some (MkChunk [] 1 2 3 [x63]))] =
    ((fun c => Ok (Some c)) <$> fs : list (result () (option Chunk))) ∧ fs ≠ [] ∧
    [x61; x62; x63] = concat (ch_Data <$> fs) ∧
    ∀ i f, fs !! i = Some f → ch_Index f = Z.of_nat i ∧
      ch_TotalChunks f = Z.of_nat (length fs) ∧ ch_TotalLength f = blen [x61; x62; x63].
Proof.
  apply (getChunked_complete (E := ())
    [Ok (Some (MkChunk [] 0 2 3 [x61; x62])); Ok (Some (MkChunk [] 1 2 3 [x63]))] [x61; x62; x63]).
  - repeat constructor; done.
  - by vm_compute.
Defined.

(** A write that asks for replica acks is never quietly downgraded to a
    fire-and-forget stream: success means the node itself was asked for that many
    acks and reported the count returned, and a refused write sent nothing. *)
Theorem acks_never_downgraded {E} (rpc_Put : PutRequest → result E Z) open send closeAndRecv key value acks :
  0 < acks →
  match PutWithAck rpc_Put open send closeAndRecv key value acks with
  | (SentUnary r, Ok n) => r = MkPutRequest key value acks ∧ rpc_Put r = Ok n
  | (SentUnary r, Err e) => r = MkPutRequest key value acks ∧ ∃ e', e = PutRpc e' ∧ rpc_Put r = Err e'
  | (SentNothing, Err e) => e = ChunkedAcksUnsupported (blen value) ∧ UnaryValueLimit < blen value
  | (SentNothing, Ok _) | (SentFrames _, _) => False
  end.
Proof.
  intros Ha. unfold PutWithAck. destruct (Z.leb_spec (blen value) UnaryValueLimit).
  - destruct (rpc_Put (MkPutRequest key value acks)) eqn:Hr; eauto.
  - by rewrite (proj2 (Z.ltb_lt 0 acks) Ha).
Qed.

Lemma acks_never_downgraded_witness :
  let r := PutWithAck (E := ()) (fun _ => Ok 2) None (fun _ => None) None [x6b] [x61] 1 in
  match r with (SentUnary r, Ok n) => r = MkPutRequest [x6b] [x61] 1 ∧ n = 2 | _ => False end.
Proof.
  pose proof (acks_never_downgraded (E := ()) (fun _ => Ok 2) None (fun _ => None) None [x6b] [x61] 1
    ltac:(lia)) as H.
  cbn in *. destruct H as [_ H]. split; congruence.
Defined.
