(* ===== verification/Client.v ===== *)
(** * The client SDK ([pkg/client/client.go])

    Routing, the connection cache and the life cycle of a [Client].  Each critical
    section of the source (a span under [mu]) is one definition; goroutines
    interleave between sections, so calls, the refresh loop and [Close] are threads of a
    step relation.  Connections are numbered in the order they are dialled, and
    every [conn.Close()] is logged, which makes leaks and double closes visible.
    gRPC is a parameter: dial outcomes, metadata answers and close errors are
    inputs of the steps that ask for them. *)

From S2P Require Import Prelude Router Topology GoStd Transport.
Local Open Scope Z_scope.

#[export] Instance byte_countable : Countable byte :=
  inj_countable Byte.to_N Byte.of_N Byte.of_to_N.

Definition second : Z := 1000000000.
Definition defaultRefreshInterval : Z := 5 * second.
Definition defaultRefreshTimeout : Z := 5 * second.

(** A [*grpc.ClientConn], and the [NodeServiceClient] built over it. *)
Abbreviation conn := nat (only parsing).

(** ** Options *)

Record options (D : Type) := MkOptions {
  o_refreshInterval : Z; o_refreshTimeout : Z; o_dialOptions : list D
}.
Arguments MkOptions {D}.
Arguments o_refreshInterval {D}.
Arguments o_refreshTimeout {D}.
Arguments o_dialOptions {D}.

(** The values [Option] functions are made from; a nil [Option] is skipped. *)
Inductive Option (D : Type) :=
| WithRefreshInterval (interval : Z) | WithRefreshTimeout (timeout : Z)
| WithDialOptions (ds : list D) | NilOption.
Arguments WithRefreshInterval {D} _.
Arguments WithRefreshTimeout {D} _.
Arguments WithDialOptions {D} _.
Arguments NilOption {D}.

Inductive option_error := NegativeInterval (i : Z) | NonPositiveTimeout (t : Z).

Definition apply_option {D} (o : options D) (opt : Option D) : result option_error (options D) :=
  match opt with
  | NilOption => Ok o
  | WithRefreshInterval i =>
      if i <? 0 then Err (NegativeInterval i)
      else Ok (MkOptions i (o_refreshTimeout o) (o_dialOptions o))
  | WithRefreshTimeout t =>
      if t <=? 0 then Err (NonPositiveTimeout t)
      else Ok (MkOptions (o_refreshInterval o) t (o_dialOptions o))
  | WithDialOptions ds =>
      Ok (MkOptions (o_refreshInterval o) (o_refreshTimeout o) (o_dialOptions o ++ ds))
  end.

(** ** Control-plane endpoints *)

(** [strings.Split(text, ",")]: the current field is accumulated in reverse. *)
Fixpoint split_comma (l acc : bytes) : list bytes :=
  match l with
  | [] => [rev acc]
  | b :: l => if bool_decide (b = x2c) then rev acc :: split_comma l [] else split_comma l (b :: acc)
  end.

Definition Split_comma (s : string) : list string :=
  String.string_of_list_byte <$> split_comma (bytes_of_string s) [].

Definition endpoint_step (addresses : list string) (raw : string) : list string :=
  let address := TrimSpace raw in
  if bool_decide (address = "") then addresses
  else if bool_decide (address ∈ addresses) then addresses
  else addresses ++ [address].

(** [None] is the "must not be empty" error. *)
Definition splitEndpoints (text : string) : option (list string) :=
  match foldl endpoint_step [] (Split_comma text) with
  | [] => None
  | addresses => Some addresses
  end.

Record metadataEndpoint := MkEndpoint { me_address : string; me_conn : conn }.

(** ** The client *)

Inductive client_error (E : Type) :=
| ErrClosed | ErrNoLiveNodes
| NoOwner (shard : Z) | NoNodeAddress (owner : string)
| NoLongerOwns (address : string) | StoppedOwning (address : string)
| DialFailed (address : string) (e : E)
| CtxDone (e : E) | ControlPlane (address : string) (e : fetch_error E).
Arguments ErrClosed {E}.
Arguments ErrNoLiveNodes {E}.
Arguments NoOwner {E} _.
Arguments NoNodeAddress {E} _.
Arguments NoLongerOwns {E} _.
Arguments StoppedOwning {E} _.
Arguments DialFailed {E} _ _.
Arguments CtxDone {E} _.
Arguments ControlPlane {E} _ _.

(** The fields of [Client]; a channel is whether it has been closed. *)
Record Client (E : Type) := MkClient {
  c_endpoints : list metadataEndpoint;
  c_preferred : nat;
  c_refreshInterval : Z;
  c_refreshTimeout : Z;
  c_cancelled : bool;                   (* refreshCancel has been called *)
  c_refreshDone : bool;
  c_closeDone : bool;
  c_refreshMu : bool;                   (* held *)
  c_closed : bool;
  c_closeErr : option E;
  c_topology : Snapshot;
  c_nodeConns : gmap string conn;
  c_nodeClients : gmap string conn
}.
Arguments MkClient {E}.
Arguments c_endpoints {E}.
Arguments c_preferred {E}.
Arguments c_refreshInterval {E}.
Arguments c_refreshTimeout {E}.
Arguments c_cancelled {E}.
Arguments c_refreshDone {E}.
Arguments c_closeDone {E}.
Arguments c_refreshMu {E}.
Arguments c_closed {E}.
Arguments c_closeErr {E}.
Arguments c_topology {E}.
Arguments c_nodeConns {E}.
Arguments c_nodeClients {E}.

Section sections.
Context {E : Type}.
Implicit Types (c : Client E).

(** Field updates. *)
Definition set_preferred (i : nat) c : Client E :=
  MkClient (c_endpoints c) i (c_refreshInterval c) (c_refreshTimeout c) (c_cancelled c)
    (c_refreshDone c) (c_closeDone c) (c_refreshMu c) (c_closed c) (c_closeErr c) (c_topology c)
    (c_nodeConns c) (c_nodeClients c).
Definition set_cache (s : Snapshot) (conns clients : gmap string conn) c : Client E :=
  MkClient (c_endpoints c) (c_preferred c) (c_refreshInterval c) (c_refreshTimeout c) (c_cancelled c)
    (c_refreshDone c) (c_closeDone c) (c_refreshMu c) (c_closed c) (c_closeErr c) s conns clients.
Definition set_cancelled c : Client E :=
  MkClient (c_endpoints c) (c_preferred c) (c_refreshInterval c) (c_refreshTimeout c)
    (c_cancelled c || (0 <? c_refreshInterval c))
    (c_refreshDone c) (c_closeDone c) (c_refreshMu c) (c_closed c) (c_closeErr c) (c_topology c)
    (c_nodeConns c) (c_nodeClients c).
Definition set_refreshDone c : Client E :=
  MkClient (c_endpoints c) (c_preferred c) (c_refreshInterval c) (c_refreshTimeout c) (c_cancelled c)
    true (c_closeDone c) (c_refreshMu c) (c_closed c) (c_closeErr c) (c_topology c)
    (c_nodeConns c) (c_nodeClients c).
Definition set_refreshMu (b : bool) c : Client E :=
  MkClient (c_endpoints c) (c_preferred c) (c_refreshInterval c) (c_refreshTimeout c) (c_cancelled c)
    (c_refreshDone c) (c_closeDone c) b (c_closed c) (c_closeErr c) (c_topology c)
    (c_nodeConns c) (c_nodeClients c).
Definition set_closed c : Client E :=
  MkClient (c_endpoints c) (c_preferred c) (c_refreshInterval c) (c_refreshTimeout c) (c_cancelled c)
    (c_refreshDone c) (c_closeDone c) (c_refreshMu c) true (c_closeErr c) (c_topology c)
    (c_nodeConns c) (c_nodeClients c).
Definition set_closeErr (e : option E) c : Client E :=
  MkClient (c_endpoints c) (c_preferred c) (c_refreshInterval c) (c_refreshTimeout c) (c_cancelled c)
    (c_refreshDone c) true (c_refreshMu c) (c_closed c) e (c_topology c)
    (c_nodeConns c) (c_nodeClients c).

(** ** Refreshing the topology *)

(** The attempts of [fetchTopology] from attempt [k] on.  [ctx k] is [ctx.Err()]
    before attempt [k]; [server i] is what endpoint [i] answers. *)
Fixpoint fetch_from (eps : list metadataEndpoint) (ctx : nat → option E)
    (server : nat → nat → attempt E) (start : nat) (todo k : nat) (firstErr : option (client_error E))
    : result (option (client_error E)) (nat * Snapshot) :=
  match todo with
  | O => Err firstErr
  | S todo =>
      match ctx k with
      | Some e => Err (Some (default (CtxDone e) firstErr))
      | None =>
          let index := ((start + k) mod length eps)%nat in
          match Fetch (server index) with
          | Ok snapshot => Ok (index, snapshot)
          | Err e =>
              fetch_from eps ctx server start todo (S k)
                (Some (default (ControlPlane (default "" (me_address <$> eps !! index)) e) firstErr))
          end
      end
  end.

(** [topology{}]. *)
Definition zero_topology : Snapshot := MkSnapshot 0 [] 0 ∅ ∅ ∅ 0 "" 0.

(** [fetchTopology], with the update of [preferred]; without endpoints it returns
    [topology{}] and a nil error. *)
Definition fetchTopology c (ctx : nat → option E) (server : nat → nat → attempt E)
    : Client E * result (client_error E) Snapshot :=
  let start := c_preferred c in
  match fetch_from (c_endpoints c) ctx server start (length (c_endpoints c)) 0 None with
  | Ok (index, snapshot) =>
      (if bool_decide (index = start) then c else set_preferred index c, Ok snapshot)
  | Err (Some e) => (c, Err e)
  | Err None => (c, Ok zero_topology)
  end.

(** The critical section of [refresh]: install the snapshot and drop the
    connections to addresses that no longer own a shard, returning them. *)
Definition refresh_install c (next : Snapshot) : Client E * result (client_error E) (list conn) :=
  if c_closed c then (c, Err ErrClosed)
  else
    let keep := fun kv : string * conn => OwnsAddress next kv.1 = true in
    let retired := filter (fun kv : string * conn => ¬ keep kv) (c_nodeConns c) in
    (set_cache next (filter keep (c_nodeConns c))
       (filter (fun kv : string * conn => retired !! kv.1 = None) (c_nodeClients c)) c,
     Ok ((map_to_list retired).*2)).

(** ** Routing *)

(** [clientForKey] up to the call of [clientForAddress]. *)
Definition routeKey c (key : bytes) : result (client_error E) string :=
  let t := c_topology c in
  if c_closed c then Err ErrClosed
  else if bool_decide (Nodes t = ∅) || bool_decide (ShardMap t = ∅) then Err ErrNoLiveNodes
  else match OwnerForKey key (ShardCount t) (ShardMap t) with
       | None => Err (NoOwner (ShardForKey key (ShardCount t)))
       | Some owner =>
           match Nodes t !! owner with
           | Some address => if bool_decide (address = "") then Err (NoNodeAddress owner) else Ok address
           | None => Err (NoNodeAddress owner)
           end
       end.

(** The read section of [clientForAddress]: [Ok None] goes on to dial. *)
Definition lookupAddress c (address : string) : result (client_error E) (option conn) :=
  if c_closed c then Err ErrClosed
  else if negb (OwnsAddress (c_topology c) address) then Err (NoLongerOwns address)
  else Ok (c_nodeClients c !! address).

(** The write section, with the freshly dialled connection; the [bool] says it
    was closed instead of stored. *)
Definition storeConn c (address : string) (cn : conn)
    : Client E * bool * result (client_error E) conn :=
  if c_closed c then (c, true, Err ErrClosed)
  else if negb (OwnsAddress (c_topology c) address) then (c, true, Err (StoppedOwning address))
  else match c_nodeClients c !! address with
       | Some existing => (c, true, Ok existing)
       | None =>
           (set_cache (c_topology c) (<[address := cn]> (c_nodeConns c))
              (<[address := cn]> (c_nodeClients c)) c, false, Ok cn)
       end.

Definition nodeAddresses c : result (client_error E) (list string) :=
  if c_closed c then Err ErrClosed else Ok (OwnerAddresses (c_topology c)).

End sections.

(** ** Construction *)

Inductive new_error (E : Type) :=
| EmptyAddress | BadOption (e : option_error) | EndpointDial (address : string) (e : E)
| LoadTopology (e : client_error E).
Arguments EmptyAddress {E}.
Arguments BadOption {E} _.
Arguments EndpointDial {E} _ _.
Arguments LoadTopology {E} _.

Section construction.
Context {E D : Type}.
(** The built-in dial options, and [grpc.NewClient]. *)
Context (defaultDial : list D) (NewClient : list D → string → option E).

(** Dial the addresses in order; endpoint [i] gets connection [i]. *)
Fixpoint dial_endpoints (ds : list D) (addresses : list string) (acc : list metadataEndpoint)
    : list metadataEndpoint * option (string * E) :=
  match addresses with
  | [] => (acc, None)
  | address :: addresses =>
      match NewClient ds address with
      | Some e => (acc, Some (address, e))
      | None => dial_endpoints ds addresses (acc ++ [MkEndpoint address (length acc)])
      end
  end.

(** [New]: the client or an error, the number of connections dialled, and the
    connections closed again on the way out. *)
Definition New (controlPlaneAddr : string) (opts : list (Option D))
    (ctx : nat → option E) (server : nat → nat → attempt E)
    : result (new_error E) (Client E) * nat * list conn :=
  match splitEndpoints controlPlaneAddr with
  | None => (Err EmptyAddress, O, [])
  | Some addresses =>
      match foldM apply_option (MkOptions defaultRefreshInterval defaultRefreshTimeout defaultDial) opts with
      | Err e => (Err (BadOption e), O, [])
      | Ok cfg =>
          let '(endpoints, err) := dial_endpoints (o_dialOptions cfg) addresses [] in
          match err with
          | Some (a, e) => (Err (EndpointDial a e), length endpoints, me_conn <$> endpoints)
          | None =>
              let c := MkClient endpoints 0 (o_refreshInterval cfg) (o_refreshTimeout cfg) false
                         false false false false None zero_topology ∅ ∅ in
              let '(c, r) := fetchTopology c ctx server in
              let r := match r with
                       | Err e => (c, Err e)
                       | Ok next => refresh_install c next
                       end in
              match r with
              | (_, Err e) => (Err (LoadTopology e), length endpoints, me_conn <$> endpoints)
              | (c, Ok _) =>
                  (Ok (if 0 <? c_refreshInterval c then c else set_refreshDone c), length endpoints, [])
              end
          end
      end
  end.
End construction.

(** ** Operations built on a routed node *)

Section operations.
Context {E : Type}.

Inductive op_error := RouteErr (e : client_error E) | GetErr (e : get_error E) | PutErr (e : put_error E)
| ScanErr (address : string) (e : E) | FetchErr (key : bytes) (e : op_error).

(** [resolve] is [clientForKey], [node_get] and [node_put] the transport over the
    connection it returned. *)
Definition client_Get (resolve : bytes → result (client_error E) conn)
    (node_get : conn → bytes → result (get_error E) (option bytes)) (key : bytes)
    : result op_error (option bytes) :=
  match resolve key with
  | Err e => Err (RouteErr e)
  | Ok node => match node_get node key with Err e => Err (GetErr e) | Ok r => Ok r end
  end.

Definition putWithAck (resolve : bytes → result (client_error E) conn)
    (node_put : conn → bytes → bytes → Z → result (put_error E) Z) (key value : bytes) (acks : Z)
    : result op_error Z :=
  match resolve key with
  | Err e => Err (RouteErr e)
  | Ok node => match node_put node key value acks with Err e => Err (PutErr e) | Ok n => Ok n end
  end.

Section prefix.
(** [clientForAddress]; the stream a node's [PrefixMatch] opens; the iteration
    order of a Go map; [c.Get]. *)
Context (clientForAddress : string → result (client_error E) conn)
        (scan : conn → result E (list (result E bytes)))
        (range : gmap bytes bytes → list (bytes * bytes))
        (get : bytes → result op_error (option bytes)).

(** The keys of one node's stream, up to [io.EOF]. *)
Fixpoint recv_keys (address : string) (keys : gmap bytes bytes) (recvs : list (result E bytes))
    : result op_error (gmap bytes bytes) :=
  match recvs with
  | [] => Ok keys
  | Err e :: _ => Err (ScanErr address e)
  | Ok key :: recvs => recv_keys address (<[key := key]> keys) recvs
  end.

Definition scan_address (keys : gmap bytes bytes) (address : string)
    : result op_error (gmap bytes bytes) :=
  match clientForAddress address with
  | Err e => Err (RouteErr e)
  | Ok node =>
      match scan node with
      | Err e => Err (ScanErr address e)
      | Ok recvs => recv_keys address keys recvs
      end
  end.

Definition fetch_match (values : gmap bytes bytes) (kv : bytes * bytes)
    : result op_error (gmap bytes bytes) :=
  let '(text, key) := kv in
  match get key with
  | Err e => Err (FetchErr text e)
  | Ok None => Ok values
  | Ok (Some value) => Ok (<[text := value]> values)
  end.

Definition PrefixMatch (addresses : result (client_error E) (list string))
    : result op_error (gmap bytes bytes) :=
  match addresses with
  | Err e => Err (RouteErr e)
  | Ok addresses =>
      keys ← foldM scan_address ∅ addresses;
      foldM fetch_match ∅ (range keys)
  end.
End prefix.
End operations.
Arguments op_error : clear implicits.

(** ** Threads *)

(** Where a goroutine is, between two critical sections. *)
Inductive pc (E : Type) :=
(* a call that needs a node: clientForKey, clientForAddress *)
| CRoute (key : bytes) | COpen (address : string) | CDial (address : string)
| CStore (address : string) (cn : conn)
| CRet (r : result (client_error E) conn)
(* refreshLoop *)
| RIdle | RFetch | RInstall (next : result (client_error E) Snapshot) | RRetire (l : list conn) | RStopped
(* Close *)
| XBegin | XFollow | XCancel (conns : list conn) | XWait (conns : list conn)
| XClosing (conns : list conn) (firstErr : option E) | XRet (err : option E).
Arguments CRoute {E} _.
Arguments COpen {E} _.
Arguments CDial {E} _.
Arguments CStore {E} _ _.
Arguments CRet {E} _.
Arguments RIdle {E}.
Arguments RFetch {E}.
Arguments RInstall {E} _.
Arguments RRetire {E} _.
Arguments RStopped {E}.
Arguments XBegin {E}.
Arguments XFollow {E}.
Arguments XCancel {E} _.
Arguments XWait {E} _.
Arguments XClosing {E} _ _.
Arguments XRet {E} _.

(** The client, how many connections were dialled, and the connections closed. *)
Record world (E : Type) := MkWorld { w_client : Client E; w_next : nat; w_closed : list conn }.
Arguments MkWorld {E}.
Arguments w_client {E}.
Arguments w_next {E}.
Arguments w_closed {E}.

(** The width of the decoded message fields, and a node count that fits the
    8 MiB message limit the client dials with. *)
Definition wire_server {E} (server : nat → attempt E) : Prop :=
  (∀ i sm, at_shards (server i) = Ok sm → in_u32 (sm_ShardCount sm)) ∧
  (∀ i nl, at_nodes (server i) = Ok nl → Z.of_nat (length (nl_Nodes nl)) < 2 ^ 32).

(** One step of one goroutine. *)
Inductive thread_step {E} : world E → pc E → world E → pc E → Prop :=
| t_route w key :
    thread_step w (CRoute key) w
      (match routeKey (w_client w) key with Ok a => COpen a | Err e => CRet (Err e) end)
| t_open w a :
    thread_step w (COpen a) w
      (match lookupAddress (w_client w) a with
       | Ok (Some cn) => CRet (Ok cn) | Ok None => CDial a | Err e => CRet (Err e) end)
| t_dial w a :
    thread_step w (CDial a) (MkWorld (w_client w) (S (w_next w)) (w_closed w)) (CStore a (w_next w))
| t_dial_failed w a e : thread_step w (CDial a) w (CRet (Err (DialFailed a e)))
| t_store w a cn c' closed r :
    storeConn (w_client w) a cn = (c', closed, r) →
    thread_step w (CStore a cn)
      (MkWorld c' (w_next w) (w_closed w ++ if closed then [cn] else [])) (CRet r)
| t_tick c n l :
    c_refreshMu c = false →
    thread_step (MkWorld c n l) RIdle (MkWorld (set_refreshMu true c) n l) RFetch
| t_fetch c n l ctx server c' r :
    (∀ i, wire_server (server i)) → fetchTopology c ctx server = (c', r) →
    thread_step (MkWorld c n l) RFetch (MkWorld c' n l) (RInstall r)
| t_install_failed w e : thread_step w (RInstall (Err e)) w (RRetire [])
| t_install c n l next c' r retired :
    refresh_install c next = (c', r) →
    match r with Ok l => retired ≡ₚ l | Err _ => retired = [] end →
    thread_step (MkWorld c n l) (RInstall (Ok next)) (MkWorld c' n l) (RRetire retired)
| t_retire c n l cn rest :
    thread_step (MkWorld c n l) (RRetire (cn :: rest)) (MkWorld c n (l ++ [cn])) (RRetire rest)
| t_retired c n l :
    thread_step (MkWorld c n l) (RRetire []) (MkWorld (set_refreshMu false c) n l) RIdle
| t_stop c n l :
    c_cancelled c = true → thread_step (MkWorld c n l) RIdle (MkWorld (set_refreshDone c) n l) RStopped
| t_close_again c n l : c_closed c = true → thread_step (MkWorld c n l) XBegin (MkWorld c n l) XFollow
| t_close c n l node_conns :
    c_closed c = false → node_conns ≡ₚ (map_to_list (c_nodeConns c)).*2 →
    thread_step (MkWorld c n l) XBegin (MkWorld (set_closed c) n l)
      (XCancel (node_conns ++ (me_conn <$> c_endpoints c)))
| t_cancel c n l conns :
    thread_step (MkWorld c n l) (XCancel conns) (MkWorld (set_cancelled c) n l) (XWait conns)
| t_wait c n l conns :
    c_refreshDone c = true → thread_step (MkWorld c n l) (XWait conns) (MkWorld c n l) (XClosing conns None)
| t_close_conn c n l cn rest fe (err : option E) :
    thread_step (MkWorld c n l) (XClosing (cn :: rest) fe) (MkWorld c n (l ++ [cn]))
      (XClosing rest (match fe with Some _ => fe | None => err end))
| t_close_end c n l fe :
    thread_step (MkWorld c n l) (XClosing [] fe) (MkWorld (set_closeErr fe c) n l) (XRet fe)
| t_follow c n l :
    c_closeDone c = true → thread_step (MkWorld c n l) XFollow (MkWorld c n l) (XRet (c_closeErr c)).

(** Calls arrive at any time and run interleaved. *)
Definition call_start {E} (p : pc E) : Prop :=
  match p with CRoute _ | COpen _ | XBegin => True | _ => False end.

Definition system (E : Type) : Type := world E * list (pc E).

Inductive sys_step {E} : system E → system E → Prop :=
| s_call w ps p : call_start p → sys_step (w, ps) (w, ps ++ [p])
| s_thread w ps i p w' p' :
    ps !! i = Some p → thread_step w p w' p' → sys_step (w, ps) (w', <[i := p']> ps).

(** The system [New] leaves behind: the refresh loop runs when the interval is
    positive. *)
Definition started {E} (c : Client E) (n : nat) : system E :=
  (MkWorld c n [], if 0 <? c_refreshInterval c then [RIdle] else []).

(** ** The invariant *)

Section invariant.
Context {E : Type}.
Implicit Types (c : Client E) (p : pc E) (ps : list (pc E)) (w : world E).

(** The connections a goroutine is responsible for. *)
Definition pc_conns p : list conn :=
  match p with
  | CStore _ cn => [cn]
  | RRetire l | XCancel l | XWait l | XClosing l _ => l
  | _ => []
  end.

(** The connections the client is responsible for; [Close] takes them over. *)
Definition stored c : list conn :=
  if c_closed c then [] else (map_to_list (c_nodeConns c)).*2 ++ (me_conn <$> c_endpoints c).

Definition closer p : list () :=
  match p with XCancel _ | XWait _ | XClosing _ _ => [()] | _ => [] end.
Definition looper p : list () :=
  match p with RIdle | RFetch | RInstall _ | RRetire _ => [()] | _ => [] end.

Definition topology_ok (s : Snapshot) : Prop := snapshot_wf s ∧ in_u32 (ShardCount s).

(** What a goroutine's position says about the client. *)
Definition pc_ok c p : Prop :=
  match p with
  | RInstall (Ok s) => topology_ok s
  | XClosing _ _ => c_refreshDone c = true
  | XRet e => c_closeDone c = true ∧ c_closeErr c = e
  | _ => True
  end.

Record client_ok c : Prop := {
  ok_endpoints : c_endpoints c ≠ [];
  ok_clients : c_nodeClients c = c_nodeConns c;
  ok_owned : ∀ a cn, c_nodeConns c !! a = Some cn → OwnsAddress (c_topology c) a = true;
  ok_topology : topology_ok (c_topology c);
  ok_done : c_closeDone c = true → c_closed c = true ∧ c_refreshDone c = true
}.

Definition one (b : bool) : list () := if b then [()] else [].

Record sys_ok (s : system E) : Prop := {
  sok_client : client_ok (w_client s.1);
  sok_pcs : Forall (pc_ok (w_client s.1)) s.2;
  sok_conns : w_closed s.1 ++ stored (w_client s.1) ++ (s.2 ≫= pc_conns) ≡ₚ seq 0 (w_next s.1);
  sok_closer : s.2 ≫= closer = one (c_closed (w_client s.1) && negb (c_closeDone (w_client s.1)));
  sok_looper : s.2 ≫= looper = one (negb (c_refreshDone (w_client s.1)))
}.

(** Replacing one goroutine's position. *)
Lemma bind_insert {A B} (f : A → list B) (l : list A) i x y :
  l !! i = Some x → ∃ rest, l ≫= f ≡ₚ f x ++ rest ∧ <[i:=y]> l ≫= f ≡ₚ f y ++ rest.
Proof.
  intros H. exists ((take i l ++ drop (S i) l) ≫= f).
  rewrite <-(take_drop_middle l i x H) at 1. rewrite insert_take_drop by (by eapply lookup_lt_Some).
  rewrite !bind_app, !bind_cons. split; solve_Permutation.
Qed.

Lemma Permutation_unit (l k : list ()) : l ≡ₚ k → l = k.
Proof.
  intros H%Permutation_length. revert k H. induction l as [|[] l IH]; intros [|[] k] H; try done.
  f_equal. apply IH. by injection H.
Qed.

Lemma Fetch_ok (server : nat → attempt E) s :
  wire_server server → Fetch server = Ok s → topology_ok s.
Proof.
  intros [Hc Hn] H. apply fetch_loop_Ok in H as (l1 & a & l2 & nl & sm & Hl & _ & _ & Hnl & Hsm & Ha).
  assert (∃ i, a = server i) as [i ->].
  { assert (a ∈ server <$> seq 1 maxCoherenceAttempts) as Hin by (rewrite Hl; set_solver).
    apply list_elem_of_fmap in Hin as (i & -> & _). by exists i. }
  apply accept_Ok in Ha as (g & sc & infos & _ & Hsc & Hacc & -> & _); [|by eapply Hc|by eapply Hn].
  split; [|done]. by destruct (accepted_wf g sc infos (sm_ShardToNodeId sm) (sm_ShardToOwners sm)
                   (sm_ReplicationFactor sm) Hsc Hacc).
Qed.

Lemma fetch_from_ok eps ctx server start todo k fe i s :
  (∀ i, wire_server (server i)) →
  fetch_from (E := E) eps ctx server start todo k fe = Ok (i, s) → topology_ok s.
Proof.
  intros Hw. revert k fe. induction todo as [|todo IH]; intros k fe; cbn [fetch_from]; [done|].
  destruct (ctx k); [done|]. destruct (Fetch _) eqn:Hf; [|apply IH].
  intros [= <- <-]. by eapply Fetch_ok.
Qed.

Lemma fetch_from_err eps ctx server start todo k fe :
  (todo ≠ 0%nat ∨ fe ≠ None) → fetch_from (E := E) eps ctx server start todo k fe ≠ Err None.
Proof.
  revert k fe. induction todo as [|todo IH]; intros k fe H; cbn [fetch_from].
  - destruct fe; naive_solver.
  - destruct (ctx k); [done|]. destruct (Fetch _); [done|]. apply IH. by right.
Qed.

(** Only [preferred] changes, and a topology that comes back is well formed. *)
Lemma fetchTopology_ok c ctx server c' r :
  (∀ i, wire_server (server i)) → c_endpoints c ≠ [] → fetchTopology c ctx server = (c', r) →
  (∃ i, c' = set_preferred i c) ∧ match r with Ok s => topology_ok s | Err _ => True end.
Proof.
  intros Hw Hne. unfold fetchTopology.
  destruct (fetch_from _ _ _ _ _ _ _) as [[i s]|[e|]] eqn:Hf; intros [= <- <-].
  - split; [|by eapply fetch_from_ok].
    case_bool_decide; [exists (c_preferred c); by destruct c|by exists i].
  - split; [exists (c_preferred c); by destruct c|done].
  - exfalso. eapply fetch_from_err; [|done]. left. by destruct (c_endpoints c).
Qed.

Lemma refresh_install_ok c next c' r retired :
  client_ok c → topology_ok next → refresh_install c next = (c', r) →
  match r with Ok l => retired ≡ₚ l | Err _ => retired = [] end →
  client_ok c' ∧ stored c' ++ retired ≡ₚ stored c ∧
  c_closed c' = c_closed c ∧ c_closeDone c' = c_closeDone c ∧ c_refreshDone c' = c_refreshDone c ∧
  c_closeErr c' = c_closeErr c.
Proof.
  intros [He Hcl Ho Ht Hd] Hn. unfold refresh_install, stored.
  destruct (c_closed c) eqn:Hc; intros [= <- <-] Hr.
  { subst. rewrite Hc. split; [by split; rewrite ?Hc|done]. }
  cbn [set_cache c_closed c_nodeConns c_endpoints c_closeDone c_refreshDone c_closeErr]. rewrite Hc.
  split; [|split; [|done]].
  - split; cbn; try done.
    + apply map_eq. intros a. apply option_eq. intros cn.
      rewrite !map_lookup_filter_Some, Hcl. cbn. split; intros [H1 H2]; (split; [done|]).
      * destruct (OwnsAddress next a) eqn:Hoa; [done|].
        apply map_lookup_filter_None in H2 as [H2|H2]; [congruence|].
        exfalso. apply (H2 cn H1). cbn. by rewrite Hoa.
      * apply map_lookup_filter_None. right. intros cn' _. cbn. intros H. by apply H.
    + intros a cn. rewrite map_lookup_filter_Some. naive_solver.
    + by rewrite Hc.
  - rewrite Hr. rewrite (map_to_list_filter_split (fun kv => OwnsAddress next kv.1 = true) (c_nodeConns c)).
    rewrite fmap_app. solve_Permutation.
Qed.

Lemma storeConn_ok c a cn c' closed r :
  client_ok c → storeConn c a cn = (c', closed, r) →
  client_ok c' ∧ stored c' ++ (if closed : bool then [cn] else []) ≡ₚ stored c ++ [cn] ∧
  c_closed c' = c_closed c ∧ c_closeDone c' = c_closeDone c ∧ c_refreshDone c' = c_refreshDone c ∧
  c_closeErr c' = c_closeErr c ∧
  ∀ x, r = Ok x → c_closed c' = false ∧ c_nodeConns c' !! a = Some x.
Proof.
  intros Hok. pose proof Hok as [He Hcl Ho Ht Hd]. unfold storeConn.
  destruct (c_closed c) eqn:Hc; [by intros [= <- <- <-]|].
  destruct (OwnsAddress (c_topology c) a) eqn:Hoa; cbn [negb]; [|by intros [= <- <- <-]].
  destruct (c_nodeClients c !! a) as [ex|] eqn:Hex; intros [= <- <- <-].
  { split_and!; try done. intros x [= <-]. by rewrite <-Hcl. }
  cbn [set_cache c_closed c_nodeConns c_endpoints c_closeDone c_refreshDone c_closeErr].
  split_and!; try done.
  - split; cbn; try done; [by rewrite Hcl| |by rewrite Hc].
    intros b x [[<- _]|[_ H]]%lookup_insert_Some; [done|by eapply Ho].
  - unfold stored. cbn. rewrite Hc, map_to_list_insert by (by rewrite <-Hcl). cbn. solve_Permutation.
  - intros x [= <-]. split; [done|]. apply lookup_insert_eq.
Qed.

(** What one goroutine's step does to the shared accounts. *)
Record effect w p w' p' : Prop := {
  ef_client : client_ok (w_client w');
  ef_pc : pc_ok (w_client w') p';
  ef_others : ∀ q, pc_ok (w_client w) q → pc_ok (w_client w') q;
  ef_conns : ∃ new, w_next w' = (w_next w + new)%nat ∧
    w_closed w' ++ stored (w_client w') ++ pc_conns p' ≡ₚ
    w_closed w ++ stored (w_client w) ++ pc_conns p ++ seq (w_next w) new;
  ef_closer : ∀ rest,
    closer p ++ rest = one (c_closed (w_client w) && negb (c_closeDone (w_client w))) →
    closer p' ++ rest = one (c_closed (w_client w') && negb (c_closeDone (w_client w')));
  ef_looper : ∀ rest,
    looper p ++ rest = one (negb (c_refreshDone (w_client w))) →
    looper p' ++ rest = one (negb (c_refreshDone (w_client w')))
}.

(** A step that only moves the goroutine. *)
Lemma effect_move w p p' :
  client_ok (w_client w) → pc_ok (w_client w) p' → pc_conns p' = pc_conns p →
  closer p' = closer p → looper p' = looper p → effect w p w p'.
Proof.
  intros Hok Hp Hc Hcl Hl. split; try done; [|by rewrite Hcl|by rewrite Hl].
  exists O. cbn. rewrite Hc, app_nil_r. split; [lia|done].
Qed.

(** A step whose client keeps the fields the other goroutines depend on. *)
Lemma effect_client w p w' p' :
  client_ok (w_client w') → pc_ok (w_client w') p' →
  c_closed (w_client w') = c_closed (w_client w) → c_closeDone (w_client w') = c_closeDone (w_client w) →
  c_refreshDone (w_client w') = c_refreshDone (w_client w) →
  c_closeErr (w_client w') = c_closeErr (w_client w) → w_next w' = w_next w →
  w_closed w' ++ stored (w_client w') ++ pc_conns p' ≡ₚ
    w_closed w ++ stored (w_client w) ++ pc_conns p →
  closer p' = closer p → looper p' = looper p → effect w p w' p'.
Proof.
  intros Hok Hp E1 E2 E3 E4 E5 Hc Hcl Hl. split; try done.
  - intros [] Hq; try done; cbn in *; by rewrite ?E2, ?E3, ?E4.
  - exists O. rewrite E5. cbn. rewrite app_nil_r. split; [lia|done].
  - by rewrite Hcl, E1, E2.
  - by rewrite Hl, E3.
Qed.

Lemma call_step_effect w p w' p' :
  client_ok (w_client w) → thread_step w p w' p' →
  match p with CRoute _ | COpen _ | CDial _ | CStore _ _ => effect w p w' p' | _ => True end.
Proof.
  intros Hok Hs. destruct Hs; try exact I.
  - destruct (routeKey _ _); by apply effect_move.
  - destruct (lookupAddress _ _) as [[]|]; by apply effect_move.
  - split; try done. exists 1%nat. cbn. split; [lia|done].
  - by apply effect_move.
  - apply storeConn_ok in H as (Hok' & Hst & H1 & H2 & H3 & H4 & _); [|done].
    apply effect_client; try done. cbn. rewrite app_nil_r.
    transitivity (w_closed w ++ (stored c' ++ if closed then [cn] else [])); [solve_Permutation|].
    by rewrite Hst.
Qed.

Lemma loop_step_effect w p w' p' :
  client_ok (w_client w) → pc_ok (w_client w) p → thread_step w p w' p' →
  match p with RIdle | RFetch | RInstall _ | RRetire _ => effect w p w' p' | _ => True end.
Proof.
  intros Hok Hp Hs. destruct Hs; try exact I; cbn [w_client] in *.
  - apply effect_client; try done. by destruct Hok; split.
  - apply fetchTopology_ok in H0 as [[i ->] Hr]; [|done|by apply ok_endpoints].
    apply effect_client; try done. by destruct Hok; split.
  - by apply effect_move.
  - eapply refresh_install_ok in H as (Hok' & Hst & ? & ? & ? & ?); [|done..].
    apply effect_client; try done. cbn. by rewrite Hst, app_nil_r.
  - apply effect_client; try done. cbn. solve_Permutation.
  - apply effect_client; try done. by destruct Hok; split.
  - split; cbn; try done.
    + destruct Hok; split; try done. cbn. naive_solver.
    + intros [] Hq; naive_solver.
    + exists O. split; [lia|]. by rewrite !app_nil_r.
    + intros rest. by destruct (c_refreshDone c), rest.
Qed.

Lemma close_step_effect w p w' p' :
  client_ok (w_client w) → pc_ok (w_client w) p →
  (closer p ≠ [] → c_closed (w_client w) = true ∧ c_closeDone (w_client w) = false) →
  thread_step w p w' p' →
  match p with
  | XBegin | XFollow | XCancel _ | XWait _ | XClosing _ _ => effect w p w' p'
  | _ => True
  end.
Proof.
  intros Hok Hp Hcl Hs. destruct Hs; try exact I; cbn [w_client] in *.
  - by apply effect_move.
  - assert (c_closeDone c = false) as Hd.
    { destruct (c_closeDone c) eqn:Hd; [|done]. apply (ok_done _ Hok) in Hd as [? _]. congruence. }
    split; cbn; try done.
    + destruct Hok; split; try done. cbn. naive_solver.
    + exists O. unfold stored. cbn. rewrite H, H0, !app_nil_r. split; [lia|done].
    + intros rest. by rewrite H, Hd; intros ->.
  - apply effect_client; try done. by destruct Hok; split.
  - by apply effect_move.
  - apply effect_client; try done. cbn. solve_Permutation.
  - destruct Hcl as [Hc Hd]; [done|]. split; cbn; try done.
    + destruct Hok; split; try done.
    + intros [] Hq; try done. cbn in *. naive_solver congruence.
    + exists O. rewrite !app_nil_r. split; [lia|done].
    + intros rest. rewrite Hc, Hd. by destruct rest.
  - by apply effect_move.
Qed.

Lemma thread_step_effect w p w' p' :
  client_ok (w_client w) → pc_ok (w_client w) p →
  (closer p ≠ [] → c_closed (w_client w) = true ∧ c_closeDone (w_client w) = false) →
  thread_step w p w' p' → effect w p w' p'.
Proof.
  intros Hok Hp Hcl Hs.
  pose proof (call_step_effect w p w' p' Hok Hs).
  pose proof (loop_step_effect w p w' p' Hok Hp Hs).
  pose proof (close_step_effect w p w' p' Hok Hp Hcl Hs). by destruct Hs.
Qed.

Lemma sys_step_ok s s' : sys_ok s → sys_step s s' → sys_ok s'.
Proof.
  intros [Hok Hps Hconns Hcl Hl] Hs. destruct Hs as [w ps p Hp|w ps i p w' p' Hi Hs]; cbn [fst snd] in *.
  - assert (pc_conns p = [] ∧ closer p = [] ∧ looper p = [] ∧ pc_ok (w_client w) p) as (H1 & H2 & H3 & H4)
      by by destruct p.
    split; cbn [fst snd]; rewrite ?bind_app, ?bind_singleton, ?H1, ?H2, ?H3, ?app_nil_r; try done.
    apply Forall_app. by split; [|constructor].
  - destruct (bind_insert pc_conns ps i p p' Hi) as (rest & Hr1 & Hr2).
    destruct (bind_insert closer ps i p p' Hi) as (crest & Hc1 & Hc2).
    destruct (bind_insert looper ps i p p' Hi) as (lrest & Hl1 & Hl2).
    rewrite Hcl in Hc1. rewrite Hl in Hl1.
    apply symmetry, Permutation_unit in Hc1. apply symmetry, Permutation_unit in Hl1.
    assert (effect w p w' p') as [Hok' Hp' Ho (new & Hn & Hnew) Hec Hel].
    { apply thread_step_effect; try done.
      - eapply Forall_lookup_1 in Hps; [|done]. done.
      - intros Hne. destruct (c_closed (w_client w)), (c_closeDone (w_client w)); try done;
          cbn in Hc1; by destruct (closer p). }
    split; cbn [fst snd]; try done.
    + apply Forall_insert; [|done]. eapply Forall_impl; [done|]. done.
    + rewrite Hr2, Hn, seq_app, <-Hconns, Hr1. cbn.
      transitivity ((w_closed w' ++ stored (w_client w') ++ pc_conns p') ++ rest); [solve_Permutation|].
      rewrite Hnew. solve_Permutation.
    + rewrite <-(Hec crest Hc1). by apply Permutation_unit.
    + rewrite <-(Hel lrest Hl1). by apply Permutation_unit.
Qed.

Lemma sys_steps_ok s s' : sys_ok s → rtc sys_step s s' → sys_ok s'.
Proof. intros Hok Hs. induction Hs; eauto using sys_step_ok. Qed.
End invariant.

(** ** Construction establishes the invariant *)

Section new.
Context {E D : Type} (defaultDial : list D) (NewClient : list D → string → option E).

Lemma dial_endpoints_ok ds addresses acc eps err :
  dial_endpoints NewClient ds addresses acc = (eps, err) → me_conn <$> acc = seq 0 (length acc) →
  me_conn <$> eps = seq 0 (length eps) ∧ (err = None → me_address <$> eps = (me_address <$> acc) ++ addresses).
Proof.
  revert acc. induction addresses as [|a addresses IH]; intros acc; cbn.
  - intros [= <- <-] Hacc. by rewrite app_nil_r.
  - destruct (NewClient ds a); [by intros [= <- <-]|]. intros H Hacc.
    apply IH in H as [H1 H2].
    + split; [done|]. intros Hn. rewrite H2, fmap_app by done. cbn. by rewrite <-app_assoc.
    + rewrite fmap_app, length_app, seq_app, Hacc. done.
Qed.

(** The system a successful [New] starts satisfies the invariant; a failed one
    closed every connection it dialled. *)
Lemma New_ok addr opts ctx server r n closed :
  (∀ i, wire_server (server i)) →
  New defaultDial NewClient addr opts ctx server = (r, n, closed) →
  match r with
  | Ok c => closed = [] ∧ sys_ok (started c n) ∧ c_closed c = false ∧ c_nodeConns c = ∅ ∧
      splitEndpoints addr = Some (me_address <$> c_endpoints c)
  | Err _ => closed = seq 0 n
  end.
Proof.
  intros Hw. unfold New. destruct (splitEndpoints addr) as [addresses|] eqn:Hsplit; [|by intros [= <- <- <-]].
  destruct (foldM _ _ _) as [cfg|e]; [|by intros [= <- <- <-]].
  destruct (dial_endpoints _ _ _ _) as [eps err] eqn:Hd.
  apply dial_endpoints_ok in Hd as [Hseq Haddr]; [|done].
  destruct err as [[a e]|]; [by intros [= <- <- <-]|]. specialize (Haddr eq_refl). cbn in Haddr.
  assert (eps ≠ []) as Hne.
  { intros ->. cbn in Haddr. subst. unfold splitEndpoints in Hsplit. by destruct (foldl _ _ _). }
  destruct (fetchTopology _ _ _) as [c r'] eqn:Hf.
  apply fetchTopology_ok in Hf as [[i ->] Ht]; [|done|done].
  destruct r' as [next|e]; [|by intros [= <- <- <-]].
  unfold refresh_install. cbn [set_preferred c_closed].
  intros [= <- <- <-]. split; [done|].
  assert (∀ rd, client_ok (MkClient eps i (o_refreshInterval cfg) (o_refreshTimeout cfg) false rd false false
           false (None : option E) next ∅ ∅)) as Hcok.
  { intros rd. by split. }
  cbn [set_cache c_refreshInterval set_preferred c_closed c_nodeConns c_nodeClients].
  rewrite !map_filter_empty.
  destruct (0 <? o_refreshInterval cfg) eqn:Hi; (split; [|cbn; by rewrite Haddr]); unfold started;
    cbn [c_refreshInterval set_refreshDone set_cache set_preferred]; rewrite Hi;
    (constructor; [apply (Hcok _)|first [by apply Forall_singleton|by apply Forall_nil]| |done|done]);
    unfold stored; cbn -[map_to_list fmap seq]; rewrite map_to_list_empty; cbn -[fmap seq];
    rewrite fmap_nil, app_nil_r; cbn -[fmap seq]; by rewrite Hseq.
Qed.

Lemma New_reachable addr opts ctx server c n closed s :
  (∀ i, wire_server (server i)) →
  New defaultDial NewClient addr opts ctx server = (Ok c, n, closed) →
  rtc sys_step (started c n) s → sys_ok s.
Proof. intros Hw (_ & Hs & _)%New_ok Hr; [|done]. by eapply sys_steps_ok. Qed.
End new.

(** ** Routing over a well-formed topology *)

Lemma OwnsAddress_owner s sh o a :
  ShardMap s !! sh = Some o → Nodes s !! o = Some a → OwnsAddress s a = true.
Proof.
  intros H1 H2. unfold OwnsAddress. apply existsb_exists. exists (sh, o). split.
  - by apply list_elem_of_In, elem_of_map_to_list.
  - apply bool_decide_eq_true. unfold owner_address. cbn. by rewrite H2.
Qed.

Lemma routeKey_ok {E} (c : Client E) key :
  topology_ok (c_topology c) → c_closed c = false → Nodes (c_topology c) ≠ ∅ →
  ∃ owner address, ShardMap (c_topology c) !! ShardForKey key (ShardCount (c_topology c)) = Some owner ∧
    Nodes (c_topology c) !! owner = Some address ∧ routeKey c key = Ok address ∧
    OwnsAddress (c_topology c) address = true.
Proof.
  intros [Hwf Hu] Hc Hne. set (s := c_topology c) in *.
  destruct (swf_dom s Hwf (ShardForKey key (ShardCount s))) as [_ [o Ho]].
  { split; [done|]. apply ShardForKey_range; [apply Hwf|done]. }
  destruct (swf_live s Hwf _ _ Ho) as [a Ha].
  destruct (swf_nonempty s Hwf _ _ Ha) as [Hid Hae].
  exists o, a. split_and!; try done; [|by eapply OwnsAddress_owner].
  unfold routeKey. fold s. rewrite Hc, (bool_decide_eq_false_2 (Nodes s = ∅)) by done.
  rewrite bool_decide_eq_false_2 by (intros H; rewrite H, lookup_empty in Ho; done). cbn [orb].
  unfold OwnerForKey. rewrite Ho, bool_decide_eq_false_2 by done. rewrite Ha.
  by rewrite bool_decide_eq_false_2 by done.
Qed.

(** ** A concrete client for the witnesses: one control-plane replica, no polling *)

Module Demo.
Definition new : result (new_error unit) (Client unit) * nat * list conn :=
  New (D := unit) [] (fun _ _ => None) " cp-0:9000 ,cp-0:9000" [WithRefreshInterval 0]
    (fun _ => None) (fun _ => Fixture.server).
Definition client_of (r : result (new_error unit) (Client unit) * nat * list conn) : Client unit :=
  match r with
  | (Ok c, _, _) => c
  | _ => MkClient [] 0 0 0 false false false false false None zero_topology ∅ ∅
  end.
Definition client : Client unit := Eval vm_compute in client_of new.

Lemma wire (i : nat) : wire_server ((fun _ => Fixture.server) i).
Proof.
  split; intros [|[|j]] m [= <-]; unfold in_u32; cbn; lia.
Qed.

Lemma new_eq : new = (Ok client, 1%nat, []).
Proof. vm_compute. reflexivity. Qed.

Definition node : string := "10.0.0.1:7100".

Lemma started_eq : started client 1 = (MkWorld client 1 [], []).
Proof. by vm_compute. Qed.

Lemma idle : rtc sys_step (started client 1) (MkWorld client 1 [], []).
Proof. rewrite started_eq. done. Qed.

(** A goroutine has dialled [node] and is about to store the connection. *)
Lemma dialled : rtc sys_step (started client 1) (MkWorld client 2 [], [CStore node 1]).
Proof.
  rewrite started_eq.
  eapply rtc_l; [by apply (s_call _ _ (COpen node))|].
  eapply rtc_l; [eapply (s_thread _ _ 0); [done|apply t_open]|].
  replace (lookupAddress _ _) with (Ok None : result (client_error unit) (option conn)) by (by vm_compute).
  eapply rtc_l; [eapply (s_thread _ _ 0); [done|apply t_dial]|]. done.
Qed.

(** A [Close] has run to completion. *)
Lemma shut :
  rtc sys_step (started client 1)
    (MkWorld (set_closeErr None (set_cancelled (set_closed client))) 1 [0%nat], [XRet None]).
Proof.
  rewrite started_eq.
  eapply rtc_l; [by apply (s_call _ _ XBegin)|].
  eapply rtc_l; [eapply (s_thread _ _ 0); [done|by apply (t_close client 1 [] [])]|].
  replace (me_conn <$> c_endpoints client) with [0%nat] by (by vm_compute).
  eapply rtc_l; [eapply (s_thread _ _ 0); [done|apply t_cancel]|].
  eapply rtc_l; [eapply (s_thread _ _ 0); [done|by apply t_wait]|].
  eapply rtc_l; [eapply (s_thread _ _ 0); [done|apply (t_close_conn _ _ _ _ _ _ None)]|].
  eapply rtc_l; [eapply (s_thread _ _ 0); [done|apply t_close_end]|]. done.
Qed.
End Demo.

(** ** Claims *)

Section reachable.
Context {E D : Type} (defaultDial : list D) (NewClient : list D → string → option E).
Context (addr : string) (opts : list (Option D)) (ctx : nat → option E) (server : nat → nat → attempt E).
Context (Hwire : ∀ i, wire_server (server i)).

(** C3: no connection is leaked or closed twice, under any interleaving of calls,
    refreshes and [Close]: a failed [New] has closed everything it dialled; after
    a successful one, no connection is ever closed twice, and every connection
    ever dialled is closed, or is a control-plane or cached connection of a client still open,
    or is in the hands of a goroutine that is still running. *)
Theorem client_no_leak r n closed :
  New defaultDial NewClient addr opts ctx server = (r, n, closed) →
  match r with
  | Err _ => closed = seq 0 n
  | Ok c => ∀ w ps, rtc sys_step (started c n) (w, ps) →
      NoDup (w_closed w) ∧
      ∀ cn, (cn < w_next w)%nat ↔ cn ∈ w_closed w ∨
        (c_closed (w_client w) = false ∧
          ((∃ a, c_nodeConns (w_client w) !! a = Some cn) ∨
           (∃ ep, ep ∈ c_endpoints (w_client w) ∧ me_conn ep = cn))) ∨
        (∃ p, p ∈ ps ∧ cn ∈ pc_conns p)
  end.
Proof using Hwire.
  intros Hnew. destruct r as [c|e]; [|by apply New_ok in Hnew].
  intros w ps Hr. eapply New_reachable in Hr; [|done..]. destruct Hr as [_ _ Hp _ _]. cbn in Hp.
  split.
  - pose proof (NoDup_seq 0 (w_next w)) as Hnd. rewrite <-Hp in Hnd. by apply NoDup_app in Hnd as [? _].
  - intros cn. transitivity (cn ∈ seq 0 (w_next w)); [rewrite elem_of_seq; lia|].
    rewrite <-Hp, !elem_of_app, list_elem_of_bind.
    assert (cn ∈ stored (w_client w) ↔ c_closed (w_client w) = false ∧
          ((∃ a, c_nodeConns (w_client w) !! a = Some cn) ∨
           (∃ ep, ep ∈ c_endpoints (w_client w) ∧ me_conn ep = cn))) as ->.
    { unfold stored. destruct (c_closed _); [set_solver|].
      rewrite elem_of_app, !list_elem_of_fmap. setoid_rewrite elem_of_map_to_list'. cbn.
      split; [|intros [_ [[a Ha]|(ep & ? & ?)]]; [left; exists (a, cn)|right]; eauto].
      intros [([a x] & -> & Ha)|(ep & -> & ?)]; split; eauto. }
    naive_solver.
Qed.

(** A call only ever hands out a live connection: at the moment a goroutine
    obtains a node, the client is not closed, the connection is the cached one of
    an address that owns a shard in the installed topology, and has not been closed. *)
Theorem client_calls_live c n closed w ps p w' cn :
  New defaultDial NewClient addr opts ctx server = (Ok c, n, closed) →
  rtc sys_step (started c n) (w, ps) → p ∈ ps → thread_step w p w' (CRet (Ok cn)) →
  c_closed (w_client w') = false ∧ cn ∉ w_closed w' ∧
  ∃ a, c_nodeConns (w_client w') !! a = Some cn ∧ OwnsAddress (c_topology (w_client w')) a = true.
Proof using Hwire.
  intros Hnew Hr [i Hi]%list_elem_of_lookup Hs.
  assert (Hok' : sys_ok (w', <[i:=CRet (Ok cn)]> ps)).
  { eapply New_reachable; [done..|]. eapply rtc_r; [done|]. by eapply s_thread. }
  assert (Hok : sys_ok (w, ps)) by (by eapply New_reachable).
  assert (c_closed (w_client w') = false ∧ ∃ a, c_nodeConns (w_client w') !! a = Some cn) as [Hc [a Ha]].
  { clear Hok' Hnew Hr Hi. remember (CRet (Ok cn)) as q eqn:Hq.
    destruct Hs as [| | | |w ? ? ? ? ? Hst| | | | | | | | | | | | | |]; try discriminate Hq.
    - by destruct (routeKey _ _).
    - pose proof (ok_clients _ (sok_client _ Hok)) as Hcl. cbn in Hcl.
      revert Hq. unfold lookupAddress. destruct (c_closed _) eqn:Hc; [done|].
      destruct (OwnsAddress _ _); cbn [negb]; [|done].
      destruct (c_nodeClients _ !! _) eqn:Hx; [|done]. intros [= ->]. split; [done|].
      rewrite <-Hcl. eauto.
    - apply storeConn_ok in Hst as (_ & _ & _ & _ & _ & _ & Hst); [|apply Hok].
      injection Hq as ->. destruct (Hst cn eq_refl); eauto. }
  split; [done|]. split; [|exists a; split; [done|by eapply Hok']].
  intros Hin. destruct Hok' as [_ _ Hp _ _]. cbn [fst snd] in Hp.
  pose proof (NoDup_seq 0 (w_next w')) as Hnd. rewrite <-Hp in Hnd.
  apply NoDup_app in Hnd as (_ & Hnd & _). apply (Hnd cn Hin), elem_of_app. left.
  unfold stored. rewrite Hc. apply elem_of_app. left. apply list_elem_of_fmap. exists (a, cn).
  by rewrite elem_of_map_to_list.
Qed.


(** Routing never fails on a live cluster: at any reachable state of an open client,
    a key is routed to the address of the node the installed shard map names for it, an
    address that owns a shard; the only refusal is the authoritative empty
    cluster. *)
Theorem client_routes c n closed w ps key :
  New defaultDial NewClient addr opts ctx server = (Ok c, n, closed) →
  rtc sys_step (started c n) (w, ps) → c_closed (w_client w) = false →
  let t := c_topology (w_client w) in
  (Nodes t = ∅ ∧ routeKey (w_client w) key = Err ErrNoLiveNodes) ∨
  ∃ owner address, ShardMap t !! ShardForKey key (ShardCount t) = Some owner ∧
    Nodes t !! owner = Some address ∧ routeKey (w_client w) key = Ok address ∧
    lookupAddress (w_client w) address = Ok (c_nodeConns (w_client w) !! address).
Proof using Hwire.
  intros Hnew Hr Hc t. eapply New_reachable in Hr; [|done..]. destruct Hr as [Hok _ _ _ _]. cbn in Hok.
  destruct (decide (Nodes t = ∅)) as [He|Hne].
  - left. split; [done|]. unfold routeKey. fold t. rewrite Hc. by rewrite bool_decide_eq_true_2 by done.
  - right. destruct (routeKey_ok (w_client w) key) as (o & a & H1 & H2 & H3 & H4); [apply Hok|done..|].
    exists o, a. split_and!; try done. unfold lookupAddress. rewrite Hc, H4. cbn.
    by rewrite (ok_clients _ Hok).
Qed.
End reachable.

Lemma client_no_leak_witness :
  ∃ w ps, rtc sys_step (started Demo.client 1) (w, ps) ∧ w_closed w = [0%nat] ∧ NoDup (w_closed w).
Proof.
  eexists _, _. split; [exact Demo.shut|]. split; [reflexivity|].
  destruct (client_no_leak [] (fun _ _ => None) _ _ _ _ Demo.wire _ _ _ Demo.new_eq _ _ Demo.shut) as [H _].
  exact H.
Defined.

Lemma client_calls_live_witness :
  ∃ w' a, thread_step (MkWorld Demo.client 2 []) (CStore Demo.node 1) w' (CRet (Ok 1%nat)) ∧
    c_nodeConns (w_client w') !! a = Some 1%nat ∧ OwnsAddress (c_topology (w_client w')) a = true.
Proof.
  assert (Hs : thread_step (MkWorld Demo.client 2 []) (CStore Demo.node 1)
    (MkWorld (storeConn Demo.client Demo.node 1).1.1 2 []) (CRet (Ok 1%nat))).
  { apply (t_store (MkWorld Demo.client 2 []) Demo.node 1 _ false). vm_compute. reflexivity. }
  destruct (client_calls_live [] (fun _ _ => None) _ _ _ _ Demo.wire _ _ _ _ _ _ _ _
    Demo.new_eq Demo.dialled ltac:(left) Hs) as (_ & _ & a & H1 & H2).
  eexists _, a. split; [exact Hs|]. split; [exact H1|exact H2].
Defined.


Lemma client_routes_witness :
  ∃ address, routeKey Demo.client [x6b] = Ok address ∧
    lookupAddress Demo.client address = Ok (c_nodeConns Demo.client !! address).
Proof.
  destruct (client_routes [] (fun _ _ => None) _ _ _ _ Demo.wire _ _ _ _ _ [x6b] Demo.new_eq
    Demo.idle ltac:(vm_compute; reflexivity)) as [[H _]|(o & a & _ & _ & H1 & H2)].
  - vm_compute in H. discriminate.
  - exists a. split; [exact H1|exact H2].
Defined.

(** ** Failover across control-plane replicas *)

Section failover.
Context {E : Type} (eps : list metadataEndpoint) (ctx : nat → option E) (server : nat → nat → attempt E).
Context (start : nat).

Definition endpoint_at (k : nat) : nat := (start + k) mod length eps.

Lemma fetch_from_first todo k fe i s :
  fetch_from eps ctx server start todo k fe = Ok (i, s) ↔
  ∃ j, (k ≤ j < k + todo)%nat ∧ i = endpoint_at j ∧ Fetch (server i) = Ok s ∧ ctx j = None ∧
    ∀ m, (k ≤ m < j)%nat → ctx m = None ∧ ∃ e, Fetch (server (endpoint_at m)) = Err e.
Proof.
  revert k fe. induction todo as [|todo IH]; intros k fe; cbn [fetch_from].
  { split; [done|]. intros (j & Hj & _). lia. }
  fold (endpoint_at k). destruct (ctx k) as [e|] eqn:Hc.
  { split; [done|]. intros (j & Hj & _ & _ & Hcj & Hm). destruct (decide (j = k)) as [->|]; [congruence|].
    destruct (Hm k) as [? _]; [lia|congruence]. }
  destruct (Fetch (server (endpoint_at k))) as [s'|e] eqn:Hf.
  - split.
    + intros [= <- <-]. exists k. split; [lia|]. split_and!; try done. intros m Hm. lia.
    + intros (j & Hj & -> & Hs & _ & Hm). destruct (decide (j = k)) as [->|]; [congruence|].
      destruct (Hm k) as [_ [e He]]; [lia|congruence].
  - rewrite IH. split; intros (j & Hj & -> & Hs & Hcj & Hm).
    + exists j. split; [lia|]. split_and!; try done. intros m Hmj.
      destruct (decide (m = k)) as [->|]; [split; [exact Hc|exists e; exact Hf]|apply Hm; lia].
    + destruct (decide (j = k)) as [->|]; [congruence|].
      exists j. split; [lia|]. split_and!; try done. intros m Hmj. apply Hm. lia.
Qed.

Lemma endpoint_at_surj i :
  (i < length eps)%nat → (start < length eps)%nat → ∃ k, (k < length eps)%nat ∧ endpoint_at k = i.
Proof.
  intros Hi Hs. unfold endpoint_at. destruct (decide (start ≤ i)%nat).
  - exists (i - start)%nat. split; [lia|]. rewrite Nat.mod_small; lia.
  - exists (i + length eps - start)%nat. split; [lia|].
    replace (start + (i + length eps - start))%nat with (i + 1 * length eps)%nat by lia.
    rewrite Nat.Div0.mod_add. apply Nat.mod_small. lia.
Qed.
End failover.

(** A refresh fails over across the control plane: it succeeds exactly when some
    replica it reaches before the deadline serves a coherent topology, it takes the
    first one in rotation from the replica that answered last, and it sticks to
    that replica for the next refresh; a failed refresh changes nothing. *)
Theorem fetchTopology_failover {E} (c : Client E) ctx server
    (Hpref : (c_preferred c < length (c_endpoints c))%nat) :
  let n := length (c_endpoints c) in
  let at_ k := endpoint_at (c_endpoints c) (c_preferred c) k in
  match fetchTopology c ctx server with
  | (c', Ok s) => ∃ k, (k < n)%nat ∧ Fetch (server (at_ k)) = Ok s ∧ c' = set_preferred (at_ k) c ∧
      (at_ k < n)%nat ∧ ∀ m, (m < k)%nat → ∃ e, Fetch (server (at_ m)) = Err e
  | (c', Err _) => c' = c ∧
      ((∀ k, ctx k = None) → ∀ i, (i < n)%nat → ∃ e, Fetch (server i) = Err e)
  end.
Proof.
  intros n at_. unfold fetchTopology.
  destruct (fetch_from _ _ _ _ _ _ _) as [[i s]|e] eqn:Hf.
  - apply fetch_from_first in Hf as (k & Hk & -> & Hs & _ & Hm). exists k.
    split; [lia|]. split_and!; try done.
    + fold (at_ k). case_bool_decide as Heq; [|done]. rewrite Heq. by destruct c.
    + apply Nat.mod_upper_bound. lia.
    + intros m Hmk. apply Hm. lia.
  - destruct e as [e|]; [|by apply fetch_from_err in Hf; [|left; lia]].
    split; [done|]. intros Hctx i Hi.
    destruct (endpoint_at_surj (c_endpoints c) (c_preferred c) i) as (k & Hk & <-); [done..|].
    clear Hi. induction k as [k IH] using lt_wf_ind.
    destruct (Fetch (server _)) as [s|e'] eqn:Hs; [|by eauto]. exfalso.
    assert (fetch_from (c_endpoints c) ctx server (c_preferred c) n 0 None = Ok (at_ k, s)) as Hok; [|unfold n in Hok; rewrite Hf in Hok; discriminate].
    apply fetch_from_first. exists k. split; [lia|]. split_and!; try done.
    intros m Hmk. split; [done|]. apply IH; lia.
Qed.

Module Failover.
Definition client : Client unit :=
  MkClient [MkEndpoint "cp-0:9000" 0; MkEndpoint "cp-1:9000" 1] 0 0 1 false false false
    false false None zero_topology ∅ ∅.
Definition server (i : nat) : nat → attempt unit :=
  if bool_decide (i = 1%nat) then Fixture.server else Fixture.churning.
Lemma fetched_eq : fetchTopology client (fun _ => None) server = (set_preferred 1 client, Ok (c_topology Demo.client)).
Proof. vm_compute. reflexivity. Qed.
End Failover.

Lemma fetchTopology_failover_witness :
  ∃ k, Fetch (Failover.server (endpoint_at (c_endpoints Failover.client) 0 k)) = Ok (c_topology Demo.client) ∧
    endpoint_at (c_endpoints Failover.client) 0 k = 1%nat.
Proof.
  pose proof (fetchTopology_failover Failover.client (fun _ => None) Failover.server ltac:(cbn; lia)) as H.
  cbv zeta in H. rewrite Failover.fetched_eq in H. destruct H as (k & _ & H1 & H2 & _). exists k.
  split; [exact H1|]. apply (f_equal c_preferred) in H2. symmetry. exact H2.
Defined.

(** ** Prefix scans *)

Section prefix_spec.
Context {E : Type} (clientForAddress : string → result (client_error E) conn)
        (scan : conn → result E (list (result E bytes)))
        (range : gmap bytes bytes → list (bytes * bytes))
        (get : bytes → result (op_error E) (option bytes)).
Context (Hrange : ∀ m, range m ≡ₚ map_to_list m).

(** The node at [a] listed exactly [ks]. *)
Definition lists (a : string) (ks : list bytes) : Prop :=
  ∃ node, clientForAddress a = Ok node ∧ scan node = Ok (Ok <$> ks).

Definition keys_map (ks : list bytes) : gmap bytes bytes := list_to_map ((fun k => (k, k)) <$> rev ks).

Lemma keys_map_snoc ks k : keys_map (ks ++ [k]) = <[k := k]> (keys_map ks).
Proof. unfold keys_map. by rewrite rev_unit. Qed.

Lemma lookup_keys_map ks k x : keys_map ks !! k = Some x ↔ x = k ∧ k ∈ ks.
Proof.
  induction ks as [|k' ks IH] using rev_ind; [by split; [|intros [_ ?%not_elem_of_nil]]|].
  rewrite keys_map_snoc, lookup_insert_Some, IH, elem_of_app, list_elem_of_singleton.
  destruct (decide (k' = k)); naive_solver.
Qed.

Lemma recv_keys_Ok a ks recvs m :
  recv_keys (E := E) a (keys_map ks) recvs = Ok m ↔ ∃ ks', recvs = Ok <$> ks' ∧ m = keys_map (ks ++ ks').
Proof.
  revert ks. induction recvs as [|[k|e] recvs IH]; intros ks; cbn [recv_keys].
  - split; [intros [= <-]; exists []; by rewrite app_nil_r|].
    intros ([|] & ? & ->); [by rewrite app_nil_r|done].
  - rewrite <-keys_map_snoc, IH. split.
    + intros (ks' & -> & ->). exists (k :: ks'). by rewrite <-app_assoc.
    + intros ([|k' ks'] & Heq & ->); [done|]. cbn in Heq. injection Heq as -> ->.
      exists ks'. by rewrite <-app_assoc.
  - split; [done|]. by intros ([|] & ? & _).
Qed.

Lemma scan_addresses_Ok addresses ks m :
  foldM (scan_address clientForAddress scan) (keys_map ks) addresses = Ok m ↔
  ∃ kss, Forall2 lists addresses kss ∧ m = keys_map (ks ++ concat kss).
Proof.
  revert ks. induction addresses as [|a addresses IH]; intros ks; cbn [foldM].
  - split; [intros [= <-]; exists []; rewrite app_nil_r; by split; [constructor|]|].
    intros (kss & ->%Forall2_nil_inv_l & ->). by rewrite app_nil_r.
  - rewrite result_bind_Ok. split.
    + intros (m' & Hs & H). unfold scan_address in Hs.
      destruct (clientForAddress a) as [node|] eqn:Hc; [|done].
      destruct (scan node) as [recvs|] eqn:Hsc; [|done].
      apply recv_keys_Ok in Hs as (ks' & -> & ->). apply IH in H as (kss & HF & ->).
      exists (ks' :: kss). split; [constructor; [by exists node|done]|]. cbn. by rewrite app_assoc.
    + intros (kss & HF & ->). inversion HF as [|? ks' ? kss' (node & Hc & Hsc) HF' Ha Hk]; subst.
      exists (keys_map (ks ++ ks')). split.
      * unfold scan_address. rewrite Hc, Hsc. apply recv_keys_Ok. by exists ks'.
      * apply IH. exists kss'. split; [done|]. cbn. by rewrite app_assoc.
Qed.

(** The values after fetching [k]. *)
Definition fetched (k : bytes) (r : option bytes) (vs : gmap bytes bytes) : gmap bytes bytes :=
  match r with Some v => <[k := v]> vs | None => vs end.

Lemma lookup_fetched_ne k r vs x : x ≠ k → fetched k r vs !! x = vs !! x.
Proof. intros ?. destruct r; [|done]. by apply lookup_insert_ne. Qed.

Lemma lookup_fetched k r vs : vs !! k = None → fetched k r vs !! k = r.
Proof. intros ?. destruct r; [|done]. apply lookup_insert_eq. Qed.

Lemma fetched_spec k r vs (l : list bytes) x v :
  vs !! k = None → k ∉ l → get k = Ok r →
  fetched k r vs !! x = Some v ∨ x ∈ l ∧ get x = Ok (Some v) ↔
  vs !! x = Some v ∨ x ∈ k :: l ∧ get x = Ok (Some v).
Proof.
  intros Hk Hl Hg. rewrite elem_of_cons. destruct (decide (x = k)) as [->|Hne].
  - rewrite lookup_fetched, Hk, Hg by done. split; [intros [->|[? _]]|intros [?|[_ [= ->]]]]; auto; done.
  - rewrite lookup_fetched_ne by done. split; [intros [?|[? ?]]|intros [?|[[?|?] ?]]]; auto; done.
Qed.

Lemma fetch_matches_Ok (ks : list bytes) vs m :
  NoDup ks → (∀ k, k ∈ ks → vs !! k = None) →
  foldM (fetch_match get) vs ((fun k => (k, k)) <$> ks) = Ok m ↔
  (∀ k, k ∈ ks → ∃ r, get k = Ok r) ∧
  ∀ k v, m !! k = Some v ↔ vs !! k = Some v ∨ k ∈ ks ∧ get k = Ok (Some v).
Proof.
  intros Hnd. revert vs. induction Hnd as [|k ks Hk Hnd IH]; intros vs Hnew.
  { cbn. split.
    - intros [= <-]. split; [by intros ? ?%not_elem_of_nil|].
      intros k v. rewrite elem_of_nil. naive_solver.
    - intros [_ H]. f_equal. apply map_eq. intros k. apply option_eq. intros v. rewrite H.
      rewrite elem_of_nil. naive_solver. }
  rewrite fmap_cons. cbn [foldM fetch_match]. rewrite result_bind_Ok.
  assert (Hk0 : vs !! k = None) by (apply Hnew; left).
  destruct (get k) as [r|e] eqn:Hg.
  - transitivity (foldM (fetch_match get) (fetched k r vs) ((fun k => (k, k)) <$> ks) = Ok m).
    { destruct r; split; [intros (? & [= <-] & ?)|eauto|intros (? & [= <-] & ?)|eauto]; done. }
    rewrite IH by (intros x Hx; rewrite lookup_fetched_ne by congruence; apply Hnew; by right).
    setoid_rewrite (fetched_spec k r vs ks); [|done..].
    split; intros [H1 H2]; (split; [|done]).
    + intros x [->|Hx]%elem_of_cons; eauto.
    + intros x Hx. apply H1. by right.
  - split; [by intros (? & ? & _)|]. intros [H1 _]. destruct (H1 k) as [r Hr]; [left|]. congruence.
Qed.

(** A prefix scan answers with exactly the values still present of exactly the
    keys the nodes listed, each once, whatever order the key map is iterated in;
    it succeeds if and only if every node could be scanned to the end and no
    fetch failed, so a listed key that has meanwhile disappeared is skipped and any other
    failure surfaces. *)
Theorem PrefixMatch_spec addresses values :
  PrefixMatch clientForAddress scan range get (Ok addresses) = Ok values ↔
  ∃ kss, Forall2 lists addresses kss ∧ (∀ k, k ∈ concat kss → ∃ r, get k = Ok r) ∧
    ∀ k v, values !! k = Some v ↔ k ∈ concat kss ∧ get k = Ok (Some v).
Proof using Hrange.
  unfold PrefixMatch. rewrite result_bind_Ok.
  change (∅ : gmap bytes bytes) with (keys_map []) at 1. setoid_rewrite scan_addresses_Ok.
  assert (Hl : ∀ kss values, foldM (fetch_match get) ∅ (range (keys_map (concat kss))) = Ok values ↔
    (∀ k, k ∈ concat kss → ∃ r, get k = Ok r) ∧
    ∀ k v, values !! k = Some v ↔ k ∈ concat kss ∧ get k = Ok (Some v)).
  { intros kss vs. set (l := range (keys_map (concat kss))).
    assert (Hin : ∀ kv, kv ∈ l ↔ kv.2 = kv.1 ∧ kv.1 ∈ concat kss).
    { intros [k x]. unfold l. rewrite Hrange, elem_of_map_to_list, lookup_keys_map. done. }
    assert (Hl : l = (fun k => (k, k)) <$> l.*1).
    { rewrite <-list_fmap_compose. rewrite <-(list_fmap_id l) at 1. apply list_fmap_ext.
      intros i [k x] Hi. apply list_elem_of_lookup_2, Hin in Hi as [[= ->] _]. done. }
    assert (Hks : ∀ k, k ∈ l.*1 ↔ k ∈ concat kss).
    { intros k. rewrite list_elem_of_fmap. setoid_rewrite Hin. split; [by intros (? & -> & _ & ?)|].
      intros ?. by exists (k, k). }
    rewrite Hl, fetch_matches_Ok; [|unfold l; rewrite Hrange; apply NoDup_fst_map_to_list|done].
    setoid_rewrite Hks. setoid_rewrite lookup_empty.
    split; intros [H1 H2]; (split; [done|]); intros k v; rewrite H2; clear;
      intuition discriminate. }
  split.
  - intros (m & (kss & HF & ->) & H). exists kss. split; [done|]. by apply Hl.
  - intros (kss & HF & H). eexists. split; [by exists kss|]. by apply Hl.
Qed.
End prefix_spec.

Module Scan.
Definition scan (_ : conn) : result () (list (result () bytes)) := Ok [Ok [x61]; Ok [x61; x62]].
Definition get (k : bytes) : result (op_error ()) (option bytes) :=
  if bool_decide (k = [x61]) then Ok None else Ok (Some k).
Definition values : gmap bytes bytes := {[ [x61; x62] := [x61; x62] ]}.
Lemma matched_eq : PrefixMatch (fun _ => Ok 0%nat) scan map_to_list get (Ok ["n:1"]) = Ok values.
Proof. vm_compute. reflexivity. Qed.
Lemma present : values !! [x61; x62] = Some [x61; x62].
Proof. vm_compute. reflexivity. Qed.
End Scan.

Lemma PrefixMatch_spec_witness :
  ∃ kss, Forall2 (lists (fun _ => Ok 0%nat) Scan.scan) ["n:1"] kss ∧ [x61; x62] ∈ concat kss.
Proof.
  destruct (proj1 (PrefixMatch_spec (fun _ => Ok 0%nat) Scan.scan map_to_list Scan.get
    (fun m => Permutation_refl _) ["n:1"] Scan.values) Scan.matched_eq) as (kss & HF & _ & H).
  exists kss. split; [exact HF|]. exact (proj1 (proj1 (H _ _) Scan.present)).
Defined.
