(* ===== verification/ClientClose.v ===== *)
(** * Shutting the client down ([pkg/client/client.go], [Close])

    Liveness of [Close] over the interleaved client of [Client]: wherever the
    refresh loop, other calls and other closers are, a pending [Close] is never
    stuck; the goroutines it waits for can finish, and then it returns. *)

From S2P Require Import Prelude Topology Client.
Local Open Scope Z_scope.

Section live.
Context {E : Type}.
Implicit Types (c : Client E) (p q : pc E) (ps : list (pc E)) (w : world E).

(** ** What never goes back *)

Definition advances c c' : Prop :=
  c_refreshInterval c' = c_refreshInterval c ∧
  (c_cancelled c = true → c_cancelled c' = true) ∧
  (c_refreshDone c = true → c_refreshDone c' = true) ∧
  (c_closed c = true → c_closed c' = true).

#[local] Instance advances_preorder : PreOrder advances.
Proof. split; [by intros c|]. intros c1 c2 c3 (? & ? & ? & ?) (? & ? & ? & ?). unfold advances. rewrite H3. tauto. Qed.

Lemma thread_step_advances w p w' p' : thread_step w p w' p' → advances (w_client w) (w_client w').
Proof.
  destruct 1 as [| | | |? ? ? ? ? ? Hst| |? ? ? ? ? ? ? ? Hf| |? ? ? ? ? ? ? Hi| | | | | | | | | |]; cbn; try done.
  - revert Hst. unfold storeConn. repeat case_match; by intros [= <- _ _].
  - revert Hf. unfold fetchTopology. repeat case_match; by intros [= <- _].
  - revert Hi. unfold refresh_install. destruct (c_closed c); intros Heq; injection Heq as <- _; done.
  - unfold advances. cbn. split_and!; try done. by intros ->.
Qed.

(** The loop runs only with a positive interval; a closer that waits has
    cancelled it, and a follower saw the flag. *)
Definition waits_ok c p : Prop :=
  match p with
  | XWait _ | XClosing _ _ => 0 < c_refreshInterval c → c_cancelled c = true
  | XFollow => c_closed c = true
  | _ => True
  end.
Definition close_ok (s : system E) : Prop :=
  (c_refreshDone (w_client s.1) = false → 0 < c_refreshInterval (w_client s.1)) ∧
  Forall (waits_ok (w_client s.1)) s.2.

Lemma waits_ok_advances c c' p : advances c c' → waits_ok c p → waits_ok c' p.
Proof. intros (Hi & Hc & _ & Hcl). destruct p; cbn; try done; rewrite ?Hi; auto. Qed.

Lemma thread_step_waits w p w' p' :
  thread_step w p w' p' → waits_ok (w_client w) p → waits_ok (w_client w') p'.
Proof.
  destruct 1; cbn; try done; repeat case_match; try done.
  intros _ Hi. apply orb_true_iff. right. lia.
Qed.

Lemma sys_step_close s s' : sys_step s s' → close_ok s → close_ok s'.
Proof.
  intros Hs [Hd HF]. destruct Hs as [w ps p Hp|w ps i p w' p' Hi Ht]; cbn [fst snd] in *.
  - split; [done|]. apply Forall_app. split; [done|]. by destruct p; repeat constructor.
  - pose proof (thread_step_advances _ _ _ _ Ht) as Hadv. split; cbn [fst snd].
    + destruct Hadv as (-> & _ & Hrd & _). intros H. apply Hd. destruct (c_refreshDone _); [|done]. by rewrite Hrd in H.
    + apply Forall_insert.
      * eapply Forall_impl; [exact HF|]. intros q. by apply waits_ok_advances.
      * eapply thread_step_waits; [done|]. rewrite Forall_lookup in HF. by eapply HF.
Qed.

Definition good (s : system E) : Prop := sys_ok s ∧ close_ok s.

Lemma good_steps s s' : good s → rtc sys_step s s' → good s'.
Proof.
  intros Hg Hr. induction Hr as [|s1 s2 s3 Hs Hr IH]; [done|]. apply IH. destruct Hg.
  split; [by eapply sys_step_ok|by eapply sys_step_close].
Qed.

(** ** Running one goroutine alone *)

Definition tstep (a b : world E * pc E) : Prop := thread_step a.1 a.2 b.1 b.2.

Lemma run_step w p w' p' b : thread_step w p w' p' → rtc tstep (w', p') b → rtc tstep (w, p) b.
Proof. intros Hs. by apply rtc_l. Qed.

Lemma run_once w p w' p' : thread_step w p w' p' → rtc tstep (w, p) (w', p').
Proof. intros Hs. by apply rtc_once. Qed.

Lemma drive a b ps i :
  rtc tstep a b → ps !! i = Some a.2 → rtc sys_step (a.1, ps) (b.1, <[i := b.2]> ps).
Proof.
  intros Hr. revert ps. induction Hr as [[w p]|[w p] [w' p'] b Hs Hr IH]; intros ps Hi; cbn [fst snd] in *.
  - by rewrite list_insert_id.
  - eapply rtc_l; [by eapply s_thread|].
    rewrite <-(list_insert_insert_eq ps i b.2 p'). apply IH. rewrite list_lookup_insert_eq; [done|].
    by eapply lookup_lt_Some.
Qed.

Lemma retire_run c n l rest :
  rtc tstep (MkWorld c n l, RRetire rest) (MkWorld (set_refreshMu false c) n (l ++ rest), RIdle).
Proof.
  revert l. induction rest as [|cn rest IH]; intros l.
  - rewrite app_nil_r. apply run_once, t_retired.
  - eapply run_step; [apply t_retire|]. cbn. rewrite (cons_middle cn l rest), app_assoc. apply IH.
Qed.

Lemma closing_run c n l conns fe :
  rtc tstep (MkWorld c n l, XClosing conns fe) (MkWorld (set_closeErr fe c) n (l ++ conns), XRet fe).
Proof.
  revert l. induction conns as [|cn conns IH]; intros l.
  - rewrite app_nil_r. apply run_once, t_close_end.
  - eapply run_step; [apply (t_close_conn c n l cn conns fe None)|]. cbn. rewrite (cons_middle cn l conns), app_assoc.
    destruct fe; apply IH.
Qed.

(** From anywhere in its loop, a refresh of a closed client comes back to the
    [select]; the fetch it may be in fails with the cancelled context. *)
Lemma loop_run `{!Inhabited E} c n l p :
  c_closed c = true → looper p = [()] →
  ∃ b l', rtc tstep (MkWorld c n l, p) (MkWorld (set_refreshMu b c) n l', RIdle).
Proof.
  intros Hc Hp.
  assert (Hinst : ∀ r, ∃ b l', rtc tstep (MkWorld c n l, RInstall r) (MkWorld (set_refreshMu b c) n l', RIdle)).
  { intros r. exists false, (l ++ []). eapply run_step; [|apply retire_run]. destruct r as [s|e].
    - eapply (t_install c n l s c (Err ErrClosed) []); [|done]. unfold refresh_install. by rewrite Hc.
    - apply t_install_failed. }
  destruct p as [| | | | | | |r|rest| | | | | | |]; try done.
  - exists (c_refreshMu c), l. by destruct c.
  - set (server := fun _ _ : nat => MkAttempt None (Err inhabitant) (Err inhabitant) : attempt E).
    destruct (fetchTopology c (fun _ => Some inhabitant) server) as [c' r] eqn:Hf.
    assert (c' = c) as ->.
    { revert Hf. unfold fetchTopology. destruct (c_endpoints c) as [|e es]; [by intros [= <- _]|]. by intros [= <- _]. }
    destruct (Hinst r) as (b & l' & Hr). exists b, l'. eapply run_step; [|exact Hr].
    eapply (t_fetch c n l _ server); [|exact Hf]. intros i. by split; intros ? ? [=].
  - exists false, (l ++ rest). apply retire_run.
Qed.

(** ** The closers *)

Lemma bind_singleton {A} (f : A → list ()) (l : list A) :
  l ≫= f = [()] → ∃ i x, l !! i = Some x ∧ f x = [()].
Proof.
  induction l as [|x l IH]; [done|]. rewrite bind_cons. destruct (f x) as [|[] k] eqn:Hx; cbn.
  - intros (i & y & Hi & Hy)%IH. by exists (S i), y.
  - intros [= Hk]. apply app_eq_nil in Hk as [-> _]. by exists O, x.
Qed.

Context `{!Inhabited E}.

(** The refresh loop can be brought to its end, and nobody else moves. *)
Lemma stop_loop w ps :
  good (w, ps) → c_closed (w_client w) = true →
  (0 < c_refreshInterval (w_client w) → c_cancelled (w_client w) = true) →
  ∃ w' ps', rtc sys_step (w, ps) (w', ps') ∧ c_refreshDone (w_client w') = true ∧
    ∀ i p, ps !! i = Some p → looper p = [] → ps' !! i = Some p.
Proof using Inhabited0.
  intros [Hok [Hd _]] Hc Hcan. destruct (c_refreshDone (w_client w)) eqn:Hrd; [by exists w, ps|].
  pose proof (sok_looper _ Hok) as Hl. cbn [fst snd] in *. rewrite Hrd in Hl. cbn in Hl.
  apply bind_singleton in Hl as (j & p & Hj & Hp). destruct w as [c n l]. cbn [w_client] in *.
  destruct (loop_run c n l p Hc Hp) as (b & l' & Hr).
  eexists _, _. split; [|split].
  - etrans; [exact (drive _ _ ps j Hr Hj)|]. cbn [fst snd].
    eapply rtc_once, (s_thread _ _ j); [apply list_lookup_insert_eq; by eapply lookup_lt_Some|].
    apply t_stop. cbn. auto.
  - done.
  - intros i q Hi Hq. rewrite list_insert_insert_eq, list_lookup_insert_ne; [done|].
    intros ->. simplify_eq. congruence.
Qed.

Definition follows_kept ps ps' i : Prop := ∀ j, j ≠ i → ps !! j = Some XFollow → ps' !! j = Some XFollow.

Lemma wait_returns w ps i conns :
  good (w, ps) → ps !! i = Some (XWait conns) →
  ∃ w' ps' e, rtc sys_step (w, ps) (w', ps') ∧ ps' !! i = Some (XRet e) ∧ follows_kept ps ps' i.
Proof using Inhabited0.
  intros Hg Hi. pose proof Hg as [Hok [_ Hwait]].
  assert (Hc : c_closed (w_client w) = true).
  { pose proof (sok_closer _ Hok) as Hcl. cbn [fst snd] in Hcl. destruct (c_closed (w_client w)); [done|].
    cbn in Hcl. exfalso. destruct (bind_insert closer ps i (XWait conns) (XWait conns) Hi) as (rest & Hp & _).
    rewrite Hcl in Hp. by apply Permutation_nil in Hp. }
  destruct (stop_loop w ps Hg Hc) as (w1 & ps1 & Hr1 & Hrd & Hkeep).
  { rewrite Forall_lookup in Hwait. exact (Hwait i _ Hi). }
  specialize (Hkeep i _ Hi eq_refl) as Hi1. destruct w1 as [c1 n1 l1]. cbn in Hrd.
  eexists _, _, None. split; [|split].
  - etrans; [exact Hr1|]. eapply rtc_l; [eapply (s_thread _ _ i); [exact Hi1|by apply t_wait]|].
    exact (drive _ _ (<[i := XClosing conns None]> ps1) i (closing_run c1 n1 l1 conns None)
             (list_lookup_insert_eq _ _ _ (lookup_lt_Some _ _ _ Hi1))).
  - cbn [snd]. rewrite list_insert_insert_eq. apply list_lookup_insert_eq. by eapply lookup_lt_Some.
  - intros j Hj Hf. cbn [snd]. rewrite list_insert_insert_eq, list_lookup_insert_ne by done. by apply Hkeep.
Qed.

Lemma closer_returns w ps i p :
  good (w, ps) → ps !! i = Some p → closer p = [()] →
  ∃ w' ps' e, rtc sys_step (w, ps) (w', ps') ∧ ps' !! i = Some (XRet e) ∧ follows_kept ps ps' i.
Proof using Inhabited0.
  intros Hg Hi Hp. destruct w as [c n l].
  destruct p as [| | | | | | | | | | | |conns|conns|conns fe|]; try done.
  - assert (Hs : sys_step (MkWorld c n l, ps) (MkWorld (set_cancelled c) n l, <[i := XWait conns]> ps))
      by (eapply s_thread; [exact Hi|apply t_cancel]).
    assert (Hlt : (i < length ps)%nat) by (by eapply lookup_lt_Some).
    destruct (wait_returns (MkWorld (set_cancelled c) n l) (<[i := XWait conns]> ps) i conns)
      as (w' & ps' & e & Hr & He & Hf).
    + eapply good_steps; [exact Hg|by apply rtc_once].
    + by apply list_lookup_insert_eq.
    + exists w', ps', e. split; [by eapply rtc_l|]. split; [done|].
      intros j Hj HF. apply Hf; [done|]. by rewrite list_lookup_insert_ne.
  - by eapply wait_returns.
  - eexists _, _, fe. split; [exact (drive _ _ ps i (closing_run c n l conns fe) Hi)|]. cbn [snd].
    split; [apply list_lookup_insert_eq; by eapply lookup_lt_Some|].
    intros j Hj HF. by rewrite list_lookup_insert_ne.
Qed.

Lemma follow_returns w ps i :
  good (w, ps) → ps !! i = Some XFollow →
  ∃ w' ps' e, rtc sys_step (w, ps) (w', ps') ∧ ps' !! i = Some (XRet e).
Proof using Inhabited0.
  intros Hg Hi.
  assert (Hlast : ∀ w ps, ps !! i = Some XFollow → c_closeDone (w_client w) = true →
    ∃ w' ps' e, rtc sys_step (w, ps) (w', ps') ∧ ps' !! i = Some (XRet e)).
  { intros [c n l] qs Hq Hd. eexists _, _, _. split.
    - eapply rtc_once, (s_thread _ _ i); [exact Hq|by apply t_follow].
    - apply list_lookup_insert_eq. by eapply lookup_lt_Some. }
  destruct (c_closeDone (w_client w)) eqn:Hd; [by apply (Hlast w)|].
  pose proof Hg as [Hok [_ Hwait]]. rewrite Forall_lookup in Hwait. pose proof (Hwait i _ Hi) as Hc. cbn in Hc.
  pose proof (sok_closer _ Hok) as Hcl. cbn [fst snd] in Hcl. rewrite Hc, Hd in Hcl. cbn in Hcl.
  apply bind_singleton in Hcl as (j & q & Hj & Hq).
  destruct (closer_returns w ps j q Hg Hj Hq) as (w1 & ps1 & e & Hr & He & Hf).
  assert (Hi1 : ps1 !! i = Some XFollow) by (apply Hf; [intros ->; by simplify_eq|done]).
  assert (Hg1 : good (w1, ps1)) by (by eapply good_steps). destruct Hg1 as [Hok1 _].
  pose proof (sok_pcs _ Hok1) as Hps. rewrite Forall_lookup in Hps. destruct (Hps j _ He) as [Hd1 _]. cbn in Hd1.
  destruct (Hlast w1 ps1 Hi1 Hd1) as (w2 & ps2 & e2 & Hr2 & He2). exists w2, ps2, e2. split; [by etrans|done].
Qed.

Definition in_close p : Prop :=
  match p with XBegin | XFollow | XCancel _ | XWait _ | XClosing _ _ => True | _ => False end.

Lemma close_returns w ps i p :
  good (w, ps) → ps !! i = Some p → in_close p →
  ∃ w' ps' e, rtc sys_step (w, ps) (w', ps') ∧ ps' !! i = Some (XRet e).
Proof using Inhabited0.
  intros Hg Hi Hp. assert (Hlt : (i < length ps)%nat) by (by eapply lookup_lt_Some).
  destruct p; try done.
  2: by eapply follow_returns.
  2-4: by edestruct closer_returns as (w' & ps' & e & ? & ? & _); [exact Hg|exact Hi|done|]; eauto.
  destruct w as [c n l]. destruct (c_closed c) eqn:Hc.
  - assert (Hs : sys_step (MkWorld c n l, ps) (MkWorld c n l, <[i := XFollow]> ps))
      by (eapply s_thread; [exact Hi|by apply t_close_again]).
    destruct (follow_returns (MkWorld c n l) (<[i := XFollow]> ps) i) as (w' & ps' & e & Hr & He).
    + eapply good_steps; [exact Hg|by apply rtc_once].
    + by apply list_lookup_insert_eq.
    + exists w', ps', e. split; [by eapply rtc_l|done].
  - assert (Hs : sys_step (MkWorld c n l, ps) (MkWorld (set_closed c) n l,
      <[i := XCancel ((map_to_list (c_nodeConns c)).*2 ++ (me_conn <$> c_endpoints c))]> ps))
      by (eapply s_thread; [exact Hi|by apply t_close]).
    edestruct (closer_returns (MkWorld (set_closed c) n l)) as (w' & ps' & e & Hr & He & _).
    + eapply good_steps; [exact Hg|by apply rtc_once].
    + by apply list_lookup_insert_eq.
    + done.
    + exists w', ps', e. split; [by eapply rtc_l|done].
Qed.
End live.

Lemma started_close {E} (c : Client E) n : (c_refreshDone c = false → 0 < c_refreshInterval c) → close_ok (started c n).
Proof. intros H. split; [done|]. unfold started. cbn. by destruct (_ <? _); repeat constructor. Qed.

Lemma New_refreshDone {E D} (defaultDial : list D) (NewClient : list D → string → option E) addr opts ctx server c n closed :
  New defaultDial NewClient addr opts ctx server = (Ok c, n, closed) →
  c_refreshDone c = false → 0 < c_refreshInterval c.
Proof.
  unfold New. destruct (splitEndpoints addr); [|done]. destruct (foldM _ _ _); [|done].
  destruct (dial_endpoints _ _ _ _) as [eps [[]|]]; [done|]. destruct (fetchTopology _ _ _) as [c1 r1].
  destruct (match r1 with Err e => (c1, Err e) | Ok next => refresh_install c1 next end) as [c2 [x|]]; [|done].
  intros [= <- _ _].
  destruct (0 <? c_refreshInterval _) eqn:Hi; [intros _; lia|done].
Qed.

(** C16: [Close] cannot be blocked.  At every reachable state of the client, under
    any interleaving and however many goroutines are in [Close], each pending call
    can return: the refresh loop it cancelled can reach its end from wherever it
    is, the connections can be closed, and the later callers can follow the first. *)
Theorem Close_returns {E D} `{!Inhabited E} (defaultDial : list D) (NewClient : list D → string → option E)
    addr opts ctx server c n closed w ps i p
  (Hwire : ∀ i, wire_server (server i))
  (Hnew : New defaultDial NewClient addr opts ctx server = (Ok c, n, closed))
  (Hreach : rtc sys_step (started c n) (w, ps))
  (Hi : ps !! i = Some p) (Hp : in_close p) :
  ∃ w' ps' e, rtc sys_step (w, ps) (w', ps') ∧ ps' !! i = Some (XRet e).
Proof.
  eapply close_returns; [|exact Hi|exact Hp]. eapply good_steps; [|exact Hreach]. split.
  - eapply New_reachable; [exact Hwire|exact Hnew|reflexivity].
  - eapply started_close, New_refreshDone, Hnew.
Qed.

Lemma Close_returns_witness :
  ∃ w' ps' e, rtc sys_step (MkWorld Demo.client 1 [], [XBegin]) (w', ps') ∧ ps' !! 0%nat = Some (XRet e).
Proof.
  apply (Close_returns [] (fun _ _ => None) _ _ _ _ Demo.client _ _ _ _ 0 XBegin Demo.wire Demo.new_eq);
    [|reflexivity|exact I].
  rewrite Demo.started_eq. eapply rtc_l; [by apply (s_call _ _ XBegin)|]. apply rtc_refl.
Defined.
