(* ===== verification/Config.v ===== *)
(** * The cluster configuration ([internal/config/config.go])

    Defaults, validation and the accessors that hand a configuration to the other
    components.  The YAML decoder is third-party: what it decodes from a file is an
    input of [Load]. *)

From S2P Require Import Prelude GoStd NodeMeta Topology Client.
Local Open Scope Z_scope.

(** ** Constants *)

Definition DefaultShardCount : Z := 256.
Definition DefaultHost : string := "127.0.0.1".
Definition DefaultRAMBudgetBytes : Z := 256 * 1024 * 1024.
Definition DefaultMaxValueBytes : Z := 64 * 1024 * 1024.
Definition DefaultDataRoot : string := "run/data".
Definition DefaultClusterName : string := "pulsekv-v2".
Definition DefaultControlPlanePortBase : Z := 7000.
Definition DefaultControlPlaneGossipPortBase : Z := 7240.
Definition DefaultControlPlaneRaftPortBase : Z := 7300.
Definition DefaultNodeGossipPortBase : Z := 7201.
Definition MaxClusterNameBytes : Z := 255.
Definition MaxNodeIDBytes : Z := 64.
Definition DefaultRaftElectionTimeoutMillis : Z := 500.
Definition DefaultRaftProposeIntervalMillis : Z := 200.
Definition DefaultRaftSnapshotThreshold : Z := 1024.
Definition DefaultRaftDataDir : string := "run/raft".
Definition DefaultReplicationFactor : Z := 1.
Definition MaxReplicationFactor : Z := 8.
Definition EngineShards : Z := 256.
Definition UnaryValueLimitBytes : Z := 4 * 1024 * 1024.
Definition maxPort : Z := 65535.

(** ** Data *)

Record ControlPlane := MkControlPlane {
  cp_NodeID : string; cp_Host : string; cp_Port : Z; cp_GossipPort : Z; cp_RaftPort : Z
}.
Record Raft := MkRaft {
  rf_DataDir : string; rf_ElectionTimeoutMillis : Z; rf_ProposeIntervalMillis : Z;
  rf_SnapshotThreshold : Z
}.
Record CfgNode := MkCfgNode { nd_NodeID : string; nd_Host : string; nd_Port : Z; nd_GossipPort : Z }.
Record Engine := MkEngine { en_RAMBudgetBytes : Z; en_MaxValueBytes : Z; en_DataRoot : string }.

(** [Membership] is its only field. *)
Record Config := MkConfig {
  cf_ControlPlanes : list ControlPlane; cf_ClusterName : string; cf_ShardCount : Z;
  cf_Engine : Engine; cf_Raft : Raft; cf_Nodes : list CfgNode;
  cf_ReplicationFactorSetting : option Z; cf_ReplicationFactor : Z; cf_Path : string
}.

Definition cp_Address (c : ControlPlane) : string := JoinHostPort (cp_Host c) (Itoa (cp_Port c)).
Definition cp_GossipAddress (c : ControlPlane) : string := JoinHostPort (cp_Host c) (Itoa (cp_GossipPort c)).
Definition cp_RaftAddress (c : ControlPlane) : string := JoinHostPort (cp_Host c) (Itoa (cp_RaftPort c)).
Definition nd_Address (n : CfgNode) : string := JoinHostPort (nd_Host n) (Itoa (nd_Port n)).
Definition nd_GossipAddress (n : CfgNode) : string := JoinHostPort (nd_Host n) (Itoa (nd_GossipPort n)).

(** [time.Duration] products wrap; [time.Millisecond] is 10^6 ns, and [/ 2]
    truncates. *)
Definition millisecond : Z := 1000000.
Definition ElectionTimeout (r : Raft) : Z := i64 (rf_ElectionTimeoutMillis r * millisecond).
Definition HeartbeatTimeout (r : Raft) : Z := ElectionTimeout r.
Definition LeaderLeaseTimeout (r : Raft) : Z := ElectionTimeout r `quot` 2.
Definition ProposeInterval (r : Raft) : Z := i64 (rf_ProposeIntervalMillis r * millisecond).

(** [UnmarshalYAML]: a bare mapping is a one-replica list. *)
Definition ControlPlaneList_UnmarshalYAML {E} (mapping : bool)
    (single : result E ControlPlane) (many : result E (list ControlPlane))
    : result E (list ControlPlane) :=
  if mapping then match single with Err e => Err e | Ok c => Ok [c] end else many.

(** ** Defaults *)

Definition or_string (s d : string) : string := if bool_decide (s = "") then d else s.
Definition or_int (n d : Z) : Z := if n =? 0 then d else n.

Definition default_replica (i : nat) (r : ControlPlane) : ControlPlane :=
  MkControlPlane (or_string (cp_NodeID r) ("cp-" +:+ Itoa (Z.of_nat i)))
    (or_string (cp_Host r) DefaultHost)
    (or_int (cp_Port r) (DefaultControlPlanePortBase + Z.of_nat i))
    (or_int (cp_GossipPort r) (DefaultControlPlaneGossipPortBase + Z.of_nat i))
    (or_int (cp_RaftPort r) (DefaultControlPlaneRaftPortBase + Z.of_nat i)).

Definition default_node (i : nat) (n : CfgNode) : CfgNode :=
  MkCfgNode (nd_NodeID n) (or_string (nd_Host n) DefaultHost) (nd_Port n)
    (or_int (nd_GossipPort n) (DefaultNodeGossipPortBase + Z.of_nat i)).

Definition applyDefaults (c : Config) : Config :=
  MkConfig (imap default_replica (cf_ControlPlanes c))
    (or_string (cf_ClusterName c) DefaultClusterName)
    (or_int (cf_ShardCount c) DefaultShardCount)
    (MkEngine (or_int (en_RAMBudgetBytes (cf_Engine c)) DefaultRAMBudgetBytes)
       (or_int (en_MaxValueBytes (cf_Engine c)) DefaultMaxValueBytes)
       (or_string (en_DataRoot (cf_Engine c)) DefaultDataRoot))
    (MkRaft (or_string (rf_DataDir (cf_Raft c)) DefaultRaftDataDir)
       (or_int (rf_ElectionTimeoutMillis (cf_Raft c)) DefaultRaftElectionTimeoutMillis)
       (or_int (rf_ProposeIntervalMillis (cf_Raft c)) DefaultRaftProposeIntervalMillis)
       (or_int (rf_SnapshotThreshold (cf_Raft c)) DefaultRaftSnapshotThreshold))
    (imap default_node (cf_Nodes c))
    (cf_ReplicationFactorSetting c)
    (match cf_ReplicationFactorSetting c with None => DefaultReplicationFactor | Some f => f end)
    (cf_Path c).

(** ** Warnings *)

Inductive warning :=
| ShardBudgetTooSmall (perShard maxValue suggested : Z)
| MaxValueBelowUnary (maxValue : Z)
| FactorExceedsNodes (factor others : Z)
| EvenControlPlane (n quorum tolerates smaller : Z)
| BeyondLoopback.

Definition Warnings (c : Config) : list warning :=
  let maxv := en_MaxValueBytes (cf_Engine c) in
  let perShard := en_RAMBudgetBytes (cf_Engine c) `div` EngineShards in
  let nodes := Z.of_nat (length (cf_Nodes c)) in
  let cps := Z.of_nat (length (cf_ControlPlanes c)) in
  (if perShard <? maxv then [ShardBudgetTooSmall perShard maxv (u64 (maxv * EngineShards))] else []) ++
  (if maxv <? UnaryValueLimitBytes then [MaxValueBelowUnary maxv] else []) ++
  (if (0 <? cf_ReplicationFactor c) && (0 <? nodes) && (nodes - 1 <? cf_ReplicationFactor c)
   then [FactorExceedsNodes (cf_ReplicationFactor c) (nodes - 1)] else []) ++
  (if (cps `rem` 2 =? 0) && (0 <? cps)
   then [EvenControlPlane cps (cps `quot` 2 + 1) ((cps - 1) `quot` 2) (cps - 1)] else []) ++
  (if existsb (fun r => negb (IsLoopback (ParseIP (cp_Host r)))) (cf_ControlPlanes c) ||
      existsb (fun n => negb (IsLoopback (ParseIP (nd_Host n)))) (cf_Nodes c)
   then [BeyondLoopback] else []).

(** ** Validation *)

(** [control_plane[i]] and [nodes[i]], and the listener an address belongs to. *)
Inductive entry := ControlPlaneAt (i : nat) | NodeAt (i : nat).
Inductive listener := Grpc | Gossip | RaftTransport.

Inductive cfg_problem :=
| NoControlPlane | NoNodes
| IDEmpty (w : entry) | IDTooLong (w : entry) (len : Z) | IDPattern (w : entry) (id : string)
| IDUsed (w : entry) (id : string) (previous : nat)
| PortRange (w : entry) (l : listener) (port : Z)
| HostNotIP (w : entry) (host : string) | HostUnspecified (w : entry) (host : string)
| RaftDataDirEmpty | ElectionTimeoutTooSmall (ms : Z) | ProposeIntervalNotPositive (ms : Z)
| ClusterNameEmpty | ClusterNameTooLong (len : Z)
| ShardCountZero | RAMBudgetZero | MaxValueZero | DataRootEmpty
| FactorNegative (f : Z) | FactorTooLarge (f : Z)
| AddressUsed (owner : entry * listener) (address : string) (previous : entry * listener).

Definition validateGossipHost (w : entry) (host : string) : list cfg_problem :=
  match ParseIP host with
  | None => [HostNotIP w host]
  | Some ip => if IsUnspecified (Some ip) then [HostUnspecified w host] else []
  end.

Definition validatePort (w : entry) (l : listener) (port : Z) : list cfg_problem :=
  if (port <=? 0) || (maxPort <? port) then [PortRange w l port] else [].

(** The [switch] on a node ID: its problems, and the map of IDs seen. *)
Definition check_id (w : entry) (i : nat) (id : string) (seen : gmap string nat)
    : list cfg_problem * gmap string nat :=
  if bool_decide (id = "") then ([IDEmpty w], seen)
  else if MaxNodeIDBytes <? str_len id then ([IDTooLong w (str_len id)], seen)
  else if negb (nodeIDPattern id) then ([IDPattern w id], seen)
  else (match seen !! id with Some previous => [IDUsed w id previous] | None => [] end,
        <[id := i]> seen).

Definition addAddress (address : string) (owner : entry * listener)
    (st : list cfg_problem * gmap string (entry * listener))
    : list cfg_problem * gmap string (entry * listener) :=
  let '(problems, seenAddr) := st in
  match seenAddr !! address with
  | Some previous => (problems ++ [AddressUsed owner address previous], seenAddr)
  | None => (problems, <[address := owner]> seenAddr)
  end.

(** The first loop over the control plane. *)
Fixpoint check_replicas (i : nat) (rs : list ControlPlane) (seen : gmap string nat) : list cfg_problem :=
  match rs with
  | [] => []
  | r :: rs =>
      let w := ControlPlaneAt i in
      let '(idp, seen) := check_id w i (cp_NodeID r) seen in
      idp ++ validatePort w Grpc (cp_Port r) ++ validatePort w Gossip (cp_GossipPort r) ++
      validatePort w RaftTransport (cp_RaftPort r) ++ validateGossipHost w (cp_Host r) ++
      check_replicas (S i) rs seen
  end.

Definition check_settings (c : Config) : list cfg_problem :=
  (if bool_decide (rf_DataDir (cf_Raft c) = "") then [RaftDataDirEmpty] else []) ++
  (if rf_ElectionTimeoutMillis (cf_Raft c) <? 50
   then [ElectionTimeoutTooSmall (rf_ElectionTimeoutMillis (cf_Raft c))] else []) ++
  (if rf_ProposeIntervalMillis (cf_Raft c) <=? 0
   then [ProposeIntervalNotPositive (rf_ProposeIntervalMillis (cf_Raft c))] else []) ++
  (if bool_decide (cf_ClusterName c = "") then [ClusterNameEmpty]
   else if MaxClusterNameBytes <? str_len (cf_ClusterName c)
   then [ClusterNameTooLong (str_len (cf_ClusterName c))] else []) ++
  (if bool_decide (cf_Nodes c = []) then [NoNodes] else []) ++
  (if cf_ShardCount c =? 0 then [ShardCountZero] else []) ++
  (if en_RAMBudgetBytes (cf_Engine c) =? 0 then [RAMBudgetZero] else []) ++
  (if en_MaxValueBytes (cf_Engine c) =? 0 then [MaxValueZero] else []) ++
  (if bool_decide (en_DataRoot (cf_Engine c) = "") then [DataRootEmpty] else []) ++
  (if cf_ReplicationFactor c <? 0 then [FactorNegative (cf_ReplicationFactor c)]
   else if MaxReplicationFactor <? cf_ReplicationFactor c
   then [FactorTooLarge (cf_ReplicationFactor c)] else []).

(** The addresses of the control plane, in the second loop over it. *)
Fixpoint add_replicas (i : nat) (rs : list ControlPlane)
    (st : list cfg_problem * gmap string (entry * listener))
    : list cfg_problem * gmap string (entry * listener) :=
  match rs with
  | [] => st
  | r :: rs =>
      let w := ControlPlaneAt i in
      add_replicas (S i) rs
        (addAddress (cp_RaftAddress r) (w, RaftTransport)
           (addAddress (cp_GossipAddress r) (w, Gossip)
              (addAddress (cp_Address r) (w, Grpc) st)))
  end.

(** The loop over the data nodes. *)
Fixpoint check_nodes (i : nat) (ns : list CfgNode) (seen : gmap string nat)
    (st : list cfg_problem * gmap string (entry * listener)) : list cfg_problem :=
  match ns with
  | [] => st.1
  | n :: ns =>
      let w := NodeAt i in
      let '(idp, seen) := check_id w i (nd_NodeID n) seen in
      let problems := st.1 ++ idp ++ validatePort w Grpc (nd_Port n) ++
        validatePort w Gossip (nd_GossipPort n) ++ validateGossipHost w (nd_Host n) in
      check_nodes (S i) ns seen
        (addAddress (nd_GossipAddress n) (w, Gossip)
           (addAddress (nd_Address n) (w, Grpc) (problems, st.2)))
  end.

(** [Validate]: the joined problems; none is a nil error. *)
Definition Config_Validate (c : Config) : list cfg_problem :=
  (if bool_decide (cf_ControlPlanes c = []) then [NoControlPlane] else []) ++
  check_replicas 0 (cf_ControlPlanes c) ∅ ++
  check_settings c ++
  check_nodes 0 (cf_Nodes c) ∅ (add_replicas 0 (cf_ControlPlanes c) ([], ∅)).

Inductive load_error (E : Type) := OpenFailed (e : E) | ParseFailed (e : E) | Invalid (ps : list cfg_problem).
Arguments OpenFailed {E} _.
Arguments ParseFailed {E} _.
Arguments Invalid {E} _.

Definition with_path (path : string) (c : Config) : Config :=
  MkConfig (cf_ControlPlanes c) (cf_ClusterName c) (cf_ShardCount c) (cf_Engine c) (cf_Raft c)
    (cf_Nodes c) (cf_ReplicationFactorSetting c) (cf_ReplicationFactor c) path.

(** [Load], over what opening the file and decoding it (unknown keys refused)
    return. *)
Definition Load {E} (opened : option E) (decoded : result E Config) (path : string)
    : result (load_error E) Config :=
  match opened with
  | Some e => Err (OpenFailed e)
  | None =>
      match decoded with
      | Err e => Err (ParseFailed e)
      | Ok cfg =>
          let cfg := applyDefaults (with_path path cfg) in
          match Config_Validate cfg with
          | [] => Ok cfg
          | ps => Err (Invalid ps)
          end
      end
  end.

(** ** Accessors *)

Definition NodeIDs (c : Config) : list string := nd_NodeID <$> cf_Nodes c.
Definition ControlPlaneIDs (c : Config) : list string := cp_NodeID <$> cf_ControlPlanes c.
Definition ControlPlaneAddresses (c : Config) : list string := cp_Address <$> cf_ControlPlanes c.
(** [strings.Join(_, ",")]. *)
Definition ControlPlaneEndpoints (c : Config) : string := String.concat "," (ControlPlaneAddresses c).
Definition ControlPlaneGossipSeeds (c : Config) : list string := cp_GossipAddress <$> cf_ControlPlanes c.
Definition ControlPlaneByID (c : Config) (id : string) : option ControlPlane :=
  List.find (fun r => bool_decide (cp_NodeID r = id)) (cf_ControlPlanes c).

(** ** What validation accepts *)

Definition id_ok (id : string) : Prop := str_len id ≤ MaxNodeIDBytes ∧ nodeIDPattern id = true.
Definition port_ok (p : Z) : Prop := 1 ≤ p ≤ maxPort.
Definition host_ok (h : string) : Prop := ∃ ip, ParseIP h = Some ip ∧ IsUnspecified (Some ip) = false.

Definition replica_ok (r : ControlPlane) : Prop :=
  id_ok (cp_NodeID r) ∧ port_ok (cp_Port r) ∧ port_ok (cp_GossipPort r) ∧ port_ok (cp_RaftPort r) ∧
  host_ok (cp_Host r).
Definition node_ok (n : CfgNode) : Prop :=
  id_ok (nd_NodeID n) ∧ port_ok (nd_Port n) ∧ port_ok (nd_GossipPort n) ∧ host_ok (nd_Host n).

(** Every address some process of the cluster listens on. *)
Definition replica_addresses (r : ControlPlane) : list string :=
  [cp_Address r; cp_GossipAddress r; cp_RaftAddress r].
Definition node_addresses (n : CfgNode) : list string := [nd_Address n; nd_GossipAddress n].
Definition listen_addresses (c : Config) : list string :=
  (cf_ControlPlanes c ≫= replica_addresses) ++ (cf_Nodes c ≫= node_addresses).

Record config_valid (c : Config) : Prop := {
  cv_replicas : cf_ControlPlanes c ≠ [] ∧ Forall replica_ok (cf_ControlPlanes c);
  cv_nodes : cf_Nodes c ≠ [] ∧ Forall node_ok (cf_Nodes c);
  cv_replica_ids : NoDup (ControlPlaneIDs c);
  cv_node_ids : NoDup (NodeIDs c);
  cv_addresses : NoDup (listen_addresses c);
  cv_name : cf_ClusterName c ≠ "" ∧ str_len (cf_ClusterName c) ≤ MaxClusterNameBytes;
  cv_shards : cf_ShardCount c ≠ 0;
  cv_engine : en_RAMBudgetBytes (cf_Engine c) ≠ 0 ∧ en_MaxValueBytes (cf_Engine c) ≠ 0 ∧
    en_DataRoot (cf_Engine c) ≠ "";
  cv_raft : rf_DataDir (cf_Raft c) ≠ "" ∧ 50 ≤ rf_ElectionTimeoutMillis (cf_Raft c) ∧
    0 < rf_ProposeIntervalMillis (cf_Raft c);
  cv_factor : 0 ≤ cf_ReplicationFactor c ≤ MaxReplicationFactor
}.

Lemma validatePort_nil w l p : validatePort w l p = [] ↔ port_ok p.
Proof.
  unfold validatePort, port_ok, maxPort. destruct (Z.leb_spec p 0), (Z.ltb_spec 65535 p); cbn;
    (split; [done||lia|done||lia]).
Qed.

Lemma validateGossipHost_nil w h : validateGossipHost w h = [] ↔ host_ok h.
Proof.
  unfold validateGossipHost, host_ok. destruct (ParseIP h) as [ip|]; [|naive_solver].
  destruct (IsUnspecified _) eqn:Hu; naive_solver congruence.
Qed.

Lemma check_id_nil w i id seen :
  (check_id w i id seen).1 = [] ↔ id_ok id ∧ seen !! id = None.
Proof.
  unfold check_id, id_ok. case_bool_decide as He; cbn.
  { subst. split; [done|]. intros [[_ H] _]. done. }
  destruct (Z.ltb_spec MaxNodeIDBytes (str_len id)); cbn; [split; [done|lia]|].
  destruct (nodeIDPattern id); cbn; [|naive_solver].
  destruct (seen !! id); naive_solver.
Qed.

Lemma check_id_snd w i id seen :
  id_ok id → (check_id w i id seen).2 = <[id := i]> seen.
Proof.
  intros [Hl Hp]. unfold check_id. rewrite bool_decide_eq_false_2 by (by apply nodeIDPattern_nonempty).
  rewrite (proj2 (Z.ltb_ge _ _)) by done. by rewrite Hp.
Qed.

Lemma check_replicas_nil i rs seen :
  check_replicas i rs seen = [] ↔
  Forall replica_ok rs ∧ NoDup (cp_NodeID <$> rs) ∧ ∀ id, id ∈ cp_NodeID <$> rs → seen !! id = None.
Proof.
  revert i seen. induction rs as [|r rs IH]; intros i seen.
  { split; [intros _; split_and!; [constructor..|by intros ? ?%not_elem_of_nil]|done]. }
  cbn [check_replicas]. rewrite fmap_cons, Forall_cons, NoDup_cons.
  pose proof (check_id_nil (ControlPlaneAt i) i (cp_NodeID r) seen) as H1.
  pose proof (check_id_snd (ControlPlaneAt i) i (cp_NodeID r) seen) as H2.
  destruct (check_id _ _ _ _) as [idp seen']. cbn [fst snd] in H1, H2.
  rewrite !app_nil, H1, !validatePort_nil, validateGossipHost_nil, IH. unfold replica_ok.
  setoid_rewrite elem_of_cons. split.
  - intros ((Hid & Hs) & ? & ? & ? & ? & ? & Hnd & Hf). rewrite (H2 Hid) in Hf.
    split_and!; try done.
    + intros Hin%Hf. by rewrite lookup_insert_eq in Hin.
    + intros id [->|Hin]; [done|]. apply Hf, lookup_insert_None in Hin as [? _]. done.
  - intros (((Hid & ? & ? & ? & ?) & ?) & (Hni & ?) & Hf). rewrite (H2 Hid). split_and!; auto.
    intros id Hin. rewrite lookup_insert_ne by (intros <-; done). auto.
Qed.

(** Registering a list of addresses. *)
Definition add_all (l : list (string * (entry * listener))) st :=
  foldl (fun st ao => addAddress ao.1 ao.2 st) st l.

Lemma addAddress_spec a o st :
  (∀ b, (addAddress a o st).2 !! b = None ↔ b ≠ a ∧ st.2 !! b = None) ∧
  ((addAddress a o st).1 = [] ↔ st.1 = [] ∧ st.2 !! a = None).
Proof.
  destruct st as [ps seen]. cbn. destruct (seen !! a) as [prev|] eqn:Ha; cbn.
  - split.
    + intros b. split; [|by intros []]. intros Hb. split; [congruence|done].
    + rewrite app_nil. naive_solver.
  - split; [|naive_solver]. intros b. rewrite lookup_insert_None. naive_solver.
Qed.

Lemma add_all_spec l st :
  (∀ b, (add_all l st).2 !! b = None ↔ b ∉ l.*1 ∧ st.2 !! b = None) ∧
  ((add_all l st).1 = [] ↔ st.1 = [] ∧ NoDup l.*1 ∧ ∀ a, a ∈ l.*1 → st.2 !! a = None).
Proof.
  revert st. induction l as [|[a o] l IH]; intros st; cbn -[addAddress].
  { split; [intros b; rewrite elem_of_nil; naive_solver|].
    split; [intros ?; split_and!; [done|constructor|by intros ? ?%not_elem_of_nil]|by intros []]. }
  destruct (IH (addAddress a o st)) as [H1 H2]. destruct (addAddress_spec a o st) as [H3 H4].
  unfold add_all in *. cbn -[addAddress]. split.
  - intros b. rewrite H1, H3, not_elem_of_cons. naive_solver.
  - rewrite H2, H4, NoDup_cons. setoid_rewrite H3. setoid_rewrite elem_of_cons.
    split; [naive_solver|]. intros (? & (? & ?) & Hf). split_and!; auto.
    intros b Hb. split; [by intros ->|auto].
Qed.

Definition replica_owners (i : nat) (r : ControlPlane) : list (string * (entry * listener)) :=
  [(cp_Address r, (ControlPlaneAt i, Grpc)); (cp_GossipAddress r, (ControlPlaneAt i, Gossip));
   (cp_RaftAddress r, (ControlPlaneAt i, RaftTransport))].

Lemma add_replicas_all i rs st :
  add_replicas i rs st = add_all (concat (imap (fun j => replica_owners (i + j)) rs)) st.
Proof.
  revert i st. induction rs as [|r rs IH]; intros i st; [done|].
  cbn [add_replicas]. rewrite IH, imap_cons. cbn [concat]. unfold add_all at 2.
  rewrite foldl_app, Nat.add_0_r. cbn [replica_owners foldl fst snd]. unfold add_all. do 2 f_equal.
  apply imap_ext. intros j x _. cbn. by rewrite Nat.add_succ_r.
Qed.

Lemma replica_owners_addresses i rs :
  (concat (imap (fun j => replica_owners (i + j)) rs)).*1 = rs ≫= replica_addresses.
Proof.
  revert i. induction rs as [|r rs IH]; intros i; [done|].
  rewrite imap_cons, bind_cons, <-(IH (S i)). cbn. do 5 f_equal. apply imap_ext. intros j x _. cbn.
  by rewrite Nat.add_succ_r.
Qed.

Lemma check_nodes_nil i ns seen st :
  check_nodes i ns seen st = [] ↔
  st.1 = [] ∧ Forall node_ok ns ∧ NoDup (nd_NodeID <$> ns) ∧
  (∀ id, id ∈ nd_NodeID <$> ns → seen !! id = None) ∧
  NoDup (ns ≫= node_addresses) ∧ (∀ a, a ∈ ns ≫= node_addresses → st.2 !! a = None).
Proof.
  revert i seen st. induction ns as [|n ns IH]; intros i seen st.
  { split; [|by intros []]. intros H.
    split_and!; try constructor; try done; by intros ? ?%not_elem_of_nil. }
  cbn [check_nodes]. rewrite fmap_cons, Forall_cons, NoDup_cons, bind_cons.
  pose proof (check_id_nil (NodeAt i) i (nd_NodeID n) seen) as H1.
  pose proof (check_id_snd (NodeAt i) i (nd_NodeID n) seen) as H2.
  destruct (check_id _ _ _ _) as [idp seen']. cbn [fst snd] in H1, H2.
  set (problems := st.1 ++ _).
  pose proof (add_all_spec [(nd_Address n, (NodeAt i, Grpc)); (nd_GossipAddress n, (NodeAt i, Gossip))]
    (problems, st.2)) as [H3 H4]. unfold add_all in H3, H4. cbn [foldl fst snd] in H3, H4.
  rewrite IH, H4. setoid_rewrite H3. unfold problems.
  rewrite !app_nil, H1, !validatePort_nil, validateGossipHost_nil. unfold node_ok. cbn [fmap list_fmap fst].
  fold (node_addresses n). rewrite NoDup_app. setoid_rewrite elem_of_app. setoid_rewrite elem_of_cons.
  clear H1 H3 H4 problems. split.
  - intros (((? & (Hid & Hs) & ? & ? & ?) & Ha1 & Ha2) & HF & Hnd & Hf & Had & Hadf).
    rewrite (H2 Hid) in Hf. split_and!; try done.
    + intros Hin%Hf. by rewrite lookup_insert_eq in Hin.
    + intros id [->|Hin]; [done|]. apply Hf, lookup_insert_None in Hin as [? _]. done.
    + intros a Ha Ha'. by apply Hadf in Ha' as [? _].
    + intros a [Ha|Ha]; [by apply Ha2|by apply Hadf].
  - intros (? & ((Hid & ? & ? & ?) & HF) & (Hni & Hnd) & Hf & (Ha1 & Had & Ha2) & Hadf).
    rewrite (H2 Hid). split_and!; auto.
    + intros id Hin. rewrite lookup_insert_ne by (intros <-; done). auto.
    + intros a Ha. split; [|auto]. intros Ha'. by eapply Had.
Qed.

Lemma check_settings_nil c :
  check_settings c = [] ↔
  rf_DataDir (cf_Raft c) ≠ "" ∧ 50 ≤ rf_ElectionTimeoutMillis (cf_Raft c) ∧
  0 < rf_ProposeIntervalMillis (cf_Raft c) ∧
  (cf_ClusterName c ≠ "" ∧ str_len (cf_ClusterName c) ≤ MaxClusterNameBytes) ∧ cf_Nodes c ≠ [] ∧
  cf_ShardCount c ≠ 0 ∧ en_RAMBudgetBytes (cf_Engine c) ≠ 0 ∧ en_MaxValueBytes (cf_Engine c) ≠ 0 ∧
  en_DataRoot (cf_Engine c) ≠ "" ∧ 0 ≤ cf_ReplicationFactor c ≤ MaxReplicationFactor.
Proof.
  assert (Hif : ∀ (b : bool) (p : cfg_problem), (if b then [p] else []) = [] ↔ b = false)
    by (intros [] p; done).
  unfold check_settings. rewrite !app_nil, !Hif, !bool_decide_eq_false, !Z.eqb_neq, Z.ltb_ge, Z.leb_gt.
  assert ((if bool_decide (cf_ClusterName c = "") then [ClusterNameEmpty]
           else if MaxClusterNameBytes <? str_len (cf_ClusterName c)
           then [ClusterNameTooLong (str_len (cf_ClusterName c))] else []) = [] ↔
          cf_ClusterName c ≠ "" ∧ str_len (cf_ClusterName c) ≤ MaxClusterNameBytes) as ->.
  { case_bool_decide; [naive_solver|]. rewrite Hif, Z.ltb_ge. naive_solver. }
  assert ((if cf_ReplicationFactor c <? 0 then [FactorNegative (cf_ReplicationFactor c)]
           else if MaxReplicationFactor <? cf_ReplicationFactor c
           then [FactorTooLarge (cf_ReplicationFactor c)] else []) = [] ↔
          0 ≤ cf_ReplicationFactor c ≤ MaxReplicationFactor) as ->.
  { destruct (Z.ltb_spec (cf_ReplicationFactor c) 0); [split; [done|lia]|]. rewrite Hif, Z.ltb_ge.
    split; [lia|lia]. }
  done.
Qed.

(** ** The characters of an address *)

(** Printable; neither a comma nor a bracket; nothing JSON escapes. *)
Definition host_char (b : byte) : Prop :=
  graphic b ∧ byteZ b ≠ 44 ∧ byteZ b ≠ 91 ∧ byteZ b ≠ 93 ∧
  byteZ b ≠ 34 ∧ byteZ b ≠ 38 ∧ byteZ b ≠ 60 ∧ byteZ b ≠ 62 ∧ byteZ b ≠ 92.

Lemma digit_host_char b d : digit_val b = Some d → host_char b.
Proof. unfold digit_val, host_char, graphic. case_bool; cbn; try done. intros _. lia. Qed.

Lemma hex_host_char b d : hex_val b = Some d → host_char b.
Proof. unfold hex_val, host_char, graphic. case_bool; cbn; try done; intros _; lia. Qed.

Lemma parseIPv4Fields_chars l fields val digLen prev r :
  parseIPv4Fields l fields val digLen prev = Some r → Forall host_char l.
Proof.
  revert fields val digLen prev. induction l as [|c l IH]; intros fields val digLen prev; [constructor|].
  cbn [parseIPv4Fields]. destruct (digit_val c) as [d|] eqn:Hd.
  - destruct (_ && _); [done|]. destruct (255 <? _); [done|]. intros Hl%IH.
    constructor; [by eapply digit_host_char|done].
  - case_bool_decide as Hc; [|done]. case_bool_decide; [done|]. case_bool_decide; [done|].
    intros Hl%IH. constructor; [subst|done]. unfold host_char, graphic. by vm_compute.
Qed.

Lemma hex_group_chars fuel off acc l off' acc' rest :
  hex_group fuel off acc l = Some (off', acc', rest) → ∃ pre, l = pre ++ rest ∧ Forall host_char pre.
Proof.
  revert fuel off acc. induction l as [|c l IH]; intros fuel off acc.
  { destruct fuel; intros [= <- <- <-]; exists []; by split; [|constructor]. }
  assert (hex_group fuel off acc (c :: l) =
    match hex_val c with
    | Some v => match fuel with O => None | S fuel => hex_group fuel (S off) (acc * 16 + v) l end
    | None => Some (off, acc, c :: l)
    end) as -> by (by destruct fuel).
  destruct (hex_val c) as [v|] eqn:Hv.
  - destruct fuel; [done|]. intros (pre & -> & HF)%IH. exists (c :: pre).
    split; [done|]. constructor; [by eapply hex_host_char|done].
  - intros [= <- <- <-]. exists []. by split; [|constructor].
Qed.

Lemma colon_host_char : host_char x3a.
Proof. unfold host_char, graphic. by vm_compute. Qed.

Lemma ipv6_loop_chars fuel ip ell s ip' ell' :
  ipv6_loop fuel ip ell s = Some (ip', ell', []) → Forall host_char s.
Proof.
  pose proof colon_host_char as Hcolon.
  revert ip ell s. induction fuel as [|fuel IH]; intros ip ell s; cbn [ipv6_loop].
  { intros [= _ _ ->]. constructor. }
  destruct (hex_group 4 0 0 s) as [[[off acc] rest]|] eqn:Hg; cbn [mbind option_bind]; [|done].
  apply hex_group_chars in Hg as (pre & -> & Hpre).
  case_bool_decide; [done|]. case_bool_decide.
  { case_bool_decide; [done|]. case_bool_decide; [done|].
    destruct (parseIPv4Fields _ _ _ _ _) eqn:H4; cbn; [|done]. intros _.
    by eapply parseIPv4Fields_chars. }
  destruct rest as [|c [|c2 s2]]; [by rewrite app_nil_r|done|].
  case_bool_decide as Hc; [|done]. case_bool_decide as Hc2.
  - case_bool_decide; [|done]. intros Hr. apply Forall_app. split; [done|].
    subst. constructor; [done|]. constructor; [done|]. destruct s2; [constructor|]. by apply IH in Hr.
  - intros Hl%IH. apply Forall_app. split; [done|]. subst. by constructor.
Qed.

Lemma ParseIP_chars h ip : ParseIP h = Some ip → Forall host_char (bytes_of_string h) ∧ h ≠ "".
Proof.
  intros H. split; [|by intros ->]. revert H. unfold ParseIP, ParseIP_bytes.
  generalize (bytes_of_string h). intros l.
  case_bool_decide; [done|]. destruct (first_separator l) as [c|]; [|done].
  case_bool_decide; [|case_bool_decide; [|done]].
  { unfold parseIPv4. destruct (parseIPv4Fields _ _ _ _ _) eqn:H4; cbn; [|done].
    intros _. by eapply parseIPv4Fields_chars. }
  unfold parseIPv6.
  set (p := match l with a :: b :: s'' => _ | _ => _ end).
  assert (Hp : Forall host_char p.2 → Forall host_char l).
  { unfold p. destruct l as [|a [|b l]]; try done. case_bool_decide as Hab; [|done].
    destruct Hab as [-> ->]. cbn. intros. repeat constructor; try done; apply colon_host_char. }
  destruct p as [ell s']. cbn [snd] in Hp. case_bool_decide as He.
  { intros _. apply Hp. destruct He as [_ ->]. constructor. }
  destruct (ipv6_loop _ _ _ _) as [[[ip' ell'] rest]|] eqn:Hl; cbn [mbind option_bind]; [|done].
  case_bool_decide as Hr; [done|]. assert (rest = []) as -> by (by destruct rest). intros _.
  by apply Hp, (ipv6_loop_chars _ _ _ _ _ _ Hl).
Qed.

(** ** Endpoint lists *)

(** Printable and not a comma. *)
Definition addr_char (b : byte) : Prop := graphic b ∧ b ≠ x2c.

Lemma host_addr_char b : host_char b → addr_char b.
Proof. intros (H & Hc & _). split; [done|]. by intros ->. Qed.

Lemma Itoa_chars n : 0 ≤ n → Forall host_char (Itoa_bytes n).
Proof.
  intros Hn. unfold Itoa_bytes. rewrite (proj2 (Z.ltb_ge n 0)) by done.
  destruct (nat_digits_shape n Hn) as (d & ds & -> & HF & _).
  change (digit d :: map digit ds) with (digit <$> (d :: ds)). apply Forall_fmap.
  eapply Forall_impl; [exact HF|]. intros x Hx. eapply digit_host_char. by apply digit_val_digit.
Qed.

Lemma JoinHostPort_chars h p :
  (∃ ip, ParseIP h = Some ip) → 0 ≤ p → Forall addr_char (bytes_of_string (JoinHostPort h (Itoa p))).
Proof.
  intros [ip [Hh _]%ParseIP_chars] Hp%Itoa_chars. unfold JoinHostPort, Itoa, bytes_of_string.
  rewrite !String.list_byte_of_string_of_list_byte.
  assert (∀ l, Forall host_char l → Forall addr_char l) as Hmono
    by (intros l Hl; eapply Forall_impl; [done|apply host_addr_char]).
  assert (addr_char x3a ∧ addr_char x5b ∧ addr_char x5d) as (? & ? & ?)
    by (split_and!; (split; [unfold graphic; by vm_compute|done])).
  unfold JoinHostPort_bytes. case_bool_decide; repeat first [apply Forall_cons; split|apply Forall_app; split];
    auto.
Qed.

Lemma bytes_of_string_app s t : bytes_of_string (s +:+ t) = bytes_of_string s ++ bytes_of_string t.
Proof. induction s as [|a s IH]; [done|]. exact (f_equal (cons (Ascii.byte_of_ascii a)) IH). Qed.

Lemma split_comma_app a l acc :
  x2c ∉ a → split_comma (a ++ l) acc = split_comma l (rev a ++ acc).
Proof.
  revert acc. induction a as [|b a IH]; intros acc Ha; [done|]. cbn.
  rewrite bool_decide_eq_false_2 by set_solver. rewrite IH by set_solver. by rewrite <-app_assoc.
Qed.

Lemma Split_comma_concat l :
  l ≠ [] → Forall (fun s => Forall addr_char (bytes_of_string s)) l →
  Split_comma (String.concat "," l) = l.
Proof.
  intros Hne HF. unfold Split_comma. induction HF as [|s l Hs HF IH]; [done|]. clear Hne.
  assert (x2c ∉ bytes_of_string s) as Hc.
  { intros Hin. rewrite Forall_forall in Hs. by destruct (Hs _ Hin). }
  destruct l as [|t l].
  - change (String.concat "," [s]) with s. rewrite <-(app_nil_r (bytes_of_string s)), split_comma_app by done.
    cbn. rewrite app_nil_r, rev_involutive. f_equal. apply String.string_of_list_byte_of_string.
  - change (String.concat "," (s :: t :: l)) with (s +:+ ("," +:+ String.concat "," (t :: l))).
    rewrite bytes_of_string_app, split_comma_app by done.
    change (bytes_of_string ("," +:+ ?x)) with (x2c :: bytes_of_string x). cbn [split_comma].
    rewrite bool_decide_eq_true_2 by done. rewrite fmap_cons, IH by done. f_equal.
    rewrite app_nil_r, rev_involutive. apply String.string_of_list_byte_of_string.
Qed.

Lemma endpoint_steps acc l :
  NoDup (acc ++ l) → Forall (fun s => TrimSpace s = s ∧ s ≠ "") l →
  foldl endpoint_step acc l = acc ++ l.
Proof.
  intros Hnd HF. revert acc Hnd. induction HF as [|s l [Ht Hs] HF IH]; intros acc Hnd; cbn [foldl].
  { by rewrite app_nil_r. }
  unfold endpoint_step at 2. rewrite Ht, bool_decide_eq_false_2 by done.
  rewrite bool_decide_eq_false_2.
  - rewrite IH; rewrite <-app_assoc; done.
  - apply NoDup_app in Hnd as (_ & Hnd & _). intros Hin. apply (Hnd s Hin). left.
Qed.

Lemma JoinHostPort_nonempty h p : JoinHostPort h p ≠ "".
Proof.
  intros H. apply (f_equal bytes_of_string) in H. unfold JoinHostPort, bytes_of_string in H.
  rewrite String.list_byte_of_string_of_list_byte in H. unfold JoinHostPort_bytes in H.
  case_bool_decide; [done|]. by destruct (String.list_byte_of_string h).
Qed.

Lemma Config_Validate_nil c : Config_Validate c = [] ↔ config_valid c.
Proof.
  unfold Config_Validate. rewrite !app_nil, check_replicas_nil, check_settings_nil, check_nodes_nil.
  rewrite add_replicas_all.
  destruct (add_all_spec (concat (imap (fun j => replica_owners (0 + j)) (cf_ControlPlanes c))) ([], ∅))
    as [H1 H2]. rewrite replica_owners_addresses in H1, H2. setoid_rewrite H1. rewrite H2. clear H1 H2.
  assert ((if bool_decide (cf_ControlPlanes c = []) then [NoControlPlane] else []) = [] ↔
    cf_ControlPlanes c ≠ []) as -> by (case_bool_decide; naive_solver).
  cbn [fst snd]. split.
  - intros (? & (? & ? & _) & (? & ? & ? & ? & ? & ? & ? & ? & ? & ?) & (_ & Ha1 & _) & ? & ? & _ & Ha2 & Ha3).
    split; try done. unfold listen_addresses. apply NoDup_app. split_and!; [done| |done].
    intros a Ha Ha'. by destruct (Ha3 a Ha') as [? _].
  - intros [[? ?] [? ?] ? ? Ha [? ?] ? (? & ? & ?) (? & ? & ?) ?].
    unfold listen_addresses in Ha. apply NoDup_app in Ha as (? & Hd & ?).
    split_and!; try done; try lia; try (intros; apply lookup_empty).
    intros a Ha. split; [|apply lookup_empty]. intros Ha'. by eapply Hd.
Qed.

Lemma Load_Ok {E} (opened : option E) decoded path c :
  Load opened decoded path = Ok c →
  ∃ c0, opened = None ∧ decoded = Ok c0 ∧ c = applyDefaults (with_path path c0) ∧ config_valid c.
Proof.
  unfold Load. destruct opened; [done|]. destruct decoded as [c0|]; [|done].
  destruct (Config_Validate _) eqn:Hv; [|done]. intros [= <-].
  exists c0. split_and!; try done. by apply Config_Validate_nil.
Qed.

Lemma ControlPlaneAddresses_NoDup c : config_valid c → NoDup (ControlPlaneAddresses c).
Proof.
  intros [_ _ _ _ Ha _ _ _ _ _]. unfold listen_addresses in Ha. apply NoDup_app in Ha as (Ha & _ & _).
  unfold ControlPlaneAddresses. induction (cf_ControlPlanes c) as [|r rs IH]; [constructor|].
  rewrite bind_cons in Ha. apply NoDup_app in Ha as (_ & Hd & Ha). rewrite fmap_cons, NoDup_cons.
  split; [|by apply IH]. intros (r' & Heq & Hr')%list_elem_of_fmap.
  apply (Hd (cp_Address r)); [left|]. apply list_elem_of_bind. exists r'. split; [|done].
  rewrite Heq. left.
Qed.

(** ** The default port plan *)

Lemma local_address_inj p q :
  in_i64 p → in_i64 q → JoinHostPort DefaultHost (Itoa p) = JoinHostPort DefaultHost (Itoa q) → p = q.
Proof.
  intros Hp Hq H. apply (f_equal bytes_of_string) in H. unfold JoinHostPort, bytes_of_string in H.
  rewrite !String.list_byte_of_string_of_list_byte in H.
  unfold JoinHostPort_bytes in H.
  assert (x3a ∉ String.list_byte_of_string DefaultHost) as Hc by (cbn; set_solver).
  rewrite !(bool_decide_eq_false_2 (x3a ∈ _)) in H by done.
  apply app_inv_head in H. injection H as H.
  apply (f_equal String.string_of_list_byte) in H. rewrite !String.string_of_list_byte_of_string in H.
  apply (f_equal Atoi) in H. rewrite !Atoi_Itoa in H by done. congruence.
Qed.

(** A file that names its data nodes on ports 7100, 7101, ... and leaves everything
    else out. *)
Definition bare_config (replicas : nat) (ids : list string) : Config :=
  MkConfig (replicate replicas (MkControlPlane "" "" 0 0 0)) "" 0 (MkEngine 0 0 "") (MkRaft "" 0 0 0)
    (imap (fun i id => MkCfgNode id "" (7100 + Z.of_nat i) 0) ids) None 0 "".

Definition replica_ports (i : nat) : list Z :=
  [7000 + Z.of_nat i; 7240 + Z.of_nat i; 7300 + Z.of_nat i].
Definition node_ports (i : nat) : list Z := [7100 + Z.of_nat i; 7201 + Z.of_nat i].
Definition plan (replicas nodes : nat) : list Z :=
  (seq 0 replicas ≫= replica_ports) ++ (seq 0 nodes ≫= node_ports).

Lemma plan_ok k n :
  (k ≤ 5)%nat → (n ≤ 32)%nat → NoDup (plan k n) ∧ Forall (fun p => 7000 ≤ p ≤ 7304) (plan k n).
Proof.
  intros Hk Hn.
  assert (Hc : forallb (fun k => forallb (fun n => bool_decide (NoDup (plan k n)) &&
    forallb (fun p => (7000 <=? p) && (p <=? 7304)) (plan k n)) (seq 0 33)) (seq 0 6) = true) by (by vm_compute).
  rewrite forallb_forall in Hc. specialize (Hc k). rewrite <-list_elem_of_In, elem_of_seq in Hc.
  specialize (Hc ltac:(lia)). rewrite forallb_forall in Hc. specialize (Hc n).
  rewrite <-list_elem_of_In, elem_of_seq in Hc. specialize (Hc ltac:(lia)).
  apply andb_true_iff in Hc as [H1%bool_decide_eq_true H2]. split; [done|].
  apply Forall_forall. intros p Hp%list_elem_of_In. rewrite forallb_forall in H2.
  apply H2, andb_true_iff in Hp as [?%Z.leb_le ?%Z.leb_le]. lia.
Qed.

Definition local_address (p : Z) : string := JoinHostPort DefaultHost (Itoa p).

Definition bare_replica (i : nat) : ControlPlane :=
  MkControlPlane ("cp-" +:+ Itoa (Z.of_nat i)) DefaultHost (7000 + Z.of_nat i) (7240 + Z.of_nat i)
    (7300 + Z.of_nat i).
Definition bare_node (i : nat) (id : string) : CfgNode :=
  MkCfgNode id DefaultHost (7100 + Z.of_nat i) (7201 + Z.of_nat i).

Lemma bare_replicas k : cf_ControlPlanes (applyDefaults (bare_config k [])) = bare_replica <$> seq 0 k.
Proof.
  cbn. apply list_eq. intros i. rewrite list_lookup_imap, list_lookup_fmap.
  destruct (decide (i < k)%nat).
  - rewrite lookup_replicate_2, lookup_seq_lt by done. done.
  - rewrite lookup_ge_None_2 by (rewrite length_replicate; lia). rewrite lookup_seq_ge by lia. done.
Qed.

Lemma bare_nodes k ids : cf_Nodes (applyDefaults (bare_config k ids)) = imap bare_node ids.
Proof. cbn. apply list_eq. intros i. rewrite !list_lookup_imap. by destruct (ids !! i). Qed.

Lemma bare_listen k ids :
  listen_addresses (applyDefaults (bare_config k ids)) = local_address <$> plan k (length ids).
Proof.
  unfold listen_addresses. rewrite bare_nodes.
  change (cf_ControlPlanes (applyDefaults (bare_config k ids))) with
    (cf_ControlPlanes (applyDefaults (bare_config k []))). rewrite bare_replicas.
  unfold plan. rewrite fmap_app. f_equal.
  - induction (seq 0 k) as [|i l IH]; [done|]. rewrite fmap_cons, !bind_cons, fmap_app, IH. done.
  - assert (∀ j, imap (fun i => bare_node (j + i)) ids ≫= node_addresses =
             local_address <$> (seq j (length ids) ≫= node_ports)) as H; [|apply (H O)].
    induction ids as [|id ids IH]; intros j; [done|]. rewrite imap_cons, bind_cons. cbn [length seq].
    rewrite bind_cons, fmap_app, <-(IH (S j)). cbn [node_addresses node_ports]. rewrite Nat.add_0_r.
    f_equal. f_equal. apply imap_ext. intros i x _. cbn. by rewrite Nat.add_succ_r.
Qed.

(** ** Claims *)

(** C25: validation is exact: it reports no problem if and only if the configuration
    satisfies [config_valid]: every replica and node has a usable distinct
    identity, usable ports and a bindable advertised host, no two listeners of the
    cluster are on the same address, and every setting is in the range [Validate]
    requires (the timings have a lower bound only). *)
Theorem Config_Validate_iff c : Config_Validate c = [] ↔ config_valid c.
Proof. apply Config_Validate_nil. Qed.

(** The endpoint list a loaded configuration renders is the one a client reads
    back: splitting [ControlPlaneEndpoints] yields every replica's address, all of
    them, in file order. *)
Theorem Load_endpoints_roundtrip {E} (opened : option E) decoded path c :
  Load opened decoded path = Ok c →
  splitEndpoints (ControlPlaneEndpoints c) = Some (ControlPlaneAddresses c).
Proof.
  intros (_ & _ & _ & _ & Hv)%Load_Ok. unfold splitEndpoints, ControlPlaneEndpoints.
  destruct (cv_replicas c Hv) as [Hne HF].
  assert (Hchars : Forall (fun s => Forall addr_char (bytes_of_string s)) (ControlPlaneAddresses c)).
  { apply Forall_fmap. eapply Forall_impl; [exact HF|]. intros r (_ & [? _] & _ & _ & ip & Hip & _). cbn.
    apply JoinHostPort_chars; [by exists ip|lia]. }
  assert (ControlPlaneAddresses c ≠ []) as Hna
    by (unfold ControlPlaneAddresses; destruct (cf_ControlPlanes c); done).
  rewrite Split_comma_concat, endpoint_steps; [|cbn; by apply ControlPlaneAddresses_NoDup| |done..].
  { cbn. by destruct (ControlPlaneAddresses c). }
  rewrite Forall_forall in Hchars |- *. intros s Hs. split.
  - apply TrimSpace_graphic. eapply Forall_impl; [by apply Hchars|]. by intros b [? _].
  - apply list_elem_of_fmap in Hs as (r & -> & _). apply JoinHostPort_nonempty.
Qed.

Definition example_config : Config := bare_config 3 ["node-0"; "node-1"].

Lemma Load_endpoints_roundtrip_witness :
  ∃ c, Load (E := ()) None (Ok example_config) "deploy/cluster.config.yaml" = Ok c ∧
    splitEndpoints (ControlPlaneEndpoints c) = Some (ControlPlaneAddresses c).
Proof.
  eexists. split; [vm_compute; reflexivity|].
  apply (Load_endpoints_roundtrip (E := ()) None (Ok example_config) "deploy/cluster.config.yaml").
  vm_compute. reflexivity.
Defined.

(** The derived Raft timings are ordered for every loaded configuration whose
    election timeout fits a [time.Duration] (below 292 years): the lease is
    no longer than the heartbeat, the heartbeat is the election timeout, and all of them
    are at least 25 ms, above the 5 ms floor of the Raft library. *)
Theorem raft_timings_ordered {E} (opened : option E) decoded path c :
  Load opened decoded path = Ok c →
  rf_ElectionTimeoutMillis (cf_Raft c) ≤ 9223372036854 →
  25 * millisecond ≤ LeaderLeaseTimeout (cf_Raft c) ≤ HeartbeatTimeout (cf_Raft c) ∧
  HeartbeatTimeout (cf_Raft c) = ElectionTimeout (cf_Raft c) ∧
  ElectionTimeout (cf_Raft c) = rf_ElectionTimeoutMillis (cf_Raft c) * millisecond.
Proof.
  intros (_ & _ & _ & _ & Hv)%Load_Ok Hmax. destruct (cv_raft c Hv) as (_ & Hmin & _).
  unfold LeaderLeaseTimeout, HeartbeatTimeout, ElectionTimeout.
  rewrite i64_id by (unfold in_i64, millisecond; lia).
  rewrite Z.quot_div_nonneg by (unfold millisecond; lia).
  split; [|done]. split; [apply Z.div_le_lower_bound; unfold millisecond; lia|].
  apply Z.div_le_upper_bound; unfold millisecond; lia.
Qed.

Lemma raft_timings_ordered_witness :
  ∃ c, Load (E := ()) None (Ok example_config) "f" = Ok c ∧
    25 * millisecond ≤ LeaderLeaseTimeout (cf_Raft c) ≤ HeartbeatTimeout (cf_Raft c).
Proof.
  eexists. split; [vm_compute; reflexivity|].
  apply (raft_timings_ordered (E := ()) None (Ok example_config) "f"); [vm_compute; reflexivity|].
  vm_compute. discriminate.
Defined.

(** Beyond that bound the product wraps, so a configuration [Validate] accepts can
    ask for a lease longer than the heartbeat after all. *)
Definition overflow_config : Config :=
  let c := applyDefaults example_config in
  MkConfig (cf_ControlPlanes c) (cf_ClusterName c) (cf_ShardCount c) (cf_Engine c)
    (MkRaft "run/raft" 9223372036855 200 1024) (cf_Nodes c) None 1 "".

Theorem raft_timings_overflow :
  Config_Validate overflow_config = [] ∧
  HeartbeatTimeout (cf_Raft overflow_config) < LeaderLeaseTimeout (cf_Raft overflow_config).
Proof. by vm_compute. Qed.

(** The default port plan works as documented: a file that only names its data
    nodes, up to 32 of them on ports from 7100, with up to five control-plane
    replicas, is completed by the defaults into a configuration that validates,
    so no two of its listeners collide. *)
Theorem default_ports_disjoint replicas ids :
  (1 ≤ replicas ≤ 5)%nat → (1 ≤ length ids ≤ 32)%nat → NoDup ids → Forall id_ok ids →
  Config_Validate (applyDefaults (bare_config replicas ids)) = [].
Proof.
  intros Hk Hn Hnd Hids. apply Config_Validate_nil.
  destruct (plan_ok replicas (length ids)) as [Hplan Hrange]; [lia..|].
  assert (host_ok DefaultHost) as Hhost by (eexists; split; [by vm_compute|done]).
  pose proof (bare_replicas replicas) as Hr. pose proof (bare_nodes replicas ids) as Hns.
  assert (Hids' : nd_NodeID <$> imap bare_node ids = ids).
  { apply list_eq. intros i. rewrite list_lookup_fmap, list_lookup_imap. by destruct (ids !! i). }
  split; [| | | | |by vm_compute|done|done|by vm_compute|by vm_compute].
  - change (cf_ControlPlanes _) with (cf_ControlPlanes (applyDefaults (bare_config replicas []))).
    rewrite Hr. split; [destruct replicas; [lia|done]|]. apply Forall_fmap, Forall_forall.
    intros i [_ Hi]%elem_of_seq. unfold compose, replica_ok, bare_replica, port_ok, maxPort. cbn.
    split_and!; try done; try lia.
    assert (Hc : forallb (fun i => bool_decide (str_len ("cp-" +:+ Itoa (Z.of_nat i)) ≤ 64) &&
      nodeIDPattern ("cp-" +:+ Itoa (Z.of_nat i))) (seq 0 5) = true) by (by vm_compute).
    rewrite forallb_forall in Hc. specialize (Hc i). rewrite <-list_elem_of_In, elem_of_seq in Hc.
    specialize (Hc ltac:(lia)). apply andb_true_iff in Hc as [?%bool_decide_eq_true ?]. by split.
  - rewrite Hns. split; [destruct ids; cbn in *; [lia|done]|].
    apply Forall_lookup. intros i n (id & Hid & ->)%list_lookup_imap_Some.
    pose proof (lookup_lt_Some _ _ _ Hid).
    unfold node_ok, bare_node, port_ok, maxPort. cbn. split_and!; try done; try lia.
    by eapply Forall_lookup_1.
  - unfold ControlPlaneIDs.
    change (cf_ControlPlanes _) with (cf_ControlPlanes (applyDefaults (bare_config replicas []))).
    rewrite Hr, <-list_fmap_compose.
    assert (Hc : forallb (fun k => bool_decide (NoDup (cp_NodeID ∘ bare_replica <$> seq 0 k))) (seq 0 6) = true)
      by (by vm_compute).
    rewrite forallb_forall in Hc. specialize (Hc replicas). rewrite <-list_elem_of_In, elem_of_seq in Hc.
    specialize (Hc ltac:(lia)). by apply bool_decide_eq_true in Hc.
  - unfold NodeIDs. by rewrite Hns, Hids'.
  - rewrite bare_listen. apply NoDup_fmap_2_strong; [|done].
    intros p q Hp Hq. rewrite Forall_forall in Hrange. apply Hrange in Hp, Hq.
    apply local_address_inj; unfold in_i64; lia.
Qed.

Lemma default_ports_disjoint_witness :
  Config_Validate (applyDefaults (bare_config 3 ["node-0"; "node-1"])) = [].
Proof.
  apply (default_ports_disjoint 3 ["node-0"; "node-1"]); [lia|cbn; lia| |].
  - apply (bool_decide_unpack _). vm_compute. exact I.
  - repeat constructor; vm_compute; reflexivity || discriminate.
Defined.
