(* ===== verification/Sidecar.v ===== *)
(** * The membership sidecar ([cmd/pulsekv-member/main.go])

    The process that speaks gossip for one data node: it waits until the node
    answers a health and identity check, joins the ring, withdraws the node when
    it stops answering, and starts over.  The outside world is a script: each
    loop consumes one record per iteration holding what the clock, the node and
    memberlist answered; when the script ends the loop is still running.  What
    the process did is a trace of events, complete or not. *)

From S2P Require Import Prelude GoStd Json NodeMeta View Manager Topology Client Config.
Local Open Scope Z_scope.

(** ** Options *)

Record side_options := MkSideOptions {
  so_nodeID : string; so_startupTimeout : Z; so_joinRetry : Z; so_joinTimeout : Z;
  so_healthInterval : Z; so_healthTimeout : Z; so_failureThreshold : Z; so_leaveTimeout : Z
}.

Inductive option_problem :=
| NodeIDMissing | StartupTimeout | JoinRetry | JoinTimeoutOpt | HealthInterval | HealthTimeout
| FailureThreshold | LeaveTimeoutOpt.

Definition validateOptions (o : side_options) : list option_problem :=
  problem_if (bool_decide (TrimSpace (so_nodeID o) = "")) NodeIDMissing ++
  problem_if (so_startupTimeout o <=? 0) StartupTimeout ++
  problem_if (so_joinRetry o <=? 0) JoinRetry ++
  problem_if (so_joinTimeout o <=? 0) JoinTimeoutOpt ++
  problem_if (so_healthInterval o <=? 0) HealthInterval ++
  problem_if (so_healthTimeout o <=? 0) HealthTimeout ++
  problem_if (so_failureThreshold o <=? 0) FailureThreshold ++
  problem_if (so_leaveTimeout o <=? 0) LeaveTimeoutOpt.

Definition configuredNode (cfg : Config) (nodeID : string) : option CfgNode :=
  List.find (fun n => bool_decide (nd_NodeID n = nodeID)) (cf_Nodes cfg).

(** The fold of [uniqueStrings]: [out] is the result so far, which is also what
    has been seen. *)
Definition unique_step (out : list string) (value : string) : list string :=
  if bool_decide (value ≠ "") && negb (bool_decide (value ∈ out)) then out ++ [value] else out.
Definition uniqueStrings (values : list string) : list string := foldl unique_step [] values.

Definition bootstrapSeeds (cfg : Config) (localNodeID : string) : list string :=
  uniqueStrings (ControlPlaneGossipSeeds cfg ++
    (nd_GossipAddress <$> filter (fun n => nd_NodeID n ≠ localNodeID) (cf_Nodes cfg))).

Definition isLoopback (host : string) : bool :=
  match ParseIP host with None => false | Some ip => IsLoopback (Some ip) end.

(** The [membership.Config] of [newMembership]. *)
Definition newMembership (cfg : Config) (node : CfgNode) (o : side_options) : MemberConfig :=
  MkMemberConfig ("data:" +:+ nd_NodeID node) RoleData (nd_NodeID node) (nd_Address node)
    (nd_Host node) (nd_GossipPort node) (nd_Host node) (nd_GossipPort node)
    (cf_ClusterName cfg) [] (isLoopback (nd_Host node))
    0 0 (so_joinTimeout o) 0 0 0 (so_leaveTimeout o).

(** ** Time; a zero deadline is [None] *)

Definition boundedAttemptTimeout (deadline : option Z) (now maximum : Z) : option Z :=
  match deadline with
  | None => Some maximum
  | Some d =>
      let remaining := d - now in
      if remaining <=? 0 then None
      else if remaining <? maximum then Some remaining else Some maximum
  end.

(** How the [select] of [waitRetry] ends: cancelled, or the timer at a time. *)
Inductive wait_end := CtxEnded | TimerFired (now : Z).
Inductive wait_outcome := WaitOk | WaitCancelled | WaitDeadline.

(** How long [waitRetry] sleeps; [None] is [DeadlineExceeded] at once. *)
Definition retry_wait (deadline : option Z) (retry now : Z) : option Z :=
  match deadline with
  | None => Some retry
  | Some d =>
      let remaining := d - now in
      if remaining <=? 0 then None else Some (if remaining <? retry then remaining else retry)
  end.

Definition waitRetry (deadline : option Z) (retry now : Z) (fin : wait_end) : wait_outcome :=
  match retry_wait deadline retry now with
  | None => WaitDeadline
  | Some _ =>
      match fin with
      | CtxEnded => WaitCancelled
      | TimerFired now' =>
          match deadline with
          | Some d => if negb (now' <? d) then WaitDeadline else WaitOk
          | None => WaitOk
          end
      end
  end.

Section sidecar.
Context {E : Type}.
(** [errors.Is(err, context.Canceled)]. *)
Context (canceled : E → bool).

(** ** Probing the node *)

Inductive probe_error :=
| ProbeDial (e : E) | ProbeRpc (e : E) | ProbeNotOk | ProbeIdentity (got want : string).

(** The dial error and the [HealthCheck] answer, [(ok, node_id)]. *)
Definition probeNodeContext (node : CfgNode) (dial : option E) (resp : result E (bool * string))
    : option probe_error :=
  match dial with
  | Some e => Some (ProbeDial e)
  | None =>
      match resp with
      | Err e => Some (ProbeRpc e)
      | Ok (ok, id) =>
          if negb ok then Some ProbeNotOk
          else if bool_decide (id ≠ nd_NodeID node) then Some (ProbeIdentity id (nd_NodeID node))
          else None
      end
  end.

Definition probe_canceled (e : probe_error) : bool :=
  match e with ProbeDial e | ProbeRpc e => canceled e | _ => false end.

(** ** Traces *)

Inductive side_event :=
| EvProbe (r : option probe_error)
| EvStart (c : mlConfig)
| EvCall (c : ml_call).

(** A computation: what it has done, and its result once it has returned. *)
Definition running (A : Type) : Type := list side_event * option A.

Definition ret {A} (a : A) : running A := ([], Some a).
Definition bind {A B} (r : running A) (f : A → running B) : running B :=
  match r.2 with
  | Some a => let q := f a in (r.1 ++ q.1, q.2)
  | None => (r.1, None)
  end.
Definition emit {A} (l : list side_event) (r : running A) : running A := (l ++ r.1, r.2).

Record wait_round := MkWaitRound {
  wr_now : Z; wr_dial : option E; wr_resp : result E (bool * string); wr_now2 : Z; wr_end : wait_end
}.

Inductive wait_result := NodeReady | NodeCancelled | NodeNotReady (lastErr : option probe_error).

Fixpoint waitForNode (node : CfgNode) (deadline : option Z) (rpcTimeout retry : Z)
    (rounds : list wait_round) (lastErr : option probe_error) : running wait_result :=
  match rounds with
  | [] => ([], None)
  | r :: rounds =>
      match boundedAttemptTimeout deadline (wr_now r) rpcTimeout with
      | None => ret (NodeNotReady lastErr)
      | Some _ =>
          let err := probeNodeContext node (wr_dial r) (wr_resp r) in
          emit [EvProbe err]
            match err with
            | None => ret NodeReady
            | Some e =>
                if probe_canceled e then ret NodeCancelled
                else match waitRetry deadline retry (wr_now2 r) (wr_end r) with
                     | WaitDeadline => ret (NodeNotReady (Some e))
                     | WaitCancelled => ret NodeCancelled
                     | WaitOk => waitForNode node deadline rpcTimeout retry rounds (Some e)
                     end
            end
      end
  end.

(** ** Joining *)

Inductive join_error := JoinFailed (e : E) | NoPeers | JoinClosed | JoinLeft.

(** [manager.Join([]string{seed})]. *)
Definition join_call (m : manager E) (seed : string) (outcome : Z * option E)
    : list side_event * result join_error Z :=
  let '(_, r, calls) := manager_step m (Join [seed] outcome) in
  (EvCall <$> calls,
   match r with
   | Joined _ (Some e) => Err (JoinFailed e)
   | Joined n None => Ok n
   | Manager.ErrLeft => Err JoinLeft
   | Manager.ErrClosed | Returned _ => Err JoinClosed
   end).

Record join_in := MkJoinIn { ji_now : Z; ji_done : bool; ji_outcome : Z * option E }.
Record join_round := MkJoinRound { jr_seeds : list join_in; jr_now : Z; jr_end : wait_end }.

Inductive join_result := JoinDone | JoinCancelled | JoinTimeout (lastErr : option (string * join_error)).

(** The loop over the seeds: a result, or the last error for the next round. *)
Fixpoint join_seeds (m : manager E) (deadline : option Z) (joinTimeout : Z)
    (seeds : list string) (ins : list join_in) (lastErr : option (string * join_error))
    : running (join_result + option (string * join_error)) :=
  match seeds, ins with
  | [], _ => ret (inr lastErr)
  | _ :: _, [] => ([], None)
  | seed :: seeds, i :: ins =>
      match boundedAttemptTimeout deadline (ji_now i) joinTimeout with
      | None => ret (inl (JoinTimeout lastErr))
      | Some attemptTimeout =>
          if attemptTimeout <? joinTimeout then ret (inl (JoinTimeout lastErr))
          else if ji_done i then ret (inl JoinCancelled)
          else
            let '(evs, r) := join_call m seed (ji_outcome i) in
            emit evs
              match r with
              | Ok n =>
                  if 0 <? n then ret (inl JoinDone)
                  else join_seeds m deadline joinTimeout seeds ins (Some (seed, NoPeers))
              | Err e => join_seeds m deadline joinTimeout seeds ins (Some (seed, e))
              end
      end
  end.

Fixpoint joinUntil (m : manager E) (seeds : list string) (deadline : option Z) (joinTimeout retry : Z)
    (rounds : list join_round) (lastErr : option (string * join_error)) : running join_result :=
  match rounds with
  | [] => ([], None)
  | r :: rounds =>
      bind (join_seeds m deadline joinTimeout seeds (jr_seeds r) lastErr) (fun res =>
        match res with
        | inl j => ret j
        | inr lastErr =>
            match waitRetry deadline retry (jr_now r) (jr_end r) with
            | WaitDeadline => ret (JoinTimeout lastErr)
            | WaitCancelled => ret JoinCancelled
            | WaitOk => joinUntil m seeds deadline joinTimeout retry rounds lastErr
            end
        end)
  end.

(** [syncControlPlanes]: how many replicas were synced directly. *)
Fixpoint syncControlPlanes (m : manager E) (seeds : list string) (deadline : option Z) (joinTimeout : Z)
    (ins : list join_in) (synced : Z) : running Z :=
  match seeds, ins with
  | [], _ => ret synced
  | _ :: _, [] => ([], None)
  | seed :: seeds, i :: ins =>
      if ji_done i then ret synced
      else match boundedAttemptTimeout deadline (ji_now i) joinTimeout with
           | None => ret synced
           | Some _ =>
               let '(evs, r) := join_call m seed (ji_outcome i) in
               emit evs (syncControlPlanes m seeds deadline joinTimeout ins
                 (match r with Ok n => if 0 <? n then synced + 1 else synced | Err _ => synced end))
           end
  end.

(** ** Watching the node *)

(** [members.Close()], with what memberlist answers to the leave and the
    shutdown. *)
Definition close_member (m : manager E) (outcome : option E * option E) : running (list E) :=
  let '(_, r, calls) := manager_step m (Close outcome.1 outcome.2) in
  (EvCall <$> calls, Some (match r with Returned es => es | _ => [] end)).

Inductive mon_in :=
| MonDone (outcome : option E * option E)
| MonTick (dial : option E) (resp : result E (bool * string)) (outcome : option E * option E).

Definition close_as {A} (m : manager E) (outcome : option E * option E) (a : A) : running (A * list E) :=
  bind (close_member m outcome) (fun es => ret (a, es)).

Fixpoint monitorNode (m : manager E) (node : CfgNode) (threshold : Z) (ins : list mon_in) (failures : Z)
    : running (bool * list E) :=
  match ins with
  | [] => ([], None)
  | MonDone outcome :: _ => close_as m outcome false
  | MonTick dial resp outcome :: ins =>
      let err := probeNodeContext node dial resp in
      emit [EvProbe err]
        match err with
        | None => monitorNode m node threshold ins 0
        | Some e =>
            if probe_canceled e then close_as m outcome false
            else
              let failures := failures + 1 in
              if failures <? threshold then monitorNode m node threshold ins failures
              else close_as m outcome true
        end
  end.

(** ** The process *)

Inductive side_result :=
| BadOptions (ps : list option_problem) | LoadFailed (e : load_error E) | UnknownNode
| NeverReady (lastErr : option probe_error) | StartFailed (e : Manager.new_error E)
| SideClosed (es : list E) | SideJoinFailed (j : join_result) (es : list E) | SideStopped.

(** One life of the participant: the outcome of [memberlist.Create], then the
    scripts of the loops in the order [run] enters them. *)
Record life := MkLife {
  lf_create : option E; lf_join : list join_round; lf_join_close : option E * option E;
  lf_sync : list join_in; lf_monitor : list mon_in; lf_wait : list wait_round
}.

Context (MetaMaxSize LabelMaxSize : Z) (defaults : bool → mlConfig).

(** [errors.Is(err, context.Canceled)] for what [joinUntil] returned: a timeout
    wraps the last seed's error. *)
Definition join_canceled (j : join_result) : bool :=
  match j with
  | JoinCancelled => true
  | JoinTimeout (Some (_, JoinFailed e)) => canceled e
  | _ => false
  end.

Fixpoint lives (cfg : Config) (node : CfgNode) (o : side_options) (deadline : option Z) (ls : list life)
    : running side_result :=
  match ls with
  | [] => ([], None)
  | l :: ls =>
      match NewManager MetaMaxSize LabelMaxSize defaults (fun _ => lf_create l) (newMembership cfg node o) with
      | Err e => ret (StartFailed e)
      | Ok (m, _, base) =>
          emit [EvStart base]
            (bind (joinUntil m (bootstrapSeeds cfg (nd_NodeID node)) deadline (so_joinTimeout o)
                     (so_joinRetry o) (lf_join l) None) (fun j =>
             match j with
             | JoinDone =>
                 bind (syncControlPlanes m (ControlPlaneGossipSeeds cfg) deadline (so_joinTimeout o)
                         (lf_sync l) 0) (fun _ =>
                 bind (monitorNode m node (so_failureThreshold o) (lf_monitor l) 0) (fun r =>
                 let '(failed, es) := r in
                 if bool_decide (es ≠ []) then ret (SideClosed es)
                 else if negb failed then ret SideStopped
                 else bind (waitForNode node None (so_healthTimeout o) (so_joinRetry o) (lf_wait l) None)
                        (fun w =>
                        match w with
                        | NodeReady => lives cfg node o None ls
                        | NodeCancelled => ret SideStopped
                        | NodeNotReady e => ret (NeverReady e)
                        end)))
             | _ =>
                 bind (close_member m (lf_join_close l)) (fun es =>
                   if join_canceled j then ret (SideClosed es) else ret (SideJoinFailed j es))
             end))
      end
  end.

(** [run], over what [config.Load] returns and the time it starts at. *)
Definition side_run (o : side_options) (loaded : result (load_error E) Config) (now : Z)
    (first : list wait_round) (ls : list life) : running side_result :=
  match validateOptions o with
  | _ :: _ as ps => ret (BadOptions ps)
  | [] =>
      match loaded with
      | Err e => ret (LoadFailed e)
      | Ok cfg =>
          match configuredNode cfg (so_nodeID o) with
          | None => ret UnknownNode
          | Some node =>
              let deadline := Some (now + so_startupTimeout o) in
              bind (waitForNode node deadline (so_healthTimeout o) (so_joinRetry o) first None) (fun w =>
                match w with
                | NodeReady => lives cfg node o deadline ls
                | NodeCancelled => ret SideStopped
                | NodeNotReady e => ret (NeverReady e)
                end)
          end
      end
  end.

(** ** Traces of the loops *)

Definition is_probe (ev : side_event) : Prop := match ev with EvProbe _ => True | _ => False end.
Definition is_join_call (ev : side_event) : Prop :=
  match ev with EvCall (ml_Join _) => True | _ => False end.

Lemma bind_fst {A B} (r : running A) (f : A → running B) :
  (bind r f).1 = r.1 ++ match r.2 with Some a => (f a).1 | None => [] end.
Proof. unfold bind. destruct r as [t [a|]]; cbn; [done|by rewrite app_nil_r]. Qed.

Lemma waitForNode_trace node deadline rpcTimeout retry rounds lastErr :
  let r := waitForNode node deadline rpcTimeout retry rounds lastErr in
  match r.2 with
  | Some NodeReady => ∃ es, r.1 = es ++ [EvProbe None] ∧ Forall is_probe es
  | _ => Forall is_probe r.1
  end.
Proof.
  revert lastErr. induction rounds as [|r rounds IH]; intros lastErr; [constructor|].
  cbn [waitForNode]. destruct (boundedAttemptTimeout _ _ _); [|constructor].
  destruct (probeNodeContext _ _ _) as [e|]; cbn.
  2:{ exists []. by split. }
  destruct (probe_canceled e); [by repeat constructor|].
  destruct (waitRetry _ _ _ _); [|by repeat constructor..].
  specialize (IH (Some e)). cbn zeta in IH.
  destruct (waitForNode _ _ _ _ rounds _) as [t [[]|]]; cbn in *; try by constructor.
  destruct IH as (es & -> & HF). exists (EvProbe (Some e) :: es). split; [done|by constructor].
Qed.

Section fresh.
(** A manager [NewManager] has just returned. *)
Context (m : manager E) (Hleft : m_left m = false) (Hclosed : m_closed m = false).

Lemma join_call_trace seed outcome : Forall is_join_call (join_call m seed outcome).1.
Proof using Hleft Hclosed.
  unfold join_call. destruct outcome as [n err]. cbn. rewrite Hclosed, Hleft. cbn. by repeat constructor.
Qed.

Lemma join_seeds_trace deadline jt seeds ins lastErr :
  Forall is_join_call (join_seeds m deadline jt seeds ins lastErr).1.
Proof using Hleft Hclosed.
  revert ins lastErr. induction seeds as [|seed seeds IH]; intros ins lastErr; [constructor|].
  destruct ins as [|i ins]; [constructor|]. cbn [join_seeds].
  destruct (boundedAttemptTimeout _ _ _) as [t|]; [|constructor].
  destruct (t <? jt); [constructor|]. destruct (ji_done i); [constructor|].
  pose proof (join_call_trace seed (ji_outcome i)) as Hj.
  destruct (join_call _ _ _) as [evs r]. cbn in Hj. cbn. apply Forall_app. split; [done|].
  destruct r as [n|e]; [|apply IH]. destruct (0 <? n); [constructor|apply IH].
Qed.

Lemma joinUntil_trace seeds deadline jt retry rounds lastErr :
  Forall is_join_call (joinUntil m seeds deadline jt retry rounds lastErr).1.
Proof using Hleft Hclosed.
  revert lastErr. induction rounds as [|r rounds IH]; intros lastErr; [constructor|].
  cbn [joinUntil]. rewrite bind_fst. apply Forall_app. split; [apply join_seeds_trace|].
  destruct (join_seeds _ _ _ _ _ _).2 as [[j|e]|]; [constructor| |constructor].
  destruct (waitRetry _ _ _ _); [apply IH|constructor..].
Qed.

Lemma syncControlPlanes_trace seeds deadline jt ins synced :
  Forall is_join_call (syncControlPlanes m seeds deadline jt ins synced).1.
Proof using Hleft Hclosed.
  revert ins synced. induction seeds as [|seed seeds IH]; intros ins synced; [constructor|].
  destruct ins as [|i ins]; [constructor|]. cbn [syncControlPlanes].
  destruct (ji_done i); [constructor|]. destruct (boundedAttemptTimeout _ _ _); [|constructor].
  pose proof (join_call_trace seed (ji_outcome i)) as Hj.
  destruct (join_call _ _ _) as [evs r]. cbn in Hj. cbn. apply Forall_app. split; [done|apply IH].
Qed.

Definition closing : list side_event := [EvCall (ml_Leave (m_leaveTimeout m)); EvCall ml_Shutdown].

Lemma close_member_eq outcome :
  0 < m_leaveTimeout m →
  close_member m outcome = (closing, Some (errs outcome.1 ++ errs outcome.2)).
Proof using Hleft Hclosed.
  intros Ht. destruct outcome as [lo so]. unfold close_member. cbn. rewrite Hclosed. unfold leaveLocked.
  rewrite Hleft. cbn. by rewrite (proj2 (Z.leb_gt _ _) Ht).
Qed.

Lemma monitorNode_trace node threshold ins failures :
  0 < m_leaveTimeout m →
  let r := monitorNode m node threshold ins failures in
  match r.2 with
  | Some _ => ∃ ps, r.1 = ps ++ closing ∧ Forall is_probe ps
  | None => Forall is_probe r.1
  end.
Proof using Hleft Hclosed.
  intros Ht. revert failures.
  assert (Hclose : ∀ (b : bool) outcome, close_as m outcome b = (closing, Some (b, errs outcome.1 ++ errs outcome.2))).
  { intros b outcome. unfold close_as. rewrite close_member_eq by done. cbn. done. }
  induction ins as [|[outcome|dial resp outcome] ins IH]; intros failures; [constructor| |].
  { cbn [monitorNode]. rewrite Hclose. by exists []. }
  cbn [monitorNode].
  assert (Hstep : ∀ ev f, is_probe ev →
    let r := emit [ev] (monitorNode m node threshold ins f) in
    match r.2 with
    | Some _ => ∃ ps, r.1 = ps ++ closing ∧ Forall is_probe ps
    | None => Forall is_probe r.1
    end).
  { intros ev f Hev. specialize (IH f). cbn zeta in *. cbn.
    destruct (monitorNode _ _ _ _ f) as [t [x|]]; cbn in *; [|by constructor].
    destruct IH as (ps & -> & HF). exists (ev :: ps). split; [done|by constructor]. }
  destruct (probeNodeContext _ _ _) as [e|]; [|by apply Hstep].
  assert (Hend : ∀ b : bool, let r := emit [EvProbe (Some e)] (close_as m outcome b) in
    match r.2 with
    | Some _ => ∃ ps, r.1 = ps ++ closing ∧ Forall is_probe ps
    | None => Forall is_probe r.1
    end).
  { intros b. rewrite Hclose. cbn. exists [EvProbe (Some e)]. split; [done|by repeat constructor]. }
  destruct (probe_canceled e); [apply Hend|]. destruct (_ <? threshold); [by apply Hstep|apply Hend].
Qed.
End fresh.

(** ** The shape of a run *)

(** The participant announces this node: what peers decode is its identity and
    service address. *)
Definition advertises (node : CfgNode) (b : mlConfig) : Prop :=
  DecodeNodeMeta MetaMaxSize (ml_Meta b) =
    Ok (MkNodeMeta NodeMetaVersion RoleData (nd_NodeID node) (nd_Address node)).

(** A run is made of health probes and complete participant lives.  A life opens
    only right after a successful probe, advertises the node, joins, watches,
    and ends with one leave and one shutdown; only a run that has not returned may
    have an open life, as its last. *)
Inductive session (node : CfgNode) : bool → list side_event → Prop :=
| session_nil d : session node d []
| session_probe d e t : session node d t → session node d (EvProbe e :: t)
| session_life d b js ps timeout t :
    advertises node b → Forall is_join_call js → Forall is_probe ps → session node d t →
    session node d (EvProbe None :: EvStart b :: js ++ ps ++ EvCall (ml_Leave timeout) :: EvCall ml_Shutdown :: t)
| session_open b js ps :
    advertises node b → Forall is_join_call js → Forall is_probe ps →
    session node false (EvProbe None :: EvStart b :: js ++ ps).

Lemma session_probes node d es t : Forall is_probe es → session node d t → session node d (es ++ t).
Proof.
  intros HF Ht. induction HF as [|ev es Hev HF IH]; [done|].
  destruct ev; try done. by apply session_probe.
Qed.

Definition finished {A} (r : running A) : bool := match r.2 with Some _ => true | None => false end.

Lemma NewManager_fresh Create c m v b :
  NewManager (E := E) MetaMaxSize LabelMaxSize defaults Create c = Ok (m, v, b) →
  m_left m = false ∧ m_closed m = false ∧ (0 ≤ mc_LeaveTimeout c → 0 < m_leaveTimeout m) ∧
  EncodeNodeMeta MetaMaxSize (local_meta c) = Ok (ml_Meta b).
Proof.
  unfold NewManager. destruct (EncodeNodeMeta _ _) as [raw|]; [|done].
  destruct (validateConfig _ _); [|done]. destruct (Create _); [done|].
  intros [= <- <- <-]. split_and!; try done. cbn.
  unfold DefaultLeaveTimeout, Manager.second. case_bool; lia.
Qed.

Lemma newMembership_advertises Create cfg node o m v b :
  valid_utf8 (bytes_of_string (nd_Address node)) = true →
  NewManager (E := E) MetaMaxSize LabelMaxSize defaults Create (newMembership cfg node o) = Ok (m, v, b) →
  advertises node b.
Proof.
  intros Hutf (_ & _ & _ & Henc)%NewManager_fresh. by apply Encode_Decode in Henc.
Qed.

Lemma lives_session cfg node o deadline ls :
  valid_utf8 (bytes_of_string (nd_Address node)) = true → 0 ≤ so_leaveTimeout o →
  let r := lives cfg node o deadline ls in session node (finished r) (EvProbe None :: r.1).
Proof.
  intros Hutf Hlt. revert deadline. induction ls as [|l ls IH]; intros deadline.
  { apply session_probe, session_nil. }
  cbn [lives]. destruct (NewManager _ _ _ _ _) as [[[m v] b]|e] eqn:Hnew; [|apply session_probe, session_nil].
  pose proof (newMembership_advertises _ _ _ _ _ _ _ Hutf Hnew) as Hadv.
  apply NewManager_fresh in Hnew as (Hl & Hc & Ht & _). specialize (Ht Hlt).
  cbn zeta. unfold finished. cbn [emit fst snd].
  pose proof (joinUntil_trace m Hl Hc (bootstrapSeeds cfg (nd_NodeID node)) deadline (so_joinTimeout o)
    (so_joinRetry o) (lf_join l) None) as Hj.
  destruct (joinUntil _ _ _ _ _ _ _) as [js [j|]]; cbn [bind fst snd] in Hj |- *.
  2:{ pose proof (session_open node b js [] Hadv Hj (Forall_nil_2 _)) as Ho. by rewrite app_nil_r in Ho. }
  assert (Hclose : ∀ f : list E → running side_result, (∀ es, (f es).1 = [] ∧ is_Some (f es).2) →
    session node (match (bind (close_member m (lf_join_close l)) f).2 with Some _ => true | None => false end)
      (EvProbe None :: EvStart b :: js ++ (bind (close_member m (lf_join_close l)) f).1)).
  { intros f Hf. rewrite close_member_eq by done. cbn. destruct (Hf (errs (lf_join_close l).1 ++ errs (lf_join_close l).2))
      as [-> [x ->]]. by apply (session_life node true b js []); [| |constructor|apply session_nil]. }
  destruct j; [|by apply Hclose; intros es; destruct (join_canceled _); eauto..].
  pose proof (syncControlPlanes_trace m Hl Hc (ControlPlaneGossipSeeds cfg) deadline (so_joinTimeout o)
    (lf_sync l) 0) as Hsy.
  destruct (syncControlPlanes _ _ _ _ _ _) as [ss [n|]]; cbn [bind fst snd] in Hsy |- *.
  2:{ pose proof (session_open node b (js ++ ss) [] Hadv ltac:(by apply Forall_app) (Forall_nil_2 _)) as Ho.
      by rewrite app_nil_r in Ho. }
  pose proof (monitorNode_trace m Hl Hc node (so_failureThreshold o) (lf_monitor l) 0 Ht) as Hm.
  destruct (monitorNode _ _ _ _ _) as [ms [[failed es]|]]; cbn [bind fst snd] in Hm |- *.
  2:{ rewrite (app_assoc js ss ms). apply (session_open node b (js ++ ss) ms); [done| |done]. by apply Forall_app. }
  destruct Hm as (ps & -> & Hps).
  assert (Hlife : ∀ d t, session node d t →
    session node d (EvProbe None :: EvStart b :: js ++ ss ++ (ps ++ closing m) ++ t)).
  { intros d t Hd. replace (js ++ ss ++ (ps ++ closing m) ++ t) with
      ((js ++ ss) ++ ps ++ EvCall (ml_Leave (m_leaveTimeout m)) :: EvCall ml_Shutdown :: t)
      by (unfold closing; by rewrite <-!app_assoc).
    apply (session_life node d b (js ++ ss) ps); [done| |done|done]. by apply Forall_app. }
  case_bool_decide; [apply Hlife, session_nil|]. destruct failed; cbn [negb]; [|apply Hlife, session_nil].
  pose proof (waitForNode_trace node None (so_healthTimeout o) (so_joinRetry o) (lf_wait l) None) as Hw.
  cbn zeta in Hw. rewrite !bind_fst. unfold bind.
  destruct (waitForNode _ _ _ _ _ _) as [ws [[]|]]; cbn [fst snd] in Hw |- *.
  - destruct Hw as (es' & -> & Hes'). apply Hlife. rewrite <-app_assoc.
    apply session_probes; [done|]. apply IH.
  - apply Hlife. cbn. rewrite app_nil_r, <-(app_nil_r ws). by apply session_probes; [|apply session_nil].
  - apply Hlife. cbn. rewrite app_nil_r, <-(app_nil_r ws). by apply session_probes; [|apply session_nil].
  - apply Hlife. rewrite app_nil_r, <-(app_nil_r ws). by apply session_probes; [|apply session_nil].
Qed.

(** ** The watchdog *)

(** A tick that ends the loop without a withdrawal, and one that counts as a
    failure. *)
Definition stops (node : CfgNode) (i : mon_in) : bool :=
  match i with
  | MonDone _ => true
  | MonTick dial resp _ =>
      match probeNodeContext node dial resp with Some e => probe_canceled e | None => false end
  end.
Definition failing (node : CfgNode) (i : mon_in) : bool :=
  match i with
  | MonDone _ => false
  | MonTick dial resp _ =>
      match probeNodeContext node dial resp with Some e => negb (probe_canceled e) | None => false end
  end.

Lemma failing_runs node i : failing node i = true → stops node i = false.
Proof. destruct i as [|dial resp ?]; cbn; [done|]. destruct (probeNodeContext _ _ _); [|done]. by destruct (probe_canceled _). Qed.

Definition withdraws (r : running (bool * list E)) : Prop := ∃ es, r.2 = Some (true, es).

(** A window of [threshold] failures, before which nothing stopped the loop; or
    a window that completes [failures] earlier ones. *)
Definition failure_window node (threshold failures : Z) (ins : list mon_in) : Prop :=
  ∃ pre w post, ins = pre ++ w ++ post ∧
    Forall (fun i => stops node i = false) pre ∧ Forall (fun i => failing node i = true) w ∧
    (pre = [] ∧ Z.of_nat (length w) + failures = threshold ∨ Z.of_nat (length w) = threshold).

Lemma close_as_snd {A} (m : manager E) outcome (a : A) : ∃ es, (close_as m outcome a).2 = Some (a, es).
Proof. unfold close_as, close_member, bind. destruct (manager_step _ _) as [[? r] ?]. cbn. eauto. Qed.

Section window.
Context (node : CfgNode) (threshold : Z) (Hth : 0 < threshold).

Lemma window_nil failures : failures < threshold → ¬ failure_window node threshold failures [].
Proof using Hth.
  intros Hf (pre & w & post & Heq & _ & _ & Hor). symmetry in Heq.
  apply app_eq_nil in Heq as [-> [-> _]%app_eq_nil]. cbn in Hor. lia.
Qed.

Lemma window_stop i ins failures :
  failures < threshold → stops node i = true → ¬ failure_window node threshold failures (i :: ins).
Proof using Hth.
  intros Hf Hs (pre & w & post & Heq & Hpre & Hw & Hor). destruct pre as [|i' pre]; cbn in Heq.
  - destruct w as [|i' w]; cbn in *; [lia|]. simplify_eq. inversion Hw as [|? ? Hi].
    apply failing_runs in Hi. congruence.
  - simplify_eq. inversion Hpre. congruence.
Qed.

Lemma window_healthy i ins failures :
  failures < threshold → stops node i = false → failing node i = false →
  failure_window node threshold failures (i :: ins) ↔ failure_window node threshold 0 ins.
Proof using Hth.
  intros Hf Hs Hn. split; intros (pre & w & post & Heq & Hpre & Hw & Hor).
  - destruct pre as [|i' pre]; cbn in Heq.
    + destruct w as [|i' w]; cbn in *; [lia|]. simplify_eq. inversion Hw. congruence.
    + simplify_eq. inversion Hpre; subst. exists pre, w, post. split_and!; [done..|]. right. by destruct Hor as [[]|].
  - exists (i :: pre), w, post. split_and!; [by rewrite Heq|by constructor|done|]. right. lia.
Qed.

Lemma window_failing i ins failures :
  0 ≤ failures → failures + 1 < threshold → failing node i = true →
  failure_window node threshold failures (i :: ins) ↔ failure_window node threshold (failures + 1) ins.
Proof using Hth.
  intros H0 Hf Hn. split; intros (pre & w & post & Heq & Hpre & Hw & Hor).
  - destruct pre as [|i' pre]; cbn in Heq.
    + destruct w as [|i' w]; cbn in *; [lia|]. simplify_eq. inversion Hw; subst.
      destruct Hor as [[_ Hl]|Hl].
      * exists [], w, post. split_and!; [done..|]. left. split; [done|lia].
      * pose (k := Z.to_nat (threshold - failures - 1)).
        exists [], (take k w), (drop k w ++ post). split_and!; [|done|by apply Forall_take|].
        { cbn. by rewrite app_assoc, take_drop. }
        left. split; [done|]. rewrite length_take. lia.
    + simplify_eq. inversion Hpre; subst. exists pre, w, post. split_and!; [done..|]. right. by destruct Hor as [[]|].
  - destruct Hor as [[-> Hl]|Hl].
    + exists [], (i :: w), post. split_and!; [by rewrite Heq|done|by constructor|]. left. split; [done|cbn; lia].
    + exists (i :: pre), w, post. split_and!; [by rewrite Heq| |done|by right].
      constructor; [by apply failing_runs|done].
Qed.

Lemma monitorNode_window m ins failures :
  0 ≤ failures < threshold →
  withdraws (monitorNode m node threshold ins failures) ↔ failure_window node threshold failures ins.
Proof using Hth.
  revert failures. induction ins as [|i ins IH]; intros failures Hf.
  { split; [by intros [es [=]]|]. intros Hw%window_nil; [done|lia]. }
  assert (Hend : ∀ outcome, stops node i = true → (monitorNode m node threshold (i :: ins) failures).2 =
    (close_as m outcome false).2 →
    withdraws (monitorNode m node threshold (i :: ins) failures) ↔ failure_window node threshold failures (i :: ins)).
  { intros outcome Hs Heq. split; [|intros Hw%window_stop; [done|lia|done]].
    intros [es He]. destruct (close_as_snd m outcome false) as [es' He']. congruence. }
  destruct i as [outcome|dial resp outcome]; [by apply (Hend outcome)|].
  cbn [monitorNode] in *. cbn [stops] in Hend.
  destruct (probeNodeContext node dial resp) as [e|] eqn:Hp.
  2:{ rewrite window_healthy; [|lia|cbn; by rewrite Hp..]. apply IH. lia. }
  destruct (probe_canceled e) eqn:Hc; [by apply (Hend outcome)|].
  assert (Hfail : failing node (MonTick dial resp outcome) = true) by (cbn; by rewrite Hp, Hc).
  destruct (failures + 1 <? threshold) eqn:Hlt.
  { rewrite window_failing by (try done; lia). apply IH. lia. }
  split; intros _.
  - exists [], [MonTick dial resp outcome], ins. split_and!; [done|done|by repeat constructor|]. left. split; [done|cbn; lia].
  - destruct (close_as_snd m outcome true) as [es He]. by exists es.
Qed.
End window.

(** ** The startup budget *)

Section budget.
Context (d retry : Z) (Hretry : 0 < retry).

(** The clock moves forward and a timer fires no earlier than it was set for. *)
Definition fires_late (now : Z) (fin : wait_end) : Prop :=
  match fin, retry_wait (Some d) retry now with
  | TimerFired now', Some w => now + w ≤ now'
  | _, _ => True
  end.

Definition resumed (now : Z) (fin : wait_end) : Z := match fin with TimerFired now' => now' | CtxEnded => now end.

Fixpoint timely (t : Z) (rounds : list wait_round) : Prop :=
  match rounds with
  | [] => True
  | r :: rounds =>
      t ≤ wr_now2 r ∧ fires_late (wr_now2 r) (wr_end r) ∧ timely (resumed (wr_now2 r) (wr_end r)) rounds
  end.

Fixpoint timely_joins (seeds : list string) (t : Z) (rounds : list join_round) : Prop :=
  match rounds with
  | [] => True
  | r :: rounds =>
      (length seeds ≤ length (jr_seeds r))%nat ∧ t ≤ jr_now r ∧ fires_late (jr_now r) (jr_end r) ∧
      timely_joins seeds (resumed (jr_now r) (jr_end r)) rounds
  end.

(** A pause that lets the loop go on costs a whole retry interval. *)
Lemma waitRetry_ok now fin :
  fires_late now fin → waitRetry (Some d) retry now fin = WaitOk →
  now + retry ≤ resumed now fin < d.
Proof using Hretry.
  unfold fires_late, waitRetry, retry_wait, resumed. cbn zeta. destruct (d - now <=? 0) eqn:H1; [done|].
  destruct fin as [|now']; [done|]. destruct (now' <? d) eqn:H2; [|done]. cbn. intros Hf _.
  destruct (d - now <? retry) eqn:H3; lia.
Qed.

Lemma budget_step t now fin n :
  d < t + retry * Z.of_nat (S n) → t ≤ now → fires_late now fin →
  waitRetry (Some d) retry now fin = WaitOk →
  d < resumed now fin + retry * Z.of_nat n.
Proof using Hretry. intros Hb Ht Hf Hw. pose proof (waitRetry_ok _ _ Hf Hw). lia. Qed.

Lemma waitForNode_budget node rpcTimeout rounds t lastErr :
  timely t rounds → d < t + retry * Z.of_nat (length rounds) → rounds ≠ [] →
  is_Some (waitForNode node (Some d) rpcTimeout retry rounds lastErr).2.
Proof using Hretry.
  revert t lastErr. induction rounds as [|r rounds IH]; intros t lastErr Hti Hb Hne; [done|].
  destruct Hti as (Ht & Hf & Hti). cbn [waitForNode].
  destruct (boundedAttemptTimeout _ _ _); [|by eexists].
  destruct (probeNodeContext _ _ _) as [e|]; [|by eexists].
  destruct (probe_canceled e); [by eexists|].
  destruct (waitRetry _ _ _ _) eqn:Hw; [|by eexists..].
  pose proof (budget_step _ _ _ _ Hb Ht Hf Hw) as Hb'. cbn. apply (IH (resumed (wr_now2 r) (wr_end r))); [done..|].
  intros ->. pose proof (waitRetry_ok _ _ Hf Hw). cbn in Hb'. lia.
Qed.

Lemma join_seeds_returns (m : manager E) deadline jt seeds ins lastErr :
  (length seeds ≤ length ins)%nat → is_Some (join_seeds m deadline jt seeds ins lastErr).2.
Proof using.
  revert ins lastErr. induction seeds as [|seed seeds IH]; intros ins lastErr Hl; [by eexists|].
  destruct ins as [|i ins]; cbn in Hl; [lia|]. cbn [join_seeds].
  destruct (boundedAttemptTimeout _ _ _) as [a|]; [|by eexists].
  destruct (a <? jt); [by eexists|]. destruct (ji_done i); [by eexists|].
  destruct (join_call _ _ _) as [evs [n|e]]; [destruct (0 <? n); [by eexists|]|]; cbn; apply IH; lia.
Qed.

Lemma joinUntil_budget m seeds jt rounds t lastErr :
  timely_joins seeds t rounds → d < t + retry * Z.of_nat (length rounds) → rounds ≠ [] →
  is_Some (joinUntil m seeds (Some d) jt retry rounds lastErr).2.
Proof using Hretry.
  revert t lastErr. induction rounds as [|r rounds IH]; intros t lastErr Hti Hb Hne; [done|].
  destruct Hti as (Hl & Ht & Hf & Hti). cbn [joinUntil]. unfold bind.
  destruct (join_seeds_returns m (Some d) jt seeds (jr_seeds r) lastErr Hl) as [[j|le] ->]; [by eexists|].
  destruct (waitRetry _ _ _ _) eqn:Hw; [|by eexists..].
  pose proof (budget_step _ _ _ _ Hb Ht Hf Hw) as Hb'. cbn. apply (IH (resumed (jr_now r) (jr_end r))); [done..|].
  intros ->. pose proof (waitRetry_ok _ _ Hf Hw). cbn in Hb'. lia.
Qed.
End budget.
End sidecar.

(** ** Claims *)

Lemma loaded_node_address c id node :
  config_valid c → configuredNode c id = Some node →
  nd_NodeID node = id ∧ node_ok node ∧ valid_utf8 (bytes_of_string (nd_Address node)) = true.
Proof.
  intros Hv [Hin Hid]%find_some. apply bool_decide_eq_true in Hid.
  destruct (cv_nodes c Hv) as [_ HF]. rewrite Forall_forall in HF.
  assert (Hok : node_ok node) by (apply HF; by apply list_elem_of_In).
  split_and!; [done..|]. apply valid_utf8_ascii.
  destruct Hok as (_ & [Hp _] & _ & ip & Hip & _).
  eapply Forall_impl; [apply JoinHostPort_chars; [by exists ip|lia]|].
  intros b [Hg _]. unfold graphic in Hg. cbn in *. lia.
Qed.

Lemma validateOptions_nil o : validateOptions o = [] →
  0 < so_startupTimeout o ∧ 0 < so_joinRetry o ∧ 0 < so_joinTimeout o ∧
  0 < so_failureThreshold o ∧ 0 < so_leaveTimeout o.
Proof.
  unfold validateOptions, problem_if. intros H.
  repeat match type of H with context [if ?x <=? 0 then _ else _] => destruct (Z.leb_spec x 0) end;
    try (exfalso; apply (f_equal length) in H; rewrite !length_app in H; cbn in H; lia); lia.
Qed.

(** C13: the sidecar advertises its node only while it is entitled to.  In every
    run from a loaded configuration, whatever the node, the peers and the clock
    do: a gossip participant is started only directly after a successful health
    and identity probe; what it announces decodes at every peer to the configured
    node's identity and service address; and each participant is left and shut
    down exactly once, before the next one starts and before the process
    returns. *)
Theorem sidecar_session {E} (canceled : E → bool) MetaMaxSize LabelMaxSize defaults
    o opened decoded path cfg node now first ls
  (Hopts : validateOptions o = [])
  (Hload : Load opened decoded path = Ok cfg)
  (Hnode : configuredNode cfg (so_nodeID o) = Some node) :
  let r := side_run canceled MetaMaxSize LabelMaxSize defaults o (Load opened decoded path) now first ls in
  nd_NodeID node = so_nodeID o ∧ session MetaMaxSize node (finished r) r.1.
Proof.
  pose proof Hload as (_ & _ & _ & _ & Hv)%Load_Ok.
  destruct (loaded_node_address _ _ _ Hv Hnode) as (Hid & _ & Hutf).
  pose proof (validateOptions_nil o Hopts) as (_ & _ & _ & _ & Hlt).
  cbn zeta. split; [done|]. unfold side_run. rewrite Hopts, Hload, Hnode. unfold finished, bind.
  pose proof (waitForNode_trace canceled node (Some (now + so_startupTimeout o)) (so_healthTimeout o)
    (so_joinRetry o) first None) as Hw. cbn zeta in Hw.
  assert (Hprobes : ∀ d ws, Forall is_probe ws → session MetaMaxSize node d (E := E) ws).
  { intros d ws HF. rewrite <-(app_nil_r ws). apply session_probes; [done|constructor]. }
  destruct (waitForNode _ _ _ _ _ _ _) as [ws [[]|]]; cbn [fst snd ret] in Hw |- *;
    rewrite ?app_nil_r; [|by apply Hprobes..].
  destruct Hw as (es & -> & HF). rewrite <-app_assoc. apply session_probes; [done|].
  apply lives_session; [done|lia].
Qed.

Definition example_options : side_options :=
  MkSideOptions "node-1" 15000 200 3000 250 200 2 2000.

Definition healthy : result () (bool * string) := Ok (true, "node-1").
Definition tick (r : result () (bool * string)) : mon_in := MonTick None r (None, None).

(** A node that is up, fails twice, recovers, and is then watched again. *)
Definition example_lives : list (life (E := ())) :=
  [ MkLife None [MkJoinRound [MkJoinIn 50 false (1, None)] 60 (TimerFired 260)] (None, None)
      (replicate 3 (MkJoinIn 70 false (1, None)))
      [tick healthy; tick (Err ()); tick (Ok (true, "node-0"))]
      [MkWaitRound 100 None (Err ()) 100 (TimerFired 300); MkWaitRound 300 None healthy 300 CtxEnded];
    MkLife None [MkJoinRound [MkJoinIn 310 false (0, None); MkJoinIn 310 false (1, None)] 310 CtxEnded]
      (None, None) (replicate 3 (MkJoinIn 320 false (1, None))) [tick healthy] [] ].

Lemma sidecar_session_witness :
  ∃ cfg node, Load (E := ()) None (Ok example_config) "deploy/cluster.config.yaml" = Ok cfg ∧
    let r := side_run (fun _ => false) 512 255 (fun _ => example_ml) example_options (Ok cfg) 0
      [MkWaitRound 0 None healthy 0 CtxEnded] example_lives in
    length (List.filter (fun ev => match ev with EvStart _ => true | _ => false end) r.1) = 2%nat ∧
    session 512 node (finished r) r.1.
Proof.
  destruct (Load (E := ()) None (Ok example_config) "deploy/cluster.config.yaml") as [cfg|] eqn:Hl;
    [|exfalso; vm_compute in Hl; discriminate].
  assert (Hn : ∃ node, configuredNode cfg "node-1" = Some node).
  { assert (cfg = applyDefaults (with_path "deploy/cluster.config.yaml" example_config)) as ->
      by (vm_compute in Hl |- *; congruence). eexists. vm_compute. reflexivity. }
  destruct Hn as [node Hn]. exists cfg, node. split; [reflexivity|]. cbn zeta. split.
  - assert (cfg = applyDefaults (with_path "deploy/cluster.config.yaml" example_config)) as ->
      by (vm_compute in Hl |- *; congruence). vm_compute. reflexivity.
  - rewrite <-Hl. apply (sidecar_session (fun _ => false) 512 255 (fun _ => example_ml) example_options None
      (Ok example_config) "deploy/cluster.config.yaml" cfg node 0); [reflexivity|exact Hl|exact Hn].
Defined.

(** The watchdog withdraws the node exactly when it should: it leaves the
    ring because of the node if and only if some [--failure-threshold] consecutive
    probes failed before a shutdown signal; isolated failures, however many, never
    do. *)
Theorem monitor_withdraws {E} (canceled : E → bool) m node o ins
  (Hopts : validateOptions o = []) :
  withdraws (monitorNode canceled m node (so_failureThreshold o) ins 0) ↔
  ∃ pre w post, ins = pre ++ w ++ post ∧ Z.of_nat (length w) = so_failureThreshold o ∧
    Forall (fun i => stops canceled node i = false) pre ∧ Forall (fun i => failing canceled node i = true) w.
Proof.
  pose proof (validateOptions_nil o Hopts) as (_ & _ & _ & Hth & _).
  rewrite monitorNode_window by lia. split.
  - intros (pre & w & post & ? & ? & ? & Hor). exists pre, w, post. split_and!; [done| |done..]. lia.
  - intros (pre & w & post & ? & ? & ? & ?). exists pre, w, post. split_and!; [done..|]. by right.
Qed.

Lemma monitor_withdraws_witness :
  ∃ node : CfgNode, withdraws (monitorNode (E := ()) (fun _ => false) open_manager node
    (so_failureThreshold example_options)
    [tick (Err ()); tick healthy; tick (Err ()); tick (Ok (false, "node-1"))] 0).
Proof.
  exists (MkCfgNode "node-1" "127.0.0.1" 7101 7202).
  apply (monitor_withdraws (fun _ => false) open_manager _ example_options); [reflexivity|].
  exists [tick (Err ()); tick healthy], [tick (Err ()); tick (Ok (false, "node-1"))], [].
  repeat split; repeat constructor.
Defined.

(** Start-up cannot hang.  With a deadline, and timers that fire no earlier
    than they were set for, waiting for the node and joining the ring each return
    within [budget / retry + 1] rounds; each round that goes on has used a whole
    retry interval of the budget. *)
Theorem startup_terminates {E} (canceled : E → bool) (m : manager E) o node now rounds seeds t joins
  (Hopts : validateOptions o = []) :
  let d := now + so_startupTimeout o in
  let retry := so_joinRetry o in
  (timely d retry now rounds → so_startupTimeout o < retry * Z.of_nat (length rounds) →
   is_Some (waitForNode canceled node (Some d) (so_healthTimeout o) retry rounds None).2) ∧
  (now ≤ t → timely_joins d retry seeds t joins → so_startupTimeout o < retry * Z.of_nat (length joins) →
   is_Some (joinUntil m seeds (Some d) (so_joinTimeout o) retry joins None).2).
Proof.
  pose proof (validateOptions_nil o Hopts) as (Hs & Hr & _). cbn zeta.
  split; [intros Hti Hb|intros Ht Hti Hb].
  - eapply waitForNode_budget; [done|exact Hti|lia|]. intros ->. cbn in Hb. lia.
  - eapply joinUntil_budget; [done|exact Hti|lia|]. intros ->. cbn in Hb. lia.
Qed.

Lemma startup_terminates_witness :
  let rounds := (fun i => MkWaitRound (Z.of_nat i * 200) None (Err ()) (Z.of_nat i * 200)
                            (TimerFired (Z.of_nat (S i) * 200))) <$> seq 0 76 in
  is_Some (waitForNode (E := ()) (fun _ => false) (MkCfgNode "node-1" "127.0.0.1" 7101 7202) (Some 15000)
    200 200 rounds None).2.
Proof.
  apply (startup_terminates (fun _ => false) (open_manager) example_options
    (MkCfgNode "node-1" "127.0.0.1" 7101 7202) 0 _ [] 0 []); [reflexivity| |vm_compute; reflexivity].
  vm_compute. repeat split; discriminate.
Defined.
