(* ===== verification/Launch.v ===== *)
(** * Starting a control-plane replica ([cmd/controlplane/main.go])

    How one loaded configuration becomes the configurations of gossip, Raft, the
    bridge and the metadata service; the order in which [run] starts and stops
    them; the join loop of a replica; and the tab-separated inventory the deploy
    scripts read. *)

From S2P Require Import Prelude GoStd Json NodeMeta View Manager Fsm Store Bridge Service Topology Client.
From S2P Require Import Config Sidecar.
Local Open Scope Z_scope.

(** ** [path/filepath] on Unix *)

Definition slash : byte := x2f.

Fixpoint split_byte (c : byte) (l : bytes) : list bytes :=
  match l with
  | [] => [[]]
  | b :: l =>
      let r := split_byte c l in
      if bool_decide (b = c) then [] :: r
      else match r with x :: r => (b :: x) :: r | [] => [[b]] end
  end.

Fixpoint join_byte (c : byte) (l : list bytes) : bytes :=
  match l with
  | [] => []
  | [x] => x
  | x :: l => x ++ c :: join_byte c l
  end.

Definition dot : bytes := [x2e].
Definition dotdot : bytes := [x2e; x2e].

(** One element of the path, onto the cleaned elements so far (latest first). *)
Definition clean_step (rooted : bool) (out : list bytes) (elem : bytes) : list bytes :=
  if bool_decide (elem = [] ∨ elem = dot) then out
  else if bool_decide (elem = dotdot) then
    match out with
    | top :: rest => if bool_decide (top = dotdot) then elem :: out else rest
    | [] => if rooted then [] else [elem]
    end
  else elem :: out.

Definition is_rooted (l : bytes) : bool := bool_decide (head l = Some slash).

Definition render_path (rooted : bool) (out : list bytes) : bytes :=
  let text := join_byte slash (rev out) in
  if rooted then slash :: text else if bool_decide (text = []) then dot else text.

Definition Clean (l : bytes) : bytes :=
  render_path (is_rooted l) (foldl (clean_step (is_rooted l)) [] (split_byte slash l)).

Definition Dir (l : bytes) : bytes :=
  Clean (match last_index_byte slash l with Some i => take (S i) l | None => [] end).

(** [filepath.Join] of two elements. *)
Definition JoinPath (a b : bytes) : bytes :=
  if bool_decide (a = []) then (if bool_decide (b = []) then [] else Clean b)
  else Clean (join_byte slash [a; b]).

Definition IsAbs (l : bytes) : bool := is_rooted l.

(** ** Choosing the replica *)

Inductive select_error := NodeIDRequired (replicas : list string) | NotConfigured (id : string).

Definition selectReplica (cfg : Config) (nodeID : string) : result select_error ControlPlane :=
  if bool_decide (nodeID = "") then
    match cf_ControlPlanes cfg with
    | [r] => Ok r
    | _ => Err (NodeIDRequired (ControlPlaneIDs cfg))
    end
  else match ControlPlaneByID cfg nodeID with
       | Some r => Ok r
       | None => Err (NotConfigured nodeID)
       end.

Definition raftDataRoot (cfg : Config) : bytes :=
  let dir := bytes_of_string (rf_DataDir (cf_Raft cfg)) in
  if IsAbs dir then dir
  else
    let base := Dir (bytes_of_string (cf_Path cfg)) in
    let base := if bool_decide (base = []) then dot else base in
    JoinPath base dir.

Definition split_step (out : list string) (raw : string) : list string :=
  let value := TrimSpace raw in
  if bool_decide (value ≠ "") then out ++ [value] else out.
Definition splitCommaList (text : string) : list string := foldl split_step [] (Split_comma text).

Definition uniqueStrings (values : list string) : list string := foldl unique_step [] values.
Definition isLoopback (host : string) : bool :=
  match ParseIP host with None => false | Some ip => IsLoopback (Some ip) end.

(** ** The components' configurations *)

Definition DefaultTCPTimeout : Z := Manager.second.

Definition replica_dir (cfg : Config) (r : ControlPlane) : bytes :=
  JoinPath (raftDataRoot cfg) (bytes_of_string (cp_NodeID r)).

Definition gossip_config (cfg : Config) (r : ControlPlane) : MemberConfig :=
  MkMemberConfig ("controlplane:" +:+ cp_NodeID r +:+ "@" +:+ cp_GossipAddress r) RoleControl "" ""
    (cp_Host r) (cp_GossipPort r) (cp_Host r) (cp_GossipPort r) (cf_ClusterName cfg) []
    (isLoopback (cp_Host r)) 0 0 DefaultTCPTimeout 0 0 0 0.

Definition raft_peers (cfg : Config) : list Peer :=
  (fun entry => MkPeer (cp_NodeID entry) (cp_RaftAddress entry)) <$> cf_ControlPlanes cfg.

Definition store_config (cfg : Config) (r : ControlPlane) : StoreConfig :=
  MkStoreConfig (cp_NodeID r) (cp_RaftAddress r) (raft_peers cfg)
    (String.string_of_list_byte (replica_dir cfg r))
    (HeartbeatTimeout (cf_Raft cfg)) (ElectionTimeout (cf_Raft cfg)) (LeaderLeaseTimeout (cf_Raft cfg))
    (rf_SnapshotThreshold (cf_Raft cfg)) (ElectionTimeout (cf_Raft cfg)).

Definition bridge_config (cfg : Config) : BridgeConfig :=
  MkBridgeConfig true true (cf_ReplicationFactor cfg) (ProposeInterval (cf_Raft cfg)) 0.

Definition join_seeds_of (cfg : Config) (extraSeeds : list string) : list string :=
  uniqueStrings (extraSeeds ++ ControlPlaneGossipSeeds cfg ++ (nd_GossipAddress <$> cf_Nodes cfg)).

(** ** The inventory modes *)

Definition tab : byte := x09.
Definition newline : byte := x0a.

Definition print_line (id host : string) (port : Z) : bytes :=
  bytes_of_string id ++ tab :: bytes_of_string host ++ tab :: Itoa_bytes port ++ [newline].

Definition print_nodes (cfg : Config) : bytes :=
  concat ((fun n => print_line (nd_NodeID n) (nd_Host n) (nd_Port n)) <$> cf_Nodes cfg).
Definition print_control_plane (cfg : Config) : bytes :=
  concat ((fun r => print_line (cp_NodeID r) (cp_Host r) (cp_Port r)) <$> cf_ControlPlanes cfg).
Definition print_gossip (cfg : Config) : bytes :=
  concat ((fun r => print_line (cp_NodeID r) (cp_Host r) (cp_GossipPort r)) <$> cf_ControlPlanes cfg) ++
  concat ((fun n => print_line (nd_NodeID n) (nd_Host n) (nd_GossipPort n)) <$> cf_Nodes cfg).
Definition print_engine (cfg : Config) : bytes :=
  Itoa_bytes (en_RAMBudgetBytes (cf_Engine cfg)) ++ tab :: Itoa_bytes (en_MaxValueBytes (cf_Engine cfg)) ++
  tab :: bytes_of_string (en_DataRoot (cf_Engine cfg)) ++ [newline].
Definition print_replication (cfg : Config) : bytes := Itoa_bytes (cf_ReplicationFactor cfg) ++ [newline].
Definition print_raft (cfg : Config) : bytes :=
  concat ((fun r => print_line (cp_NodeID r) (cp_Host r) (cp_RaftPort r)) <$> cf_ControlPlanes cfg) ++
  x23 :: tab :: raftDataRoot cfg ++ [newline].

Record print_flags := MkPrintFlags {
  pf_nodes : bool; pf_controlPlane : bool; pf_engine : bool; pf_gossip : bool; pf_replication : bool;
  pf_raft : bool
}.

(** The [switch]: the first flag set, in its order. *)
Definition config_dump (f : print_flags) (cfg : Config) : option bytes :=
  if pf_nodes f then Some (print_nodes cfg)
  else if pf_controlPlane f then Some (print_control_plane cfg)
  else if pf_engine f then Some (print_engine cfg)
  else if pf_gossip f then Some (print_gossip cfg)
  else if pf_replication f then Some (print_replication cfg)
  else if pf_raft f then Some (print_raft cfg)
  else None.

(** ** The narrators: what each tick of the two logging loops prints *)

Fixpoint logMembershipChanges (last : Z) (ticks : list MemberSnapshot) : list (Z * list string) :=
  match ticks with
  | [] => []
  | snapshot :: ticks =>
      if ms_Generation snapshot =? last then logMembershipChanges last ticks
      else (ms_Generation snapshot, NodeID <$> ms_Nodes snapshot) ::
           logMembershipChanges (ms_Generation snapshot) ticks
  end.

Inductive leadership_line := NoLeader (term : Z) | ThisReplica (term : Z) | Following (id : string) (term : Z).

(** Each tick reads [Leader] and, only for a change, [IsLeader]. *)
Fixpoint logLeadershipChanges (lastID : string) (lastTerm : Z) (ticks : list (string * Z * bool))
    : list leadership_line :=
  match ticks with
  | [] => []
  | (id, term, isLeader) :: ticks =>
      if bool_decide (id = lastID) && (term =? lastTerm) then logLeadershipChanges lastID lastTerm ticks
      else (if bool_decide (id = "") then NoLeader term
            else if isLeader then ThisReplica term else Following id term)
           :: logLeadershipChanges id term ticks
  end.

(** ** The process *)

Section launch.
Context {E : Type}.

(** One seed of a pass: whether the context is done, and memberlist's answer. *)
Record seed_in := MkSeedIn { si_done : bool; si_outcome : Z * option E }.

(** The calls made, and the seed that answered; [inl ()] is a cancelled context. *)
Fixpoint try_seeds (m : manager E) (self : string) (seeds : list string) (ins : list seed_in)
    : running (E := E) (() + option string) :=
  match seeds, ins with
  | [], _ => ret (inr None)
  | _ :: _, [] => ([], None)
  | seed :: seeds, i :: ins =>
      if si_done i then ret (inl ())
      else if bool_decide (seed = self) then try_seeds m self seeds ins
      else
        let '(evs, r) := join_call m seed (si_outcome i) in
        emit evs match r with
                 | Ok _ => ret (inr (Some seed))
                 | Err _ => try_seeds m self seeds ins
                 end
  end.

(** [true] when every seed was gone through. *)
Fixpoint syncControlPlanePeers (m : manager E) (self alreadyJoined : string)
    (seeds : list string) (ins : list seed_in) : running (E := E) bool :=
  match seeds, ins with
  | [], _ => ret true
  | _ :: _, [] => ([], None)
  | seed :: seeds, i :: ins =>
      if si_done i then ret false
      else if bool_decide (seed = self ∨ seed = alreadyJoined)
      then syncControlPlanePeers m self alreadyJoined seeds ins
      else emit (join_call m seed (si_outcome i)).1 (syncControlPlanePeers m self alreadyJoined seeds ins)
  end.

(** A pass, and whether the timer (not the context) ended the pause after it. *)
Record join_pass := MkJoinPass { jp_seeds : list seed_in; jp_timer : bool }.

(** [Some true] when a seed answered and the replicas were gone through. *)
Fixpoint join_loop (m : manager E) (self : string) (seeds controlPlaneSeeds : list string)
    (passes : list join_pass) (sync : list seed_in) : running (E := E) bool :=
  match passes with
  | [] => ([], None)
  | p :: passes =>
      bind (try_seeds m self seeds (jp_seeds p)) (fun r =>
        match r with
        | inl () => ret false
        | inr (Some seed) => syncControlPlanePeers m self seed controlPlaneSeeds sync
        | inr None => if jp_timer p then join_loop m self seeds controlPlaneSeeds passes sync else ret false
        end)
  end.

Definition joinGossipPeers (m : manager E) (seeds controlPlaneSeeds : list string) (self : string)
    (passes : list join_pass) (sync : list seed_in) : running (E := E) bool :=
  if bool_decide (seeds = []) then ret false
  else join_loop m self seeds controlPlaneSeeds passes sync.

Inductive launch_event :=
| LnGossip (base : mlConfig) | LnStore (a : action) | LnListen (address : string)
| LnEvent (ev : side_event (E := E)).

Inductive launch_result :=
| GossipFailed (e : Manager.new_error E) | StoreFailed (e : start_error E) | BridgeFailed (e : bridge_error)
| ServiceFailed (e : new_service_error) | ListenFailed (e : E) | ServeEnded (e : option E).

(** What the outside answers: memberlist's [Create] and address, the calls of
    [metastore.New], [net.Listen], how serving ended, what the join goroutine
    saw until then, and the outcomes of leaving and shutting down. *)
Record launch_world := MkLaunchWorld {
  lw_create : option E; lw_self : string; lw_store : outcomes E; lw_listen : option E;
  lw_serve : option E; lw_passes : list join_pass; lw_sync : list seed_in; lw_close : option E * option E
}.

Context (MetaMaxSize LabelMaxSize : Z) (defaults : bool → mlConfig).

(** [run], with its deferred calls: [members.Close] last, before it
    [store.Close]; [svc.Close] does nothing. *)
Definition run (cfg : Config) (r : ControlPlane) (extraSeeds : list string) (w : launch_world)
    : list launch_event * launch_result :=
  match NewManager MetaMaxSize LabelMaxSize defaults (fun _ => lw_create w) (gossip_config cfg r) with
  | Err e => ([], GossipFailed e)
  | Ok (m, _, base) =>
      let close_gossip := LnEvent <$> (close_member m (lw_close w)).1 in
      let '(acts, st) := NewStore (lw_store w) (store_config cfg r) in
      let started := LnGossip base :: (LnStore <$> acts) in
      match st with
      | Err e => (started ++ close_gossip, StoreFailed e)
      | Ok store =>
          let close_all := (LnStore <$> store_close_actions (s_bolt store)) ++ close_gossip in
          match NewBridge (bridge_config cfg) with
          | Err e => (started ++ close_all, BridgeFailed e)
          | Ok _ =>
              match NewService (Some (cf_ShardCount cfg, cf_ReplicationFactor cfg)) (Some store) None with
              | Err e => (started ++ close_all, ServiceFailed e)
              | Ok _ =>
                  match lw_listen w with
                  | Some e => (started ++ close_all, ListenFailed e)
                  | None =>
                      let joins := joinGossipPeers m (join_seeds_of cfg extraSeeds)
                        (uniqueStrings (ControlPlaneGossipSeeds cfg)) (lw_self w) (lw_passes w) (lw_sync w) in
                      (started ++ LnListen (cp_Address r) :: (LnEvent <$> joins.1) ++ close_all,
                       ServeEnded (lw_serve w))
                  end
              end
          end
      end
  end.

(** ** [main]: overrides, then the replica *)

Definition with_factor (cfg : Config) (rf : Z) : Config :=
  MkConfig (cf_ControlPlanes cfg) (cf_ClusterName cfg) (cf_ShardCount cfg) (cf_Engine cfg) (cf_Raft cfg)
    (cf_Nodes cfg) (cf_ReplicationFactorSetting cfg) rf (cf_Path cfg).
Definition with_port (r : ControlPlane) (port : Z) : ControlPlane :=
  MkControlPlane (cp_NodeID r) (cp_Host r) port (cp_GossipPort r) (cp_RaftPort r).

Inductive main_error := MainLoad (e : load_error E) | MainFactor (ps : list cfg_problem) | MainSelect (e : select_error).

Definition main_config (loaded : result (load_error E) Config) (replicationOverride : Z)
    : result main_error Config :=
  match loaded with
  | Err e => Err (MainLoad e)
  | Ok cfg =>
      if 0 <=? replicationOverride then
        let cfg := with_factor cfg replicationOverride in
        match Config_Validate cfg with [] => Ok cfg | ps => Err (MainFactor ps) end
      else Ok cfg
  end.

Definition main_replica (cfg : Config) (nodeID : string) (portOverride : Z) : result main_error ControlPlane :=
  match selectReplica cfg nodeID with
  | Err e => Err (MainSelect e)
  | Ok r => Ok (if negb (portOverride =? 0) then with_port r portOverride else r)
  end.

Inductive main_outcome := Printed (out : bytes) | Ran (tr : list launch_event) (res : launch_result).

Definition controlplane_main (loaded : result (load_error E) Config) (replicationOverride : Z)
    (flags : print_flags) (nodeID : string) (portOverride : Z) (gossipJoin : string) (w : launch_world)
    : result main_error main_outcome :=
  match main_config loaded replicationOverride with
  | Err e => Err e
  | Ok cfg =>
      match config_dump flags cfg with
      | Some out => Ok (Printed out)
      | None =>
          match main_replica cfg nodeID portOverride with
          | Err e => Err e
          | Ok r => let '(tr, res) := run cfg r (splitCommaList gossipJoin) w in Ok (Ran tr res)
          end
      end
  end.
End launch.

(** ** Texts of a valid configuration *)

(** Printable ASCII that JSON does not escape. *)
Definition plain (b : byte) : Prop := graphic b ∧ html_safe b = true.

Lemma quote_plain l : Forall plain l → quote l = x22 :: l ++ [x22].
Proof.
  intros HF. unfold quote. do 2 f_equal. unfold quote_body.
  induction HF as [|a l [Hg Hs] HF IH]; [done|].
  change (a :: l) with ([a] ++ l).
  rewrite (chunks_cons a [] l), fmap_cons.
  2:{ intros r. unfold next_chunk. by rewrite (proj2 (Z.ltb_lt _ _)) by (unfold graphic in Hg; lia). }
  cbn [concat quote_chunk]. unfold quote_ascii. by rewrite Hs, IH.
Qed.

Lemma html_safe_spec b :
  32 ≤ byteZ b → byteZ b ≠ 34 → byteZ b ≠ 38 → byteZ b ≠ 60 → byteZ b ≠ 62 → byteZ b ≠ 92 →
  html_safe b = true.
Proof.
  intros. unfold html_safe. rewrite (proj2 (Z.leb_le _ _)) by lia. apply bool_decide_eq_true.
  intros Hin. repeat (apply elem_of_cons in Hin as [->|Hin]; [by vm_compute in *|]). by apply elem_of_nil in Hin.
Qed.

Lemma host_char_plain b : host_char b → plain b.
Proof. intros (Hg & ? & ? & ? & ? & ? & ? & ? & ?). split; [done|]. apply html_safe_spec; unfold graphic in Hg; lia. Qed.

Lemma id_char_plain b : id_char b = true → plain b.
Proof. unfold plain, graphic. by destruct b; vm_compute; intros; try done; split. Qed.

(** [net.JoinHostPort] of a literal IP and a port. *)
Lemma address_bytes h p : bytes_of_string (JoinHostPort h (Itoa p)) = JoinHostPort_bytes (bytes_of_string h) (Itoa_bytes p).
Proof. unfold JoinHostPort, Itoa, bytes_of_string. by rewrite !String.list_byte_of_string_of_list_byte. Qed.

Section address.
Context (h : string) (p : Z) (Hh : host_ok h) (Hp : port_ok p).

Lemma address_plain : Forall plain (bytes_of_string (JoinHostPort h (Itoa p))).
Proof using Hh Hp.
  destruct Hh as (ip & [Hc _]%ParseIP_chars & _). destruct Hp as [Hp0 _].
  assert (Hd : Forall host_char (Itoa_bytes p)) by (apply Itoa_chars; lia).
  rewrite address_bytes. unfold JoinHostPort_bytes.
  assert (∀ l, Forall host_char l → Forall plain l) as Hmono
    by (intros l Hl; eapply Forall_impl; [done|apply host_char_plain]).
  assert (plain x3a ∧ plain x5b ∧ plain x5d) as (? & ? & ?)
    by (split_and!; (split; [unfold graphic; by vm_compute|done])).
  case_bool_decide; repeat first [apply Forall_cons; split|apply Forall_app; split]; auto.
Qed.

Lemma address_length : (length (bytes_of_string (JoinHostPort h (Itoa p))) ≤ 73)%nat.
Proof using Hh Hp.
  destruct Hh as (ip & Hl%ParseIP_length & _).
  assert (Hd : (length (Itoa_bytes p) ≤ 5)%nat)
    by (apply Itoa_length; [destruct Hp as [? Hm]; unfold maxPort in Hm; cbn; lia|lia]).
  rewrite address_bytes. unfold JoinHostPort_bytes. case_bool_decide; cbn [length]; rewrite !length_app; cbn [length];
    [rewrite ?length_app; cbn [length]|]; lia.
Qed.

Lemma address_valid : address_ok (JoinHostPort h (Itoa p)).
Proof using Hh Hp.
  pose proof Hh as (ip & [Hc Hne]%ParseIP_chars & _). destruct Hp as [Hp0 Hp1]. unfold maxPort in Hp1.
  assert (Hd : Forall host_char (Itoa_bytes p)) by (apply Itoa_chars; lia).
  split.
  { apply TrimSpace_graphic. eapply Forall_impl; [exact address_plain|]. by intros b [? _]. }
  assert (Hnot : ∀ l c, Forall host_char l → ¬ host_char c → c ∉ l).
  { intros l c HF Hn Hin. rewrite Forall_forall in HF. by apply Hn, HF. }
  assert (Hsq : ¬ host_char x5b ∧ ¬ host_char x5d) by (split; intros (_ & _ & H1 & H2 & _); [by apply H1|by apply H2]).
  exists h, (Itoa p), p. split_and!; [| | |lia|lia].
  - unfold SplitHostPort. rewrite address_bytes, SplitHostPort_JoinHostPort_bytes; [cbn|..];
      try (by apply Hnot; [|apply Hsq]).
    + f_equal. f_equal. unfold bytes_of_string. by rewrite String.string_of_list_byte_of_string.
    + intros Hin. unfold Itoa_bytes in Hin. rewrite (proj2 (Z.ltb_ge p 0)) in Hin by lia.
      destruct (nat_digits_shape p) as (d & ds & Heq & HF & _); [lia|]. rewrite Heq in Hin.
      change (digit d :: map digit ds) with (digit <$> (d :: ds)) in Hin.
      apply list_elem_of_fmap in Hin as (x & Hx & Hin). rewrite Forall_forall in HF. specialize (HF _ Hin).
      apply (f_equal digit_val) in Hx. by rewrite digit_val_digit in Hx.
  - rewrite TrimSpace_graphic; [done|]. eapply Forall_impl; [exact Hc|]. by intros b [? _].
  - apply Atoi_Itoa. unfold in_i64. lia.
Qed.
End address.

Lemma id_plain id : nodeIDPattern id = true → Forall plain (bytes_of_string id).
Proof. intros Hc%nodeIDPattern_chars. eapply Forall_impl; [exact Hc|]. apply id_char_plain. Qed.

Lemma print_meta_length id a :
  Forall plain (bytes_of_string id) → Forall plain (bytes_of_string a) → id ≠ "" → a ≠ "" →
  length (print (meta_json (MkNodeMeta NodeMetaVersion RoleData id a))) =
    (53 + length (bytes_of_string id) + length (bytes_of_string a))%nat.
Proof.
  intros Hid Ha Hne Hae. unfold meta_json, opt_str. cbn [nm_NodeID nm_Address nm_Version nm_Role].
  rewrite !bool_decide_eq_false_2 by done. cbn [app print fmap list_fmap fst snd commas concat].
  rewrite (quote_plain _ Hid), (quote_plain _ Ha).
  assert (length (quote (name "version")) = 9%nat ∧ length (quote (name "role")) = 6%nat ∧
    length (quote (name "node_id")) = 9%nat ∧ length (quote (name "address")) = 9%nat ∧
    length (Itoa_bytes NodeMetaVersion) = 1%nat ∧ length (quote (bytes_of_string RoleData)) = 6%nat)
    as (H1 & H2 & H3 & H4 & H5 & H6) by (by vm_compute).
  rewrite ?app_nil_r. repeat (progress (rewrite ?length_app; cbn [length])). rewrite H1, H2, H3, H4, H5, H6. lia.
Qed.

(** ** What the components accept *)

Lemma peer_steps self ps problems seen found :
  Forall (fun p => peer_NodeID p ≠ "" ∧ peer_Address p ≠ "") ps →
  NoDup (peer_NodeID <$> ps) → Forall (fun p => peer_NodeID p ∉ seen) ps →
  ∃ seen', foldl (peer_step self) (problems, seen, found) ps =
    (problems, seen', found || bool_decide (self ∈ peer_NodeID <$> ps)).
Proof.
  revert seen found. induction ps as [|p ps IH]; intros seen found HF Hnd Hs.
  { exists seen. cbn. by rewrite orb_false_r. }
  apply Forall_cons in HF as [[H1 H2] HF]. apply Forall_cons in Hs as [Hs1 Hs].
  cbn in Hnd. apply NoDup_cons in Hnd as [Hn Hnd]. cbn [foldl peer_step].
  rewrite (bool_decide_eq_false_2 (_ ∨ _)) by tauto. rewrite bool_decide_eq_false_2 by done.
  destruct (IH ({[peer_NodeID p]} ∪ seen) (found || bool_decide (peer_NodeID p = self))) as [seen' ->].
  - done.
  - done.
  - rewrite Forall_forall in Hs |- *. intros q Hq [Hin%elem_of_singleton|Hin]%elem_of_union; [|by apply (Hs q)].
    apply Hn. rewrite <-Hin. by apply list_elem_of_fmap_2.
  - exists seen'. f_equal. rewrite <-orb_assoc. f_equal. cbn. rewrite <-bool_decide_or.
    apply bool_decide_ext. rewrite elem_of_cons. naive_solver.
Qed.

Section accepted.
Context {E : Type}.
(** memberlist's limits: [MetaMaxSize] is 512, [LabelMaxSize] 255. *)
Context (MetaMaxSize LabelMaxSize : Z) (Hmeta : 512 ≤ MetaMaxSize) (Hlabel : 255 ≤ LabelMaxSize).
Context (defaults : bool → mlConfig).

Lemma member_valid name role id addr host port label local tcp leave :
  name ≠ "" → Forall plain (bytes_of_string name) → host_ok host → port_ok port →
  label ≠ "" ∧ str_len label ≤ MaxClusterNameBytes → 0 ≤ tcp → 0 ≤ leave →
  validateConfig LabelMaxSize
    (MkMemberConfig name role id addr host port host port label [] local 0 0 tcp 0 0 0 leave) = [].
Proof using Hlabel.
  intros Hname Hpl (ip & Hip & _) [Hp0 Hp1] [Hl0 Hl1] Ht Hlv. unfold maxPort, MaxClusterNameBytes in *.
  assert (Htrim : TrimSpace name = name)
    by (apply TrimSpace_graphic; eapply Forall_impl; [exact Hpl|]; by intros b [? _]).
  assert (Hh : host ≠ "") by (by intros ->).
  unfold validateConfig. cbn -[Z.ltb Z.eqb Z.leb ParseIP TrimSpace str_len]. rewrite Htrim, Hip.
  rewrite (bool_decide_eq_false_2 (name = "")), (bool_decide_eq_false_2 (name ≠ name)),
    (bool_decide_eq_false_2 (host = "")), (bool_decide_eq_false_2 (label = "")),
    !(bool_decide_eq_false_2 (Some ip = None)) by (first [done|by intros H; apply H]).
  rewrite (proj2 (Z.ltb_ge port 0)), (proj2 (Z.ltb_ge 65535 port)), (proj2 (Z.eqb_neq port 0)),
    (proj2 (Z.ltb_ge LabelMaxSize _)), (proj2 (Z.ltb_ge tcp 0)), (proj2 (Z.ltb_ge leave 0)) by lia.
  rewrite !andb_false_r. reflexivity.
Qed.

Lemma NewManager_starts (Create : mlConfig → option E) c raw :
  EncodeNodeMeta MetaMaxSize (local_meta c) = Ok raw → validateConfig LabelMaxSize c = [] →
  ∀ e, NewManager MetaMaxSize LabelMaxSize defaults Create c = Err e →
       ∃ x, e = CreateFailed x ∧ Create (base_config defaults c raw) = Some x.
Proof using.
  intros Henc Hv e. unfold NewManager. rewrite Henc, Hv.
  destruct (Create _); [|done]. intros [= <-]. eauto.
Qed.

Section config.
Context (cfg : Config) (Hcfg : config_valid cfg).

Lemma gossip_valid r Create e :
  r ∈ cf_ControlPlanes cfg →
  NewManager MetaMaxSize LabelMaxSize defaults Create (gossip_config cfg r) = Err e →
  ∃ (x : E) b, e = CreateFailed x ∧ Create b = Some x.
Proof using Hmeta Hlabel Hcfg.
  intros Hr. destruct (cv_replicas cfg Hcfg) as [_ HF]. rewrite Forall_forall in HF.
  destruct (HF r Hr) as ([_ Hid] & _ & Hgp & _ & Hh). intros He.
  eapply NewManager_starts in He as (x & -> & Hx); [by eauto| |].
  - apply EncodeNodeMeta_Ok. split; [split; [done|by left]|]. split; [done|].
    etrans; [|exact Hmeta]. by vm_compute.
  - apply member_valid; [done| |done|done|apply (cv_name cfg Hcfg)|by vm_compute|done].
    rewrite !bytes_of_string_app. repeat (apply Forall_app; split).
    + repeat constructor; try done; unfold graphic; by vm_compute.
    + by apply id_plain.
    + repeat constructor; try done; unfold graphic; by vm_compute.
    + by apply address_plain.
Qed.

Lemma member_meta n :
  n ∈ cf_Nodes cfg →
  ∃ raw, EncodeNodeMeta MetaMaxSize (MkNodeMeta NodeMetaVersion RoleData (nd_NodeID n) (nd_Address n)) = Ok raw.
Proof using Hmeta Hcfg.
  intros Hn. destruct (cv_nodes cfg Hcfg) as [_ HF]. rewrite Forall_forall in HF.
  destruct (HF n Hn) as ([Hlen Hid] & Hp & _ & Hh). unfold MaxNodeIDBytes in Hlen.
  eexists. apply EncodeNodeMeta_Ok. split; [|split; [done|]].
  - split; [done|]. right. split_and!; [done..|by apply address_valid].
  - rewrite print_meta_length;
      [|by apply id_plain|by apply address_plain|by apply nodeIDPattern_nonempty|apply JoinHostPort_nonempty].
    pose proof (address_length _ _ Hh Hp) as Ha. unfold nd_Address, str_len in *. lia.
Qed.

Lemma sidecar_valid n o Create e :
  n ∈ cf_Nodes cfg → validateOptions o = [] →
  NewManager MetaMaxSize LabelMaxSize defaults Create (newMembership cfg n o) = Err e →
  ∃ (x : E) b, e = CreateFailed x ∧ Create b = Some x.
Proof using Hmeta Hlabel Hcfg.
  intros Hn Ho He. apply validateOptions_nil in Ho. destruct (member_meta n Hn) as [raw Henc].
  destruct (cv_nodes cfg Hcfg) as [_ HF]. rewrite Forall_forall in HF.
  destruct (HF n Hn) as ([_ Hid] & _ & Hgp & Hh).
  eapply (NewManager_starts _ _ raw) in He as (x & -> & Hx); [by eauto|done|].
  apply member_valid; [done| |done|done|apply (cv_name cfg Hcfg)|lia|lia].
  rewrite bytes_of_string_app. apply Forall_app. split; [|by apply id_plain].
  repeat constructor; try done; unfold graphic; by vm_compute.
Qed.

End config.
End accepted.

Lemma store_valid cfg r :
  config_valid cfg → r ∈ cf_ControlPlanes cfg → rf_ElectionTimeoutMillis (cf_Raft cfg) ≤ 9223372036854 →
  store_validate (store_config cfg r) = [].
Proof.
  intros Hcfg Hr Hmax. destruct (cv_replicas cfg Hcfg) as [Hne HF]. rewrite Forall_forall in HF.
  destruct (HF r Hr) as ([_ Hid] & _). pose proof (cv_raft cfg Hcfg) as (_ & Hmin & _).
  assert (Hids : peer_NodeID <$> raft_peers cfg = ControlPlaneIDs cfg)
    by (unfold raft_peers; by rewrite <-list_fmap_compose).
  destruct (peer_steps (cp_NodeID r) (raft_peers cfg) [] ∅ false) as [seen Hfold].
  - apply Forall_fmap, Forall_forall. intros q Hq. split; cbn; [|apply JoinHostPort_nonempty].
    destruct (HF q Hq) as ([_ Hqid] & _). by apply nodeIDPattern_nonempty.
  - rewrite Hids. apply (cv_replica_ids cfg Hcfg).
  - apply Forall_forall. set_solver.
  - unfold store_validate. cbn [sc_NodeID sc_Peers sc_BindAddress sc_HeartbeatTimeout sc_ElectionTimeout
      sc_LeaderLeaseTimeout sc_ApplyTimeout store_config]. rewrite Hfold, Hids.
    rewrite (bool_decide_eq_true_2 (_ ∈ _)) by (by apply list_elem_of_fmap_2).
    rewrite (bool_decide_eq_false_2 (cp_NodeID r = "")) by (by apply nodeIDPattern_nonempty).
    rewrite (bool_decide_eq_false_2 (cp_RaftAddress r = "")) by apply JoinHostPort_nonempty.
    rewrite (bool_decide_eq_false_2 (raft_peers cfg = []))
      by (unfold raft_peers; by destruct (cf_ControlPlanes cfg)).
    unfold HeartbeatTimeout, LeaderLeaseTimeout, ElectionTimeout.
    rewrite i64_id by (unfold in_i64, millisecond; lia). unfold millisecond.
    rewrite Z.quot_div_nonneg by lia. set (x := _ * 1000000) in *.
    assert (50000000 ≤ x) by (unfold x; lia).
    assert (0 < x / 2 ≤ x) by (split; [apply Z.div_str_pos; lia|apply Z.div_le_upper_bound; lia]).
    rewrite (proj2 (Z.leb_gt x 0)), (proj2 (Z.leb_gt (x / 2) 0)), (proj2 (Z.ltb_ge x (x / 2))) by lia.
    reflexivity.
Qed.

Lemma main_config_valid {E} (opened : option E) decoded path rf cfg :
  main_config (Load opened decoded path) rf = Ok cfg → config_valid cfg.
Proof.
  unfold main_config. destruct (Load _ _ _) as [c|] eqn:Hl; [|done].
  destruct (0 <=? rf).
  - destruct (Config_Validate _) eqn:Hv; [|done]. intros [= <-]. by apply Config_Validate_nil.
  - intros [= <-]. by apply Load_Ok in Hl as (_ & _ & _ & _ & ?).
Qed.

(** The replica [main] runs is a configured one, but for its gRPC port. *)
Lemma main_replica_configured {E} cfg id port r :
  main_replica (E := E) cfg id port = Ok r →
  ∃ r0, r0 ∈ cf_ControlPlanes cfg ∧ (id = "" ∨ cp_NodeID r0 = id) ∧ (r = r0 ∨ r = with_port r0 port).
Proof.
  unfold main_replica. destruct (selectReplica cfg id) as [r0|] eqn:Hs; [|done].
  intros [= <-]. exists r0. split; [|split; [|by destruct (negb _); auto]].
  - revert Hs. unfold selectReplica. case_bool_decide.
    + destruct (cf_ControlPlanes cfg) as [|x [|]]; try done. intros [= ->]. by left.
    + destruct (ControlPlaneByID _ _) eqn:Hf; [|done]. intros [= ->].
      by apply find_some in Hf as [?%list_elem_of_In _].
  - revert Hs. unfold selectReplica. case_bool_decide; [by left|].
    destruct (ControlPlaneByID _ _) eqn:Hf; [|done]. intros [= ->].
    apply find_some in Hf as [_ Hid%bool_decide_eq_true]. by right.
Qed.

Lemma NewStore_err {E} (o : outcomes E) c e ps :
  store_validate c = [] → (NewStore o c).2 = Err e → e ≠ StartInvalid ps.
Proof.
  intros Hv. unfold NewStore. rewrite Hv. intros He ->.
  repeat (case_match; simplify_eq; try done).
Qed.

(** C12: a configuration that loads, and whose election_timeout_ms and
    propose_interval_ms are at most 9223372036854 (so that they fit a
    [time.Duration]; [Load] does not check it), can be run.  With memberlist's
    documented limits (metadata of 512 bytes, labels of 255), every replica [main]
    selects, under any overrides it accepts, passes the checks of gossip, Raft,
    the bridge and the metadata service, so that a start fails only because
    memberlist, the Raft stores or the listener did; and so does the sidecar of
    every configured node. *)
Theorem loaded_config_starts {E} MetaMaxSize LabelMaxSize defaults
    (opened : option E) decoded path rf cfg flags id port joins (w : launch_world (E := E)) tr res
  (Hmeta : 512 ≤ MetaMaxSize) (Hlabel : 255 ≤ LabelMaxSize)
  (Hcfg : main_config (Load opened decoded path) rf = Ok cfg)
  (Hran : controlplane_main MetaMaxSize LabelMaxSize defaults (Load opened decoded path) rf flags id port joins w
            = Ok (Ran tr res))
  (Hel : rf_ElectionTimeoutMillis (cf_Raft cfg) ≤ 9223372036854)
  (Hprop : rf_ProposeIntervalMillis (cf_Raft cfg) ≤ 9223372036854) :
  match res with
  | GossipFailed e => ∃ x, e = CreateFailed x ∧ lw_create w = Some x
  | StoreFailed e => ∀ ps, e ≠ StartInvalid ps
  | BridgeFailed _ | ServiceFailed _ => False
  | ListenFailed x => lw_listen w = Some x
  | ServeEnded x => x = lw_serve w
  end ∧
  ∀ n o (Create : mlConfig → option E) e,
    n ∈ cf_Nodes cfg → validateOptions o = [] →
    NewManager MetaMaxSize LabelMaxSize defaults Create (newMembership cfg n o) = Err e →
    ∃ x b, e = CreateFailed x ∧ Create b = Some x.
Proof.
  apply main_config_valid in Hcfg as Hv. split; [|intros; by eapply sidecar_valid].
  unfold controlplane_main in Hran. rewrite Hcfg in Hran. destruct (config_dump _ _); [done|].
  destruct (main_replica cfg id port) as [r|] eqn:Hr; [|done].
  destruct (run _ _ _ _ _ _ _) as [tr' res'] eqn:Hrun. injection Hran as -> ->.
  assert (res = (run MetaMaxSize LabelMaxSize defaults cfg r (splitCommaList joins) w).2) as -> by (by rewrite Hrun).
  clear Hrun. apply main_replica_configured in Hr as (r0 & Hin & _ & Hr).
  assert (gossip_config cfg r = gossip_config cfg r0 ∧ store_config cfg r = store_config cfg r0)
    as [Hg Hs] by (by destruct Hr as [->| ->]).
  unfold run. rewrite Hg, Hs.
  destruct (NewManager _ _ _ _ (gossip_config cfg r0)) as [[[m v] base]|e] eqn:Hnew.
  2:{ eapply gossip_valid in Hnew as (x & b & -> & Hx); [by exists x|done..]. }
  pose proof (NewStore_err (lw_store w) (store_config cfg r0)) as Herr.
  destruct (NewStore _ _) as [acts [store|e]]; [|intros ps; by apply Herr; [apply store_valid|]].
  unfold NewBridge, bridge_config. cbn [bc_Store bc_Gossip bc_Interval bc_ReplicationFactor negb].
  destruct (cv_raft cfg Hv) as (_ & _ & Hpi). destruct (cv_factor cfg Hv) as [Hrf _].
  rewrite (proj2 (Z.leb_gt (ProposeInterval _) 0)).
  2:{ unfold ProposeInterval. rewrite i64_id; unfold in_i64, millisecond; lia. }
  rewrite (proj2 (Z.ltb_ge _ 0)) by done. unfold NewService.
  rewrite (proj2 (Z.eqb_neq _ 0)) by apply (cv_shards cfg Hv).
  rewrite (proj2 (Z.ltb_ge _ 0)) by done. by destruct (lw_listen w).
Qed.

Definition example_outcomes : outcomes () :=
  MkOutcomes () None None None None None None 0 (Ok false) None (fun _ => false).

Definition example_world : launch_world (E := ()) :=
  MkLaunchWorld None "127.0.0.1:7240" example_outcomes None None
    [MkJoinPass (replicate 5 (MkSeedIn false (0, Some ()))) true;
     MkJoinPass (replicate 5 (MkSeedIn false (1, None))) true]
    (replicate 3 (MkSeedIn false (1, None))) (None, None).

Definition the_config : Config := applyDefaults (with_path "deploy/cluster.config.yaml" example_config).

Definition no_flags : print_flags := MkPrintFlags false false false false false false.

Lemma loaded_config_starts_witness :
  ∃ tr res,
    controlplane_main 512 255 (fun _ => example_ml) (Ok the_config) 1 no_flags "cp-0" 9000
      " 127.0.0.1:9999,," example_world = Ok (Ran tr res) ∧
    match res with BridgeFailed _ | ServiceFailed _ => False | _ => True end.
Proof.
  destruct (controlplane_main 512 255 (fun _ => example_ml) (Ok the_config) 1 no_flags "cp-0" 9000
    " 127.0.0.1:9999,," example_world) as [[|tr res]|] eqn:Hm; [exfalso; vm_compute in Hm; discriminate| |
    exfalso; vm_compute in Hm; discriminate].
  exists tr, res. split; [reflexivity|].
  destruct (loaded_config_starts 512 255 (fun _ => example_ml) None (Ok example_config)
    "deploy/cluster.config.yaml" 1 (with_factor the_config 1) no_flags "cp-0" 9000 " 127.0.0.1:9999,,"
    example_world tr res) as [Hres _]; [lia|lia|vm_compute; reflexivity|exact Hm|vm_compute; discriminate..|].
  destruct res; [exact I|exact I|exact Hres|exact Hres|exact I|exact I].
Defined.

(** ** Cleaning up *)

Section cleanup.
Context {E : Type}.

Definition store_actions (tr : list (launch_event (E := E))) : list action :=
  omap (fun ev => match ev with LnStore a => Some a | _ => None end) tr.
Definition gossip_calls (tr : list (launch_event (E := E))) : list ml_call :=
  omap (fun ev => match ev with LnEvent (EvCall c) => Some c | _ => None end) tr.

Lemma store_actions_app t u : store_actions (t ++ u) = store_actions t ++ store_actions u.
Proof. apply omap_app. Qed.
Lemma gossip_calls_app t u : gossip_calls (t ++ u) = gossip_calls t ++ gossip_calls u.
Proof. apply omap_app. Qed.

Lemma store_actions_store l : store_actions (LnStore <$> l) = l ∧ gossip_calls (LnStore <$> l) = [].
Proof. induction l as [|a l [IH1 IH2]]; [done|]. split; cbn; [by f_equal|done]. Qed.

Lemma join_events_calls l :
  Forall is_join_call l → store_actions (LnEvent <$> l) = [] ∧ Forall is_join (gossip_calls (LnEvent <$> l)).
Proof.
  induction 1 as [|ev l Hev HF [IH1 IH2]]; [by split; [|constructor]|].
  destruct ev as [| |[]]; try done. split; cbn; [done|by constructor].
Qed.

Section fresh.
Context (m : manager E) (Hleft : m_left m = false) (Hclosed : m_closed m = false).

Lemma try_seeds_trace self seeds ins : Forall is_join_call (try_seeds m self seeds ins).1.
Proof using Hleft Hclosed.
  revert ins. induction seeds as [|seed seeds IH]; intros [|i ins]; try constructor. cbn [try_seeds].
  destruct (si_done i); [constructor|]. case_bool_decide; [apply IH|].
  pose proof (join_call_trace m Hleft Hclosed seed (si_outcome i)) as Hj.
  destruct (join_call _ _ _) as [evs r]. cbn in Hj |- *. apply Forall_app. split; [done|].
  destruct r; [constructor|apply IH].
Qed.

Lemma sync_trace self joined seeds ins : Forall is_join_call (syncControlPlanePeers m self joined seeds ins).1.
Proof using Hleft Hclosed.
  revert ins. induction seeds as [|seed seeds IH]; intros [|i ins]; try constructor. cbn [syncControlPlanePeers].
  destruct (si_done i); [constructor|]. case_bool_decide; [apply IH|].
  cbn. apply Forall_app. split; [by apply join_call_trace|apply IH].
Qed.

Lemma joinGossipPeers_trace seeds cps self passes sync :
  Forall is_join_call (joinGossipPeers m seeds cps self passes sync).1.
Proof using Hleft Hclosed.
  unfold joinGossipPeers. case_bool_decide as Hs; [constructor|]. clear Hs.
  induction passes as [|p passes IH]; [constructor|]. cbn [join_loop]. rewrite bind_fst.
  apply Forall_app. split; [apply try_seeds_trace|].
  destruct (try_seeds _ _ _ _).2 as [[[]|[seed|]]|]; try constructor; [apply sync_trace|].
  destruct (jp_timer p); [apply IH|constructor].
Qed.
End fresh.

Lemma left_open_app a b : left_open (a ++ b) = foldl track (left_open a) b.
Proof. unfold left_open. apply foldl_app. Qed.

(** What [NewStore] left open, [Store.Close] closes. *)
Lemma NewStore_closed (o : outcomes E) c :
  left_open ((NewStore o c).1 ++ match (NewStore o c).2 with Ok s => store_close_actions (s_bolt s) | Err _ => [] end)
  = ∅.
Proof.
  unfold NewStore, openStores.
  repeat (case_match; simplify_eq; try (vm_compute; reflexivity)).
Qed.
End cleanup.

(** C14: a control-plane process that ends has released everything.  Whatever
    fails and however serving ends, every transport, log store and Raft node the
    run opened is closed again, and the gossip participant, if it was created, saw
    only joins, then exactly one leave and one shutdown, as its last calls. *)
Theorem run_cleans_up {E} MetaMaxSize LabelMaxSize defaults cfg r seeds (w : launch_world (E := E)) :
  let tr := (run MetaMaxSize LabelMaxSize defaults cfg r seeds w).1 in
  left_open (store_actions tr) = ∅ ∧
  (tr = [] ∨ ∃ base rest js, tr = LnGossip base :: rest ∧ Forall is_join js ∧
    gossip_calls tr = js ++ [ml_Leave DefaultLeaveTimeout; ml_Shutdown]).
Proof.
  cbn zeta. unfold run. destruct (NewManager _ _ _ _ _) as [[[m v] base]|e] eqn:Hnew; [|by split; [|left]].
  assert (m = MkManager DefaultLeaveTimeout false None false []) as ->.
  { revert Hnew. unfold NewManager. destruct (EncodeNodeMeta _ _); [|done].
    destruct (validateConfig _ _); [|done]. destruct (lw_create w); [done|]. by intros [= <- _ _]. }
  clear Hnew. set (m := MkManager _ _ _ _ _).
  assert (Hclose : (close_member m (lw_close w)).1 = closing m) by (by rewrite close_member_eq).
  rewrite Hclose. pose proof (NewStore_closed (lw_store w) (store_config cfg r)) as Hst.
  destruct (NewStore _ _) as [acts st]. cbn [fst snd] in Hst.
  (** every branch: the store's actions, then joins, then the closing calls *)
  assert (Hshape : ∀ mid close,
    left_open (acts ++ close) = ∅ → store_actions mid = [] → Forall is_join (gossip_calls mid) →
    let tr := (LnGossip base :: (LnStore <$> acts)) ++ mid ++ (LnStore <$> close) ++ (LnEvent <$> closing m) in
    left_open (store_actions tr) = ∅ ∧
    (tr = [] ∨ ∃ base rest js, tr = LnGossip base :: rest ∧ Forall is_join js ∧
      gossip_calls tr = js ++ [ml_Leave DefaultLeaveTimeout; ml_Shutdown])).
  { intros mid close Hopen Hmid Hj. cbn zeta.
    pose proof (store_actions_store (E := E) acts) as [Ha1 Ha2].
    pose proof (store_actions_store (E := E) close) as [Hc1 Hc2].
    split.
    - rewrite !store_actions_app, Hmid, Hc1.
      change (store_actions (LnGossip base :: ?t)) with (store_actions t). rewrite Ha1.
      change (store_actions (LnEvent <$> closing m)) with (@nil action). by rewrite app_nil_r.
    - right. eexists base, _, (gossip_calls mid). split; [reflexivity|]. split; [done|].
      rewrite !gossip_calls_app, Hc2.
      change (gossip_calls (LnGossip base :: ?t)) with (gossip_calls t). by rewrite Ha2. }
  destruct st as [store|e].
  2:{ apply (Hshape [] []); [done|done|constructor]. }
  destruct (NewBridge _); [|apply (Hshape [] (store_close_actions (s_bolt store))); [done|done|constructor]].
  destruct (NewService _ _ _); [|apply (Hshape [] (store_close_actions (s_bolt store))); [done|done|constructor]].
  destruct (lw_listen w); [apply (Hshape [] (store_close_actions (s_bolt store))); [done|done|constructor]|].
  set (joins := joinGossipPeers _ _ _ _ _ _).
  assert (HJ : Forall is_join_call joins.1) by (by apply joinGossipPeers_trace).
  apply join_events_calls in HJ as [HJ1 HJ2].
  apply (Hshape (LnListen (cp_Address r) :: (LnEvent <$> joins.1)) (store_close_actions (s_bolt store))); done.
Qed.

(** ** Splitting *)

Lemma split_byte_app c a b : split_byte c (a ++ c :: b) = split_byte c a ++ split_byte c b.
Proof.
  induction a as [|x a IH]; cbn; [by rewrite bool_decide_eq_true_2|].
  rewrite IH. case_bool_decide; [done|]. destruct (split_byte c a) as [|y r] eqn:Ha; [|done].
  destruct a as [|z a]; [done|]. cbn in Ha. case_bool_decide; [done|]. by destruct (split_byte c a).
Qed.

Lemma split_byte_none c l : c ∉ l → split_byte c l = [l].
Proof.
  induction l as [|x l IH]; intros Hc; [done|]. apply not_elem_of_cons in Hc as [Hx Hl].
  cbn. by rewrite bool_decide_eq_false_2, IH by done.
Qed.

Lemma split_byte_join c l : l ≠ [] → Forall (fun x => c ∉ x) l → split_byte c (join_byte c l) = l.
Proof.
  induction l as [|x l IH]; [done|]. intros _ [Hx Hl]%Forall_cons.
  destruct l as [|y l]; [by apply split_byte_none|].
  change (join_byte c (x :: y :: l)) with (x ++ c :: join_byte c (y :: l)).
  rewrite split_byte_app, split_byte_none, IH by done. done.
Qed.

Lemma join_byte_snoc c l x : l ≠ [] → join_byte c (l ++ [x]) = join_byte c l ++ c :: x.
Proof.
  induction l as [|y l IH]; [done|]. intros _. destruct l as [|z l]; [done|].
  change ((y :: z :: l) ++ [x]) with (y :: (z :: l) ++ [x]).
  change (join_byte c (y :: (z :: l) ++ [x])) with (y ++ c :: join_byte c ((z :: l) ++ [x])).
  rewrite IH by done. change (join_byte c (y :: z :: l)) with (y ++ c :: join_byte c (z :: l)).
  by rewrite <-app_assoc.
Qed.

(** ** Cleaned paths *)

(** A stack of cleaned elements: [..] only at the bottom of a relative path. *)
Fixpoint normal (rooted : bool) (out : list bytes) : Prop :=
  match out with
  | [] => True
  | e :: rest =>
      e ≠ [] ∧ e ≠ dot ∧ slash ∉ e ∧ (e = dotdot → rooted = false ∧ Forall (.= dotdot) rest) ∧ normal rooted rest
  end.

Lemma clean_step_normal rooted out e : slash ∉ e → normal rooted out → normal rooted (clean_step rooted out e).
Proof.
  intros He Hn. unfold clean_step. case_bool_decide as H1; [done|].
  case_bool_decide as H2.
  - destruct out as [|top rest].
    + destruct rooted; [done|]. split_and!; [tauto|tauto|done| |done]. intros _. by split; [|constructor].
    + destruct Hn as (Hn1 & Hn2 & Hn3 & Htop & Hn). case_bool_decide as Ht; [|done].
      destruct (Htop Ht) as [-> HF]. split_and!; [tauto|tauto|done| |done..].
      intros _. split; [done|]. by constructor.
  - split_and!; [tauto|tauto|done|done|done].
Qed.

Lemma clean_steps_normal rooted out l :
  Forall (fun e => slash ∉ e) l → normal rooted out → normal rooted (foldl (clean_step rooted) out l).
Proof.
  intros HF. revert out. induction HF as [|e l He HF IH]; intros out Hn; [done|].
  cbn. by apply IH, clean_step_normal.
Qed.

(** Cleaning a cleaned stack rebuilds it. *)
Lemma clean_steps_rebuild rooted out : normal rooted out → foldl (clean_step rooted) [] (rev out) = out.
Proof.
  induction out as [|e rest IH]; [done|]. intros (H1 & H2 & _ & H3 & Hn).
  cbn. rewrite foldl_app, IH by done. cbn. unfold clean_step.
  rewrite bool_decide_eq_false_2 by tauto. case_bool_decide as He; [|done].
  destruct (H3 He) as [-> HF]. destruct rest as [|top rest]; [done|].
  apply Forall_cons in HF as [-> _]. by rewrite bool_decide_eq_true_2.
Qed.

Lemma split_byte_parts c l : Forall (fun x => c ∉ x) (split_byte c l).
Proof.
  induction l as [|x l IH]; cbn; [repeat constructor; set_solver|].
  case_bool_decide; [constructor; [set_solver|done]|].
  destruct (split_byte c l) as [|y r]; [repeat constructor; set_solver|].
  apply Forall_cons in IH as [Hy Hr]. constructor; [set_solver|done].
Qed.

Definition path_stack (l : bytes) : list bytes := foldl (clean_step (is_rooted l)) [] (split_byte slash l).

Lemma path_stack_normal l : normal (is_rooted l) (path_stack l).
Proof. apply clean_steps_normal; [apply split_byte_parts|done]. Qed.

(** The text before the last element. *)
Definition parent_text (rooted : bool) (out : list bytes) : bytes :=
  (if rooted then [slash] else []) ++ (if bool_decide (out = []) then [] else join_byte slash (rev out) ++ [slash]).

Lemma rev_not_nil {A} (x : A) l : rev (x :: l) ≠ [].
Proof. cbn. by destruct (rev l). Qed.

Lemma render_snoc rooted out e : e ≠ [] → render_path rooted (e :: out) = parent_text rooted out ++ e.
Proof.
  intros He. unfold render_path, parent_text. cbn [rev].
  destruct out as [|x out].
  - cbn. destruct rooted; [done|]. by rewrite bool_decide_eq_false_2.
  - rewrite (bool_decide_eq_false_2 (x :: out = [])) by done.
    rewrite join_byte_snoc by apply rev_not_nil.
    destruct rooted; [by rewrite <-!app_assoc|].
    rewrite bool_decide_eq_false_2 by (by intros [_ ?]%app_eq_nil). by rewrite <-!app_assoc.
Qed.

Lemma normal_Forall rooted out : normal rooted out → Forall (fun e => e ≠ [] ∧ slash ∉ e) out.
Proof. induction out as [|e out IH]; [constructor|]. intros (? & ? & ? & _ & ?). constructor; [done|]. by apply IH. Qed.

Lemma parent_rooted rooted out : normal rooted out → is_rooted (parent_text rooted out) = rooted.
Proof.
  intros HF%normal_Forall. unfold is_rooted, parent_text. destruct rooted; [done|].
  apply bool_decide_eq_false. destruct out as [|x out]; [done|].
  rewrite bool_decide_eq_false_2 by done. apply Forall_rev in HF. cbn [app].
  pose proof (rev_not_nil x out) as Hne. destruct (rev (x :: out)) as [|y l]; [done|].
  apply Forall_cons in HF as [[Hy0 Hy] _]. destruct y as [|b y]; [done|].
  assert (head (join_byte slash ((b :: y) :: l) ++ [slash]) = Some b) as -> by (by destruct l).
  intros [= ->]. apply Hy. by left.
Qed.

Lemma Clean_parent rooted out :
  normal rooted out → Clean (parent_text rooted out) = render_path rooted out.
Proof.
  intros Hn. unfold Clean. rewrite parent_rooted by done. f_equal.
  assert (Hsplit : foldl (clean_step rooted) [] (split_byte slash (parent_text rooted out)) =
    foldl (clean_step rooted) [] (rev out)).
  { pose proof (normal_Forall _ _ Hn) as HF. unfold parent_text.
    destruct out as [|x out]; [by destruct rooted|]. rewrite bool_decide_eq_false_2 by done.
    assert (Hs : split_byte slash (join_byte slash (rev (x :: out)) ++ [slash]) = rev (x :: out) ++ [[]]).
    { rewrite split_byte_app, split_byte_join; [done|apply rev_not_nil|].
      apply Forall_rev. eapply Forall_impl; [exact HF|]. by intros ? [_ ?]. }
    destruct rooted; cbn [app].
    - change (slash :: ?t) with ([] ++ slash :: t). rewrite split_byte_app, Hs, !foldl_app. done.
    - by rewrite Hs, foldl_app. }
  rewrite Hsplit. by apply clean_steps_rebuild.
Qed.

Section child.
Context (root id : bytes) (Hroot : root ≠ []) (Hne : id ≠ []) (Hd : id ≠ dot) (Hdd : id ≠ dotdot) (Hs : slash ∉ id).

Lemma JoinPath_child :
  JoinPath root id = parent_text (is_rooted root) (path_stack root) ++ id.
Proof using Hroot Hne Hd Hdd Hs.
  unfold JoinPath. rewrite bool_decide_eq_false_2 by done. unfold Clean. cbn [join_byte].
  assert (is_rooted (root ++ slash :: id) = is_rooted root) as -> by (by destruct root).
  rewrite split_byte_app, (split_byte_none _ id), foldl_app by done. fold (path_stack root).
  cbn [foldl]. unfold clean_step. rewrite !bool_decide_eq_false_2 by tauto. by apply render_snoc.
Qed.

(** The directory of a child is the cleaned parent. *)
Lemma Dir_child : Dir (JoinPath root id) = Clean root.
Proof using Hroot Hne Hd Hdd Hs.
  rewrite JoinPath_child. change (Clean root) with (render_path (is_rooted root) (path_stack root)).
  rewrite <-Clean_parent by apply path_stack_normal.
  set (p := parent_text _ _). unfold Dir. f_equal.
  assert (Hp : p = [] ∨ ∃ q, p = q ++ [slash]).
  { unfold p, parent_text. case_bool_decide; [|right; eexists; by rewrite app_assoc].
    rewrite app_nil_r. destruct (is_rooted root); [right; by exists []|by left]. }
  destruct Hp as [->|[q ->]].
  - cbn. by rewrite (proj2 (last_index_byte_None slash id) Hs).
  - rewrite <-app_assoc. cbn [app]. rewrite last_index_byte_app by done.
    change (slash :: id) with ([slash] ++ id). rewrite app_assoc.
    rewrite take_app_length'; [done|]. rewrite length_app. cbn. lia.
Qed.
End child.

Lemma id_path_element id :
  nodeIDPattern id = true →
  bytes_of_string id ≠ [] ∧ bytes_of_string id ≠ dot ∧ bytes_of_string id ≠ dotdot ∧ slash ∉ bytes_of_string id.
Proof.
  intros Hid. pose proof (nodeIDPattern_chars id Hid) as HF. unfold nodeIDPattern in Hid.
  destruct (bytes_of_string id) as [|b l]; [done|]. apply andb_true_iff in Hid as [Hb _].
  split; [done|]. split; [by intros [= -> _]|]. split; [by intros [= -> _]|].
  intros Hin. rewrite Forall_forall in HF. by specialize (HF _ Hin).
Qed.

Lemma Clean_nonempty l : Clean l ≠ [].
Proof.
  unfold Clean, render_path. destruct (is_rooted l); [done|]. by case_bool_decide.
Qed.

Lemma raftDataRoot_nonempty cfg : raftDataRoot cfg ≠ [].
Proof.
  unfold raftDataRoot. destruct (IsAbs _) eqn:Ha; [by intros H; rewrite H in Ha|].
  rewrite (bool_decide_eq_false_2 (Dir _ = [])) by apply Clean_nonempty. unfold JoinPath.
  rewrite bool_decide_eq_false_2 by apply Clean_nonempty. apply Clean_nonempty.
Qed.

(** Replicas never share Raft state on disk.  From any loaded configuration,
    wherever its data directory is, each replica's directory is a direct child of
    the resolved [raft.data_dir] (no node ID escapes it), and two replicas have two
    directories. *)
Theorem replica_dirs_disjoint {E} (opened : option E) decoded path cfg
  (Hload : Load opened decoded path = Ok cfg) :
  NoDup (replica_dir cfg <$> cf_ControlPlanes cfg) ∧
  Forall (fun r => Dir (replica_dir cfg r) = Clean (raftDataRoot cfg)) (cf_ControlPlanes cfg).
Proof.
  apply Load_Ok in Hload as (_ & _ & _ & _ & Hv).
  destruct (cv_replicas cfg Hv) as [_ HF]. rewrite Forall_forall in HF.
  pose proof (raftDataRoot_nonempty cfg) as Hroot.
  assert (Hchild : ∀ r, r ∈ cf_ControlPlanes cfg →
    replica_dir cfg r = parent_text (is_rooted (raftDataRoot cfg)) (path_stack (raftDataRoot cfg)) ++
      bytes_of_string (cp_NodeID r)).
  { intros r Hr. destruct (HF r Hr) as ([_ (? & ? & ? & ?)%id_path_element] & _). by apply JoinPath_child. }
  split.
  - apply NoDup_fmap_2_strong with (f := replica_dir cfg); [|].
    + intros r1 r2 H1 H2 Heq. rewrite (Hchild r1 H1), (Hchild r2 H2) in Heq.
      apply app_inv_head, (f_equal String.string_of_list_byte) in Heq.
      unfold bytes_of_string in Heq. rewrite !String.string_of_list_byte_of_string in Heq.
      apply list_elem_of_lookup in H1 as [i Hi], H2 as [j Hj].
      assert (i = j) as ->; [|congruence].
      eapply (NoDup_lookup (ControlPlaneIDs cfg) i j (cp_NodeID r1)); [apply (cv_replica_ids cfg Hv)| |];
        unfold ControlPlaneIDs; rewrite list_lookup_fmap; [by rewrite Hi|by rewrite Hj, Heq].
    + eapply NoDup_fmap_1, (cv_replica_ids cfg Hv).
  - apply Forall_forall. intros r Hr.
    destruct (HF r Hr) as ([_ (? & ? & ? & ?)%id_path_element] & _). by apply Dir_child.
Qed.

Lemma replica_dirs_disjoint_witness :
  NoDup (replica_dir the_config <$> cf_ControlPlanes the_config).
Proof.
  apply (replica_dirs_disjoint (E := ()) None (Ok example_config) "deploy/cluster.config.yaml" the_config).
  vm_compute. reflexivity.
Defined.

(** ** The inventory *)

(** What a script splitting on newlines and tabs reads. *)
Definition rows (text : bytes) : list (list bytes) :=
  split_byte tab <$> removelast (split_byte newline text).

Definition row (e : string * string * Z) : list bytes :=
  [bytes_of_string e.1.1; bytes_of_string e.1.2; Itoa_bytes e.2].

Definition print_entries (l : list (string * string * Z)) : bytes :=
  concat ((fun e => print_line e.1.1 e.1.2 e.2) <$> l).

Definition printable (e : string * string * Z) : Prop := id_ok e.1.1 ∧ host_ok e.1.2 ∧ port_ok e.2.

Lemma plain_not c l : Forall plain l → ¬ graphic c → c ∉ l.
Proof. intros HF Hc Hin. rewrite Forall_forall in HF. by destruct (HF _ Hin). Qed.

Lemma row_chars e : printable e → Forall (fun l => Forall plain l) (row e).
Proof.
  intros ([_ Hid] & (ip & [Hh _]%ParseIP_chars & _) & [Hp _]). unfold row.
  constructor; [by apply id_plain|]. constructor; [eapply Forall_impl; [exact Hh|apply host_char_plain]|].
  constructor; [|constructor]. eapply Forall_impl; [|apply host_char_plain]. apply Itoa_chars. cbn in Hp. lia.
Qed.

Lemma print_line_row e : print_line e.1.1 e.1.2 e.2 = join_byte tab (row e) ++ [newline].
Proof. unfold print_line, row. cbn [join_byte]. repeat (rewrite <-app_assoc; cbn [app]). done. Qed.

Lemma join_row_not c l : Forall (fun x => Forall plain x) l → ¬ graphic c → c ≠ tab → c ∉ join_byte tab l.
Proof.
  intros HF Hc Ht. induction HF as [|x l Hx HF IH]; [set_solver|].
  assert (c ∉ x) by (by apply plain_not). destruct l as [|y l]; [done|].
  change (join_byte tab (x :: y :: l)) with (x ++ tab :: join_byte tab (y :: l)). set_solver.
Qed.

Lemma rows_print l : Forall printable l → rows (print_entries l) = row <$> l.
Proof.
  intros HF. unfold rows, print_entries.
  assert (¬ graphic tab ∧ ¬ graphic newline) as [Htab Hnl] by (unfold graphic; split; intros [H _]; by vm_compute in H).
  assert (Hlines : split_byte newline (concat ((fun e => print_line e.1.1 e.1.2 e.2) <$> l)) =
    ((fun e => join_byte tab (row e)) <$> l) ++ [[]]).
  { induction HF as [|e l He HF IH]; [done|]. cbn [fmap list_fmap concat]. rewrite print_line_row, <-app_assoc.
    cbn [app]. rewrite split_byte_app, IH, split_byte_none; [done|]. by apply join_row_not; [apply row_chars| |]. }
  rewrite Hlines, removelast_last, <-list_fmap_compose. apply list_fmap_ext. intros i e Hi%list_elem_of_lookup_2.
  rewrite Forall_forall in HF. specialize (HF e Hi). apply row_chars in HF.
  apply (split_byte_join tab (row e)); [done|]. eapply Forall_impl; [exact HF|]. intros x Hx. by apply plain_not.
Qed.

Lemma concat_entries {A} (f : A → string * string * Z) (l : list A) :
  concat ((fun x => print_line (f x).1.1 (f x).1.2 (f x).2) <$> l) = print_entries (f <$> l).
Proof. unfold print_entries. by rewrite <-list_fmap_compose. Qed.

(** The inventory modes say what the server uses: a script that splits the
    output of [--print-nodes], [--print-control-plane] or [--print-gossip] on
    newlines and tabs gets back exactly the ID, host and port of every entry of the
    loaded configuration, in order. *)
Theorem inventory_roundtrip {E} (opened : option E) decoded path cfg
  (Hload : Load opened decoded path = Ok cfg) :
  rows (print_nodes cfg) = (fun n => row (nd_NodeID n, nd_Host n, nd_Port n)) <$> cf_Nodes cfg ∧
  rows (print_control_plane cfg) = (fun r => row (cp_NodeID r, cp_Host r, cp_Port r)) <$> cf_ControlPlanes cfg ∧
  rows (print_gossip cfg) =
    ((fun r => row (cp_NodeID r, cp_Host r, cp_GossipPort r)) <$> cf_ControlPlanes cfg) ++
    ((fun n => row (nd_NodeID n, nd_Host n, nd_GossipPort n)) <$> cf_Nodes cfg).
Proof.
  apply Load_Ok in Hload as (_ & _ & _ & _ & Hv).
  destruct (cv_replicas cfg Hv) as [_ HR]. destruct (cv_nodes cfg Hv) as [_ HN].
  unfold print_nodes, print_control_plane, print_gossip.
  rewrite (concat_entries (fun n => (nd_NodeID n, nd_Host n, nd_Port n))),
    (concat_entries (fun r => (cp_NodeID r, cp_Host r, cp_Port r))),
    (concat_entries (fun r => (cp_NodeID r, cp_Host r, cp_GossipPort r))),
    (concat_entries (fun n => (nd_NodeID n, nd_Host n, nd_GossipPort n))).
  unfold print_entries at 3 4. rewrite <-concat_app, <-fmap_app.
  fold (print_entries (((fun r => (cp_NodeID r, cp_Host r, cp_GossipPort r)) <$> cf_ControlPlanes cfg) ++
    ((fun n => (nd_NodeID n, nd_Host n, nd_GossipPort n)) <$> cf_Nodes cfg))).
  rewrite !rows_print, ?fmap_app, <-!list_fmap_compose; [done|..];
    repeat (apply Forall_app; split); apply Forall_fmap; eapply Forall_impl; try done;
    intros x; unfold replica_ok, node_ok, printable; cbn; tauto.
Qed.

Lemma inventory_roundtrip_witness :
  rows (print_nodes the_config) = [[name "node-0"; name "127.0.0.1"; name "7100"];
                                   [name "node-1"; name "127.0.0.1"; name "7101"]].
Proof.
  rewrite (proj1 (inventory_roundtrip (E := ()) None (Ok example_config) "deploy/cluster.config.yaml" the_config
    ltac:(vm_compute; reflexivity))). vm_compute. reflexivity.
Defined.

(** ** Joining *)

Section joining.
Context {E : Type} (m : manager E) (Hleft : m_left m = false) (Hclosed : m_closed m = false).

Definition dials (seed : string) : side_event (E := E) := EvCall (ml_Join [seed]).

Lemma join_call_eq seed outcome :
  join_call m seed outcome =
    ([dials seed], match outcome.2 with Some e => Err (JoinFailed e) | None => Ok outcome.1 end).
Proof using Hleft Hclosed.
  unfold join_call. destruct outcome as [n [e|]]; cbn; by rewrite Hclosed, Hleft.
Qed.

Lemma try_seeds_dials self seeds ins ev :
  ev ∈ (try_seeds m self seeds ins).1 → ∃ s, ev = dials s ∧ s ∈ seeds ∧ s ≠ self.
Proof using Hleft Hclosed.
  revert ins. induction seeds as [|seed seeds IH]; intros [|i ins]; cbn [try_seeds]; try by intros ?%elem_of_nil.
  destruct (si_done i); [by intros ?%elem_of_nil|]. case_bool_decide; [intros (? & ? & ? & ?)%IH; set_solver|].
  rewrite join_call_eq. cbn. intros [->|Hin]%elem_of_cons; [exists seed; set_solver|].
  destruct (si_outcome i).2; [apply IH in Hin as (? & ? & ? & ?); set_solver|by apply elem_of_nil in Hin].
Qed.

Lemma sync_dials self joined seeds ins ev :
  ev ∈ (syncControlPlanePeers m self joined seeds ins).1 → ∃ s, ev = dials s ∧ s ∈ seeds ∧ s ≠ self.
Proof using Hleft Hclosed.
  revert ins. induction seeds as [|seed seeds IH]; intros [|i ins]; cbn [syncControlPlanePeers];
    try by intros ?%elem_of_nil.
  destruct (si_done i); [by intros ?%elem_of_nil|].
  case_bool_decide as Hor; [intros (? & ? & ? & ?)%IH; set_solver|].
  rewrite join_call_eq. cbn. intros [->|(? & ? & ? & ?)%IH]%elem_of_cons; [|set_solver].
  exists seed. split_and!; [done|set_solver|tauto].
Qed.

Lemma try_seeds_answer self seeds ins s :
  (try_seeds m self seeds ins).2 = Some (inr (Some s)) → dials s ∈ (try_seeds m self seeds ins).1.
Proof using Hleft Hclosed.
  revert ins. induction seeds as [|seed seeds IH]; intros [|i ins]; cbn [try_seeds]; try done.
  destruct (si_done i); [done|]. case_bool_decide; [apply IH|].
  rewrite join_call_eq. destruct (si_outcome i).2; cbn; [intros Hr%IH; by right|]. intros [= ->]. by left.
Qed.

Lemma sync_complete self joined seeds ins c :
  (syncControlPlanePeers m self joined seeds ins).2 = Some true →
  c ∈ seeds → c ≠ self → c ≠ joined → dials c ∈ (syncControlPlanePeers m self joined seeds ins).1.
Proof using Hleft Hclosed.
  revert ins. induction seeds as [|seed seeds IH]; intros [|i ins]; cbn [syncControlPlanePeers];
    try by intros ? ?%elem_of_nil. { done. }
  destruct (si_done i); [done|]. rewrite join_call_eq.
  case_bool_decide as Hor; intros Hr Hin H1 H2; apply elem_of_cons in Hin as [->|Hin].
  - tauto.
  - by apply IH.
  - by left.
  - right. by apply IH.
Qed.

(** A pass in which nothing is cancelled, and one in which some peer answers. *)
Definition running_pass (seeds : list string) (ins : list (seed_in (E := E))) : Prop :=
  (length seeds ≤ length ins)%nat ∧ Forall (fun i => si_done i = false) ins.
Definition answered (self : string) (seeds : list string) (ins : list (seed_in (E := E))) : Prop :=
  ∃ k s i, seeds !! k = Some s ∧ ins !! k = Some i ∧ s ≠ self ∧ (si_outcome i).2 = None.

Lemma try_seeds_running self seeds ins :
  running_pass seeds ins →
  ∃ o, (try_seeds m self seeds ins).2 = Some (inr o) ∧ (answered self seeds ins → is_Some o).
Proof using Hleft Hclosed.
  revert ins. induction seeds as [|seed seeds IH]; intros ins [Hl HF].
  { exists None. split; [by destruct ins|]. intros (k & s & i & Hk & _). by destruct k. }
  destruct ins as [|i ins]; cbn in Hl; [lia|]. apply Forall_cons in HF as [Hd HF].
  destruct (IH ins) as (o & Ho & Hans); [split; [lia|done]|]. cbn [try_seeds]. rewrite Hd.
  assert (Htail : (seed = self ∨ is_Some (si_outcome i).2) → answered self (seed :: seeds) (i :: ins) → is_Some o).
  { intros Hor (k & s & j & Hk & Hj & Hs & Hn). apply Hans. destruct k as [|k]; cbn in *.
    - simplify_eq. destruct Hor as [->|[? ?]]; [done|congruence].
    - by exists k, s, j. }
  case_bool_decide; [exists o; split; [done|]; apply Htail; by left|].
  rewrite join_call_eq. destruct (si_outcome i).2 eqn:Hout; cbn.
  - exists o. split; [done|]. apply Htail. right. by eexists.
  - exists (Some seed). by split.
Qed.

Lemma sync_running self joined seeds ins :
  running_pass seeds ins → (syncControlPlanePeers m self joined seeds ins).2 = Some true.
Proof using Hleft Hclosed.
  revert ins. induction seeds as [|seed seeds IH]; intros ins [Hl HF]; [by destruct ins|].
  destruct ins as [|i ins]; cbn in Hl; [lia|]. apply Forall_cons in HF as [Hd HF].
  cbn [syncControlPlanePeers]. rewrite Hd. case_bool_decide; cbn; apply IH; by split; [lia|].
Qed.

Lemma join_loop_complete self seeds cps passes sync :
  let r := join_loop m self seeds cps passes sync in
  (∀ ev, ev ∈ r.1 → ∃ s, ev = dials s ∧ (s ∈ seeds ∨ s ∈ cps) ∧ s ≠ self) ∧
  (r.2 = Some true → ∀ c, c ∈ cps → c ≠ self → dials c ∈ r.1).
Proof using Hleft Hclosed.
  induction passes as [|p passes IH]; cbn zeta in *; [by split; [intros ? ?%elem_of_nil|]|].
  cbn [join_loop]. rewrite bind_fst. unfold bind.
  pose proof (try_seeds_dials self seeds (jp_seeds p)) as Ht.
  pose proof (try_seeds_answer self seeds (jp_seeds p)) as Ha.
  destruct (try_seeds _ _ _ _) as [t [[[]|[s|]]|]]; cbn [fst snd] in *.
  - rewrite app_nil_r. split; [|done]. intros ev (s & ? & ? & ?)%Ht; eauto.
  - pose proof (sync_dials self s cps sync) as Hs. pose proof (sync_complete self s cps sync) as Hc. split.
    + intros ev [(s' & ? & ? & ?)%Ht|(s' & ? & ? & ?)%Hs]%elem_of_app; eauto.
    + intros Hr c Hin Hself. apply elem_of_app. destruct (decide (c = s)) as [->|]; [left; by apply Ha|right; by apply Hc].
  - destruct IH as [IH1 IH2]. destruct (jp_timer p); cbn.
    + split; [intros ev [(s & ? & ? & ?)%Ht|Hin]%elem_of_app; eauto|].
      intros Hr c Hin Hself. apply elem_of_app. right. by apply IH2.
    + rewrite app_nil_r. split; [|done]. intros ev (s & ? & ? & ?)%Ht; eauto.
  - rewrite app_nil_r. split; [|done]. intros ev (s & ? & ? & ?)%Ht; eauto.
Qed.

Lemma join_loop_live self seeds cps passes sync :
  Forall (fun p => running_pass seeds (jp_seeds p) ∧ jp_timer p = true) passes →
  Exists (fun p => answered self seeds (jp_seeds p)) passes → running_pass cps sync →
  (join_loop m self seeds cps passes sync).2 = Some true.
Proof using Hleft Hclosed.
  intros HF Hex Hsync. induction HF as [|p passes [Hp Ht] HF IH]; [by apply Exists_nil in Hex|].
  cbn [join_loop]. unfold bind. destruct (try_seeds_running self seeds (jp_seeds p) Hp) as (o & -> & Ho).
  destruct o as [s|]; cbn; [by apply sync_running|]. rewrite Ht. apply Exists_cons in Hex as [Ha|Hex].
  - by destruct (Ho Ha).
  - by apply IH.
Qed.
End joining.

(** A replica that reattaches reaches every peer it must.  It dials only
    configured seeds and never itself; if, while it is not shut down, any seed
    ever answers, the loop ends, and by then it has exchanged state directly with
    every other control-plane replica, so that whichever becomes leader has been
    asked. *)
Theorem joinGossipPeers_complete {E} (m : manager E) seeds cps self passes sync
  (Hopen : m_left m = false ∧ m_closed m = false) :
  let r := joinGossipPeers m seeds cps self passes sync in
  (∀ ev, ev ∈ r.1 → ∃ s, ev = dials s ∧ (s ∈ seeds ∨ s ∈ cps) ∧ s ≠ self) ∧
  (Forall (fun p => running_pass seeds (jp_seeds p) ∧ jp_timer p = true) passes →
   Exists (fun p => answered self seeds (jp_seeds p)) passes → running_pass cps sync →
   r.2 = Some true ∧ ∀ c, c ∈ cps → c ≠ self → dials c ∈ r.1).
Proof.
  destruct Hopen as [Hl Hc]. cbn zeta. unfold joinGossipPeers. case_bool_decide as Hs.
  { split; [by intros ? ?%elem_of_nil|]. intros _ Hex. exfalso. subst.
    apply Exists_exists in Hex as (p & _ & k & s & i & Hk & _). by destruct k. }
  destruct (join_loop_complete m Hl Hc self seeds cps passes sync) as [H1 H2]. split; [done|].
  intros HF Hex Hsync. pose proof (join_loop_live m Hl Hc self seeds cps passes sync HF Hex Hsync) as Hr. eauto.
Qed.

Lemma joinGossipPeers_complete_witness :
  (joinGossipPeers open_manager ["a"; "b"; "c"] ["a"; "b"; "c"] "a"
    [MkJoinPass (replicate 3 (MkSeedIn false (0, Some ()))) true;
     MkJoinPass (replicate 3 (MkSeedIn false (1, None))) true] (replicate 3 (MkSeedIn false (1, None)))).2 = Some true.
Proof.
  apply (joinGossipPeers_complete open_manager); [by split| | |].
  - repeat constructor.
  - right. left. exists 1%nat, "b", (MkSeedIn false (1, None)). repeat split; discriminate.
  - repeat constructor.
Defined.
