(* ===== verification/Promexport.v ===== *)
(** * Prometheus text exposition ([internal/promexport/promexport.go])

    The writer the exporter and the load generator share, and what a scraper
    reads back from it.  Values are formatted by [%g], a parameter; label values
    go through [escapeLabel] and then [%q]. *)

From S2P Require Import Prelude GoStd Json.
Local Open Scope byte_scope.
Local Open Scope Z_scope.

(** [strings.ReplaceAll] of a one-byte pattern. *)
Definition replace_all (c : byte) (by_ : bytes) (l : bytes) : bytes :=
  concat ((fun b => if bool_decide (b = c) then by_ else [b]) <$> l).

Definition backslash : byte := x5c.
Definition dquote : byte := x22.
Definition linefeed : byte := x0a.

Definition escapeHelp (text : bytes) : bytes :=
  replace_all linefeed [backslash; "n"] (replace_all backslash [backslash; backslash] text).

Definition escapeLabel (value : bytes) : bytes :=
  replace_all linefeed [backslash; "n"]
    (replace_all dquote [backslash; dquote] (replace_all backslash [backslash; backslash] value)).

(** ** [%q]: [strconv.Quote] *)

Section quote.
(** [unicode.IsPrint] beyond ASCII. *)
Context (isPrint : Z → bool).

Definition hex2 (v : Z) : bytes := [hex_digit (v / 16 `mod` 16); hex_digit (v `mod` 16)].

(** The code point of a valid multi-byte rune. *)
Definition rune_of (l : bytes) : Z :=
  match l with
  | [a; b] => (byteZ a - 0xc0) * 64 + (byteZ b - 0x80)
  | [a; b; c] => ((byteZ a - 0xe0) * 64 + (byteZ b - 0x80)) * 64 + (byteZ c - 0x80)
  | [a; b; c; d] => (((byteZ a - 0xf0) * 64 + (byteZ b - 0x80)) * 64 + (byteZ c - 0x80)) * 64 + (byteZ d - 0x80)
  | _ => 0
  end.

Definition printable_ascii (b : byte) : bool := (32 <=? byteZ b) && (byteZ b <=? 126).

Definition quote_go_ascii (b : byte) : bytes :=
  if bool_decide (b = dquote ∨ b = backslash) then [backslash; b]
  else if printable_ascii b then [b]
  else if bool_decide (b = x07) then [backslash; "a"]
  else if bool_decide (b = x08) then [backslash; "b"]
  else if bool_decide (b = x0c) then [backslash; "f"]
  else if bool_decide (b = x0a) then [backslash; "n"]
  else if bool_decide (b = x0d) then [backslash; "r"]
  else if bool_decide (b = x09) then [backslash; "t"]
  else if bool_decide (b = x0b) then [backslash; "v"]
  else backslash :: "x" :: hex2 (byteZ b).

Definition quote_go_chunk (c : chunk) : bytes :=
  match c with
  | Invalid b => backslash :: "x" :: hex2 (byteZ b)
  | Rune [b] => quote_go_ascii b
  | Rune l =>
      let r := rune_of l in
      if isPrint r then l
      else if r <? 0x10000 then backslash :: "u" :: hex2 (r / 256) ++ hex2 r
      else backslash :: "U" :: hex2 (r / 256 / 65536) ++ hex2 (r / 65536) ++ hex2 (r / 256) ++ hex2 r
  end.

Definition Quote (l : bytes) : bytes := dquote :: concat (quote_go_chunk <$> chunks l) ++ [dquote].

(** ** The writer *)

(** [out.Help] and [out.Metric], in the order they were called. *)
Inductive item (F : Type) :=
| Help (name kind text : string)
| Metric (name : string) (labels : gmap string string) (value : F).
Arguments Help {F} _ _ _.
Arguments Metric {F} _ _ _.

Definition sorted_keys (labels : gmap string string) : list string :=
  sort_strings (map_to_list labels).*1.

Section render.
Context {F : Type} (fmt_g : F → bytes).

Definition label_pair (labels : gmap string string) (key : string) : bytes :=
  bytes_of_string key ++ x3d :: Quote (escapeLabel (bytes_of_string (default ""%string (labels !! key)))).

(** [strings.Join]. *)
Fixpoint join_with (sep : byte) (l : list bytes) : bytes :=
  match l with
  | [] => []
  | [x] => x
  | x :: l => x ++ sep :: join_with sep l
  end.

Definition render (i : item F) : bytes :=
  match i with
  | Help name kind text =>
      bytes_of_string "# HELP " ++ bytes_of_string name ++ x20 :: escapeHelp (bytes_of_string text) ++ linefeed ::
      bytes_of_string "# TYPE " ++ bytes_of_string name ++ x20 :: bytes_of_string kind ++ [linefeed]
  | Metric name labels value =>
      if bool_decide (labels = ∅) then bytes_of_string name ++ x20 :: fmt_g value ++ [linefeed]
      else bytes_of_string name ++ x7b :: join_with x2c (label_pair labels <$> sorted_keys labels) ++ x7d :: x20 ::
           fmt_g value ++ [linefeed]
  end.

(** [Writer.String]. *)
Definition Writer_String (items : list (item F)) : bytes := concat (render <$> items).
End render.

Definition With (base : gmap string string) (key value : string) : gmap string string := <[key := value]> base.

(** ** The scraper's side: the quoted label value of the exposition format *)

Fixpoint scrape_label (l : bytes) : option (bytes * bytes) :=
  match l with
  | [] => None
  | b :: l =>
      if bool_decide (b = dquote) then Some ([], l)
      else if bool_decide (b = backslash) then
        match l with
        | e :: l =>
            r ← (if bool_decide (e = backslash) then Some backslash
                 else if bool_decide (e = dquote) then Some dquote
                 else if bool_decide (e = "n") then Some linefeed else None);
            '(v, rest) ← scrape_label l; Some (r :: v, rest)
        | [] => None
        end
      else '(v, rest) ← scrape_label l; Some (b :: v, rest)
  end.

(** What is scraped from a quoted value: [None] when it is not well formed. *)
Definition scraped (quoted : bytes) : option bytes :=
  match quoted with
  | q :: l =>
      if bool_decide (q = dquote)
      then match scrape_label l with Some (v, []) => Some v | _ => None end
      else None
  | [] => None
  end.

(** ** Lemmas *)

Definition special (b : byte) : Prop := b = backslash ∨ b = dquote ∨ b = linefeed.
#[export] Instance special_dec b : Decision (special b).
Proof. unfold special. apply _. Defined.







(** ** Reading a quoted label back *)



















End quote.
Arguments Help {F} _ _ _.
Arguments Metric {F} _ _ _.


(** A Windows path is read back with its backslash doubled, and a tab is not read. *)
Example label_path_tab :
  scraped (Quote (fun _ => true) (escapeLabel (bytes_of_string "C:\data"))) =
    Some (bytes_of_string "C:\\data") ∧
  scraped (Quote (fun _ => true) (escapeLabel [x61; x09])) = None.
Proof. split; vm_compute; reflexivity. Qed.
