(* ===== verification/Exporter.v ===== *)
(** * The metrics exporter ([cmd/pulsekv-metrics/main.go])

    Scraping the replicas and nodes, the observations derived from one scrape to
    the next, the canary probe, the connection pool, and the exposition.  Answers
    of the cluster and the clock are inputs; times and durations are nanoseconds.
    A Go map is ranged over in an order that is an input.  A run that blocks (a
    poll not answered yet) or panics is a result of its own. *)

From S2P Require Import Prelude Sha256 Router Topology GoStd Transport Client Promexport.
Local Open Scope Z_scope.

Inductive outcome (A : Type) := Done (a : A) | Panicked | Blocked.
Arguments Done {A} a.
Arguments Panicked {A}.
Arguments Blocked {A}.

#[export] Instance outcome_bind : MBind outcome :=
  fun A B f m => match m with Done a => f a | Panicked => Panicked | Blocked => Blocked end.

(** ** Configuration *)

Record exporterConfig := MkExporterConfig {
  xc_controlPlanes : list string; xc_rpcTimeout : Z; xc_probeEnabled : bool; xc_probeValueSize : Z;
  xc_probeKeyPrefix : string; xc_replicationLagBudget : Z
}.

(** The fold of [splitList]: what is in [out] has been seen. *)
Definition split_list_step (out : list string) (raw : string) : list string :=
  let value := TrimSpace raw in
  if bool_decide (value = "") || bool_decide (value ∈ out) then out else out ++ [value].

Definition splitList (text : string) : list string := foldl split_list_step [] (Split_comma text).

(** ** Connections *)

(** A nil map is [None]: reading it finds nothing, assigning to it panics. *)
Record pool := MkPool { pl_conns : option (gmap string nat); pl_next : nat; pl_closed : list nat }.

Definition pool_map (p : pool) : gmap string nat := default ∅ (pl_conns p).

Section exporter.
Context {E : Type}.

(** [nodeClient], with the outcome of the dial it may make. *)
Definition nodeClient (p : pool) (address : string) (dial : option E) : outcome (pool * result E nat) :=
  match pool_map p !! address with
  | Some conn => Done (p, Ok conn)
  | None =>
      match dial with
      | Some e => Done (p, Err e)
      | None =>
          match pl_conns p with
          | None => Panicked
          | Some m =>
              Done (MkPool (Some (<[address := pl_next p]> m)) (S (pl_next p)) (pl_closed p), Ok (pl_next p))
          end
      end
  end.

Definition retainNodeConns (p : pool) (live : gset string) : pool :=
  match pl_conns p with
  | None => p
  | Some m =>
      MkPool (Some (filter (fun kv => kv.1 ∈ live) m)) (pl_next p)
        (pl_closed p ++ (map_to_list (filter (fun kv => kv.1 ∉ live) m)).*2)
  end.

(** The node half of [Close]. *)
Definition close_nodes (p : pool) : pool :=
  MkPool None (pl_next p) (pl_closed p ++ (map_to_list (pool_map p)).*2).

(** The dials of [newExporter]: replica [i] gets connection [i]; on failure those
    dialled are closed again. *)
Fixpoint dial_replicas (dial : string → option E) (addresses : list string) (acc : list (string * nat))
    : result (string * E) (list (string * nat)) * list nat :=
  match addresses with
  | [] => (Ok acc, [])
  | address :: addresses =>
      match dial address with
      | Some e => (Err (address, e), acc.*2)
      | None => dial_replicas dial addresses (acc ++ [(address, length acc)])
      end
  end.

(** [newExporter]: the replicas' connections and the empty pool, or the error and
    the connections closed again. *)
Definition newExporter (cfg : exporterConfig) (dial : string → option E)
    : result (string * E) (list (string * nat) * pool) * list nat :=
  let '(r, closed) := dial_replicas dial (xc_controlPlanes cfg) [] in
  (match r with Ok replicas => Ok (replicas, MkPool (Some ∅) 0 []) | Err e => Err e end, closed).

(** ** Scraping *)

Record replicaView := MkReplicaView {
  rv_address : string; rv_reachable : bool; rv_err : option (fetch_error E); rv_generation : Z;
  rv_fingerprint : bytes; rv_leaderID : string; rv_term : Z; rv_liveNodes : Z; rv_shardCount : Z;
  rv_nodes : gmap string string; rv_owners : gmap Z ShardOwners; rv_metadataLatency : Z
}.

(** The fingerprint is kept as bytes; [%x] is only how it is shown. *)
Definition scrapeReplica (address : string) (fetched : result (fetch_error E) Snapshot) (latency : Z)
    : replicaView :=
  match fetched with
  | Err e => MkReplicaView address false (Some e) 0 [] "" 0 0 0 ∅ ∅ latency
  | Ok s =>
      MkReplicaView address true None (Generation s) (SnapFingerprint s) (RaftLeaderID s) (RaftTerm s)
        (Z.of_nat (size (Nodes s))) (ShardCount s) (Nodes s) (Owners s) latency
  end.

Definition scrapeReplicas (addresses : list string)
    (answer : string → result (fetch_error E) Snapshot * Z) : gmap string replicaView :=
  foldl (fun views a => <[a := scrapeReplica a (answer a).1 (answer a).2]> views) ∅ addresses.

(** [nodev1.CapacityResponse]. *)
Record Capacity := MkCapacity {
  cp_residentKeys : Z; cp_bytesRAM : Z; cp_bytesNVMe : Z; cp_keysRAM : Z; cp_keysNVMe : Z; cp_spills : Z;
  cp_promotions : Z; cp_spillErrors : Z; cp_evictDrops : Z; cp_bulkWrites : Z; cp_bulkReads : Z;
  cp_bulkSharedMem : Z; cp_bulkFallbacks : Z
}.
Definition zero_capacity : Capacity := MkCapacity 0 0 0 0 0 0 0 0 0 0 0 0 0.

(** The counters copied from the response are grouped. *)
Record nodeMetrics := MkNodeMetrics {
  no_address : string; no_reachable : bool; no_uptime : Z; no_capacity : Capacity; no_capacityLatency : Z
}.

(** One node's answers: the dial, [HealthCheck] as [(ok, uptime)], [Capacity] and
    how long it took. *)
Record node_in := MkNodeIn {
  ni_dial : option E; ni_health : result E (bool * Z); ni_capacity : result E Capacity; ni_latency : Z
}.

Definition scrapeNode (p : pool) (address : string) (i : node_in) : outcome (pool * nodeMetrics) :=
  '(p, client) ← nodeClient p address (ni_dial i);
  Done (p,
    match client with
    | Err _ => MkNodeMetrics address false 0 zero_capacity 0
    | Ok _ =>
        match ni_health i with
        | Err _ => MkNodeMetrics address false 0 zero_capacity 0
        | Ok (ok, uptime) =>
            match ni_capacity i with
            | Err _ => MkNodeMetrics address ok uptime zero_capacity (ni_latency i)
            | Ok c => MkNodeMetrics address ok uptime c (ni_latency i)
            end
        end
    end).

Fixpoint scrape_each (p : pool) (nodes : list (string * string)) (answer : string → node_in)
    (scraped : gmap string nodeMetrics) : outcome (pool * gmap string nodeMetrics) :=
  match nodes with
  | [] => Done (p, scraped)
  | (id, address) :: nodes =>
      '(p, metrics) ← scrapeNode p address (answer id);
      scrape_each p nodes answer (<[id := metrics]> scraped)
  end.

(** The goroutines of [scrapeNodes] in the order they take the pool's lock. *)
Definition scrapeNodes (p : pool) (nodes : gmap string string) (order : list (string * string))
    (answer : string → node_in) : outcome (pool * gmap string nodeMetrics) :=
  scrape_each (retainNodeConns p (list_to_set (map_to_list nodes).*2)) order answer ∅.

(** ** Observations *)

Record leadership := MkLeadership {
  ld_currentLeader : string; ld_currentTerm : Z; ld_leaderSince : option Z; ld_leaderChanges : Z;
  ld_leaderAgreement : bool
}.

(** The loop: the first reachable view, and whether the others agree with it. *)
Definition leader_step (acc : option (string * Z) * bool) (view : replicaView) : option (string * Z) * bool :=
  let '(first, agreed) := acc in
  if negb (rv_reachable view) then acc
  else match first with
       | None => (Some (rv_leaderID view, rv_term view), agreed)
       | Some (leader, term) =>
           (first, if bool_decide (rv_leaderID view ≠ leader) || negb (rv_term view =? term) then false else agreed)
       end.

Definition observeLeadershipLocked (views : list replicaView) (now : Z) (l : leadership) : leadership :=
  match foldl leader_step (None, true) views with
  | (None, _) =>
      MkLeadership (ld_currentLeader l) (ld_currentTerm l) (ld_leaderSince l) (ld_leaderChanges l) false
  | (Some (leader, term), agreed) =>
      if bool_decide (leader ≠ ld_currentLeader l) || negb (term =? ld_currentTerm l) then
        MkLeadership leader term (Some now)
          (if bool_decide (ld_currentLeader l ≠ "") || negb (ld_currentTerm l =? 0)
           then u64 (ld_leaderChanges l + 1) else ld_leaderChanges l) agreed
      else MkLeadership (ld_currentLeader l) (ld_currentTerm l) (ld_leaderSince l) (ld_leaderChanges l) agreed
  end.

Record convergence := MkConvergence {
  gc_highestGeneration : Z; gc_generationFirstSeen : Z; gc_generationConverged : bool;
  gc_generationChanges : Z; gc_lastConvergence : Z; gc_maxConvergence : Z; gc_convergenceSamples : Z;
  gc_convergenceTotal : Z
}.

Definition highest_of (views : list replicaView) : Z :=
  foldl (fun h v => if negb (rv_reachable v) then h else if h <? rv_generation v then rv_generation v else h) 0 views.
Definition count_if (f : replicaView → bool) (views : list replicaView) : Z :=
  foldl (fun n v => if f v then n + 1 else n) 0 views.

Definition observeConvergenceLocked (views : list replicaView) (now : Z) (c : convergence) : convergence :=
  let highest := highest_of views in
  let reachable := count_if rv_reachable views in
  if reachable =? 0 then c
  else
    let agreedOnHighest := count_if (fun v => rv_reachable v && (rv_generation v =? highest)) views in
    if gc_highestGeneration c <? highest then
      MkConvergence highest now (agreedOnHighest =? reachable) (u64 (gc_generationChanges c + 1))
        (if agreedOnHighest =? reachable then 0 else gc_lastConvergence c) (gc_maxConvergence c)
        (gc_convergenceSamples c) (gc_convergenceTotal c)
    else if negb (gc_generationConverged c) && (agreedOnHighest =? reachable) && (1 <? reachable) then
      let last := now - gc_generationFirstSeen c in
      MkConvergence (gc_highestGeneration c) (gc_generationFirstSeen c) true (gc_generationChanges c) last
        (if gc_maxConvergence c <? last then last else gc_maxConvergence c)
        (u64 (gc_convergenceSamples c + 1)) (gc_convergenceTotal c + last)
    else c.

(** ** The probe *)

Record replicaLag := MkReplicaLag {
  lag_duration : Z; lag_timedOut : bool; lag_observed : Z; lag_forShard : Z; lag_forHolder : string
}.

(** One turn of the poll loop: the clock at its test, the answer, the clock when
    the turn ends, whether the context ended the pause. *)
Record poll := MkPoll { po_now : Z; po_get : result E (option bytes); po_after : Z; po_done : bool }.

Fixpoint poll_loop (deadline writtenAt : Z) (polls : list poll) : outcome replicaLag :=
  match polls with
  | [] => Blocked
  | p :: polls =>
      if negb (po_now p <? deadline) then Done (MkReplicaLag 0 true (po_after p) 0 "")
      else match po_get p with
           | Ok (Some _) => Done (MkReplicaLag (po_after p - writtenAt) false (po_after p) 0 "")
           | _ => if po_done p then Done (MkReplicaLag 0 true (po_after p) 0 "")
                  else poll_loop deadline writtenAt polls
           end
  end.

Definition measureReplicationLag (cfg : exporterConfig) (p : pool) (address : string) (dial : option E)
    (start writtenAt : Z) (polls : list poll) : outcome (pool * replicaLag) :=
  '(p, client) ← nodeClient p address dial;
  match client with
  | Err _ => Done (p, MkReplicaLag 0 true start 0 "")
  | Ok _ =>
      lag ← poll_loop (start + xc_replicationLagBudget cfg) writtenAt polls;
      Done (p, lag)
  end.

Record probe_stats := MkProbeStats {
  pb_probes : Z; pb_hits : Z; pb_misses : Z; pb_mismatches : Z; pb_writeErrors : Z; pb_readErrors : Z;
  pb_metadataLatency : Z; pb_writeLatency : Z; pb_readLatency : Z
}.

(** The [make] of a negative length panics; see [probeOnce]. *)
Definition probe_value (size : Z) : bytes := (fun i => byte_of_Z (i * 31)) <$> seqZ 0 size.

(** [e.state.probes++], the latencies, and the write's error. *)
Definition note_write (s : probe_stats) (metadata write : Z) (failed : bool) : probe_stats :=
  MkProbeStats (u64 (pb_probes s + 1)) (pb_hits s) (pb_misses s) (pb_mismatches s)
    (if failed then u64 (pb_writeErrors s + 1) else pb_writeErrors s) (pb_readErrors s)
    metadata write (pb_readLatency s).

Definition note_read (s : probe_stats) (value : bytes) (read : result E (option bytes)) (latency : Z)
    : probe_stats :=
  let bump hit miss mismatch err :=
    MkProbeStats (pb_probes s) (u64 (pb_hits s + hit)) (u64 (pb_misses s + miss))
      (u64 (pb_mismatches s + mismatch)) (pb_writeErrors s) (u64 (pb_readErrors s + err))
      (pb_metadataLatency s) (pb_writeLatency s) latency in
  match read with
  | Err _ => bump 0 0 0 1
  | Ok None => bump 0 1 0 0
  | Ok (Some got) => if bool_decide (length got ≠ length value) then bump 0 0 1 0 else bump 1 0 0 0
  end.

(** ** State *)

Record metricState := MkMetricState {
  xs_startedAt : Z; xs_lastScrape : Z; xs_scrapes : Z;
  xs_replicaViews : gmap string replicaView; xs_nodes : gmap string nodeMetrics;
  xs_shardCount : Z; xs_owners : gmap Z ShardOwners;
  xs_leadership : leadership; xs_convergence : convergence; xs_probe : probe_stats;
  xs_replicationLag : gmap string replicaLag
}.

(** The views of a map in the order given. *)
Definition views_in (views : gmap string replicaView) (order : list string) : list replicaView :=
  omap (fun a => views !! a) order.

Definition usable (v : replicaView) : bool := rv_reachable v && negb (bool_decide (rv_nodes v = ∅)).

Record scrape_in := MkScrapeIn {
  sn_now : Z; sn_answer : string → result (fetch_error E) Snapshot * Z;
  sn_order : list string; sn_nodeOrder : gmap string string → list (string * string); sn_node : string → node_in
}.

Definition observe (s : metricState) (views : gmap string replicaView) (i : scrape_in) : metricState :=
  let vs := views_in views (sn_order i) in
  MkMetricState (xs_startedAt s) (sn_now i) (u64 (xs_scrapes s + 1)) views (xs_nodes s) (xs_shardCount s)
    (xs_owners s) (observeLeadershipLocked vs (sn_now i) (xs_leadership s))
    (observeConvergenceLocked vs (sn_now i) (xs_convergence s)) (xs_probe s) (xs_replicationLag s).

Definition scrapeOnce (cfg : exporterConfig) (e : pool * metricState) (i : scrape_in)
    : outcome (pool * metricState) :=
  let '(p, s) := e in
  let views := scrapeReplicas (xc_controlPlanes cfg) (sn_answer i) in
  let s := observe s views i in
  match List.find usable (views_in views (sn_order i)) with
  | None => Done (p, s)
  | Some view =>
      '(p, nodes) ← scrapeNodes p (rv_nodes view) (sn_nodeOrder i (rv_nodes view)) (sn_node i);
      Done (p, MkMetricState (xs_startedAt s) (xs_lastScrape s) (xs_scrapes s) (xs_replicaViews s) nodes
                 (rv_shardCount view) (rv_owners view) (xs_leadership s) (xs_convergence s) (xs_probe s)
                 (xs_replicationLag s))
  end.

Record probe_in := MkProbeIn {
  pi_order : list string; pi_key : bytes; pi_dial : string → option E;
  pi_writeStart : Z; pi_write : option E; pi_writeLatency : Z;
  pi_read : result E (option bytes); pi_readLatency : Z;
  pi_lagStart : string → Z; pi_polls : string → list poll
}.

Definition set_probe (s : metricState) (b : probe_stats) : metricState :=
  MkMetricState (xs_startedAt s) (xs_lastScrape s) (xs_scrapes s) (xs_replicaViews s) (xs_nodes s)
    (xs_shardCount s) (xs_owners s) (xs_leadership s) (xs_convergence s) b (xs_replicationLag s).
Definition set_lag (s : metricState) (id : string) (lag : replicaLag) : metricState :=
  MkMetricState (xs_startedAt s) (xs_lastScrape s) (xs_scrapes s) (xs_replicaViews s) (xs_nodes s)
    (xs_shardCount s) (xs_owners s) (xs_leadership s) (xs_convergence s) (xs_probe s)
    (<[id := lag]> (xs_replicationLag s)).

(** The loop over the replicas of the canary's shard. *)
Fixpoint measure_lags (cfg : exporterConfig) (e : pool * metricState) (i : probe_in) (view : replicaView)
    (shard : Z) (replicas : list string) : outcome (pool * metricState) :=
  match replicas with
  | [] => Done e
  | id :: replicas =>
      let address := default "" (rv_nodes view !! id) in
      if bool_decide (address = "") then measure_lags cfg e i view shard replicas
      else
        '(p, lag) ← measureReplicationLag cfg e.1 address (pi_dial i address) (pi_lagStart i id)
                      (pi_writeStart i) (pi_polls i id);
        measure_lags cfg
          (p, set_lag e.2 id (MkReplicaLag (lag_duration lag) (lag_timedOut lag) (lag_observed lag) shard id))
          i view shard replicas
  end.

Definition probeOnce (cfg : exporterConfig) (e : pool * metricState) (i : probe_in) : outcome (pool * metricState) :=
  let '(p, s) := e in
  match List.find usable (views_in (xs_replicaViews s) (pi_order i)) with
  | None => Done e
  | Some view =>
      if rv_shardCount view =? 0 then Done e
      else
        let shard := ShardForKey (pi_key i) (rv_shardCount view) in
        match rv_owners view !! shard with
        | None => Done e
        | Some placement =>
            let primaryAddress := default "" (rv_nodes view !! Primary placement) in
            if bool_decide (primaryAddress = "") then Done e
            else
              '(p, primary) ← nodeClient p primaryAddress (pi_dial i primaryAddress);
              match primary with
              | Err _ => Done (p, s)
              | Ok _ =>
                  if xc_probeValueSize cfg <? 0 then Panicked
                  else
                  let value := probe_value (xc_probeValueSize cfg) in
                  let failed := bool_decide (is_Some (pi_write i)) in
                  let s := set_probe s (note_write (xs_probe s) (rv_metadataLatency view) (pi_writeLatency i) failed) in
                  if failed then Done (p, s)
                  else
                    let s := set_probe s (note_read (xs_probe s) value (pi_read i) (pi_readLatency i)) in
                    measure_lags cfg (p, s) i view shard (Replicas placement)
              end
        end
  end.
End exporter.
Arguments replicaView : clear implicits.
Arguments metricState : clear implicits.

(** ** The connection pool *)

(** The critical sections on the pool, in the order they take its lock. *)
Inductive pool_op (E : Type) := PNode (address : string) (dial : option E) | PRetain (live : gset string) | PClose.
Arguments PNode {E} _ _.
Arguments PRetain {E} _.
Arguments PClose {E}.

Definition pool_step {E} (p : pool) (op : pool_op E) : outcome pool :=
  match op with
  | PNode a dial => '(p, _) ← nodeClient p a dial; Done p
  | PRetain live => Done (retainNodeConns p live)
  | PClose => Done (close_nodes p)
  end.

Fixpoint pool_run {E} (p : pool) (ops : list (pool_op E)) : outcome pool :=
  match ops with
  | [] => Done p
  | op :: ops => p ← pool_step p op; pool_run p ops
  end.

Definition empty_pool : pool := MkPool (Some ∅) 0 [].

Definition pool_ok (p : pool) : Prop :=
  pl_closed p ++ (map_to_list (pool_map p)).*2 ≡ₚ seq 0 (pl_next p).

Lemma filter_split (m : gmap string nat) (live : gset string) :
  (map_to_list m).*2 ≡ₚ (map_to_list (filter (fun kv : string * nat => kv.1 ∉ live) m)).*2 ++
                         (map_to_list (filter (fun kv : string * nat => kv.1 ∈ live) m)).*2.
Proof.
  rewrite <-fmap_app. apply fmap_Permutation.
  rewrite (map_to_list_filter_split (fun kv : string * nat => kv.1 ∈ live)). apply Permutation_app_comm.
Qed.

Lemma pool_step_ok {E} p (op : pool_op E) p' : pool_ok p → pool_step p op = Done p' → pool_ok p'.
Proof.
  unfold pool_ok. intros Hp. destruct op as [a dial|live|]; cbn.
  - unfold nodeClient, pool_map in *. destruct (default ∅ (pl_conns p) !! a) as [cn|] eqn:Ha; [by intros [= <-]|].
    destruct dial; [by intros [= <-]|]. destruct (pl_conns p) as [m|]; [|done]. intros [= <-]. cbn -[seq] in *.
    rewrite map_to_list_insert by done. rewrite seq_S. cbn -[seq].
    rewrite <-Hp, <-app_assoc. f_equiv. apply Permutation_cons_append.
  - unfold retainNodeConns, pool_map in *. intros [= <-]. destruct (pl_conns p) as [m|] eqn:Hm; cbn in *; [|by rewrite Hm].
    by rewrite <-app_assoc, <-filter_split.
  - intros [= <-]. unfold close_nodes. cbn. by rewrite map_to_list_empty, app_nil_r.
Qed.

Lemma pool_step_closed {E} p (op : pool_op E) p' :
  pool_step p op = Done p' → pl_conns p' = None ↔ op = PClose ∨ pl_conns p = None.
Proof.
  destruct op as [a dial|live|]; cbn.
  - unfold nodeClient. destruct (_ !! a); [intros [= <-]; naive_solver|].
    destruct dial; [intros [= <-]; naive_solver|]. destruct (pl_conns p) eqn:Hm; [|done]. intros [= <-]. naive_solver.
  - unfold retainNodeConns. intros [= <-]. destruct (pl_conns p) eqn:Hm; cbn; naive_solver.
  - intros [= <-]. naive_solver.
Qed.

(** An assignment panics exactly on the nil map. *)
Lemma pool_step_panics {E} p (op : pool_op E) :
  pool_step p op = Panicked ↔ pl_conns p = None ∧ ∃ a, op = PNode a None.
Proof.
  destruct op as [a dial|live|]; cbn; [|naive_solver..]. unfold nodeClient, pool_map.
  destruct (pl_conns p) as [m|] eqn:Hm; cbn.
  - destruct (m !! a); [naive_solver|]. destruct dial; naive_solver.
  - rewrite lookup_empty. destruct dial; naive_solver.
Qed.

Lemma pool_step_blocked {E} p (op : pool_op E) : pool_step p op ≠ Blocked.
Proof.
  destruct op as [a dial|live|]; cbn; [|done..]. unfold nodeClient.
  destruct (_ !! a); [done|]. destruct dial; [done|]. by destruct (pl_conns p).
Qed.

Lemma pool_run_panics {E} p (ops : list (pool_op E)) :
  pool_run p ops = Panicked ↔
  ∃ pre a post, ops = pre ++ PNode a None :: post ∧ (pl_conns p = None ∨ PClose ∈ pre).
Proof.
  revert p. induction ops as [|op ops IH]; intros p; cbn [pool_run].
  { split; [done|]. by intros ([] & ? & ? & ? & _). }
  destruct (pool_step p op) as [p'| |] eqn:Hs; cbn [mbind outcome_bind].
  - rewrite IH. setoid_rewrite (pool_step_closed p op p' Hs). split.
    + intros (pre & a & post & -> & Hor). exists (op :: pre), a, post. split; [done|]. set_solver.
    + intros ([|op' pre] & a & post & Heq & Hor); cbn in Heq; simplify_eq.
      * exfalso. destruct Hor as [Hn|Hin]; [|by apply elem_of_nil in Hin].
        assert (pool_step p (@PNode E a None) = Panicked) by (apply pool_step_panics; eauto). congruence.
      * exists pre, a, post. split; [done|]. set_solver.
  - split; [|done]. intros _. apply pool_step_panics in Hs as [Hn [a ->]]. exists [], a, ops. by split; [|left].
  - by apply pool_step_blocked in Hs.
Qed.

(** The exporter's pool neither leaks nor double-closes a node connection, and
    its only crash is at shutdown: over any interleaving of lookups, prunes and
    closes, every connection ever dialled is either pooled or closed, exactly
    once; and a run panics if and only if some scrape or probe dials a node after
    [Close] has set the map to nil. *)
Theorem pool_safe {E} (ops : list (pool_op E)) :
  (∀ p, pool_run empty_pool ops = Done p →
     pl_closed p ++ (map_to_list (pool_map p)).*2 ≡ₚ seq 0 (pl_next p)) ∧
  (pool_run empty_pool ops = Panicked ↔
     ∃ pre a post, ops = pre ++ PNode a None :: post ∧ PClose ∈ pre).
Proof.
  split.
  - assert (Hok : pool_ok empty_pool) by (unfold pool_ok; cbn; by rewrite map_to_list_empty). revert Hok. generalize empty_pool.
    induction ops as [|op ops IH]; intros p Hp p'; cbn [pool_run]; [by intros [= <-]|].
    destruct (pool_step p op) as [q| |] eqn:Hs; [|done..]. apply IH. by eapply pool_step_ok.
  - rewrite pool_run_panics. naive_solver.
Qed.

(** ** The probe's accounting *)

Section accounting.
Context {E : Type}.

(** Each probe has one outcome; counters are uint64. *)
Definition accounted (b : probe_stats) : Prop :=
  pb_probes b = u64 (pb_hits b + pb_misses b + pb_mismatches b + pb_writeErrors b + pb_readErrors b).

Lemma u64_cong a b : a `mod` 2 ^ 64 = b `mod` 2 ^ 64 → u64 a = u64 b.
Proof. done. Qed.

Lemma u64_eq a b : (∃ k, a - b = k * 2 ^ 64) → u64 a = u64 b.
Proof. intros [k Hk]. unfold u64. replace a with (b + k * 2 ^ 64) by lia. apply Z_mod_plus_full. Qed.

Lemma u64_exists a : ∃ k, u64 a = a + k * 2 ^ 64.
Proof. exists (- (a / 2 ^ 64)). unfold u64. rewrite Z.mod_eq by lia. lia. Qed.

Lemma note_write_failed b m w : accounted b → accounted (note_write b m w true).
Proof.
  unfold accounted. cbn. intros ->.
  destruct (u64_exists (pb_writeErrors b + 1)) as [k ->].
  destruct (u64_exists (pb_hits b + pb_misses b + pb_mismatches b + pb_writeErrors b + pb_readErrors b)) as [k' ->].
  apply u64_eq. exists (k' - k). lia.
Qed.

Lemma note_both b m w value (read : result E (option bytes)) l :
  accounted b → accounted (note_read (note_write b m w false) value read l).
Proof.
  unfold accounted, note_read. intros Hb.
  assert (Hbump : ∀ h mi mm e, h + mi + mm + e = 1 →
    u64 (pb_probes b + 1) = u64 (u64 (pb_hits b + h) + u64 (pb_misses b + mi) + u64 (pb_mismatches b + mm) +
      pb_writeErrors b + u64 (pb_readErrors b + e))).
  { intros h mi mm e Hsum. rewrite Hb.
    destruct (u64_exists (pb_hits b + pb_misses b + pb_mismatches b + pb_writeErrors b + pb_readErrors b)) as [k ->].
    destruct (u64_exists (pb_hits b + h)) as [k1 ->], (u64_exists (pb_misses b + mi)) as [k2 ->],
      (u64_exists (pb_mismatches b + mm)) as [k3 ->], (u64_exists (pb_readErrors b + e)) as [k4 ->].
    apply u64_eq. exists (k - k1 - k2 - k3 - k4). lia. }
  destruct read as [[got|]|e]; [case_bool_decide|..]; cbn; by apply Hbump.
Qed.

Lemma measure_lags_probe cfg e i view shard replicas e' :
  measure_lags (E := E) cfg e i view shard replicas = Done e' → xs_probe e'.2 = xs_probe e.2.
Proof.
  revert e. induction replicas as [|id replicas IH]; intros e; cbn [measure_lags]; [by intros [= <-]|].
  case_bool_decide; [apply IH|]. destruct (measureReplicationLag _ _ _ _ _ _ _) as [[p lag]| |]; [|done..].
  cbn. intros Hl%IH. done.
Qed.

Lemma probeOnce_accounted cfg e i e' :
  probeOnce (E := E) cfg e i = Done e' → accounted (xs_probe e.2) → accounted (xs_probe e'.2).
Proof.
  destruct e as [p s]. unfold probeOnce. destruct (List.find _ _) as [view|]; [|by intros [= <-]].
  destruct (_ =? 0); [by intros [= <-]|]. destruct (_ !! _) as [pl|]; [|by intros [= <-]].
  case_bool_decide; [by intros [= <-]|]. destruct (nodeClient _ _ _) as [[p1 [cn|er]]| |]; [| |done..];
    cbn [mbind outcome_bind]; [|by intros [= <-]].
  destruct (_ <? 0); [done|]. case_bool_decide; [intros [= <-]; apply note_write_failed|].
  intros Hl%measure_lags_probe Hs. rewrite Hl. by apply note_both.
Qed.

Lemma scrapeOnce_probe cfg e i e' : scrapeOnce (E := E) cfg e i = Done e' → xs_probe e'.2 = xs_probe e.2.
Proof.
  destruct e as [p s]. unfold scrapeOnce. destruct (List.find _ _) as [view|]; [|by intros [= <-]].
  destruct (scrapeNodes _ _ _ _) as [[p1 nodes]| |]; [|done..]. by intros [= <-].
Qed.

(** Scrapes and probes as the two loops make them. *)
Fixpoint exporter_run (cfg : exporterConfig) (e : pool * metricState E) (ops : list (scrape_in (E := E) + probe_in (E := E)))
    : outcome (pool * metricState E) :=
  match ops with
  | [] => Done e
  | op :: ops =>
      e ← match op with inl i => scrapeOnce cfg e i | inr i => probeOnce cfg e i end;
      exporter_run cfg e ops
  end.

Lemma exporter_accounted cfg e ops e' :
  exporter_run cfg e ops = Done e' → accounted (xs_probe e.2) → accounted (xs_probe e'.2).
Proof.
  revert e. induction ops as [|[i|i] ops IH]; intros e; cbn [exporter_run]; [by intros [= <-]|..].
  - destruct (scrapeOnce cfg e i) as [e1| |] eqn:Hs; [|done..]. intros Hr Ha. eapply IH; [exact Hr|].
    by rewrite (scrapeOnce_probe _ _ _ _ Hs).
  - destruct (probeOnce cfg e i) as [e1| |] eqn:Hs; [|done..]. intros Hr Ha. eapply IH; [exact Hr|].
    by eapply probeOnce_accounted.
Qed.
End accounting.

(** ** Replication lag *)

(** The lag is counted from before the write was sent: it includes the write. *)
Lemma lag_includes_write {E} deadline writeStart writeLatency (polls : list (poll (E := E))) lag :
  Forall (fun p => writeStart + writeLatency ≤ po_after p) polls →
  poll_loop deadline writeStart polls = Done lag → lag_timedOut lag = false → writeLatency ≤ lag_duration lag.
Proof.
  intros HF. induction HF as [|p polls Hp HF IH]; cbn [poll_loop]; [done|].
  destruct (negb _); [by intros [= <-]|]. destruct (po_get p) as [[v|]|]; [intros [= <-]; cbn; lia| |];
    (destruct (po_done p); [by intros [= <-]|done]).
Qed.

(** ** Convergence *)

Definition no_convergence : convergence := MkConvergence 0 0 false 0 0 0 0 0.

Definition view_at (address : string) (reachable : bool) (generation : Z) : replicaView () :=
  MkReplicaView address reachable None generation [] "cp-0" 1 0 0 ∅ ∅ 0.

(** The convergence gauge can claim an agreement that does not exist.  There
    are two scrapes after which the exporter reports the replicas converged, and
    counts a convergence sample, although no replica it can reach serves the
    highest generation it has seen: the one that did has gone, and the laggards
    agree with each other. *)
Theorem converged_overclaims :
  ∃ (before after : list (replicaView ())) (t1 t2 : Z),
    let c := observeConvergenceLocked after t2 (observeConvergenceLocked before t1 no_convergence) in
    gc_generationConverged c = true ∧ gc_convergenceSamples c = 1 ∧
    existsb (fun v => rv_reachable v && (rv_generation v =? gc_highestGeneration c)) after = false ∧
    existsb rv_reachable after = true.
Proof.
  exists [view_at "cp-0" true 5; view_at "cp-1" true 4; view_at "cp-2" true 4],
    [view_at "cp-0" false 0; view_at "cp-1" true 4; view_at "cp-2" true 4], 10, 20.
  vm_compute. by split_and!.
Qed.

(** When the claim is made about the highest generation seen, it is right. *)
Lemma count_if_all {E} (f g : replicaView E → bool) views :
  (∀ v, f v = true → g v = true) → count_if f views = count_if g views →
  Forall (fun v => g v = true → f v = true) views.
Proof.
  intros Hfg. unfold count_if.
  assert (Hgen : ∀ n m, n ≤ m → foldl (fun n v => if f v then n + 1 else n) n views ≤
    foldl (fun n v => if g v then n + 1 else n) m views ∧
    (foldl (fun n v => if f v then n + 1 else n) n views = foldl (fun n v => if g v then n + 1 else n) m views →
     n = m ∧ Forall (fun v => g v = true → f v = true) views)).
  { induction views as [|v views IH]; intros n m Hnm; cbn; [split; [done|]; intros; split; [done|constructor]|].
    destruct (f v) eqn:Hf; [rewrite (Hfg v Hf)|destruct (g v) eqn:Hg].
    - destruct (IH (n + 1) (m + 1)) as [H1 H2]; [lia|]. split; [done|]. intros [? ?]%H2. split; [lia|]. by constructor.
    - destruct (IH n (m + 1)) as [H1 H2]; [lia|]. split; [done|]. intros [? ?]%H2. lia.
    - destruct (IH n m) as [H1 H2]; [lia|]. split; [done|]. intros [? ?]%H2. split; [lia|].
      constructor; [congruence|done]. }
  intros Heq. by apply (Hgen 0 0).
Qed.

Lemma converged_sound {E} (views : list (replicaView E)) now c :
  let c' := observeConvergenceLocked views now c in
  gc_generationConverged c = false → gc_generationConverged c' = true →
  highest_of views = gc_highestGeneration c' →
  Forall (fun v => rv_reachable v = true → rv_generation v = gc_highestGeneration c') views.
Proof.
  cbn zeta. intros Hc. unfold observeConvergenceLocked. destruct (_ =? 0) eqn:H0; [congruence|].
  set (agreed := fun v => rv_reachable v && _).
  assert (Hall : count_if agreed views = count_if rv_reachable views →
    Forall (fun v => rv_reachable v = true → rv_generation v = highest_of views) views).
  { intros Heq%count_if_all; [|by intros v [? _]%andb_true_iff].
    eapply Forall_impl; [exact Heq|]. intros v Hv Hr. specialize (Hv Hr). unfold agreed in Hv. lia. }
  destruct (gc_highestGeneration c <? highest_of views); cbn.
  - intros Heq%Z.eqb_eq _. by apply Hall.
  - rewrite Hc. cbn [negb andb]. destruct (_ && _) eqn:Hand; [|congruence]. cbn. intros _ Hh. rewrite <-Hh.
    apply Hall. lia.
Qed.
