(* ===== verification/Exposition.v ===== *)
(** * What the exporter exposes ([cmd/pulsekv-metrics/main.go], [writeState])

    The families and samples of one scrape response, in the order they are
    written. *)

From S2P Require Import Prelude Router Topology GoStd Promexport Exporter.
Local Open Scope Z_scope.

Section exposition.
Context {E F : Type}.
(** [float64(n)] and [Duration.Seconds]. *)
Context (float : Z → F) (Seconds : Z → F).

Definition Bool (ok : bool) : F := if ok then float 1 else float 0.
Definition no_labels : gmap string string := ∅.
Definition label (k v : string) : gmap string string := {[k := v]}.
Definition sortedKeys {V} (m : gmap string V) : list string := sort_strings (map_to_list m).*1.

Definition process_items (now : Z) (s : metricState E) : list (item F) :=
  [Help "pulsekv_exporter_uptime_seconds" "gauge"
     "Seconds since this exporter started.";
   Metric "pulsekv_exporter_uptime_seconds" no_labels (Seconds (now - xs_startedAt s));
   Help "pulsekv_scrapes_total" "counter"
     "Cluster scrapes completed.";
   Metric "pulsekv_scrapes_total" no_labels (float (xs_scrapes s))].

Definition replica_helps : list (item F) :=
  [Help "pulsekv_control_plane_up" "gauge"
     "1 when a control-plane replica published a topology on the last scrape. A replica that is running but still catching up after a restart reports 0 here, by design.";
   Help "pulsekv_control_plane_topology_generation" "gauge"
     "Committed metadata generation this replica is serving.";
   Help "pulsekv_control_plane_live_nodes" "gauge"
     "Live data nodes in this replica's published membership.";
   Help "pulsekv_control_plane_raft_term" "gauge"
     "Raft term as this replica understands it.";
   Help "pulsekv_control_plane_metadata_latency_seconds" "gauge"
     "Time for one coherent GetNodeList+GetShardMap pair against this replica. This is the control-plane routing cost a client pays before addressing any data."].

Definition replica_items (address : string) (view : replicaView E) : list (item F) :=
  let labels := label "replica" address in
  [Metric "pulsekv_control_plane_up" labels (Bool (rv_reachable view));
   Metric "pulsekv_control_plane_metadata_latency_seconds" labels (Seconds (rv_metadataLatency view))] ++
  if negb (rv_reachable view) then []
  else [Metric "pulsekv_control_plane_topology_generation" labels (float (rv_generation view));
        Metric "pulsekv_control_plane_live_nodes" labels (float (rv_liveNodes view));
        Metric "pulsekv_control_plane_raft_term" labels (float (rv_term view))].

Definition leader_items (now : Z) (l : leadership) : list (item F) :=
  [Help "pulsekv_raft_leader" "gauge"
     "1 for the replica ID the reachable replicas currently agree is leader."] ++
  (if bool_decide (ld_currentLeader l ≠ "")
   then [Metric "pulsekv_raft_leader" (label "leader" (ld_currentLeader l)) (float 1)] else []) ++
  [Help "pulsekv_raft_term" "gauge"
     "Current agreed Raft term.";
   Metric "pulsekv_raft_term" no_labels (float (ld_currentTerm l));
   Help "pulsekv_raft_leader_changes_total" "counter"
     "Leader or term changes observed since this exporter started.";
   Metric "pulsekv_raft_leader_changes_total" no_labels (float (ld_leaderChanges l));
   Help "pulsekv_raft_leader_stable_seconds" "gauge"
     "Seconds the current leader and term have held. The stability metric: a cluster that always has a leader but re-elects constantly is not healthy."] ++
  (match ld_leaderSince l with
   | Some since => [Metric "pulsekv_raft_leader_stable_seconds" no_labels (Seconds (now - since))]
   | None => []
   end) ++
  [Help "pulsekv_raft_leader_agreement" "gauge"
     "1 when every reachable replica names the same leader and term.";
   Metric "pulsekv_raft_leader_agreement" no_labels (Bool (ld_leaderAgreement l))].

Definition convergence_items (c : convergence) : list (item F) :=
  [Help "pulsekv_metadata_generation_changes_total" "counter"
     "Committed metadata generations observed since this exporter started.";
   Metric "pulsekv_metadata_generation_changes_total" no_labels (float (gc_generationChanges c));
   Help "pulsekv_metadata_convergence_seconds" "gauge"
     "Time from the first replica publishing a new committed generation to the last one publishing it. Gossip exposes no convergence event of its own; this is the externally observable convergence that actually reaches clients.";
   Metric "pulsekv_metadata_convergence_seconds" no_labels (Seconds (gc_lastConvergence c));
   Help "pulsekv_metadata_convergence_seconds_max" "gauge"
     "Largest convergence interval observed since this exporter started.";
   Metric "pulsekv_metadata_convergence_seconds_max" no_labels (Seconds (gc_maxConvergence c));
   Help "pulsekv_metadata_convergence_samples_total" "counter"
     "Convergence intervals measured.";
   Metric "pulsekv_metadata_convergence_samples_total" no_labels (float (gc_convergenceSamples c));
   Help "pulsekv_metadata_converged" "gauge"
     "1 when every reachable replica is serving the highest committed generation seen.";
   Metric "pulsekv_metadata_converged" no_labels (Bool (gc_generationConverged c))].

Definition node_helps : list (item F) :=
  [Help "pulsekv_node_up" "gauge"
     "1 when the node answered HealthCheck.";
   Help "pulsekv_node_uptime_seconds" "gauge"
     "Node process uptime.";
   Help "pulsekv_node_resident_keys" "gauge"
     "Keys this node answers for, across both tiers.";
   Help "pulsekv_node_tier_bytes" "gauge"
     "Value bytes held, by tier.";
   Help "pulsekv_node_tier_keys" "gauge"
     "Keys held, by tier.";
   Help "pulsekv_node_spills_total" "counter"
     "Values moved RAM -> NVMe since node start.";
   Help "pulsekv_node_promotions_total" "counter"
     "Values moved NVMe -> RAM since node start.";
   Help "pulsekv_node_spill_errors_total" "counter"
     "Spill writes that failed. The NVMe tier degrading, not the node failing: the entry is dropped and the node keeps serving.";
   Help "pulsekv_node_evict_drops_total" "counter"
     "Entries dropped under memory pressure rather than spilled.";
   Help "pulsekv_node_bulk_transfers_total" "counter"
     "Phase 6 bulk transport traffic by kind. kind=fallback counts requests that could not use it and went back to gRPC, which is normal operation: the bulk path is never required.";
   Help "pulsekv_node_capacity_latency_seconds" "gauge"
     "Time for this node's Capacity RPC."].

Definition node_items (id : string) (node : nodeMetrics) : list (item F) :=
  let labels := <["address" := no_address node]> (label "node" id) in
  let c := no_capacity node in
  Metric "pulsekv_node_up" labels (Bool (no_reachable node)) ::
  if negb (no_reachable node) then []
  else [Metric "pulsekv_node_uptime_seconds" labels (float (no_uptime node));
        Metric "pulsekv_node_resident_keys" labels (float (cp_residentKeys c));
        Metric "pulsekv_node_capacity_latency_seconds" labels (Seconds (no_capacityLatency node));
        Metric "pulsekv_node_tier_bytes" (With labels "tier" "ram") (float (cp_bytesRAM c));
        Metric "pulsekv_node_tier_bytes" (With labels "tier" "nvme") (float (cp_bytesNVMe c));
        Metric "pulsekv_node_tier_keys" (With labels "tier" "ram") (float (cp_keysRAM c));
        Metric "pulsekv_node_tier_keys" (With labels "tier" "nvme") (float (cp_keysNVMe c));
        Metric "pulsekv_node_spills_total" labels (float (cp_spills c));
        Metric "pulsekv_node_promotions_total" labels (float (cp_promotions c));
        Metric "pulsekv_node_spill_errors_total" labels (float (cp_spillErrors c));
        Metric "pulsekv_node_evict_drops_total" labels (float (cp_evictDrops c));
        Metric "pulsekv_node_bulk_transfers_total" (With labels "kind" "write") (float (cp_bulkWrites c));
        Metric "pulsekv_node_bulk_transfers_total" (With labels "kind" "read") (float (cp_bulkReads c));
        Metric "pulsekv_node_bulk_transfers_total" (With labels "kind" "shared_memory_read") (float (cp_bulkSharedMem c));
        Metric "pulsekv_node_bulk_transfers_total" (With labels "kind" "fallback") (float (cp_bulkFallbacks c))].

Definition probe_disabled : list (item F) :=
  [Help "pulsekv_probe_enabled" "gauge"
     "0 when --probe=false: the hit-rate, replication-lag and latency-breakdown metrics below are then absent rather than zero.";
   Metric "pulsekv_probe_enabled" no_labels (float 0)].

Definition probe_items (b : probe_stats) : list (item F) :=
  [Help "pulsekv_probe_enabled" "gauge"
     "1 when the canary probe is running.";
   Metric "pulsekv_probe_enabled" no_labels (float 1);
   Help "pulsekv_probe_total" "counter"
     "Canary probes attempted.";
   Metric "pulsekv_probe_total" no_labels (float (pb_probes b));
   Help "pulsekv_probe_results_total" "counter"
     "Canary probe outcomes. hit/miss is the cache hit rate this exporter can measure directly; an application's own hit rate is its to report, and the Phase 7/8 demo scripts report theirs.";
   Metric "pulsekv_probe_results_total" (label "result" "hit") (float (pb_hits b));
   Metric "pulsekv_probe_results_total" (label "result" "miss") (float (pb_misses b));
   Metric "pulsekv_probe_results_total" (label "result" "mismatch") (float (pb_mismatches b));
   Metric "pulsekv_probe_results_total" (label "result" "write_error") (float (pb_writeErrors b));
   Metric "pulsekv_probe_results_total" (label "result" "read_error") (float (pb_readErrors b));
   Help "pulsekv_probe_latency_seconds" "gauge"
     "Latest canary latency, split by phase. metadata is control-plane routing; write and read are data transfer to and from the owning node. The split is by construction, not by estimate: they are separate RPCs to separate processes.";
   Metric "pulsekv_probe_latency_seconds" (label "phase" "metadata") (Seconds (pb_metadataLatency b));
   Metric "pulsekv_probe_latency_seconds" (label "phase" "write") (Seconds (pb_writeLatency b));
   Metric "pulsekv_probe_latency_seconds" (label "phase" "read") (Seconds (pb_readLatency b));
   Help "pulsekv_replication_lag_seconds" "gauge"
     "Time from the primary acknowledging a canary write to this replica being able to serve it, read directly against the replica's own address.";
   Help "pulsekv_replication_lag_timeout" "gauge"
     "1 when the replica did not receive the last canary within the lag budget."].

Definition lag_items (id : string) (lag : replicaLag) : list (item F) :=
  let labels := label "node" id in
  Metric "pulsekv_replication_lag_timeout" labels (Bool (lag_timedOut lag)) ::
  if negb (lag_timedOut lag) then [Metric "pulsekv_replication_lag_seconds" labels (Seconds (lag_duration lag))]
  else [].

(** A loop over a map in the order of its sorted keys. *)
Definition each {V} (f : string → V → list (item F)) (m : gmap string V) : list (item F) :=
  sortedKeys m ≫= fun k => match m !! k with Some v => f k v | None => [] end.

Definition writeState (now : Z) (s : metricState E) (cfg : exporterConfig) : list (item F) :=
  process_items now s ++ replica_helps ++ each replica_items (xs_replicaViews s) ++
  leader_items now (xs_leadership s) ++ convergence_items (xs_convergence s) ++
  node_helps ++ each node_items (xs_nodes s) ++
  (if negb (xc_probeEnabled cfg) then probe_disabled
   else probe_items (xs_probe s) ++ each lag_items (xs_replicationLag s)).

(** [serveMetrics]: the snapshot is a copy, so the text is that of one state. *)
Definition serveMetrics (isPrint : Z → bool) (fmt_g : F → bytes) (now : Z) (s : metricState E)
    (cfg : exporterConfig) : bytes :=
  Writer_String isPrint fmt_g (writeState now s cfg).

(** ** A well-formed response *)

Definition help_names (items : list (item F)) : list string :=
  omap (fun i => match i with Help n _ _ => Some n | Metric _ _ _ => None end) items.

(** The series written: name and labels. *)
Definition series (items : list (item F)) : list (string * gmap string string) :=
  omap (fun i => match i with Help _ _ _ => None | Metric n l _ => Some (n, l) end) items.

(** Every family is declared once, before its samples. *)
Fixpoint declared (seen : list string) (items : list (item F)) : bool :=
  match items with
  | [] => true
  | Help n _ _ :: items => negb (bool_decide (n ∈ seen)) && declared (n :: seen) items
  | Metric n _ _ :: items => bool_decide (n ∈ seen) && declared seen items
  end.

Lemma declared_app seen a b :
  declared seen (a ++ b) = declared seen a && declared (rev (help_names a) ++ seen) b.
Proof.
  revert seen. induction a as [|[n k t|n l v] a IH]; intros seen; [done|..]; cbn.
  - rewrite IH, andb_assoc. do 2 f_equal. by rewrite <-app_assoc.
  - by rewrite IH, andb_assoc.
Qed.

Lemma series_app a b : series (a ++ b) = series a ++ series b.
Proof. apply omap_app. Qed.
Lemma help_names_app a b : help_names (a ++ b) = help_names a ++ help_names b.
Proof. apply omap_app. Qed.

(** A block of samples of the families [names], one per series. *)
Definition samples (names : list string) (items : list (item F)) : Prop :=
  help_names items = [] ∧ Forall (fun k => k.1 ∈ names) (series items) ∧ NoDup (series items).

Lemma samples_declared names seen items :
  samples names items → Forall (fun n => n ∈ seen) names → declared seen items = true.
Proof.
  intros (Hh & HF & _) Hs. rewrite Forall_forall in Hs.
  induction items as [|[n k t|n l v] items IH]; [done|done|]. cbn in *.
  apply Forall_cons in HF as [Hn HF]. rewrite bool_decide_eq_true_2 by (by apply Hs). by apply IH.
Qed.

(** A loop over a map whose body tags its series with the key. *)
Lemma each_samples {V} (f : string → V → list (item F)) m names tag :
  (∀ k v, samples names (f k v) ∧ Forall (fun x => x.2 !! tag = Some k) (series (f k v))) →
  samples names (each f m).
Proof.
  intros Hf. unfold each.
  assert (Hnd : NoDup (sortedKeys m)).
  { unfold sortedKeys, sort_strings. rewrite merge_sort_Permutation. apply NoDup_fst_map_to_list. }
  induction (sortedKeys m) as [|k ks IH]; [by repeat constructor|].
  apply NoDup_cons in Hnd as [Hk Hnd]. destruct (IH Hnd) as (IH1 & IH2 & IH3). clear IH. rewrite bind_cons.
  destruct (m !! k) as [v|]; [|done]. destruct (Hf k v) as [(H1 & H2 & H3) Ht].
  unfold samples. rewrite help_names_app, series_app, H1, IH1. split; [done|]. split; [by apply Forall_app|].
  apply NoDup_app. split; [done|]. split; [|done]. intros x Hx Hin.
  rewrite Forall_forall in Ht. specialize (Ht x Hx).
  assert (∃ k' , k' ∈ ks ∧ x.2 !! tag = Some k') as (k' & Hk' & Hx').
  { clear -Hin Hf. induction ks as [|j ks IH]; [by apply elem_of_nil in Hin|].
    rewrite bind_cons, series_app in Hin. apply elem_of_app in Hin as [Hin|Hin].
    - destruct (m !! j) as [v|]; [|by apply elem_of_nil in Hin]. destruct (Hf j v) as [_ HF].
      rewrite Forall_forall in HF. exists j. split; [by left|]. by apply HF.
    - destruct (IH Hin) as (k' & ? & ?). exists k'. split; [by right|done]. }
  congruence.
Qed.

(** Blocks of disjoint families. *)
Definition block (names : list string) (items : list (item F)) : Prop :=
  Forall (fun k => k.1 ∈ names) (series items) ∧ NoDup (series items).

Lemma samples_block names items : samples names items → block names items.
Proof. by intros (_ & ? & ?). Qed.

Lemma block_app n1 n2 a b :
  block n1 a → block n2 b → Forall (fun n => n ∉ n2) n1 → block (n1 ++ n2) (a ++ b).
Proof.
  intros [Ha Hna] [Hb Hnb] Hd. unfold block. rewrite series_app. split.
  - apply Forall_app. split; eapply Forall_impl; try done; intros x Hx; cbn; set_solver.
  - apply NoDup_app. split; [done|]. split; [|done]. intros x Hx Hx'.
    rewrite Forall_forall in Ha. rewrite Forall_forall in Hb. rewrite Forall_forall in Hd. by apply (Hd x.1); [apply Ha|apply Hb].
Qed.

(** Series told apart by name and by the labels the source varies. *)
Definition series_key (x : string * gmap string string) : string * list (option string) :=
  (x.1, (fun l => x.2 !! l) <$> ["tier"; "kind"; "result"; "phase"]).

Lemma series_NoDup items (keys : list (string * list (option string))) :
  series_key <$> series items = keys → bool_decide (NoDup keys) = true → NoDup (series items).
Proof. intros <- H%bool_decide_eq_true. by apply NoDup_fmap_1 in H. Qed.

Definition replica_families : list string := help_names replica_helps.
Definition node_families : list string := help_names node_helps.
Definition lag_families : list string := ["pulsekv_replication_lag_seconds"; "pulsekv_replication_lag_timeout"].
End exposition.

(** Blocks whose families are known: by evaluation. *)
Ltac eval_series := eapply series_NoDup; [vm_compute; reflexivity|vm_compute; reflexivity].
Ltac eval_block :=
  repeat match goal with |- _ ∧ _ => split end;
  first [reflexivity | eval_series | repeat (apply Forall_cons; split); first [apply Forall_nil_2|vm_compute; reflexivity|set_solver]].

Section wellformed.
Context {E F : Type} (float : Z → F) (Seconds : Z → F).

Lemma replica_samples k (v : replicaView E) :
  samples (replica_families (F := F)) (replica_items float Seconds k v) ∧
  Forall (fun x => x.2 !! "replica" = Some k) (series (replica_items float Seconds k v)).
Proof.
  unfold replica_items, samples. destruct (rv_reachable v); cbn [negb]; eval_block.
Qed.

Lemma node_samples k (v : nodeMetrics) :
  samples (node_families (F := F)) (node_items float Seconds k v) ∧
  Forall (fun x => x.2 !! "node" = Some k) (series (node_items float Seconds k v)).
Proof.
  unfold node_items, samples. destruct (no_reachable v); cbn [negb]; eval_block.
Qed.

Lemma lag_samples k (v : replicaLag) :
  samples lag_families (lag_items float Seconds k v) ∧
  Forall (fun x => x.2 !! "node" = Some k) (series (lag_items float Seconds k v)).
Proof.
  unfold lag_items, samples. destruct (lag_timedOut v); cbn [negb]; eval_block.
Qed.

Definition process_families : list string := ["pulsekv_exporter_uptime_seconds"; "pulsekv_scrapes_total"].
Definition leader_families : list string :=
  ["pulsekv_raft_leader"; "pulsekv_raft_term"; "pulsekv_raft_leader_changes_total";
   "pulsekv_raft_leader_stable_seconds"; "pulsekv_raft_leader_agreement"].
Definition convergence_families : list string :=
  ["pulsekv_metadata_generation_changes_total"; "pulsekv_metadata_convergence_seconds";
   "pulsekv_metadata_convergence_seconds_max"; "pulsekv_metadata_convergence_samples_total";
   "pulsekv_metadata_converged"].
Definition probe_families : list string :=
  ["pulsekv_probe_enabled"; "pulsekv_probe_total"; "pulsekv_probe_results_total"; "pulsekv_probe_latency_seconds"].

Definition sub (names families : list string) : Prop := forallb (fun n => bool_decide (n ∈ families)) names = true.
Definition apart (names families : list string) : Prop := forallb (fun n => negb (bool_decide (n ∈ families))) names = true.

Lemma sub_Forall names families : sub names families → Forall (fun n => n ∈ families) names.
Proof. unfold sub. rewrite forallb_forall. intros H. apply Forall_forall. intros n Hn%list_elem_of_In.
  specialize (H n Hn). by apply bool_decide_eq_true in H. Qed.
Lemma apart_Forall names families : apart names families → Forall (fun n => n ∉ families) names.
Proof.
  unfold apart. rewrite forallb_forall. intros H. apply Forall_forall. intros n Hn%list_elem_of_In.
  specialize (H n Hn). by apply negb_true_iff, bool_decide_eq_false in H.
Qed.

(** A block written with its help lines. *)
Definition family_block (names : list string) (items : list (item F)) : Prop :=
  block names items ∧ help_names items = names.

Lemma static_block items names keys :
  help_names items = names → series_key <$> series items = keys → bool_decide (NoDup keys) = true →
  sub (series items).*1 names → family_block names items.
Proof.
  intros Hh Hk Hn Hs. split; [|done]. split; [|by eapply series_NoDup].
  apply sub_Forall in Hs. by apply Forall_fmap in Hs.
Qed.

Lemma leader_block now l : family_block leader_families (leader_items float Seconds now l).
Proof.
  unfold leader_items. destruct (bool_decide _), (ld_leaderSince l);
    (eapply static_block; [reflexivity|vm_compute; reflexivity|vm_compute; reflexivity|vm_compute; reflexivity]).
Qed.

Lemma static_blocks now (s : metricState E) c b :
  family_block process_families (process_items float Seconds now s) ∧
  family_block convergence_families (convergence_items float Seconds c) ∧
  family_block ["pulsekv_probe_enabled"] (probe_disabled float) ∧
  block probe_families (probe_items float Seconds b) ∧
  help_names (probe_items float Seconds b) = probe_families ++ lag_families ∧
  block [] (replica_helps (F := F)) ∧ block [] (node_helps (F := F)).
Proof.
  split_and!; [| | | |reflexivity|split; constructor|split; constructor].
  1-3: by eapply static_block; [reflexivity|vm_compute; reflexivity|vm_compute; reflexivity|vm_compute; reflexivity].
  split; [|eval_series]. assert (Hs : sub (series (probe_items float Seconds b)).*1 probe_families) by (by vm_compute).
  apply sub_Forall in Hs. by apply Forall_fmap in Hs.
Qed.

Lemma declared_then seen (items rest : list (item F)) names :
  declared seen items = true → help_names items = names → declared (rev names ++ seen) rest = true →
  declared seen (items ++ rest) = true.
Proof. intros H1 <- H2. by rewrite declared_app, H1, H2. Qed.

Lemma samples_then names seen (items rest : list (item F)) :
  samples names items → sub names seen → declared seen rest = true → declared seen (items ++ rest) = true.
Proof.
  intros Hs Hsub%sub_Forall Hr. eapply declared_then; [by eapply samples_declared|apply Hs|done].
Qed.

Lemma leader_declared now l seen :
  (∀ n, n ∈ leader_families → n ∉ seen) → declared seen (leader_items float Seconds now l) = true.
Proof.
  intros Hs.
  assert (Hin : ∀ n, n ∈ leader_families → bool_decide (n ∈ seen) = false)
    by (intros n Hn; apply bool_decide_eq_false; auto).
  assert (Hcons : ∀ n m (k : list string), bool_decide (n ∈ m :: k) = bool_decide (n = m) || bool_decide (n ∈ k)).
  { intros n m k. rewrite <-bool_decide_or. apply bool_decide_ext. apply elem_of_cons. }
  unfold leader_items. destruct (bool_decide (ld_currentLeader l ≠ "")), (ld_leaderSince l); cbn [app declared];
    rewrite !Hcons, !Hin by (apply (bool_decide_eq_true_1 (_ ∈ _)); vm_compute; reflexivity); vm_compute; reflexivity.
Qed.
End wellformed.

(** C23: every scrape response is well formed, whatever the exporter has seen:
    each metric family is declared exactly once, with its HELP and TYPE lines
    before any of its samples, and no two samples have the same name and labels. *)
Theorem exposition_valid {E F} (float Seconds : Z → F) now (s : metricState E) cfg :
  declared [] (writeState float Seconds now s cfg) = true ∧
  NoDup (series (writeState float Seconds now s cfg)).
Proof.
  assert (HR : samples (replica_families (F := F)) (each (replica_items float Seconds) (xs_replicaViews s)))
    by (apply (each_samples _ _ _ "replica"); apply replica_samples).
  assert (HN : samples (node_families (F := F)) (each (node_items float Seconds) (xs_nodes s)))
    by (apply (each_samples _ _ _ "node"); apply node_samples).
  assert (HL : samples lag_families (each (lag_items float Seconds) (xs_replicationLag s)))
    by (apply (each_samples _ _ _ "node"); apply lag_samples).
  destruct (static_blocks float Seconds now s (xs_convergence s) (xs_probe s))
    as ([HP HPh] & [HC HCh] & [HD HDh] & HB & HBh & Hrh & Hnh).
  destruct (leader_block float Seconds now (xs_leadership s)) as [HLd HLh].
  unfold writeState. split.
  - eapply declared_then; [vm_compute; reflexivity|exact HPh|].
    eapply declared_then; [vm_compute; reflexivity|reflexivity|].
    eapply (samples_then _ _ _ _ HR); [vm_compute; reflexivity|].
    eapply declared_then; [|exact HLh|].
    { apply leader_declared. intros n Hn. revert n Hn. apply Forall_forall, apart_Forall. vm_compute. reflexivity. }
    eapply declared_then; [vm_compute; reflexivity|exact HCh|].
    eapply declared_then; [vm_compute; reflexivity|reflexivity|].
    eapply (samples_then _ _ _ _ HN); [vm_compute; reflexivity|].
    destruct (xc_probeEnabled cfg); cbn [negb]; [|vm_compute; reflexivity].
    eapply declared_then; [vm_compute; reflexivity|exact HBh|].
    rewrite <-(app_nil_r (each _ _)). eapply (samples_then _ _ _ _ HL); [vm_compute; reflexivity|done].
  - set (tail := if negb _ then _ else _).
    assert (Ht : block (probe_families ++ lag_families) tail).
    { unfold tail. destruct (xc_probeEnabled cfg); cbn [negb].
      - apply block_app; [done|by apply samples_block|]. apply apart_Forall. vm_compute. reflexivity.
      - destruct HD as [HF Hnd]. split; [|done]. eapply Forall_impl; [exact HF|]. intros x ->%list_elem_of_singleton. by left. }
    assert (Happ : ∀ n1 n2 a b, block n1 a → block n2 b → apart n1 n2 → block (n1 ++ n2) (a ++ b) (F := F))
      by (intros; apply block_app; [done..|by apply apart_Forall]).
    eapply proj2, (Happ process_families); [done| |].
    1: eapply (Happ []); [done| |]. 1: eapply Happ; [by apply samples_block| |].
    1: eapply (Happ leader_families); [done| |]. 1: eapply (Happ convergence_families); [done| |].
    1: eapply (Happ []); [done| |]. 1: eapply Happ; [by apply samples_block|exact Ht|].
    all: vm_compute; reflexivity.
Qed.
