(* ===== verification/ChaosOracle.v ===== *)
(** * The chaos verifier's oracles

    The judgements of cmd/pulsekv-chaos/main.go: its settings, the exact-placement
    check, the removal and rejoin checks that decide whether an observed topology
    change is the one rendezvous hashing must produce, the stable and the promotion
    workloads built on a placement.  The theorems connect them with [Router] and [Client]: on placements the router
    produces the oracles accept exactly the change they name, so a failing run is
    a fault of the cluster and not of the verifier. *)

From S2P Require Import Prelude Router Topology GoStd Json Client Config Launch.
Local Open Scope Z_scope.

(** ** Settings *)

Definition maxKeyAttempts : Z := 1000000.

Record settings := MkSettings {
  c_controlPlane : string;
  c_target : string;
  c_cycles : Z;
  c_seed : Z;
  c_readyFile : string;
  c_reportPath : string;
  c_transitionTimeout : Z;
  c_pollInterval : Z;
  c_refreshInterval : Z;
  c_rpcTimeout : Z;
  c_workers : Z;
  c_promotionKeys : Z;
  c_catchUpTimeout : Z;
  c_scenario : string;
  c_leaderReadyFile : string;
  c_leaderTimeout : Z;
  c_leaderPollTimeout : Z
}.

Definition scenarioDataNode : string := "data-node".
Definition scenarioLeader : string := "leader".
Definition scenarioBoth : string := "both".

Definition runsDataNodeScenario (c : settings) : bool :=
  bool_decide (c_scenario c = scenarioDataNode) || bool_decide (c_scenario c = scenarioBoth).
Definition runsLeaderScenario (c : settings) : bool :=
  bool_decide (c_scenario c = scenarioLeader) || bool_decide (c_scenario c = scenarioBoth).

Inductive settings_error :=
| EmptyControlPlane | EmptyTarget | CyclesNotPositive | SeedNegative | EmptyReadyFile
| EmptyReport | ReadyIsReport | TransitionTimeoutNotPositive | PollIntervalNotPositive
| RefreshIntervalNotPositive | RpcTimeoutNotPositive | WorkersNotPositive
| PromotionKeysNegative | CatchUpTimeoutNotPositive | BadScenario
| LeaderTimeoutNotPositive | LeaderPollTimeoutNotPositive | EmptyLeaderReadyFile
| LeaderReadyFileClash.

Definition blank (s : string) : bool := bool_decide (TrimSpace s = "").

(** [filepath.Clean(a) == filepath.Clean(b)] *)
Definition same_path (a b : string) : bool :=
  bool_decide (Clean (bytes_of_string a) = Clean (bytes_of_string b)).

(** The [switch] tries its cases in order; [None] is nil. *)
Definition settings_validate (c : settings) : option settings_error :=
  if blank (c_controlPlane c) then Some EmptyControlPlane
  else if blank (c_target c) then Some EmptyTarget
  else if c_cycles c <=? 0 then Some CyclesNotPositive
  else if c_seed c <? 0 then Some SeedNegative
  else if blank (c_readyFile c) then Some EmptyReadyFile
  else if blank (c_reportPath c) then Some EmptyReport
  else if same_path (c_readyFile c) (c_reportPath c) then Some ReadyIsReport
  else if c_transitionTimeout c <=? 0 then Some TransitionTimeoutNotPositive
  else if c_pollInterval c <=? 0 then Some PollIntervalNotPositive
  else if c_refreshInterval c <=? 0 then Some RefreshIntervalNotPositive
  else if c_rpcTimeout c <=? 0 then Some RpcTimeoutNotPositive
  else if c_workers c <=? 0 then Some WorkersNotPositive
  else if c_promotionKeys c <? 0 then Some PromotionKeysNegative
  else if c_catchUpTimeout c <=? 0 then Some CatchUpTimeoutNotPositive
  else if bool_decide (c_scenario c ≠ scenarioDataNode) && bool_decide (c_scenario c ≠ scenarioLeader)
          && bool_decide (c_scenario c ≠ scenarioBoth) then Some BadScenario
  else if c_leaderTimeout c <=? 0 then Some LeaderTimeoutNotPositive
  else if c_leaderPollTimeout c <=? 0 then Some LeaderPollTimeoutNotPositive
  else if runsLeaderScenario c && blank (c_leaderReadyFile c) then Some EmptyLeaderReadyFile
  else if runsLeaderScenario c && (same_path (c_leaderReadyFile c) (c_readyFile c)
            || same_path (c_leaderReadyFile c) (c_reportPath c)) then Some LeaderReadyFileClash
  else None.

(** [splitCommaList]: blanks and duplicates are dropped, [seen] mirrors [out]. *)
Definition list_step (acc : gset string * list string) (raw : string) : gset string * list string :=
  let '(seen, out) := acc in
  let value := TrimSpace raw in
  if bool_decide (value = "") || bool_decide (value ∈ seen) then (seen, out)
  else ({[value]} ∪ seen, out ++ [value]).
Definition splitCommaList (text : string) : list string :=
  (foldl list_step (∅, []) (Split_comma text)).2.

(** ** Placement oracles *)

(** A Go map read: the zero value where the key is absent. *)
Definition owner_at (m : gmap Z string) (shard : Z) : string := default "" (m !! shard).

Definition sortedNodeIDs (nodes : gmap string string) : list string :=
  sort_strings (map_to_list nodes).*1.

Definition shards_of (s : Snapshot) : list Z := seqZ 0 (ShardCount s).

Definition shardsOwnedBy (s : Snapshot) (owner : string) : list Z :=
  filter (fun shard => owner_at (ShardMap s) shard = owner) (shards_of s).

Inductive hrw_error := WrongOwner (shard : Z) (got want : string) | MapDiffers.

Definition validateExactHRW (s : Snapshot) : result hrw_error () :=
  let want := AssignShards (sortedNodeIDs (Nodes s)) (ShardCount s) in
  if bool_decide (ShardMap s = want) then Ok () else
  match filter (fun shard => owner_at (ShardMap s) shard ≠ owner_at want shard) (shards_of s) with
  | shard :: _ => Err (WrongOwner shard (owner_at (ShardMap s) shard) (owner_at want shard))
  | [] => Err MapDiffers
  end.

Inductive baseline_error :=
| TooFewNodes (n : nat) | TargetMissing (nodes : list string)
| BaselineTopology (e : hrw_error) | TargetOwnsNothing.

Definition validateBaseline (s : Snapshot) (target : string) : result baseline_error () :=
  if (Z.of_nat (size (Nodes s)) <? 2) then Err (TooFewNodes (size (Nodes s))) else
  match Nodes s !! target with
  | None => Err (TargetMissing (sortedNodeIDs (Nodes s)))
  | Some _ =>
      match validateExactHRW s with
      | Err e => Err (BaselineTopology e)
      | Ok _ => if bool_decide (shardsOwnedBy s target = []) then Err TargetOwnsNothing else Ok ()
      end
  end.

Record movementStats := MkStats { moved : Z; stable : Z }.

Inductive movement_error :=
| GenerationDidNotIncrease (before after : Z)
| TargetAbsentBefore | TargetStillPresent | TargetPresentBefore
| OtherNodesChanged (got want : list string)
| ShardCountChanged (before after : Z)
| BadTopology (e : hrw_error)
| NotReassigned (shard : Z)
| SurvivorMoved (shard : Z) (from to : string)
| OwnedNoShards
| BaselineNodesNotRestored (got want : list string)
| BaselineMapNotRestored
| TookNoShards.

(** One pass of the shard loop of [validateRemoval]. *)
Definition removal_step (before after : Snapshot) (target : string) (st : movementStats) (shard : Z)
    : result movement_error movementStats :=
  let oldOwner := owner_at (ShardMap before) shard in
  let newOwner := owner_at (ShardMap after) shard in
  if bool_decide (oldOwner = target) then
    if bool_decide (newOwner = target) || bool_decide (newOwner = "") then Err (NotReassigned shard)
    else Ok (MkStats (moved st + 1) (stable st))
  else if bool_decide (newOwner ≠ oldOwner) then Err (SurvivorMoved shard oldOwner newOwner)
  else Ok (MkStats (moved st) (stable st + 1)).

Definition validateRemoval (before after : Snapshot) (target : string)
    : result movement_error movementStats :=
  if Generation after <=? Generation before
  then Err (GenerationDidNotIncrease (Generation before) (Generation after)) else
  match Nodes before !! target with
  | None => Err TargetAbsentBefore
  | Some _ =>
      match Nodes after !! target with
      | Some _ => Err TargetStillPresent
      | None =>
          let expectedNodes := delete target (Nodes before) in
          if bool_decide (Nodes after ≠ expectedNodes)
          then Err (OtherNodesChanged (sortedNodeIDs (Nodes after)) (sortedNodeIDs expectedNodes)) else
          if negb (ShardCount after =? ShardCount before)
          then Err (ShardCountChanged (ShardCount before) (ShardCount after)) else
          match validateExactHRW after with
          | Err e => Err (BadTopology e)
          | Ok _ =>
              stats ← foldM (removal_step before after target) (MkStats 0 0) (shards_of before);
              if moved stats =? 0 then Err OwnedNoShards else Ok stats
          end
      end
  end.

Definition rejoin_step (before after : Snapshot) (target : string) (st : movementStats) (shard : Z)
    : result movement_error movementStats :=
  let oldOwner := owner_at (ShardMap before) shard in
  let newOwner := owner_at (ShardMap after) shard in
  if bool_decide (oldOwner = newOwner) then Ok (MkStats (moved st) (stable st + 1))
  else if bool_decide (newOwner ≠ target) then Err (SurvivorMoved shard oldOwner newOwner)
  else Ok (MkStats (moved st + 1) (stable st)).

Definition validateRejoin (baseline before after : Snapshot) (target : string)
    : result movement_error movementStats :=
  if Generation after <=? Generation before
  then Err (GenerationDidNotIncrease (Generation before) (Generation after)) else
  match Nodes before !! target with
  | Some _ => Err TargetPresentBefore
  | None =>
      if bool_decide (Nodes after ≠ Nodes baseline)
      then Err (BaselineNodesNotRestored (sortedNodeIDs (Nodes after)) (sortedNodeIDs (Nodes baseline))) else
      if negb (ShardCount after =? ShardCount baseline) || bool_decide (ShardMap after ≠ ShardMap baseline)
      then Err BaselineMapNotRestored else
      match validateExactHRW after with
      | Err e => Err (BadTopology e)
      | Ok _ =>
          stats ← foldM (rejoin_step before after target) (MkStats 0 0) (shards_of before);
          if moved stats =? 0 then Err TookNoShards else Ok stats
      end
  end.

Definition sameTopology (a b : Snapshot) : bool :=
  (ShardCount a =? ShardCount b) && bool_decide (Nodes a = Nodes b) &&
  bool_decide (ShardMap a = ShardMap b).

(** ** Deterministic keys *)

(** [[]byte(fmt.Sprintf("%s:%d", prefix, candidate))] *)
Definition numbered (prefix : string) (candidate : Z) : bytes :=
  bytes_of_string (prefix +:+ ":" +:+ Itoa candidate).

(** The candidates from [candidate] on, [fuel] of them. *)
Fixpoint key_search (prefix : string) (want shardCount : Z) (fuel : nat) (candidate : Z) : option bytes :=
  match fuel with
  | O => None
  | S fuel =>
      let key := numbered prefix candidate in
      if ShardForKey key shardCount =? want then Some key
      else key_search prefix want shardCount fuel (candidate + 1)
  end.

(** [None] is the "could not find a key" error. *)
Definition keyForShard (prefix : string) (want shardCount : Z) : option bytes :=
  key_search prefix want shardCount (Z.to_nat maxKeyAttempts) 0.

(** ** The stable workload *)

Record stableEntry := MkStable {
  se_key : bytes; se_value : bytes; se_shard : Z; se_owner : string
}.

Inductive stable_error := TargetOwnsEveryShard | KeysFor (found wanted : nat).

Definition stable_value (namespace : string) (shard : Z) : bytes :=
  bytes_of_string ("stable-value:" +:+ namespace +:+ ":" +:+ Itoa shard).

Definition stable_step (s : Snapshot) (namespace : string) (wanted : gset Z)
    (entries : gmap Z stableEntry) (candidate : Z) : gmap Z stableEntry :=
  let key := numbered (namespace +:+ ":stable") candidate in
  let shard := ShardForKey key (ShardCount s) in
  if bool_decide (shard ∉ wanted) then entries else
  match entries !! shard with
  | Some _ => entries
  | None => <[shard := MkStable key (stable_value namespace shard) shard
                         (owner_at (ShardMap s) shard)]> entries
  end.

Fixpoint stable_loop (s : Snapshot) (namespace : string) (wanted : gset Z) (fuel : nat)
    (candidate : Z) (entries : gmap Z stableEntry) : gmap Z stableEntry :=
  match fuel with
  | O => entries
  | S fuel =>
      if bool_decide (size entries < size wanted)%nat
      then stable_loop s namespace wanted fuel (candidate + 1)
             (stable_step s namespace wanted entries candidate)
      else entries
  end.

Definition shard_le (a b : stableEntry) : Prop := se_shard a ≤ se_shard b.
#[export] Instance shard_le_dec : RelDecision shard_le.
Proof. intros a b. unfold shard_le. apply _. Defined.

(** The entries are collected in map order and sorted by shard; one entry per
    shard makes the result independent of that order. *)
Definition buildStableEntries (s : Snapshot) (target namespace : string)
    : result stable_error (list stableEntry) :=
  let wanted : gset Z := list_to_set
    (filter (fun shard => owner_at (ShardMap s) shard ≠ target) (shards_of s)) in
  if bool_decide (size wanted = 0%nat) then Err TargetOwnsEveryShard else
  let entries := stable_loop s namespace wanted (Z.to_nat maxKeyAttempts) 0 ∅ in
  if negb (bool_decide (size entries = size wanted)) then Err (KeysFor (size entries) (size wanted)) else
  Ok (merge_sort shard_le (map_to_list entries).*2).

(** ** The promotion workload *)

Record promotionEntry := MkPromotion {
  pe_key : bytes; pe_base : string; pe_value : bytes; pe_shard : Z; pe_replicas : list string
}.

Inductive skip_reason :=
| KeysDisabled | FactorZero | NoOwnerMap | NoLiveReplica (shards : nat) | NoKeyFor (shard : Z).

Definition promotionValue (base : string) (round : Z) : bytes :=
  bytes_of_string (base +:+ ":round" +:+ Itoa round).

Definition promotion_entry (s : Snapshot) (namespace : string) (entries : list promotionEntry)
    (shard : Z) : result skip_reason (list promotionEntry) :=
  match keyForShard (namespace +:+ ":promotion:" +:+ Itoa shard) shard (ShardCount s) with
  | None => Err (NoKeyFor shard)
  | Some key =>
      let base := "promotion-value:" +:+ namespace +:+ ":shard" +:+ Itoa shard in
      Ok (entries ++ [MkPromotion key base (promotionValue base 0) shard (Snapshot_Replicas s shard)])
  end.

(** [Err] is the skip reason, with no entries. *)
Definition buildPromotionEntries (s : Snapshot) (targetShards : list Z) (namespace : string) (want : Z)
    : result skip_reason (list promotionEntry) :=
  if want =? 0 then Err KeysDisabled else
  if ReplicationFactor s =? 0 then Err FactorZero else
  if bool_decide (size (Owners s) = 0%nat) then Err NoOwnerMap else
  let usable := filter (fun shard => Snapshot_Replicas s shard ≠ []) targetShards in
  if bool_decide (usable = []) then Err (NoLiveReplica (length targetShards)) else
  let want := if Z.of_nat (length usable) <? want then Z.of_nat (length usable) else want in
  foldM (promotion_entry s namespace) [] (take (Z.to_nat want) usable).

Definition refresh_entry (round : Z) (e : promotionEntry) : promotionEntry :=
  MkPromotion (pe_key e) (pe_base e) (promotionValue (pe_base e) round) (pe_shard e) (pe_replicas e).
Definition refreshPromotionValues (entries : list promotionEntry) (round : Z) : list promotionEntry :=
  refresh_entry round <$> entries.

(** ** The exact-placement check *)

(** The shard map is the router's assignment of the snapshot's own nodes. *)
Definition hrw (s : Snapshot) : Prop :=
  ShardMap s = AssignShards (sortedNodeIDs (Nodes s)) (ShardCount s).

Lemma sortedNodeIDs_Permutation nodes : sortedNodeIDs nodes ≡ₚ (map_to_list nodes).*1.
Proof. apply merge_sort_Permutation. Qed.

Lemma elem_of_sortedNodeIDs nodes id : id ∈ sortedNodeIDs nodes ↔ is_Some (nodes !! id).
Proof.
  rewrite sortedNodeIDs_Permutation, list_elem_of_fmap. split.
  - intros ([k a] & -> & H%elem_of_map_to_list). by exists a.
  - intros [a H%elem_of_map_to_list]. by exists (id, a).
Qed.

Lemma NoDup_sortedNodeIDs nodes : NoDup (sortedNodeIDs nodes).
Proof. rewrite sortedNodeIDs_Permutation. apply NoDup_fst_map_to_list. Qed.

Lemma sortedNodeIDs_delete target nodes :
  sortedNodeIDs (delete target nodes) ≡ₚ filter (fun id => id ≠ target) (sortedNodeIDs nodes).
Proof.
  apply NoDup_Permutation; [apply NoDup_sortedNodeIDs|apply NoDup_filter, NoDup_sortedNodeIDs|].
  intros id. rewrite list_elem_of_filter, !elem_of_sortedNodeIDs.
  destruct (decide (id = target)) as [->|Hne].
  - rewrite lookup_delete_eq. split; [by intros []|naive_solver].
  - rewrite lookup_delete_ne by done. naive_solver.
Qed.

Lemma validateExactHRW_Ok s u : validateExactHRW s = Ok u ↔ hrw s.
Proof.
  destruct u. unfold validateExactHRW, hrw. case_bool_decide as H; [done|].
  split; [|done]. by destruct (filter _ _).
Qed.

(** The two messages of the check are told apart by the shard count alone: a map
    that differs from the assignment differs at a shard, or outside them. *)
Lemma validateExactHRW_WrongOwner s shard got want :
  validateExactHRW s = Err (WrongOwner shard got want) →
  0 ≤ shard < ShardCount s ∧ got = owner_at (ShardMap s) shard ∧ got ≠ want ∧
  want = owner_at (AssignShards (sortedNodeIDs (Nodes s)) (ShardCount s)) shard.
Proof.
  unfold validateExactHRW. case_bool_decide; [done|].
  destruct (filter _ _) as [|x l] eqn:Hf; [done|]. intros [= -> <- <-].
  assert (shard ∈ shard :: l) as Hin by left. rewrite <-Hf, list_elem_of_filter in Hin.
  destruct Hin as [? Hin%elem_of_seqZ]. repeat split; try done; lia.
Qed.

(** The owner of a shard in an exact placement. *)
Lemma hrw_owner s sh :
  hrw s → 0 ≤ sh < ShardCount s →
  owner_at (ShardMap s) sh = default "" (head (ranked_ids sh (sortedNodeIDs (Nodes s)))).
Proof.
  intros H Hsh. unfold owner_at. by rewrite H, lookup_AssignShards, decide_True.
Qed.

Lemma hrw_owner_live s sh :
  hrw s → 0 ≤ sh < ShardCount s → Nodes s ≠ ∅ →
  is_Some (Nodes s !! owner_at (ShardMap s) sh).
Proof.
  intros H Hsh Hne. rewrite hrw_owner by done.
  pose proof (ranked_ids_Permutation sh (sortedNodeIDs (Nodes s))) as Hp.
  apply elem_of_sortedNodeIDs.
  destruct (ranked_ids sh (sortedNodeIDs (Nodes s))) as [|o l]; cbn; [|rewrite <-Hp; left].
  exfalso. apply Hne, map_empty. intros id. apply eq_None_not_Some.
  rewrite <-elem_of_sortedNodeIDs, <-Hp. set_solver.
Qed.

(** What rendezvous hashing does to one shard when [target] leaves. *)
Lemma hrw_delete before after target sh :
  hrw before → hrw after → Nodes after = delete target (Nodes before) →
  ShardCount after = ShardCount before → 0 ≤ sh < ShardCount before →
  owner_at (ShardMap before) sh ≠ target →
  owner_at (ShardMap after) sh = owner_at (ShardMap before) sh.
Proof.
  intros Hb Ha Hn Hc Hsh. rewrite (hrw_owner before), (hrw_owner after) by (done || lia).
  rewrite Hn, (ranked_ids_Proper sh _ _ (sortedNodeIDs_delete target (Nodes before))), ranked_ids_filter.
  destruct (ranked_ids sh _) as [|o l]; [done|]. intros Ho.
  by rewrite filter_cons_True by exact Ho.
Qed.

(** The hypotheses on a placement that the snapshot invariant gives. *)
Definition named (s : Snapshot) : Prop := ∀ id, is_Some (Nodes s !! id) → id ≠ "".

Lemma hrw_delete_target before after target sh :
  hrw after → named before → Nodes after = delete target (Nodes before) → Nodes after ≠ ∅ →
  0 ≤ sh < ShardCount after →
  owner_at (ShardMap after) sh ≠ target ∧ owner_at (ShardMap after) sh ≠ "".
Proof.
  intros Ha Hnm Hn Hne Hsh. pose proof (hrw_owner_live after sh Ha Hsh Hne) as [a Hl].
  rewrite Hn in Hl. apply lookup_delete_Some in Hl as [Ht Hl].
  split; [done|]. apply Hnm. by rewrite Hl.
Qed.

(** ** The movement loops *)

Definition count {A} (P : A → Prop) `{!∀ x, Decision (P x)} (l : list A) : Z :=
  Z.of_nat (length (filter P l)).

Lemma count_cons {A} (P : A → Prop) `{!∀ x, Decision (P x)} x l :
  count P (x :: l) = count P l + (if decide (P x) then 1 else 0).
Proof. unfold count. rewrite filter_cons. case_decide; cbn [length]; lia. Qed.

Lemma count_complement {A} (P : A → Prop) `{!∀ x, Decision (P x)} l :
  count P l + count (fun x => ¬ P x) l = Z.of_nat (length l).
Proof.
  induction l as [|x l IH]; [done|]. rewrite !count_cons. cbn [length].
  repeat case_decide; naive_solver lia.
Qed.

Lemma count_zero {A} (P : A → Prop) `{!∀ x, Decision (P x)} l : count P l = 0 ↔ filter P l = [].
Proof. unfold count. split; [|by intros ->]. destruct (filter P l); cbn; [done|lia]. Qed.

(** A loop that accepts or refuses each element and counts it on one of two sides. *)
Definition tally {A} (P : A → Prop) `{!∀ x, Decision (P x)} (st : movementStats) (l : list A) : movementStats :=
  MkStats (moved st + count P l) (stable st + count (fun x => ¬ P x) l).

Lemma counting_loop {A E} (f : movementStats → A → result E movementStats) (ok P : A → Prop)
    `{!∀ x, Decision (P x)} l st st' :
  (∀ st x st1, f st x = Ok st1 ↔ ok x ∧ st1 = tally P st [x]) →
  foldM f st l = Ok st' ↔ Forall ok l ∧ st' = tally P st l.
Proof.
  intros Hf. revert st. induction l as [|x l IH]; intros st.
  { unfold tally, count. cbn. rewrite !Z.add_0_r. destruct st. cbn. naive_solver. }
  cbn [foldM]. rewrite result_bind_Ok. setoid_rewrite Hf. setoid_rewrite IH. rewrite Forall_cons.
  assert (tally P (tally P st [x]) l = tally P st (x :: l)) as Ht.
  { unfold tally. rewrite !count_cons. cbn [moved stable]. change (count P []) with 0.
    change (count (fun x => ¬ P x) []) with 0. f_equal; lia. }
  rewrite <-Ht. naive_solver.
Qed.

Section loops.
Context (before after : Snapshot) (target : string).

Definition removal_ok (sh : Z) : Prop :=
  if decide (owner_at (ShardMap before) sh = target)
  then owner_at (ShardMap after) sh ≠ target ∧ owner_at (ShardMap after) sh ≠ ""
  else owner_at (ShardMap after) sh = owner_at (ShardMap before) sh.

Definition rejoin_ok (sh : Z) : Prop :=
  owner_at (ShardMap before) sh = owner_at (ShardMap after) sh ∨ owner_at (ShardMap after) sh = target.

Lemma removal_loop_Ok l st st' :
  foldM (removal_step before after target) st l = Ok st' ↔
  Forall removal_ok l ∧ st' = tally (fun sh => owner_at (ShardMap before) sh = target) st l.
Proof.
  apply counting_loop. clear. intros st sh st1. unfold removal_step, removal_ok, tally.
  rewrite !count_cons. unfold count. cbn [length filter list_filter Z.of_nat].
  repeat case_decide; repeat case_bool_decide; cbn [orb]; rewrite ?Z.add_0_l, ?Z.add_0_r; naive_solver.
Qed.

Lemma rejoin_loop_Ok l st st' :
  foldM (rejoin_step before after target) st l = Ok st' ↔
  Forall rejoin_ok l ∧
  st' = tally (fun sh => owner_at (ShardMap before) sh ≠ owner_at (ShardMap after) sh) st l.
Proof.
  apply counting_loop. clear. intros st sh st1. unfold rejoin_step, rejoin_ok, tally.
  rewrite !count_cons. unfold count. cbn [length filter list_filter Z.of_nat].
  repeat case_decide; repeat case_bool_decide; cbn [orb]; rewrite ?Z.add_0_l, ?Z.add_0_r; naive_solver.
Qed.
End loops.

(** The shard numbers a placement counts. *)
Lemma elem_of_shards_of s sh : sh ∈ shards_of s ↔ 0 ≤ sh < ShardCount s.
Proof. unfold shards_of. rewrite elem_of_seqZ. lia. Qed.

Lemma length_shards_of s : 0 ≤ ShardCount s → Z.of_nat (length (shards_of s)) = ShardCount s.
Proof. intros ?. unfold shards_of. rewrite length_seqZ. lia. Qed.

(** The removal check, as the conjunction of its guards. *)
Lemma validateRemoval_Ok before after target st :
  validateRemoval before after target = Ok st ↔
  Generation before < Generation after ∧ is_Some (Nodes before !! target) ∧
  Nodes after = delete target (Nodes before) ∧ ShardCount after = ShardCount before ∧ hrw after ∧
  Forall (removal_ok before after target) (shards_of before) ∧ shardsOwnedBy before target ≠ [] ∧
  st = tally (fun sh => owner_at (ShardMap before) sh = target) (MkStats 0 0) (shards_of before).
Proof.
  unfold validateRemoval. destruct (Z.leb_spec (Generation after) (Generation before)); [naive_solver lia|].
  destruct (Nodes before !! target) as [a|] eqn:Hb; [|naive_solver].
  destruct (Nodes after !! target) as [a'|] eqn:Ha.
  { split; [done|]. intros (_ & _ & Hn & _). by rewrite Hn, lookup_delete_eq in Ha. }
  case_bool_decide as Hn; [naive_solver|].
  destruct (Z.eqb_spec (ShardCount after) (ShardCount before)); [|naive_solver]. cbn [negb].
  destruct (validateExactHRW after) as [u|err] eqn:Hv.
  2:{ split; [done|]. intros (_ & _ & _ & _ & Hh & _).
      by rewrite (proj2 (validateExactHRW_Ok after ()) Hh) in Hv. }
  apply validateExactHRW_Ok in Hv. rewrite result_bind_Ok. setoid_rewrite removal_loop_Ok.
  unfold shardsOwnedBy. rewrite <-count_zero. split.
  - intros (st' & [Hall ->] & Hst). cbn [moved tally] in Hst. case_bool; [done|]. simplify_eq. eauto 10.
  - intros (_ & _ & _ & _ & _ & Hall & Hne & ->). eexists. split; [eauto|]. cbn [moved tally].
    case_bool; [done|]. done.
Qed.

Lemma validateRejoin_Ok baseline before after target st :
  validateRejoin baseline before after target = Ok st ↔
  Generation before < Generation after ∧ Nodes before !! target = None ∧
  Nodes after = Nodes baseline ∧ ShardCount after = ShardCount baseline ∧
  ShardMap after = ShardMap baseline ∧ hrw after ∧
  Forall (rejoin_ok before after target) (shards_of before) ∧ moved st ≠ 0 ∧
  st = tally (fun sh => owner_at (ShardMap before) sh ≠ owner_at (ShardMap after) sh)
         (MkStats 0 0) (shards_of before).
Proof.
  unfold validateRejoin. destruct (Z.leb_spec (Generation after) (Generation before)); [naive_solver lia|].
  destruct (Nodes before !! target) as [a|] eqn:Hb; [naive_solver|].
  case_bool_decide as Hn; [naive_solver|].
  destruct (Z.eqb_spec (ShardCount after) (ShardCount baseline)); [|naive_solver]. cbn [negb orb].
  case_bool_decide as Hm; [naive_solver|].
  destruct (validateExactHRW after) as [u|err] eqn:Hv.
  2:{ split; [done|]. intros (_ & _ & _ & _ & _ & Hh & _).
      by rewrite (proj2 (validateExactHRW_Ok after ()) Hh) in Hv. }
  apply validateExactHRW_Ok in Hv. rewrite result_bind_Ok. setoid_rewrite rejoin_loop_Ok. split.
  - intros (st' & [Hall Hst] & Hm'). case_bool; [done|]. simplify_eq. eauto 12.
  - intros (_ & _ & _ & _ & _ & _ & Hall & Hne & Hst). exists st. split; [done|]. by case_bool.
Qed.

(** On placements of the router the per-shard tests of both checks always hold. *)
Section exact.
Context (before after : Snapshot) (target : string).
Context (Hbefore : hrw before) (Hafter : hrw after) (Hnamed : named before).
Context (Hnodes : Nodes after = delete target (Nodes before)).
Context (Hcount : ShardCount after = ShardCount before).

Lemma removal_moves_ok : Nodes after ≠ ∅ → Forall (removal_ok before after target) (shards_of before).
Proof using All.
  intros Hne. apply Forall_forall. intros sh Hsh%elem_of_shards_of. unfold removal_ok.
  case_decide as Ho; [|by apply (hrw_delete before after target)].
  apply (hrw_delete_target before after target); (done || lia).
Qed.

Lemma removal_moves_fail : Nodes after = ∅ → shards_of before ≠ [] → is_Some (Nodes before !! target) →
  ¬ Forall (removal_ok before after target) (shards_of before).
Proof using All.
  intros He Hs Ht Hall. destruct (shards_of before) as [|sh l] eqn:Hl; [done|].
  assert (0 ≤ sh < ShardCount before) as Hsh by (apply elem_of_shards_of; rewrite Hl; left).
  apply Forall_cons in Hall as [Hok _]. unfold removal_ok in Hok.
  assert (owner_at (ShardMap after) sh = "") as Hempty.
  { rewrite hrw_owner by (done || lia). rewrite He.
    unfold sortedNodeIDs. rewrite map_to_list_empty. done. }
  case_decide as Ho; [naive_solver|].
  pose proof (hrw_owner_live before sh Hbefore Hsh) as Hlive.
  rewrite <-Hok, Hempty in Hlive. apply (Hnamed ""); [|done]. apply Hlive.
  intros Hb. destruct Ht as [a Ht]. by rewrite Hb, lookup_empty in Ht.
Qed.

(** Where a rejoin is the removal undone, the shards that differ are the target's. *)
Lemma removal_differs sh :
  is_Some (Nodes before !! target) → 0 ≤ sh < ShardCount before →
  owner_at (ShardMap after) sh ≠ owner_at (ShardMap before) sh ↔ owner_at (ShardMap before) sh = target.
Proof using All.
  intros Ht Hsh. split.
  - intros Hd. destruct (decide (owner_at (ShardMap before) sh = target)); [done|].
    exfalso. apply Hd. by apply (hrw_delete before after target).
  - intros Ho Hd. rewrite Ho in Hd. destruct (decide (Nodes after = ∅)) as [He|Hne].
    + rewrite hrw_owner in Hd by (done || lia). rewrite He in Hd. unfold sortedNodeIDs in Hd.
      rewrite map_to_list_empty in Hd. cbn in Hd. by apply (Hnamed target).
    + by destruct (hrw_delete_target before after target sh Hafter Hnamed Hnodes Hne ltac:(lia)).
Qed.
End exact.

Lemma count_ext {A} (P Q : A → Prop) `{!∀ x, Decision (P x), !∀ x, Decision (Q x)} l :
  (∀ x, x ∈ l → P x ↔ Q x) → count P l = count Q l.
Proof.
  induction l as [|x l IH]; intros Hpq; [done|]. rewrite !count_cons, IH by set_solver.
  specialize (Hpq x ltac:(left)). repeat case_decide; naive_solver.
Qed.

(** What both checks report: the target's shards, and the others. *)
Definition moved_by (s : Snapshot) (target : string) : movementStats :=
  MkStats (Z.of_nat (length (shardsOwnedBy s target)))
          (ShardCount s - Z.of_nat (length (shardsOwnedBy s target))).

Lemma tally_owned s target :
  0 ≤ ShardCount s →
  tally (fun sh => owner_at (ShardMap s) sh = target) (MkStats 0 0) (shards_of s) = moved_by s target.
Proof.
  intros Hc. unfold tally, moved_by. cbn [moved stable].
  pose proof (count_complement (fun sh => owner_at (ShardMap s) sh = target) (shards_of s)) as H.
  rewrite length_shards_of in H by done. fold (shardsOwnedBy s target) in *.
  change (count (fun sh => owner_at (ShardMap s) sh = target) (shards_of s))
    with (Z.of_nat (length (shardsOwnedBy s target))) in *.
  f_equal; lia.
Qed.

(** ** The stable workload covers every shard the target does not own *)

Section stable.
Context (s : Snapshot) (namespace : string) (wanted : gset Z).

Definition entry_ok (sh : Z) (e : stableEntry) : Prop :=
  sh ∈ wanted ∧ se_shard e = sh ∧ ShardForKey (se_key e) (ShardCount s) = sh ∧
  se_owner e = owner_at (ShardMap s) sh ∧ se_value e = stable_value namespace sh.

Lemma stable_loop_ok fuel candidate entries :
  map_Forall entry_ok entries → map_Forall entry_ok (stable_loop s namespace wanted fuel candidate entries).
Proof using Type.
  revert candidate entries. induction fuel as [|fuel IH]; intros candidate entries H; [done|].
  cbn [stable_loop]. case_bool_decide; [|done]. apply IH. unfold stable_step.
  case_bool_decide as Hw; [done|]. destruct (entries !! _) eqn:He; [done|].
  apply map_Forall_insert; [done|]. by split.
Qed.

Lemma entries_complete (entries : gmap Z stableEntry) :
  map_Forall entry_ok entries → size entries = size wanted → dom entries = wanted.
Proof using Type.
  intros Hok Hsize. apply leibniz_equiv, set_subseteq_size_equiv; [|by rewrite size_dom, Hsize].
  intros sh [e He]%elem_of_dom. by apply (Hok sh e) in He as [? _].
Qed.

Lemma entries_shards (entries : gmap Z stableEntry) :
  map_Forall entry_ok entries → se_shard <$> (map_to_list entries).*2 = (map_to_list entries).*1.
Proof using Type.
  intros Hok. rewrite <-list_fmap_compose. apply list_fmap_ext. intros i [sh e] Hi. cbn.
  apply list_elem_of_lookup_2, elem_of_map_to_list in Hi. by apply (Hok sh e) in Hi as (_ & ? & _).
Qed.
End stable.

Lemma se_shard_sorted (l : list stableEntry) :
  StronglySorted shard_le l → StronglySorted Z.le (se_shard <$> l).
Proof. induction 1; cbn; constructor; [done|]. by apply Forall_fmap. Qed.

Lemma seqZ_sorted m n : StronglySorted Z.le (seqZ m n).
Proof.
  destruct (decide (n ≤ 0)); [by rewrite seqZ_nil by done; constructor|].
  revert m. pattern n. apply natlike_ind; [by constructor| |lia].
  intros k Hk IH m. rewrite seqZ_cons by lia. replace (Z.pred (Z.succ k)) with k by lia.
  constructor; [apply IH|]. apply Forall_forall. intros x Hx%elem_of_seqZ. lia.
Qed.

#[export] Instance shard_le_trans : Transitive shard_le.
Proof. intros a b c. unfold shard_le. lia. Qed.
#[export] Instance shard_le_total : Total shard_le.
Proof. intros a b. unfold shard_le. lia. Qed.

(** The entries of a built workload, in shard order. *)
Lemma buildStableEntries_Ok s target namespace l :
  buildStableEntries s target namespace = Ok l →
  se_shard <$> l = filter (fun sh => owner_at (ShardMap s) sh ≠ target) (shards_of s) ∧
  Forall (fun e => ShardForKey (se_key e) (ShardCount s) = se_shard e ∧
                   se_owner e = owner_at (ShardMap s) (se_shard e) ∧
                   se_value e = stable_value namespace (se_shard e)) l.
Proof.
  unfold buildStableEntries. set (wanted := list_to_set _ : gset Z).
  case_bool_decide as Hz; [done|]. set (entries := stable_loop _ _ _ _ _ _).
  case_bool_decide as Hsize; [|done]. cbn [negb]. intros [= <-].
  pose proof (stable_loop_ok s namespace wanted (Z.to_nat maxKeyAttempts) 0 ∅ (map_Forall_empty _)) as Hok.
  fold entries in Hok. pose proof (entries_complete s namespace wanted entries Hok Hsize) as Hdom. split.
  - apply (StronglySorted_unique Z.le).
    + apply se_shard_sorted, (StronglySorted_merge_sort shard_le).
    + apply StronglySorted_filter, seqZ_sorted.
    + rewrite merge_sort_Permutation, (entries_shards s namespace wanted) by done.
      apply NoDup_Permutation; [apply NoDup_fst_map_to_list|apply NoDup_filter, NoDup_seqZ|].
      intros sh. transitivity (sh ∈ wanted); [|unfold wanted; by rewrite elem_of_list_to_set].
      rewrite <-Hdom, elem_of_dom, list_elem_of_fmap. split.
      * intros ([k e] & -> & He%elem_of_map_to_list). by exists e.
      * intros [e He%elem_of_map_to_list]. by exists (sh, e).
  - apply Forall_forall. intros e He. rewrite merge_sort_Permutation in He.
    apply list_elem_of_fmap in He as ([k e'] & -> & He%elem_of_map_to_list).
    apply (Hok k e') in He as (_ & <- & ? & ? & ?). done.
Qed.

(** ** The promotion workload *)

Lemma key_search_Some prefix want shardCount fuel candidate key :
  key_search prefix want shardCount fuel candidate = Some key →
  ShardForKey key shardCount = want ∧
  ∃ i, candidate ≤ i < candidate + Z.of_nat fuel ∧ key = numbered prefix i.
Proof.
  revert candidate. induction fuel as [|fuel IH]; intros candidate H; [done|]. cbn [key_search] in H.
  destruct (Z.eqb_spec (ShardForKey (numbered prefix candidate) shardCount) want); simplify_eq.
  - split; [done|]. exists candidate. split; [lia|done].
  - apply IH in H as (? & i & ? & ?). split; [done|]. exists i. split; [lia|done].
Qed.

Lemma keyForShard_Some prefix want shardCount key :
  keyForShard prefix want shardCount = Some key → ShardForKey key shardCount = want.
Proof. by intros [? _]%key_search_Some. Qed.

Definition promotion_ok (s : Snapshot) (e : promotionEntry) : Prop :=
  ShardForKey (pe_key e) (ShardCount s) = pe_shard e ∧ pe_value e = promotionValue (pe_base e) 0 ∧
  pe_replicas e = Snapshot_Replicas s (pe_shard e).

Lemma promotion_loop_Ok s namespace shards acc es :
  foldM (promotion_entry s namespace) acc shards = Ok es →
  ∃ l, es = acc ++ l ∧ pe_shard <$> l = shards ∧ Forall (promotion_ok s) l.
Proof.
  revert acc. induction shards as [|sh shards IH]; intros acc H; cbn [foldM] in H.
  { exists []. simplify_eq. rewrite app_nil_r. done. }
  apply result_bind_Ok in H as (acc' & Hs & H). unfold promotion_entry in Hs.
  destruct (keyForShard _ sh _) as [key|] eqn:Hk; [|done]. simplify_eq.
  apply IH in H as (l & -> & Hl & Hall). eexists (_ :: l). rewrite <-app_assoc. cbn. rewrite Hl.
  split_and!; [done|done|]. constructor; [|done]. apply keyForShard_Some in Hk. by split.
Qed.

Lemma buildPromotionEntries_Ok s ts namespace want es :
  buildPromotionEntries s ts namespace want = Ok es →
  pe_shard <$> es = take (Z.to_nat want) (filter (fun sh => Snapshot_Replicas s sh ≠ []) ts) ∧
  Forall (promotion_ok s) es.
Proof.
  unfold buildPromotionEntries. destruct (want =? 0); [done|]. destruct (ReplicationFactor s =? 0); [done|].
  case_bool_decide; [done|]. set (usable := filter _ ts). case_bool_decide; [done|].
  intros (l & -> & Hl & Hall)%promotion_loop_Ok. cbn. split; [|done]. rewrite Hl.
  case_bool; [|done]. rewrite Nat2Z.id. rewrite !take_ge by lia. done.
Qed.

(** A fresh round is a fresh value. *)
Lemma Itoa_inj n m : in_i64 n → in_i64 m → Itoa n = Itoa m → n = m.
Proof.
  intros Hn Hm H. apply (f_equal Atoi) in H. rewrite !Atoi_Itoa in H by done. congruence.
Qed.

Lemma promotionValue_inj base r r' :
  in_i64 r → in_i64 r' → promotionValue base r = promotionValue base r' → r = r'.
Proof.
  intros Hr Hr' Heq. apply Itoa_inj; [done..|]. unfold promotionValue in Heq.
  rewrite !bytes_of_string_app in Heq. apply app_inv_head, app_inv_head in Heq.
  by apply bytes_of_string_inj in Heq.
Qed.

(** What the metadata service publishes beside an exact shard map. *)
Definition published_owners (s : Snapshot) : Prop :=
  ∃ rf, in_i64 rf ∧ AssignShardOwners (sortedNodeIDs (Nodes s)) (ShardCount s) rf = Some (Owners s).

(** A router placement of distinct named addresses is a well-formed topology. *)
Lemma placement_topology_ok s :
  0 < ShardCount s < 2 ^ 32 → (∀ id a, Nodes s !! id = Some a → id ≠ "" ∧ a ≠ "") →
  (∀ id id' a, Nodes s !! id = Some a → Nodes s !! id' = Some a → id = id') →
  Nodes s ≠ ∅ → hrw s → published_owners s → topology_ok s.
Proof.
  intros Hc Hnames Hinj Hne Hh (rf & Hrf & Hown). split; [|unfold in_u32; lia].
  assert (∀ sh, is_Some (ShardMap s !! sh) ↔ 0 ≤ sh < ShardCount s) as Hdom.
  { intros sh. rewrite Hh, lookup_AssignShards. case_decide as Hs; [|split; [by intros []|done]].
    split; [done|]. intros _. destruct (hrw_owner_live s sh Hh Hs Hne) as [a Ha].
    rewrite hrw_owner in Ha by done. destruct (head _); [done|]. by destruct (Hnames _ _ Ha). }
  assert (∀ sh o, ShardMap s !! sh = Some o → is_Some (Nodes s !! o)) as Hlive.
  { intros sh o Ho. assert (0 ≤ sh < ShardCount s) as Hs by (apply Hdom; by rewrite Ho).
    pose proof (hrw_owner_live s sh Hh Hs Hne) as Hl. unfold owner_at in Hl. by rewrite Ho in Hl. }
  assert (∀ sh o, Owners s !! sh = Some o →
    0 ≤ sh < ShardCount s ∧ owners_spec sh (sortedNodeIDs (Nodes s)) rf = Some o) as Hspec.
  { intros sh o. rewrite (lookup_AssignShardOwners _ _ _ _ _ Hrf Hown). by case_decide. }
  pose proof (PrimaryMap_AssignShardOwners _ _ _ _ Hrf Hown) as Hprim. rewrite <-Hh in Hprim.
  split; try done; [lia|naive_solver| |].
  - intros sh o Ho. destruct (Hspec sh o Ho) as [Hs Ho'].
    destruct (owners_wf sh _ _ o (NoDup_sortedNodeIDs _) Ho') as (Hnd & Hin & _).
    split_and!; [|done|].
    + rewrite <-Hprim. unfold PrimaryMap. by rewrite lookup_fmap, Ho.
    + apply Forall_forall. intros r Hr. apply elem_of_sortedNodeIDs, Hin. by right.
  - right. intros sh. rewrite <-Hprim. unfold PrimaryMap. rewrite lookup_fmap. by rewrite fmap_is_Some.
Qed.

(** Three nodes, eight shards, factor 1, for the witnesses. *)
Module ChaosDemo.
Definition nodes : gmap string string :=
  {[ "node-0" := "10.0.0.1:7100"; "node-1" := "10.0.0.2:7100"; "node-2" := "10.0.0.3:7100" ]}.
Definition target : string := "node-0".
Definition place (generation : Z) (ns : gmap string string) : Snapshot :=
  MkSnapshot generation [] 8 (AssignShards (sortedNodeIDs ns) 8) ns
    (default ∅ (AssignShardOwners (sortedNodeIDs ns) 8 1)) 1 "cp-0" 3.
Definition baseline : Snapshot := place 5 nodes.
Definition removed : Snapshot := place 6 (delete target nodes).
Definition rejoined : Snapshot := place 7 nodes.

Lemma nodes_ok (ns : gmap string string) :
  bool_decide (map_Forall (fun id a => id ≠ "" ∧ a ≠ "" ∧ map_Forall (fun id' a' => a' = a → id' = id) ns) ns) = true →
  (∀ id a, ns !! id = Some a → id ≠ "" ∧ a ≠ "") ∧
  (∀ id id' a, ns !! id = Some a → ns !! id' = Some a → id = id').
Proof.
  intros H%bool_decide_eq_true. split.
  - intros id a Ha. by destruct (H id a Ha) as (? & ? & _).
  - intros id id' a Ha Ha'. destruct (H id' a Ha') as (_ & _ & Hi). by apply (Hi id a).
Qed.

Lemma placed_ok g ns :
  bool_decide (map_Forall (fun id a => id ≠ "" ∧ a ≠ "" ∧ map_Forall (fun id' a' => a' = a → id' = id) ns) ns) = true →
  ns ≠ ∅ → topology_ok (place g ns).
Proof.
  intros [H1 H2]%nodes_ok Hne. apply placement_topology_ok; try done; cbn.
  exists 1. split; [unfold in_i64; lia|]. cbn.
  by destruct (AssignShardOwners_total (sortedNodeIDs ns) 8 1 ltac:(unfold in_i64; lia) ltac:(done)) as (m & -> & _).
Qed.

Lemma removal_eq : validateRemoval baseline removed target = Ok (moved_by baseline target).
Proof. vm_compute. reflexivity. Qed.
Lemma rejoin_eq : validateRejoin baseline removed rejoined target = Ok (moved_by baseline target).
Proof. vm_compute. reflexivity. Qed.
End ChaosDemo.

(** ** Properties *)

(** The removal check is exact: between router placements it accepts when, and
    only when, the generation grew, the target was a member that owned a shard,
    precisely the target left, somebody remains, and the new map is the router's;
    its two per-shard tests (no survivor-to-survivor move, every orphan reassigned)
    never refuse a correct cluster, and the counts it reports are the target's
    shards and all the others. *)
Theorem removal_check_exact before after target st
  (Hbefore : hrw before) (Hnamed : named before) (Hcount : 0 ≤ ShardCount before) :
  validateRemoval before after target = Ok st ↔
  Generation before < Generation after ∧ is_Some (Nodes before !! target) ∧
  Nodes after = delete target (Nodes before) ∧ Nodes after ≠ ∅ ∧
  ShardCount after = ShardCount before ∧ hrw after ∧ shardsOwnedBy before target ≠ [] ∧
  st = moved_by before target.
Proof.
  rewrite validateRemoval_Ok, tally_owned by done. split.
  - intros (Hg & Ht & Hn & Hc & Ha & Hall & Hne & ->). split_and!; try done.
    intros He. apply (removal_moves_fail before after target) in Hall; try done.
    intros Hs. apply Hne. unfold shardsOwnedBy. by rewrite Hs.
  - intros (Hg & Ht & Hn & Hne & Hc & Ha & Hown & ->). split_and!; try done.
    by apply removal_moves_ok.
Qed.

(** The rejoin check is exact: after a removal of the target from the baseline,
    it accepts when, and only when, the generation grew and exactly the baseline's
    nodes and map are back; it then counts the shards the removal had moved, so the
    two transitions of a cycle report the same movement. *)
Theorem rejoin_check_exact baseline before after target st
  (Hbaseline : hrw baseline) (Hnamed : named baseline) (Hcount : 0 ≤ ShardCount baseline)
  (Hremoved : is_ok (validateRemoval baseline before target) = true) :
  validateRejoin baseline before after target = Ok st ↔
  Generation before < Generation after ∧ Nodes after = Nodes baseline ∧
  ShardCount after = ShardCount baseline ∧ ShardMap after = ShardMap baseline ∧
  validateRemoval baseline before target = Ok st.
Proof.
  destruct (validateRemoval baseline before target) as [st'|] eqn:Hr; [clear Hremoved|done].
  apply validateRemoval_Ok in Hr as (_ & Ht & Hn & Hc & Hb & _ & Hown & Hst').
  assert (∀ sh, sh ∈ shards_of before → owner_at (ShardMap before) sh ≠ owner_at (ShardMap baseline) sh ↔
            owner_at (ShardMap baseline) sh = target) as Hdiff.
  { intros sh Hsh%elem_of_shards_of. apply (removal_differs baseline before); try done. lia. }
  assert (shards_of before = shards_of baseline) as Hshards by (unfold shards_of; by rewrite Hc).
  assert (tally (fun sh => owner_at (ShardMap before) sh ≠ owner_at (ShardMap baseline) sh)
            (MkStats 0 0) (shards_of before) = st') as Htally.
  { rewrite Hst', <-Hshards. unfold tally. f_equal; f_equal; apply count_ext; [done|].
    intros sh Hsh. specialize (Hdiff sh Hsh). naive_solver. }
  rewrite validateRejoin_Ok. split.
  - intros (Hg & _ & Hn' & Hc' & Hm & _ & _ & _ & ->). split_and!; try done.
    rewrite Hm, Htally. done.
  - intros (Hg & Hn' & Hc' & Hm & [= <-]). rewrite Hm, Htally. split_and!; try done.
    + by rewrite Hn, lookup_delete_eq.
    + unfold hrw. by rewrite Hm, Hn', Hc'.
    + apply Forall_forall. intros sh Hsh. unfold rejoin_ok. rewrite Hm.
      destruct (decide (owner_at (ShardMap before) sh = owner_at (ShardMap baseline) sh)); [by left|].
      right. by apply Hdiff.
    + rewrite Hst'. unfold tally. cbn [moved]. rewrite Z.add_0_l, count_zero. done.
Qed.

(** The SDK sends a key to the address of its shard's owner. *)
Lemma routeKey_owner {E} (c : Client E) key s owner address :
  c_topology c = s → c_closed c = false → topology_ok s →
  owner_at (ShardMap s) (ShardForKey key (ShardCount s)) = owner → Nodes s !! owner = Some address →
  routeKey c key = Ok address.
Proof.
  intros <- Hc Ht Ho Ha.
  destruct (routeKey_ok c key Ht Hc) as (o & a & Ho' & Ha' & Hr & _).
  { intros He. by rewrite He, lookup_empty in Ha. }
  unfold owner_at in Ho. rewrite Ho' in Ho. cbn in Ho. subst o. congruence.
Qed.

(** C26: the stable workload stays put through a whole cycle: it has exactly one key
    for every shard the target does not own, and whichever of the baseline, the
    accepted removal or the accepted rejoin an open SDK client has installed, it
    sends each key to the same address, that of the key's baseline owner; a miss on
    this workload is therefore lost data, never rerouting. *)
Theorem stable_workload_survives {E} baseline removed rejoined target namespace l st st'
  (Hwf : topology_ok baseline) (Hwf1 : topology_ok removed) (Hwf2 : topology_ok rejoined)
  (Hbuilt : buildStableEntries baseline target namespace = Ok l)
  (Hremoval : validateRemoval baseline removed target = Ok st)
  (Hrejoin : validateRejoin baseline removed rejoined target = Ok st') :
  se_shard <$> l = filter (fun sh => owner_at (ShardMap baseline) sh ≠ target) (shards_of baseline) ∧
  Forall (fun e => ∃ address, Nodes baseline !! se_owner e = Some address ∧
    ∀ c : Client E, c_closed c = false → c_topology c ∈ [baseline; removed; rejoined] →
      routeKey c (se_key e) = Ok address) l.
Proof.
  apply buildStableEntries_Ok in Hbuilt as [Hshards Hall]. split; [done|].
  apply validateRemoval_Ok in Hremoval as (_ & [ta Hta] & Hn & Hc & _ & Hmoves & _).
  apply validateRejoin_Ok in Hrejoin as (_ & _ & Hn' & Hc' & Hm' & _).
  apply Forall_forall. intros e He. rewrite Forall_forall in Hall. rewrite Forall_forall in Hmoves.
  destruct (Hall e He) as (Hkey & Howner & _).
  assert (se_shard e ∈ se_shard <$> l) as Hin by by apply list_elem_of_fmap_2.
  rewrite Hshards, list_elem_of_filter, <-Howner in Hin. destruct Hin as [Hne Hin].
  specialize (Hmoves _ Hin). unfold removal_ok in Hmoves. rewrite <-Howner, decide_False in Hmoves by done.
  pose proof (proj1 (elem_of_shards_of _ _) Hin) as Hsh. destruct Hwf as [Hwf Hu].
  destruct (ShardMap baseline !! se_shard e) as [o|] eqn:Ho.
  2:{ destruct (swf_dom _ Hwf (se_shard e)) as [_ [? ?]]; [|congruence].
      split; [|done]. intros Hnil. by rewrite Hnil, lookup_empty in Hta. }
  unfold owner_at in Howner. rewrite Ho in Howner. cbn in Howner.
  destruct (swf_live _ Hwf _ _ Ho) as [a Ha]. rewrite <-Howner in Ha.
  exists a. split; [done|]. intros c Hclosed Htop.
  apply elem_of_cons in Htop as [Ht|[Ht|Ht%list_elem_of_singleton]%elem_of_cons].
  - apply (routeKey_owner c _ baseline (se_owner e)); try done.
    rewrite Hkey. unfold owner_at. by rewrite Ho, Howner.
  - apply (routeKey_owner c _ removed (se_owner e)); try done; [by rewrite Hc, Hkey|].
    by rewrite Hn, lookup_delete_ne.
  - apply (routeKey_owner c _ rejoined (se_owner e)); try done; [|by rewrite Hn'].
    rewrite Hc', Hm', Hkey. unfold owner_at. by rewrite Ho, Howner.
Qed.

(** The promotion proof asks for the right node: for every key of a built
    promotion workload, and every removal the verifier accepts, the node that owns
    the key's shard afterwards is the first replica of the placement before, the
    one the strong-ack write had confirmed; and the next round's bytes differ from
    this round's, so that a stale copy cannot pass for them. *)
Theorem promotion_check_exact before after target namespace want es st round
  (Hbefore : hrw before) (Howners : published_owners before)
  (Hbuilt : buildPromotionEntries before (shardsOwnedBy before target) namespace want = Ok es)
  (Hremoval : validateRemoval before after target = Ok st)
  (Hround : 0 < round < maxInt64) :
  Forall (fun e => ShardForKey (pe_key e) (ShardCount before) = pe_shard e ∧
    owner_at (ShardMap before) (pe_shard e) = target ∧
    head (Snapshot_Replicas before (pe_shard e)) = Some (owner_at (ShardMap after) (pe_shard e)) ∧
    pe_value (refresh_entry round e) ≠ pe_value e) es.
Proof.
  apply buildPromotionEntries_Ok in Hbuilt as [Hshards Hall]. apply Forall_forall. intros e He.
  rewrite Forall_forall in Hall. destruct (Hall e He) as (Hkey & Hval & _).
  assert (pe_shard e ∈ pe_shard <$> es) as Hin by by apply list_elem_of_fmap_2.
  rewrite Hshards in Hin. apply elem_of_take in Hin as (i & Hi & _).
  apply list_elem_of_lookup_2, list_elem_of_filter in Hi as [Hrep Hi].
  apply list_elem_of_filter in Hi as [Howned Hsh%elem_of_shards_of].
  apply validateRemoval_Ok in Hremoval as (_ & _ & Hn & Hc & Ha & _).
  split_and!; [done|done| |].
  - destruct Howners as (rf & Hrf & Hown). unfold Snapshot_Replicas in *.
    rewrite (lookup_AssignShardOwners _ _ _ _ _ Hrf Hown), decide_True in * by done.
    destruct (owners_spec _ _ _) as [o|] eqn:Ho; [|done]. apply owners_spec_inv in Ho.
    rewrite (hrw_owner before) in Howned by done. rewrite (hrw_owner after) by (done || lia).
    rewrite Hn, (ranked_ids_Proper _ _ _ (sortedNodeIDs_delete target (Nodes before))), ranked_ids_filter.
    pose proof (ranked_ids_Permutation (pe_shard e) (sortedNodeIDs (Nodes before))) as Hp.
    pose proof (NoDup_sortedNodeIDs (Nodes before)) as Hnd. rewrite <-Hp in Hnd.
    destruct (ranked_ids _ _) as [|p l]; [by destruct o|]. cbn in Howned. subst p.
    cbn in Ho. injection Ho as Hprim Hreps.
    rewrite filter_cons_False by naive_solver.
    destruct (Replicas o) as [|r rs] eqn:Er; [done|]. destruct l as [|r' l']; [by destruct (Z.to_nat rf)|].
    destruct (Z.to_nat rf); [done|]. cbn in Hreps. injection Hreps as -> _.
    apply NoDup_cons in Hnd as [Hnd _]. rewrite filter_cons_True by set_solver. done.
  - cbn. rewrite Hval. intros Heq. apply promotionValue_inj in Heq; unfold in_i64, maxInt64 in *; lia.
Qed.

Lemma removal_check_exact_witness :
  Nodes ChaosDemo.removed ≠ ∅ ∧ shardsOwnedBy ChaosDemo.baseline ChaosDemo.target ≠ [].
Proof.
  destruct (proj1 (removal_check_exact ChaosDemo.baseline ChaosDemo.removed ChaosDemo.target
    (moved_by ChaosDemo.baseline ChaosDemo.target) eq_refl
    ltac:(intros id [a Ha]; by destruct (proj1 (ChaosDemo.nodes_ok ChaosDemo.nodes eq_refl) id a Ha))
    ltac:(cbn; lia)) ChaosDemo.removal_eq) as (_ & _ & _ & ? & _ & _ & ? & _). done.
Defined.

Lemma rejoin_check_exact_witness :
  validateRejoin ChaosDemo.baseline ChaosDemo.removed ChaosDemo.rejoined ChaosDemo.target =
    Ok (moved_by ChaosDemo.baseline ChaosDemo.target).
Proof.
  apply (rejoin_check_exact ChaosDemo.baseline ChaosDemo.removed ChaosDemo.rejoined ChaosDemo.target).
  - reflexivity.
  - intros id [a Ha]. by destruct (proj1 (ChaosDemo.nodes_ok ChaosDemo.nodes eq_refl) id a Ha).
  - cbn. lia.
  - vm_compute. reflexivity.
  - split_and!; vm_compute; reflexivity.
Defined.

Lemma stable_workload_survives_witness :
  ∃ l, buildStableEntries ChaosDemo.baseline ChaosDemo.target "ns" = Ok l ∧
    Forall (fun e => ∃ address, Nodes ChaosDemo.baseline !! se_owner e = Some address ∧
      ∀ c : Client (), c_closed c = false →
        c_topology c ∈ [ChaosDemo.baseline; ChaosDemo.removed; ChaosDemo.rejoined] →
        routeKey c (se_key e) = Ok address) l.
Proof.
  eexists. split; [vm_compute; reflexivity|].
  eapply (stable_workload_survives (E := ()) ChaosDemo.baseline ChaosDemo.removed ChaosDemo.rejoined
    ChaosDemo.target "ns").
  - by apply ChaosDemo.placed_ok.
  - by apply ChaosDemo.placed_ok.
  - by apply ChaosDemo.placed_ok.
  - vm_compute. reflexivity.
  - apply ChaosDemo.removal_eq.
  - apply ChaosDemo.rejoin_eq.
Defined.

Lemma promotion_check_exact_witness :
  ∃ es, buildPromotionEntries ChaosDemo.baseline (shardsOwnedBy ChaosDemo.baseline ChaosDemo.target) "ns" 2 = Ok es ∧
    Forall (fun e => head (Snapshot_Replicas ChaosDemo.baseline (pe_shard e)) =
                       Some (owner_at (ShardMap ChaosDemo.removed) (pe_shard e))) es.
Proof.
  eexists. split; [vm_compute; reflexivity|].
  eapply Forall_impl; [eapply (promotion_check_exact ChaosDemo.baseline ChaosDemo.removed ChaosDemo.target "ns" 2 _ _ 1)|].
  - reflexivity.
  - exists 1. split; [unfold in_i64; lia|vm_compute; reflexivity].
  - vm_compute. reflexivity.
  - apply ChaosDemo.removal_eq.
  - unfold maxInt64. lia.
  - by intros e (_ & _ & ? & _).
Defined.
