(* ===== verification/ChaosCoherence.v ===== *)
(** * The chaos verifier's view of the control-plane group

    The judgements cmd/pulsekv-chaos/main.go makes on one sweep over the replicas:
    whether they agree on a leader ([summarizeLeader]), whether any two of them
    describe different clusters at one committed generation
    ([checkReplicaCoherence]), and whether the whole group converged
    ([assertGroupConvergedOnOneState]).  The coherence check is proved exact, and is
    composed with [Fsm] and [Service]: replicas that serve prefixes of one Raft log
    never trip it. *)

From S2P Require Import Prelude Router Topology GoStd Json View Fsm Store Service Client ChaosOracle.
Local Open Scope Z_scope.

(** ** [hex.EncodeToString] *)

Definition hex_byte (b : byte) : bytes := [hex_digit (byteZ b / 16); hex_digit (byteZ b `mod` 16)].
Definition EncodeToString (l : bytes) : string := String.string_of_list_byte (l ≫= hex_byte).

Lemma hex_byte_inj a b : hex_byte a = hex_byte b → a = b.
Proof.
  assert (∀ c, (match hex_byte c with
                | [x; y] => match hex_val x, hex_val y with
                            | Some h, Some l => Byte.of_N (Z.to_N (16 * h + l)) | _, _ => None end
                | _ => None end) = Some c) as Hdec by (intros c; by destruct c).
  intros H. pose proof (Hdec a) as Ha. rewrite H, Hdec in Ha. congruence.
Qed.

#[export] Instance EncodeToString_inj : Inj (=) (=) EncodeToString.
Proof.
  intros l k H. unfold EncodeToString in H. apply (f_equal bytes_of_string) in H.
  unfold bytes_of_string in H. rewrite !String.list_byte_of_string_of_list_byte in H.
  revert k H. induction l as [|a l IH]; intros [|b k] H; try done. cbn in H.
  injection H as H1 H2 H3. f_equal; [|by apply IH].
  apply hex_byte_inj. unfold hex_byte. by rewrite H1, H2.
Qed.

(** ** One sweep *)

Record replicaObservation (E : Type) := MkObs {
  ob_address : string;
  ob_fetch : result E Snapshot        (* reachable, snapshot and err *)
}.
Arguments MkObs {E}.
Arguments ob_address {E}.
Arguments ob_fetch {E}.

Definition reachable {E} (o : replicaObservation E) : bool := is_ok (ob_fetch o).

Inductive disagreement :=
| SeesNoLeader (address : string) (term : Z)
| Says (address leader : string) (term : Z) (other : string) (otherTerm : Z)
| NobodyAnswered
| NobodyNamesLeader.

Record leaderConsensus := MkConsensus {
  lc_leader : string; lc_term : Z; lc_reachable : nat; lc_agreed : bool;
  lc_reason : option disagreement;       (* the empty string is [None] *)
  lc_sweeps : nat
}.

Definition summarize_step {E} (r : leaderConsensus) (o : replicaObservation E) : leaderConsensus :=
  match ob_fetch o with
  | Err _ => r
  | Ok s =>
      let n := S (lc_reachable r) in
      if bool_decide (RaftLeaderID s = "")
      then MkConsensus (lc_leader r) (lc_term r) n false (Some (SeesNoLeader (ob_address o) (RaftTerm s))) (lc_sweeps r)
      else if bool_decide (lc_leader r = "")
      then MkConsensus (RaftLeaderID s) (RaftTerm s) n (lc_agreed r) (lc_reason r) (lc_sweeps r)
      else if bool_decide (RaftLeaderID s ≠ lc_leader r) || negb (RaftTerm s =? lc_term r)
      then MkConsensus (lc_leader r) (lc_term r) n false
             (Some (Says (ob_address o) (RaftLeaderID s) (RaftTerm s) (lc_leader r) (lc_term r))) (lc_sweeps r)
      else MkConsensus (lc_leader r) (lc_term r) n (lc_agreed r) (lc_reason r) (lc_sweeps r)
  end.

Definition summarizeLeader {E} (observations : list (replicaObservation E)) : leaderConsensus :=
  let r := foldl summarize_step (MkConsensus "" 0 0 true None 0) observations in
  if bool_decide (lc_reachable r = O)
  then MkConsensus (lc_leader r) (lc_term r) (lc_reachable r) false (Some NobodyAnswered) (lc_sweeps r)
  else if bool_decide (lc_leader r = "") && bool_decide (lc_reason r = None)
  then MkConsensus (lc_leader r) (lc_term r) (lc_reachable r) false (Some NobodyNamesLeader) (lc_sweeps r)
  else r.

Inductive coherence_error :=
| LeftUnassigned (address : string) (shard generation : Z)
| AssignedDead (address : string) (shard : Z) (owner : string)
| SplitBrain (a b : string) (generation : Z) (fp fp' : string).

(** [owner, ok := snapshot.ShardMap[shard]] and its two tests. *)
Definition check_shard (address : string) (s : Snapshot) (_ : ()) (shard : Z) : result coherence_error () :=
  match ShardMap s !! shard with
  | None => Err (LeftUnassigned address shard (Generation s))
  | Some owner =>
      if bool_decide (owner = "") then Err (LeftUnassigned address shard (Generation s)) else
      match Nodes s !! owner with
      | None => Err (AssignedDead address shard owner)
      | Some _ => Ok ()
      end
  end.

Definition truncate (text : string) : string := String.substring 0 16 text.

(** [byGeneration] keeps the first witness of every generation. *)
Definition coherence_step {E} (byGeneration : gmap Z (string * string)) (o : replicaObservation E)
    : result coherence_error (gmap Z (string * string)) :=
  match ob_fetch o with
  | Err _ => Ok byGeneration
  | Ok s =>
      _ ← (if bool_decide (Nodes s = ∅) then Ok ()
           else foldM (check_shard (ob_address o) s) () (shards_of s));
      let fingerprint := EncodeToString (SnapFingerprint s) in
      match byGeneration !! Generation s with
      | None => Ok (<[Generation s := (ob_address o, fingerprint)]> byGeneration)
      | Some (previous, fp) =>
          if bool_decide (fp ≠ fingerprint)
          then Err (SplitBrain previous (ob_address o) (Generation s) (truncate fp) (truncate fingerprint))
          else Ok byGeneration
      end
  end.

Definition checkReplicaCoherence {E} (observations : list (replicaObservation E)) : result coherence_error () :=
  _ ← foldM coherence_step ∅ observations; Ok ().

Inductive converge_error (E : Type) :=
| WasUnreachable (address : string)
| NoReplicaAnswered
| DidNotConvergeOn (base other : string).
Arguments WasUnreachable {E}.
Arguments NoReplicaAnswered {E}.
Arguments DidNotConvergeOn {E}.

(** On success: the generation, fingerprint and node count the report records. *)
Definition assertGroupConvergedOnOneState {E} (observations : list (replicaObservation E))
    : result (converge_error E) (Z * string * nat) :=
  reached ← foldM (fun acc o => match ob_fetch o with
                                | Err _ => Err (WasUnreachable (ob_address o))
                                | Ok s => Ok (acc ++ [(ob_address o, s)])
                                end) [] observations;
  match reached with
  | [] => Err NoReplicaAnswered
  | (address, base) :: rest =>
      let fp := EncodeToString (SnapFingerprint base) in
      _ ← foldM (fun _ '(a, s) =>
                   if negb (Generation s =? Generation base) ||
                      bool_decide (EncodeToString (SnapFingerprint s) ≠ fp)
                   then Err (DidNotConvergeOn address a) else Ok ()) () rest;
      Ok (Generation base, fp, size (Nodes base))
  end.

(** ** Agreement on a leader *)

(** The snapshots of the replicas that answered. *)
Definition answers {E} (observations : list (replicaObservation E)) : list Snapshot :=
  omap (fun o => match ob_fetch o with Ok s => Some s | Err _ => None end) observations.

Definition uniform (leader : string) (term : Z) (ss : list Snapshot) : Prop :=
  ss ≠ [] ∧ leader ≠ "" ∧ Forall (fun s => RaftLeaderID s = leader ∧ RaftTerm s = term) ss.

Definition leader_inv (ss : list Snapshot) (r : leaderConsensus) : Prop :=
  lc_reachable r = length ss ∧
  if lc_agreed r
  then lc_reason r = None ∧ ((ss = [] ∧ lc_leader r = "") ∨ uniform (lc_leader r) (lc_term r) ss)
  else lc_reason r ≠ None ∧ ss ≠ [] ∧ ∀ l t, ¬ uniform l t ss.

Lemma uniform_snoc l t ss s :
  uniform l t (ss ++ [s]) ↔ l ≠ "" ∧ (RaftLeaderID s = l ∧ RaftTerm s = t) ∧ (ss = [] ∨ uniform l t ss).
Proof.
  unfold uniform. rewrite Forall_app, Forall_singleton. destruct ss; naive_solver.
Qed.

Lemma uniform_unique l t l' t' ss : uniform l t ss → uniform l' t' ss → l = l' ∧ t = t'.
Proof.
  intros (Hne & _ & H) (_ & _ & H'). destruct ss as [|s ss]; [done|].
  apply Forall_cons in H as [[<- <-] _]. by apply Forall_cons in H' as [[<- <-] _].
Qed.

Lemma summarize_step_inv {E} ss r (o : replicaObservation E) :
  leader_inv ss r → leader_inv (ss ++ answers [o]) (summarize_step r o).
Proof.
  intros [Hn Hr]. unfold summarize_step, answers. cbn. destruct (ob_fetch o) as [s|e]; cbn.
  2:{ rewrite app_nil_r. by split. }
  assert (length (ss ++ [s]) = S (length ss)) as Hlen by (rewrite length_app; cbn; lia).
  unfold leader_inv. rewrite Hlen, <-Hn.
  destruct (lc_agreed r) eqn:Ha; repeat case_bool_decide; cbn; try case_bool; cbn; rewrite ?Ha; (split; [done|]).
  all: try (split; [done || apply Hr|]; split; [by destruct ss|]; intros l t (Hl & [<- <-] & Hor)%uniform_snoc).
  all: try rewrite uniform_snoc.
  - done.
  - destruct Hr as [Hr [[-> _]|(_ & Hl & _)]]; [|done]. naive_solver.
  - destruct Hr as [_ [[_ Hl']|Hu]]; [done|]. destruct Hor as [->|Hu']; [by destruct Hu|].
    by destruct (uniform_unique _ _ _ _ _ Hu Hu').
  - destruct Hr as [Hr [[_ Hl']|Hu]]; [done|]. naive_solver.
  - destruct Hr as [_ [[_ Hl']|Hu]]; [done|]. destruct Hor as [->|Hu']; [by destruct Hu|].
    by destruct (uniform_unique _ _ _ _ _ Hu Hu').
  - done.
  - destruct Hr as (_ & Hne & Hno). destruct Hor; [done|]. by eapply Hno.
  - destruct Hr as (_ & Hne & Hno). destruct Hor; [done|]. by eapply Hno.
  - destruct Hr as (_ & Hne & Hno). destruct Hor; [done|]. by eapply Hno.
  - destruct Hr as (_ & Hne & Hno). destruct Hor; [done|]. by eapply Hno.
Qed.

Lemma summarize_inv {E} (obs : list (replicaObservation E)) ss r :
  leader_inv ss r → leader_inv (ss ++ answers obs) (foldl summarize_step r obs).
Proof.
  revert ss r. induction obs as [|o obs IH]; intros ss r H; [by rewrite app_nil_r|]. cbn [foldl].
  change (answers (o :: obs)) with (answers ([o] ++ obs)). unfold answers. rewrite omap_app, app_assoc.
  apply IH. by apply summarize_step_inv.
Qed.

(** ** Coherence *)

Definition shards_ok (s : Snapshot) : Prop :=
  Nodes s ≠ ∅ → ∀ sh, 0 ≤ sh < ShardCount s →
  ∃ o, ShardMap s !! sh = Some o ∧ o ≠ "" ∧ is_Some (Nodes s !! o).

Lemma check_shards_Ok address s l u :
  foldM (check_shard address s) () l = Ok u ↔
  ∀ sh, sh ∈ l → ∃ o, ShardMap s !! sh = Some o ∧ o ≠ "" ∧ is_Some (Nodes s !! o).
Proof.
  destruct u. induction l as [|sh l IH]; cbn [foldM]; [set_solver|].
  rewrite result_bind_Ok. unfold check_shard at 1. split.
  - intros (u & H1 & H2) sh' [->|Hin]%elem_of_cons; [|destruct u; by apply IH].
    destruct (ShardMap s !! sh); [|done]. case_bool_decide; [done|]. destruct (Nodes s !! _) eqn:?; [|done]. eauto.
  - intros H. exists (). destruct (H sh ltac:(left)) as (o & -> & Ho & [a ->]).
    rewrite bool_decide_eq_false_2 by done. split; [done|]. apply IH. set_solver.
Qed.

Definition same_answer (s s' : Snapshot) : Prop :=
  Generation s = Generation s' → SnapFingerprint s = SnapFingerprint s'.

Lemma coherence_step_Ok {E} m (o : replicaObservation E) s m' :
  ob_fetch o = Ok s →
  coherence_step m o = Ok m' ↔
  shards_ok s ∧
  match m !! Generation s with
  | None => m' = <[Generation s := (ob_address o, EncodeToString (SnapFingerprint s))]> m
  | Some (_, fp) => fp = EncodeToString (SnapFingerprint s) ∧ m' = m
  end.
Proof.
  intros Ho. unfold coherence_step. rewrite Ho, result_bind_Ok.
  assert (∀ u, (if bool_decide (Nodes s = ∅) then Ok () else foldM (check_shard (ob_address o) s) () (shards_of s))
            = Ok u ↔ shards_ok s) as Hcheck.
  { intros []. unfold shards_ok. case_bool_decide as Hn; [naive_solver|]. rewrite check_shards_Ok.
    setoid_rewrite elem_of_shards_of. naive_solver. }
  setoid_rewrite Hcheck. clear Hcheck. destruct (m !! Generation s) as [[a fp]|].
  - case_bool_decide as Hfp.
    + split; [by intros (u & _ & [=])|]. by intros (_ & ? & _).
    + split; [by intros (u & ? & [= <-])|]. intros (? & _ & ->). by exists ().
  - split; [by intros (u & ? & [= <-])|]. intros (? & ->). by exists ().
Qed.

Lemma coherence_loop_Ok {E} (obs : list (replicaObservation E)) m :
  is_ok (foldM coherence_step m obs) = true ↔
  Forall shards_ok (answers obs) ∧
  (∀ s a fp, s ∈ answers obs → m !! Generation s = Some (a, fp) → fp = EncodeToString (SnapFingerprint s)) ∧
  (∀ s s', s ∈ answers obs → s' ∈ answers obs → same_answer s s').
Proof.
  revert m. induction obs as [|o obs IH]; intros m; [cbn; set_solver|]. cbn [foldM].
  destruct (ob_fetch o) as [s|e] eqn:Ho.
  2:{ assert (coherence_step m o = Ok m) as -> by (unfold coherence_step; by rewrite Ho).
      cbn [mbind result_bind]. rewrite IH. unfold answers. cbn. by rewrite Ho. }
  assert (answers (o :: obs) = s :: answers obs) as -> by (unfold answers; cbn; by rewrite Ho).
  pose proof (coherence_step_Ok m o s) as Hstep. rewrite Forall_cons.
  assert (∀ m', coherence_step m o = Ok m' →
    is_ok (m' ← coherence_step m o; foldM coherence_step m' obs) = is_ok (foldM coherence_step m' obs)) as Hok
    by (intros m' ->; done).
  destruct (coherence_step m o) as [m'|x] eqn:Hc.
  2:{ cbn. split; [done|]. intros ((Hs & _) & Hm & _). exfalso.
      destruct (m !! Generation s) as [[a fp]|] eqn:Hg.
      - assert (Err x = Ok m) as [=]. apply (Hstep m Ho). split; [done|]. split; [|done].
        apply (Hm s a fp); [left|done].
      - by pose proof (proj2 (Hstep _ Ho) (conj Hs eq_refl)). }
  rewrite (Hok m' eq_refl), IH. destruct (proj1 (Hstep m' Ho) eq_refl) as [Hs Hm'].
  destruct (m !! Generation s) as [[a fp]|] eqn:Hg.
  - destruct Hm' as [-> ->]. split.
    + intros (Hall & Hm & Hsame). split_and!; [done..| |].
      * intros s1 a1 fp1 [->|Hin]%elem_of_cons H1; [congruence|]. by eapply Hm.
      * assert (∀ s1, s1 ∈ answers obs → same_answer s s1) as Hs1.
        { intros s1 Hin Hgen. apply EncodeToString_inj. apply (Hm s1 a); [done|]. by rewrite <-Hgen. }
        intros s1 s2 [->|H1]%elem_of_cons [->|H2]%elem_of_cons; [done|by apply Hs1| |by apply Hsame].
        intros Hgen. symmetry. by apply Hs1.
    + intros ((_ & Hall) & Hm & Hsame). split_and!; [done| |].
      * intros s1 a1 fp1 Hin. apply Hm. by right.
      * intros s1 s2 H1 H2. apply Hsame; by right.
  - subst m'. split.
    + intros (Hall & Hm & Hsame).
      assert (∀ s1, s1 ∈ answers obs → same_answer s s1) as Hs1.
      { intros s1 Hin Hgen. apply EncodeToString_inj. apply (Hm s1 (ob_address o)); [done|].
        by rewrite <-Hgen, lookup_insert_eq. }
      split_and!; [done..| |].
      * intros s1 a1 fp1 [->|Hin]%elem_of_cons H1; [congruence|].
        apply (Hm s1 a1); [done|]. rewrite lookup_insert_ne; [done|]. intros Heq. by rewrite <-Heq, Hg in H1.
      * intros s1 s2 [->|H1]%elem_of_cons [->|H2]%elem_of_cons; [done|by apply Hs1| |by apply Hsame].
        intros Hgen. symmetry. by apply Hs1.
    + intros ((_ & Hall) & Hm & Hsame). split_and!; [done| |].
      * intros s1 a1 fp1 Hin. destruct (decide (Generation s = Generation s1)) as [Heq|Hne].
        -- rewrite <-Heq, lookup_insert_eq. intros [= <- <-]. f_equal. by apply Hsame; [left|right|].
        -- rewrite lookup_insert_ne by done. apply Hm. by right.
      * intros s1 s2 H1 H2. apply Hsame; by right.
Qed.


Lemma coherence_Ok {E} (obs : list (replicaObservation E)) :
  checkReplicaCoherence obs = Ok () ↔
  Forall shards_ok (answers obs) ∧
  (∀ s s', s ∈ answers obs → s' ∈ answers obs → same_answer s s').
Proof.
  unfold checkReplicaCoherence. pose proof (coherence_loop_Ok obs ∅) as H.
  assert (is_ok (foldM coherence_step ∅ obs) = true ↔
          Forall shards_ok (answers obs) ∧
          ∀ s s', s ∈ answers obs → s' ∈ answers obs → same_answer s s') as <-.
  { rewrite H. split; [naive_solver|]. intros [? ?]. split_and!; [done| |done].
    intros ? ? ? _. by rewrite lookup_empty. }
  by destruct (foldM coherence_step ∅ obs).
Qed.

(** ** Replicas of one log *)

Lemma validate_generation g sc nodes sm om rf s :
  validate g sc nodes sm om rf = Ok s → Generation s = g.
Proof.
  unfold validate. intros H. repeat (case_match || inv_ok); by simplify_eq.
Qed.

Lemma accept_generation_of {E} nl sm s :
  sm_TopologyFingerprint sm ≠ [] → accept (E := E) nl sm = Return (Ok s) →
  Generation s = sm_TopologyGeneration sm ∧ SnapFingerprint s = sm_TopologyFingerprint sm.
Proof.
  intros Hfp. unfold accept. rewrite (bool_decide_eq_false_2 (sm_TopologyFingerprint sm = [])) by done.
  cbn [negb]. rewrite orb_true_r. unfold accept_fingerprinted.
  destruct (bool_decide (_ = []) || _); [done|]. destruct (negb (_ && _)); [done|].
  destruct (negb _); [done|]. destruct (validate _ _ _ _ _ _) as [v|] eqn:Hv; [|done].
  apply validate_generation in Hv. destruct (negb _); [done|]. by intros [= <-].
Qed.

(** The shard map a replica serves while it holds a prefix of the log. *)
Definition serves (log : list raft_Log) (count : Z) (sm : GetShardMapResponse) : Prop :=
  ∃ svc (gate read : RaftSource) k,
    svc_shardCount svc = count ∧ rs_fsm read = apply_log newFSM (take k log) ∧
    GetShardMap svc gate read = Ok sm.

(** An observation of such a replica: every shard map its fetch read was served
    from some prefix of the log, which may differ from pass to pass. *)
Definition observes {E} (log : list raft_Log) (count : Z) (o : replicaObservation E) : Prop :=
  ∀ s, ob_fetch o = Ok s →
  ∃ (F : Type) (server : nat → attempt F),
    wire_server server ∧ Fetch server = Ok s ∧
    ∀ i sm, at_shards (server i) = Ok sm → serves log count sm.

(** What a replica publishes is decided by its state and the shard count: the
    group agreed on the factor, so the replica's own flag does not enter. *)
Lemma placement_of_state svc svc' st :
  svc_shardCount svc = svc_shardCount svc' →
  service_placement svc (State_Snapshot st) = service_placement svc' (State_Snapshot st).
Proof. intros Hc. unfold service_placement, effective_factor. cbn. by rewrite Hc. Qed.

Lemma GetShardMap_published svc (gate read : RaftSource) sm :
  GetShardMap svc gate read = Ok sm →
  sm_TopologyGeneration sm = st_Generation (f_state (rs_fsm read)) ∧
  ∃ p, service_placement svc (State_Snapshot (f_state (rs_fsm read))) = Ok p ∧
       sm_TopologyFingerprint sm = Fingerprint (placement_fingerprintInput p).
Proof.
  unfold GetShardMap. intros H. apply result_bind_Ok in H as (snap & Hs & H).
  apply service_snapshot_Ok in Hs as (_ & -> & _). apply result_bind_Ok in H as (p & Hp & H).
  destruct (service_leader svc). injection H as <-. split; [done|]. by exists p.
Qed.

Lemma serves_same log count sm sm' :
  log_ok log → serves log count sm → serves log count sm' →
  sm_TopologyGeneration sm = sm_TopologyGeneration sm' →
  sm_TopologyFingerprint sm = sm_TopologyFingerprint sm'.
Proof.
  intros Hlog (svc & g & r & k & Hc & Hr & H) (svc' & g' & r' & k' & Hc' & Hr' & H').
  apply GetShardMap_published in H as (-> & p & Hp & ->).
  apply GetShardMap_published in H' as (-> & p' & Hp' & ->). rewrite Hr, Hr' in *. intros Hgen.
  assert (f_state (apply_log newFSM (take k log)) = f_state (apply_log newFSM (take k' log))) as Hst.
  { destruct (Nat.le_ge_cases k k'); [by apply generation_same_state|].
    symmetry. by apply generation_same_state. }
  rewrite Hst, (placement_of_state svc svc') in Hp by congruence. congruence.
Qed.

Lemma serves_fingerprint log count sm : serves log count sm → sm_TopologyFingerprint sm ≠ [].
Proof.
  intros (svc & g & r & k & _ & _ & H). apply GetShardMap_published in H as (_ & p & _ & ->).
  intros Hnil. pose proof (Fingerprint_length (placement_fingerprintInput p)) as Hl. by rewrite Hnil in Hl.
Qed.

Lemma topology_shards_ok s : topology_ok s → shards_ok s.
Proof.
  intros [Hwf _] Hne sh Hsh. destruct (proj2 (swf_dom s Hwf sh) (conj Hne Hsh)) as [o Ho].
  exists o. destruct (swf_live s Hwf sh o Ho) as [a Ha]. split; [done|]. split; [|by eexists].
  by destruct (swf_nonempty s Hwf o a Ha).
Qed.

Lemma observes_answer {E} log count (o : replicaObservation E) s :
  observes log count o → ob_fetch o = Ok s →
  shards_ok s ∧ ∃ sm, serves log count sm ∧ Generation s = sm_TopologyGeneration sm ∧
                      SnapFingerprint s = sm_TopologyFingerprint sm.
Proof.
  intros Hobs Ho. destruct (Hobs s Ho) as (F & server & Hw & Hf & Hs). split.
  { apply topology_shards_ok. by eapply Fetch_ok. }
  apply fetch_loop_Ok in Hf as (l1 & a & l2 & nl & sm & Hl & _ & _ & _ & Hsm & Ha). exists sm.
  assert (serves log count sm) as Hserve.
  { assert (a ∈ server <$> seq 1 maxCoherenceAttempts) as Hin by (rewrite Hl; set_solver).
    apply list_elem_of_fmap in Hin as (i & -> & _). by eapply Hs. }
  split; [done|]. eapply accept_generation_of; [by eapply serves_fingerprint|done].
Qed.

Lemma elem_of_answers {E} (obs : list (replicaObservation E)) s :
  s ∈ answers obs ↔ ∃ o, o ∈ obs ∧ ob_fetch o = Ok s.
Proof.
  unfold answers. rewrite list_elem_of_omap. split; intros (o & Hin & Ho); exists o; (split; [done|]).
  - destruct (ob_fetch o); congruence.
  - by rewrite Ho.
Qed.

Lemma summarize_spec {E} (obs : list (replicaObservation E)) :
  let r := summarizeLeader obs in
  lc_reachable r = length (answers obs) ∧
  (lc_agreed r = true ↔ ∃ l t, uniform l t (answers obs)) ∧
  (lc_agreed r = true → uniform (lc_leader r) (lc_term r) (answers obs)) ∧
  (lc_agreed r = true ↔ lc_reason r = None).
Proof.
  cbn zeta. destruct (summarize_inv obs [] (MkConsensus "" 0 0 true None 0)) as [Hn Hr].
  { split; [done|]. cbn. split; [done|]. by left. }
  cbn [app] in Hn, Hr. unfold summarizeLeader. set (r := foldl _ _ obs) in *.
  case_bool_decide as Hz; cbn.
  - rewrite Hn in Hz. apply length_zero_iff_nil in Hz. rewrite Hz in *. split; [done|].
    split_and!; try done. split; [done|]. by intros (? & ? & ? & _).
  - assert (answers obs ≠ []) as Hne by (intros Heq; rewrite Heq in Hn; done).
    destruct (lc_agreed r) eqn:Ha.
    + destruct Hr as [Hreason [[? _]|Hu]]; [done|].
      assert (lc_leader r ≠ "") as Hl by apply Hu. rewrite bool_decide_eq_false_2 by done. cbn.
      rewrite Ha. naive_solver.
    + destruct Hr as (Hreason & _ & Hno). rewrite (bool_decide_eq_false_2 (lc_reason r = None)) by done.
      rewrite andb_false_r, Ha. split_and!; [done|naive_solver..].
Qed.

(** ** Properties *)

(** The coherence check is exact: a sweep passes if and only if every replica that
    answered assigns each shard of a non-empty cluster to a live owner, and any two
    replicas that answered at one generation published the same fingerprint; replicas
    at different generations are never compared. *)
Theorem coherence_check_exact {E} (obs : list (replicaObservation E)) :
  checkReplicaCoherence obs = Ok () ↔
  (∀ o s, o ∈ obs → ob_fetch o = Ok s → Nodes s ≠ ∅ → ∀ shard, 0 ≤ shard < ShardCount s →
     ∃ owner, ShardMap s !! shard = Some owner ∧ owner ≠ "" ∧ is_Some (Nodes s !! owner)) ∧
  (∀ o o' s s', o ∈ obs → o' ∈ obs → ob_fetch o = Ok s → ob_fetch o' = Ok s' →
     Generation s = Generation s' → SnapFingerprint s = SnapFingerprint s').
Proof.
  rewrite coherence_Ok, Forall_forall. unfold shards_ok, same_answer.
  setoid_rewrite elem_of_answers. naive_solver.
Qed.

(** C27: replicas of one Raft log never look like a split brain: however far each replica
    has applied the log, whatever factor its own flag says, and even if a fetch read
    its node list and shard map at different moments, no sweep over the group's
    services is reported as incoherent. *)
Theorem replicas_never_split {E} (log : list raft_Log) (count : Z) (obs : list (replicaObservation E))
  (Hlog : log_ok log)
  (Hobs : Forall (observes log count) obs) :
  checkReplicaCoherence obs = Ok ().
Proof.
  apply coherence_Ok. rewrite Forall_forall in Hobs. split.
  - apply Forall_forall. intros s (o & Hin & Ho)%elem_of_answers. by eapply observes_answer; [apply Hobs|].
  - intros s s' (o & Hin & Ho)%elem_of_answers (o' & Hin' & Ho')%elem_of_answers Hgen.
    destruct (observes_answer _ _ _ _ (Hobs o Hin) Ho) as (_ & sm & Hs & Hg & ->).
    destruct (observes_answer _ _ _ _ (Hobs o' Hin') Ho') as (_ & sm' & Hs' & Hg' & ->).
    eapply serves_same; [done..|]. congruence.
Qed.

Module GroupDemo.
(** Two replicas of the example log that have applied one and two of its entries. *)
Definition svc : Service := MkService 4 0 (Some ("cp-0", 3)).
Definition source (k : nat) : RaftSource :=
  MkRaftSource (MkStore 0 true true) (MkReads "" 0 0 0 0 None) (apply_log newFSM (take k example_log)).
Definition lift {A} (r : result rpc_error A) : result () A := match r with Ok a => Ok a | Err _ => Err () end.
Definition server (k : nat) (_ : nat) : attempt () :=
  MkAttempt None (lift (GetNodeList svc (source k) (source k))) (lift (GetShardMap svc (source k) (source k))).
Definition observation (k : nat) : replicaObservation (fetch_error ()) := MkObs "10.0.0.9:7000" (Fetch (server k)).

Lemma lift_Ok {A} (r : result rpc_error A) a : lift r = Ok a → r = Ok a.
Proof. destruct r; by intros [= ->]. Qed.

Lemma shards_server k i sm :
  at_shards (server k i) = Ok sm → GetShardMap svc (source k) (source k) = Ok sm.
Proof. exact (lift_Ok _ _). Qed.

Lemma nodes_server k i nl :
  at_nodes (server k i) = Ok nl → length (nl_Nodes nl) = length (st_Nodes (f_state (rs_fsm (source k)))).
Proof.
  intros H%(lift_Ok (GetNodeList svc (source k) (source k))). unfold GetNodeList in H.
  apply result_bind_Ok in H as (snap & Hs & H). apply service_snapshot_Ok in Hs as (_ & -> & _).
  apply result_bind_Ok in H as (p & _ & [= <-]). cbn [nl_Nodes]. by rewrite length_fmap.
Qed.

Lemma observed k :
  Z.of_nat (length (st_Nodes (f_state (rs_fsm (source k))))) < 2 ^ 32 →
  observes example_log 4 (observation k).
Proof.
  intros Hlen s Hs. exists ()%type, (server k). split_and!; [split| |].
  - intros i sm H%shards_server. unfold GetShardMap in H. apply result_bind_Ok in H as (snap & _ & H).
    apply result_bind_Ok in H as (p & _ & H). injection H as <-. cbn. unfold in_u32. lia.
  - intros i nl H%nodes_server. by rewrite H.
  - exact Hs.
  - intros i sm H%shards_server. exists svc, (source k), (source k), k. by split_and!.
Qed.
End GroupDemo.

Lemma replicas_never_split_witness :
  reachable (GroupDemo.observation 1) = true ∧ reachable (GroupDemo.observation 2) = true ∧
  checkReplicaCoherence [GroupDemo.observation 1; GroupDemo.observation 2] = Ok ().
Proof.
  split; [vm_compute; reflexivity|]. split; [vm_compute; reflexivity|].
  apply (replicas_never_split example_log 4).
  - split; [repeat (constructor; try lia)|repeat constructor; cbn; lia].
  - repeat constructor; apply GroupDemo.observed; vm_compute; reflexivity.
Defined.
