(* ===== verification/ChaosRun.v ===== *)
(** * The chaos verifier's data-node run

    The sequential half of cmd/pulsekv-chaos/main.go: seeding, the routing, promotion
    and catch-up proofs, the wait for a topology transition, and [run], which
    publishes a progress count the lifecycle script acts on.

    Everything outside the goroutine is a world: an arbitrary type with the answers
    of the clock, the control-plane replicas, the SDK, the data nodes and the file
    system, so that the other goroutines (the read load, the coherence watcher, the
    leader scenario) and the cluster may do anything between two calls.  The program
    is a state-and-error monad over the world and a log of its own effects.  Loops
    that poll until a deadline take fuel; running out of it is the outcome
    [StillRunning], and the termination theorem says how much is enough. *)

From S2P Require Import Prelude Router Topology GoStd Json Client ChaosOracle ChaosCoherence.
Local Open Scope Z_scope.

(** ** The world *)

Record loadReport := MkLoad {
  Operations : Z; Verified : Z; Misses : Z; Mismatches : Z; RPCErrors : Z
}.
Record coherenceReport := MkCoherence { Sweeps : Z; ReachableReads : Z; Violations : Z }.

Class World (W E : Type) := {
  w_now : W → Z;                                       (* time.Now(), nanoseconds *)
  w_done : W → option E;                               (* ctx.Err() *)
  w_deadlineExceeded : E;                              (* context.DeadlineExceeded *)
  w_pick : W → bool;                                   (* the case a select takes when two are ready *)
  w_loadError : W → option (E * W);                    (* an error waiting in loadErrors, taken *)
  w_fetch : nat → W → result (fetch_error E) Snapshot * W;   (* topology.Fetch on one replica *)
  w_sweep : W → (nat → result (fetch_error E) Snapshot) * W;  (* one parallel topology.Fetch per replica *)
  w_put : bytes → bytes → W → option E * W;            (* the SDK *)
  w_get : bytes → W → result E (option bytes) * W;
  w_putWithAck : bytes → bytes → Z → W → result E Z * W;
  w_invalidArgument : E → bool;                        (* status.Code(err) == codes.InvalidArgument *)
  w_nodeGet : string → bytes → W → result E (bool * bytes) * W;   (* dial and NodeService.Get *)
  w_wait : option Z → Z → W → option E * W;            (* waitInterval under a deadline: ctx.Err() or the timer *)
  w_pause : Z → Z → W → option E * W;                  (* the same with loadErrors, which may win *)
  w_write : string → Z → W → option E * W;             (* writeAtomic of a progress count *)
  w_prepare : string → W → option E * W;               (* prepareProgressFile *)
  w_dial : string → W → option E * W;                  (* newGRPCConn *)
  w_newSDK : W → option E * W;                         (* sdk.New *)
  w_closeSDK : W → option E * W;                       (* cluster.Close *)
  w_startLoad : W → () * W;                            (* startStableLoad *)
  w_startWatch : W → () * W;                           (* watchReplicaCoherence and the leader goroutine *)
  w_stopLoad : W → () * W;                             (* stopLoad, and both WaitGroups *)
  w_leaderDone : W → option E * W;                     (* <-leaderDone *)
  w_load : W → loadReport;                             (* counters.snapshot() *)
  w_coherence : W → coherenceReport
}.

Section program.
Context {W E : Type} `{!World W E}.

Inductive transition_kind := Removal | Rejoin.

(** One entry of [report.Transitions]; times are left out. *)
Record transitionReport := MkTransition {
  tr_index : Z; tr_cycle : Z; tr_kind : transition_kind;
  tr_from : Snapshot; tr_to : Snapshot;         (* the report keeps their generations *)
  tr_movement : movementStats
}.

(** What the verifier itself did, in order. *)
Inductive event :=
| EvSeed (key value : bytes) (err : option E)
| EvAck (key value : bytes) (acks : Z) (r : result E Z)
| EvDirect (address : string) (key : bytes) (r : result E (option bytes))
| EvProgress (path : string) (count : Z) (err : option E)
| EvTransition (tr : transitionReport)
| EvSweep (observations : list (replicaObservation (fetch_error E)))
| EvOpen (replica : string)
| EvClose (replica : string)
| EvSDK (opened : bool).

Inductive chaos_error :=
| StillRunning
| NoReplicas
| FetchFailed (replica : nat) (e : fetch_error E)
| ContextDone (e : E)
| LoadFailure (e : E)
| TransitionTimedOut (last : chaos_error)
| GenerationWithoutChange (before after : Z)
| UnknownKind
| BadMovement (e : movement_error)
| SeedFailed (shard : Z) (e : E)
| SeedMissing (shard : Z)
| NoReplicaToAck (shard : Z)
| AckFailed (shard : Z) (e : chaos_error)
| AckShort (shard acked want : Z)
| RPCFailed (e : E)
| NotConverged (attempts : nat) (e : E)
| NoAddress (node : string) (shard : Z)
| ReplicaReadFailed (shard : Z) (e : E)
| ReplicaLacksValue (node : string) (shard : Z)
| NoOwnerAfter (shard : Z)
| NoReplicaToPromote (shard : Z)
| PromotedElsewhere (shard : Z) (owner first : string)
| WrongBytes (shard : Z) (owner : string)
| PromotionTimedOut (shard : Z) (e : chaos_error)
| OwnerReadFailed (owner : string) (e : E)
| OwnerLacksKey (owner : string)
| SDKNotConverged (e : E)
| NoKey (shard : Z)
| NonOwnerFailed (node : string) (e : E)
| NonOwnerHolds (node : string)
| NoNonHolder
| BudgetExhausted (cycle : Z)
| BadBaseline (e : baseline_error)
| BadStable (e : stable_error)
| NoControlPlane
| TooFewControlPlanes (n : nat)
| FileFailed (path : string) (e : E)
| DialFailed (address : string) (e : E)
| SDKFailed (e : E)
| SDKCloseFailed (e : E)
| LeaderFailed (e : E)
| ReplicasDisagreed (n : Z)
| NoSweep
| LoadIncorrect (l : loadReport)
| NothingVerified
| Incoherent (e : coherence_error)
| NoAgreement (min reachable : nat) (reason : option disagreement)
| LeaderUnchanged (min reachable : nat) (leader : string)
| TermDidNotAdvance (leader : string) (term baseline : Z)
| StillMissing (addresses : list string)
| DisagreeAfterRejoin (reason : option disagreement)
| TookLeadershipBack (leader : string)
| TermWentBack (term elected : Z)
| NotOneState (e : converge_error (fetch_error E)).

(** The program monad: the world and the log, and an early return. *)
Record state := MkSt { s_world : W; s_log : list event }.

Definition prog (A : Type) : Type := state → result chaos_error A * state.

#[global] Instance prog_ret : MRet prog := fun A a s => (Ok a, s).
#[global] Instance prog_bind : MBind prog := fun A B f m s =>
  match m s with
  | (Ok a, s) => f a s
  | (Err e, s) => (Err e, s)
  end.

Definition fail {A} (e : chaos_error) : prog A := fun s => (Err e, s).
Definition guard_p (b : bool) (e : chaos_error) : prog () := if b then mret () else fail e.
(** A call of the world, and the same with the effect noted in the log. *)
Definition ask {A} (f : W → A * W) : prog A := fun s =>
  let '(a, w) := f (s_world s) in (Ok a, MkSt w (s_log s)).
Definition ask_log {A} (f : W → A * W) (ev : A → event) : prog A := fun s =>
  let '(a, w) := f (s_world s) in (Ok a, MkSt w (s_log s ++ [ev a])).
Definition look {A} (f : W → A) : prog A := fun s => (Ok (f (s_world s)), s).
(** [if err != nil { ... }] on the outcome of a call: the error becomes a value. *)
Definition try {A} (m : prog A) : prog (result chaos_error A) := fun s =>
  let '(r, s') := m s in (Ok r, s').

Fixpoint forM {A} (f : A → prog ()) (l : list A) : prog () :=
  match l with
  | [] => mret ()
  | a :: l => _ ← f a; forM f l
  end.

Definition note (ev : event) : prog () := fun s => (Ok (), MkSt (s_world s) (s_log s ++ [ev])).

(** A deferred call runs on every return; its result does not change the outcome. *)
Definition defer {A} (cleanup : prog ()) (m : prog A) : prog A := fun s =>
  let '(r, s) := m s in let '(_, s) := cleanup s in (r, s).

(** ** Calls *)

Definition writeProgress (path : string) (verified : Z) : prog () :=
  err ← ask_log (w_write path verified) (EvProgress path verified);
  match err with None => mret () | Some e => fail (FileFailed path e) end.

Definition prepareProgressFile (path : string) : prog () :=
  err ← ask (w_prepare path);
  match err with None => mret () | Some e => fail (FileFailed path e) end.

(** A response that says [found=false] has no value. *)
Definition node_get (address : string) (key : bytes) (w : W) : result E (option bytes) * W :=
  let '(r, w) := w_nodeGet address key w in
  (match r with
   | Err e => Err e
   | Ok (found, value) => Ok (if found then Some value else None)
   end, w).
Definition directGet (address : string) (key : bytes) : prog (result E (option bytes)) :=
  ask_log (node_get address key) (EvDirect address key).

(** The error of a context that also has a deadline. *)
Definition ctx_err (deadline : option Z) (w : W) : option E :=
  match w_done w with
  | Some e => Some e
  | None => match deadline with
            | Some d => if d <=? w_now w then Some w_deadlineExceeded else None
            | None => None
            end
  end.
Definition waitInterval (deadline : option Z) (interval : Z) : prog (option E) := ask (w_wait deadline interval).

(** [topologyReader.fetch]: every replica once, the last good one first. *)
Fixpoint fetch_attempts (replicas preferred : nat) (attempts : list nat) (firstErr : option chaos_error)
    : prog (nat * Snapshot) :=
  match attempts with
  | [] => fail (default NoReplicas firstErr)
  | attempt :: attempts =>
      let index := Nat.modulo (preferred + attempt) replicas in
      r ← ask (w_fetch index);
      match r with
      | Ok snapshot => mret (index, snapshot)
      | Err e => fetch_attempts replicas preferred attempts
                   (match firstErr with Some f => Some f | None => Some (FetchFailed index e) end)
      end
  end.
Definition fetch (replicas preferred : nat) : prog (nat * Snapshot) :=
  fetch_attempts replicas preferred (seq 0 replicas) None.

(** ** Seeding *)

Definition seed_stable (e : stableEntry) : prog () :=
  err ← ask_log (w_put (se_key e) (se_value e)) (EvSeed (se_key e) (se_value e));
  match err with
  | Some x => fail (SeedFailed (se_shard e) x)
  | None =>
      r ← ask (w_get (se_key e));
      match r with
      | Err x => fail (SeedFailed (se_shard e) x)
      | Ok v => guard_p (bool_decide (v = Some (se_value e))) (SeedMissing (se_shard e))
      end
  end.
Definition seedStableKeys (entries : list stableEntry) : prog () := forM seed_stable entries.

(** Only INVALID_ARGUMENT is retried, until the deadline; [attempt] counts from 1. *)
Fixpoint put_converging (fuel : nat) (attempt : nat) (deadline : Z) (key value : bytes) (acks : Z)
    (pollInterval : Z) : prog Z :=
  match fuel with
  | O => fail StillRunning
  | S fuel =>
      r ← ask_log (w_putWithAck key value acks) (EvAck key value acks);
      match r with
      | Ok acked => mret acked
      | Err e =>
          if negb (w_invalidArgument e) then fail (RPCFailed e) else
          now ← look w_now;
          if deadline <? now then fail (NotConverged attempt e) else
          err ← waitInterval None pollInterval;
          match err with
          | Some x => fail (ContextDone x)
          | None => put_converging fuel (S attempt) deadline key value acks pollInterval
          end
      end
  end.
Definition putWithAckConverging (fuel : nat) (cfg : settings) (key value : bytes) (acks : Z) : prog Z :=
  now ← look w_now;
  put_converging fuel 1 (now + c_transitionTimeout cfg) key value acks (c_pollInterval cfg).

(** The direct read of one replica that acknowledged the write. *)
Definition verify_replica (snapshot : Snapshot) (key value : bytes) (shard : Z) (replica : string) : prog () :=
  let address := default "" (Nodes snapshot !! replica) in
  _ ← guard_p (negb (bool_decide (address = ""))) (NoAddress replica shard);
  r ← directGet address key;
  match r with
  | Err e => fail (ReplicaReadFailed shard e)
  | Ok v => guard_p (bool_decide (v = Some value)) (ReplicaLacksValue replica shard)
  end.

Definition seed_promotion (fuel : nat) (cfg : settings) (snapshot : Snapshot) (entry : promotionEntry) : prog () :=
  let replicas := Snapshot_Replicas snapshot (pe_shard entry) in
  let want := Z.of_nat (length replicas) in
  _ ← guard_p (negb (bool_decide (replicas = []))) (NoReplicaToAck (pe_shard entry));
  r ← try (putWithAckConverging fuel cfg (pe_key entry) (pe_value entry) (u32 want));
  match r with
  | Err e => fail (AckFailed (pe_shard entry) e)
  | Ok acked =>
      _ ← guard_p (negb (acked <? want)) (AckShort (pe_shard entry) acked want);
      forM (verify_replica snapshot (pe_key entry) (pe_value entry) (pe_shard entry)) replicas
  end.

(** [entry.replicas] is rewritten as each entry is seeded. *)
Definition with_replicas (snapshot : Snapshot) (e : promotionEntry) : promotionEntry :=
  MkPromotion (pe_key e) (pe_base e) (pe_value e) (pe_shard e) (Snapshot_Replicas snapshot (pe_shard e)).
Definition seedPromotionKeys (fuel : nat) (cfg : settings) (entries : list promotionEntry)
    (snapshot : Snapshot) : prog (list promotionEntry) :=
  _ ← forM (seed_promotion fuel cfg snapshot) entries;
  mret (with_replicas snapshot <$> entries).

(** ** The promotion and catch-up proof *)

Inductive proof_kind := ReplicaPromotion | CatchUpAfterRejoin.

Definition millisecond : Z := 1000000.

(** The bounded retry: wrong bytes fail at once, an error or a miss until the deadline. *)
Fixpoint read_promoted (fuel : nat) (deadline : Z) (address owner : string) (entry : promotionEntry) : prog () :=
  match fuel with
  | O => fail StillRunning
  | S fuel =>
      r ← directGet address (pe_key entry);
      let retry lastErr :=
        now ← look w_now;
        if deadline <? now then fail (PromotionTimedOut (pe_shard entry) lastErr) else
        err ← waitInterval None (100 * millisecond);
        match err with
        | Some x => fail (ContextDone x)
        | None => read_promoted fuel deadline address owner entry
        end in
      match r with
      | Err e => retry (OwnerReadFailed owner e)
      | Ok None => retry (OwnerLacksKey owner)
      | Ok (Some value) => guard_p (bool_decide (value = pe_value entry)) (WrongBytes (pe_shard entry) owner)
      end
  end.

Definition verify_entry (fuel : nat) (before after : Snapshot) (kind : proof_kind) (deadline : Z)
    (entry : promotionEntry) : prog () :=
  let shard := pe_shard entry in
  let owner := owner_at (ShardMap after) shard in
  _ ← guard_p (negb (bool_decide (owner = ""))) (NoOwnerAfter shard);
  let address := default "" (Nodes after !! owner) in
  _ ← guard_p (negb (bool_decide (address = ""))) (NoAddress owner shard);
  _ ← match kind with
      | CatchUpAfterRejoin => mret ()
      | ReplicaPromotion =>
          match Snapshot_Replicas before shard with
          | [] => fail (NoReplicaToPromote shard)
          | first :: _ => guard_p (bool_decide (owner = first)) (PromotedElsewhere shard owner first)
          end
      end;
  read_promoted fuel deadline address owner entry.

Record promotionReport := MkPromotionReport {
  pr_kind : proof_kind; pr_shards : nat; pr_verified : nat;
  pr_example : Z * string * string      (* the example's shard, previous and new primary *)
}.

Definition example_step (before after : Snapshot) (ex : Z * string * string) (e : promotionEntry)
    : Z * string * string :=
  if bool_decide (ex.1.2 = "")
  then (pe_shard e, owner_at (ShardMap before) (pe_shard e), owner_at (ShardMap after) (pe_shard e))
  else ex.

(** [None] is the nil report of an empty workload; the elapsed time is left out. *)
Definition verifyPromotion (fuel : nat) (before after : Snapshot) (entries : list promotionEntry)
    (kind : proof_kind) (budget : Z) : prog (option promotionReport) :=
  match entries with
  | [] => mret None
  | _ =>
      now ← look w_now;
      _ ← forM (verify_entry fuel before after kind (now + budget)) entries;
      mret (Some (MkPromotionReport kind (length entries) (length entries)
              (foldl (example_step before after) (0, "", "") entries)))
  end.

(** ** The routing proof of an epoch *)

Inductive outcome := Miss | RemovedNodeUnreachable.

(** Every node that holds the shard: its primary and its replicas. *)
Definition holders (snapshot : Snapshot) (owner : string) (shard : Z) : gset string :=
  {[owner]} ∪ list_to_set (Snapshot_Replicas snapshot shard).

Definition verifyNonOwner (snapshot baseline : Snapshot) (target owner : string) (key : bytes) (shard : Z)
    : prog (string * outcome) :=
  match filter (fun id => id ∉ holders snapshot owner shard) (sortedNodeIDs (Nodes snapshot)) with
  | id :: _ =>
      r ← directGet (default "" (Nodes snapshot !! id)) key;
      match r with
      | Err e => fail (NonOwnerFailed id e)
      | Ok (Some _) => fail (NonOwnerHolds id)
      | Ok None => mret (id, Miss)
      end
  | [] =>
      let address := default "" (Nodes baseline !! target) in
      _ ← guard_p (negb (bool_decide (address = "") || bool_decide (target ∈ holders snapshot owner shard))) NoNonHolder;
      r ← directGet address key;
      match r with
      | Err _ => mret (target, RemovedNodeUnreachable)
      | Ok (Some _) => fail (NonOwnerHolds target)
      | Ok None => mret (target, Miss)
      end
  end.

Record epochProof := MkEpochProof {
  ep_generation : Z; ep_key : bytes; ep_shard : Z; ep_owner : string;
  ep_nonOwner : string; ep_outcome : outcome; ep_attempts : Z
}.

Definition epoch_value (epoch : string) (generation attempt : Z) : bytes :=
  bytes_of_string ("epoch-value:" +:+ epoch +:+ ":g" +:+ Itoa generation +:+ ":attempt" +:+ Itoa attempt).

(** A load error is taken only where the caller passes the channel. *)
Definition take_load_error (watch : bool) : prog () := fun s =>
  if watch then
    match w_loadError (s_world s) with
    | Some (e, w) => (Err (LoadFailure e), MkSt w (s_log s))
    | None => (Ok (), s)
    end
  else (Ok (), s).

(** One attempt: [Ok None] asks for another one. *)
Definition epoch_attempt (snapshot baseline : Snapshot) (target : string) (shard : Z) (key value : bytes)
    (deadline pollInterval attempt : Z) : prog (option epochProof) :=
  let owner := owner_at (ShardMap snapshot) shard in
  let again := _ ← waitInterval (Some deadline) pollInterval; mret None in
  err ← ask_log (w_put key value) (EvSeed key value);
  match err with
  | Some _ => again
  | None =>
      r ← directGet (default "" (Nodes snapshot !! owner)) key;
      match r with
      | Err _ | Ok None => again
      | Ok (Some ownerValue) =>
          if negb (bool_decide (ownerValue = value)) then fail (WrongBytes shard owner) else
          n ← try (verifyNonOwner snapshot baseline target owner key shard);
          match n with
          | Err _ => again
          | Ok (nonOwner, out) =>
              mret (Some (MkEpochProof (Generation snapshot) key shard owner nonOwner out attempt))
          end
      end
  end.

Fixpoint epoch_loop (fuel : nat) (attempt : Z) (deadline : Z) (watch : bool) (snapshot baseline : Snapshot)
    (target : string) (shard : Z) (keyPrefix epoch : string) (pollInterval : Z) : prog epochProof :=
  match fuel with
  | O => fail StillRunning
  | S fuel =>
      _ ← take_load_error watch;
      done ← look (ctx_err (Some deadline));
      match done with
      | Some e => fail (SDKNotConverged e)
      | None =>
          match keyForShard (keyPrefix +:+ ":attempt:" +:+ Itoa attempt) shard (ShardCount snapshot) with
          | None => fail (NoKey shard)
          | Some key =>
              r ← epoch_attempt snapshot baseline target shard key
                    (epoch_value epoch (Generation snapshot) attempt) deadline pollInterval attempt;
              match r with
              | Some proof => mret proof
              | None => epoch_loop fuel (attempt + 1) deadline watch snapshot baseline target shard
                          keyPrefix epoch pollInterval
              end
          end
      end
  end.

Definition verifyEpoch (fuel : nat) (cfg : settings) (transitionTimeout : Z) (watch : bool)
    (snapshot baseline : Snapshot) (shard : Z) (keyPrefix epoch : string) : prog epochProof :=
  now ← look w_now;
  epoch_loop fuel 1 (now + transitionTimeout) watch snapshot baseline (c_target cfg) shard
    keyPrefix epoch (c_pollInterval cfg).

(** ** Waiting for a transition *)

(** The first [select]: a load error, the context, or neither. *)
Definition poll (deadline : Z) (lastErr : option chaos_error) : prog () := fun s =>
  let w := s_world s in
  let timed_out e := Err (TransitionTimedOut (default (ContextDone e) lastErr)) in
  match w_loadError w, ctx_err (Some deadline) w with
  | Some (e, w'), None => (Err (LoadFailure e), MkSt w' (s_log s))
  | Some (e, w'), Some d => if w_pick w then (Err (LoadFailure e), MkSt w' (s_log s)) else (timed_out d, s)
  | None, Some d => (timed_out d, s)
  | None, None => (Ok (), s)
  end.

Definition judge (kind : transition_kind) (previous baseline current : Snapshot) (target : string)
    : result movement_error movementStats :=
  match kind with
  | Removal => validateRemoval previous current target
  | Rejoin => validateRejoin baseline previous current target
  end.

Fixpoint transition_loop (fuel : nat) (deadline pollInterval : Z) (replicas preferred : nat)
    (previous baseline : Snapshot) (target : string) (kind : transition_kind) (lastErr : option chaos_error)
    : prog (nat * Snapshot * movementStats) :=
  match fuel with
  | O => fail StillRunning
  | S fuel =>
      let again preferred lastErr :=
        paused ← ask (w_pause deadline pollInterval);
        match paused with
        | Some e => fail (LoadFailure e)
        | None => transition_loop fuel deadline pollInterval replicas preferred previous baseline target kind lastErr
        end in
      _ ← poll deadline lastErr;
      r ← try (fetch replicas preferred);
      match r with
      | Err e => again preferred (Some e)
      | Ok (preferred, current) =>
          if sameTopology previous current then
            if Generation current =? Generation previous then again preferred lastErr
            else fail (GenerationWithoutChange (Generation previous) (Generation current))
          else
            match judge kind previous baseline current target with
            | Err e => fail (BadMovement e)
            | Ok movement => mret (preferred, current, movement)
            end
      end
  end.

Definition waitForTransition (fuel : nat) (cfg : settings) (replicas preferred : nat)
    (previous baseline : Snapshot) (kind : transition_kind) : prog (nat * Snapshot * movementStats) :=
  now ← look w_now;
  transition_loop fuel (now + c_transitionTimeout cfg) (c_pollInterval cfg) replicas preferred
    previous baseline (c_target cfg) kind None.

(** ** One cycle *)

Definition kind_name (k : transition_kind) : string :=
  match k with Removal => "removal" | Rejoin => "rejoin" end.
Definition proof_of (k : transition_kind) : proof_kind :=
  match k with Removal => ReplicaPromotion | Rejoin => CatchUpAfterRejoin end.

Section cycles.
Context (fuel : nat) (cfg : settings) (replicas : nat) (baseline : Snapshot).
Context (targetShards : list Z) (namespace : string).

(** One half of a cycle, [transitionIndex] already counted: wait, prove the routing
    within what is left of the budget, prove the promoted or refilled data, record
    the transition, and only then publish the count. *)
Definition transition (kind : transition_kind) (cycle transitionIndex : Z) (preferred : nat)
    (previous : Snapshot) (promotion : list promotionEntry) : prog (nat * Snapshot) :=
  transitionStarted ← look w_now;
  t ← waitForTransition fuel cfg replicas preferred previous baseline kind;
  let '(preferred, current, movement) := t in
  now ← look w_now;
  let left := c_transitionTimeout cfg - (now - transitionStarted) in
  _ ← guard_p (negb (left <=? 0)) (BudgetExhausted cycle);
  let shard := nth (Z.to_nat ((transitionIndex - 1) `mod` Z.of_nat (length targetShards))) targetShards 0 in
  _ ← verifyEpoch fuel cfg left true current baseline shard
        (namespace +:+ ":transition:" +:+ Itoa transitionIndex)
        ("cycle-" +:+ Itoa cycle +:+ "-" +:+ kind_name kind);
  _ ← verifyPromotion fuel previous current promotion (proof_of kind) (c_catchUpTimeout cfg);
  _ ← note (EvTransition (MkTransition transitionIndex cycle kind previous current movement));
  _ ← writeProgress (c_readyFile cfg) transitionIndex;
  mret (preferred, current).

Fixpoint cycle_loop (cycles : list Z) (preferred : nat) (previous : Snapshot)
    (promotion : list promotionEntry) : prog () :=
  match cycles with
  | [] => mret ()
  | cycle :: cycles =>
      r ← transition Removal cycle (2 * cycle - 1) preferred previous promotion;
      let '(preferred, removed) := r in
      r ← transition Rejoin cycle (2 * cycle) preferred removed promotion;
      let '(preferred, rejoined) := r in
      promotion ← (if cycle <? c_cycles cfg
                   then seedPromotionKeys fuel cfg (refreshPromotionValues promotion cycle) rejoined
                   else mret promotion);
      cycle_loop cycles preferred rejoined promotion
  end.
End cycles.

(** ** The run *)

(** On an error the connections opened so far are closed. *)
Fixpoint dialReplicas (addresses : list string) (opened : list string) : prog () :=
  match addresses with
  | [] => mret ()
  | address :: rest =>
      err ← ask (w_dial address);
      match err with
      | Some e => _ ← forM (fun a => note (EvClose a)) opened; fail (DialFailed address e)
      | None => _ ← note (EvOpen address); dialReplicas rest (opened ++ [address])
      end
  end.

Definition topologyIdentity (s : Snapshot) : string :=
  if bool_decide (SnapFingerprint s = []) then "legacy-generation-" +:+ Itoa (Generation s)
  else String.string_of_list_byte (concat ((fun b => [hex_digit (byteZ b / 16); hex_digit (byteZ b `mod` 16)])
         <$> SnapFingerprint s)).
Definition namespace_of (cfg : settings) (s : Snapshot) : string :=
  "pulsekv-chaos:s" +:+ Itoa (c_seed cfg) +:+ ":t" +:+ topologyIdentity s +:+ ":" +:+ c_target cfg.

(** The checks after the last cycle: the leader half, the watcher, the load. *)
Definition finish (cfg : settings) : prog () :=
  leader ← ask w_leaderDone;
  _ ← match leader with Some e => fail (LeaderFailed e) | None => mret () end;
  _ ← ask w_stopLoad;
  coherence ← look w_coherence;
  _ ← guard_p (Violations coherence =? 0) (ReplicasDisagreed (Violations coherence));
  _ ← guard_p (negb (runsLeaderScenario cfg && (Sweeps coherence =? 0))) NoSweep;
  load ← look w_load;
  _ ← guard_p ((Misses load =? 0) && (Mismatches load =? 0) && (RPCErrors load =? 0)) (LoadIncorrect load);
  guard_p (negb (Verified load =? 0)) NothingVerified.

(** The SDK is open: seed, prove the baseline, start the load, run the cycles. *)
Definition run_cluster (fuel : nat) (cfg : settings) (replicas preferred : nat) (baseline : Snapshot)
    (stable : list stableEntry) : prog () :=
  let targetShards := shardsOwnedBy baseline (c_target cfg) in
  let namespace := namespace_of cfg baseline in
  let promotion := match buildPromotionEntries baseline targetShards namespace (c_promotionKeys cfg) with
                   | Ok es => es | Err _ => [] end in
  _ ← seedStableKeys stable;
  _ ← verifyEpoch fuel cfg (c_transitionTimeout cfg) false baseline baseline (nth 0 targetShards 0)
        (namespace +:+ ":baseline") "baseline";
  defer (ask w_stopLoad)
    (_ ← ask w_startLoad;
     promotion ← seedPromotionKeys fuel cfg promotion baseline;
     _ ← writeProgress (c_readyFile cfg) 0;
     _ ← ask w_startWatch;
     _ ← (if runsDataNodeScenario cfg
          then cycle_loop fuel cfg replicas baseline targetShards namespace
                 (seqZ 1 (c_cycles cfg)) preferred baseline promotion
          else mret ());
     finish cfg).

(** [cluster.Close()] is deferred, and its error is the run's when there is no other. *)
Definition with_sdk (m : prog ()) : prog () := fun s =>
  let '(r, s) := m s in
  let '(err, w) := w_closeSDK (s_world s) in
  (match r, err with
   | Ok _, Some e => Err (SDKCloseFailed e)
   | _, _ => r
   end, MkSt w (s_log s ++ [EvSDK false])).

Definition run (fuel : nat) (cfg : settings) : prog () :=
  let controlPlanes := splitCommaList (c_controlPlane cfg) in
  let n := length controlPlanes in
  _ ← guard_p (negb (bool_decide (controlPlanes = []))) NoControlPlane;
  _ ← guard_p (negb (runsLeaderScenario cfg && bool_decide (n < 3)%nat)) (TooFewControlPlanes n);
  _ ← prepareProgressFile (c_readyFile cfg);
  _ ← (if runsLeaderScenario cfg then prepareProgressFile (c_leaderReadyFile cfg) else mret ());
  _ ← dialReplicas controlPlanes [];
  defer (forM (fun a => note (EvClose a)) controlPlanes)
    (b ← fetch n 0;
     let '(preferred, baseline) := b in
     _ ← match validateBaseline baseline (c_target cfg) with Ok _ => mret () | Err e => fail (BadBaseline e) end;
     match buildStableEntries baseline (c_target cfg) (namespace_of cfg baseline) with
     | Err e => fail (BadStable e)
     | Ok stable =>
         opened ← ask w_newSDK;
         match opened with
         | Some e => fail (SDKFailed e)
         | None => _ ← note (EvSDK true); with_sdk (run_cluster fuel cfg n preferred baseline stable)
         end
     end).

(** ** Reasoning about programs *)

Lemma bind_Ok {A B} (m : prog A) (f : A → prog B) s b s' :
  (m ≫= f) s = (Ok b, s') ↔ ∃ a s1, m s = (Ok a, s1) ∧ f a s1 = (Ok b, s').
Proof using Type.
  unfold mbind, prog_bind. destruct (m s) as [[a|e] s1]; [naive_solver|].
  split; [done|]. naive_solver.
Qed.

Lemma guard_p_Ok b e s u s' : guard_p b e s = (Ok u, s') ↔ b = true ∧ s' = s.
Proof using Type. unfold guard_p, fail, mret, prog_ret. destruct b, u; naive_solver. Qed.

(** A program adds to the log only events that satisfy [P], whatever its outcome. *)
Definition emits {A} (P : event → Prop) (m : prog A) : Prop :=
  ∀ s, ∃ ext, s_log (m s).2 = s_log s ++ ext ∧ Forall P ext.

Lemma emits_mono {A} (P Q : event → Prop) (m : prog A) : (∀ ev, P ev → Q ev) → emits P m → emits Q m.
Proof using Type.
  intros HPQ Hm s. destruct (Hm s) as (ext & -> & H). exists ext. split; [done|].
  by eapply Forall_impl.
Qed.

Section emitting.
Context (P : event → Prop).

Lemma emits_same {A} (m : prog A) : (∀ s, s_log (m s).2 = s_log s) → emits P m.
Proof using Type. intros H s. exists []. by rewrite H, app_nil_r. Qed.
Lemma emits_ret {A} (a : A) : emits P (mret a : prog A).
Proof using Type. by apply emits_same. Qed.
Lemma emits_fail {A} e : emits P (fail e : prog A).
Proof using Type. by apply emits_same. Qed.
Lemma emits_guard b e : emits P (guard_p b e).
Proof using Type. destruct b; by apply emits_same. Qed.
Lemma emits_ask {A} (f : W → A * W) : emits P (ask f).
Proof using Type. apply emits_same. intros s. unfold ask. by destruct (f _). Qed.
Lemma emits_look {A} (f : W → A) : emits P (look f).
Proof using Type. by apply emits_same. Qed.
Lemma emits_ask_log {A} (f : W → A * W) ev : (∀ a, P (ev a)) → emits P (ask_log f ev).
Proof using Type.
  intros H s. unfold ask_log. destruct (f _) as [a w]. exists [ev a]. split; [done|]. by constructor.
Qed.
Lemma emits_note ev : P ev → emits P (note ev).
Proof using Type. intros H s. exists [ev]. split; [done|]. by constructor. Qed.
Lemma emits_bind {A B} (m : prog A) (f : A → prog B) : emits P m → (∀ a, emits P (f a)) → emits P (m ≫= f).
Proof using Type.
  intros Hm Hf s. destruct (Hm s) as (x & Hx & HPx). unfold mbind, prog_bind.
  destruct (m s) as [[a|e] s1]; cbn in *; [|by exists x].
  destruct (Hf a s1) as (y & Hy & HPy). exists (x ++ y). rewrite Hy, Hx, app_assoc. split; [done|].
  by apply Forall_app.
Qed.
Lemma emits_try {A} (m : prog A) : emits P m → emits P (try m).
Proof using Type. intros Hm s. destruct (Hm s) as (x & Hx). exists x. unfold try. by destruct (m s). Qed.
Lemma emits_defer {A} c (m : prog A) : emits P c → emits P m → emits P (defer c m).
Proof using Type.
  intros Hc Hm s. destruct (Hm s) as (x & Hx & HPx). unfold defer. destruct (m s) as [r s1]. cbn in *.
  destruct (Hc s1) as (y & Hy & HPy). destruct (c s1) as [r' s2]. cbn in *.
  exists (x ++ y). rewrite Hy, Hx, app_assoc. split; [done|]. by apply Forall_app.
Qed.
Lemma emits_forM {A} (f : A → prog ()) l : (∀ a, emits P (f a)) → emits P (forM f l).
Proof using Type. intros Hf. induction l; [apply emits_ret|]. by apply emits_bind. Qed.
End emitting.

(** The events the lifecycle script and the report see. *)
Definition milestone (ev : event) : Prop :=
  match ev with EvProgress _ _ _ | EvTransition _ => True | _ => False end.
#[export] Instance milestone_dec ev : Decision (milestone ev).
Proof. destruct ev; apply _. Defined.
Definition minor (ev : event) : Prop := ¬ milestone ev.
Definition milestones (log : list event) : list event := filter milestone log.

(** Walk through a program that only makes minor events. *)
Ltac emit_step :=
  match goal with
  | |- ∀ _, _ => intros ?
  | |- emits _ (mret _) => apply emits_ret
  | |- emits _ (fail _) => apply emits_fail
  | |- emits _ (guard_p _ _) => apply emits_guard
  | |- emits _ (ask _) => apply emits_ask
  | |- emits _ (look _) => apply emits_look
  | |- emits _ (ask_log _ _) => apply emits_ask_log; intros ?; unfold minor; cbn; tauto
  | |- emits _ (note _) => apply emits_note; unfold minor; cbn; tauto
  | |- emits _ (mbind _ _) => apply emits_bind
  | |- emits _ (try _) => apply emits_try
  | |- emits _ (defer _ _) => apply emits_defer
  | |- emits _ (forM _ _) => apply emits_forM
  | |- emits _ (match ?x with _ => _ end) => destruct x
  | |- emits _ (let '(_, _) := ?x in _) => destruct x
  | H : _ |- emits _ _ => apply H
  end.
Ltac emit := repeat emit_step.

Lemma directGet_minor address key : emits minor (directGet address key).
Proof using Type. unfold directGet. emit. Qed.
Lemma fetch_attempts_minor n p l e : emits minor (fetch_attempts n p l e).
Proof using Type. revert e. induction l as [|a l IH]; intros e; cbn [fetch_attempts]; emit. Qed.
Lemma waitInterval_minor d i : emits minor (waitInterval d i).
Proof using Type. unfold waitInterval. emit. Qed.
Lemma seedStableKeys_minor l : emits minor (seedStableKeys l).
Proof using Type. unfold seedStableKeys, seed_stable. emit. Qed.
Lemma put_converging_minor fuel n d k v a i : emits minor (put_converging fuel n d k v a i).
Proof using Type.
  revert n. induction fuel as [|fuel IH]; intros n; cbn [put_converging]; pose proof waitInterval_minor; emit.
Qed.
Lemma seedPromotionKeys_minor fuel cfg es s : emits minor (seedPromotionKeys fuel cfg es s).
Proof using Type.
  unfold seedPromotionKeys, seed_promotion, putWithAckConverging, verify_replica.
  pose proof directGet_minor. pose proof put_converging_minor. emit.
Qed.
Lemma read_promoted_minor fuel d a o e : emits minor (read_promoted fuel d a o e).
Proof using Type.
  induction fuel as [|fuel IH]; cbn [read_promoted]; pose proof directGet_minor; pose proof waitInterval_minor; emit.
Qed.
Lemma verifyPromotion_minor fuel b a es k d : emits minor (verifyPromotion fuel b a es k d).
Proof using Type. unfold verifyPromotion, verify_entry. pose proof read_promoted_minor. emit. Qed.
Lemma verifyNonOwner_minor s b t o k sh : emits minor (verifyNonOwner s b t o k sh).
Proof using Type. unfold verifyNonOwner. pose proof directGet_minor. emit. Qed.
Lemma take_load_error_minor b : emits minor (take_load_error b).
Proof using Type.
  apply emits_same. intros s. unfold take_load_error. destruct b; [|done]. by destruct (w_loadError _) as [[]|].
Qed.
Lemma epoch_loop_minor fuel n d w s b t sh p e i : emits minor (epoch_loop fuel n d w s b t sh p e i).
Proof using Type.
  revert n. induction fuel as [|fuel IH]; intros n; cbn [epoch_loop]; [emit|].
  unfold epoch_attempt. pose proof take_load_error_minor. pose proof directGet_minor.
  pose proof verifyNonOwner_minor. pose proof waitInterval_minor. emit.
Qed.
Lemma verifyEpoch_minor fuel cfg d w s b sh p e : emits minor (verifyEpoch fuel cfg d w s b sh p e).
Proof using Type. unfold verifyEpoch. pose proof epoch_loop_minor. emit. Qed.
Lemma poll_minor d e : emits minor (poll d e).
Proof using Type.
  apply emits_same. intros s. unfold poll. destruct (w_loadError _) as [[]|], (ctx_err _ _); try done.
  by destruct (w_pick _).
Qed.
Lemma transition_loop_minor fuel d i n p pr b t k e : emits minor (transition_loop fuel d i n p pr b t k e).
Proof using Type.
  revert p e. induction fuel as [|fuel IH]; intros p e; cbn [transition_loop]; [emit|].
  unfold fetch. pose proof poll_minor. pose proof fetch_attempts_minor. emit.
Qed.
Lemma waitForTransition_minor fuel cfg n p pr b k : emits minor (waitForTransition fuel cfg n p pr b k).
Proof using Type. unfold waitForTransition. pose proof transition_loop_minor. emit. Qed.

(** ** What a program that returns has left in the log *)

Definition yields {A} (Q : A → list event → Prop) (m : prog A) : Prop :=
  ∀ s a s', m s = (Ok a, s') → ∃ ext, s_log s' = s_log s ++ ext ∧ Q a ext.

Lemma yields_emits {A} (P : event → Prop) (m : prog A) : emits P m → yields (fun _ ext => Forall P ext) m.
Proof using Type. intros H s a s' Hm. destruct (H s) as (ext & He). exists ext. by rewrite Hm in He. Qed.

Lemma yields_mono {A} (Q R : A → list event → Prop) m :
  (∀ a ext, Q a ext → R a ext) → yields Q m → yields R m.
Proof using Type. intros HQR H s a s' Hm. destruct (H s a s' Hm) as (ext & ? & ?). eauto. Qed.

Lemma yields_ret {A} (Q : A → list event → Prop) a : Q a [] → yields Q (mret a).
Proof using Type. intros H s b s' [= <- <-]. exists []. by rewrite app_nil_r. Qed.
Lemma yields_fail {A} (Q : A → list event → Prop) e : yields Q (fail e).
Proof using Type. by intros s a s' [=]. Qed.
Lemma yields_guard (Q : () → list event → Prop) b e : (b = true → Q () []) → yields Q (guard_p b e).
Proof using Type. intros H s [] s' [Hb ->]%guard_p_Ok. exists []. rewrite app_nil_r. auto. Qed.
Lemma yields_ask_log {A} (Q : A → list event → Prop) f ev :
  (∀ a, Q a [ev a]) → yields Q (ask_log f ev).
Proof using Type.
  intros H s a s'. unfold ask_log. destruct (f _) as [b w]. intros [= <- <-]. cbn. eauto.
Qed.
Lemma yields_look {A} (Q : A → list event → Prop) f : (∀ a, Q a []) → yields Q (look f).
Proof using Type. intros H s a s' [= <- <-]. exists []. rewrite app_nil_r. auto. Qed.
Lemma yields_ask {A} (Q : A → list event → Prop) f : (∀ a, Q a []) → yields Q (ask f).
Proof using Type.
  intros H s a s'. unfold ask. destruct (f _) as [b w]. intros [= <- <-]. exists [].
  rewrite app_nil_r. auto.
Qed.
Lemma yields_note (Q : () → list event → Prop) ev : Q () [ev] → yields Q (note ev).
Proof using Type. intros H s [] s' [= <-]. cbn. eauto. Qed.

Lemma yields_bind {A B} (Q : A → list event → Prop) (R : B → list event → Prop) m f :
  yields Q m → (∀ a ext, Q a ext → yields (fun b ext' => R b (ext ++ ext')) (f a)) → yields R (m ≫= f).
Proof using Type.
  intros Hm Hf s b s' (a & s1 & H1 & H2)%bind_Ok. apply Hm in H1 as (x & Hx & HQ).
  apply (Hf a x HQ) in H2 as (y & Hy & HR). exists (x ++ y). by rewrite Hy, Hx, app_assoc.
Qed.

(** The events of a bind's first half may be forgotten when the claim survives more events. *)
Lemma yields_bind_skip {A B} (R : B → list event → Prop) (m : prog A) f :
  (∀ b x y, R b y → R b (x ++ y)) → emits (fun _ => True) m → (∀ a, yields R (f a)) → yields R (m ≫= f).
Proof using Type.
  intros HR Hm Hf. eapply yields_bind; [by apply yields_emits|]. intros a x _.
  eapply yields_mono; [|apply Hf]. auto.
Qed.

Lemma yields_forM {A} (Q : A → list event → Prop) (f : A → prog ()) l :
  (∀ a x y z, Q a y → Q a (x ++ y ++ z)) → (∀ a, yields (fun _ => Q a) (f a)) →
  yields (fun _ ext => Forall (fun a => Q a ext) l) (forM f l).
Proof using Type.
  intros HQ Hf. induction l as [|a l IH]; cbn [forM]; [by apply yields_ret|].
  eapply yields_bind; [apply Hf|]. intros [] x Hx. eapply yields_mono; [|apply IH]. cbn.
  intros _ y Hy. constructor; [by apply (HQ a [])|].
  eapply Forall_impl; [exact Hy|]. intros b Hb. specialize (HQ b x y [] Hb). by rewrite app_nil_r in HQ.
Qed.

Lemma any_emits {A} (m : prog A) : emits minor m → emits (fun _ => True) m.
Proof using Type. by apply emits_mono. Qed.

(** *** The promotion proof *)

Definition read_back (address : string) (e : promotionEntry) (ext : list event) : Prop :=
  EvDirect address (pe_key e) (Ok (Some (pe_value e))) ∈ ext.

Lemma read_promoted_yields fuel d address owner e :
  yields (fun _ => read_back address e) (read_promoted fuel d address owner e).
Proof using Type.
  unfold read_back. induction fuel as [|fuel IH]; cbn [read_promoted]; [apply yields_fail|].
  unfold directGet. eapply yields_bind; [apply (yields_ask_log (fun r ext => ext = [EvDirect address (pe_key e) r])); done|].
  intros r ext ->.
  assert (∀ err, yields (fun (_ : ()) ext' => EvDirect address (pe_key e) (Ok (Some (pe_value e))) ∈
            [EvDirect address (pe_key e) r] ++ ext')
    (now ← look w_now; if d <? now then fail err else
     x ← waitInterval None (100 * millisecond);
     match x with Some x => fail (ContextDone x) | None => read_promoted fuel d address owner e end)) as Hretry.
  { intros err. apply yields_bind_skip; [set_solver|apply emits_look|]. intros now.
    destruct (d <? now); [apply yields_fail|].
    apply yields_bind_skip; [set_solver|apply emits_ask|]. intros [x|]; [apply yields_fail|].
    eapply yields_mono; [|exact IH]. set_solver. }
  destruct r as [[v|]|x]; [|apply Hretry..].
  apply yields_guard. intros ->%bool_decide_eq_true. set_solver.
Qed.

Definition promoted (before after : Snapshot) (kind : proof_kind) (e : promotionEntry) (ext : list event) : Prop :=
  ∃ owner address, ShardMap after !! pe_shard e = Some owner ∧ Nodes after !! owner = Some address ∧
    (kind = ReplicaPromotion → head (Snapshot_Replicas before (pe_shard e)) = Some owner) ∧
    read_back address e ext.

Lemma default_nonempty (m : option string) :
  negb (bool_decide (default "" m = "")) = true → m = Some (default "" m).
Proof using Type. rewrite negb_true_iff, bool_decide_eq_false. by destruct m. Qed.

Lemma verify_entry_yields fuel before after kind d e :
  yields (fun _ => promoted before after kind e) (verify_entry fuel before after kind d e).
Proof using Type.
  unfold verify_entry, owner_at. set (o := default "" (ShardMap after !! pe_shard e)).
  eapply yields_bind; [by apply (yields_guard (fun _ ext => ext = [] ∧ ShardMap after !! pe_shard e = Some o));
    intros Ho%default_nonempty|]. intros _ _ [-> Ho]. cbn.
  set (a := default "" (Nodes after !! o)).
  eapply yields_bind; [by apply (yields_guard (fun _ ext => ext = [] ∧ Nodes after !! o = Some a));
    intros Ha%default_nonempty|]. intros _ _ [-> Ha]. cbn.
  eapply (yields_bind (fun _ ext => ext = [] ∧
    (kind = ReplicaPromotion → head (Snapshot_Replicas before (pe_shard e)) = Some o))).
  - destruct kind; [|by apply yields_ret]. destruct (Snapshot_Replicas before (pe_shard e)); [apply yields_fail|].
    apply yields_guard. intros Heq%bool_decide_eq_true. cbn. by rewrite Heq.
  - intros _ _ [-> Hk]. cbn. eapply yields_mono; [|apply read_promoted_yields]. intros u ext Hr.
    exists o, a. done.
Qed.

Lemma promoted_mono before after kind e x y z :
  promoted before after kind e y → promoted before after kind e (x ++ y ++ z).
Proof using Type. intros (o & a & ? & ? & ? & ?). exists o, a. unfold read_back in *. set_solver. Qed.

Lemma verifyPromotion_yields fuel before after es kind budget :
  yields (fun _ ext => Forall (fun e => promoted before after kind e ext) es)
    (verifyPromotion fuel before after es kind budget).
Proof using Type.
  assert (∀ d, yields (fun _ ext => Forall (fun e => promoted before after kind e ext) es)
            (forM (verify_entry fuel before after kind d) es)) as Hall.
  { intros d. apply yields_forM; [|intros e; apply verify_entry_yields].
    intros e x y z. apply promoted_mono. }
  destruct es as [|e es]; [by apply yields_ret|]. unfold verifyPromotion.
  eapply yields_bind; [by apply (yields_look (fun _ ext => ext = []))|]. intros now ? ->. cbn [app].
  eapply yields_bind; [apply Hall|]. intros u ext Hext. apply yields_ret. by rewrite app_nil_r.
Qed.

(** *** The routing proof *)

(** A fresh key of the shard was written through the SDK, read back from the owner's
    own address, and not found at a node that holds no copy of the shard. *)
Definition routed (snapshot baseline : Snapshot) (target : string) (shard : Z) (ext : list event) : Prop :=
  let owner := owner_at (ShardMap snapshot) shard in
  ∃ key value id r,
    ShardForKey key (ShardCount snapshot) = shard ∧ EvSeed key value None ∈ ext ∧
    EvDirect (default "" (Nodes snapshot !! owner)) key (Ok (Some value)) ∈ ext ∧
    id ∉ holders snapshot owner shard ∧ (∀ v, r ≠ Ok (Some v)) ∧
    ((is_Some (Nodes snapshot !! id) ∧ r = Ok None ∧ EvDirect (default "" (Nodes snapshot !! id)) key r ∈ ext) ∨
     (id = target ∧ EvDirect (default "" (Nodes baseline !! target)) key r ∈ ext)).

Lemma routed_mono snapshot baseline target shard x y z :
  routed snapshot baseline target shard y → routed snapshot baseline target shard (x ++ y ++ z).
Proof using Type.
  intros (key & value & id & r & ? & ? & ? & ? & ? & Hev). exists key, value, id, r.
  split_and!; [done|set_solver..|]. destruct Hev as [(? & ? & ?)|(? & ?)]; [left|right]; split_and?; try done; set_solver.
Qed.

Lemma directGet_yields address key :
  yields (fun r ext => ext = [EvDirect address key r]) (directGet address key).
Proof using Type. by apply yields_ask_log. Qed.

Lemma verifyNonOwner_yields snapshot baseline target owner key shard :
  yields (fun _ ext => ∃ id r, id ∉ holders snapshot owner shard ∧ (∀ v, r ≠ Ok (Some v)) ∧
      ((is_Some (Nodes snapshot !! id) ∧ r = Ok None ∧ EvDirect (default "" (Nodes snapshot !! id)) key r ∈ ext) ∨
       (id = target ∧ EvDirect (default "" (Nodes baseline !! target)) key r ∈ ext)))
    (verifyNonOwner snapshot baseline target owner key shard).
Proof using Type.
  unfold verifyNonOwner. destruct (filter _ _) as [|id l] eqn:Hf.
  - eapply yields_bind; [apply (yields_guard (fun _ ext => ext = [] ∧ target ∉ holders snapshot owner shard))|].
    { rewrite negb_true_iff, orb_false_iff, !bool_decide_eq_false. naive_solver. }
    intros _ _ [-> Ht]. cbn [app].
    eapply yields_bind; [apply directGet_yields|].
    intros r ext ->. destruct r as [[v|]|x]; [apply yields_fail|apply yields_ret..].
    + exists target, (Ok None). split; [done|]. split; [done|]. right. set_solver.
    + exists target, (Err x). split; [done|]. split; [done|]. right. set_solver.
  - assert (id ∈ id :: l) as Hin by left. rewrite <-Hf, list_elem_of_filter, elem_of_sortedNodeIDs in Hin.
    destruct Hin as [Hh Hlive].
    eapply yields_bind; [apply directGet_yields|].
    intros r ext ->. destruct r as [[v|]|x]; [apply yields_fail|apply yields_ret|apply yields_fail].
    exists id, (Ok None). split; [done|]. split; [done|]. left. set_solver.
Qed.

Lemma yields_try {A B} (Q : A → list event → Prop) (R : B → list event → Prop) (m : prog A) f :
  yields Q m → emits (fun _ => True) m →
  (∀ a ext, Q a ext → yields (fun b ext' => R b (ext ++ ext')) (f (Ok a))) →
  (∀ e ext, yields (fun b ext' => R b (ext ++ ext')) (f (Err e))) →
  yields R (try m ≫= f).
Proof using Type.
  intros Hm He Hok Herr. eapply (yields_bind (fun r ext => match r with Ok a => Q a ext | Err _ => True end)).
  - intros s r s'. unfold try. destruct (m s) as [r' s1] eqn:Hs. intros [= <- <-]. destruct r' as [a|e].
    + by apply (Hm s a s1).
    + destruct (He s) as (ext & Hx & _). rewrite Hs in Hx. eauto.
  - intros [a|e] ext Hext; [by apply Hok|apply Herr].
Qed.

Definition proven (snapshot baseline : Snapshot) (target : string) (shard : Z) {A} (r : option A)
    (ext : list event) : Prop :=
  match r with Some _ => routed snapshot baseline target shard ext | None => True end.

Lemma epoch_attempt_yields snapshot baseline target shard key value d i n :
  ShardForKey key (ShardCount snapshot) = shard →
  yields (proven snapshot baseline target shard) (epoch_attempt snapshot baseline target shard key value d i n).
Proof using Type.
  intros Hkey. unfold epoch_attempt. set (owner := owner_at _ shard).
  assert (yields (fun (r : option epochProof) _ => r = None)
    (_ ← waitInterval (Some d) i; mret None)) as Hagain.
  { eapply yields_bind; [by apply (yields_ask (fun _ _ => True))|]. intros a ext _. by apply yields_ret. }
  eapply yields_bind; [by apply (yields_ask_log (fun e ext => ext = [EvSeed key value e]))|].
  intros [e|] ext ->; [by eapply yields_mono, Hagain; intros ? ? ->|].
  eapply yields_bind; [apply directGet_yields|].
  intros r ext ->. destruct r as [[v|]|x]; [|by eapply yields_mono, Hagain; intros ? ? ->..].
  destruct (bool_decide_reflect (v = value)) as [->|]; cbn [negb]; [|apply yields_fail].
  eapply yields_try; [apply verifyNonOwner_yields|apply any_emits, verifyNonOwner_minor| |].
  - intros [nonOwner out] ext (id & r & Hid & Hr & Hev). apply yields_ret. cbn. rewrite app_nil_r.
    exists key, value, id, r. fold owner. split_and!; [done|set_solver..|].
    destruct Hev as [(? & ? & ?)|(? & ?)]; [left|right]; split_and?; try done; set_solver.
  - intros e ext. by eapply yields_mono, Hagain; intros ? ? ->.
Qed.

Lemma epoch_loop_yields fuel n d watch snapshot baseline target shard prefix epoch i :
  yields (fun _ => routed snapshot baseline target shard)
    (epoch_loop fuel n d watch snapshot baseline target shard prefix epoch i).
Proof using Type.
  pose proof (fun x y => routed_mono snapshot baseline target shard x y []) as Hmono. setoid_rewrite app_nil_r in Hmono.
  revert n. induction fuel as [|fuel IH]; intros n; cbn [epoch_loop]; [apply yields_fail|].
  apply yields_bind_skip; [auto|apply any_emits, take_load_error_minor|]. intros _.
  apply yields_bind_skip; [auto|apply emits_look|]. intros [e|]; [apply yields_fail|].
  destruct (keyForShard _ _ _) as [key|] eqn:Hk; [|apply yields_fail]. apply keyForShard_Some in Hk.
  eapply yields_bind; [by apply epoch_attempt_yields|]. intros [proof|] ext Hext.
  - apply yields_ret. by rewrite app_nil_r.
  - eapply yields_mono; [|apply IH]. auto.
Qed.

Lemma verifyEpoch_yields fuel cfg d watch snapshot baseline shard prefix epoch :
  yields (fun _ => routed snapshot baseline (c_target cfg) shard)
    (verifyEpoch fuel cfg d watch snapshot baseline shard prefix epoch).
Proof using Type.
  unfold verifyEpoch. eapply yields_bind; [by apply (yields_look (fun _ ext => ext = []))|].
  intros now ? ->. apply epoch_loop_yields.
Qed.

(** *** The transition *)

Lemma transition_loop_yields fuel d i n p previous baseline target kind e :
  yields (fun r _ => judge kind previous baseline r.1.2 target = Ok r.2)
    (transition_loop fuel d i n p previous baseline target kind e).
Proof using Type.
  revert p e. induction fuel as [|fuel IH]; intros p e; cbn [transition_loop]; [apply yields_fail|].
  assert (∀ p e, yields (fun r (_ : list event) => judge kind previous baseline r.1.2 target = Ok r.2)
    (paused ← ask (w_pause d i);
     match paused with Some x => fail (LoadFailure x)
     | None => transition_loop fuel d i n p previous baseline target kind e end)) as Hagain.
  { intros p' e'. apply yields_bind_skip; [done|apply emits_ask|]. intros [x|]; [apply yields_fail|apply IH]. }
  apply yields_bind_skip; [done|apply any_emits, poll_minor|]. intros _.
  apply yields_bind_skip; [done|apply emits_try, any_emits, fetch_attempts_minor|].
  intros [[p' current]|x]; [|apply Hagain].
  destruct (sameTopology previous current).
  - destruct (Generation current =? Generation previous); [apply Hagain|apply yields_fail].
  - destruct (judge kind previous baseline current target) eqn:Hj; [|apply yields_fail]. by apply yields_ret.
Qed.

Lemma yields_and {A} (Q : A → list event → Prop) (P : event → Prop) (m : prog A) :
  yields Q m → emits P m → yields (fun a ext => Q a ext ∧ Forall P ext) m.
Proof using Type.
  intros HQ HP s a s' Hm. destruct (HQ s a s' Hm) as (ext & Hext & H).
  destruct (yields_emits P m HP s a s' Hm) as (ext' & Hext' & H').
  rewrite Hext in Hext'. apply app_inv_head in Hext' as ->. eauto.
Qed.

Lemma waitForTransition_yields fuel cfg n p previous baseline kind :
  yields (fun r _ => judge kind previous baseline r.1.2 (c_target cfg) = Ok r.2)
    (waitForTransition fuel cfg n p previous baseline kind).
Proof using Type.
  unfold waitForTransition. apply yields_bind_skip; [done|apply emits_look|]. intros now.
  apply transition_loop_yields.
Qed.

Lemma note_yields ev : yields (fun _ ext => ext = [ev]) (note ev).
Proof using Type. by apply yields_note. Qed.

Lemma writeProgress_yields path n :
  yields (fun _ ext => ext = [EvProgress path n None]) (writeProgress path n).
Proof using Type.
  unfold writeProgress.
  eapply yields_bind; [by apply (yields_ask_log (fun e ext => ext = [EvProgress path n e]))|].
  intros [e|] ? ->; [apply yields_fail|by apply yields_ret].
Qed.

(** What one half of a cycle leaves behind when it returns. *)
Lemma transition_yields fuel cfg n baseline shards namespace kind cycle idx p previous promotion :
  yields (fun r ext => ∃ movement pre,
      ext = pre ++ [EvTransition (MkTransition idx cycle kind previous r.2 movement);
                    EvProgress (c_readyFile cfg) idx None] ∧
      judge kind previous baseline r.2 (c_target cfg) = Ok movement ∧ Forall minor pre ∧
      routed r.2 baseline (c_target cfg)
        (nth (Z.to_nat ((idx - 1) `mod` Z.of_nat (length shards))) shards 0) pre ∧
      Forall (fun e => promoted previous r.2 (proof_of kind) e pre) promotion)
    (transition fuel cfg n baseline shards namespace kind cycle idx p previous promotion).
Proof using Type.
  unfold transition. eapply yields_bind; [by apply (yields_look (fun _ ext => ext = []))|]. intros t0 ? ->.
  eapply yields_bind; [eapply yields_and; [apply waitForTransition_yields|apply waitForTransition_minor]|].
  intros [[p' current] movement] x [Hj Hx]. cbn in Hj. cbn [app].
  eapply yields_bind; [by apply (yields_look (fun _ ext => ext = []))|]. intros now ? ->.
  eapply yields_bind; [by apply (yields_guard (fun _ ext => ext = []))|]. intros _ ? ->.
  eapply yields_bind; [eapply yields_and; [apply verifyEpoch_yields|apply verifyEpoch_minor]|].
  intros _ y [Hy Hym].
  eapply yields_bind; [eapply yields_and; [apply verifyPromotion_yields|apply verifyPromotion_minor]|].
  intros _ z [Hz Hzm].
  eapply yields_bind; [apply note_yields|]. intros _ ? ->.
  eapply yields_bind; [apply writeProgress_yields|]. intros _ ? ->.
  apply yields_ret. exists movement, (x ++ y ++ z). cbn [app snd]. split_and!.
  - by rewrite <-!app_assoc.
  - done.
  - by rewrite !Forall_app.
  - by apply routed_mono.
  - eapply Forall_impl; [exact Hz|]. intros e He.
    apply (promoted_mono _ _ _ _ (x ++ y) z []) in He. by rewrite app_nil_r, <-app_assoc in He.
Qed.

(** ** The announcements of a run, on every outcome *)

Definition announce (ev : event) : option (transitionReport + Z) :=
  match ev with
  | EvTransition tr => Some (inl tr)
  | EvProgress _ n _ => Some (inr n)
  | _ => None
  end.
Definition heard (log : list event) : list (transitionReport + Z) := omap announce log.

Lemma heard_app x y : heard (x ++ y) = heard x ++ heard y.
Proof using Type. apply omap_app. Qed.
Lemma heard_minor ext : Forall minor ext → heard ext = [].
Proof using Type. induction 1 as [|ev ext Hev _ IH]; [done|]. destruct ev; (exact IH || by destruct Hev). Qed.

Definition traces {A} (Q : result chaos_error A → list event → Prop) (m : prog A) : Prop :=
  ∀ s, ∃ ext, s_log (m s).2 = s_log s ++ ext ∧ Q (m s).1 ext.

Lemma traces_bind {A B} (Q : result chaos_error A → list event → Prop) (R : result chaos_error B → list event → Prop) m f :
  traces Q m → (∀ a ext, Q (Ok a) ext → traces (fun r ext' => R r (ext ++ ext')) (f a)) →
  (∀ e ext, Q (Err e) ext → R (Err e) ext) → traces R (m ≫= f).
Proof using Type.
  intros Hm Hf He s. destruct (Hm s) as (x & Hx & HQ). unfold mbind, prog_bind.
  destruct (m s) as [[a|e] s1]; cbn in *; [|eauto].
  destruct (Hf a x HQ s1) as (y & Hy & HR). exists (x ++ y). by rewrite Hy, Hx, app_assoc.
Qed.

Lemma traces_mono {A} (Q R : result chaos_error A → list event → Prop) m :
  (∀ r ext, Q r ext → R r ext) → traces Q m → traces R m.
Proof using Type. intros H Hm s. destruct (Hm s) as (x & ? & ?). eauto. Qed.

(** A silent program, with what it yields when it returns. *)
Lemma traces_silent {A} (Q : A → list event → Prop) (m : prog A) :
  yields Q m → emits minor m →
  traces (fun r ext => heard ext = [] ∧ ∀ a, r = Ok a → Q a ext) m.
Proof using Type.
  intros HQ Hm s. destruct (Hm s) as (x & Hx & Hmin). exists x. split; [done|].
  split; [by apply heard_minor|]. intros a Ha. destruct (m s) as [r s'] eqn:Hs. cbn in *. subst r.
  destruct (HQ s a s' Hs) as (y & Hy & HQa). rewrite Hy in Hx. by apply app_inv_head in Hx as ->.
Qed.

Lemma traces_quiet {A} (m : prog A) : emits minor m → traces (fun _ ext => heard ext = []) m.
Proof using Type.
  intros H. eapply traces_mono; [|apply (traces_silent (fun _ _ => True)); [|done]]; [naive_solver|].
  eapply yields_mono; [|by apply yields_emits]. done.
Qed.

Lemma traces_writeProgress path n : traces (fun _ ext => heard ext = [inr n]) (writeProgress path n).
Proof using Type.
  intros s. unfold writeProgress, mbind, prog_bind, ask_log. destruct (w_write _ _ _) as [[e|] w];
    (eexists; split; [reflexivity|done]).
Qed.

(** The half-cycle announces nothing, or its transition and then its count. *)
Lemma transition_traces fuel cfg n baseline shards namespace kind cycle idx p previous promotion :
  traces (fun r ext =>
      (heard ext = [] ∧ is_ok r = false) ∨
      ∃ current movement, judge kind previous baseline current (c_target cfg) = Ok movement ∧
        heard ext = [inl (MkTransition idx cycle kind previous current movement); inr idx] ∧
        ∀ p' c, r = Ok (p', c) → c = current)
    (transition fuel cfg n baseline shards namespace kind cycle idx p previous promotion).
Proof using Type.
  unfold transition. eapply traces_bind; [apply traces_quiet, emits_look| |by auto]. intros t0 a Ha.
  eapply traces_bind; [apply traces_silent; [apply waitForTransition_yields|apply waitForTransition_minor]| |].
  2:{ intros e x [Hx _]. left. rewrite heard_app, Ha, Hx. done. }
  intros [[p' current] movement] x [Hx Hj]. specialize (Hj _ eq_refl). cbn in Hj.
  eapply traces_bind; [apply traces_quiet, emits_look| |]. 2:{ intros e y Hy. left. by rewrite !heard_app, Ha, Hx, Hy. }
  intros now y Hy.
  eapply traces_bind; [apply traces_quiet, emits_guard| |]. 2:{ intros e z Hz. left. by rewrite !heard_app, Ha, Hx, Hy, Hz. }
  intros g z Hz.
  eapply traces_bind; [apply traces_quiet, verifyEpoch_minor| |]. 2:{ intros e u Hu. left. by rewrite !heard_app, Ha, Hx, Hy, Hz, Hu. }
  intros ep u Hu.
  eapply traces_bind; [apply traces_quiet, verifyPromotion_minor| |].
  2:{ intros e v Hv. left. by rewrite !heard_app, Ha, Hx, Hy, Hz, Hu, Hv. }
  intros pr v Hv s.
  destruct (traces_writeProgress (c_readyFile cfg) idx
    (MkSt (s_world s) (s_log s ++ [EvTransition (MkTransition idx cycle kind previous current movement)])))
    as (w & Hw & Hheard).
  exists ([EvTransition (MkTransition idx cycle kind previous current movement)] ++ w).
  unfold note, mbind, prog_bind, mret, prog_ret. cbn [fst snd].
  destruct (writeProgress _ _ _) as [[[]|e] s1]; cbn [fst snd] in *; rewrite Hw; cbn [s_log]; rewrite <-app_assoc;
    (split; [done|]); right; exists current, movement; (split; [done|]);
    rewrite !heard_app, Ha, Hx, Hy, Hz, Hu, Hv, Hheard; naive_solver.
Qed.

(** Consecutive transitions, each accepted by its oracle: removals at the odd counts,
    rejoins at the even ones. *)
Fixpoint chain (baseline : Snapshot) (target : string) (previous : Snapshot) (idx : Z)
    (ts : list transitionReport) : Prop :=
  match ts with
  | [] => True
  | t :: ts =>
      tr_index t = idx ∧ tr_from t = previous ∧ tr_kind t = (if Z.odd idx then Removal else Rejoin) ∧
      judge (tr_kind t) previous baseline (tr_to t) target = Ok (tr_movement t) ∧
      chain baseline target (tr_to t) (idx + 1) ts
  end.

(** Every transition is recorded, and then its count is published. *)
Definition weave (ts : list transitionReport) : list (transitionReport + Z) :=
  ts ≫= (fun t => [inl t; inr (tr_index t)]).

Lemma cycle_loop_traces fuel cfg n baseline shards namespace k m p previous promotion :
  traces (fun r ext => ∃ ts, heard ext = weave ts ∧ chain baseline (c_target cfg) previous (2 * k - 1) ts ∧
      (is_ok r = true → length ts = (2 * m)%nat))
    (cycle_loop fuel cfg n baseline shards namespace (seqZ k (Z.of_nat m)) p previous promotion).
Proof using Type.
  revert k p previous promotion. induction m as [|m IH]; intros k p previous promotion.
  { intros s. exists []. rewrite app_nil_r. split; [done|]. by exists []. }
  rewrite seqZ_cons by lia. replace (Z.pred (Z.of_nat (S m))) with (Z.of_nat m) by lia. cbn [cycle_loop].
  assert (Z.odd (2 * k - 1) = true) as Hodd by (rewrite Z.odd_sub, Z.odd_mul; done).
  assert (Z.odd (2 * k) = false) as Heven by (rewrite Z.odd_mul; done).
  eapply traces_bind; [apply transition_traces| |].
  2:{ intros e ext [[Hx _]|(c & mv & Hj & Hx & _)].
      - exists []. rewrite Hx. done.
      - exists [MkTransition (2 * k - 1) k Removal previous c mv]. rewrite Hx. cbn [chain tr_index tr_kind tr_from tr_to tr_movement].
        rewrite Hodd. done. }
  intros [p1 removed] x [[_ ?]|(c1 & mv1 & Hj1 & Hx & Hc1)]; [done|]. rewrite (Hc1 _ _ eq_refl) in *. clear Hc1.
  eapply traces_bind; [apply transition_traces| |].
  2:{ intros e y [[Hy _]|(c2 & mv2 & Hj2 & Hy & _)].
      - exists [MkTransition (2 * k - 1) k Removal previous c1 mv1]. rewrite heard_app, Hx, Hy.
        cbn [chain tr_index tr_kind tr_from tr_to tr_movement]. rewrite Hodd. done.
      - exists [MkTransition (2 * k - 1) k Removal previous c1 mv1; MkTransition (2 * k) k Rejoin c1 c2 mv2].
        rewrite heard_app, Hx, Hy. cbn [chain tr_index tr_kind tr_from tr_to tr_movement].
        replace (2 * k - 1 + 1) with (2 * k) by lia. rewrite Hodd, Heven. done. }
  intros [p2 rejoined] y [[_ ?]|(c2 & mv2 & Hj2 & Hy & Hc2)]; [done|]. rewrite (Hc2 _ _ eq_refl) in *. clear Hc2.
  set (t1 := MkTransition (2 * k - 1) k Removal previous c1 mv1). set (t2 := MkTransition (2 * k) k Rejoin c1 c2 mv2).
  assert (∀ ts, chain baseline (c_target cfg) c2 (2 * (k + 1) - 1) ts →
                chain baseline (c_target cfg) previous (2 * k - 1) (t1 :: t2 :: ts)) as Hchain.
  { intros ts Hts. cbn [chain t1 t2 tr_index tr_kind tr_from tr_to tr_movement].
    replace (2 * k - 1 + 1) with (2 * k) by lia. replace (2 * k + 1) with (2 * (k + 1) - 1) by lia.
    rewrite Hodd, Heven. done. }
  eapply traces_bind; [apply traces_quiet; destruct (k <? c_cycles cfg); [apply seedPromotionKeys_minor|apply emits_ret]| |].
  2:{ intros e z Hz. exists [t1; t2]. rewrite !heard_app, Hx, Hy, Hz. split; [done|]. split; [by apply Hchain|done]. }
  intros promotion' z Hz. eapply traces_mono; [|apply (IH (Z.succ k))].
  intros r w (ts & Hw & Hts & Hlen). exists (t1 :: t2 :: ts). rewrite !heard_app, Hx, Hy, Hz, Hw. split; [done|].
  split; [apply Hchain; by replace (2 * (k + 1) - 1) with (2 * Z.succ k - 1) by lia|].
  intros Hr%Hlen. cbn [length]. lia.
Qed.

(** A run that announced nothing did not succeed; otherwise the count 0 opens a chain. *)
Definition announced (cfg : settings) (r : result chaos_error ()) (ext : list event) : Prop :=
  (heard ext = [] ∧ is_ok r = false) ∨
  ∃ baseline ts, validateBaseline baseline (c_target cfg) = Ok () ∧
    chain baseline (c_target cfg) baseline 1 ts ∧ heard ext = inr 0 :: weave ts ∧
    (is_ok r = true → runsDataNodeScenario cfg = true → Z.of_nat (length ts) = 2 * c_cycles cfg).

Lemma announced_app cfg r x y z :
  heard x = [] → heard z = [] → announced cfg r y → announced cfg r (x ++ y ++ z).
Proof using Type.
  unfold announced. rewrite !heard_app. intros -> ->. rewrite app_nil_r. cbn. done.
Qed.

(** A quiet prefix of a run: an early return announces nothing. *)
Lemma announced_bind {A} cfg (m : prog A) f :
  emits minor m → (∀ a, traces (announced cfg) (f a)) → traces (announced cfg) (m ≫= f).
Proof using Type.
  intros Hm Hf. eapply traces_bind; [by apply traces_quiet| |by left].
  intros a x Hx. eapply traces_mono; [|apply Hf]. intros r y Hy.
  rewrite <-(app_nil_r y). by apply announced_app.
Qed.

Lemma announced_fail cfg e : traces (announced cfg) (fail e).
Proof using Type. intros s. exists []. rewrite app_nil_r. split; [done|]. by left. Qed.

Lemma announced_defer cfg c m : emits minor c → traces (announced cfg) m → traces (announced cfg) (defer c m).
Proof using Type.
  intros Hc Hm s. destruct (Hm s) as (x & Hx & HQ). unfold defer. destruct (m s) as [r s1]. cbn in *.
  destruct (traces_quiet c Hc s1) as (y & Hy & Hq). destruct (c s1) as [r' s2]. cbn in *.
  exists (x ++ y). rewrite Hy, Hx, app_assoc. split; [done|]. by apply (announced_app _ _ []).
Qed.

Lemma announced_with_sdk cfg m : traces (announced cfg) m → traces (announced cfg) (with_sdk m).
Proof using Type.
  intros Hm s. destruct (Hm s) as (x & Hx & HQ). unfold with_sdk. destruct (m s) as [r s1]. cbn in *.
  destruct (w_closeSDK _) as [err w]. exists (x ++ [EvSDK false]). cbn [fst snd s_log]. rewrite Hx, app_assoc.
  split; [done|]. apply (announced_app _ _ [] x [EvSDK false]); [done|done|].
  unfold announced in *. destruct r as [[]|e], err as [e'|]; naive_solver.
Qed.

Lemma dialReplicas_minor l opened : emits minor (dialReplicas l opened).
Proof using Type. revert opened. induction l as [|a l IH]; intros opened; cbn [dialReplicas]; emit. Qed.

Lemma finish_minor cfg : emits minor (finish cfg).
Proof using Type. unfold finish. emit. Qed.

Lemma run_cluster_traces fuel cfg n p baseline stable :
  0 ≤ c_cycles cfg → validateBaseline baseline (c_target cfg) = Ok () →
  traces (announced cfg) (run_cluster fuel cfg n p baseline stable).
Proof using Type.
  intros Hcycles Hb. unfold run_cluster.
  apply announced_bind; [apply seedStableKeys_minor|]. intros _.
  apply announced_bind; [apply verifyEpoch_minor|]. intros _.
  apply announced_defer; [apply emits_ask|].
  apply announced_bind; [apply emits_ask|]. intros _.
  apply announced_bind; [apply seedPromotionKeys_minor|]. intros promotion.
  eapply traces_bind; [apply traces_writeProgress| |].
  2:{ intros e x Hx. right. exists baseline, []. split_and!; try done. }
  intros u1 x Hx.
  eapply traces_bind; [apply traces_quiet, emits_ask| |].
  2:{ intros e y Hy. right. exists baseline, []. rewrite heard_app, Hx, Hy. split_and!; done. }
  intros u2 y Hy.
  eapply (traces_bind (fun r ext => ∃ ts, heard ext = weave ts ∧ chain baseline (c_target cfg) baseline 1 ts ∧
    (is_ok r = true → runsDataNodeScenario cfg = true → Z.of_nat (length ts) = 2 * c_cycles cfg))).
  - destruct (runsDataNodeScenario cfg).
    + rewrite <-(Z2Nat.id (c_cycles cfg)) at 1 by done.
      eapply traces_mono; [|apply cycle_loop_traces]. intros r z (ts & Hz & Hts & Hlen). exists ts.
      split_and!; [done|done|]. intros Hr%Hlen _. lia.
    + intros s. exists []. rewrite app_nil_r. split; [done|]. by exists [].
  - intros u z (ts & Hz & Hts & Hlen). eapply traces_mono; [|apply traces_quiet, finish_minor].
    intros r w Hw. right. exists baseline, ts. rewrite !heard_app, Hx, Hy, Hz, Hw, app_nil_r. split_and!; try done.
    intros _. by apply Hlen.
  - intros e z (ts & Hz & Hts & _). right. exists baseline, ts. rewrite !heard_app, Hx, Hy, Hz. split_and!; done.
Qed.

Lemma run_traces fuel cfg : 0 ≤ c_cycles cfg → traces (announced cfg) (run fuel cfg).
Proof using Type.
  intros Hcycles. unfold run, prepareProgressFile.
  apply announced_bind; [apply emits_guard|]. intros _.
  apply announced_bind; [apply emits_guard|]. intros _.
  apply announced_bind; [emit|]. intros _. apply announced_bind; [emit|]. intros _.
  apply announced_bind; [apply dialReplicas_minor|]. intros _.
  apply announced_defer; [emit|].
  apply announced_bind; [apply fetch_attempts_minor|]. intros [p baseline].
  destruct (validateBaseline baseline (c_target cfg)) as [[]|e] eqn:Hb.
  2:{ exact (announced_fail cfg (BadBaseline e)). }
  apply announced_bind; [apply emits_ret|]. intros _.
  destruct (buildStableEntries _ _ _) as [stable|]; [|apply announced_fail].
  apply announced_bind; [apply emits_ask|]. intros [x|]; [apply announced_fail|].
  apply announced_bind; [emit|]. intros _. apply announced_with_sdk. by apply run_cluster_traces.
Qed.
End program.

(** ** Time *)

(** What the polling loop relies on: time does not go back during a fetch, and the
    pause ends with the timer, the deadline, the run's context or a load error. *)
Class WorldClock (W E : Type) `{!World W E} : Prop := {
  fetch_clock : ∀ i w, w_now w ≤ w_now (w_fetch i w).2;
  pause_clock : ∀ deadline d w,
    (w_pause deadline d w).1 = None →
    let w' := (w_pause deadline d w).2 in
    deadline ≤ w_now w' ∨ w_now w + d ≤ w_now w' ∨ is_Some (w_done w')
}.

Section time.
Context {W E : Type} `{!World W E, !WorldClock W E}.

Lemma fetch_attempts_clock n p l e (s : state) :
  w_now (s_world s) ≤ w_now (s_world (fetch_attempts n p l e s).2).
Proof using All.
  revert e s. induction l as [|a l IH]; intros e s; cbn [fetch_attempts]; [cbn; lia|].
  unfold mbind, prog_bind, ask. pose proof (fetch_clock ((p + a) mod n)%nat (s_world s)) as Hf.
  destruct (w_fetch _ _) as [[snap|x] w]; cbn in *; [done|].
  etransitivity; [exact Hf|]. exact (IH _ (MkSt w (s_log s))).
Qed.

Lemma ctx_err_deadline deadline (w : W) : deadline ≤ w_now w → is_Some (ctx_err (Some deadline) w).
Proof using Type.
  intros H. unfold ctx_err. destruct (w_done w); [done|]. by rewrite (proj2 (Z.leb_le _ _) H).
Qed.

Lemma poll_Ok deadline last (s : state) u s' :
  poll deadline last s = (Ok u, s') → s' = s ∧ ctx_err (Some deadline) (s_world s) = None.
Proof using Type.
  unfold poll. destruct (w_loadError _) as [[e w]|], (ctx_err _ _); try done; [by destruct (w_pick _)|].
  by intros [= _ <-].
Qed.

Lemma poll_not_running deadline last (s : state) : (poll deadline last s).1 ≠ Err StillRunning.
Proof using Type.
  unfold poll. destruct (w_loadError _) as [[e w]|], (ctx_err _ _); try done. by destruct (w_pick _).
Qed.

(** The loop has at most [k] more intervals before its deadline, or is past it. *)
Definition due (deadline d : Z) (k : nat) (w : W) : Prop :=
  is_Some (ctx_err (Some deadline) w) ∨ deadline - w_now w ≤ d * Z.of_nat k.

Lemma due_pause deadline d k (w : W) :
  0 < d → due deadline d (S k) w → ctx_err (Some deadline) w = None → ∀ w1, w_now w ≤ w_now w1 →
  (w_pause deadline d w1).1 = None → due deadline d k (w_pause deadline d w1).2.
Proof using All.
  intros Hd [[? Hx]|Hk] Hc w1 Hw1 Hp; [by rewrite Hc in Hx|].
  destruct (pause_clock deadline d w1 Hp) as [H|[H|[e H]]].
  - left. by apply ctx_err_deadline.
  - right. lia.
  - left. unfold ctx_err. by rewrite H.
Qed.

Lemma transition_loop_time deadline d n p previous baseline target kind last (s : state) k fuel :
  0 < d → due deadline d k (s_world s) → (k < fuel)%nat →
  (transition_loop fuel deadline d n p previous baseline target kind last s).1 ≠ Err StillRunning.
Proof using All.
  intros Hd. revert k p last s. induction fuel as [|fuel IH]; intros k p last s Hk Hfuel; [lia|].
  cbn [transition_loop]. unfold mbind at 1, prog_bind at 1.
  pose proof (poll_not_running deadline last s) as Hnr.
  destruct (poll deadline last s) as [[[]|e] s1] eqn:Hp; [|cbn in *; congruence].
  apply poll_Ok in Hp as [-> Hc]. destruct k as [|k].
  { exfalso. destruct Hk as [[? Hx]|Hk]; [by rewrite Hc in Hx|].
    destruct (ctx_err_deadline deadline (s_world s) ltac:(lia)) as [? Hx]. by rewrite Hc in Hx. }
  assert (∀ p last (s1 : state), w_now (s_world s) ≤ w_now (s_world s1) →
    ((paused ← ask (w_pause deadline d);
      match paused with
      | Some e => fail (LoadFailure e)
      | None => transition_loop fuel deadline d n p previous baseline target kind last
      end : prog _) s1).1 ≠ Err StillRunning) as Hagain.
  { intros p' last' s1 Hs1. unfold mbind, prog_bind, ask.
    pose proof (due_pause deadline d k (s_world s) Hd Hk Hc (s_world s1) Hs1) as Hdue.
    destruct (w_pause deadline d (s_world s1)) as [[e|] w]; cbn [fst snd] in *; [done|].
    apply (IH k); [by apply Hdue|lia]. }
  unfold mbind at 1, prog_bind at 1, try, fetch.
  pose proof (fetch_attempts_clock n p (seq 0 n) None s) as Hclock.
  destruct (fetch_attempts n p (seq 0 n) None s) as [[[p' current]|e] s1]; cbn [fst snd] in Hclock; [|by apply Hagain].
  destruct (sameTopology previous current).
  - destruct (Generation current =? Generation previous); [by apply Hagain|done].
  - by destruct (judge kind previous baseline current target).
Qed.
End time.

(** ** Properties *)

(** The progress count is evidence: on every outcome of every run, whatever the
    cluster, the clock and the other goroutines do, the counts published are 0, 1, 2,
    ... without a gap, each one only after its transition was recorded; the recorded
    transitions form a chain from an exact baseline in which every removal and rejoin
    was accepted by its oracle; and a run that succeeds published every count of
    [2 * cycles]. *)
Theorem progress_is_evidence {W E} `{!World W E} fuel cfg (w : W)
  (Hcycles : settings_validate cfg = None) :
  announced cfg (run fuel cfg (MkSt w [])).1 (s_log (run fuel cfg (MkSt w [])).2).
Proof.
  assert (0 ≤ c_cycles cfg) as Hc.
  { unfold settings_validate in Hcycles. destruct (blank _); [done|]. destruct (blank _); [done|].
    destruct (Z.leb_spec (c_cycles cfg) 0); [done|lia]. }
  destruct (run_traces fuel cfg Hc (MkSt w [])) as (ext & Hext & Ha). by rewrite Hext.
Qed.

(** C28: a published transition was proven: when one half of a cycle returns, its oracle
    accepted the observed topology, a fresh key of a target shard had been written
    through the SDK, read from its new owner's own address and not found on a node
    without a copy, and every promotion key had been read back byte for byte from the
    address of its shard's owner, which after a removal is the first replica of the
    placement before; all of this before the transition is recorded and counted. *)
Theorem transition_evidence {W E} `{!World W E} fuel cfg n baseline shards namespace kind cycle idx p
    previous promotion (s : state) p' current s'
  (Hrun : transition fuel cfg n baseline shards namespace kind cycle idx p previous promotion s =
            (Ok (p', current), s')) :
  ∃ movement pre,
    s_log s' = s_log s ++ pre ++ [EvTransition (MkTransition idx cycle kind previous current movement);
                                  EvProgress (c_readyFile cfg) idx None] ∧
    judge kind previous baseline current (c_target cfg) = Ok movement ∧ Forall minor pre ∧
    routed current baseline (c_target cfg)
      (nth (Z.to_nat ((idx - 1) `mod` Z.of_nat (length shards))) shards 0) pre ∧
    Forall (fun e => promoted previous current (proof_of kind) e pre) promotion.
Proof.
  destruct (transition_yields _ _ _ _ _ _ _ _ _ _ _ _ _ _ _ Hrun) as (ext & Hlog & mv & pre & -> & H). eauto.
Qed.

(** Waiting for a transition ends: with a positive polling interval and a clock that
    does not go back, [timeout / interval + 2] passes are enough for the loop to return
    an accepted topology or an error, whatever the replicas answer. *)
Theorem waitForTransition_terminates {W E} `{!World W E, !WorldClock W E} fuel cfg n p previous baseline kind
    (s : state)
  (Hpoll : 0 < c_pollInterval cfg)
  (Hfuel : (Z.to_nat (c_transitionTimeout cfg / c_pollInterval cfg) + 2 ≤ fuel)%nat) :
  (waitForTransition fuel cfg n p previous baseline kind s).1 ≠ Err StillRunning.
Proof.
  unfold waitForTransition, mbind, prog_bind, look.
  apply (transition_loop_time _ _ _ _ _ _ _ _ _ _ (Z.to_nat (c_transitionTimeout cfg / c_pollInterval cfg) + 1)); [done| |lia].
  right. pose proof (Z.mod_pos_bound (c_transitionTimeout cfg) _ Hpoll).
  pose proof (Z.div_mod (c_transitionTimeout cfg) (c_pollInterval cfg)). 
  destruct (Z.le_gt_cases 0 (c_transitionTimeout cfg / c_pollInterval cfg)); nia.
Qed.

(** ** A simulated cluster, for the witnesses *)

Module Sim.
Import ChaosDemo.

(** A clock, the topology published now, and the values by key; a node holds a key
    when the published topology makes it a holder of the key's shard. *)
Record sim := MkSim { clock : Z; fetches : nat; values : gmap bytes bytes }.
Definition topology (w : sim) : Snapshot :=
  match fetches w with O | S O => baseline | S (S O) => removed | _ => rejoined end.
Definition tick {A} (w : sim) (a : A) : A * sim := (a, MkSim (clock w + 1) (fetches w) (values w)).
Definition store {A} (key value : bytes) (w : sim) (a : A) : A * sim :=
  (a, MkSim (clock w + 1) (fetches w) (<[key := value]> (values w))).
Definition holds (w : sim) (address : string) (key : bytes) : bool :=
  let t := topology w in
  let sh := ShardForKey key (ShardCount t) in
  bool_decide (address ∈ (fun id => default "" (Nodes t !! id)) <$>
                 (owner_at (ShardMap t) sh :: Snapshot_Replicas t sh)).

#[global] Instance sim_world : World sim () := {
  w_now := clock;
  w_done _ := None;
  w_deadlineExceeded := ();
  w_pick _ := true;
  w_loadError _ := None;
  w_fetch _ w := let w' := MkSim (clock w + 1) (S (fetches w)) (values w) in (Ok (topology w'), w');
  w_sweep w := tick w (fun _ => Ok (topology w));
  w_put k v w := store k v w None;
  w_get k w := tick w (Ok (values w !! k));
  w_putWithAck k v acks w := store k v w (Ok acks);
  w_invalidArgument _ := true;
  w_nodeGet a k w := tick w (Ok (match values w !! k with
                                 | Some v => if holds w a k then (true, v) else (false, [])
                                 | None => (false, []) end));
  w_wait _ d w := (None, MkSim (clock w + d) (fetches w) (values w));
  w_pause _ d w := (None, MkSim (clock w + d) (fetches w) (values w));
  w_write _ _ w := tick w None;
  w_prepare _ w := tick w None;
  w_dial _ w := tick w None;
  w_newSDK w := tick w None;
  w_closeSDK w := tick w None;
  w_startLoad w := tick w ();
  w_startWatch w := tick w ();
  w_stopLoad w := tick w ();
  w_leaderDone w := tick w None;
  w_load _ := MkLoad 7 7 0 0 0;
  w_coherence _ := MkCoherence 3 9 0
}.

#[global] Instance sim_clock : WorldClock sim ().
Proof. split; cbn; [lia|]. intros deadline d w _. right. left. lia. Qed.

Definition cfg : settings :=
  MkSettings "127.0.0.1:7000" target 1 7 "run/ready" "run/report.json" 1000 10 50 20 4 2 1000
    scenarioDataNode "" 1000 100.
Definition start : sim := MkSim 0 0 ∅.

Lemma run_eq : (run 4 cfg (MkSt start [])).1 = Ok ().
Proof. vm_compute. reflexivity. Qed.

Definition entries_of (r : result skip_reason (list promotionEntry)) : list promotionEntry :=
  match r with Ok es => es | Err _ => [] end.
Definition promotion : list promotionEntry :=
  entries_of (buildPromotionEntries baseline (shardsOwnedBy baseline target) "ns" 2).
Definition half := transition (W := sim) (E := ()) 4 cfg 1 baseline (shardsOwnedBy baseline target) "ns" Removal 1 1 0
  baseline promotion.
Definition seeded : state (W := sim) (E := ()) := MkSt (MkSim 0 1 (list_to_map ((fun e => (pe_key e, pe_value e)) <$> promotion))) [].
Definition half_topology : Snapshot := match (half seeded).1 with Ok (_, s) => s | Err _ => baseline end.
Lemma half_eq : half seeded = (Ok (O, half_topology), (half seeded).2).
Proof. vm_compute. reflexivity. Qed.
End Sim.

Lemma progress_is_evidence_witness :
  (run (E := ()) 4 Sim.cfg (MkSt Sim.start [])).1 = Ok () ∧
  announced Sim.cfg (run (E := ()) 4 Sim.cfg (MkSt Sim.start [])).1 (s_log (run (E := ()) 4 Sim.cfg (MkSt Sim.start [])).2).
Proof. split; [exact Sim.run_eq|]. by apply progress_is_evidence. Defined.

Lemma transition_evidence_witness :
  ∃ movement, judge Removal ChaosDemo.baseline ChaosDemo.baseline Sim.half_topology ChaosDemo.target = Ok movement.
Proof.
  destruct (transition_evidence (W := Sim.sim) (E := ()) 4 Sim.cfg 1 ChaosDemo.baseline
    (shardsOwnedBy ChaosDemo.baseline ChaosDemo.target) "ns" Removal 1 1 0 ChaosDemo.baseline Sim.promotion Sim.seeded
    O Sim.half_topology _ Sim.half_eq) as (mv & _ & _ & Hj & _). exists mv. exact Hj.
Defined.

Lemma waitForTransition_terminates_witness :
  (waitForTransition (E := ()) 102 Sim.cfg 1 0 ChaosDemo.baseline ChaosDemo.baseline Rejoin (MkSt Sim.start [])).1 ≠ Err StillRunning.
Proof. apply waitForTransition_terminates; [cbn; lia|]. vm_compute. lia. Defined.
