(* ===== verification/ChaosLeader.v ===== *)
(** * The chaos verifier's control-plane run

    The goroutines of cmd/pulsekv-chaos/main.go that run beside the data-node half:
    [runLeaderScenario], which watches the group lose its leader, elect another one
    and take the old one back; [watchReplicaCoherence], which compares the replicas
    for the whole run; and the readers of [startStableLoad], whose atomic counters the
    verdict of the run rests on.

    The first two are programs of [ChaosRun]'s monad: a sweep over the replicas is one
    effect of the world.  The three polling loops of the scenario share their body
    ([await_loop]) and differ in what a sweep is judged by.  The readers interleave, so
    they are a step relation on the shared counters and the buffered error channel. *)

From S2P Require Import Prelude Router Topology GoStd Json Client ChaosOracle ChaosCoherence ChaosRun.
Local Open Scope Z_scope.

Section leader.
Context {W E : Type} `{!World W E}.
Abbreviation observation := (replicaObservation (fetch_error E)).
Abbreviation prog := (ChaosRun.prog (W := W) (E := E)).
Abbreviation chaos_error := (ChaosRun.chaos_error (E := E)).

(** [observeReplicas]: [out[i]] is the answer of the [i]-th replica. *)
Definition observeReplicas (addresses : list string) : prog (list observation) :=
  ask_log (fun w => let '(answer, w) := w_sweep w in
                    (imap (fun i address => MkObs address (answer i)) addresses, w)) EvSweep.

Definition coherent (observations : list observation) : prog () :=
  match checkReplicaCoherence observations with
  | Ok _ => mret ()
  | Err e => fail (Incoherent e)
  end.

(** The loop of [awaitLeaderConsensus], [awaitFailover] and [awaitAllReplicas]: [step]
    is told when the sweep began and what it saw, and [late] is the error of a sweep
    that ended after the deadline. *)
Fixpoint await_loop {A St} (fuel : nat) (step : St → Z → list observation → St * option A)
    (late : list observation → chaos_error) (deadline interval : Z) (addresses : list string) (st : St) : prog A :=
  match fuel with
  | O => fail StillRunning
  | S fuel =>
      _ ← take_load_error true;
      sweepAt ← look w_now;
      observations ← observeReplicas addresses;
      _ ← coherent observations;
      let '(st, r) := step st sweepAt observations in
      match r with
      | Some a => mret a
      | None =>
          now ← look w_now;
          if deadline <? now then fail (late observations) else
          err ← waitInterval None interval;
          match err with
          | Some x => fail (ContextDone x)
          | None => await_loop fuel step late deadline interval addresses st
          end
      end
  end.

Definition await {A St} (fuel : nat) (cfg : settings) (addresses : list string)
    (step : St → Z → list observation → St * option A) (late : list observation → chaos_error) (st : St) : prog A :=
  now ← look w_now;
  await_loop fuel step late (now + c_leaderTimeout cfg) (c_pollInterval cfg) addresses st.

(** The error of a wait for at least [min] replicas to leave [changedFrom]. *)
Definition no_agreement (changedFrom : string) (min : nat) (observations : list observation) : chaos_error :=
  let last := summarizeLeader observations in
  if bool_decide (lc_reason last = None) && bool_decide (lc_leader last = changedFrom)
  then LeaderUnchanged min (lc_reachable last) (lc_leader last)
  else NoAgreement min (lc_reachable last) (lc_reason last).

Definition consensus_step (changedFrom : string) (minReplicas : nat) (_ : ()) (_ : Z)
    (observations : list observation) : () * option leaderConsensus :=
  let last := summarizeLeader observations in
  ((), if lc_agreed last && bool_decide (minReplicas ≤ lc_reachable last)%nat &&
          bool_decide (lc_leader last ≠ changedFrom)
       then Some last else None).

Definition awaitLeaderConsensus (fuel : nat) (cfg : settings) (addresses : list string)
    (changedFrom : string) (minReplicas : nat) : prog leaderConsensus :=
  await fuel cfg addresses (consensus_step changedFrom minReplicas) (no_agreement changedFrom minReplicas) ().

(** The loop state is [disruptedAt] (the zero time is [None]) and [sweeps]. *)
Definition failover_step (baseline : leaderConsensus) (survivors : nat) (st : option Z * nat) (sweepAt : Z)
    (observations : list observation) : (option Z * nat) * option (leaderConsensus * Z) :=
  let '(disruptedAt, sweeps) := st in
  let sweeps := S sweeps in
  let last := summarizeLeader observations in
  let unreachable := length (filter (fun o => reachable o = false) observations) in
  let '(disruptedAt, sweeps) :=
    match disruptedAt with
    | Some t => (Some t, sweeps)
    | None =>
        if bool_decide (0 < unreachable)%nat || negb (lc_agreed last) ||
           bool_decide (lc_leader last ≠ lc_leader baseline)
        then (Some sweepAt, 1%nat) else (None, sweeps)
    end in
  ((disruptedAt, sweeps),
   match disruptedAt with
   | Some t =>
       if lc_agreed last && bool_decide (survivors ≤ lc_reachable last)%nat &&
          bool_decide (lc_leader last ≠ lc_leader baseline)
       then Some (MkConsensus (lc_leader last) (lc_term last) (lc_reachable last) (lc_agreed last)
                    (lc_reason last) sweeps, t)
       else None
   | None => None
   end).

(** [len(replicas) - 1] is taken of a group of at least three. *)
Definition awaitFailover (fuel : nat) (cfg : settings) (addresses : list string) (baseline : leaderConsensus)
    : prog (leaderConsensus * Z) :=
  let survivors := pred (length addresses) in
  await fuel cfg addresses (failover_step baseline survivors) (no_agreement (lc_leader baseline) survivors) (None, O).

Definition all_step (_ : ()) (_ : Z) (observations : list observation) : () * option (list observation) :=
  ((), if forallb reachable observations && lc_agreed (summarizeLeader observations)
       then Some observations else None).
Definition still_missing (observations : list observation) : chaos_error :=
  StillMissing (ob_address <$> filter (fun o => reachable o = false) observations).

Definition awaitAllReplicas (fuel : nat) (cfg : settings) (addresses : list string) : prog (list observation) :=
  await fuel cfg addresses all_step still_missing ().

(** The durations of the report are left out. *)
Record leaderScenarioReport := MkLeaderReport {
  ReplicasObserved : nat;
  BaselineLeader : string; BaselineTerm : Z;
  NewLeader : string; NewTerm : Z; FailoverSweeps : nat;
  RejoinLeader : string; RejoinTerm : Z;
  RejoinGeneration : Z; RejoinFingerprint : string; RejoinNodes : nat
}.

Definition runLeaderScenario (fuel : nat) (cfg : settings) (addresses : list string) : prog leaderScenarioReport :=
  baseline ← awaitLeaderConsensus fuel cfg addresses "" (length addresses);
  _ ← writeProgress (c_leaderReadyFile cfg) 0;
  '(elected, _) ← awaitFailover fuel cfg addresses baseline;
  _ ← guard_p (negb (lc_term elected <=? lc_term baseline))
        (TermDidNotAdvance (lc_leader elected) (lc_term elected) (lc_term baseline));
  _ ← writeProgress (c_leaderReadyFile cfg) 1;
  rejoined ← awaitAllReplicas fuel cfg addresses;
  let final := summarizeLeader rejoined in
  _ ← guard_p (lc_agreed final) (DisagreeAfterRejoin (lc_reason final));
  _ ← guard_p (negb (bool_decide (lc_leader final = lc_leader baseline))) (TookLeadershipBack (lc_leader baseline));
  _ ← guard_p (negb (lc_term final <? lc_term elected)) (TermWentBack (lc_term final) (lc_term elected));
  match assertGroupConvergedOnOneState rejoined with
  | Err e => fail (NotOneState e)
  | Ok (generation, fingerprint, nodes) =>
      _ ← writeProgress (c_leaderReadyFile cfg) 2;
      mret (MkLeaderReport (lc_reachable baseline) (lc_leader baseline) (lc_term baseline)
              (lc_leader elected) (lc_term elected) (lc_sweeps elected)
              (lc_leader final) (lc_term final) generation fingerprint nodes)
  end.

(** [watchReplicaCoherence]: its context is [loadCtx]; the counters at the return, and
    the error handed to [reportFirst], if any. *)
Fixpoint watch_loop (fuel : nat) (interval : Z) (addresses : list string) (c : coherenceReport)
    : prog (coherenceReport * option coherence_error) :=
  match fuel with
  | O => fail StillRunning
  | S fuel =>
      stopped ← look w_done;
      match stopped with
      | Some _ => mret (c, None)
      | None =>
          observations ← observeReplicas addresses;
          stopped ← look w_done;
          match stopped with
          | Some _ => mret (c, None)
          | None =>
              let reads := length (filter (fun o => reachable o = true) observations) in
              let c := MkCoherence (u64 (Sweeps c + 1)) (u64 (ReachableReads c + Z.of_nat reads)) (Violations c) in
              match checkReplicaCoherence observations with
              | Err e => mret (MkCoherence (Sweeps c) (ReachableReads c) (u64 (Violations c + 1)), Some e)
              | Ok _ =>
                  err ← waitInterval None interval;
                  match err with
                  | Some _ => mret (c, None)
                  | None => watch_loop fuel interval addresses c
                  end
              end
          end
      end
  end.
Definition watchReplicaCoherence (fuel : nat) (cfg : settings) (addresses : list string)
    : prog (coherenceReport * option coherence_error) :=
  watch_loop fuel (c_pollInterval cfg) addresses (MkCoherence 0 0 0).

(** ** What a scenario that succeeds has seen *)

(** A sweep over all replicas that passed the coherence check. *)
Definition swept (addresses : list string) (ev : event (E := E)) : Prop :=
  ∃ observations, ev = EvSweep observations ∧ ob_address <$> observations = addresses ∧
                  checkReplicaCoherence observations = Ok ().

Definition awaited {A St} (addresses : list string) (step : St → Z → list observation → St * option A)
    (a : A) (ext : list (event (E := E))) : Prop :=
  ∃ pre observations st t,
    ext = pre ++ [EvSweep observations] ∧ Forall (swept addresses) (pre ++ [EvSweep observations]) ∧
    (step st t observations).2 = Some a ∧ length observations = length addresses.

Lemma observe_yields addresses :
  yields (fun obs ext => ext = [EvSweep obs] ∧ ob_address <$> obs = addresses) (observeReplicas addresses).
Proof using Type.
  intros s obs s'. unfold observeReplicas, ask_log. destruct (w_sweep _) as [f w]. intros [= <- <-]. cbn.
  eexists. split; [done|]. split; [done|]. clear s.
  assert (∀ (f : nat → result (fetch_error E) Snapshot),
            ob_address <$> imap (fun i a => MkObs a (f i)) addresses = addresses) as H; [|apply H].
  induction addresses as [|a l IH]; intros g; cbn; [done|]. f_equal. apply (IH (g ∘ S)).
Qed.

Lemma coherent_yields observations :
  yields (fun _ ext => ext = [] ∧ checkReplicaCoherence observations = Ok ()) (coherent observations).
Proof using Type.
  unfold coherent. destruct (checkReplicaCoherence observations) as [[]|e]; [by apply yields_ret|apply yields_fail].
Qed.

Lemma take_load_error_yields b : yields (fun _ ext => ext = []) (take_load_error b).
Proof using Type.
  intros s a s'. unfold take_load_error. destruct b; [destruct (w_loadError _) as [[e w]|]; [done|]|];
  intros [= <- <-]; exists []; by rewrite app_nil_r.
Qed.

Lemma await_loop_yields {A St} fuel step (late : list observation → chaos_error) d i addresses (st : St) :
  yields (awaited addresses step) (await_loop (A := A) fuel step late d i addresses st).
Proof using Type.
  revert st. induction fuel as [|fuel IH]; intros st; cbn [await_loop]; [apply yields_fail|].
  eapply yields_bind; [apply take_load_error_yields|]. intros _ ? ->.
  eapply yields_bind; [by apply (yields_look (fun _ ext => ext = []))|]. intros t ? ->.
  eapply yields_bind; [apply observe_yields|]. intros obs ? [-> Hobs].
  eapply yields_bind; [apply coherent_yields|]. intros _ ? [-> Hc]. cbn [app].
  assert (swept addresses (EvSweep obs)) as Hs by (by exists obs).
  assert (length obs = length addresses) as Hlen by (rewrite <-Hobs; by rewrite length_fmap).
  destruct (step st t obs) as [st' [a|]] eqn:Hstep.
  - apply yields_ret. exists [], obs, st, t. rewrite Hstep. by split_and!; [|apply Forall_singleton| |].
  - eapply yields_bind; [by apply (yields_look (fun _ ext => ext = []))|]. intros now ? ->.
    destruct (d <? now); [apply yields_fail|].
    eapply yields_bind; [by apply (yields_ask (fun _ ext => ext = []))|]. intros [x|] ? ->; [apply yields_fail|].
    eapply yields_mono; [|apply IH]. intros a ext (pre & o & st1 & t1 & -> & HF & H1 & H2).
    exists (EvSweep obs :: pre), o, st1, t1. split_and!; [done| |done|done]. by constructor.
Qed.

Lemma await_yields {A St} fuel cfg addresses step (late : list observation → chaos_error) (st : St) :
  yields (awaited addresses step) (await (A := A) fuel cfg addresses step late st).
Proof using Type.
  unfold await. eapply yields_bind; [by apply (yields_look (fun _ ext => ext = []))|]. intros now ? ->.
  apply await_loop_yields.
Qed.

Definition agree (leader : string) (term : Z) (n : nat) (observations : list observation) : Prop :=
  uniform leader term (answers observations) ∧ (n ≤ length (answers observations))%nat.

Lemma summarize_agree observations n :
  lc_agreed (summarizeLeader observations) = true → (n ≤ lc_reachable (summarizeLeader observations))%nat →
  agree (lc_leader (summarizeLeader observations)) (lc_term (summarizeLeader observations)) n observations.
Proof using Type.
  destruct (summarize_spec observations) as (Hr & _ & Hu & _). intros Ha Hn. split; [by apply Hu|]. by rewrite <-Hr.
Qed.

Lemma consensus_step_Some from n st t obs r :
  (consensus_step from n st t obs).2 = Some r →
  r = summarizeLeader obs ∧ agree (lc_leader r) (lc_term r) n obs ∧ lc_leader r ≠ from.
Proof using Type.
  unfold consensus_step. cbn [snd]. destruct (_ && _ && _) eqn:Hb; [|done]. intros [= <-].
  rewrite !andb_true_iff, !bool_decide_eq_true in Hb. destruct Hb as [[Ha Hn] Hl].
  split; [done|]. split; [|done]. by apply summarize_agree.
Qed.

Lemma failover_step_Some base n st t obs r t' :
  (failover_step base n st t obs).2 = Some (r, t') →
  agree (lc_leader r) (lc_term r) n obs ∧ lc_leader r ≠ lc_leader base.
Proof using Type.
  destruct st as [dis sw]. unfold failover_step.
  destruct (match dis with Some _ => _ | None => _ end) as [[d|] k]; cbn [snd]; [|done].
  destruct (_ && _ && _) eqn:Hb; [|done]. intros [= <- <-]. cbn.
  rewrite !andb_true_iff, !bool_decide_eq_true in Hb. destruct Hb as [[Ha Hn] Hl].
  split; [|done]. by apply summarize_agree.
Qed.

Lemma answers_le (obs : list observation) : (length (answers obs) ≤ length obs)%nat.
Proof using Type.
  unfold answers. induction obs as [|o obs IH]; cbn; [lia|]. destruct (ob_fetch o); cbn; lia.
Qed.

Lemma answers_reachable (obs : list observation) :
  forallb reachable obs = true → length (answers obs) = length obs.
Proof using Type.
  unfold answers, reachable. induction obs as [|o obs IH]; cbn; [done|].
  rewrite andb_true_iff. intros [Ho H]. destruct (ob_fetch o); [|done]. cbn. f_equal. auto.
Qed.

Definition one_state (g : Z) (fp : string) (n : nat) (ss : list Snapshot) : Prop :=
  ss ≠ [] ∧ Forall (fun s => Generation s = g ∧ EncodeToString (SnapFingerprint s) = fp) ss ∧
  ∃ s, head ss = Some s ∧ size (Nodes s) = n.

Lemma reach_loop_Ok (obs : list observation) acc acc' :
  foldM (fun acc o => match ob_fetch o with
                      | Err _ => Err (WasUnreachable (E := fetch_error E) (ob_address o))
                      | Ok s => Ok (acc ++ [(ob_address o, s)])
                      end) acc obs = Ok acc' →
  acc'.*2 = acc.*2 ++ answers obs.
Proof using Type.
  revert acc. induction obs as [|o obs IH]; intros acc; cbn [foldM]; [intros [= <-]; by rewrite app_nil_r|].
  unfold answers in *. cbn. destruct (ob_fetch o) as [s|e]; cbn; [|done]. intros ->%IH.
  rewrite fmap_app, <-app_assoc. done.
Qed.

Lemma converged_Ok (obs : list observation) g fp n :
  assertGroupConvergedOnOneState obs = Ok (g, fp, n) → one_state g fp n (answers obs).
Proof using Type.
  unfold assertGroupConvergedOnOneState. intros (reached & Hr & H)%result_bind_Ok.
  apply reach_loop_Ok in Hr. cbn in Hr. rewrite <-Hr. destruct reached as [|[a base] rest]; [done|].
  apply result_bind_Ok in H as ([] & Hrest & [= <- <- <-]). unfold one_state. cbn.
  split; [done|]. split; [|by eexists]. constructor; [done|]. clear Hr.
  induction rest as [|[b s] rest IH]; [constructor|]. cbn [foldM fmap list_fmap] in *.
  apply result_bind_Ok in Hrest as ([] & H1 & H2). constructor; [|by apply IH].
  destruct (Z.eqb_spec (Generation s) (Generation base)); [|done]. cbn in H1.
  case_bool_decide as Hfp; [done|]. split; [done|]. by destruct (decide (EncodeToString (SnapFingerprint s) = EncodeToString (SnapFingerprint base))).
Qed.
End leader.

(** What the log of a successful scenario holds: between the three progress counts only
    coherent sweeps over the whole group, each count published right after the sweep
    that proves it. *)
Record scenario_evidence {E} (path : string) (addresses : list string) (r : leaderScenarioReport)
    (ext : list (event (E := E))) : Prop := MkScenario {
  sc_log : ∃ pre0 obs0 pre1 obs1 pre2 obs2,
    ext = pre0 ++ [EvSweep obs0; EvProgress path 0 None] ++
          pre1 ++ [EvSweep obs1; EvProgress path 1 None] ++
          pre2 ++ [EvSweep obs2; EvProgress path 2 None] ∧
    Forall (swept addresses) (pre0 ++ [EvSweep obs0] ++ pre1 ++ [EvSweep obs1] ++ pre2 ++ [EvSweep obs2]) ∧
    agree (BaselineLeader r) (BaselineTerm r) (length addresses) obs0 ∧
    agree (NewLeader r) (NewTerm r) (pred (length addresses)) obs1 ∧
    agree (RejoinLeader r) (RejoinTerm r) (length addresses) obs2 ∧
    one_state (RejoinGeneration r) (RejoinFingerprint r) (RejoinNodes r) (answers obs2);
  sc_count : ReplicasObserved r = length addresses;
  sc_leaders : NewLeader r ≠ BaselineLeader r ∧ RejoinLeader r ≠ BaselineLeader r;
  sc_terms : BaselineTerm r < NewTerm r ≤ RejoinTerm r
}.

Lemma guard_yields {W E} b e :
  yields (fun (_ : ()) ext => ext = [] ∧ b = true) (guard_p (W := W) (E := E) b e).
Proof. apply yields_guard. done. Qed.

Lemma runLeaderScenario_yields {W E} `{!World W E} fuel cfg addresses :
  yields (scenario_evidence (c_leaderReadyFile cfg) addresses) (runLeaderScenario (W := W) (E := E) fuel cfg addresses).
Proof.
  unfold runLeaderScenario.
  eapply yields_bind; [apply await_yields|]. intros base ? (pre0 & obs0 & st0 & t0 & -> & HF0 & H0 & Hl0).
  apply consensus_step_Some in H0 as (Hbase & Hagree0 & _).
  eapply yields_bind; [apply writeProgress_yields|]. intros _ ? ->.
  eapply yields_bind; [apply await_yields|]. intros [elected t'] ? (pre1 & obs1 & st1 & t1 & -> & HF1 & H1 & Hl1).
  apply failover_step_Some in H1 as (Hagree1 & Hne1).
  eapply yields_bind; [apply guard_yields|]. intros _ ? [-> Hterm].
  eapply yields_bind; [apply writeProgress_yields|]. intros _ ? ->.
  eapply yields_bind; [apply await_yields|]. intros rejoined ? (pre2 & obs2 & st2 & t2 & -> & HF2 & H2 & Hl2).
  unfold all_step in H2. cbn [snd] in H2. destruct (forallb _ _ && _) eqn:Hall; [|done]. injection H2 as ->.
  apply andb_true_iff in Hall as [Hall Hag].
  eapply yields_bind; [apply guard_yields|]. intros _ ? [-> _].
  eapply yields_bind; [apply guard_yields|]. intros _ ? [-> Hlead].
  eapply yields_bind; [apply guard_yields|]. intros _ ? [-> Hback].
  destruct (assertGroupConvergedOnOneState rejoined) as [[[g fp] n]|] eqn:Hone; [|apply yields_fail].
  eapply yields_bind; [apply writeProgress_yields|]. intros _ ? ->. apply yields_ret.
  apply negb_true_iff in Hterm, Hback, Hlead. apply Z.leb_gt in Hterm. apply Z.ltb_ge in Hback.
  apply bool_decide_eq_false in Hlead. apply converged_Ok in Hone. apply answers_reachable in Hall.
  assert (lc_reachable base = length addresses) as Hreach.
  { destruct (summarize_spec obs0) as [Hr _]. pose proof (answers_le obs0). destruct Hagree0 as [_ Hn].
    rewrite Hbase. lia. }
  split; cbn; try done.
  exists pre0, obs0, pre1, obs1, pre2, rejoined. split.
  { by rewrite <-!app_assoc. }
  split; [repeat first [rewrite Forall_app | rewrite Forall_cons]; rewrite !Forall_app, !Forall_singleton in HF0, HF1, HF2; rewrite ?Forall_nil; tauto|].
  split; [done|]. split; [done|]. split; [|done].
  apply summarize_agree; [done|]. destruct (summarize_spec rejoined) as [-> _]. lia.
Qed.

(** ** Time *)

(** A sweep takes no negative time, and a pause that no context cut short lasts. *)
Class SweepClock (W E : Type) `{!World W E} : Prop := {
  sweep_clock : ∀ w : W, w_now w ≤ w_now (w_sweep w).2;
  wait_clock : ∀ d (w : W), (w_wait None d w).1 = None → w_now w + d ≤ w_now (w_wait None d w).2
}.

Lemma await_loop_time {W E} `{!World W E, !SweepClock W E} {A St} (step : St → Z → _ → St * option A) late
    deadline d addresses (st : St) (s : state) k fuel :
  0 < d → deadline - w_now (s_world s) < d * Z.of_nat k → (k < fuel)%nat → (∀ o, late o ≠ StillRunning) →
  (await_loop (W := W) (E := E) fuel step late deadline d addresses st s).1 ≠ Err StillRunning.
Proof.
  intros Hd. revert k st s. induction fuel as [|fuel IH]; intros k st s Hk Hfuel Hlate; [lia|].
  cbn [await_loop]. unfold mbind, prog_bind, take_load_error. destruct (w_loadError _) as [[e w]|]; [done|].
  cbn [look]. unfold look, observeReplicas, ask_log. pose proof (sweep_clock (s_world s)) as Hclock.
  destruct (w_sweep (s_world s)) as [f w]. cbn [snd] in Hclock. cbn -[imap].
  unfold coherent. destruct (checkReplicaCoherence _) as [[]|e]; [|done]. cbn -[imap].
  destruct (step _ _ _) as [st' [a|]]; [done|]. unfold look. cbn -[imap].
  destruct (Z.ltb_spec deadline (w_now w)); [cbn; intros [= Heq]; by eapply Hlate|].
  unfold waitInterval, ask. cbn -[imap]. pose proof (wait_clock d w) as Hwait.
  destruct (w_wait None d w) as [[x|] w']; [done|]. cbn in Hwait. specialize (Hwait eq_refl).
  destruct k as [|k]; [lia|]. apply (IH k); [cbn; lia|lia|done].
Qed.

Lemma await_time {W E} `{!World W E, !SweepClock W E} {A St} (step : St → Z → _ → St * option A) late
    cfg addresses (st : St) (s : state) fuel :
  0 < c_pollInterval cfg → (Z.to_nat (c_leaderTimeout cfg / c_pollInterval cfg) + 2 ≤ fuel)%nat →
  (∀ o, late o ≠ StillRunning) →
  (await (W := W) (E := E) fuel cfg addresses step late st s).1 ≠ Err StillRunning.
Proof.
  intros Hd Hfuel Hlate. unfold await, mbind, prog_bind, look.
  apply (await_loop_time _ _ _ _ _ _ _ (Z.to_nat (c_leaderTimeout cfg / c_pollInterval cfg) + 1)); [done| |lia|done].
  pose proof (Z.mod_pos_bound (c_leaderTimeout cfg) _ Hd).
  pose proof (Z.div_mod (c_leaderTimeout cfg) (c_pollInterval cfg)).
  destruct (Z.le_gt_cases 0 (c_leaderTimeout cfg / c_pollInterval cfg)); nia.
Qed.

Lemma no_agreement_ne {E} from n (o : list (replicaObservation (fetch_error E))) : no_agreement from n o ≠ StillRunning.
Proof. unfold no_agreement. by case_match. Qed.

(** A program that never runs out of fuel. *)
Definition ends {W E A} (m : prog (W := W) (E := E) A) : Prop := ∀ s, (m s).1 ≠ Err StillRunning.

Lemma ends_bind {W E A B} (m : prog (W := W) (E := E) A) (f : A → prog B) :
  ends m → (∀ a, ends (f a)) → ends (m ≫= f).
Proof.
  intros Hm Hf s. unfold mbind, prog_bind. specialize (Hm s). destruct (m s) as [[a|e] s']; [apply Hf|cbn in *; congruence].
Qed.

Lemma ends_guard {W E} b e : e ≠ StillRunning → ends (guard_p (W := W) (E := E) b e).
Proof. intros He s. destruct b; cbn; [done|congruence]. Qed.

Lemma ends_writeProgress {W E} `{!World W E} path n : ends (writeProgress (W := W) (E := E) path n).
Proof.
  apply ends_bind; [intros s; unfold ask_log; by destruct (w_write _ _ _)|]. by intros [e|] s.
Qed.

Lemma runLeaderScenario_ends {W E} `{!World W E, !SweepClock W E} fuel cfg addresses :
  0 < c_pollInterval cfg → (Z.to_nat (c_leaderTimeout cfg / c_pollInterval cfg) + 2 ≤ fuel)%nat →
  ends (runLeaderScenario (W := W) (E := E) fuel cfg addresses).
Proof.
  intros Hd Hfuel. unfold runLeaderScenario.
  apply ends_bind; [intros s; apply await_time; try done; apply no_agreement_ne|]. intros base.
  apply ends_bind; [apply ends_writeProgress|]. intros _.
  apply ends_bind; [intros s; apply await_time; try done; apply no_agreement_ne|]. intros [elected t].
  apply ends_bind; [by apply ends_guard|]. intros _.
  apply ends_bind; [apply ends_writeProgress|]. intros _.
  apply ends_bind; [intros s; by apply await_time|]. intros rejoined.
  do 3 (apply ends_bind; [by apply ends_guard|]; intros _).
  destruct (assertGroupConvergedOnOneState rejoined) as [[[g fp] n]|e]; [|by intros s].
  apply ends_bind; [apply ends_writeProgress|by intros _ s].
Qed.

(** ** The coherence watcher *)

(** The sweeps of a log, and how many replicas answered in them. *)
Definition sweeps_of {E} (log : list (event (E := E))) : list (list (replicaObservation (fetch_error E))) :=
  omap (fun ev => match ev with EvSweep o => Some o | _ => None end) log.
Definition reads_of {E} (sweeps : list (list (replicaObservation (fetch_error E)))) : Z :=
  Z.of_nat (length (answers (concat sweeps))).

(** The counters count the sweeps that ended before the context did ([counted]); the
    last of them failed the check exactly when a violation is counted. *)
Definition watched {E} (c : coherenceReport) (r : coherenceReport * option coherence_error)
    (ext : list (event (E := E))) : Prop :=
  ∃ counted cut, sweeps_of ext = counted ++ cut ∧ (length cut ≤ 1)%nat ∧
    Sweeps r.1 = u64 (Sweeps c + Z.of_nat (length counted)) ∧
    ReachableReads r.1 = u64 (ReachableReads c + reads_of counted) ∧
    match r.2 with
    | None => Violations r.1 = Violations c ∧ Forall (fun o => checkReplicaCoherence o = Ok ()) counted
    | Some e => Violations r.1 = u64 (Violations c + 1) ∧
                ∃ good o, counted = good ++ [o] ∧ checkReplicaCoherence o = Err e ∧
                          Forall (fun o => checkReplicaCoherence o = Ok ()) good
    end.

Lemma length_answers {E} (obs : list (replicaObservation E)) :
  length (answers obs) = length (filter (fun o => reachable o = true) obs).
Proof.
  unfold answers, reachable. induction obs as [|o obs IH]; [done|]. rewrite filter_cons. cbn [omap list_omap].
  destruct (ob_fetch o); cbn [is_ok]; [rewrite decide_True by done; cbn; by f_equal|by rewrite decide_False by done].
Qed.

Lemma reads_cons {E} (o : list (replicaObservation (fetch_error E))) l :
  reads_of (o :: l) = Z.of_nat (length (filter (fun o => reachable o = true) o)) + reads_of l.
Proof. unfold reads_of, answers. cbn. rewrite omap_app, length_app. fold (answers o). rewrite length_answers. lia. Qed.

Lemma u64_add_u64_l a b : u64 (u64 a + b) = u64 (a + b).
Proof. unfold u64. by rewrite Zplus_mod_idemp_l. Qed.

Lemma watched_stop {E} (c : coherenceReport) (ext : list (event (E := E))) :
  in_u64 (Sweeps c) → in_u64 (ReachableReads c) → (length (sweeps_of ext) ≤ 1)%nat → watched c (c, None) ext.
Proof.
  intros H1 H2 Hext. exists [], (sweeps_of ext). split; [done|]. split; [done|]. cbn.
  by rewrite !Z.add_0_r, !u64_id.
Qed.

Lemma watch_loop_yields {W E} `{!World W E} fuel interval addresses c :
  in_u64 (Sweeps c) → in_u64 (ReachableReads c) →
  yields (watched c) (watch_loop (W := W) (E := E) fuel interval addresses c).
Proof.
  revert c. induction fuel as [|fuel IH]; intros c H1 H2; cbn [watch_loop]; [apply yields_fail|].
  eapply yields_bind; [by apply (yields_look (fun _ ext => ext = []))|].
  intros [x|] ? ->; [apply yields_ret, watched_stop; [done..|cbn; lia]|].
  eapply yields_bind; [apply observe_yields|]. intros obs ? [-> _].
  eapply yields_bind; [by apply (yields_look (fun _ ext => ext = []))|].
  intros [x|] ? ->; [apply yields_ret, watched_stop; [done..|cbn; lia]|]. cbn [app].
  destruct (checkReplicaCoherence obs) as [[]|e] eqn:Hc.
  - eapply yields_bind; [by apply (yields_ask (fun _ ext => ext = []))|]. intros err ? ->. cbn [app].
    assert (∀ c', Sweeps c' = u64 (Sweeps c + 1) → Violations c' = Violations c →
              ReachableReads c' = u64 (ReachableReads c + Z.of_nat (length (filter (fun o => reachable o = true) obs))) →
              ∀ r ext, watched c' r ext → watched c r (EvSweep obs :: ext)) as Hmore.
    { intros c' E1 E3 E2 r ext (counted & cut & Hs & Hcut & Hn & Hr & Hv). rewrite E1, E2, E3, u64_add_u64_l in *.
      exists (obs :: counted), cut. split; [change (sweeps_of (EvSweep obs :: ext)) with (obs :: sweeps_of ext); by rewrite Hs|]. split; [done|].
      split; [rewrite Hn; f_equal; cbn [length]; lia|].
      split; [rewrite Hr, reads_cons; f_equal; lia|].
      destruct r.2 as [e|]; [|by destruct Hv; split; [|constructor]].
      destruct Hv as (? & good & o & -> & ? & ?). split; [done|]. exists (obs :: good), o. by split_and!; [| |constructor]. }
    set (c' := MkCoherence _ _ _) in *. specialize (Hmore c' eq_refl eq_refl eq_refl).
    destruct err as [x|].
    + apply yields_ret, Hmore, watched_stop; cbn; [apply u64_range..|lia].
    + eapply yields_mono; [|apply IH; cbn; apply u64_range]. intros r ext. apply Hmore.
  - apply yields_ret. exists [obs], []. cbn. split; [done|]. split; [lia|]. split; [done|].
    split; [rewrite reads_cons; f_equal; unfold reads_of; cbn; lia|]. split; [done|]. by exists [], obs.
Qed.

Lemma u64_add_u64_r a b : u64 (a + u64 b) = u64 (a + b).
Proof. unfold u64. by rewrite Zplus_mod_idemp_r. Qed.

Lemma u64_sum4 a b c d : u64 (u64 a + u64 b + u64 c + u64 d) = u64 (a + b + c + d).
Proof.
  assert (∀ z, u64 z = z - 2 ^ 64 * (z / 2 ^ 64)) as Hu by (intros z; unfold u64; rewrite Z.mod_eq by lia; lia).
  rewrite (Hu a), (Hu b), (Hu c), (Hu d). unfold u64.
  rewrite <-(Z_mod_plus_full (a + b + c + d) (- (a / 2 ^ 64 + b / 2 ^ 64 + c / 2 ^ 64 + d / 2 ^ 64))). f_equal. lia.
Qed.

(** ** The readers of [startStableLoad] *)

Inductive read_outcome := ReadError | ReadMissed | ReadMismatched | ReadVerified.
#[export] Instance read_outcome_eq_dec : EqDecision read_outcome.
Proof. solve_decision. Defined.

(** The [switch] on one read of an entry. *)
Definition classify {E} (entry : stableEntry) (r : result E (option bytes)) : read_outcome :=
  match r with
  | Err _ => ReadError
  | Ok None => ReadMissed
  | Ok (Some value) => if bool_decide (value ≠ se_value entry) then ReadMismatched else ReadVerified
  end.

Definition count_operation (c : loadReport) : loadReport :=
  MkLoad (u64 (Operations c + 1)) (Verified c) (Misses c) (Mismatches c) (RPCErrors c).
Definition tally (c : loadReport) (o : read_outcome) : loadReport :=
  match o with
  | ReadError => MkLoad (Operations c) (Verified c) (Misses c) (Mismatches c) (u64 (RPCErrors c + 1))
  | ReadMissed => MkLoad (Operations c) (Verified c) (u64 (Misses c + 1)) (Mismatches c) (RPCErrors c)
  | ReadMismatched => MkLoad (Operations c) (Verified c) (Misses c) (u64 (Mismatches c + 1)) (RPCErrors c)
  | ReadVerified => MkLoad (Operations c) (u64 (Verified c + 1)) (Misses c) (Mismatches c) (RPCErrors c)
  end.

(** Where a reader is between two atomic operations. *)
Inductive reader :=
| LTop                               (* before the select on ctx.Done() *)
| LGot (o : read_outcome)            (* the read returned *)
| LCounted (o : read_outcome)        (* operations.Add(1) done *)
| LTallied (o : read_outcome)        (* its own counter added, reportFirst pending *)
| LReturned.

(** The shared counters and the channel of capacity one; [ld_history] and [ld_taken]
    are ghosts: the outcomes tallied, and the errors received from the channel. *)
Record load_state := MkLoadState {
  ld_counters : loadReport; ld_readers : list reader; ld_channel : option read_outcome;
  ld_history : list read_outcome; ld_taken : list read_outcome
}.

Definition reportFirst (channel : option read_outcome) (o : read_outcome) : option read_outcome :=
  match channel with Some x => Some x | None => Some o end.

Definition after_tally (o : read_outcome) : reader :=
  match o with ReadVerified => LTop | _ => LTallied o end.

Definition start_load (workers : nat) : load_state :=
  MkLoadState (MkLoad 0 0 0 0 0) (replicate workers LTop) None [] [].

(** One atomic operation of one reader, or a receive by the other goroutines; the
    context may be cancelled at any time. *)
Inductive load_step (entries : list stableEntry) : load_state → load_state → Prop :=
| ld_stop i c ps ch h t p :
    ps !! i = Some p → p = LTop ∨ (∃ o, p = LGot o) →
    load_step entries (MkLoadState c ps ch h t) (MkLoadState c (<[i := LReturned]> ps) ch h t)
| ld_read i c ps ch h t entry E (r : result E (option bytes)) :
    ps !! i = Some LTop → entry ∈ entries →
    load_step entries (MkLoadState c ps ch h t) (MkLoadState c (<[i := LGot (classify entry r)]> ps) ch h t)
| ld_count i c ps ch h t o :
    ps !! i = Some (LGot o) →
    load_step entries (MkLoadState c ps ch h t) (MkLoadState (count_operation c) (<[i := LCounted o]> ps) ch h t)
| ld_tally i c ps ch h t o :
    ps !! i = Some (LCounted o) →
    load_step entries (MkLoadState c ps ch h t) (MkLoadState (tally c o) (<[i := after_tally o]> ps) ch (h ++ [o]) t)
| ld_report i c ps ch h t o :
    ps !! i = Some (LTallied o) →
    load_step entries (MkLoadState c ps ch h t) (MkLoadState c (<[i := LTop]> ps) (reportFirst ch o) h t)
| ld_receive c ps o h t :
    load_step entries (MkLoadState c ps (Some o) h t) (MkLoadState c ps None h (t ++ [o])).

Definition occurrences (o : read_outcome) (h : list read_outcome) : Z :=
  Z.of_nat (length (filter (fun x => x = o) h)).

Definition is_counted (p : reader) : bool := match p with LCounted _ => true | _ => false end.
(** The readers between the two additions. *)
Definition counted_in (ps : list reader) : Z := foldr (fun p n => Z.b2z (is_counted p) + n) 0 ps.
Arguments counted_in : simpl never.
Arguments occurrences : simpl never.
Definition is_tallied (p : reader) : Prop := match p with LTallied _ => True | _ => False end.

Record load_inv (s : load_state) : Prop := {
  li_verified : Verified (ld_counters s) = u64 (occurrences ReadVerified (ld_history s));
  li_misses : Misses (ld_counters s) = u64 (occurrences ReadMissed (ld_history s));
  li_mismatches : Mismatches (ld_counters s) = u64 (occurrences ReadMismatched (ld_history s));
  li_errors : RPCErrors (ld_counters s) = u64 (occurrences ReadError (ld_history s));
  li_operations : Operations (ld_counters s) =
    u64 (Z.of_nat (length (ld_history s)) + counted_in (ld_readers s));
  li_reported : Forall (fun o => o = ReadVerified) (ld_history s) ∨
    is_Some (ld_channel s) ∨ ld_taken s ≠ [] ∨ Exists is_tallied (ld_readers s)
}.

Lemma counted_insert ps i p q :
  ps !! i = Some p →
  counted_in (<[i := q]> ps) = counted_in ps - Z.b2z (is_counted p) + Z.b2z (is_counted q).
Proof.
  unfold counted_in. revert i. induction ps as [|z ps IH]; intros [|i] Hi; cbn in Hi; [done|done| |].
  - injection Hi as ->. cbn [insert list_insert foldr]. lia.
  - change (<[S i := q]> (z :: ps)) with (z :: <[i := q]> ps). cbn [foldr]. rewrite (IH i Hi). lia.
Qed.

Lemma Exists_insert_other {A} (P : A → Prop) l i x y :
  l !! i = Some x → ¬ P x → Exists P l → Exists P (<[i := y]> l).
Proof.
  intros Hi Hx. rewrite !Exists_exists. intros (z & (j & Hj)%list_elem_of_lookup & Hz).
  exists z. split; [|done]. apply list_elem_of_lookup. exists j. rewrite list_lookup_insert_ne; [done|]. congruence.
Qed.

Lemma Exists_insert_here {A} (P : A → Prop) l i x y : l !! i = Some x → P y → Exists P (<[i := y]> l).
Proof.
  intros Hi Hy. rewrite Exists_exists. exists y. split; [|done]. apply list_elem_of_lookup. exists i.
  apply list_lookup_insert_eq. by eapply lookup_lt_Some.
Qed.

Lemma occurrences_snoc o h x : occurrences o (h ++ [x]) = occurrences o h + (if decide (x = o) then 1 else 0).
Proof.
  unfold occurrences. rewrite filter_app, length_app, filter_cons. case_decide; cbn; lia.
Qed.

Lemma li_reported_insert (h : list read_outcome) (ch : option read_outcome) (t : list read_outcome) ps i p q :
  ps !! i = Some p → ¬ is_tallied p →
  Forall (fun o => o = ReadVerified) h ∨ is_Some ch ∨ t ≠ [] ∨ Exists is_tallied ps →
  Forall (fun o => o = ReadVerified) h ∨ is_Some ch ∨ t ≠ [] ∨ Exists is_tallied (<[i := q]> ps).
Proof. intros Hi Hp [?|[?|[?|?]]]; eauto using Exists_insert_other. Qed.

Lemma load_step_inv entries s s' : load_step entries s s' → load_inv s → load_inv s'.
Proof.
  intros Hstep [H1 H2 H3 H4 H5 H6]. destruct Hstep as [i c ps ch h t p Hi Hp|i c ps ch h t entry E r Hi _|
    i c ps ch h t o Hi|i c ps ch h t o Hi|i c ps ch h t o Hi|c ps o h t]; cbn in *.
  - assert (is_counted p = false ∧ ¬ is_tallied p) as [Hc Ht] by (destruct Hp as [->|[o ->]]; (split; [done|by intros []])).
    split; cbn; try done; [|by eapply li_reported_insert].
    rewrite (counted_insert _ _ _ _ Hi), Hc, H5. cbn. f_equal. lia.
  - split; cbn; try done; [|eapply li_reported_insert; [done|by intros []|done]].
    rewrite (counted_insert _ _ _ _ Hi), H5. cbn. f_equal. lia.
  - split; cbn; try done; [|eapply li_reported_insert; [done|by intros []|done]].
    rewrite (counted_insert _ _ _ _ Hi), H5, u64_add_u64_l. cbn. f_equal. lia.
  - assert (¬ is_tallied (LCounted o)) as Hnt by (by intros []).
    assert (Z.b2z (is_counted (after_tally o)) = 0) as Hat by (by destruct o).
    split; cbn; rewrite ?occurrences_snoc; try (destruct o; cbn; rewrite ?Z.add_0_r, ?H1, ?H2, ?H3, ?H4, ?u64_add_u64_l; reflexivity).
    + destruct o; cbn; rewrite (counted_insert _ _ _ _ Hi), H5, length_app; cbn; f_equal; lia.
    + destruct (decide (o = ReadVerified)) as [->|Ho].
      * destruct (li_reported_insert h ch t ps i (LCounted ReadVerified) LTop Hi Hnt H6) as [Hh|H]; [left|by right].
        apply Forall_app. split; [done|]. by constructor.
      * do 3 right. eapply Exists_insert_here; [exact Hi|]. by destruct o.
  - split; cbn; try done.
    + rewrite (counted_insert _ _ _ _ Hi), H5. cbn. f_equal. lia.
    + right. left. destruct ch; eexists; done.
  - split; cbn; try done. right. right. left. by destruct t.
Qed.

Lemma load_reach_inv entries workers s : rtc (load_step entries) (start_load workers) s → load_inv s.
Proof.
  assert (load_inv (start_load workers)) as H0.
  { assert (counted_in (replicate workers LTop) = 0) as Hz by (induction workers; [done|]; exact IHworkers).
    split; cbn; try done; [by rewrite Hz|by left]. }
  intros Hr. remember (start_load workers) as s0. clear Heqs0.
  induction Hr as [|s1 s2 s3 Hs _ IH]; [done|]. apply IH. by eapply load_step_inv.
Qed.

Lemma counted_returned ps : Forall (fun p => p = LReturned) ps → counted_in ps = 0.
Proof. unfold counted_in. induction 1 as [|p ps -> _ IH]; [done|]. cbn. lia. Qed.

Lemma occurrences_total h :
  Z.of_nat (length h) =
  occurrences ReadVerified h + occurrences ReadMissed h + occurrences ReadMismatched h + occurrences ReadError h.
Proof.
  induction h as [|x h IH] using rev_ind; [done|]. rewrite length_app, !occurrences_snoc. cbn [length].
  destruct x; repeat (case_decide; try congruence); lia.
Qed.

Lemma occurrences_nonneg o h : 0 ≤ occurrences o h.
Proof. unfold occurrences. lia. Qed.

Lemma all_verified_iff h :
  Forall (fun o => o = ReadVerified) h ↔
  occurrences ReadMissed h = 0 ∧ occurrences ReadMismatched h = 0 ∧ occurrences ReadError h = 0.
Proof.
  induction h as [|x h IH] using rev_ind; [done|]. rewrite Forall_app, Forall_singleton, IH, !occurrences_snoc.
  pose proof (occurrences_nonneg ReadMissed h). pose proof (occurrences_nonneg ReadMismatched h).
  pose proof (occurrences_nonneg ReadError h). destruct x; repeat (case_decide; try congruence);
    split; intros; destruct_and?; split_and?; done || lia.
Qed.

(** ** Properties *)

(** C29: a leader scenario that succeeds has seen a fenced failover, whatever the clock
    and the cluster did: its log is coherent sweeps over the whole group and the
    progress counts 0, 1, 2, each published right after its proof — every replica named
    the baseline leader; then all but at most one named another leader at a higher
    term; then all of them, the old leader included, named a leader other than the old
    one, at a term that did not go back, and served one generation and fingerprint. *)
Theorem leader_scenario_evidence {W E} `{!World W E} fuel cfg addresses (s : state) r s'
  (Hrun : runLeaderScenario (W := W) (E := E) fuel cfg addresses s = (Ok r, s')) :
  ∃ pre0 obs0 pre1 obs1 pre2 obs2,
    s_log s' = s_log s ++
      pre0 ++ [EvSweep obs0; EvProgress (c_leaderReadyFile cfg) 0 None] ++
      pre1 ++ [EvSweep obs1; EvProgress (c_leaderReadyFile cfg) 1 None] ++
      pre2 ++ [EvSweep obs2; EvProgress (c_leaderReadyFile cfg) 2 None] ∧
    Forall (swept addresses) (pre0 ++ [EvSweep obs0] ++ pre1 ++ [EvSweep obs1] ++ pre2 ++ [EvSweep obs2]) ∧
    agree (BaselineLeader r) (BaselineTerm r) (length addresses) obs0 ∧
    agree (NewLeader r) (NewTerm r) (pred (length addresses)) obs1 ∧
    agree (RejoinLeader r) (RejoinTerm r) (length addresses) obs2 ∧
    one_state (RejoinGeneration r) (RejoinFingerprint r) (RejoinNodes r) (answers obs2) ∧
    NewLeader r ≠ BaselineLeader r ∧ RejoinLeader r ≠ BaselineLeader r ∧
    BaselineTerm r < NewTerm r ≤ RejoinTerm r.
Proof.
  destruct (runLeaderScenario_yields _ _ _ _ _ _ Hrun) as (ext & Hlog & Hev).
  destruct Hev as [(pre0 & obs0 & pre1 & obs1 & pre2 & obs2 & -> & H) _ [? ?] ?].
  exists pre0, obs0, pre1, obs1, pre2, obs2. rewrite Hlog. tauto.
Qed.

(** C30: the leader scenario ends: with a positive polling interval, a clock that does not
    go back during a sweep and pauses that last, [leaderTimeout / interval + 2] sweeps per
    wait are enough for the scenario to return its report or an error. *)
Theorem leader_scenario_terminates {W E} `{!World W E, !SweepClock W E} fuel cfg addresses (s : state)
  (Hpoll : 0 < c_pollInterval cfg)
  (Hfuel : (Z.to_nat (c_leaderTimeout cfg / c_pollInterval cfg) + 2 ≤ fuel)%nat) :
  (runLeaderScenario (W := W) (E := E) fuel cfg addresses s).1 ≠ Err StillRunning.
Proof. by apply runLeaderScenario_ends. Qed.

(** The watcher's report is what it saw: when it returns, its counters are the
    sweeps that ended before the context (all but at most the last) and the replicas that
    answered in them, at their 64-bit width; a violation is counted, and its error
    reported, exactly when the last counted sweep is incoherent, and it is the first. *)
Theorem watcher_report_exact {W E} `{!World W E} fuel cfg addresses (w : W) r s'
  (Hrun : watchReplicaCoherence (E := E) fuel cfg addresses (MkSt w []) = (Ok r, s')) :
  ∃ counted cut, sweeps_of (s_log s') = counted ++ cut ∧ (length cut ≤ 1)%nat ∧
    Sweeps r.1 = u64 (Z.of_nat (length counted)) ∧
    ReachableReads r.1 = u64 (Z.of_nat (length (answers (concat counted)))) ∧
    (Violations r.1 = 0 ∧ r.2 = None ∧ Forall (fun o => checkReplicaCoherence o = Ok ()) counted ∨
     Violations r.1 = 1 ∧ ∃ good o e, r.2 = Some e ∧ counted = good ++ [o] ∧ checkReplicaCoherence o = Err e ∧
       Forall (fun o => checkReplicaCoherence o = Ok ()) good).
Proof.
  assert (in_u64 0) as H0 by (unfold in_u64; lia).
  destruct (watch_loop_yields fuel (c_pollInterval cfg) addresses (MkCoherence 0 0 0) H0 H0 _ _ _ Hrun)
    as (ext & Hext & counted & cut & Hs & Hcut & H1 & H2 & H3).
  exists counted, cut. rewrite Hext. split_and!; [done..|]. destruct r as [c [e|]]; cbn in *.
  - right. destruct H3 as (Hv & good & o & Hc & He & Hg). split; [by rewrite Hv|]. by exists good, o, e.
  - left. naive_solver.
Qed.

(** The read load's verdict is sound under every interleaving: once all readers have
    returned, the operations are the sum of the four outcome counters at 64 bits; below
    2^64 reads, the three fault counters are all zero exactly when every counted read
    returned its entry's bytes, and then [Verified] is the number of reads; and a fault
    always left an error in the channel or with a receiver. *)
Theorem load_verdict entries workers s
  (Hreach : rtc (load_step entries) (start_load workers) s)
  (Hdone : Forall (fun p => p = LReturned) (ld_readers s)) :
  let c := ld_counters s in
  Operations c = u64 (Verified c + Misses c + Mismatches c + RPCErrors c) ∧
  (Z.of_nat (length (ld_history s)) < 2 ^ 64 →
   (Misses c = 0 ∧ Mismatches c = 0 ∧ RPCErrors c = 0 ↔ Forall (fun o => o = ReadVerified) (ld_history s)) ∧
   Operations c = Verified c + Misses c + Mismatches c + RPCErrors c) ∧
  (Forall (fun o => o = ReadVerified) (ld_history s) ∨ is_Some (ld_channel s) ∨ ld_taken s ≠ []).
Proof.
  cbn zeta. destruct (load_reach_inv _ _ _ Hreach) as [H1 H2 H3 H4 H5 H6].
  rewrite counted_returned, Z.add_0_r in H5 by done. rewrite occurrences_total in *.
  pose proof (λ o, occurrences_nonneg o (ld_history s)) as Hnn.
  pose proof (Hnn ReadVerified). pose proof (Hnn ReadMissed). pose proof (Hnn ReadMismatched). pose proof (Hnn ReadError).
  split_and!.
  - rewrite H5, H1, H2, H3, H4. symmetry. apply u64_sum4.
  - intros Hlt. rewrite H5, H1, H2, H3, H4, all_verified_iff. rewrite !u64_id by (unfold in_u64; lia). done.
  - destruct H6 as [?|[?|[?|(p & Hin & Hp)%Exists_exists]]]; [by left|by right; left|by right; right|].
    rewrite Forall_forall in Hdone. by rewrite (Hdone p Hin) in Hp.
Qed.

(** ** A simulated group, for the witnesses *)

Module Group.
Import ChaosDemo.

(** A clock and the number of sweeps so far: the first sweep sees cp-0 lead, the second
    finds it gone and cp-1 elected, the later ones find it back as a follower. *)
Record group := MkGroup { clock : Z; sweeps : nat }.
Definition answer (n i : nat) : result (fetch_error ()) Snapshot :=
  match n with
  | O => Ok (with_raft baseline "cp-0" 1)
  | S O => if bool_decide (i = O) then Err (ContextError ()) else Ok (with_raft baseline "cp-1" 2)
  | _ => Ok (with_raft baseline "cp-1" 2)
  end.
Definition tick {A} (w : group) (a : A) : A * group := (a, MkGroup (clock w + 1) (sweeps w)).

#[global] Instance group_world : World group () := {
  w_now := clock;
  w_done w := if bool_decide (clock w < 1000) then None else Some ();
  w_deadlineExceeded := ();
  w_pick _ := true;
  w_loadError _ := None;
  w_fetch _ w := tick w (Ok baseline);
  w_sweep w := (answer (sweeps w), MkGroup (clock w + 1) (S (sweeps w)));
  w_put _ _ w := tick w None;
  w_get _ w := tick w (Ok None);
  w_putWithAck _ _ acks w := tick w (Ok acks);
  w_invalidArgument _ := true;
  w_nodeGet _ _ w := tick w (Ok (false, []));
  w_wait _ d w := (None, MkGroup (clock w + d) (sweeps w));
  w_pause _ d w := (None, MkGroup (clock w + d) (sweeps w));
  w_write _ _ w := tick w None;
  w_prepare _ w := tick w None;
  w_dial _ w := tick w None;
  w_newSDK w := tick w None;
  w_closeSDK w := tick w None;
  w_startLoad w := tick w ();
  w_startWatch w := tick w ();
  w_stopLoad w := tick w ();
  w_leaderDone w := tick w None;
  w_load _ := MkLoad 7 7 0 0 0;
  w_coherence _ := MkCoherence 3 9 0
}.

#[global] Instance group_clock : SweepClock group ().
Proof. split; cbn; lia. Qed.

Definition cfg : settings :=
  MkSettings "127.0.0.1:7000,127.0.0.1:7001,127.0.0.1:7002" target 1 7 "run/ready" "run/report.json" 1000 400 50 20 4 2 1000
    scenarioLeader "run/leader" 1000 100.
Definition addresses : list string := ["127.0.0.1:7000"; "127.0.0.1:7001"; "127.0.0.1:7002"].
Definition start : state (W := group) (E := ()) := MkSt (MkGroup 0 0) [].
Definition outcome := runLeaderScenario (W := group) (E := ()) 4 cfg addresses start.
Definition report : leaderScenarioReport :=
  match outcome.1 with Ok r => r | Err _ => MkLeaderReport 0 "" 0 "" 0 0 "" 0 0 "" 0 end.
Lemma outcome_eq : outcome = (Ok report, outcome.2).
Proof. vm_compute. reflexivity. Qed.

Definition watch := watchReplicaCoherence (W := group) (E := ()) 9 cfg addresses start.
Lemma watch_eq : watch = (Ok (MkCoherence 3 8 0, None), watch.2).
Proof. vm_compute. reflexivity. Qed.

(** One reader verifies an entry and stops. *)
Definition entry : stableEntry := MkStable [x6b] [x76] 0 "node-1".
Definition read_once : load_state := MkLoadState (MkLoad 1 1 0 0 0) [LReturned] None [ReadVerified] [].
Lemma read_once_reach : rtc (load_step [entry]) (start_load 1) read_once.
Proof.
  eapply rtc_l; [apply (ld_read _ 0 _ _ _ _ _ entry () (Ok (Some [x76]))); [reflexivity|left]|].
  eapply rtc_l; [by eapply (ld_count _ 0)|]. eapply rtc_l; [by eapply (ld_tally _ 0)|].
  eapply rtc_l; [eapply (ld_stop _ 0); [done|by left]|]. apply rtc_refl.
Qed.
End Group.

Lemma leader_scenario_evidence_witness :
  BaselineLeader Group.report = "cp-0" ∧ NewLeader Group.report = "cp-1" ∧
  NewLeader Group.report ≠ BaselineLeader Group.report ∧ BaselineTerm Group.report < NewTerm Group.report.
Proof.
  destruct (leader_scenario_evidence 4 Group.cfg Group.addresses Group.start Group.report _ Group.outcome_eq)
    as (p0 & o0 & p1 & o1 & p2 & o2 & _ & _ & _ & _ & _ & _ & Hne & _ & Ht & _).
  split; [vm_compute; reflexivity|]. split; [vm_compute; reflexivity|]. split; [exact Hne|exact Ht].
Defined.

Lemma leader_scenario_terminates_witness :
  (runLeaderScenario (W := Group.group) (E := ()) 4 Group.cfg Group.addresses Group.start).1 ≠ Err StillRunning.
Proof. apply leader_scenario_terminates; [cbn; lia|]. vm_compute. lia. Defined.

Lemma watcher_report_exact_witness :
  ∃ counted cut, sweeps_of (s_log Group.watch.2) = counted ++ cut ∧ (length cut ≤ 1)%nat ∧
    3 = u64 (Z.of_nat (length counted)).
Proof.
  destruct (watcher_report_exact 9 Group.cfg Group.addresses (Group.MkGroup 0 0) _ _ Group.watch_eq)
    as (counted & cut & H1 & H2 & H3 & _).
  exists counted, cut. split; [exact H1|]. split; [exact H2|exact H3].
Defined.

Lemma load_verdict_witness :
  Operations (ld_counters Group.read_once) = 1 ∧
  (1 < 2 ^ 64 → Forall (fun o => o = ReadVerified) (ld_history Group.read_once)).
Proof.
  split; [reflexivity|]. intros H.
  destruct (load_verdict [Group.entry] 1 Group.read_once Group.read_once_reach ltac:(by repeat constructor))
    as (_ & Hc & _). apply (Hc H). split; [reflexivity|]. split; reflexivity.
Defined.
