(* ===== verification/SmokeWait.v ===== *)
(** * The smoke tool's wait modes (cmd/pulsekv-smoke/main.go)

    The lifecycle scripts gate on this tool: [--mode=wait] polls health checks,
    [--mode=topology-wait] polls for a membership and its exact shard map,
    [--mode=leader] and [--mode=leader-wait] ask who leads.  The network and the clock
    are a world ([Net]): an arbitrary type with the answers of the RPCs by address, so
    that every poll may see something else.  Each mode returns its exit code and its
    verdict; loops that poll to a deadline take fuel, and [None] is a loop that still
    runs.  Messages are constructors. *)

From S2P Require Import Prelude Router Topology GoStd Json Client Config ChaosOracle ChaosCoherence.
Local Open Scope Z_scope.

(** ** The network *)

Class Net (W E : Type) := {
  n_now : W → Z;
  n_sleep : Z → W → W;
  n_dial : string → W → option E * W;                              (* grpc.NewClient *)
  n_round : list (bool * string) → W → (nat → option E * result E bool) * W;   (* parallel dials and HealthChecks *)
  n_nodeList : string → W → result E GetNodeListResponse * W;
  n_shardMap : string → W → result E GetShardMapResponse * W;
  n_fetch : string → W → result (fetch_error E) Snapshot * W       (* clustertopology.Fetch *)
}.

Inductive map_problem :=
| MissingShard (shard : Z) (want : string)
| UnexpectedShard (shard : Z) (got : string)
| OwnerDiffers (shard : Z) (got want : string)
| MoreShards (n : nat).

Section errors.
Context {E : Type}.

Inductive probe_error :=
| DialError (e : E) | RpcError (e : E) | NotOk | FetchError (e : fetch_error E) | NoneConfigured.

Inductive topology_problem :=
| NoTopology (address : string) (e : probe_error)
| GenerationTooLow (got want : Z)
| WrongShardCount (got want : Z)
| RequiredAbsent (id : string) (live : list string)
| StillPresent (id : string) (live : list string)
| WrongLiveCount (live expected : list string)
| UnexpectedLive (id : string) (live expected : list string)
| ExpectedAbsent (id : string) (live : list string)
| NotExactMap (generation : Z) (problems : list map_problem).
End errors.
Arguments probe_error E : clear implicits.
Arguments topology_problem E : clear implicits.

(** ** wait mode *)

Record process := MkProcess { p_label : string; p_address : string; p_isNode : bool }.

Definition processes (cfg : Config) (targetNode : string) : list process :=
  ((fun r => MkProcess ("controlplane:" +:+ cp_NodeID r) (cp_Address r) false) <$> cf_ControlPlanes cfg) ++
  ((fun n => MkProcess (nd_NodeID n) (nd_Address n) true) <$>
     filter (fun n => targetNode = "" ∨ nd_NodeID n = targetNode) (cf_Nodes cfg)).

(** [probeOne]: what a probe makes of its dial and its health check. *)
Definition probeOne {E} (answer : option E * result E bool) : option (probe_error E) :=
  match answer with
  | (Some e, _) => Some (DialError e)
  | (None, Err e) => Some (RpcError e)
  | (None, Ok ok) => if ok then None else Some NotOk
  end.

Section wait.
Context {W E : Type} `{!Net W E}.

(** [probeAll]: the probes of a round run together, and the failures are keyed by
    label; [order] is the order in which they take the mutex. *)
Definition record_failure (ps : list process) (answers : nat → option E * result E bool)
    (failures : gmap string (probe_error E)) (i : nat) : gmap string (probe_error E) :=
  match ps !! i, probeOne (answers i) with
  | Some p, Some e => <[p_label p := e]> failures
  | _, _ => failures
  end.
Definition probeAll (order : list nat) (ps : list process) (w : W) : gmap string (probe_error E) * W :=
  let '(answers, w) := n_round ((fun p => (p_isNode p, p_address p)) <$> ps) w in
  (foldl (record_failure ps answers) ∅ order, w).

Definition required_of (replicas minControlPlane : Z) : Z :=
  if (minControlPlane <=? 0) || (replicas <? minControlPlane) then replicas else minControlPlane.

(** The two counts of one round. *)
Definition data_failures (ps : list process) (errs : gmap string (probe_error E)) : nat :=
  length (filter (fun p => p_isNode p = true ∧ is_Some (errs !! p_label p)) ps).
Definition replica_failures (ps : list process) (errs : gmap string (probe_error E)) : nat :=
  length (filter (fun p => p_isNode p = false ∧ is_Some (errs !! p_label p)) ps).

(** Exit code 0 reports the data services and replicas it claims healthy; exit code 1
    the processes it names. *)
Inductive wait_result :=
| WaitHealthy (dataServices : nat) (healthyReplicas : Z) (polls : nat)
| WaitFailed (healthyReplicas required : Z) (bad : list (process * probe_error E)).

Fixpoint wait_loop (fuel : nat) (attempt : nat) (order : nat → list nat) (ps : list process)
    (replicas required : Z) (expectedDataNodes : nat) (deadline interval : Z) (w : W)
    : option wait_result * W :=
  match fuel with
  | O => (None, w)
  | S fuel =>
      let '(errs, w) := probeAll (order attempt) ps w in
      let healthyReplicas := replicas - Z.of_nat (replica_failures ps errs) in
      if bool_decide (data_failures ps errs = O) && (required <=? healthyReplicas)
      then (Some (WaitHealthy expectedDataNodes healthyReplicas attempt), w)
      else if deadline <? n_now w
      then (Some (WaitFailed healthyReplicas required
                    (omap (fun p => (p,.) <$> errs !! p_label p) ps)), w)
      else wait_loop fuel (S attempt) order ps replicas required expectedDataNodes deadline interval
             (n_sleep interval w)
  end.

Definition runWait (fuel : nat) (order : nat → list nat) (cfg : Config) (targetNode : string)
    (minControlPlane budget interval : Z) (w : W) : option wait_result * W :=
  let ps := processes cfg targetNode in
  let replicas := Z.of_nat (length (cf_ControlPlanes cfg)) in
  let required := required_of replicas minControlPlane in
  let expectedDataNodes := if bool_decide (targetNode = "") then length (cf_Nodes cfg) else 1%nat in
  wait_loop fuel 1 order ps replicas required expectedDataNodes (n_now w + budget) interval w.

Definition wait_exit (r : wait_result) : Z := match r with WaitHealthy _ _ _ => 0 | WaitFailed _ _ _ => 1 end.

(** ** Reading through any replica *)

Definition first_error (firstErr : option (string * probe_error E)) (address : string) (e : probe_error E)
    : option (string * probe_error E) :=
  match firstErr with Some f => Some f | None => Some (address, e) end.

(** [fetchFromAnyReplica]: the snapshot and the address that answered. *)
Fixpoint fetch_from (addresses : list string) (firstErr : option (string * probe_error E)) (w : W)
    : result (string * probe_error E) (Snapshot * string) * W :=
  match addresses with
  | [] => (Err (default ("", NoneConfigured) firstErr), w)
  | address :: rest =>
      match n_dial address w with
      | (Some e, w) => fetch_from rest (first_error firstErr address (DialError e)) w
      | (None, w) =>
          match n_fetch address w with
          | (Ok s, w) => (Ok (s, address), w)
          | (Err e, w) => fetch_from rest (first_error firstErr address (FetchError e)) w
          end
      end
  end.
Definition fetchFromAnyReplica (addresses : list string) : W → result (string * probe_error E) (Snapshot * string) * W :=
  fetch_from addresses None.

(** [dialAnyReplica]: the connection is the address it was dialled for. *)
Fixpoint dial_any (addresses : list string) (firstErr : option (string * probe_error E)) (w : W)
    : result (string * probe_error E) string * W :=
  match addresses with
  | [] => (Err (default ("", NoneConfigured) firstErr), w)
  | address :: rest =>
      match n_dial address w with
      | (Some e, w) => dial_any rest (first_error firstErr address (DialError e)) w
      | (None, w) =>
          match n_nodeList address w with
          | (Ok _, w) => (Ok address, w)
          | (Err e, w) => dial_any rest (first_error firstErr address (RpcError e)) w
          end
      end
  end.
Definition dialAnyReplica (addresses : list string) : W → result (string * probe_error E) string * W :=
  dial_any addresses None.
End wait.
Arguments WaitHealthy {E}.
Arguments WaitFailed {E}.

(** ** Shard map differences *)

Definition differing (got want : gmap Z string) : list Z :=
  merge_sort Z.le (elements (filter (fun shard => got !! shard ≠ want !! shard) (dom got ∪ dom want))).

Definition describe (got want : gmap Z string) (shard : Z) : map_problem :=
  match got !! shard, want !! shard with
  | None, w => MissingShard shard (default "" w)
  | Some g, None => UnexpectedShard shard g
  | Some g, Some w => OwnerDiffers shard g w
  end.

Definition shardMapDifferences (got want : gmap Z string) (limit : Z) : list map_problem :=
  let shards := differing got want in
  let count := length shards in
  let shards := if (0 <=? limit) && (limit <? Z.of_nat count) then take (Z.to_nat limit) shards else shards in
  (describe got want <$> shards) ++
  (if bool_decide (length shards < count)%nat then [MoreShards (count - length shards)] else []).

(** ** topology-wait mode *)

(** The first id of a loop whose test returns an error. *)
Definition first_bad {E} (bad : string → bool) (problem : string → topology_problem E) (ids : list string)
    : result (topology_problem E) () :=
  match List.find bad ids with Some id => Err (problem id) | None => Ok () end.

Section topology.
Context {W E : Type} `{!Net W E}.

(** The part of [probeTopology] after the fetch; [range] is the order in which the
    loop over the node map visits it. *)
Definition judge_topology (range : gmap string string → list string) (shardCount : Z)
    (expected present absent : list string) (minGeneration : Z) (s : Snapshot)
    : result (topology_problem E) () :=
  let live := sortedNodeIDs (Nodes s) in
  let has id := bool_decide (is_Some (Nodes s !! id)) in
  _ ← guard_err (negb (Generation s <? minGeneration)) (GenerationTooLow (Generation s) minGeneration);
  _ ← guard_err (ShardCount s =? shardCount) (WrongShardCount (ShardCount s) shardCount);
  if negb (bool_decide (present = [])) then
    _ ← first_bad (fun id => negb (has id)) (fun id => RequiredAbsent id live) present;
    first_bad has (fun id => StillPresent id live) absent
  else
    let want : gset string := list_to_set expected in
    _ ← guard_err (bool_decide (size (Nodes s) = size want)) (WrongLiveCount live expected);
    _ ← first_bad (fun id => bool_decide (id ∉ want)) (fun id => UnexpectedLive id live expected) (range (Nodes s));
    _ ← first_bad (fun id => negb (has id)) (fun id => ExpectedAbsent id live) expected;
    _ ← first_bad has (fun id => StillPresent id live) absent;
    let differences := shardMapDifferences (ShardMap s) (AssignShards expected shardCount) 5 in
    guard_err (bool_decide (differences = [])) (NotExactMap (Generation s) differences).

Definition probeTopology (range : gmap string string → list string) (controlPlanes : list string) (shardCount : Z)
    (expected present absent : list string) (minGeneration : Z) (w : W) : result (topology_problem E) () * W :=
  match fetchFromAnyReplica controlPlanes w with
  | (Err (address, e), w) => (Err (NoTopology address e), w)
  | (Ok (s, _), w) => (judge_topology range shardCount expected present absent minGeneration s, w)
  end.

(** Exit code 0 is [Ok] of the number of polls. *)
Fixpoint topology_loop (fuel attempt : nat) (range : gmap string string → list string) (cfg : Config)
    (expected present absent : list string) (minGeneration deadline interval : Z) (w : W)
    : option (result (topology_problem E) nat) * W :=
  match fuel with
  | O => (None, w)
  | S fuel =>
      match probeTopology range (ControlPlaneAddresses cfg) (cf_ShardCount cfg) expected present absent minGeneration w with
      | (Ok _, w) => (Some (Ok attempt), w)
      | (Err lastErr, w) =>
          if deadline <? n_now w then (Some (Err lastErr), w)
          else topology_loop fuel (S attempt) range cfg expected present absent minGeneration deadline interval
                 (n_sleep interval w)
      end
  end.
Definition runTopologyWait (fuel : nat) (range : gmap string string → list string) (cfg : Config)
    (expected present absent : list string) (minGeneration budget interval : Z) (w : W)
    : option (result (topology_problem E) nat) * W :=
  topology_loop fuel 1 range cfg expected present absent minGeneration (n_now w + budget) interval w.

(** ** leader modes *)

(** The loop of [observeLeader]; a return in the middle says no agreement. *)
Fixpoint observe_loop (addresses : list string) (leader : string) (term : Z) (reached : nat)
    (firstErr : option (probe_error E)) (w : W) : result (probe_error E) (string * Z * nat) * W :=
  let err e := match firstErr with Some f => Some f | None => Some e end in
  match addresses with
  | [] =>
      (if bool_decide (reached = O) then Err (default NoneConfigured firstErr) else Ok (leader, term, reached), w)
  | address :: rest =>
      match n_dial address w with
      | (Some e, w) => observe_loop rest leader term reached (err (DialError e)) w
      | (None, w) =>
          match n_shardMap address w with
          | (Err e, w) => observe_loop rest leader term reached (err (RpcError e)) w
          | (Ok resp, w) =>
              let reached := S reached in
              if bool_decide (sm_RaftLeaderId resp = "") then (Ok ("", 0, reached), w)
              else if bool_decide (leader = "")
              then observe_loop rest (sm_RaftLeaderId resp) (sm_RaftTerm resp) reached firstErr w
              else if bool_decide (sm_RaftLeaderId resp ≠ leader) || negb (sm_RaftTerm resp =? term)
              then (Ok ("", 0, reached), w)
              else observe_loop rest leader term reached firstErr w
          end
      end
  end.
Definition observeLeader (addresses : list string) : W → result (probe_error E) (string * Z * nat) * W :=
  observe_loop addresses "" 0 O None.

Inductive leader_problem :=
| LeaderProbe (e : probe_error E)
| TooFewAnswered (reached replicas : nat) (want : Z)
| NoLeaderYet
| LeaderStill (leader : string) (term : Z).

(** The [switch] of [runLeaderWait]. *)
Definition judge_leader (cfg : Config) (changedFrom : string) (minReplicas : Z)
    (r : result (probe_error E) (string * Z * nat)) : result leader_problem (string * Z * nat) :=
  match r with
  | Err e => Err (LeaderProbe e)
  | Ok (leader, term, reached) =>
      if Z.of_nat reached <? minReplicas
      then Err (TooFewAnswered reached (length (cf_ControlPlanes cfg)) minReplicas)
      else if bool_decide (leader = "") then Err NoLeaderYet
      else if bool_decide (changedFrom ≠ "") && bool_decide (leader = changedFrom)
      then Err (LeaderStill leader term)
      else Ok (leader, term, reached)
  end.

Fixpoint leader_loop (fuel : nat) (cfg : Config) (changedFrom : string) (minReplicas deadline interval : Z) (w : W)
    : option (result leader_problem (string * Z * nat)) * W :=
  match fuel with
  | O => (None, w)
  | S fuel =>
      let '(r, w) := observeLeader (ControlPlaneAddresses cfg) w in
      match judge_leader cfg changedFrom minReplicas r with
      | Ok v => (Some (Ok v), w)
      | Err lastErr =>
          if deadline <? n_now w then (Some (Err lastErr), w)
          else leader_loop fuel cfg changedFrom minReplicas deadline interval (n_sleep interval w)
      end
  end.
Definition runLeaderWait (fuel : nat) (cfg : Config) (changedFrom : string) (minReplicas budget interval : Z) (w : W)
    : option (result leader_problem (string * Z * nat)) * W :=
  leader_loop fuel cfg changedFrom minReplicas (n_now w + budget) interval w.

(** [runLeader]: what it prints, or exit code 1. *)
Definition runLeader (cfg : Config) (w : W) : result (option (string * probe_error E)) (string * Z) * W :=
  match fetchFromAnyReplica (ControlPlaneAddresses cfg) w with
  | (Err e, w) => (Err (Some e), w)
  | (Ok (s, _), w) =>
      if bool_decide (RaftLeaderID s = "") then (Err None, w) else (Ok (RaftLeaderID s, RaftTerm s), w)
  end.
End topology.

(** ** Flags *)

Inductive ids_error := EmptyNodeID | DuplicateNodeID (id : string).

Definition ids_step (acc : gset string * list string) (raw : string) : result ids_error (gset string * list string) :=
  let '(seen, ids) := acc in
  let id := TrimSpace raw in
  _ ← guard_err (negb (bool_decide (id = ""))) EmptyNodeID;
  _ ← guard_err (bool_decide (id ∉ seen)) (DuplicateNodeID id);
  Ok ({[id]} ∪ seen, ids ++ [id]).

Definition parseNodeIDs (text : string) : result ids_error (list string) :=
  if bool_decide (TrimSpace text = "") then Ok [] else
  '(_, ids) ← foldM ids_step (∅, []) (Split_comma text);
  Ok (sort_strings ids).

Definition expectedNodeIDs (cfg : Config) (text : string) : result ids_error (list string) :=
  if bool_decide (TrimSpace text = "") then Ok (NodeIDs cfg) else parseNodeIDs text.

(** The flag handling of [--mode=topology-wait] in [main]: the live, present and absent
    lists; an error is exit code 2. *)
Definition topology_flags (cfg : Config) (expectLive expectPresent expectAbsent : string)
    : result ids_error (list string * list string * list string) :=
  live ← (if bool_decide (expectLive ≠ "") || bool_decide (expectPresent = "")
          then expectedNodeIDs cfg expectLive else Ok []);
  present ← parseNodeIDs expectPresent;
  absent ← parseNodeIDs expectAbsent;
  Ok (live, present, absent).

(** ** Shard map differences, exactly *)

Lemma elem_of_differing got want shard :
  shard ∈ differing got want ↔ got !! shard ≠ want !! shard.
Proof.
  unfold differing. rewrite elem_of_merge_sort, elem_of_elements, elem_of_filter, elem_of_union, !elem_of_dom.
  split; [naive_solver|]. intros H. split; [done|].
  destruct (got !! shard), (want !! shard); eauto. done.
Qed.

Lemma differing_nil got want : differing got want = [] ↔ got = want.
Proof.
  split.
  - intros H. apply map_eq. intros shard. apply dec_stable. intros Hne%elem_of_differing. rewrite H in Hne.
    by apply not_elem_of_nil in Hne.
  - intros <-. destruct (differing got got) as [|shard l] eqn:Hd; [done|]. exfalso.
    assert (shard ∈ differing got got) as Hin by (rewrite Hd; left). by apply elem_of_differing in Hin.
Qed.

(** The shards a description is about. *)
Definition shown (limit : Z) (shards : list Z) : list Z :=
  if (0 <=? limit) && (limit <? Z.of_nat (length shards)) then take (Z.to_nat limit) shards else shards.

Lemma shown_length limit shards : (length (shown limit shards) ≤ length shards)%nat.
Proof. unfold shown. case_match; [|lia]. rewrite length_take. lia. Qed.

Lemma shardMapDifferences_nil got want limit : shardMapDifferences got want limit = [] ↔ got = want.
Proof.
  rewrite <-differing_nil. unfold shardMapDifferences. fold (shown limit (differing got want)).
  split.
  2:{ intros ->. assert (shown limit [] = []) as -> by (unfold shown; destruct (_ && _); [apply take_nil|done]). done. }
  intros [Hs%fmap_nil_inv Hmore]%app_eq_nil. rewrite Hs in Hmore. cbn in Hmore.
  destruct (differing got want); [done|]. by rewrite bool_decide_eq_true_2 in Hmore by (cbn; lia).
Qed.

(** ** Topology probes *)

Lemma first_bad_Ok {E} bad (problem : string → topology_problem E) ids :
  first_bad bad problem ids = Ok () ↔ Forall (fun id => bad id = false) ids.
Proof.
  unfold first_bad. rewrite Forall_forall. destruct (List.find bad ids) as [id|] eqn:Hf.
  - apply find_some in Hf as [Hin%list_elem_of_In Hb]. split; [done|]. intros H. rewrite H in Hb by done. done.
  - split; [|done]. intros _ id Hin%list_elem_of_In. by eapply find_none.
Qed.

(** What a probe accepts. *)
Definition topology_wanted (shardCount : Z) (expected present absent : list string) (minGeneration : Z) (s : Snapshot)
    : Prop :=
  minGeneration ≤ Generation s ∧ ShardCount s = shardCount ∧
  (∀ id, id ∈ absent → Nodes s !! id = None) ∧
  (if decide (present = [])
   then dom (Nodes s) = list_to_set expected ∧ ShardMap s = AssignShards expected shardCount
   else ∀ id, id ∈ present → is_Some (Nodes s !! id)).

Lemma bind_unit_Ok {E} (m : result E ()) (f : () → result E ()) :
  (m ≫= f) = Ok () ↔ m = Ok () ∧ f () = Ok ().
Proof. rewrite result_bind_Ok. split; [intros ([] & ?)|intros ?; exists ()]; done. Qed.

Lemma absent_ok {E} (s : Snapshot) (problem : string → topology_problem E) absent :
  first_bad (fun id => bool_decide (is_Some (Nodes s !! id))) problem absent = Ok () ↔
  ∀ id, id ∈ absent → Nodes s !! id = None.
Proof.
  rewrite first_bad_Ok, Forall_forall. setoid_rewrite bool_decide_eq_false. by setoid_rewrite eq_None_not_Some.
Qed.

Lemma present_ok {E} (s : Snapshot) (problem : string → topology_problem E) present :
  first_bad (fun id => negb (bool_decide (is_Some (Nodes s !! id)))) problem present = Ok () ↔
  ∀ id, id ∈ present → is_Some (Nodes s !! id).
Proof.
  rewrite first_bad_Ok, Forall_forall. setoid_rewrite negb_false_iff. by setoid_rewrite bool_decide_eq_true.
Qed.

Lemma judge_topology_Ok {E} range shardCount expected present absent minGeneration s :
  (∀ m, range m ≡ₚ (map_to_list m).*1) →
  judge_topology (E := E) range shardCount expected present absent minGeneration s = Ok () ↔
  topology_wanted shardCount expected present absent minGeneration s.
Proof.
  intros Hrange. unfold judge_topology, topology_wanted.
  rewrite bind_unit_Ok, guard_err_Ok, negb_true_iff, Z.ltb_ge, bind_unit_Ok, guard_err_Ok, Z.eqb_eq.
  case_decide as Hp.
  - rewrite bool_decide_eq_true_2 by done. cbn [negb].
    rewrite bind_unit_Ok, guard_err_Ok, bool_decide_eq_true, bind_unit_Ok, first_bad_Ok, Hrange.
    rewrite bind_unit_Ok, present_ok, bind_unit_Ok, absent_ok, guard_err_Ok, bool_decide_eq_true, shardMapDifferences_nil.
    rewrite Forall_forall. setoid_rewrite bool_decide_eq_false.
    assert (((∀ id, id ∈ (map_to_list (Nodes s)).*1 → ¬ (id ∉ (list_to_set expected : gset string))) ∧
             (∀ id, id ∈ expected → is_Some (Nodes s !! id))) ↔ dom (Nodes s) = list_to_set expected) as Hdom.
    { split.
      - intros [H1 H2]. apply set_eq. intros id. rewrite elem_of_dom. split.
        + intros [a Ha]. apply dec_stable, H1. apply list_elem_of_fmap. exists (id, a).
          by rewrite elem_of_map_to_list.
        + rewrite elem_of_list_to_set. apply H2.
      - intros Heq. split.
        + intros id ([k a] & -> & Ha%elem_of_map_to_list)%list_elem_of_fmap Hn. apply Hn. rewrite <-Heq.
          apply elem_of_dom. by exists a.
        + intros id Hin. apply elem_of_dom. rewrite Heq. by apply elem_of_list_to_set. }
    split; [naive_solver|]. intros (Hg & Hc & Ha & Hd & Hm).
    assert (size (Nodes s) = size (list_to_set expected : gset string)) as Hsz by (rewrite <-Hd; by rewrite size_dom).
    apply Hdom in Hd as [? ?]. done.
  - rewrite bool_decide_eq_false_2 by done. cbn [negb]. rewrite bind_unit_Ok, present_ok, absent_ok. tauto.
Qed.

(** ** Agreement on a leader *)

Section leader_lemmas.
Context {W E : Type} `{!Net W E}.

(** A sweep without the early returns: the leader and term each replica answered. *)
Fixpoint sweep (addresses : list string) (w : W) : list (option (string * Z)) * W :=
  match addresses with
  | [] => ([], w)
  | address :: rest =>
      let '(a, w) :=
        match n_dial address w with
        | (Some _, w) => (None, w)
        | (None, w) =>
            let '(r, w) := n_shardMap address w in
            (match r with Ok resp => Some (sm_RaftLeaderId resp, sm_RaftTerm resp) | Err _ => None end, w)
        end in
      let '(l, w) := sweep rest w in (a :: l, w)
  end.

(** Every replica that answered named this leader and term. *)
Definition unanimous (leader : string) (term : Z) (answers : list (option (string * Z))) : Prop :=
  Forall (fun a => a = None ∨ a = Some (leader, term)) answers.
Definition answered (answers : list (option (string * Z))) : nat := length (omap id answers).

Lemma unanimous_cons l t a answers :
  unanimous l t (a :: answers) ↔ (a = None ∨ a = Some (l, t)) ∧ unanimous l t answers.
Proof using Type. unfold unanimous. by rewrite Forall_cons. Qed.

Lemma observe_loop_spec addresses leader term reached firstErr w l t n :
  l ≠ "" → (leader = "" ↔ reached = O) →
  (observe_loop (E := E) addresses leader term reached firstErr w).1 = Ok (l, t, n) ↔
  unanimous l t (sweep addresses w).1 ∧ n = (reached + answered (sweep addresses w).1)%nat ∧ n ≠ O ∧
  (leader ≠ "" → l = leader ∧ t = term).
Proof using Type.
  intros Hl. revert leader term reached firstErr w.
  induction addresses as [|address rest IH]; intros leader term reached firstErr w Hinv; cbn [observe_loop sweep].
  { unfold unanimous, answered. cbn. rewrite Nat.add_0_r. case_bool_decide as Hr; [naive_solver|].
    split; [intros [= <- <- <-]; naive_solver|]. intros (_ & -> & _ & H). destruct H as [-> ->]; [tauto|done]. }
  destruct (n_dial address w) as [[e|] w1]; cbn [fst].
  { rewrite IH by done. destruct (sweep rest w1) as [as_ w2]. cbn [fst]. rewrite unanimous_cons.
    unfold answered. cbn [omap list_omap]. naive_solver. }
  destruct (n_shardMap address w1) as [[resp|e] w2]; cbn [fst].
  2:{ rewrite IH by done. destruct (sweep rest w2) as [as_ w3]. cbn [fst]. rewrite unanimous_cons.
      unfold answered. cbn [omap list_omap]. naive_solver. }
  destruct (sweep rest w2) as [as_ w3] eqn:Hs. cbn [fst]. rewrite unanimous_cons.
  assert (answered (Some (sm_RaftLeaderId resp, sm_RaftTerm resp) :: as_) = S (answered as_)) as -> by done.
  case_bool_decide as Hid; [cbn [fst]; naive_solver|]. case_bool_decide as Hle.
  { rewrite IH by done. rewrite Hs. cbn [fst]. naive_solver lia. }
  case_bool_decide as Hne; cbn [orb fst].
  { split; [naive_solver|]. intros ([[?|[= ? ?]] _] & _ & _ & Heq); naive_solver. }
  destruct (Z.eqb_spec (sm_RaftTerm resp) term) as [Ht|Ht]; cbn [negb fst].
  - rewrite IH by naive_solver. rewrite Hs. cbn [fst]. naive_solver lia.
  - split; [naive_solver|]. intros ([[?|[= ? ?]] _] & _ & _ & Heq); naive_solver.
Qed.
End leader_lemmas.

(** The chaos verifier's observation of the same answers. *)
Definition same_answers {E} (answers : list (option (string * Z))) (obs : list (replicaObservation E)) : Prop :=
  Forall2 (fun a o => match ob_fetch o with
                      | Ok s => a = Some (RaftLeaderID s, RaftTerm s)
                      | Err _ => a = None
                      end) answers obs.

Lemma same_answers_uniform {E} as_ (obs : list (replicaObservation E)) l t :
  same_answers as_ obs →
  answered as_ = length (answers obs) ∧
  (uniform l t (answers obs) ↔ unanimous l t as_ ∧ answered as_ ≠ O ∧ l ≠ "").
Proof.
  intros H. assert (answered as_ = length (answers obs) ∧
    (Forall (fun s => RaftLeaderID s = l ∧ RaftTerm s = t) (answers obs) ↔ unanimous l t as_)) as [H1 H2].
  { unfold answered, answers, unanimous. induction H as [|a o as_ obs Ha _ [IH1 IH2]]; [done|].
    cbn [omap list_omap]. destruct (ob_fetch o) as [s|e]; subst a; cbn.
    - split; [by f_equal|]. rewrite !Forall_cons, IH2. naive_solver.
    - split; [done|]. rewrite Forall_cons, IH2. naive_solver. }
  split; [done|]. unfold uniform. rewrite H2, H1. destruct (answers obs); naive_solver.
Qed.

(** ** Health rounds *)

Lemma record_failures {E} ps (answers : nat → option E * result E bool) order m label :
  is_Some (foldl (record_failure ps answers) m order !! label) ↔
  is_Some (m !! label) ∨ ∃ i p, i ∈ order ∧ ps !! i = Some p ∧ p_label p = label ∧ probeOne (answers i) ≠ None.
Proof.
  revert m. induction order as [|i order IH]; intros m; cbn [foldl]; [set_solver|].
  rewrite IH. unfold record_failure at 1. destruct (ps !! i) as [p|] eqn:Hp.
  - destruct (probeOne (answers i)) as [e|] eqn:Ha.
    + destruct (decide (p_label p = label)) as [<-|Hne].
      * rewrite lookup_insert_eq. split; [intros _; right; exists i, p; set_solver|]. intros _. left. done.
      * rewrite lookup_insert_ne by done. set_solver.
    + set_solver.
  - set_solver.
Qed.

(** A round: every process with the verdict of its own probe. *)
Definition judged {E} (ps : list process) (answers : nat → option E * result E bool)
    : list (process * option (probe_error E)) := imap (fun i p => (p, probeOne (answers i))) ps.

(** What a healthy verdict rests on: no data node failed, and at least [required]
    replicas did not. *)
Definition round_healthy {E} (required : Z) (round : list (process * option (probe_error E))) : Prop :=
  (∀ p e, (p, e) ∈ round → p_isNode p = true → e = None) ∧
  required ≤ Z.of_nat (length (filter (fun pe => p_isNode pe.1 = false ∧ ¬ is_Some pe.2) round)).

Lemma judged_fst {E} ps (answers : nat → option E * result E bool) : (judged ps answers).*1 = ps.
Proof.
  unfold judged. revert answers. induction ps as [|p ps IH]; intros answers; [done|]. cbn. f_equal.
  apply (IH (answers ∘ S)).
Qed.

Lemma elem_of_judged {E} ps (answers : nat → option E * result E bool) p e :
  (p, e) ∈ judged ps answers ↔ ∃ i, ps !! i = Some p ∧ e = probeOne (answers i).
Proof.
  unfold judged. rewrite list_elem_of_lookup. setoid_rewrite list_lookup_imap.
  split; intros (i & H); exists i; destruct (ps !! i); cbn in *; naive_solver.
Qed.

(** A process whose own probe failed is counted, so the others are at most the healthy ones. *)
Lemma replica_count {E} (round : list (process * option (probe_error E))) (errs : gmap string (probe_error E)) :
  (∀ p e, (p, Some e) ∈ round → is_Some (errs !! p_label p)) →
  (length (filter (fun p => p_isNode p = false) round.*1) ≤
   replica_failures round.*1 errs + length (filter (fun pe => p_isNode pe.1 = false ∧ ¬ is_Some pe.2) round))%nat.
Proof.
  unfold replica_failures. induction round as [|[p e] round IH]; intros H; [done|].
  cbn [fmap list_fmap fst]. rewrite !filter_cons. cbn [fst snd].
  assert (∀ p e, (p, Some e) ∈ round → is_Some (errs !! p_label p)) as H'.
  { intros q x Hq. apply (H q x). by right. }
  specialize (IH H'). destruct e as [e|].
  - assert (is_Some (errs !! p_label p)) as Hp by (apply (H p e); left).
    destruct (p_isNode p); repeat case_decide; cbn [length] in *; try lia; tauto.
  - assert (¬ is_Some (@None (probe_error E))) as Hn by (by intros []).
    destruct (p_isNode p); repeat case_decide; cbn [length] in *; try lia; tauto.
Qed.

Lemma data_failures_0 {E} (round : list (process * option (probe_error E))) (errs : gmap string (probe_error E)) :
  (∀ p e, (p, Some e) ∈ round → is_Some (errs !! p_label p)) →
  data_failures round.*1 errs = O → ∀ p e, (p, e) ∈ round → p_isNode p = true → e = None.
Proof.
  intros H Hd p e Hin Hn. destruct e as [e|]; [|done]. exfalso. unfold data_failures in Hd.
  apply length_zero_iff_nil in Hd. eapply (not_elem_of_nil p). rewrite <-Hd.
  apply list_elem_of_filter. split; [split; [done|by eapply H]|]. apply list_elem_of_fmap. by exists (p, Some e).
Qed.

Section wait_lemmas.
Context {W E : Type} `{!Net W E}.

(** The last round of a wait that reports success. *)
Definition last_round (ps : list process) (required : Z) (w' : W) : Prop :=
  ∃ w answers, n_round ((fun p => (p_isNode p, p_address p)) <$> ps) w = (answers, w') ∧
               round_healthy required (judged ps answers).

Lemma wait_loop_healthy fuel k order ps replicas required expected deadline interval (w : W) d h n w' :
  (∀ k, order k ≡ₚ seq 0 (length ps)) → replicas = Z.of_nat (length (filter (fun p => p_isNode p = false) ps)) →
  wait_loop (E := E) fuel k order ps replicas required expected deadline interval w = (Some (WaitHealthy d h n), w') →
  d = expected ∧ required ≤ h ∧ last_round ps required w'.
Proof using Type.
  intros Ho Hr. revert k w. induction fuel as [|fuel IH]; intros k w; [done|]. cbn [wait_loop]. unfold probeAll.
  destruct (n_round _ w) as [answers w1] eqn:Hround. set (errs := foldl _ _ _).
  destruct (bool_decide (data_failures ps errs = O) && _) eqn:Hb.
  2:{ destruct (deadline <? n_now w1); [done|]. apply IH. }
  intros [= <- <- <- <-]. apply andb_true_iff in Hb as [Hd%bool_decide_eq_true Hq%Z.leb_le].
  split; [done|]. split; [done|]. exists w, answers. split; [done|].
  assert (∀ p e, (p, Some e) ∈ judged ps answers → is_Some (errs !! p_label p)) as Herrs.
  { intros p e (i & Hi & He)%elem_of_judged. apply record_failures. right. exists i, p. split_and!; [|done|done|congruence].
    rewrite Ho. apply elem_of_seq. apply lookup_lt_Some in Hi. lia. }
  rewrite <-(judged_fst ps answers) in Hd. split; [by apply data_failures_0 with errs|].
  pose proof (replica_count _ _ Herrs) as Hc. rewrite judged_fst in Hc. subst replicas. lia.
Qed.
End wait_lemmas.

Lemma filter_all {A} (P : Prop) `{!Decision P} (l : list A) : P → filter (fun _ => P) l = l.
Proof. intros HP. induction l as [|a l IH]; [done|]. by rewrite filter_cons, decide_True, IH. Qed.
Lemma filter_none {A} (P : Prop) `{!Decision P} (l : list A) : ¬ P → filter (fun _ => P) l = [].
Proof. intros HP. induction l as [|a l IH]; [done|]. by rewrite filter_cons, decide_False, IH. Qed.

Lemma processes_replicas cfg target :
  filter (fun p => p_isNode p = false) (processes cfg target) =
  (fun r => MkProcess ("controlplane:" +:+ cp_NodeID r) (cp_Address r) false) <$> cf_ControlPlanes cfg.
Proof.
  unfold processes. rewrite filter_app, !list_filter_fmap. cbn [p_isNode].
  by rewrite filter_all, filter_none, app_nil_r.
Qed.

Lemma processes_nodes cfg target :
  filter (fun p => p_isNode p = true) (processes cfg target) =
  (fun n => MkProcess (nd_NodeID n) (nd_Address n) true) <$>
    filter (fun n => target = "" ∨ nd_NodeID n = target) (cf_Nodes cfg).
Proof.
  unfold processes. rewrite filter_app, !list_filter_fmap. cbn [p_isNode].
  by rewrite filter_none, filter_all.
Qed.

(** The data services a wait probes, against the number it reports. *)
Lemma probed_nodes cfg target :
  NoDup (NodeIDs cfg) →
  length (filter (fun p => p_isNode p = true) (processes cfg target)) =
  if bool_decide (target = "") then length (cf_Nodes cfg)
  else if bool_decide (target ∈ NodeIDs cfg) then 1%nat else O.
Proof.
  unfold NodeIDs. intros Hnd. rewrite processes_nodes, length_fmap. case_bool_decide as Ht.
  { subst. clear Hnd. induction (cf_Nodes cfg) as [|n l IH]; [done|].
    rewrite filter_cons, decide_True by by left. cbn [length]. by rewrite IH. }
  induction (cf_Nodes cfg) as [|n l IH]; [done|]. rewrite fmap_cons, NoDup_cons in Hnd. destruct Hnd as [Hn Hnd].
  rewrite filter_cons. specialize (IH Hnd). destruct (decide (nd_NodeID n = target)) as [Heq|Hne].
  - rewrite decide_True by by right. cbn [length]. rewrite IH, bool_decide_eq_false_2 by congruence.
    rewrite bool_decide_eq_true_2; [done|]. rewrite fmap_cons, Heq. left.
  - rewrite decide_False by tauto. rewrite IH.
    rewrite (bool_decide_ext (target ∈ nd_NodeID <$> l) (target ∈ nd_NodeID <$> n :: l)); [done|].
    rewrite fmap_cons, elem_of_cons. naive_solver.
Qed.

(** ** Flags *)

Lemma ids_steps raws seen ids seen' ids' :
  foldM ids_step (seen, ids) raws = Ok (seen', ids') →
  (∀ id, id ∈ seen ↔ id ∈ ids) → NoDup ids → Forall (fun id => id ≠ "") ids →
  ids' = ids ++ (TrimSpace <$> raws) ∧ NoDup ids' ∧ Forall (fun id => id ≠ "") ids'.
Proof.
  revert seen ids. induction raws as [|raw raws IH]; intros seen ids H Hseen Hnd Hne; cbn [foldM] in H.
  { injection H as <- <-. by rewrite app_nil_r. }
  apply result_bind_Ok in H as ([seen1 ids1] & Hs & H). unfold ids_step in Hs. inv_ok. simplify_eq.
  rewrite negb_true_iff, bool_decide_eq_false in *. rewrite bool_decide_eq_true in *.
  apply IH in H as (-> & ? & ?).
  - split_and!; [by rewrite <-app_assoc|done..].
  - intros id. rewrite elem_of_union, elem_of_app, elem_of_singleton, list_elem_of_singleton, Hseen. tauto.
  - apply NoDup_app. split; [done|]. split; [|apply NoDup_singleton].
    intros id Hid ->%list_elem_of_singleton. by apply Hseen in Hid.
  - apply Forall_app. split; [done|]. by constructor.
Qed.

Lemma ids_steps_Ok raws seen ids :
  (∀ id, id ∈ seen ↔ id ∈ ids) → NoDup (ids ++ (TrimSpace <$> raws)) →
  Forall (fun raw => TrimSpace raw ≠ "") raws →
  ∃ seen', foldM ids_step (seen, ids) raws = Ok (seen', ids ++ (TrimSpace <$> raws)).
Proof.
  revert seen ids. induction raws as [|raw raws IH]; intros seen ids Hseen Hnd Hne; cbn [foldM fmap list_fmap].
  { exists seen. by rewrite app_nil_r. }
  apply Forall_cons in Hne as [Hr Hne]. cbn [fmap list_fmap] in Hnd.
  assert (TrimSpace raw ∉ seen) as Hns.
  { rewrite Hseen. apply NoDup_app in Hnd as (_ & Hd & _). intros Hin. apply (Hd _ Hin). left. }
  assert (ids_step (seen, ids) raw = Ok ({[TrimSpace raw]} ∪ seen, ids ++ [TrimSpace raw])) as ->.
  { unfold ids_step. by rewrite (bool_decide_eq_false_2 (TrimSpace raw = "")), bool_decide_eq_true_2. }
  cbn [mbind result_bind].
  destruct (IH ({[TrimSpace raw]} ∪ seen) (ids ++ [TrimSpace raw])) as [seen' Hs].
  - intros id. rewrite elem_of_union, elem_of_app, elem_of_singleton, list_elem_of_singleton, Hseen. tauto.
  - by rewrite <-app_assoc.
  - done.
  - exists seen'. rewrite Hs, <-app_assoc. done.
Qed.

Lemma parseNodeIDs_Ok text ids :
  parseNodeIDs text = Ok ids → StronglySorted String.le ids ∧ NoDup ids ∧ Forall (fun id => id ≠ "") ids.
Proof.
  unfold parseNodeIDs. case_bool_decide; [intros [= <-]; by split_and!; constructor|].
  intros ([seen l] & Hfold & [= <-])%result_bind_Ok.
  destruct (ids_steps _ _ _ _ _ Hfold) as (_ & Hnd & Hne); [set_solver|constructor|constructor|].
  unfold sort_strings. split; [apply merge_sort_StronglySorted; apply _|].
  by rewrite merge_sort_Permutation.
Qed.

Lemma fmap_TrimSpace ids :
  Forall (fun id => Forall addr_char (bytes_of_string id)) ids → TrimSpace <$> ids = ids.
Proof.
  induction 1 as [|id ids Hid _ IH]; [done|]. cbn. rewrite IH, TrimSpace_graphic; [done|].
  eapply Forall_impl; [exact Hid|]. by intros b [? _].
Qed.

Lemma concat_graphic ids :
  Forall (fun id => Forall addr_char (bytes_of_string id)) ids → Forall graphic (bytes_of_string (String.concat "," ids)).
Proof.
  assert (∀ id, Forall addr_char (bytes_of_string id) → Forall graphic (bytes_of_string id)) as Hg.
  { intros id H. eapply Forall_impl; [exact H|]. by intros b [? _]. }
  induction 1 as [|id ids Hid _ IH]; [constructor|]. destruct ids as [|id' ids]; [by apply Hg|].
  change (String.concat "," (id :: id' :: ids)) with (id +:+ ("," +:+ String.concat "," (id' :: ids))).
  rewrite !bytes_of_string_app, !Forall_app. split; [by apply Hg|]. split; [|done].
  constructor; [unfold graphic; by vm_compute|constructor].
Qed.

Lemma parse_concat ids :
  ids ≠ [] → NoDup ids → Forall (fun id => id ≠ "" ∧ Forall addr_char (bytes_of_string id)) ids →
  parseNodeIDs (String.concat "," ids) = Ok (sort_strings ids).
Proof.
  intros Hne Hnd Hids. apply Forall_and in Hids as [Hne' Hch]. unfold parseNodeIDs.
  pose proof (Split_comma_concat ids Hne Hch) as Hsplit. rewrite TrimSpace_graphic by by apply concat_graphic.
  rewrite bool_decide_eq_false_2.
  2:{ intros He. rewrite He in Hsplit. change (Split_comma "") with [""] in Hsplit. subst ids.
      apply Forall_cons in Hne' as [Hnil _]. by destruct Hnil. }
  rewrite Hsplit. destruct (ids_steps_Ok ids ∅ []) as [seen Hs]; [set_solver|by rewrite fmap_TrimSpace| |].
  { apply Forall_forall. intros id Hin. rewrite Forall_forall in Hne', Hch. rewrite TrimSpace_graphic; [by apply Hne'|].
    eapply Forall_impl; [by apply Hch|]. by intros b [? _]. }
  by rewrite Hs, fmap_TrimSpace.
Qed.

(** ** Time *)

Class NetClock (W E : Type) `{!Net W E} : Prop := {
  sleep_clock : ∀ d (w : W), n_now w + d ≤ n_now (n_sleep d w);
  dial_clock : ∀ a (w : W), n_now w ≤ n_now (n_dial a w).2;
  round_clock : ∀ l (w : W), n_now w ≤ n_now (n_round l w).2;
  fetch_rpc_clock : ∀ a (w : W), n_now w ≤ n_now (n_fetch a w).2;
  shardMap_clock : ∀ a (w : W), n_now w ≤ n_now (n_shardMap a w).2
}.

Section time.
Context {W E : Type} `{!Net W E, !NetClock W E}.

Lemma fetch_from_clock addresses firstErr (w : W) : n_now w ≤ n_now (fetch_from addresses firstErr w).2.
Proof using All.
  revert firstErr w. induction addresses as [|a l IH]; intros f w; cbn [fetch_from]; [cbn; lia|].
  pose proof (dial_clock a w). destruct (n_dial a w) as [[e|] w1]; cbn in *; [etransitivity; [done|apply IH]|].
  pose proof (fetch_rpc_clock a w1). destruct (n_fetch a w1) as [[s|e] w2]; cbn in *; [lia|].
  etransitivity; [|apply IH]. lia.
Qed.

Lemma observe_loop_clock addresses l t n firstErr (w : W) : n_now w ≤ n_now (observe_loop addresses l t n firstErr w).2.
Proof using All.
  revert l t n firstErr w. induction addresses as [|a addresses IH]; intros l t n f w; cbn [observe_loop]; [cbn; lia|].
  pose proof (dial_clock a w). destruct (n_dial a w) as [[e|] w1]; cbn in *; [etransitivity; [done|apply IH]|].
  pose proof (shardMap_clock a w1). destruct (n_shardMap a w1) as [[s|e] w2]; cbn [snd] in *.
  2:{ etransitivity; [|apply IH]. lia. }
  repeat case_bool_decide; cbn [orb snd]; try lia; try (etransitivity; [|apply IH]; lia).
  destruct (negb _); cbn [snd]; [lia|]. etransitivity; [|apply IH]. lia.
Qed.

(** The polls left before the deadline has passed. *)
Definition polls_left (deadline interval : Z) (k : nat) (w : W) : Prop := deadline - n_now w < interval * Z.of_nat k.

Lemma polls_left_sleep deadline interval k (w w1 : W) :
  0 < interval → polls_left deadline interval (S k) w → n_now w ≤ n_now w1 →
  polls_left deadline interval k (n_sleep interval w1).
Proof using All. unfold polls_left. intros Hd H Hw. pose proof (sleep_clock interval w1). lia. Qed.

Lemma polls_left_0 deadline interval (w w1 : W) :
  polls_left deadline interval 0 w → n_now w ≤ n_now w1 → (deadline <? n_now w1) = true.
Proof using Type. unfold polls_left. intros H Hw. apply Z.ltb_lt. lia. Qed.

Lemma wait_loop_ends fuel attempt order ps replicas required expected deadline interval k (w : W) :
  0 < interval → polls_left deadline interval k w → (k < fuel)%nat →
  is_Some (wait_loop (E := E) fuel attempt order ps replicas required expected deadline interval w).1.
Proof using All.
  intros Hd. revert attempt k w. induction fuel as [|fuel IH]; intros attempt k w Hk Hf; [lia|]. cbn [wait_loop].
  unfold probeAll. pose proof (round_clock ((fun p => (p_isNode p, p_address p)) <$> ps) w) as Hc.
  destruct (n_round _ w) as [answers w1]. cbn [snd] in Hc. destruct (_ && _); [done|]. destruct k as [|k].
  - by rewrite (polls_left_0 _ _ _ _ Hk Hc).
  - destruct (deadline <? n_now w1); [done|]. apply (IH _ k); [by eapply polls_left_sleep|lia].
Qed.

Lemma topology_loop_ends fuel attempt range cfg expected present absent g deadline interval k (w : W) :
  0 < interval → polls_left deadline interval k w → (k < fuel)%nat →
  is_Some (topology_loop (E := E) fuel attempt range cfg expected present absent g deadline interval w).1.
Proof using All.
  intros Hd. revert attempt k w. induction fuel as [|fuel IH]; intros attempt k w Hk Hf; [lia|]. cbn [topology_loop].
  unfold probeTopology, fetchFromAnyReplica. pose proof (fetch_from_clock (ControlPlaneAddresses cfg) None w) as Hc.
  assert (∀ e w1, n_now w ≤ n_now w1 →
    is_Some (if deadline <? n_now w1 then (Some (Err e), w1) else
      topology_loop (E := E) fuel (S attempt) range cfg expected present absent g deadline interval (n_sleep interval w1)).1) as H.
  { intros e w1 Hw. destruct k as [|k]; [by rewrite (polls_left_0 _ _ _ _ Hk Hw)|].
    destruct (deadline <? n_now w1); [done|]. apply (IH _ k); [by eapply polls_left_sleep|lia]. }
  destruct (fetch_from _ _ w) as [[[s a]|[a e]] w1]; cbn [snd] in Hc; [|by apply H].
  destruct (judge_topology _ _ _ _ _ _ _); [done|by apply H].
Qed.

Lemma leader_loop_ends fuel cfg from min deadline interval k (w : W) :
  0 < interval → polls_left deadline interval k w → (k < fuel)%nat →
  is_Some (leader_loop (E := E) fuel cfg from min deadline interval w).1.
Proof using All.
  intros Hd. revert k w. induction fuel as [|fuel IH]; intros k w Hk Hf; [lia|]. cbn [leader_loop].
  unfold observeLeader. pose proof (observe_loop_clock (ControlPlaneAddresses cfg) "" 0 0 None w) as Hc.
  destruct (observe_loop _ _ _ _ _ w) as [r w1]. cbn [snd] in Hc. destruct (judge_leader _ _ _ _); [done|].
  destruct k as [|k]; [by rewrite (polls_left_0 _ _ _ _ Hk Hc)|].
  destruct (deadline <? n_now w1); [done|]. apply (IH k); [by eapply polls_left_sleep|lia].
Qed.

Lemma polls_left_init budget interval (w : W) :
  0 < interval → polls_left (n_now w + budget) interval (Z.to_nat (budget / interval) + 1) w.
Proof using Type.
  intros Hd. unfold polls_left. pose proof (Z.mod_pos_bound budget _ Hd). pose proof (Z.div_mod budget interval).
  destruct (Z.le_gt_cases 0 (budget / interval)); nia.
Qed.
End time.

(** ** Properties *)

(** A topology probe is exact: whichever replica answered and whatever order the
    node map is ranged in, the probe accepts a snapshot if and only if its generation
    is recent enough, its shard count is the configured one, no node that must be
    absent is live, and either the live nodes are exactly the expected set and the
    shard map is exactly the router's assignment of them, or — with
    [--expect-present] — the named nodes are live. *)
Theorem topology_probe_exact {W E} `{!Net W E} range controlPlanes shardCount expected present absent minGeneration
    (w w1 : W) s address
  (Hrange : ∀ m, range m ≡ₚ (map_to_list m).*1)
  (Hfetch : fetchFromAnyReplica (E := E) controlPlanes w = (Ok (s, address), w1)) :
  (probeTopology (E := E) range controlPlanes shardCount expected present absent minGeneration w).1 = Ok () ↔
  minGeneration ≤ Generation s ∧ ShardCount s = shardCount ∧
  (∀ id, id ∈ absent → Nodes s !! id = None) ∧
  (if decide (present = [])
   then dom (Nodes s) = list_to_set expected ∧ ShardMap s = AssignShards expected shardCount
   else ∀ id, id ∈ present → is_Some (Nodes s !! id)).
Proof. unfold probeTopology. rewrite Hfetch. cbn [fst]. by apply judge_topology_Ok. Qed.

(** The bounded shard map comparison is still exact: the description is empty if and
    only if the two maps are equal, whatever the limit; it never has more than
    [limit + 1] lines; and what it lists are the lowest differing shards, in order. *)
Theorem shard_map_differences_exact got want limit :
  (shardMapDifferences got want limit = [] ↔ got = want) ∧
  (0 ≤ limit → Z.of_nat (length (shardMapDifferences got want limit)) ≤ limit + 1) ∧
  (0 ≤ limit → ∃ more, shardMapDifferences got want limit =
     (describe got want <$> take (Z.to_nat limit) (differing got want)) ++ more ∧
     (more = [] ∨ more = [MoreShards (length (differing got want) - Z.to_nat limit)])).
Proof.
  split; [apply shardMapDifferences_nil|].
  assert (0 ≤ limit → shown limit (differing got want) = take (Z.to_nat limit) (differing got want)) as Hshown.
  { intros Hl. unfold shown. rewrite (proj2 (Z.leb_le _ _) Hl). cbn [andb].
    destruct (Z.ltb_spec limit (Z.of_nat (length (differing got want)))); [done|]. rewrite take_ge; [done|lia]. }
  unfold shardMapDifferences. fold (shown limit (differing got want)).
  assert (0 ≤ limit → (length (shown limit (differing got want)) < length (differing got want))%nat →
          length (shown limit (differing got want)) = Z.to_nat limit) as Hlen.
  { intros Hl. rewrite Hshown by done. rewrite length_take. lia. }
  split; intros Hl.
  - rewrite length_app, length_fmap, Hshown, length_take by done. destruct (bool_decide _); cbn [length]; lia.
  - eexists. split; [by rewrite Hshown|]. rewrite <-Hshown by done.
    case_bool_decide as Hlt; [right|by left]. by rewrite Hlen.
Qed.

(** The two leader observers agree: the smoke tool's sequential sweep with early
    returns names a leader and term exactly when the chaos verifier's summary of the
    same answers does, and both name the same one and count the same replicas. *)
Theorem observe_leader_equiv {W E} `{!Net W E} {F} addresses (w : W) (obs : list (replicaObservation F)) l t n
  (Hsame : same_answers (sweep addresses w).1 obs)
  (Hleader : l ≠ "") :
  (observeLeader (E := E) addresses w).1 = Ok (l, t, n) ↔
  lc_agreed (summarizeLeader obs) = true ∧ lc_leader (summarizeLeader obs) = l ∧
  lc_term (summarizeLeader obs) = t ∧ lc_reachable (summarizeLeader obs) = n.
Proof.
  unfold observeLeader. rewrite observe_loop_spec by done.
  destruct (summarize_spec obs) as (-> & Hagreed & Hu & _).
  destruct (same_answers_uniform _ _ l t Hsame) as [Hn Huni]. rewrite <-Hn. cbn [Nat.add]. split.
  - intros (Hun & -> & Hne & _). assert (uniform l t (answers obs)) as Hlt by (by apply Huni).
    assert (lc_agreed (summarizeLeader obs) = true) as Ha by (apply Hagreed; eauto).
    destruct (uniform_unique _ _ _ _ _ (Hu Ha) Hlt) as [? ?]. done.
  - intros (Ha & <- & <- & <-). specialize (Hu Ha). apply Huni in Hu as (? & ? & ?). split_and!; try done. 
Qed.

(** C34: a wait that exits 0 saw the cluster up: in its last round every data node it
    probed answered its health check, and at least the required number of replicas
    did; the data services it reports are the ones it probed if and only if no node
    was named or the named node is configured — for an unknown [--node] it probes none
    and still reports one healthy. *)
Theorem wait_verdict {W E} `{!Net W E} fuel order cfg target minControlPlane budget interval (w : W) d h n w'
  (Horder : ∀ k, order k ≡ₚ seq 0 (length (processes cfg target)))
  (Hids : NoDup (NodeIDs cfg))
  (Hrun : runWait (E := E) fuel order cfg target minControlPlane budget interval w = (Some (WaitHealthy d h n), w')) :
  last_round (E := E) (processes cfg target)
    (required_of (Z.of_nat (length (cf_ControlPlanes cfg))) minControlPlane) w' ∧
  (d = length (filter (fun p => p_isNode p = true) (processes cfg target)) ↔ target = "" ∨ target ∈ NodeIDs cfg) ∧
  (target ≠ "" → target ∉ NodeIDs cfg → d = 1%nat ∧ filter (fun p => p_isNode p = true) (processes cfg target) = []).
Proof.
  unfold runWait in Hrun. apply wait_loop_healthy in Hrun as (-> & _ & Hlast); [|done|].
  2:{ by rewrite processes_replicas, length_fmap. }
  split; [done|]. pose proof (probed_nodes cfg target Hids) as Hp. rewrite Hp. split.
  - repeat case_bool_decide; naive_solver.
  - intros Ht Hin. rewrite bool_decide_eq_false_2 in Hp |- * by done. rewrite bool_decide_eq_false_2 in Hp by done.
    split; [done|]. by apply length_zero_iff_nil.
Qed.

(** The three waits end: with a positive interval and a clock that does not go
    back, [budget / interval + 2] polls are enough for each of them to return a
    verdict, whatever the cluster answers. *)
Theorem waits_terminate {W E} `{!Net W E, !NetClock W E} fuel cfg budget interval (w : W)
  (Hinterval : 0 < interval)
  (Hfuel : (Z.to_nat (budget / interval) + 2 ≤ fuel)%nat) :
  (∀ order target min, is_Some (runWait (E := E) fuel order cfg target min budget interval w).1) ∧
  (∀ range expected present absent g,
     is_Some (runTopologyWait (E := E) fuel range cfg expected present absent g budget interval w).1) ∧
  (∀ from min, is_Some (runLeaderWait (E := E) fuel cfg from min budget interval w).1).
Proof.
  pose proof (polls_left_init budget interval w Hinterval) as Hk.
  split_and!; intros.
  - eapply wait_loop_ends; [done|exact Hk|lia].
  - eapply topology_loop_ends; [done|exact Hk|lia].
  - eapply leader_loop_ends; [done|exact Hk|lia].
Qed.

(** Node lists round-trip through the flag: joining distinct, non-empty ids of
    printable characters without commas and parsing the text gives the ids in sorted
    order; and whatever the text, a list that parses is sorted, without duplicates and
    without empty ids. *)
Theorem parse_node_ids_roundtrip ids
  (Hids : NoDup ids)
  (Hchars : Forall (fun id => id ≠ "" ∧ Forall addr_char (bytes_of_string id)) ids) :
  parseNodeIDs (String.concat "," ids) = Ok (sort_strings ids) ∧
  (∀ text parsed, parseNodeIDs text = Ok parsed →
     StronglySorted String.le parsed ∧ NoDup parsed ∧ Forall (fun id => id ≠ "") parsed).
Proof.
  split; [|by apply parseNodeIDs_Ok]. destruct (decide (ids = [])) as [->|Hne]; [done|]. by apply parse_concat.
Qed.

(** ** A simulated network, for the witnesses *)

Module WaitDemo.
Import ChaosDemo.

(** The world is a clock; every service is up, and every replica serves the baseline. *)
Definition shards (s : Snapshot) : GetShardMapResponse :=
  MkShardMapResponse (ShardMap s) (Generation s) (SnapFingerprint s) (ShardCount s) (Some <$> Owners s)
    (ReplicationFactor s) (RaftLeaderID s) (RaftTerm s).
#[global] Instance net : Net Z () := {
  n_now w := w;
  n_sleep d w := w + d;
  n_dial _ w := (None, w);
  n_round _ w := (fun _ => (None, Ok true), w + 1);
  n_nodeList _ w := (Ok (MkNodeListResponse [] 5 []), w + 1);
  n_shardMap _ w := (Ok (shards baseline), w + 1);
  n_fetch _ w := (Ok baseline, w + 1)
}.
#[global] Instance clock : NetClock Z ().
Proof. split; cbn; lia. Qed.

Definition cfg : Config :=
  MkConfig [MkControlPlane "cp-0" "10.0.0.8" 7000 7001 7002; MkControlPlane "cp-1" "10.0.0.9" 7000 7001 7002] "demo" 8
    (MkEngine 1 1 "data") (MkRaft "raft" 100 100 100)
    [MkCfgNode "node-0" "10.0.0.1" 7100 7101; MkCfgNode "node-1" "10.0.0.2" 7100 7101;
     MkCfgNode "node-2" "10.0.0.3" 7100 7101] None 1 "cluster.yaml".
Definition order (target : string) (_ : nat) : list nat := seq 0 (length (processes cfg target)).
Definition keys (m : gmap string string) : list string := (map_to_list m).*1.
Definition observations : list (replicaObservation ()) :=
  (fun a => MkObs a (Ok baseline)) <$> ControlPlaneAddresses cfg.
End WaitDemo.

Lemma topology_probe_exact_witness :
  (probeTopology (E := ()) WaitDemo.keys (ControlPlaneAddresses WaitDemo.cfg) 8 ["node-0"; "node-1"; "node-2"] [] [] 5 0).1 = Ok ().
Proof.
  apply (topology_probe_exact WaitDemo.keys (ControlPlaneAddresses WaitDemo.cfg) 8 ["node-0"; "node-1"; "node-2"] [] [] 5
    0 1 ChaosDemo.baseline "10.0.0.8:7000"); [reflexivity|vm_compute; reflexivity|].
  split; [vm_compute; discriminate|]. split; [reflexivity|]. split; [intros id Hid; by apply not_elem_of_nil in Hid|].
  vm_compute. split; reflexivity.
Defined.

Lemma observe_leader_equiv_witness :
  (observeLeader (E := ()) (ControlPlaneAddresses WaitDemo.cfg) 0).1 = Ok ("cp-0", 3, 2%nat).
Proof.
  apply (observe_leader_equiv (ControlPlaneAddresses WaitDemo.cfg) 0 WaitDemo.observations "cp-0" 3 2).
  - repeat constructor.
  - discriminate.
  - vm_compute. split_and!; reflexivity.
Defined.

(** The third conjunct at an unknown node: nothing was probed, one service is reported. *)
Lemma wait_verdict_witness :
  filter (fun p => p_isNode p = true) (processes WaitDemo.cfg "node-9") = [].
Proof.
  apply (wait_verdict (E := ()) 3 (WaitDemo.order "node-9") WaitDemo.cfg "node-9" 0 10 5 0 1 2 1 1);
    [reflexivity|apply (bool_decide_unpack _); vm_compute; exact I|vm_compute; reflexivity|discriminate|].
  apply (bool_decide_unpack _); vm_compute; exact I.
Defined.

Lemma waits_terminate_witness :
  is_Some (runLeaderWait (E := ()) 4 WaitDemo.cfg "cp-0" 1 10 5 0).1.
Proof. apply (waits_terminate 4 WaitDemo.cfg 10 5 0); [lia|]. vm_compute. lia. Defined.

Lemma parse_node_ids_roundtrip_witness :
  parseNodeIDs "node-2,node-0" = Ok ["node-0"; "node-2"].
Proof.
  assert (Forall (fun id => id ≠ "" ∧ Forall addr_char (bytes_of_string id)) ["node-2"; "node-0"]) as Hc.
  { constructor; [|constructor; [|constructor]]; (split; [discriminate|]); repeat constructor; vm_compute; discriminate. }
  change "node-2,node-0" with (String.concat "," ["node-2"; "node-0"]).
  rewrite (proj1 (parse_node_ids_roundtrip ["node-2"; "node-0"] ltac:(apply (bool_decide_unpack _); vm_compute; exact I) Hc)).
  reflexivity.
Defined.
