(* ===== verification/Values.v ===== *)
(** * Deterministic values

    The generator that the smoke suite ([deterministicValue]) and both benchmarks
    ([valueFor]) derive every test value from, so that a read can be verified byte for
    byte without keeping a copy: xorshift64* seeded by an affine map of the key index.
    The properties are what the comparison rests on: values of the requested length, and
    different values for different keys, so that bytes stored under one key and returned
    for another are always a mismatch. *)

From S2P Require Import Prelude Sha256 Router GoStd.
Local Open Scope Z_scope.

(** [state ^= state >> 12; state ^= state << 25; state ^= state >> 27] on [uint64]. *)
Definition xorshl (k x : Z) : Z := Z.lxor x (u64 (Z.shiftl x k)).
Definition xorshift64 (state : Z) : Z := xorshift 27 (xorshl 25 (xorshift 12 state)).

Fixpoint le_bytes (n : nat) (z : Z) : bytes :=
  match n with O => [] | S n => byte_of_Z z :: le_bytes n (z / 256) end.
(** [binary.LittleEndian.PutUint64] *)
Definition le64 (z : Z) : bytes := le_bytes 8 z.

(** The loop over the buffer: [n] bytes are left, and [copy] writes what fits. *)
Fixpoint fill (blocks : nat) (n : nat) (state : Z) : bytes :=
  match blocks with
  | O => []
  | S blocks =>
      let state := xorshift64 state in
      take n (le64 (u64 (state * 0x2545F4914F6CDD1D))) ++ fill blocks (n - 8) state
  end.

Definition seed_state (seed : Z) : Z :=
  let state := u64 (seed * 2862933555777941757 + 3037000493) in
  if state =? 0 then 1 else state.

Definition deterministicValue (n : nat) (seed : Z) : bytes :=
  fill (Nat.div (n + 7) 8) n (seed_state seed).

(** [valueFor(buf, i)]: the new contents of a buffer of [size] bytes. *)
Definition valueFor (size : nat) (i : Z) : bytes := deterministicValue size (u64 i).

(** [fmt.Sprintf("%s:%08d", prefix, i)] of a non-negative index. *)
Definition pad8 (i : Z) : string :=
  String.string_of_list_byte (replicate (8 - length (Itoa_bytes i)) x30 ++ Itoa_bytes i).
Definition keyFor (prefix : string) (i : Z) : bytes := bytes_of_string (prefix +:+ ":" +:+ pad8 i).

(** ** The step is injective *)

Lemma lxor_eq_shift a b c d : Z.lxor a b = Z.lxor c d → Z.lxor a c = Z.lxor b d.
Proof.
  intros H. apply Z.lxor_eq. rewrite <-(Z.lxor_nilpotent (Z.lxor a b)). rewrite H at 2.
  apply Z.bits_inj'. intros n _. rewrite !Z.lxor_spec.
  destruct (Z.testbit a n), (Z.testbit b n), (Z.testbit c n), (Z.testbit d n); done.
Qed.

Lemma xorshift_inj k x y : 0 < k → in_u64 x → in_u64 y → xorshift k x = xorshift k y → x = y.
Proof.
  intros Hk Hx Hy H%lxor_eq_shift. rewrite <-Z.shiftr_lxor in H. set (d := Z.lxor x y) in *.
  assert (in_u64 d) as [Hd _] by (apply lxor_range; [lia|done|done]).
  apply Z.lxor_eq. fold d. destruct (Z.eq_dec d 0) as [|Hne]; [done|]. exfalso.
  assert (Z.shiftr d k < d); [|lia]. rewrite Z.shiftr_div_pow2 by lia. apply Z.div_lt; [lia|].
  apply Z.pow_gt_1; lia.
Qed.

Lemma u64_testbit x i : 0 ≤ i → Z.testbit (u64 x) i = (i <? 64) && Z.testbit x i.
Proof.
  intros Hi. unfold u64. destruct (Z.ltb_spec i 64).
  - by rewrite Z.mod_pow2_bits_low.
  - by rewrite Z.mod_pow2_bits_high by lia.
Qed.

Lemma xorshl_range k x : in_u64 x → in_u64 (xorshl k x).
Proof. intros Hx. apply lxor_range; [lia|done|]. apply u64_range. Qed.

Lemma xorshl_inj k x y : 0 < k → in_u64 x → in_u64 y → xorshl k x = xorshl k y → x = y.
Proof.
  intros Hk Hx Hy H%lxor_eq_shift.
  assert (∀ i, 0 ≤ i → Z.testbit (Z.lxor x y) i = (i <? 64) && Z.testbit (Z.lxor x y) (i - k)) as Hd.
  { intros i Hi. rewrite H at 1. rewrite !Z.lxor_spec, !u64_testbit, !Z.shiftl_spec by lia.
    by destruct (i <? 64). }
  apply Z.lxor_eq, Z.bits_inj_0. intros i.
  assert (∀ n i, i < Z.of_nat n → Z.testbit (Z.lxor x y) i = false) as Hall.
  { clear i. induction n as [|n IH]; intros i Hi; [apply Z.testbit_neg_r; lia|].
    destruct (Z.lt_ge_cases i 0); [by apply Z.testbit_neg_r|]. rewrite Hd, IH by lia. apply andb_false_r. }
  apply (Hall (Z.to_nat (i + 1))). lia.
Qed.

Lemma xorshift64_range x : in_u64 x → in_u64 (xorshift64 x).
Proof. intros. unfold xorshift64. apply xorshift_range; [lia|]. by apply xorshl_range, xorshift_range. Qed.

Lemma xorshift64_inj x y : in_u64 x → in_u64 y → xorshift64 x = xorshift64 y → x = y.
Proof.
  intros Hx Hy H. unfold xorshift64 in H.
  apply xorshift_inj in H; [|lia|by apply xorshl_range, xorshift_range..].
  apply xorshl_inj in H; [|lia|by apply xorshift_range..]. apply xorshift_inj in H; [done|lia|done|done].
Qed.

Lemma u64_mul_inj a b x y :
  u64 (a * b) = 1 → in_u64 x → in_u64 y → u64 (x * a) = u64 (y * a) → x = y.
Proof. intros Hab Hx Hy H. rewrite <-(u64_mul_cancel a b x), <-(u64_mul_cancel a b y), H by done. done. Qed.

Lemma u64_add_inj c x y : in_u64 x → in_u64 y → u64 (x + c) = u64 (y + c) → x = y.
Proof.
  intros Hx Hy H. assert (u64 (u64 (x + c) + - c) = x) as <-.
  { unfold u64. rewrite Zplus_mod_idemp_l. replace (x + c + - c) with x by lia. by apply Z.mod_small. }
  rewrite H. unfold u64. rewrite Zplus_mod_idemp_l. replace (y + c + - c) with y by lia. by apply Z.mod_small.
Qed.

(** The one seed whose affine image is 0 is above every non-negative [int]. *)
Lemma seed_state_index i :
  0 ≤ i < 2 ^ 63 → seed_state i = u64 (i * 2862933555777941757 + 3037000493).
Proof.
  intros Hi. unfold seed_state. destruct (Z.eqb_spec (u64 (i * 2862933555777941757 + 3037000493)) 0) as [H0|]; [|done].
  exfalso. assert (i = 17295553536498714127); [|lia].
  apply (u64_mul_inj 2862933555777941757 0xdfe66807999cec55); [done|unfold in_u64; lia|unfold in_u64; lia|].
  apply (u64_add_inj 3037000493); [apply u64_range..|].
  assert (∀ z, u64 (u64 z + 3037000493) = u64 (z + 3037000493)) as Hz by (intros z; unfold u64; by rewrite Zplus_mod_idemp_l).
  rewrite !Hz, H0. done.
Qed.

Lemma seed_state_inj i j : 0 ≤ i < 2 ^ 63 → 0 ≤ j < 2 ^ 63 → seed_state i = seed_state j → i = j.
Proof.
  intros Hi Hj. rewrite !seed_state_index by done. intros H.
  apply (u64_mul_inj 2862933555777941757 0xdfe66807999cec55); [done|unfold in_u64; lia|unfold in_u64; lia|].
  apply (u64_add_inj 3037000493); [apply u64_range..|].
  assert (∀ z, u64 (u64 z + 3037000493) = u64 (z + 3037000493)) as Hz by (intros z; unfold u64; by rewrite Zplus_mod_idemp_l).
  by rewrite !Hz.
Qed.

Lemma seed_state_range i : in_u64 (seed_state i).
Proof. unfold seed_state. case_match; [unfold in_u64; lia|apply u64_range]. Qed.

(** ** Bytes *)

Lemma length_le_bytes n z : length (le_bytes n z) = n.
Proof. revert z. induction n as [|n IH]; intros z; [done|]. cbn. by rewrite IH. Qed.

Lemma le_bytes_inj n a b :
  0 ≤ a < 256 ^ Z.of_nat n → 0 ≤ b < 256 ^ Z.of_nat n → le_bytes n a = le_bytes n b → a = b.
Proof.
  revert a b. induction n as [|n IH]; intros a b Ha Hb H; [cbn in *; lia|]. cbn [le_bytes] in H.
  injection H as H0 H1. apply (f_equal byteZ) in H0. rewrite !byteZ_byte_of_Z in H0.
  rewrite Nat2Z.inj_succ, Z.pow_succ_r in Ha, Hb by lia.
  apply IH in H1.
  - pose proof (Z.div_mod a 256). pose proof (Z.div_mod b 256). lia.
  - split; [apply Z.div_pos; lia|]. apply Z.div_lt_upper_bound; lia.
  - split; [apply Z.div_pos; lia|]. apply Z.div_lt_upper_bound; lia.
Qed.

Lemma length_fill blocks n state : (n ≤ 8 * blocks)%nat → length (fill blocks n state) = n.
Proof.
  revert n state. induction blocks as [|blocks IH]; intros n state Hn; [cbn; lia|]. cbn [fill].
  rewrite length_app, length_take. unfold le64. rewrite length_le_bytes, IH by lia. lia.
Qed.

(** A prefix of the stream does not depend on how much of it is asked for. *)
Lemma fill_take blocks blocks' n m state :
  (n ≤ m)%nat → (n ≤ 8 * blocks)%nat → (m ≤ 8 * blocks')%nat →
  fill blocks n state = take n (fill blocks' m state).
Proof.
  revert blocks' n m state. induction blocks as [|blocks IH]; intros blocks' n m state Hnm Hn Hm.
  { assert (n = O) as -> by lia. done. }
  destruct blocks' as [|blocks'].
  { assert (n = O) as -> by lia. apply length_zero_iff_nil. by rewrite length_fill by lia. }
  cbn [fill].
  set (block := le64 _). assert (length block = 8%nat) as Hb by (unfold block, le64; apply length_le_bytes).
  rewrite take_app, length_take, take_take, Hb. f_equal; [f_equal; lia|].
  rewrite (IH blocks' (n - 8)%nat (m - 8)%nat) by lia. f_equal. lia.
Qed.

Lemma blocks_enough n : (n ≤ 8 * Nat.div (n + 7) 8)%nat.
Proof. pose proof (Nat.div_mod_eq (n + 7) 8). pose proof (Nat.mod_upper_bound (n + 7) 8). lia. Qed.

Lemma length_deterministicValue n seed : length (deterministicValue n seed) = n.
Proof. apply length_fill, blocks_enough. Qed.

Lemma first_word n state :
  (8 ≤ n)%nat → take 8 (fill (Nat.div (n + 7) 8) n state) = le64 (u64 (xorshift64 state * 0x2545F4914F6CDD1D)).
Proof.
  intros Hn. rewrite <-(fill_take 1 _ 8 n) by (lia || apply blocks_enough). cbn [fill].
  rewrite app_nil_r. apply take_ge. unfold le64. by rewrite length_le_bytes.
Qed.

Lemma deterministicValue_inj n i j :
  (8 ≤ n)%nat → 0 ≤ i < 2 ^ 63 → 0 ≤ j < 2 ^ 63 → deterministicValue n i = deterministicValue n j → i = j.
Proof.
  intros Hn Hi Hj H. unfold deterministicValue in H. apply (f_equal (take 8)) in H. rewrite !first_word in H by done.
  apply (le_bytes_inj 8) in H; [|apply u64_range..].
  apply (u64_mul_inj 0x2545F4914F6CDD1D 0x59071d96d81ecd35) in H; [|done|apply xorshift64_range, seed_state_range..].
  apply xorshift64_inj in H; [|apply seed_state_range..]. by apply seed_state_inj.
Qed.

(** ** Keys *)

Lemma parse_zeros k l a : parse_digits a (replicate k x30 ++ l) = parse_digits (a * 10 ^ Z.of_nat k) l.
Proof.
  revert a. induction k as [|k IH]; intros a; [cbn; by rewrite Z.mul_1_r|].
  cbn [replicate app parse_digits]. change (digit_val x30) with (Some 0). cbn.
  rewrite IH. f_equal. rewrite Nat2Z.inj_succ, Z.pow_succ_r by lia. lia.
Qed.

Lemma pad8_inj i j : 0 ≤ i → 0 ≤ j → pad8 i = pad8 j → i = j.
Proof.
  intros Hi Hj H. unfold pad8 in H. apply (f_equal bytes_of_string) in H. unfold bytes_of_string in H.
  rewrite !String.list_byte_of_string_of_list_byte in H. apply (f_equal (parse_digits 0)) in H.
  rewrite !parse_zeros in H. unfold Itoa_bytes in H.
  rewrite (proj2 (Z.ltb_ge i 0)), (proj2 (Z.ltb_ge j 0)) in H by done.
  rewrite !Z.mul_0_l, !parse_nat_digits in H by done. congruence.
Qed.

Lemma keyFor_inj prefix i j : 0 ≤ i → 0 ≤ j → keyFor prefix i = keyFor prefix j → i = j.
Proof.
  intros Hi Hj H. apply bytes_of_string_inj in H. apply pad8_inj; [done..|].
  assert (∀ s t u : string, s +:+ t = s +:+ u → t = u) as Hc.
  { intros s t u. induction s as [|c s IH]; [done|]. cbn. intros [= H1]. by apply IH. }
  apply Hc in H. by apply Hc in H.
Qed.

(** ** Properties *)

(** The comparison of a read is conclusive: every value has the size the run asked
    for, and for sizes of at least eight bytes two different key indices never have the
    same key or the same value; so bytes written under one index and returned for
    another are always caught as a mismatch. *)
Theorem values_identify_keys prefix size i j
  (Hsize : (8 ≤ size)%nat)
  (Hi : 0 ≤ i < 2 ^ 63) (Hj : 0 ≤ j < 2 ^ 63) :
  length (valueFor size i) = size ∧
  (valueFor size i = valueFor size j ↔ i = j) ∧ (keyFor prefix i = keyFor prefix j ↔ i = j).
Proof.
  unfold valueFor. rewrite !u64_id by (unfold in_u64; lia). split; [apply length_deterministicValue|]. split.
  - split; [by apply deterministicValue_inj|by intros ->].
  - split; [apply keyFor_inj; lia|by intros ->].
Qed.

Lemma values_identify_keys_witness : valueFor 16 3 ≠ valueFor 16 4 ∧ keyFor "bench" 3 ≠ keyFor "bench" 4.
Proof.
  destruct (values_identify_keys "bench" 16 3 4) as (_ & H1 & H2); [lia|lia|lia|].
  split; [intros H; apply H1 in H; discriminate|intros H; apply H2 in H; discriminate].
Defined.

