(* ===== verification/Smoke.v ===== *)
(** * The smoke suite (cmd/pulsekv-smoke/main.go, [--mode=smoke])

    The assertions the suite makes on a live cluster and the reporter that turns them
    into an exit code.  What a check makes of the answers it got is a pure function
    returning its problems (a constructor per message); the checks themselves are
    programs over a world ([SmokeNet]) that extends the network of [SmokeWait] with the
    data-plane RPCs by address and the SDK.  The theorems say exactly which answers each
    check passes.  A run also keeps the list of the calls it made with the world each was
    made in ([r_seen], which no check reads), so that what a run that exits 0 has seen is
    stated of its own calls, by their positions.  [SmokeUp] is a cluster the suite passes,
    [SmokeDemo] one it fails. *)

From S2P Require Import Prelude Sha256 Router Topology GoStd Json Transport Client Config.
From S2P Require Import ChaosOracle ChaosCoherence SmokeWait Values.
Local Open Scope Z_scope.

(** ** The network *)

Inductive code := InvalidArgument | FailedPrecondition | OutOfRange | Unimplemented | OtherCode (n : Z).
#[export] Instance code_eq_dec : EqDecision code.
Proof. solve_decision. Defined.

(** A [PrefixMatchResponse]. *)
Record prefixMessage := MkPrefix { pm_key : string; pm_value : bytes; pm_omitted : bool }.

Class SmokeNet (W E : Type) `{!Net W E} := {
  s_status : E → option (code * string);                          (* status.FromError; None is a non-gRPC error *)
  s_nonce : W → string;                                           (* the pid and the clock of a key prefix *)
  s_cpHealth : string → W → result E (bool * Z) * W;              (* ok, uptime_seconds *)
  s_adapter : string → W → option E * W;                          (* AdapterService.HealthCheck *)
  s_nodeHealth : string → W → result E (bool * string * Z) * W;   (* ok, node_id, uptime_seconds *)
  s_get : string → bytes → W → result E (bool * bytes) * W;       (* found, value *)
  s_put : string → bytes → bytes → W → option E * W;
  s_putChunked : string → list Chunk → W → option E * W;          (* open, send until refused, CloseAndRecv *)
  s_getChunked : string → bytes → W → result E (list (result E Chunk)) * W;
  s_prefixMatch : string → string → W → result E (list (result E prefixMessage)) * W;
  s_capacity : string → W → result E (Z * Z * Z) * W;             (* resident_keys, ram and nvme bytes *)
  s_newSDK : W → option E * W;
  s_sdkPut : bytes → bytes → W → option E * W;
  s_sdkGet : bytes → W → result E (option bytes) * W;
  s_sdkPutWithAck : bytes → bytes → Z → W → result E Z * W
}.

(** ** The reporter *)

Section problems.
Context {E : Type}.

Inductive problem :=
| Rpc (e : E) | TopologyFetch (e : fetch_error E)
| OkFalse | NegativeUptime (s : Z) | WrongNodeID (id : string)
| GenerationZero | FingerprintLength (n : nat)
| UnexpectedNode (id : string) | DuplicateNode (id : string) | WrongAddress (id got want : string)
| MissingNode (id : string) | NotAlive (ids : list string)
| GenerationDiffers (got nodes : Z) | FingerprintDiffers
| WrongCount (got want : Z) | WrongEntries (got : nat) (want : Z)
| ShardOutOfRange (shard : Z) | UnknownOwner (shard : Z) (owner : string) | OwnsNoShards (id : string)
| MapDiffersAt (p : map_problem)
| NotRejected (want : code) | NonGRPC | WrongCode (want got : code) | MessageLacks (substr : string)
| TooFewLive (n : nat) | NoOwnerForKey (shard : Z)
| NotFound | WrongContents (len : nat) | FoundUnexpectedly
| NoOwnerMaps | OwnersDiffer (shard : Z) | PrimaryDisagrees (shard : Z) | HasReplicas (shard : Z) (n : nat)
| NoFullShard | NoSampleKey | DidNotConverge_ (attempts : nat) (e : E) | Undercounted (acked acks : Z)
| HolderNoAddress (id : string) | HolderProblem (id : string) (p : problem)
| NothingResident | NoBytes | ChunksOnMiss
| MissingSmall | MissingBig | OutOfNamespace (key : string) | NotOmitted | OmittedButInlined
| StoredAfterReject (keys : list string)
| WrongChunk (got want : Z).
End problems.
Arguments problem E : clear implicits.

(** A result with no problems is a pass. *)
Definition check (E : Type) : Type := string * list (problem E).

Definition failed {E} (results : list (check E)) : nat :=
  length (filter (fun c => c.2 ≠ []) results).
(** [report]: the exit code. *)
Definition report {E} (results : list (check E)) : Z := if bool_decide (0 < failed results)%nat then 1 else 0.

(** [strings.Contains] *)
Fixpoint contains (sub l : bytes) : bool :=
  bool_decide (sub `prefix_of` l) || match l with [] => false | _ :: l => contains sub l end.
Definition Contains (s sub : string) : bool := contains (bytes_of_string sub) (bytes_of_string s).

(** [wantCode]: the problems of a call that must fail. *)
Definition wantCode {W E} `{!Net W E, !SmokeNet W E} (err : option E) (want : code) (substr : string) : list (problem E) :=
  match err with
  | None => [NotRejected want]
  | Some e =>
      match s_status (W := W) e with
      | None => [NonGRPC]
      | Some (c, message) =>
          if bool_decide (c ≠ want) then [WrongCode want c]
          else if bool_decide (substr ≠ "") && negb (Contains message substr) then [MessageLacks substr]
          else []
      end
  end.

(** ** The state of a run *)

Section checks.
Context {W E : Type} `{!Net W E, !SmokeNet W E}.

(** A call the run made, and the world it was made in. *)
Record asked := MkAsked { as_type : Type; as_call : W → as_type * W; as_world : W }.
(** The world, and the results so far.  [r_seen] lists the calls made so far, for the
    theorems to speak of what a run has seen: no check reads it. *)
Record run_state := MkRun { r_world : W; r_results : list (check E); r_seen : list asked }.
Definition act (A : Type) : Type := run_state → A * run_state.
#[global] Instance act_ret : MRet act := fun A a s => (a, s).
#[global] Instance act_bind : MBind act := fun A B f m s => let '(a, s) := m s in f a s.

Definition call {A} (f : W → A * W) : act A := fun s =>
  let '(a, w) := f (r_world s) in (a, MkRun w (r_results s) (r_seen s ++ [MkAsked A f (r_world s)])).
Definition view_world {A} (f : W → A) : act A := fun s => (f (r_world s), s).
(** [r.pass] and [r.fail]: a result with its problems. *)
Definition record (name : string) (problems : list (problem E)) : act () := fun s =>
  ((), MkRun (r_world s) (r_results s ++ [(name, problems)]) (r_seen s)).
Definition pass (name : string) : act () := record name [].
Definition fail (name : string) (p : problem E) : act () := record name [p].

Fixpoint for_each {A} (f : A → act ()) (l : list A) : act () :=
  match l with [] => mret () | a :: l => _ ← f a; for_each f l end.

(** ** checkControlPlane *)

(** The [switch] of both HealthCheck assertions; [id] is what a node must call itself. *)
Definition health_problems (id : option string) (r : result E (bool * string * Z)) : list (problem E) :=
  match r with
  | Err e => [Rpc e]
  | Ok (ok, nodeID, uptime) =>
      if negb ok then [OkFalse]
      else if match id with Some id => bool_decide (nodeID ≠ id) | None => false end then [WrongNodeID nodeID]
      else if uptime <? 0 then [NegativeUptime uptime] else []
  end.

(** The getters of a possibly nil node. *)
Definition info_of (n : option NodeInfo) : string * string * bool :=
  match n with Some n => (NodeId n, NodeAddress n, Alive n) | None => ("", "", false) end.

(** One turn of the loop over [resp.GetNodes()]: problems, dead ids and seen ids. *)
Definition node_turn (want : gmap string string) (acc : list (problem E) * list string * gset string)
    (n : option NodeInfo) : list (problem E) * list string * gset string :=
  let '(problems, dead, seen) := acc in
  let '(id, address, alive) := info_of n in
  match want !! id with
  | None => (problems ++ [UnexpectedNode id], dead, seen)
  | Some wantAddr =>
      if bool_decide (id ∈ seen) then (problems ++ [DuplicateNode id], dead, seen)
      else
        (problems ++ (if bool_decide (address ≠ wantAddr) then [WrongAddress id address wantAddr] else []),
         dead ++ (if alive then [] else [id]), {[id]} ∪ seen)
  end.

Definition config_addresses (cfg : Config) : gmap string string :=
  foldl (fun m n => <[nd_NodeID n := nd_Address n]> m) ∅ (cf_Nodes cfg).

(** The problems of GetNodeList; they are sorted as text only to be printed, so their
    order here is that of the loops. *)
Definition node_list_problems (cfg : Config) (resp : GetNodeListResponse) : list (problem E) :=
  let want := config_addresses cfg in
  let fp := nl_TopologyFingerprint resp in
  let p0 := (if nl_TopologyGeneration resp =? 0 then [GenerationZero] else []) ++
            (if bool_decide (length fp ≠ FingerprintSize) then [FingerprintLength (length fp)] else []) in
  let '(problems, dead, seen) := foldl (node_turn want) (p0, [], ∅) (nl_Nodes resp) in
  problems ++
  (MissingNode <$> filter (fun id => id ∉ seen) (map_to_list want).*1) ++
  (if bool_decide (dead = []) then [] else [NotAlive (sort_strings dead)]).

(** One entry of the shard map. *)
Definition shard_entry_problems (cfg : Config) (entry : Z * string) : list (problem E) :=
  (if cf_ShardCount cfg <=? entry.1 then [ShardOutOfRange entry.1] else []) ++
  (if bool_decide (entry.2 ∉ NodeIDs cfg) then [UnknownOwner entry.1 entry.2] else []).

Definition shard_map_problems (cfg : Config) (nodeGeneration : Z) (nodeFingerprint : bytes)
    (resp : GetShardMapResponse) : list (problem E) :=
  let got := sm_ShardToNodeId resp in
  let want := AssignShards (NodeIDs cfg) (cf_ShardCount cfg) in
  (if negb (sm_TopologyGeneration resp =? nodeGeneration)
   then [GenerationDiffers (sm_TopologyGeneration resp) nodeGeneration] else []) ++
  (if bool_decide (sm_TopologyFingerprint resp ≠ nodeFingerprint) then [FingerprintDiffers] else []) ++
  (if negb (sm_ShardCount resp =? cf_ShardCount cfg) then [WrongCount (sm_ShardCount resp) (cf_ShardCount cfg)] else []) ++
  (if negb (u32 (Z.of_nat (size got)) =? cf_ShardCount cfg) then [WrongEntries (size got) (cf_ShardCount cfg)] else []) ++
  (map_to_list got ≫= shard_entry_problems cfg) ++
  (OwnsNoShards <$> filter (fun id => u32 (Z.of_nat (length (cf_Nodes cfg))) ≤ cf_ShardCount cfg ∧
                                      id ∉ (map_to_list got).*2) (NodeIDs cfg)) ++
  (MapDiffersAt <$> shardMapDifferences got want 5).

(** [nodeGeneration] and [nodeFingerprint] keep their zero values when GetNodeList
    fails. *)
Definition checkControlPlane (cfg : Config) (cp : string) : act () :=
  h ← call (s_cpHealth cp);
  _ ← record "controlplane/HealthCheck"
        (health_problems None (match h with Ok (ok, up) => Ok (ok, "", up) | Err e => Err e end));
  nl ← call (n_nodeList cp);
  _ ← record "controlplane/GetNodeList"
        (match nl with Err e => [Rpc e] | Ok resp => node_list_problems cfg resp end);
  let '(generation, fingerprint) :=
    match nl with Ok resp => (nl_TopologyGeneration resp, nl_TopologyFingerprint resp) | Err _ => (0, []) end in
  sm ← call (n_shardMap cp);
  _ ← record "controlplane/GetShardMap"
        (match sm with Err e => [Rpc e] | Ok resp => shard_map_problems cfg generation fingerprint resp end);
  adapter ← call (s_adapter cp);
  record "controlplane/AdapterService.HealthCheck" (wantCode (W := W) adapter Unimplemented "").

(** ** checkRouting *)

Definition nonHolder (shard : Z) (s : Snapshot) (sortedIDs : list string) : string :=
  let holders : gset string := {[owner_at (ShardMap s) shard]} ∪ list_to_set (Snapshot_Replicas s shard) in
  default "" (List.find (fun id => bool_decide (id ∉ holders)) sortedIDs).

Inductive sample_error := CountNotPositive | NoOwners | OnlyOwners (found want : nat) | OnlyKeys (found want : nat).

Definition maxCandidates : nat := Z.to_nat 1000000.

(** The first loop: distinct owners; the candidates left, the next one, the owners seen
    and the keys. *)
Fixpoint distinct_owners (fuel : nat) (prefix : string) (shardCount : Z) (shardMap : gmap Z string)
    (wantDistinct : nat) (candidate : Z) (seen : gset string) (keys : list bytes)
    : nat * Z * gset string * list bytes :=
  match fuel with
  | O => (O, candidate, seen, keys)
  | S fuel' =>
      if bool_decide (size seen < wantDistinct)%nat then
        let key := numbered prefix candidate in
        match OwnerForKey key shardCount shardMap with
        | None => distinct_owners fuel' prefix shardCount shardMap wantDistinct (candidate + 1) seen keys
        | Some owner =>
            if bool_decide (owner ∈ seen)
            then distinct_owners fuel' prefix shardCount shardMap wantDistinct (candidate + 1) seen keys
            else distinct_owners fuel' prefix shardCount shardMap wantDistinct (candidate + 1)
                   ({[owner]} ∪ seen) (keys ++ [key])
        end
      else (fuel, candidate, seen, keys)
  end.

(** The second loop: keys with any owner, up to the sample count. *)
Fixpoint more_keys (fuel : nat) (prefix : string) (shardCount : Z) (shardMap : gmap Z string)
    (count : nat) (candidate : Z) (keys : list bytes) : list bytes :=
  match fuel with
  | O => keys
  | S fuel =>
      if bool_decide (length keys < count)%nat then
        let key := numbered prefix candidate in
        more_keys fuel prefix shardCount shardMap count (candidate + 1)
          (match OwnerForKey key shardCount shardMap with Some _ => keys ++ [key] | None => keys end)
      else keys
  end.

Definition routingSampleKeys (prefix : string) (count : Z) (shardCount : Z) (shardMap : gmap Z string)
    : result sample_error (list bytes) :=
  if count <=? 0 then Err CountNotPositive else
  let owners : gset string := list_to_set (filter (fun o => o ≠ "") (map_to_list shardMap).*2) in
  if bool_decide (size owners = O) then Err NoOwners else
  let wantDistinct := Nat.min (Z.to_nat count) (size owners) in
  let '(fuel, candidate, seen, keys) :=
    distinct_owners maxCandidates prefix shardCount shardMap wantDistinct 0 ∅ [] in
  if bool_decide (size seen < wantDistinct)%nat then Err (OnlyOwners (size seen) wantDistinct) else
  let keys := more_keys fuel prefix shardCount shardMap (Z.to_nat count) candidate keys in
  if negb (bool_decide (length keys = Z.to_nat count)) then Err (OnlyKeys (length keys) (Z.to_nat count)) else Ok keys.

(** The three [switch]es on what the reads of one sample key returned. *)
Definition sdk_get_problems (value : bytes) (r : result E (option bytes)) : list (problem E) :=
  match r with
  | Err e => [Rpc e]
  | Ok None => [NotFound]
  | Ok (Some got) => if bool_decide (got ≠ value) then [WrongContents (length got)] else []
  end.
Definition holder_problems (value : bytes) (r : result E (bool * bytes)) : list (problem E) :=
  match r with
  | Err e => [Rpc e]
  | Ok (found, got) =>
      if negb found then [NotFound]
      else if bool_decide (got ≠ value) then [WrongContents (length got)] else []
  end.
Definition miss_problems (r : result E (bool * bytes)) : list (problem E) :=
  match r with
  | Err e => [Rpc e]
  | Ok (found, _) => if found then [FoundUnexpectedly] else []
  end.

(** One sample key, once its owner and a non-holder are known. *)
Definition routing_key (s : Snapshot) (key value : bytes) (owner other : string) : act (list (problem E)) :=
  putErr ← call (s_sdkPut key value);
  match putErr with
  | Some e => mret [Rpc e]
  | None =>
      got ← call (s_sdkGet key);
      ownerResp ← call (s_get (default "" (Nodes s !! owner)) key);
      otherResp ← call (s_get (default "" (Nodes s !! other)) key);
      mret (sdk_get_problems value got ++ (HolderProblem owner <$> holder_problems value ownerResp) ++
            (HolderProblem other <$> miss_problems otherResp))
  end.

Definition key_name (i : nat) : string := "routing/key[" +:+ Itoa (Z.of_nat i) +:+ "]".

Definition routing_sample (cfg : Config) (s : Snapshot) (nodeIDs : list string) (i : nat) (key : bytes) : act () :=
  let shard := ShardForKey key (cf_ShardCount cfg) in
  match OwnerForKey key (cf_ShardCount cfg) (ShardMap s) with
  | None => fail (key_name i) (NoOwnerForKey shard)
  | Some owner =>
      let other := nonHolder shard s nodeIDs in
      if bool_decide (other = "") then pass (key_name i) else
      let value := deterministicValue (256 + i * 37) (101 + Z.of_nat i) in
      problems ← routing_key s key value owner other;
      record (key_name i) problems
  end.

(** The first dial error of the direct connections; [range] orders the node map. *)
Fixpoint dial_nodes (nodes : list (string * string)) : act (option (string * E)) :=
  match nodes with
  | [] => mret None
  | (id, address) :: rest =>
      err ← call (n_dial address);
      match err with Some e => mret (Some (id, e)) | None => dial_nodes rest end
  end.

Definition routingSampleCount : Z := 6.

Definition checkRouting (range : gmap string string → list (string * string)) (cfg : Config) (cp : string) : act () :=
  t ← call (n_fetch cp);
  match t with
  | Err e => fail "routing/live metadata" (TopologyFetch e)
  | Ok s =>
      let differences := shardMapDifferences (ShardMap s) (AssignShards (NodeIDs cfg) (cf_ShardCount cfg)) 5 in
      if negb (bool_decide (differences = [])) then record "routing/live metadata" (MapDiffersAt <$> differences)
      else if bool_decide (size (Nodes s) < 2)%nat then fail "routing/live metadata" (TooFewLive (size (Nodes s)))
      else
        _ ← pass "routing/live metadata";
        err ← call s_newSDK;
        match err with
        | Some e => fail "routing/client.New" (Rpc e)
        | None =>
            nonce ← view_world s_nonce;
            match routingSampleKeys ("smoke:routing:" +:+ nonce) routingSampleCount (cf_ShardCount cfg) (ShardMap s) with
            | Err _ => fail "routing/sample keys" NoSampleKey
            | Ok keys =>
                bad ← dial_nodes (range (Nodes s));
                match bad with
                | Some (id, e) => fail "routing/direct dial" (HolderProblem id (Rpc e))
                | None => for_each (fun '(i, key) => routing_sample cfg s (sortedNodeIDs (Nodes s)) i key)
                            (imap (fun i key => (i, key)) keys)
                end
            end
        end
  end.

(** ** checkReplication *)

(** The placement loop: the first shard that is not the router's. *)
Definition owners_at (m : gmap Z ShardOwners) (shard : Z) : ShardOwners := default (MkShardOwners "" []) (m !! shard).

Definition owners_problem (s : Snapshot) (want : gmap Z ShardOwners) (shard : Z) : option (problem E) :=
  let got := owners_at (Owners s) shard in
  let w := owners_at want shard in
  if bool_decide (Primary got ≠ Primary w) || bool_decide (Replicas got ≠ Replicas w) then Some (OwnersDiffer shard)
  else if bool_decide (Primary got ≠ owner_at (ShardMap s) shard) then Some (PrimaryDisagrees shard)
  else None.

Fixpoint first_problem {A} (f : A → option (problem E)) (l : list A) : option (problem E) :=
  match l with
  | [] => None
  | a :: l => match f a with Some p => Some p | None => first_problem f l end
  end.

(** Retries while the primary refuses with INVALID_ARGUMENT, for ten seconds. *)
Fixpoint ack_loop (fuel attempt : nat) (deadline : Z) (key value : bytes) (acks : Z) : act (option (result (problem E) Z)) :=
  match fuel with
  | O => mret None
  | S fuel =>
      r ← call (s_sdkPutWithAck key value acks);
      match r with
      | Ok acked => mret (Some (Ok acked))
      | Err e =>
          if bool_decide (fst <$> s_status (W := W) e ≠ Some InvalidArgument) then mret (Some (Err (Rpc e))) else
          now ← view_world n_now;
          if deadline <? now then mret (Some (Err (DidNotConverge_ attempt e))) else
          _ ← call (fun w => ((), n_sleep 100000000 w));
          ack_loop fuel (S attempt) deadline key value acks
      end
  end.
Definition putWithAckConverging (fuel : nat) (key value : bytes) (acks : Z) : act (option (result (problem E) Z)) :=
  now ← view_world n_now;
  ack_loop fuel 1 (now + 10000000000) key value acks.

(** The direct read of each holder. *)
Fixpoint read_holders (s : Snapshot) (key value : bytes) (holders : list string) : act (list (problem E)) :=
  match holders with
  | [] => mret []
  | holder :: rest =>
      let address := default "" (Nodes s !! holder) in
      if bool_decide (address = "")
      then ps ← read_holders s key value rest; mret (HolderNoAddress holder :: ps)
      else
        err ← call (n_dial address);
        match err with
        | Some e => ps ← read_holders s key value rest; mret (HolderProblem holder (Rpc e) :: ps)
        | None =>
            r ← call (s_get address key);
            ps ← read_holders s key value rest;
            mret ((HolderProblem holder <$> holder_problems value r) ++ ps)
        end
  end.

Definition smoke_keyForShard (prefix : string) (want shardCount : Z) : option bytes :=
  key_search prefix want shardCount maxCandidates 0.

(** The strong-ack proof on one fully replicated shard. *)
Definition replication_proof (fuel : nat) (cfg : Config) (s : Snapshot) (chosen : Z) : act (option ()) :=
  let owners := owners_at (Owners s) chosen in
  nonce ← view_world s_nonce;
  let prefix := "smoke:replication:" +:+ nonce in
  match smoke_keyForShard prefix chosen (cf_ShardCount cfg) with
  | None => _ ← fail "replication/sample key" NoSampleKey; mret (Some ())
  | Some key =>
      let value := deterministicValue (Z.to_nat 8192) 41 in
      let acks := u32 (Z.of_nat (length (Replicas owners))) in
      r ← putWithAckConverging fuel key value acks;
      match r with
      | None => mret None
      | Some (Err p) => _ ← fail "replication/PutWithAck" p; mret (Some ())
      | Some (Ok acked) =>
          if acked <? acks then _ ← fail "replication/PutWithAck" (Undercounted acked acks); mret (Some ()) else
          _ ← pass "replication/PutWithAck";
          problems ← read_holders s key value (Primary owners :: Replicas owners);
          _ ← record "replication/direct replica reads" problems;
          if negb (bool_decide (problems = [])) then mret (Some ()) else
          match smoke_keyForShard (prefix +:+ ":over") chosen (cf_ShardCount cfg) with
          | None => _ ← fail "replication/over-ack sample key" NoSampleKey; mret (Some ())
          | Some overKey =>
              over ← call (s_sdkPutWithAck overKey value (u32 (acks + 1)));
              _ ← record "replication/PutWithAck(too many acks)"
                    (wantCode (W := W) (match over with Ok _ => None | Err e => Some e end) InvalidArgument "replica");
              mret (Some ())
          end
      end
  end.

(** [None] is the retry loop still running. *)
Definition checkReplication (fuel : nat) (cfg : Config) (cp : string) : act (option ()) :=
  let shards := seqZ 0 (cf_ShardCount cfg) in
  t ← call (n_fetch cp);
  match t with
  | Err e => _ ← fail "replication/live metadata" (TopologyFetch e); mret (Some ())
  | Ok s =>
      if bool_decide (Owners s = ∅) then _ ← fail "replication/live metadata" NoOwnerMaps; mret (Some ()) else
      let liveFactor := ReplicationFactor s in   (* a uint32, for which the assignment is total *)
      let want := default ∅ (AssignShardOwners (NodeIDs cfg) (cf_ShardCount cfg) liveFactor) in
      match first_problem (owners_problem s want) shards with
      | Some p => _ ← fail "replication/live metadata" p; mret (Some ())
      | None =>
          _ ← pass "replication/live metadata";
          if liveFactor =? 0 then
            _ ← record "replication/factor 0"
                  (match List.find (fun sh => negb (bool_decide (Replicas (owners_at (Owners s) sh) = []))) shards with
                   | Some sh => [HasReplicas sh (length (Replicas (owners_at (Owners s) sh)))]
                   | None => []
                   end);
            mret (Some ())
          else
            err ← call s_newSDK;
            match err with
            | Some e => _ ← fail "replication/client.New" (Rpc e); mret (Some ())
            | None =>
                match List.find (fun sh => Z.of_nat (length (Replicas (owners_at (Owners s) sh))) =? liveFactor) shards with
                | None => _ ← fail "replication/shard selection" NoFullShard; mret (Some ())
                | Some chosen => replication_proof fuel cfg s chosen
                end
            end
      end
  end.

(** ** checkNode *)

(** [putChunked]'s frames, and [getChunked], which checks only the indices. *)
Definition chunk_total (value : bytes) (chunkSize : Z) : Z :=
  let total := (blen value + chunkSize - 1) `quot` chunkSize in
  if total =? 0 then 1 else total.
Definition chunk_frame (key value : bytes) (chunkSize total i : Z) : Chunk :=
  let lo := i * chunkSize in
  let hi := if blen value <? lo + chunkSize then blen value else lo + chunkSize in
  MkChunk (if i =? 0 then key else []) (u32 i) (u32 total) (u64 (blen value)) (slice_bytes value lo hi).
Definition chunk_frames (key value : bytes) (chunkSize : Z) : list Chunk :=
  let total := chunk_total value chunkSize in
  chunk_frame key value chunkSize total <$> seqZ 0 total.

Fixpoint collect (next : Z) (found : bool) (out : bytes) (recvs : list (result E Chunk))
    : result (problem E) (bytes * bool) :=
  match recvs with
  | [] => Ok (out, found)
  | Err e :: _ => Err (Rpc e)
  | Ok c :: recvs =>
      if negb (ch_Index c =? next) then Err (WrongChunk (ch_Index c) next)
      else collect (u32 (next + 1)) true (out ++ ch_Data c) recvs
  end.
Definition smoke_getChunked (open : result E (list (result E Chunk))) : result (problem E) (bytes * bool) :=
  match open with Err e => Err (Rpc e) | Ok recvs => collect 0 false [] recvs end.

Section node.
Context (cfg : Config) (id address : string).
Definition node_ns : string := "smoke:" +:+ id +:+ ":".
Definition node_key (s : string) : bytes := bytes_of_string (node_ns +:+ s).
Definition small_value : bytes := deterministicValue (Z.to_nat 4096) 1.
Definition large_value : bytes := deterministicValue (Z.to_nat (6 * 1024 * 1024)) 3.
Definition unaryValueLimit : Z := UnaryValueLimit.

Definition node_health : act () :=
  r ← call (s_nodeHealth address);
  record (id +:+ "/HealthCheck") (health_problems (Some id) r).

Definition node_put_get : act () :=
  err ← call (s_put address (node_key "small") small_value);
  match err with
  | Some e => fail (id +:+ "/Put") (Rpc e)
  | None => r ← call (s_get address (node_key "small")); record (id +:+ "/Put+Get") (holder_problems small_value r)
  end.

Definition node_get_miss : act () :=
  r ← call (s_get address (node_key "never-written"));
  record (id +:+ "/Get(miss)") (miss_problems r).

(** The overwrite check compares the value without asking whether it was found. *)
Definition node_overwrite : act () :=
  let replacement := deterministicValue (Z.to_nat 777) 2 in
  err ← call (s_put address (node_key "small") replacement);
  match err with
  | Some e => fail (id +:+ "/Put(overwrite)") (Rpc e)
  | None =>
      r ← call (s_get address (node_key "small"));
      record (id +:+ "/Put(overwrite)")
        (match r with
         | Err e => [Rpc e]
         | Ok (_, got) => if bool_decide (got ≠ replacement) then [WrongContents (length got)] else []
         end)
  end.

Definition err_of {A} (r : result E A) : option E := match r with Ok _ => None | Err e => Some e end.

Definition node_rejections : act () :=
  r ← call (s_get address []);
  _ ← record (id +:+ "/Get(empty key)") (wantCode (W := W) (err_of r) InvalidArgument "key");
  err ← call (s_put address (node_key "too-big-unary") (replicate (Z.to_nat (unaryValueLimit + 1)) x00));
  record (id +:+ "/Put(>4MiB)") (wantCode (W := W) err InvalidArgument "PutChunked").

Definition chunked_problems (value : bytes) (r : result (problem E) (bytes * bool)) : list (problem E) :=
  match r with
  | Err p => [p]
  | Ok (got, found) =>
      if negb found then [NotFound]
      else if bool_decide (got ≠ value) then [WrongContents (length got)] else []
  end.

Definition node_chunked : act () :=
  err ← call (s_putChunked address (chunk_frames (node_key "big") large_value (1024 * 1024)));
  match err with
  | Some e => fail (id +:+ "/PutChunked") (Rpc e)
  | None =>
      open ← call (s_getChunked address (node_key "big"));
      record (id +:+ "/PutChunked+GetChunked") (chunked_problems large_value (smoke_getChunked open))
  end.

Definition node_chunked_refusals : act () :=
  r ← call (s_get address (node_key "big"));
  _ ← record (id +:+ "/Get(>4MiB stored)") (wantCode (W := W) (err_of r) FailedPrecondition "GetChunked");
  open ← call (s_getChunked address (node_key "also-never-written"));
  record (id +:+ "/GetChunked(miss)")
    (match smoke_getChunked open with
     | Err p => [p]
     | Ok (got, found) => if found || negb (bool_decide (got = [])) then [ChunksOnMiss] else []
     end).

(** The streams of [checkChunkedRejections], with the code and word each must be refused with. *)
Definition bad_streams : list (string * list Chunk * code * string) :=
  let d s := bytes_of_string s in
  [("/PutChunked(out of order)",
      [MkChunk (node_key "bad1") 0 2 8 (d "1234"); MkChunk [] 5 2 8 (d "5678")], InvalidArgument, "chunk_index");
   ("/PutChunked(short stream)",
      [MkChunk (node_key "bad2") 0 3 12 (d "1234")], InvalidArgument, "declared");
   ("/PutChunked(data > total_length)",
      [MkChunk (node_key "bad3") 0 1 2 (d "far too much")], InvalidArgument, "total_length");
   ("/PutChunked(length mismatch)",
      [MkChunk (node_key "bad4") 0 2 8 (d "1234"); MkChunk [] 1 2 8 (d "56")], InvalidArgument, "total_length");
   ("/PutChunked(no key)", [MkChunk [] 0 1 4 (d "1234")], InvalidArgument, "key");
   ("/PutChunked(> max-value-bytes)",
      [MkChunk (node_key "bad5") 0 1 (u64 (en_MaxValueBytes (cf_Engine cfg) + 1)) (d "x")], OutOfRange, "max-value-bytes");
   ("/PutChunked(key changed)",
      [MkChunk (node_key "bad6") 0 2 8 (d "1234"); MkChunk (node_key "other") 1 2 8 (d "5678")], InvalidArgument, "different key")].

Definition rejected_keys : list string :=
  ["bad1"; "bad2"; "bad3"; "bad4"; "bad5"; "bad6"; "other"; "too-big-unary"].

(** The keys whose read returned a value. *)
Fixpoint stored_keys (keys : list string) : act (list string) :=
  match keys with
  | [] => mret []
  | k :: keys =>
      r ← call (s_get address (node_key k));
      rest ← stored_keys keys;
      mret (match r with Ok (true, _) => k :: rest | _ => rest end)
  end.

Definition checkChunkedRejections : act () :=
  _ ← for_each (fun '(name, frames, want, word) =>
                  err ← call (s_putChunked address frames);
                  record (id +:+ name) (wantCode (W := W) err want word)) bad_streams;
  stored ← stored_keys rejected_keys;
  record (id +:+ "/rejected writes stored nothing") (if bool_decide (stored = []) then [] else [StoredAfterReject stored]).

Definition node_capacity : act () :=
  r ← call (s_capacity address);
  record (id +:+ "/Capacity")
    (match r with
     | Err e => [Rpc e]
     | Ok (keys, ram, nvme) =>
         if keys =? 0 then [NothingResident] else if u64 (ram + nvme) =? 0 then [NoBytes] else []
     end).

(** The stream of PrefixMatch, keyed by key; a receive error ends the check. *)
Fixpoint collect_prefix (seen : gmap string prefixMessage) (recvs : list (result E prefixMessage))
    : result E (gmap string prefixMessage) :=
  match recvs with
  | [] => Ok seen
  | Err e :: _ => Err e
  | Ok m :: recvs => collect_prefix (<[pm_key m := m]> seen) recvs
  end.

Definition HasPrefix (s prefix : string) : bool := bool_decide (bytes_of_string prefix `prefix_of` bytes_of_string s).

Definition prefix_problems (seen : gmap string prefixMessage) : list (problem E) :=
  (if bool_decide (is_Some (seen !! (node_ns +:+ "small"))) then [] else [MissingSmall]) ++
  (if bool_decide (is_Some (seen !! (node_ns +:+ "big"))) then [] else [MissingBig]) ++
  (OutOfNamespace <$> filter (fun k => HasPrefix k node_ns = false) (map_to_list seen).*1).

Definition node_prefix : act () :=
  open ← call (s_prefixMatch address node_ns);
  match open ≫= collect_prefix ∅ with
  | Err e => fail (id +:+ "/PrefixMatch") (Rpc e)
  | Ok seen =>
      let problems := prefix_problems seen in
      _ ← record (id +:+ "/PrefixMatch") problems;
      if negb (bool_decide (problems = [])) then mret () else
      match seen !! (node_ns +:+ "big") with
      | None => mret ()
      | Some m =>
          record (id +:+ "/PrefixMatch(large value)")
            (if negb (pm_omitted m) then [NotOmitted]
             else if negb (bool_decide (pm_value m = [])) then [OmittedButInlined] else [])
      end
  end.

Definition checkNode : act () :=
  _ ← node_health;
  _ ← node_put_get;
  _ ← node_get_miss;
  _ ← node_overwrite;
  _ ← node_rejections;
  _ ← node_chunked;
  _ ← node_chunked_refusals;
  _ ← checkChunkedRejections;
  _ ← node_capacity;
  node_prefix.
End node.

(** ** runSmoke *)

Definition check_one_node (cfg : Config) (n : CfgNode) : act () :=
  err ← call (n_dial (nd_Address n));
  match err with
  | Some e => fail (nd_NodeID n +:+ "/dial") (Rpc e)
  | None => checkNode cfg (nd_NodeID n) (nd_Address n)
  end.

(** The suites in order, against the replica that answered; [None] is the retry loop of the
    replication check still running. *)
Definition smoke_suites (fuel : nat) (range : gmap string string → list (string * string)) (cfg : Config) (cp : string)
    : act (option ()) :=
  _ ← checkControlPlane cfg cp;
  _ ← checkRouting range cfg cp;
  done ← checkReplication fuel cfg cp;
  match done with
  | None => mret None
  | Some _ => _ ← for_each (check_one_node cfg) (cf_Nodes cfg); mret (Some ())
  end.

(** The exit code and the results; exit code 1 with no results when no replica answered. *)
Definition runSmoke (fuel : nat) (range : gmap string string → list (string * string)) (cfg : Config) (w : W)
    : option (Z * list (check E)) :=
  match dialAnyReplica (ControlPlaneAddresses cfg) w with
  | (Err _, _) => Some (1, [])
  | (Ok cp, w) =>
      let '(r, s) := smoke_suites fuel range cfg cp (MkRun w [] []) in
      match r with None => None | Some _ => Some (report (r_results s), r_results s) end
  end.
End checks.

(** ** Results *)

Lemma failed_nil {E} (results : list (check E)) : report results = 0 ↔ Forall (fun c => c.2 = []) results.
Proof.
  unfold report, failed. case_bool_decide as H.
  - split; [done|]. intros HF. exfalso. assert (filter (fun c => c.2 ≠ []) results = []) as Hf; [|rewrite Hf in H; cbn in H; lia].
    clear H. induction HF as [|c l Hc _ IH]; [done|]. rewrite filter_cons, decide_False; [done|]. by intros ?.
  - split; [|done]. intros _. apply Forall_forall. intros c Hc. destruct (decide (c.2 = [])) as [|Hne]; [done|]. exfalso.
    apply H. assert (c ∈ filter (fun c => c.2 ≠ []) results) as Hin by (by apply list_elem_of_filter).
    destruct (filter _ results); [by apply not_elem_of_nil in Hin|]. cbn. lia.
Qed.

(** Everything is recorded in order: a check only appends, to the results and to the
    calls. *)
Section growth.
Context {W E : Type} `{!Net W E, !SmokeNet W E}.
Abbreviation act := (act (W := W) (E := E)).

Definition grows {A} (m : act A) : Prop := ∀ s, ∃ ext calls,
  r_results (m s).2 = r_results s ++ ext ∧ r_seen (m s).2 = r_seen s ++ calls.

Lemma grows_same {A} (m : act A) : (∀ s, (m s).2 = s) → grows m.
Proof using Type. intros Hm s. exists [], []. by rewrite Hm, !app_nil_r. Qed.
Lemma grows_ret {A} (a : A) : grows (mret a).
Proof using Type. by apply grows_same. Qed.
Lemma grows_call {A} (f : W → A * W) : grows (call f).
Proof using Type. intros s. unfold call. destruct (f _) as [a w]. exists [], [MkAsked A f (r_world s)]. by rewrite app_nil_r. Qed.
Lemma grows_view {A} (f : W → A) : grows (view_world f).
Proof using Type. by apply grows_same. Qed.
Lemma grows_record name ps : grows (record name ps).
Proof using Type. intros s. exists [(name, ps)], []. by rewrite app_nil_r. Qed.
Lemma grows_pass name : grows (pass name).
Proof using Type. apply grows_record. Qed.
Lemma grows_fail name p : grows (fail name p).
Proof using Type. apply grows_record. Qed.
Lemma grows_bind {A B} (m : act A) (f : A → act B) : grows m → (∀ a, grows (f a)) → grows (m ≫= f).
Proof using Type.
  intros Hm Hf s. unfold mbind, act_bind. destruct (Hm s) as (x & c & Hx & Hc). destruct (m s) as [a s1].
  destruct (Hf a s1) as (y & d & Hy & Hd). exists (x ++ y), (c ++ d). cbn in Hx, Hc. by rewrite Hy, Hd, Hx, Hc, !app_assoc.
Qed.
Lemma grows_for {A} (f : A → act ()) l : (∀ a, grows (f a)) → grows (for_each f l).
Proof using Type. intros Hf. induction l; cbn; [apply grows_ret|]. apply grows_bind; auto. Qed.
End growth.

Create HintDb grows.
Create HintDb evidence.
#[export] Hint Resolve grows_ret grows_call grows_view grows_record grows_pass grows_fail : grows.
Ltac grow :=
  repeat first
    [ progress auto with grows
    | apply grows_bind; [|intros ?]
    | apply grows_for; intros ?
    | match goal with |- grows (match ?x with _ => _ end) => destruct x end
    | match goal with |- grows (if ?x then _ else _) => destruct x end
    | match goal with |- grows (let '(_, _) := ?x in _) => destruct x end ].

Section growing.
Context {W E : Type} `{!Net W E, !SmokeNet W E}.
Abbreviation act := (act (W := W) (E := E)).

Lemma dial_nodes_grows l : grows (dial_nodes l : act _).
Proof using Type. induction l as [|[id a] l IH]; cbn; grow. Qed.
Lemma read_holders_grows s k v l : grows (read_holders s k v l : act _).
Proof using Type. induction l as [|h l IH]; cbn; grow. Qed.
Lemma ack_loop_grows fuel n d k v a : grows (ack_loop fuel n d k v a : act _).
Proof using Type. revert n. induction fuel as [|fuel IH]; intros n; cbn; grow. Qed.
Lemma stored_keys_grows id address l : grows (stored_keys id address l : act _).
Proof using Type. induction l as [|k l IH]; cbn; grow. Qed.
End growing.
#[export] Hint Resolve dial_nodes_grows read_holders_grows ack_loop_grows stored_keys_grows : grows.

Section growing.
Context {W E : Type} `{!Net W E, !SmokeNet W E}.
Abbreviation act := (act (W := W) (E := E)).

Lemma checkRouting_grows range cfg cp : grows (checkRouting range cfg cp : act _).
Proof using Type. unfold checkRouting, routing_sample, routing_key. grow. Qed.
Lemma checkReplication_grows fuel cfg cp : grows (checkReplication fuel cfg cp : act _).
Proof using Type. unfold checkReplication, replication_proof, putWithAckConverging. grow. Qed.
Lemma check_one_node_grows cfg n : grows (check_one_node cfg n : act _).
Proof using Type.
  unfold check_one_node, checkNode, node_health, node_put_get, node_get_miss, node_overwrite, node_rejections,
    node_chunked, node_chunked_refusals, checkChunkedRejections, node_capacity, node_prefix. grow.
Qed.
End growing.
#[export] Hint Resolve checkRouting_grows checkReplication_grows check_one_node_grows : grows.

(** ** The node list check *)

Lemma fold_insert_lookup {A} (f g : A → string) (l : list A) (m : gmap string string) id a :
  NoDup (f <$> l) →
  foldl (fun m n => <[f n := g n]> m) m l !! id = Some a ↔
  (∃ n, n ∈ l ∧ f n = id ∧ g n = a) ∨ (id ∉ f <$> l ∧ m !! id = Some a).
Proof.
  revert m. induction l as [|n l IH]; intros m Hnd; cbn [foldl]; [set_solver|].
  rewrite fmap_cons, NoDup_cons in Hnd. destruct Hnd as [Hn Hnd]. rewrite IH by done. rewrite fmap_cons, not_elem_of_cons.
  setoid_rewrite elem_of_cons. destruct (decide (f n = id)) as [<-|Hne].
  - rewrite lookup_insert_eq. split.
    + intros [(n' & ? & ? & ?)|[_ [= <-]]]; [left; eauto|]. left. exists n. auto.
    + intros [(n' & [->|Hin] & Heq & <-)|[[? _] _]]; [right|left|done].
      * done.
      * exists n'. done.
  - rewrite lookup_insert_ne by done. split.
    + intros [(n' & ? & ? & ?)|[? ?]]; [left; eauto|right; eauto].
    + intros [(n' & [->|Hin] & Heq & <-)|[[_ ?] ?]]; [done|left; eauto|right; eauto].
Qed.

Lemma config_addresses_lookup cfg id a :
  NoDup (NodeIDs cfg) →
  config_addresses cfg !! id = Some a ↔ ∃ n, n ∈ cf_Nodes cfg ∧ nd_NodeID n = id ∧ nd_Address n = a.
Proof.
  intros Hnd. unfold config_addresses. rewrite fold_insert_lookup by done. rewrite lookup_empty. naive_solver.
Qed.

(** The nodes a loop goes through without a complaint. *)
Fixpoint clean (want : gmap string string) (seen : gset string) (l : list (option NodeInfo)) : Prop :=
  match l with
  | [] => True
  | n :: l => want !! (info_of n).1.1 = Some (info_of n).1.2 ∧ (info_of n).1.1 ∉ seen ∧ (info_of n).2 = true ∧
              clean want ({[(info_of n).1.1]} ∪ seen) l
  end.

Lemma node_turns {E} want l (ps : list (problem E)) dead seen ps' dead' seen' :
  foldl (node_turn want) (ps, dead, seen) l = (ps', dead', seen') →
  (ps' = [] ∧ dead' = [] ↔ ps = [] ∧ dead = [] ∧ clean want seen l) ∧
  (clean want seen l → seen' = list_to_set ((fun n => (info_of n).1.1) <$> l) ∪ seen).
Proof.
  revert ps dead seen. induction l as [|n l IH]; intros ps dead seen H; cbn [foldl clean] in *.
  { injection H as <- <- <-. cbn. set_solver. }
  destruct (info_of n) as [[id a] alive] eqn:Hinfo. cbn [fst snd].
  assert (∀ (l : list (problem E)) x, l ++ [x] ≠ []) as Hsnoc by (by intros [|? ?] ?).
  assert (∀ (l : list string) x, l ++ [x] ≠ []) as Hsnoc' by (by intros [|? ?] ?).
  unfold node_turn in H at 2. rewrite Hinfo in H. destruct (want !! id) as [wantAddr|] eqn:Hw.
  2:{ apply IH in H as [H _]. naive_solver. }
  case_bool_decide as Hseen.
  { apply IH in H as [H _]. naive_solver. }
  apply IH in H as [H Hs]. split.
  - rewrite H, app_nil. rewrite app_nil. case_bool_decide; destruct alive; naive_solver.
  - intros (_ & _ & _ & Hc). rewrite (Hs Hc), fmap_cons, Hinfo. cbn. set_solver.
Qed.

Lemma clean_spec want seen l :
  clean want seen l ↔
  NoDup ((fun n => (info_of n).1.1) <$> l) ∧
  ∀ n, n ∈ l → want !! (info_of n).1.1 = Some (info_of n).1.2 ∧ (info_of n).1.1 ∉ seen ∧ (info_of n).2 = true.
Proof.
  revert seen. induction l as [|n l IH]; intros seen; cbn [clean]; [split; [split; [constructor|set_solver]|done]|].
  rewrite IH, fmap_cons, NoDup_cons, list_elem_of_fmap. setoid_rewrite elem_of_cons. split.
  - intros (H1 & H2 & H3 & Hnd & HF). split.
    + split; [|done]. intros (m & Heq & Hm). apply HF in Hm as (_ & Hm & _). set_solver.
    + intros m [->|Hm]; [done|]. apply HF in Hm. set_solver.
  - intros [[Hn Hnd] HF]. destruct (HF n) as (? & ? & ?); [by left|]. split_and!; [done..|].
    intros m Hm. destruct (HF m) as (? & ? & ?); [by right|]. split; [done|]. split; [|done].
    rewrite not_elem_of_union, not_elem_of_singleton. split; [|done]. intros Heq. apply Hn. eauto.
Qed.

Lemma fmap_nil_iff {A B} (f : A → B) l : f <$> l = [] ↔ l = [].
Proof. by destruct l. Qed.

(** The clean lists that miss nobody are the configured nodes, in any order. *)
Lemma clean_permutation cfg l :
  NoDup (NodeIDs cfg) →
  clean (config_addresses cfg) ∅ l ∧
  (∀ id, is_Some (config_addresses cfg !! id) → id ∈ ((fun n => (info_of n).1.1) <$> l)) ↔
  info_of <$> l ≡ₚ (fun n => (nd_NodeID n, nd_Address n, true)) <$> cf_Nodes cfg.
Proof.
  intros Hnd. rewrite clean_spec. split.
  - intros [[Hids Hl] Hall]. apply NoDup_Permutation.
    + eapply (NoDup_fmap_1 (fun x : string * string * bool => x.1.1)). by rewrite <-list_fmap_compose.
    + eapply (NoDup_fmap_1 (fun x : string * string * bool => x.1.1)). by rewrite <-list_fmap_compose.
    + intros [[id a] alive]. rewrite !list_elem_of_fmap. split.
      * intros (n & Hn & Hin). destruct (Hl n Hin) as (Hw & _ & Hal). rewrite <-Hn in Hw, Hal. cbn in *. subst alive.
        apply config_addresses_lookup in Hw as (c & Hc & <- & <-); [|done]. by exists c.
      * intros (c & [= -> -> ->] & Hc).
        assert (config_addresses cfg !! nd_NodeID c = Some (nd_Address c)) as Hw by (apply config_addresses_lookup; eauto).
        destruct (proj1 (list_elem_of_fmap _ _ _) (Hall (nd_NodeID c) (ex_intro _ _ Hw))) as (n & Hid & Hin).
        exists n. split; [|done]. destruct (Hl n Hin) as (Hw' & _ & Hal).
        rewrite <-Hid, Hw in Hw'. destruct (info_of n) as [[i a] al]. cbn in *. congruence.
  - intros Hp. assert (∀ x, x ∈ info_of <$> l ↔ ∃ c, c ∈ cf_Nodes cfg ∧ x = (nd_NodeID c, nd_Address c, true)) as Hx.
    { intros x. rewrite Hp, list_elem_of_fmap. naive_solver. }
    assert ((fun n => (info_of n).1.1) <$> l ≡ₚ NodeIDs cfg) as Hids.
    { apply (fmap_Permutation (fun x : string * string * bool => x.1.1)) in Hp.
      by rewrite <-!list_fmap_compose in Hp. }
    split; [split|].
    + by rewrite Hids.
    + intros n Hn. destruct (proj1 (Hx (info_of n))) as (c & Hc & ->); [apply list_elem_of_fmap; eauto|]. cbn.
      split; [apply config_addresses_lookup; eauto|]. split; [set_solver|done].
    + intros id [a Ha]. apply config_addresses_lookup in Ha as (c & Hc & <- & _); [|done]. rewrite Hids.
      apply list_elem_of_fmap. eauto.
Qed.

Lemma node_list_problems_nil {E} cfg resp :
  NoDup (NodeIDs cfg) →
  node_list_problems (E := E) cfg resp = [] ↔
  nl_TopologyGeneration resp ≠ 0 ∧ length (nl_TopologyFingerprint resp) = FingerprintSize ∧
  info_of <$> nl_Nodes resp ≡ₚ (fun n => (nd_NodeID n, nd_Address n, true)) <$> cf_Nodes cfg.
Proof.
  intros Hnd. unfold node_list_problems. set (want := config_addresses cfg).
  destruct (foldl (node_turn want) _ (nl_Nodes resp)) as [[ps dead] seen] eqn:Hfold.
  apply node_turns in Hfold as [Hps Hseen].
  assert (ps ++ (MissingNode <$> filter (fun id => id ∉ seen) (map_to_list want).*1) ++
          (if bool_decide (dead = []) then [] else [NotAlive (sort_strings dead)]) = [] ↔
          (ps = [] ∧ dead = []) ∧ ∀ id, is_Some (want !! id) → id ∈ seen) as ->.
  { clear Hps Hseen. rewrite !app_nil, fmap_nil_iff. case_bool_decide as Hd.
    - split.
      + intros (-> & Hf & _). split; [done|]. intros id [a Ha]. apply dec_stable. intros Hn.
        apply (not_elem_of_nil id). rewrite <-Hf. apply list_elem_of_filter. split; [done|].
        apply list_elem_of_fmap. exists (id, a). by rewrite elem_of_map_to_list.
      + intros [[-> _] Hall]. split; [done|]. split; [|done]. destruct (filter _ _) as [|id l] eqn:Hf; [done|]. exfalso.
        assert (id ∈ filter (fun id => id ∉ seen) (map_to_list want).*1) as [Hn Hin]%list_elem_of_filter by (rewrite Hf; left).
        apply Hn, Hall. apply list_elem_of_fmap in Hin as ([k a] & -> & Ha%elem_of_map_to_list). by exists a.
    - split; [by intros (_ & _ & ?)|]. by intros [[_ ->] _]. }
  rewrite Hps, app_nil, <-(clean_permutation cfg _ Hnd). fold want.
  destruct (Z.eqb_spec (nl_TopologyGeneration resp) 0) as [Hg|Hg]; [naive_solver|].
  case_bool_decide as Hfp; [naive_solver|]. split.
  - intros [(_ & _ & Hc) Hall]. split_and!; [done..|]. intros id Hid. apply Hall in Hid. rewrite (Hseen Hc) in Hid. set_solver.
  - intros (_ & _ & Hc & Hall). split; [done|]. intros id Hid. rewrite (Hseen Hc). apply Hall in Hid. set_solver.
Qed.

(** ** The shard map check *)

Lemma ranked_head_elem shard ids o : head (ranked_ids shard ids) = Some o → o ∈ ids.
Proof. intros H. rewrite <-(ranked_ids_Permutation shard ids). destruct (ranked_ids shard ids); [done|]. cbn in H. simplify_eq. left. Qed.

Lemma size_AssignShards ids n : ids ≠ [] → 0 ≤ n → Z.of_nat (size (AssignShards ids n)) = n.
Proof.
  intros Hne Hn. rewrite <-size_dom. assert (dom (AssignShards ids n) = list_to_set (seqZ 0 n)) as ->.
  { apply set_eq. intros s. rewrite elem_of_dom, lookup_AssignShards, elem_of_list_to_set, elem_of_seqZ.
    case_decide as Hs; [|split; [by intros []|lia]]. split; [lia|]. intros _.
    pose proof (ranked_ids_Permutation s ids) as Hp. destruct (ranked_ids s ids) as [|o l]; [|done].
    by apply Permutation_nil in Hp. }
  rewrite size_list_to_set by apply NoDup_seqZ. rewrite length_seqZ. lia.
Qed.

Lemma shard_map_problems_nil {E} cfg g fp resp :
  cf_Nodes cfg ≠ [] → 0 < cf_ShardCount cfg < 2 ^ 32 →
  shard_map_problems (E := E) cfg g fp resp = [] ↔
  sm_TopologyGeneration resp = g ∧ sm_TopologyFingerprint resp = fp ∧ sm_ShardCount resp = cf_ShardCount cfg ∧
  sm_ShardToNodeId resp = AssignShards (NodeIDs cfg) (cf_ShardCount cfg) ∧
  (u32 (Z.of_nat (length (cf_Nodes cfg))) ≤ cf_ShardCount cfg →
   ∀ id, id ∈ NodeIDs cfg → ∃ shard, sm_ShardToNodeId resp !! shard = Some id).
Proof.
  intros Hne Hsc. unfold shard_map_problems. rewrite !app_nil, !fmap_nil_iff, shardMapDifferences_nil.
  set (got := sm_ShardToNodeId resp). set (want := AssignShards (NodeIDs cfg) (cf_ShardCount cfg)).
  assert (filter (fun id => u32 (Z.of_nat (length (cf_Nodes cfg))) ≤ cf_ShardCount cfg ∧ id ∉ (map_to_list got).*2)
            (NodeIDs cfg) = [] ↔
          (u32 (Z.of_nat (length (cf_Nodes cfg))) ≤ cf_ShardCount cfg →
           ∀ id, id ∈ NodeIDs cfg → ∃ shard, got !! shard = Some id)) as ->.
  { assert (∀ id, id ∈ (map_to_list got).*2 ↔ ∃ shard, got !! shard = Some id) as Hin.
    { intros id. rewrite list_elem_of_fmap. split.
      - intros ([sh o] & -> & Ho%elem_of_map_to_list). by exists sh.
      - intros [sh Hsh]. exists (sh, id). by rewrite elem_of_map_to_list. }
    setoid_rewrite <-Hin. split.
    - intros Hf Hle id Hid. apply dec_stable. intros Hn. apply (not_elem_of_nil id). rewrite <-Hf.
      by apply list_elem_of_filter.
    - intros H. destruct (filter _ _) as [|id l] eqn:Hf; [done|]. exfalso.
      assert (id ∈ filter (fun id => u32 (Z.of_nat (length (cf_Nodes cfg))) ≤ cf_ShardCount cfg ∧ id ∉ (map_to_list got).*2)
            (NodeIDs cfg)) as [[Hle Hn] Hid]%list_elem_of_filter by (rewrite Hf; left). by apply Hn, H. }
  assert (∀ (b : bool) (x : problem E), (if b then [x] else []) = [] ↔ b = false) as Hif by (by intros []).
  rewrite !Hif, !negb_false_iff, !Z.eqb_eq, bool_decide_eq_false.
  assert (got = want → u32 (Z.of_nat (size got)) = cf_ShardCount cfg ∧ map_to_list got ≫= shard_entry_problems (E := E) cfg = []) as Hrest.
  { intros ->. split.
    - unfold want. rewrite size_AssignShards by (lia || (unfold NodeIDs; by rewrite fmap_nil_iff)). apply u32_id. unfold in_u32. lia.
    - destruct (map_to_list want ≫= _) as [|p ps] eqn:Hb; [done|]. exfalso.
      assert (p ∈ map_to_list want ≫= shard_entry_problems (E := E) cfg) as Hp by (rewrite Hb; left).
      apply list_elem_of_bind in Hp as ([sh o] & Hp & Ho%elem_of_map_to_list). unfold want in Ho.
      rewrite lookup_AssignShards in Ho. case_decide as Hsh; [|done]. apply ranked_head_elem in Ho.
      unfold shard_entry_problems in Hp. cbn [fst snd] in Hp.
      rewrite (proj2 (Z.leb_gt _ _)), bool_decide_eq_false_2 in Hp by (lia || (intros Hx; by apply Hx)).
      by apply not_elem_of_nil in Hp. }
  assert (¬ sm_TopologyFingerprint resp ≠ fp ↔ sm_TopologyFingerprint resp = fp) as -> by (split; [apply dec_stable|intros -> Hx; by apply Hx]).
  naive_solver.
Qed.

(** ** The routing sample *)

Section sample.
Context (prefix : string) (shardCount : Z) (shardMap : gmap Z string).
Abbreviation owner_of k := (OwnerForKey k shardCount shardMap).

(** What both loops keep: the keys are numbered candidates in increasing order, each with
    an owner. *)
Definition sampled (candidate : Z) (keys : list bytes) : Prop :=
  ∃ js, keys = numbered prefix <$> js ∧ StronglySorted Z.lt js ∧ Forall (fun i => 0 ≤ i < candidate) js ∧
        Forall (fun k => is_Some (owner_of k)) keys.
Definition sample_owners (keys : list bytes) : gset string := list_to_set (omap (fun k => owner_of k) keys).

Lemma sampled_nil c : sampled c [].
Proof using Type. exists []. split_and!; constructor. Qed.
Lemma sampled_skip c keys : sampled c keys → sampled (c + 1) keys.
Proof using Type.
  intros (js & -> & Hs & Hr & Ho). exists js. split_and!; [done..| |done]. eapply Forall_impl; [done|]. cbn. lia.
Qed.
Lemma sampled_snoc c keys o : 0 ≤ c → sampled c keys → owner_of (numbered prefix c) = Some o →
  sampled (c + 1) (keys ++ [numbered prefix c]).
Proof using Type.
  intros Hc (js & -> & Hs & Hr & Ho) Hown. exists (js ++ [c]). split_and!.
  - by rewrite fmap_app.
  - apply StronglySorted_app. split_and!; [|done|by repeat constructor].
    intros x y Hx Hy%list_elem_of_singleton. rewrite Forall_forall in Hr. apply Hr in Hx. lia.
  - apply Forall_app. split; [eapply Forall_impl; [done|]; cbn; lia|]. constructor; [lia|done].
  - apply Forall_app. split; [done|]. constructor; [by exists o|done].
Qed.

Lemma distinct_owners_spec fuel want c seen keys f c' seen' keys' :
  distinct_owners fuel prefix shardCount shardMap want c seen keys = (f, c', seen', keys') →
  0 ≤ c → sampled c keys → seen = sample_owners keys → length keys = size seen → (size seen ≤ want)%nat →
  0 ≤ c' ∧ c' + Z.of_nat f = c + Z.of_nat fuel ∧
  sampled c' keys' ∧ seen' = sample_owners keys' ∧ length keys' = size seen' ∧ (size seen' ≤ want)%nat.
Proof using Type.
  revert c seen keys. induction fuel as [|fuel IH]; intros c seen keys H Hc Hs Hseen Hlen Hle; cbn [distinct_owners] in H.
  { simplify_eq. split_and!; auto; lia. }
  case_bool_decide as Hlt; [|simplify_eq; split_and!; auto; lia].
  destruct (owner_of (numbered prefix c)) as [o|] eqn:Ho.
  2:{ apply IH in H as (? & ? & ?); [split_and!; [lia|lia|tauto..]|lia|by apply sampled_skip|done..]. }
  case_bool_decide as Hin.
  { apply IH in H as (? & ? & ?); [split_and!; [lia|lia|tauto..]|lia|by apply sampled_skip|done..]. }
  assert (size ({[o]} ∪ seen) = S (size seen)) as Hsize.
  { rewrite size_union by set_solver. rewrite size_singleton. lia. }
  apply IH in H as (? & ? & ?); [split_and!; [lia|lia|tauto..]|lia|by eapply sampled_snoc| | |].
  - rewrite Hseen. unfold sample_owners. rewrite omap_app. cbn. rewrite Ho. rewrite list_to_set_app_L. cbn. set_solver.
  - rewrite length_app, Hsize. cbn. lia.
  - lia.
Qed.

Lemma more_keys_spec fuel count c keys :
  0 ≤ c → sampled c keys → (length keys ≤ count)%nat →
  sampled (c + Z.of_nat fuel) (more_keys fuel prefix shardCount shardMap count c keys) ∧
  keys `prefix_of` more_keys fuel prefix shardCount shardMap count c keys.
Proof using Type.
  revert c keys. induction fuel as [|fuel IH]; intros c keys Hc Hs Hle; cbn [more_keys].
  { replace (c + Z.of_nat 0) with c by lia. done. }
  case_bool_decide as Hlt.
  - replace (c + Z.of_nat (S fuel)) with (c + 1 + Z.of_nat fuel) by lia.
    destruct (owner_of (numbered prefix c)) as [o|] eqn:Ho.
    + destruct (IH (c + 1) (keys ++ [numbered prefix c])) as [H1 H2]; [lia|by eapply sampled_snoc|rewrite length_app; cbn; lia|].
      split; [done|]. etrans; [|done]. by apply prefix_app_r.
    + apply IH; [lia|by apply sampled_skip|done].
  - split; [|done]. destruct Hs as (js & -> & ? & Hr & ?). exists js. split_and!; try done.
    eapply Forall_impl; [done|]. cbn. lia.
Qed.

Lemma sampled_distinct c keys : c ≤ 2 ^ 63 → sampled c keys → NoDup keys.
Proof using Type.
  intros Hc (js & -> & Hs & Hr & _). apply NoDup_fmap_2_strong.
  - intros i j Hi Hj Heq. rewrite Forall_forall in Hr. apply Hr in Hi, Hj. unfold numbered in Heq.
    apply bytes_of_string_inj in Heq. apply (inj (String.app prefix)) in Heq. injection Heq as Heq.
    apply Itoa_inj; [unfold in_i64; lia..|done].
  - clear Hr. induction Hs as [|i js _ IH HF]; constructor; [|done]. intros Hin. rewrite Forall_forall in HF. apply HF in Hin. lia.
Qed.
End sample.

(** ** The chunked proof *)

Section chunks.
Context (key value : bytes) (chunkSize : Z).
Context (Hcs : 0 < chunkSize).
Abbreviation total := (chunk_total value chunkSize).

Lemma chunk_total_bound :
  1 ≤ total ∧ (blen value = 0 ∧ total = 1 ∨ 0 < blen value ∧ (total - 1) * chunkSize < blen value ≤ total * chunkSize).
Proof using Hcs.
  unfold chunk_total. pose proof (blen_nonneg value) as Hb. rewrite Z.quot_div_nonneg by lia.
  set (q := (blen value + chunkSize - 1) / chunkSize).
  assert (blen value + chunkSize - 1 = chunkSize * q + (blen value + chunkSize - 1) mod chunkSize) as Hd
    by (apply Z.div_mod; lia).
  pose proof (Z.mod_pos_bound (blen value + chunkSize - 1) chunkSize Hcs) as Hm.
  destruct (Z.eqb_spec q 0) as [Hq|Hq].
  - split; [lia|]. left. rewrite Hq in Hd. lia.
  - assert (0 ≤ q) by (apply Z.div_pos; lia). split; [lia|]. destruct (decide (blen value = 0)) as [H0|H0].
    + exfalso. apply Hq. unfold q. rewrite H0. apply Z.div_small. lia.
    + right. split; nia.
Qed.

Lemma chunk_frame_data i : 0 ≤ i < total →
  take (Z.to_nat (i * chunkSize)) value ++ ch_Data (chunk_frame key value chunkSize total i) =
    take (Z.to_nat ((i + 1) * chunkSize)) value.
Proof using Hcs.
  intros Hi. destruct chunk_total_bound as [_ Hb]. cbn [chunk_frame ch_Data]. unfold slice_bytes.
  assert (i * chunkSize ≤ blen value) as Hlo by (destruct Hb as [[? Ht]|[_ ?]]; [rewrite Ht in Hi|]; nia).
  assert (0 ≤ i * chunkSize) by nia. unfold blen in *.
  destruct (Z.ltb_spec (Z.of_nat (length value)) (i * chunkSize + chunkSize)) as [Hlt|Hge].
  - rewrite (take_ge (drop _ value)) by (rewrite length_drop; lia). rewrite take_drop. symmetry. apply take_ge. lia.
  - replace (i * chunkSize + chunkSize - i * chunkSize) with chunkSize by lia.
    replace (Z.to_nat ((i + 1) * chunkSize)) with (Z.to_nat (i * chunkSize) + Z.to_nat chunkSize)%nat by lia.
    apply take_take_drop.
Qed.

Lemma collect_frames {E} n i found : total ≤ 2 ^ 32 - 1 → Z.of_nat n = total - i → 0 ≤ i → (i = 0 ∨ found = true) →
  collect (E := E) i found (take (Z.to_nat (i * chunkSize)) value)
    (Ok <$> (chunk_frame key value chunkSize total <$> seqZ i (Z.of_nat n))) = Ok (value, true).
Proof using Hcs.
  intros Hs. destruct chunk_total_bound as [H1 Hb]. revert i found. induction n as [|n IH]; intros i found Hn Hi Hf.
  - cbn. assert (i = total) as -> by lia. rewrite take_ge; [|unfold blen in *; lia].
    destruct Hf as [?| ->]; [lia|done].
  - rewrite seqZ_cons, !fmap_cons by lia. cbn [collect chunk_frame ch_Index].
    rewrite (u32_id i), Z.eqb_refl by (unfold in_u32; lia). cbn [negb].
    rewrite chunk_frame_data by lia. rewrite u32_id by (unfold in_u32; lia).
    replace (Z.pred (Z.of_nat (S n))) with (Z.of_nat n) by lia. rewrite <-Z.add_1_r. apply IH; [lia|lia|by right].
Qed.
End chunks.

(** At the SDK's frame size the suite sends the SDK's own frames. *)
Lemma chunk_frames_transport key value : 0 < blen value →
  chunk_frames key value ChunkSize = frame key value (total_chunks value) <$> seqZ 0 (total_chunks value).
Proof.
  intros Hpos. unfold chunk_frames.
  assert (chunk_total value ChunkSize = total_chunks value) as ->.
  { destruct (chunk_total_bound value ChunkSize ltac:(done)) as [H1 [[? _]|[_ Hb]]]; [lia|].
    pose proof (total_chunks_bound value Hpos). unfold ChunkSize in *. lia. }
  apply list_fmap_ext. intros k i _. unfold chunk_frame, frame. f_equal. f_equal.
  destruct (Z.ltb_spec (blen value) (i * ChunkSize + ChunkSize)); lia.
Qed.

(** ** What a clean run has seen *)

(** A small program logic over the calls [T] of a whole run: [evidence T lo m P] says that
    [m], begun when [lo] calls had been made, only appends to the results and the calls, and
    that, if the calls it appends are those of [T] and the results are all passes, then the
    number of calls made at its end and its value satisfy [P]. *)
Section evidence.
Context {W E : Type} `{!Net W E, !SmokeNet W E}.
Abbreviation act := (act (W := W) (E := E)).
Context (T : list (asked (W := W))).

Definition passes (results : list (check E)) : Prop := Forall (fun c => c.2 = []) results.
(** The [i]-th call of the run was [f], and this was its answer. *)
Definition answered (i : nat) {A} (f : W → A * W) (a : A) : Prop := ∃ w w', T !! i = Some (MkAsked A f w) ∧ f w = (a, w').

Definition evidence {A} (lo : nat) (m : act A) (P : nat → A → Prop) : Prop := ∀ s, length (r_seen s) = lo → ∃ ext calls,
  r_results (m s).2 = r_results s ++ ext ∧ r_seen (m s).2 = r_seen s ++ calls ∧
  (r_seen (m s).2 `prefix_of` T → passes ext → P (length (r_seen (m s).2)) (m s).1).

Lemma evidence_ret {A} lo (a : A) (P : nat → A → Prop) : P lo a → evidence lo (mret a) P.
Proof using Type. intros HP s <-. exists [], []. by rewrite !app_nil_r. Qed.
Lemma evidence_call {A} lo (f : W → A * W) : evidence lo (call f) (fun hi a => hi = S lo ∧ answered lo f a).
Proof using Type.
  intros s <-. unfold call. destruct (f (r_world s)) as [a w] eqn:Hf. exists [], [MkAsked A f (r_world s)]. cbn. rewrite app_nil_r.
  split; [done|]. split; [done|]. intros [rest HT] _. rewrite length_app, Nat.add_1_r. split; [done|].
  exists (r_world s), w. split; [|done]. rewrite HT, <-app_assoc. by apply list_lookup_middle.
Qed.
Lemma evidence_view {A} lo (f : W → A) : evidence lo (view_world f) (fun hi _ => hi = lo ∧ True).
Proof using Type. intros s <-. exists [], []. by rewrite !app_nil_r. Qed.
Lemma evidence_record lo name ps (P : nat → () → Prop) : (ps = [] → P lo ()) → evidence lo (record name ps) P.
Proof using Type. intros HP s <-. exists [(name, ps)], []. rewrite app_nil_r. split; [done|]. split; [done|]. intros _ H. apply HP. by inversion H. Qed.
Lemma evidence_recorded lo name ps : evidence lo (record name ps) (fun hi _ => hi = lo ∧ ps = []).
Proof using Type. by apply evidence_record. Qed.
Lemma evidence_fail lo name p P : evidence lo (fail name p) P.
Proof using Type. by apply evidence_record. Qed.
Lemma evidence_bind {A B} lo (m : act A) (f : A → act B) (P : nat → A → Prop) (Q : nat → B → Prop) :
  evidence lo m P → (∀ a, grows (f a)) → (∀ a mid, P mid a → evidence mid (f a) Q) → evidence lo (m ≫= f) Q.
Proof using Type.
  intros Hm Hg Hf s Hs. unfold mbind, act_bind. destruct (Hm s Hs) as (x & c & Hx & Hc & HP). destruct (m s) as [a s1]. cbn in Hx, Hc, HP.
  destruct (decide (passes x)) as [Hpass|Hno].
  2:{ destruct (Hg a s1) as (y & d & Hy & Hd). exists (x ++ y), (c ++ d). rewrite Hy, Hd, Hx, Hc, !app_assoc. do 2 (split; [done|]). by intros _ [? _]%Forall_app. }
  destruct (Hg a s1) as (y & d & Hy & Hd). exists (x ++ y), (c ++ d). rewrite Hy, Hd, Hx, Hc, !app_assoc. do 2 (split; [done|]).
  intros Hpre [_ Hp]%Forall_app. assert (r_seen s1 `prefix_of` T) as Hpre1 by (rewrite Hc; etrans; [by eexists|exact Hpre]).
  destruct (Hf a _ (HP Hpre1 Hpass) s1 eq_refl) as (y' & d' & Hy' & Hd' & HQ).
  assert (y' = y) as -> by (apply (app_inv_head (r_results s1)); congruence).
  rewrite Hd, Hc in HQ. by apply HQ.
Qed.
Lemma evidence_fail_bind {B} lo name p (f : () → act B) Q : (∀ a, grows (f a)) → evidence lo (fail name p ≫= f) Q.
Proof using Type. intros Hf. eapply evidence_bind; [apply (evidence_fail _ _ _ (fun _ _ => False))|done|done]. Qed.
Lemma evidence_grows {A} (m : act A) P : (∀ lo, evidence lo m P) → grows m.
Proof using Type. intros Hm s. destruct (Hm _ s eq_refl) as (x & c & ? & ? & _). eauto. Qed.
Lemma evidence_for {A} (f : A → act ()) (P : A → Prop) l lo :
  (∀ a lo, evidence lo (f a) (fun _ _ => P a)) → evidence lo (for_each f l) (fun _ _ => ∀ a, a ∈ l → P a).
Proof using Type.
  intros Hf. revert lo. induction l as [|a l IH]; intros lo; cbn [for_each]; [apply evidence_ret; set_solver|].
  eapply evidence_bind; [apply Hf|intros _; apply grows_for; intros b; eapply evidence_grows, Hf|]. intros ? mid Ha s Hs.
  destruct (IH mid s Hs) as (x & c & Hx & Hc & HQ). exists x, c. do 2 (split; [done|]). intros Hpre Hp b [Heq|Hb]%elem_of_cons; [by rewrite Heq|]. by apply HQ.
Qed.
Lemma evidence_impl {A} lo (m : act A) (P Q : nat → A → Prop) : evidence lo m P → (∀ hi a, P hi a → Q hi a) → evidence lo m Q.
Proof using Type. intros Hm HPQ s Hs. destruct (Hm s Hs) as (x & c & ? & ? & ?). exists x, c. auto. Qed.
Lemma grows_evidence {A} lo (m : act A) : grows m → evidence lo m (fun _ _ => True).
Proof using Type. intros Hm s _. destruct (Hm s) as (x & c & Hx & Hc). by exists x, c. Qed.
Lemma evidence_seq {A B} lo (m : act A) (f : A → act B) (P : Prop) (Q : Prop) :
  evidence lo m (fun _ _ => P) → (∀ a mid, evidence mid (f a) (fun _ _ => Q)) → evidence lo (m ≫= f) (fun _ _ => P ∧ Q).
Proof using Type.
  intros Hm Hf. eapply evidence_bind; [exact Hm|intros a; eapply evidence_grows, Hf|].
  intros a mid HP. eapply evidence_impl; [apply Hf|]. done.
Qed.
End evidence.
#[export] Hint Resolve evidence_call evidence_view evidence_recorded : evidence.

(** A failed assertion. *)
Ltac stop := apply evidence_fail_bind; intros ?; grow.
(** Steps through one bind; the continuation only grows. *)
Ltac next x H := eapply evidence_bind; [solve [eauto with evidence]|intros ?; grow|intros x ? [-> H]].

Section seen.
Context {W E : Type} `{!Net W E, !SmokeNet W E}.
Abbreviation act := (act (W := W) (E := E)).

Definition refused (err : option E) (want : code) : Prop := ∃ e message, err = Some e ∧ s_status (W := W) e = Some (want, message).
Lemma wantCode_nil err want substr : wantCode (W := W) err want substr = [] → refused err want.
Proof using Type.
  unfold wantCode, refused. destruct err as [e|]; [|done]. destruct (s_status e) as [[c m]|] eqn:Hs; [|done].
  case_bool_decide as Hc; [done|]. subst c. intros _. eauto.
Qed.
Lemma health_problems_nil id r : health_problems (E := E) id r = [] →
  ∃ nodeID up, r = Ok (true, nodeID, up) ∧ 0 ≤ up ∧ (∀ i, id = Some i → nodeID = i).
Proof using Type.
  unfold health_problems. destruct r as [[[[] n] up]|]; [|done..]. cbn [negb]. intros H. exists n, up.
  destruct id as [i|]; [case_bool_decide as Hi; [done|]|];
    (destruct (Z.ltb_spec up 0); [done|]); (split_and!; [done..|]); naive_solver.
Qed.
Lemma sdk_get_nil value r : sdk_get_problems (E := E) value r = [] → r = Ok (Some value).
Proof using Type. destruct r as [[got|]|]; [|done..]. cbn. case_bool_decide as H; [done|]. by rewrite H. Qed.
Lemma holder_nil value r : holder_problems (E := E) value r = [] → r = Ok (true, value).
Proof using Type. destruct r as [[[] got]|]; [|done..]. cbn. case_bool_decide as H; [done|]. by rewrite H. Qed.
Lemma miss_nil r : miss_problems (E := E) r = [] → ∃ v, r = Ok (false, v).
Proof using Type. destruct r as [[[] got]|]; [done| |done]. eauto. Qed.
Lemma chunked_nil value r : chunked_problems (E := E) value r = [] → r = Ok (value, true).
Proof using Type. destruct r as [[got []]|]; [|done..]. cbn. case_bool_decide as H; [done|]. by rewrite H. Qed.

(** *** What each suite must have seen, of the calls [T] of the run *)

Context (T : list (asked (W := W))).

(** The control plane served the configured cluster. *)
Definition control_seen (cfg : Config) (cp : string) : Prop := ∃ i j k up nl sm, (i < j < k)%nat ∧
  answered T i (s_cpHealth cp) (Ok (true, up)) ∧
  answered T j (n_nodeList cp) (Ok nl) ∧ node_list_problems (E := E) cfg nl = [] ∧
  answered T k (n_shardMap cp) (Ok sm) ∧
  shard_map_problems (E := E) cfg (nl_TopologyGeneration nl) (nl_TopologyFingerprint nl) sm = [].

Lemma control_evidence lo cfg cp : evidence T lo (checkControlPlane cfg cp : act ()) (fun _ _ => control_seen cfg cp).
Proof using Type.
  unfold checkControlPlane. next h Hh. next x Hhp. next nl Hnl. next y Hnp.
  destruct nl as [nl|]; [|done]. next sm Hsm. next z Hsp. destruct sm as [sm|]; [|done].
  next a Ha. apply evidence_record. intros _.
  apply health_problems_nil in Hhp as (n & up & Hup & _ & _). destruct h as [[ok u]|]; simplify_eq.
  exists lo, (S lo), (S (S lo)), up, nl, sm. split; [lia|done].
Qed.

(** One sample key is where the router says and nowhere else: after the write through the
    SDK, the reads found the value at the SDK and at the owner, and not at the other node. *)
Definition key_seen (cfg : Config) (s : Snapshot) (i : nat) (key : bytes) : Prop := ∃ owner,
  OwnerForKey key (cf_ShardCount cfg) (ShardMap s) = Some owner ∧
  let other := nonHolder (ShardForKey key (cf_ShardCount cfg)) s (sortedNodeIDs (Nodes s)) in
  let value := deterministicValue (256 + i * 37) (101 + Z.of_nat i) in
  other = "" ∨
  ∃ put get1 get2 get3 v, (put < get1 < get2)%nat ∧ (get2 < get3)%nat ∧
    answered T put (s_sdkPut key value) None ∧ answered T get1 (s_sdkGet key) (Ok (Some value)) ∧
    answered T get2 (s_get (default "" (Nodes s !! owner)) key) (Ok (true, value)) ∧
    answered T get3 (s_get (default "" (Nodes s !! other)) key) (Ok (false, v)).

Lemma key_evidence lo cfg s i key :
  evidence T lo (routing_sample cfg s (sortedNodeIDs (Nodes s)) i key : act ()) (fun _ _ => key_seen cfg s i key).
Proof using Type.
  unfold routing_sample. destruct (OwnerForKey _ _ _) as [owner|] eqn:Ho; [|apply evidence_fail].
  set (other := nonHolder _ _ _). case_bool_decide as Hother.
  { apply evidence_record. intros _. exists owner. split; [done|]. by left. }
  set (value := deterministicValue _ _).
  eapply (evidence_bind _ _ _ _ (fun _ ps => ps = [] → ∃ put get1 get2 get3 v, (put < get1 < get2)%nat ∧ (get2 < get3)%nat ∧
    answered T put (s_sdkPut key value) None ∧ answered T get1 (s_sdkGet key) (Ok (Some value)) ∧
    answered T get2 (s_get (default "" (Nodes s !! owner)) key) (Ok (true, value)) ∧
    answered T get3 (s_get (default "" (Nodes s !! other)) key) (Ok (false, v)))).
  - unfold routing_key. next err Hput. destruct err; [by apply evidence_ret|].
    next got Hgot. next ores Hor. next mres Hm. apply evidence_ret. rewrite !app_nil, !fmap_nil_iff.
    intros (H1%sdk_get_nil & H2%holder_nil & H3%miss_nil). destruct H3 as [v ->]. subst.
    exists lo, (S lo), (S (S lo)), (S (S (S lo))), v. split; [lia|]. split; [lia|done].
  - intros ?. grow.
  - intros ps mid Hps. apply evidence_record. intros H. exists owner. split; [done|]. right. auto.
Qed.

Definition routing_seen (cfg : Config) (cp : string) : Prop := ∃ i s nonce keys,
  answered T i (n_fetch cp) (Ok s) ∧ ShardMap s = AssignShards (NodeIDs cfg) (cf_ShardCount cfg) ∧ (2 ≤ size (Nodes s))%nat ∧
  routingSampleKeys ("smoke:routing:" +:+ nonce) routingSampleCount (cf_ShardCount cfg) (ShardMap s) = Ok keys ∧
  ∀ i key, keys !! i = Some key → key_seen cfg s i key.

Lemma routing_evidence lo range cfg cp : evidence T lo (checkRouting range cfg cp : act ()) (fun _ _ => routing_seen cfg cp).
Proof using Type.
  unfold checkRouting. eapply evidence_bind; [apply evidence_call|intros ?; unfold routing_sample, routing_key; grow|intros t ? [-> Ht]].
  destruct t as [s|]; [|apply evidence_fail].
  case_bool_decide as Hdiff; cbn [negb].
  2:{ apply evidence_record. by intros ?%fmap_nil_iff. }
  apply shardMapDifferences_nil in Hdiff. case_bool_decide as Htwo; [apply evidence_fail|].
  eapply evidence_bind; [apply evidence_recorded|intros ?; unfold routing_sample, routing_key; grow|intros _ ? [-> _]].
  eapply evidence_bind; [apply evidence_call|intros ?; unfold routing_sample, routing_key; grow|intros err ? [-> _]].
  destruct err; [apply evidence_fail|].
  eapply evidence_bind; [apply evidence_view|intros ?; unfold routing_sample, routing_key; grow|intros nonce ? [-> _]].
  destruct (routingSampleKeys _ _ _ _) as [keys|] eqn:Hkeys; [|apply evidence_fail].
  eapply evidence_bind; [apply grows_evidence, dial_nodes_grows|intros ?; unfold routing_sample, routing_key; grow|].
  intros bad mid _. destruct bad as [[id e]|]; [apply evidence_fail|].
  eapply evidence_impl; [apply (evidence_for _ _ (fun ik => key_seen cfg s ik.1 ik.2)); intros [i key] ?; apply key_evidence|].
  intros ? ? Hall. exists lo, s, nonce, keys. split_and!; [done|done|lia|done|]. intros i key Hik.
  apply (Hall (i, key)). apply list_elem_of_lookup. exists i. rewrite list_lookup_imap, Hik. done.
Qed.

Lemma ack_evidence lo fuel n d k v acks :
  evidence T lo (ack_loop fuel n d k v acks : act _)
    (fun hi r => ∀ acked, r = Some (Ok acked) → ∃ p, (p < hi)%nat ∧ answered T p (s_sdkPutWithAck k v acks) (Ok acked)).
Proof using Type.
  revert lo n. induction fuel as [|fuel IH]; intros lo n; cbn [ack_loop]; [by apply evidence_ret|].
  next r Hr. destruct r as [acked|e]; [apply evidence_ret; intros a [= <-]; exists lo; split; [lia|done]|].
  case_bool_decide; [by apply evidence_ret|]. next now Hnow. destruct (_ <? _); [by apply evidence_ret|].
  next u Hu. apply IH.
Qed.

Lemma holders_evidence lo s key value holders :
  evidence T lo (read_holders s key value holders : act _)
    (fun _ ps => ps = [] → ∀ h, h ∈ holders → ∃ q, (lo ≤ q)%nat ∧ answered T q (s_get (default "" (Nodes s !! h)) key) (Ok (true, value))).
Proof using Type.
  revert lo. induction holders as [|h rest IH]; intros lo; cbn [read_holders]; [apply evidence_ret; set_solver|].
  case_bool_decide as Ha; [eapply evidence_bind; [apply IH|intros ?; grow|intros ? ? _; by apply evidence_ret]|].
  next err Herr. destruct err; [eapply evidence_bind; [apply IH|intros ?; grow|intros ? ? _; by apply evidence_ret]|].
  next r Hr. eapply evidence_bind; [apply IH|intros ?; grow|intros ps mid Hps]. apply evidence_ret.
  intros [H1%fmap_nil_iff%holder_nil H2]%app_nil. intros h' [->|Hin]%elem_of_cons; [subst r; exists (S lo); split; [lia|done]|].
  destruct (Hps H2 h' Hin) as (q & Hq & ?). exists q. split; [lia|done].
Qed.

(** The strong-ack write of a key of the shard was acknowledged, and read from each holder
    after it. *)
Definition ack_seen (cfg : Config) (s : Snapshot) (chosen : Z) : Prop := ∃ key acked put,
  let owners := owners_at (Owners s) chosen in
  let value := deterministicValue (Z.to_nat 8192) 41 in
  let acks := u32 (Z.of_nat (length (Replicas owners))) in
  ShardForKey key (cf_ShardCount cfg) = chosen ∧
  answered T put (s_sdkPutWithAck key value acks) (Ok acked) ∧ acks ≤ acked ∧
  ∀ h, h ∈ Primary owners :: Replicas owners →
    ∃ get, (put < get)%nat ∧ answered T get (s_get (default "" (Nodes s !! h)) key) (Ok (true, value)).
(** The placement is the router's; a shard with a full replica set took a strong-ack write
    that every holder then served, or the cluster has no replicas at all. *)
Definition replication_seen (cfg : Config) (cp : string) : Prop := ∃ i s,
  answered T i (n_fetch cp) (Ok s) ∧
  let want := default ∅ (AssignShardOwners (NodeIDs cfg) (cf_ShardCount cfg) (ReplicationFactor s)) in
  (∀ shard, 0 ≤ shard < cf_ShardCount cfg → owners_at (Owners s) shard = owners_at want shard) ∧
  (ReplicationFactor s = 0 ∧ (∀ shard, 0 ≤ shard < cf_ShardCount cfg → Replicas (owners_at (Owners s) shard) = []) ∨
   ∃ chosen, Z.of_nat (length (Replicas (owners_at (Owners s) chosen))) = ReplicationFactor s ∧ ack_seen cfg s chosen).

Lemma first_problem_None {A} (f : A → option (problem E)) l : first_problem f l = None → ∀ a, a ∈ l → f a = None.
Proof using Type.
  induction l as [|a l IH]; [set_solver|]. cbn. destruct (f a) eqn:Ha; [done|]. intros H b [->|?]%elem_of_cons; auto.
Qed.
Lemma owners_problem_None s want shard : owners_problem (E := E) s want shard = None → owners_at (Owners s) shard = owners_at want shard.
Proof using Type.
  unfold owners_problem. destruct (owners_at (Owners s) shard) as [p r], (owners_at want shard) as [p' r']. cbn.
  repeat case_bool_decide; naive_solver.
Qed.

Lemma proof_evidence lo fuel cfg s chosen :
  evidence T lo (replication_proof fuel cfg s chosen : act _) (fun _ r => r = Some () → ack_seen cfg s chosen).
Proof using Type.
  unfold replication_proof. eapply evidence_bind; [apply evidence_view|intros ?; unfold putWithAckConverging; grow|intros nonce ? [-> _]].
  match goal with |- context [smoke_keyForShard ?p chosen ?n] => destruct (smoke_keyForShard p chosen n) as [key|] eqn:Hkey end; [|stop].
  unfold smoke_keyForShard in Hkey. apply key_search_Some in Hkey as [Hshard _]. set (value := deterministicValue _ _). set (acks := u32 _).
  eapply (evidence_bind _ _ _ _ (fun hi r => ∀ acked, r = Some (Ok acked) →
    ∃ p, (p < hi)%nat ∧ answered T p (s_sdkPutWithAck key value acks) (Ok acked))).
  { unfold putWithAckConverging. next now Hnow. apply ack_evidence. }
  { intros ?; grow. }
  intros [[acked|p]|] mid Hack; [|stop|by apply evidence_ret].
  destruct (Z.ltb_spec acked acks); [stop|]. unfold pass. next u Hu.
  eapply evidence_bind; [apply holders_evidence|intros ?; grow|intros ps mid' Hps].
  eapply evidence_bind; [apply evidence_recorded|intros ?; grow|intros ? ? [-> ->]].
  assert (∀ r : option (), r = Some () → ack_seen cfg s chosen) as Hgoal.
  { intros _ _. destruct (Hack acked eq_refl) as (put & Hput & Hans). exists key, acked, put. cbn zeta. fold value acks. split; [done|].
    split; [done|]. split; [done|]. intros h Hh. destruct (Hps eq_refl h Hh) as (q & Hq & ?). exists q. split; [lia|done]. }
  rewrite bool_decide_eq_true_2 by done. cbn [negb].
  match goal with |- context [smoke_keyForShard ?p chosen ?n] => destruct (smoke_keyForShard p chosen n) as [over|] end; [|stop].
  next o Ho. next u' Hu'. apply evidence_ret. apply Hgoal.
Qed.

Lemma replication_evidence lo fuel cfg cp :
  evidence T lo (checkReplication fuel cfg cp : act _) (fun _ r => r = Some () → replication_seen cfg cp).
Proof using Type.
  unfold checkReplication.
  eapply evidence_bind; [apply evidence_call|intros ?; unfold replication_proof, putWithAckConverging; grow|intros t ? [-> Ht]].
  destruct t as [s|]; [|stop]. case_bool_decide as Hempty; [stop|].
  set (want := default ∅ _). destruct (first_problem _ _) as [p|] eqn:Hfirst; [stop|].
  assert (∀ shard, 0 ≤ shard < cf_ShardCount cfg → owners_at (Owners s) shard = owners_at want shard) as Hall.
  { intros shard Hsh. eapply owners_problem_None, first_problem_None; [done|]. apply elem_of_seqZ. lia. }
  unfold pass. eapply evidence_bind; [apply evidence_recorded|intros ?; unfold replication_proof, putWithAckConverging; grow|intros ? ? [-> _]].
  destruct (Z.eqb_spec (ReplicationFactor s) 0) as [H0|H0].
  - next u Hu. apply evidence_ret. intros _. exists lo, s. split; [done|]. split; [done|]. left. split; [done|]. intros shard Hsh.
    destruct (List.find _ _) eqn:Hfind; [done|]. eapply List.find_none in Hfind.
    2:{ apply list_elem_of_In, elem_of_seqZ. split; [apply Hsh|lia]. }
    apply negb_false_iff, bool_decide_eq_true in Hfind. done.
  - eapply evidence_bind; [apply evidence_call|intros ?; unfold replication_proof, putWithAckConverging; grow|intros err ? [-> _]].
    destruct err; [stop|]. destruct (List.find _ _) as [chosen|] eqn:Hfind; [|stop].
    apply List.find_some in Hfind as [_ Hfull%Z.eqb_eq]. eapply evidence_impl; [apply proof_evidence|].
    intros hi r Hr Hsome. exists lo, s. split; [done|]. split; [done|]. right. exists chosen. auto.
Qed.
End seen.

Section seen.
Context {W E : Type} `{!Net W E, !SmokeNet W E}.
Abbreviation act := (act (W := W) (E := E)).
Context (T : list (asked (W := W))) (cfg : Config) (id address : string).

(** A node that names itself, serves what it was given after it was given it, does not
    invent, overwrites, refuses what it must refuse and reassembles a chunked value. *)
Definition health_seen : Prop := ∃ i up, answered T i (s_nodeHealth address) (Ok (true, id, up)) ∧ 0 ≤ up.
Definition stores_seen : Prop := ∃ put get, (put < get)%nat ∧
  answered T put (s_put address (node_key id "small") small_value) None ∧
  answered T get (s_get address (node_key id "small")) (Ok (true, small_value)).
Definition miss_seen : Prop := ∃ i v, answered T i (s_get address (node_key id "never-written")) (Ok (false, v)).
Definition overwrites_seen : Prop := ∃ put get found, (put < get)%nat ∧
  answered T put (s_put address (node_key id "small") (deterministicValue (Z.to_nat 777) 2)) None ∧
  answered T get (s_get address (node_key id "small")) (Ok (found, deterministicValue (Z.to_nat 777) 2)).
Definition refuses_seen : Prop :=
  (∃ i r, answered T i (s_get address []) r ∧ refused (W := W) (err_of r) InvalidArgument) ∧
  ∃ i err, answered T i (s_put address (node_key id "too-big-unary") (replicate (Z.to_nat (unaryValueLimit + 1)) x00)) err ∧
           refused (W := W) err InvalidArgument.
Definition chunked_seen : Prop := ∃ put get recvs, (put < get)%nat ∧
  answered T put (s_putChunked address (chunk_frames (node_key id "big") large_value (1024 * 1024))) None ∧
  answered T get (s_getChunked address (node_key id "big")) recvs ∧ smoke_getChunked recvs = Ok (large_value, true).
Definition bad_seen : Prop := ∀ b, b ∈ bad_streams cfg id → ∃ i err,
  answered T i (s_putChunked address b.1.1.2) err ∧ refused (W := W) err b.1.2.
Definition node_seen : Prop :=
  health_seen ∧ stores_seen ∧ miss_seen ∧ overwrites_seen ∧ refuses_seen ∧ chunked_seen ∧ bad_seen.

Lemma health_evidence lo : evidence T lo (node_health id address : act ()) (fun _ _ => health_seen).
Proof using Type.
  unfold node_health. next r Hr. apply evidence_record. intros (n & up & -> & ? & Hid)%health_problems_nil.
  rewrite (Hid id eq_refl) in Hr. by exists lo, up.
Qed.
Lemma stores_evidence lo : evidence T lo (node_put_get id address : act ()) (fun _ _ => stores_seen).
Proof using Type.
  unfold node_put_get. next err Hput. destruct err; [apply evidence_fail|]. next r Hr.
  apply evidence_record. intros ->%holder_nil. exists lo, (S lo). split; [lia|done].
Qed.
Lemma miss_evidence lo : evidence T lo (node_get_miss id address : act ()) (fun _ _ => miss_seen).
Proof using Type. unfold node_get_miss. next r Hr. apply evidence_record. intros [v ->]%miss_nil. by exists lo, v. Qed.
Lemma overwrites_evidence lo : evidence T lo (node_overwrite id address : act ()) (fun _ _ => overwrites_seen).
Proof using Type.
  unfold node_overwrite. next err Hput. destruct err; [apply evidence_fail|]. next r Hr. apply evidence_record.
  destruct r as [[found got]|]; [|done]. set (value := deterministicValue _ _) in *. case_bool_decide as Hne; [done|]. intros _.
  assert (got = value) as -> by (destruct (decide (got = value)); [assumption|contradiction]). exists lo, (S lo), found. split; [lia|]. split; [exact Hput|exact Hr].
Qed.
Lemma refuses_evidence lo : evidence T lo (node_rejections id address : act ()) (fun _ _ => refuses_seen).
Proof using Type.
  unfold node_rejections. next r Hr. next u Hu. apply wantCode_nil in Hu. next err Herr.
  apply evidence_record. intros Hw%wantCode_nil. split; eauto.
Qed.
Lemma chunked_evidence lo : evidence T lo (node_chunked id address : act ()) (fun _ _ => chunked_seen).
Proof using Type.
  unfold node_chunked. next err Hput. destruct err; [apply evidence_fail|]. next r Hr.
  apply evidence_record. intros Hc%chunked_nil. exists lo, (S lo), r. split; [lia|done].
Qed.
Lemma bad_evidence lo : evidence T lo (checkChunkedRejections cfg id address : act ()) (fun _ _ => bad_seen).
Proof using Type.
  unfold checkChunkedRejections. eapply evidence_bind.
  - apply (evidence_for _ _ (fun b => ∃ i err, answered T i (s_putChunked address b.1.1.2) err ∧ refused (W := W) err b.1.2)).
    intros [[[name frames] want] word] lo'. next err Herr. apply evidence_record. intros Hw%wantCode_nil. eauto.
  - intros ?. grow.
  - intros ? mid Hbad. eapply evidence_bind; [apply grows_evidence, stored_keys_grows|intros ?; grow|].
    intros st mid' _. by apply evidence_record.
Qed.

Lemma node_evidence lo : evidence T lo (checkNode cfg id address : act ()) (fun _ _ => node_seen).
Proof using Type.
  unfold checkNode. eapply evidence_impl.
  - repeat (apply evidence_seq; [first [apply health_evidence|apply stores_evidence|apply miss_evidence|apply overwrites_evidence
      |apply refuses_evidence|apply chunked_evidence|apply bad_evidence
      |apply grows_evidence; unfold node_chunked_refusals, node_capacity; grow]|intros ? ?]).
    apply grows_evidence. unfold node_prefix. grow.
  - unfold node_seen. cbn beta. tauto.
Qed.
End seen.

Lemma one_node_evidence {W E} `{!Net W E, !SmokeNet W E} T lo cfg n :
  evidence T lo (check_one_node cfg n : act (W := W) (E := E) ()) (fun _ _ => node_seen (W := W) T cfg (nd_NodeID n) (nd_Address n)).
Proof.
  unfold check_one_node. eapply evidence_bind; [apply evidence_call| |].
  - intros [e|]; [grow|]. eapply evidence_grows. intros lo'. apply (node_evidence (W := W) T).
  - intros [e|] mid _; [apply evidence_fail|apply node_evidence].
Qed.

(** Everything a run that exits 0 has seen. *)
Definition cluster_seen {W E} `{!Net W E, !SmokeNet W E} (T : list (asked (W := W))) (cfg : Config) (cp : string) : Prop :=
  control_seen (W := W) (E := E) T cfg cp ∧ routing_seen (W := W) (E := E) T cfg cp ∧ replication_seen (W := W) (E := E) T cfg cp ∧
  ∀ n, n ∈ cf_Nodes cfg → node_seen (W := W) (E := E) T cfg (nd_NodeID n) (nd_Address n).

Lemma suites_evidence {W E} `{!Net W E, !SmokeNet W E} T lo fuel range cfg cp :
  evidence (W := W) (E := E) T lo (smoke_suites fuel range cfg cp) (fun _ r => r = Some () → cluster_seen (W := W) (E := E) T cfg cp).
Proof.
  unfold smoke_suites. eapply evidence_bind; [apply control_evidence|intros ?; grow|intros ? ? Hc].
  eapply evidence_bind; [apply routing_evidence|intros ?; grow|intros ? ? Hr].
  eapply evidence_bind; [apply replication_evidence|intros ?; grow|intros r ? Hrep].
  destruct r as [[]|]; [|by apply evidence_ret].
  eapply evidence_bind; [apply evidence_for; intros; apply one_node_evidence|intros ?; grow|intros ? ? Hn].
  apply evidence_ret. intros _. split_and!; auto.
Qed.

Lemma runSmoke_spec {W E} `{!Net W E, !SmokeNet W E} fuel range cfg (w : W) exit results :
  runSmoke fuel range cfg w = Some (exit, results) →
  (∃ e w0, dialAnyReplica (ControlPlaneAddresses cfg) w = (Err e, w0) ∧ exit = 1 ∧ results = []) ∨
  ∃ cp w0 s, dialAnyReplica (ControlPlaneAddresses cfg) w = (Ok cp, w0) ∧
    smoke_suites fuel range cfg cp (MkRun w0 [] []) = (Some (), s) ∧ results = r_results s ∧ exit = report results ∧
    (exit = 0 → passes results ∧ cluster_seen (W := W) (E := E) (r_seen s) cfg cp).
Proof.
  unfold runSmoke. destruct (dialAnyReplica _ w) as [[cp|e] w0].
  2:{ intros [= <- <-]. left. eauto. }
  destruct (smoke_suites fuel range cfg cp (MkRun w0 [] [])) as [[[]|] s] eqn:Hs; [|done].
  intros [= <- <-]. right. exists cp, w0, s. do 4 (split; [done|]).
  destruct (suites_evidence (r_seen s) 0 fuel range cfg cp (MkRun w0 [] []) eq_refl) as (ext & calls & Hext & _ & Hseen).
  rewrite Hs in Hext, Hseen. cbn in Hext, Hseen. intros Hcode%failed_nil. rewrite Hext in Hcode |- *. auto.
Qed.

(** ** Runs without a problem *)

(** [runs_clean m w a w']: from world [w] the program ends in [w'] with value [a], and records no
    problem. *)
Section clean_runs.
Context {W E : Type} `{!Net W E, !SmokeNet W E}.
Abbreviation act := (act (W := W) (E := E)).

Definition runs_clean {A} (m : act A) (w : W) (a : A) (w' : W) : Prop := ∀ rs seen, passes rs →
  ∃ rs' seen', m (MkRun w rs seen) = (a, MkRun w' rs' seen') ∧ passes rs'.

Lemma clean_ret {A} (a : A) w : runs_clean (mret a) w a w.
Proof using Type. intros rs seen H. by exists rs, seen. Qed.
Lemma clean_call {A} (f : W → A * W) w a w' : f w = (a, w') → runs_clean (call f) w a w'.
Proof using Type. intros Hf rs seen H. unfold call. cbn. rewrite Hf. eauto. Qed.
Lemma clean_view {A} (f : W → A) w a : f w = a → runs_clean (view_world f) w a w.
Proof using Type. intros <- rs seen H. by exists rs, seen. Qed.
Lemma clean_record name ps w : ps = [] → runs_clean (record name ps) w () w.
Proof using Type. intros -> rs seen H. exists (rs ++ [(name, [])]), seen. split; [done|]. apply Forall_app. split; [done|]. by constructor. Qed.
Lemma clean_pass name w : runs_clean (pass name) w () w.
Proof using Type. by apply clean_record. Qed.
Lemma clean_bind {A B} (m : act A) (f : A → act B) w a w1 b w2 : runs_clean m w a w1 → runs_clean (f a) w1 b w2 → runs_clean (m ≫= f) w b w2.
Proof using Type.
  intros Hm Hf rs seen H. destruct (Hm rs seen H) as (rs1 & seen1 & H1 & Hp1). destruct (Hf rs1 seen1 Hp1) as (rs2 & seen2 & H2 & Hp2).
  exists rs2, seen2. split; [|done]. unfold mbind, act_bind. by rewrite H1.
Qed.
(** A call, and what is made of its answer. *)
Lemma clean_ask {A B} (f : W → A * W) (k : A → act B) w a w1 b w2 : f w = (a, w1) → runs_clean (k a) w1 b w2 → runs_clean (call f ≫= k) w b w2.
Proof using Type. intros Hf. eapply clean_bind. by apply clean_call. Qed.
(** An assertion that passes. *)
Lemma clean_assert {B} name ps (k : () → act B) w b w2 : ps = [] → runs_clean (k ()) w b w2 → runs_clean (record name ps ≫= k) w b w2.
Proof using Type. intros Hp. eapply clean_bind. by apply clean_record. Qed.
Lemma clean_for {A} (f : A → act ()) l w :
  (∀ a w, a ∈ l → ∃ w', runs_clean (f a) w () w') → ∃ w', runs_clean (for_each f l) w () w'.
Proof using Type.
  revert w. induction l as [|a l IH]; intros w Hf; cbn [for_each]; [exists w; apply clean_ret|].
  destruct (Hf a w) as [w1 H1]; [left|]. destruct (IH w1) as [w2 H2]; [intros b v Hb; apply Hf; by right|].
  exists w2. by eapply clean_bind.
Qed.

Lemma holder_clean (v : bytes) : holder_problems (E := E) v (Ok (true, v)) = [].
Proof using Type. cbn. by rewrite bool_decide_eq_false_2 by (intros H; by apply H). Qed.
Lemma sdk_clean (v : bytes) : sdk_get_problems (E := E) v (Ok (Some v)) = [].
Proof using Type. cbn. by rewrite bool_decide_eq_false_2 by (intros H; by apply H). Qed.
Lemma chunked_clean (v : bytes) : chunked_problems (E := E) v (Ok (v, true)) = [].
Proof using Type. cbn. by rewrite bool_decide_eq_false_2 by (intros H; by apply H). Qed.
End clean_runs.

(** ** Claims *)

(** C32: the two control-plane assertions of the smoke suite, exactly.  GetNodeList passes
    when the generation is not zero, the fingerprint is a digest and the nodes are the
    configured ones with their addresses, all alive, in any order and each once.
    GetShardMap passes when it carries the generation and fingerprint of that node list, the
    configured shard count and the very map of [router.AssignShards], and moreover every
    configured node owns a shard whenever there are as many shards as nodes: a placement
    rendezvous hashing does not promise, so that the suite can reject a correct map. *)
Theorem control_plane_checks_exact {E} cfg
    (Hids : NoDup (NodeIDs cfg)) (Hnodes : cf_Nodes cfg ≠ []) (Hcount : 0 < cf_ShardCount cfg < 2 ^ 32) :
  (∀ resp, node_list_problems (E := E) cfg resp = [] ↔
     nl_TopologyGeneration resp ≠ 0 ∧ length (nl_TopologyFingerprint resp) = FingerprintSize ∧
     info_of <$> nl_Nodes resp ≡ₚ (fun n => (nd_NodeID n, nd_Address n, true)) <$> cf_Nodes cfg) ∧
  (∀ g fp resp, shard_map_problems (E := E) cfg g fp resp = [] ↔
     sm_TopologyGeneration resp = g ∧ sm_TopologyFingerprint resp = fp ∧ sm_ShardCount resp = cf_ShardCount cfg ∧
     sm_ShardToNodeId resp = AssignShards (NodeIDs cfg) (cf_ShardCount cfg) ∧
     (u32 (Z.of_nat (length (cf_Nodes cfg))) ≤ cf_ShardCount cfg →
      ∀ id, id ∈ NodeIDs cfg → ∃ shard, sm_ShardToNodeId resp !! shard = Some id)).
Proof.
  split; intros; [by apply node_list_problems_nil|by apply shard_map_problems_nil].
Qed.

(** C31: what the exit code of the smoke suite is worth.  It is 0 or 1.  When it is 0, a
    configured replica was dialled and answered, every recorded assertion passed, and the
    calls of this very run, in the order it made them, have seen the cluster it was
    configured for: that replica served the configured nodes, all alive, and the map of
    [router.AssignShards]; each routing sample key that has a node outside its holders was
    written through the SDK, and after that read back through it and from its owner, and not
    found on such a node; the placement of every shard is the router's, and a strong-ack
    write to a fully replicated shard was acknowledged and after that served by each of its
    holders (or there are no replicas); and every configured node named itself, served what
    it had been given before, overwritten values too, refused each malformed write with its
    code and reassembled the chunked value it had been sent before. *)
Theorem smoke_verdict {W E} `{!Net W E, !SmokeNet W E} fuel range cfg (w : W) exit results
    (Hids : NoDup (NodeIDs cfg)) (Hnodes : cf_Nodes cfg ≠ []) (Hcount : 0 < cf_ShardCount cfg < 2 ^ 32)
    (Hrun : runSmoke fuel range cfg w = Some (exit, results)) :
  (exit = 0 ∨ exit = 1) ∧
  (exit = 0 →
   Forall (fun c => c.2 = []) results ∧
   ∃ cp w0 s, dialAnyReplica (ControlPlaneAddresses cfg) w = (Ok cp, w0) ∧
     smoke_suites fuel range cfg cp (MkRun w0 [] []) = (Some (), s) ∧ results = r_results s ∧
     let T := r_seen s in
     (∃ i j nl sm, (i < j)%nat ∧
        answered (W := W) T i (n_nodeList cp) (Ok nl) ∧ answered (W := W) T j (n_shardMap cp) (Ok sm) ∧
        info_of <$> nl_Nodes nl ≡ₚ (fun n => (nd_NodeID n, nd_Address n, true)) <$> cf_Nodes cfg ∧
        sm_TopologyGeneration sm = nl_TopologyGeneration nl ∧
        sm_ShardToNodeId sm = AssignShards (NodeIDs cfg) (cf_ShardCount cfg)) ∧
     routing_seen (W := W) (E := E) T cfg cp ∧ replication_seen (W := W) (E := E) T cfg cp ∧
     ∀ n, n ∈ cf_Nodes cfg → node_seen (W := W) (E := E) T cfg (nd_NodeID n) (nd_Address n)) ∧
  (exit = 1 → results = [] ∨ ∃ c, c ∈ results ∧ c.2 ≠ []).
Proof.
  apply runSmoke_spec in Hrun as [(e & w0 & _ & -> & ->)|(cp & w0 & s & Hdial & Hs & Hres & -> & Hseen)].
  { split; [by right|]. split; [done|]. by left. }
  split; [unfold report; case_bool_decide; auto|]. split.
  - intros H0. destruct (Hseen H0) as (Hpass & (i & j & k & up & nl & sm & Hlt & _ & Hnl & Hnp & Hsm & Hsp) & Hr & Hrep & Hn).
    apply node_list_problems_nil in Hnp as (_ & _ & Hperm); [|done].
    apply shard_map_problems_nil in Hsp as (Hg & _ & _ & Hmap & _); [|done..].
    split; [done|]. exists cp, w0, s. do 3 (split; [done|]). cbn zeta. split; [|by split_and!].
    exists j, k, nl, sm. split; [lia|]. by split_and!.
  - intros H1. right. unfold report, failed in H1. case_bool_decide as Hf; [|done].
    destruct (filter _ results) as [|c l] eqn:Hfil; [cbn in Hf; lia|]. exists c.
    assert (c ∈ filter (fun c => c.2 ≠ []) results) as [? ?]%list_elem_of_filter by (rewrite Hfil; left). done.
Qed.

(** C33: the routing sample.  The keys are as many as asked for, distinct, each owned by some
    node of the map, and together they reach as many owners as the sample allows. *)
Theorem routing_sample_spread prefix count shardCount shardMap keys
    (Hok : routingSampleKeys prefix count shardCount shardMap = Ok keys) :
  Z.of_nat (length keys) = count ∧ NoDup keys ∧
  Forall (fun k => is_Some (OwnerForKey k shardCount shardMap)) keys ∧
  (Nat.min (Z.to_nat count) (size (list_to_set (filter (fun o => o ≠ "") (map_to_list shardMap).*2) : gset string)) ≤
   size (sample_owners shardCount shardMap keys))%nat.
Proof.
  unfold routingSampleKeys in Hok. destruct (Z.leb_spec count 0); [done|].
  set (owners := list_to_set _ : gset string) in *. case_bool_decide; [done|].
  set (want := Nat.min _ _) in *.
  destruct (distinct_owners _ _ _ _ _ _ _ _) as [[[fuel c] seen] ks] eqn:Hd.
  assert (c + Z.of_nat fuel ≤ 2 ^ 63 ∧ 0 ≤ c ∧ sampled prefix shardCount shardMap c ks ∧
          seen = sample_owners shardCount shardMap ks ∧ length ks = size seen ∧ (size seen ≤ want)%nat) as
    (Hfuel & Hc & Hks & Hseen & Hlen & Hle).
  { apply distinct_owners_spec in Hd as (? & Hsum & ?); [|lia|apply sampled_nil|done|done|rewrite size_empty; lia].
    split; [|tauto]. rewrite Hsum. unfold maxCandidates. rewrite Z2Nat.id by lia. lia. }
  case_bool_decide; [done|].
  destruct (more_keys_spec prefix shardCount shardMap fuel (Z.to_nat count) c ks) as [Hs [ext Hext]]; [lia|done|lia|].
  rewrite Hext in *. case_bool_decide as Hl; [|done]. cbn [negb] in Hok. simplify_eq.
  split; [lia|]. split; [by eapply sampled_distinct; [|done]|]. split; [by destruct Hs as (? & _ & _ & _ & ?)|].
  assert (want ≤ size (sample_owners shardCount shardMap ks))%nat by lia. etrans; [done|].
  apply subseteq_size. unfold sample_owners. rewrite omap_app, list_to_set_app_L. apply union_subseteq_l.
Qed.

(** The suite's own chunked writer and reader agree with each other and with the SDK's.
    Whatever the value (the empty one included) and the positive frame size, its reader
    reassembles exactly the value from its writer's frames; and at the SDK's frame size the
    frames of a non-empty value are the SDK's, which the SDK's reader accepts too. *)
Theorem smoke_chunks_roundtrip {E} key value chunkSize
    (Hcs : 0 < chunkSize) (Htotal : chunk_total value chunkSize ≤ 2 ^ 32 - 1) :
  smoke_getChunked (E := E) (Ok (Ok <$> chunk_frames key value chunkSize)) = Ok (value, true) ∧
  (chunkSize = ChunkSize → 0 < blen value →
   chunk_frames key value chunkSize = frame key value (total_chunks value) <$> seqZ 0 (total_chunks value) ∧
   getChunked (E := E) (Ok ((fun c => Ok (Some c)) <$> chunk_frames key value chunkSize)) = Ok (Some value)).
Proof.
  destruct (chunk_total_bound value chunkSize Hcs) as [H1 _]. split.
  - pose proof (collect_frames key value chunkSize Hcs (E := E) (Z.to_nat (chunk_total value chunkSize)) 0 false) as H.
    rewrite Z2Nat.id in H by lia. apply H; [done|lia|lia|by left].
  - intros -> Hpos. rewrite chunk_frames_transport by done. split; [done|].
    assert (chunk_total value ChunkSize = total_chunks value) as Heq.
    { pose proof (f_equal length (chunk_frames_transport key value Hpos)) as Hl. unfold chunk_frames in Hl.
      rewrite !length_fmap, !length_seqZ in Hl. pose proof (total_chunks_pos value Hpos). lia. }
    cbn [getChunked].
    pose proof (recv_frames key value Hpos ltac:(by rewrite <-Heq) (E := E) (Z.to_nat (total_chunks value)) 0 recv_init) as H.
    rewrite Z2Nat.id in H by lia. apply H; [lia|lia|by left].
Qed.

(** A cluster whose replica answers and whose nodes cannot be dialled, for the witnesses. *)
Module SmokeDemo.
Definition down : code := OtherCode 14.
Definition node_list : GetNodeListResponse :=
  MkNodeListResponse ((fun n => Some (MkNodeInfo (nd_NodeID n) (nd_Address n) true)) <$> cf_Nodes WaitDemo.cfg) 5
    (replicate 32 x07).
(** The map the router assigns to three nodes and eight shards. *)
Definition shard_map : GetShardMapResponse :=
  MkShardMapResponse (AssignShards (NodeIDs WaitDemo.cfg) 8) 5 (replicate 32 x07) 8 ∅ 1 "cp-0" 3.
#[global] Instance net : Net () code := {
  n_now _ := 0;
  n_sleep _ w := w;
  n_dial address w := (if bool_decide (address ∈ ControlPlaneAddresses WaitDemo.cfg) then None else Some down, w);
  n_round _ w := (fun _ => (None, Ok true), w);
  n_nodeList _ w := (Ok node_list, w);
  n_shardMap _ w := (Err down, w);
  n_fetch _ w := (Err (GetNodeListFailed down), w)
}.
#[global] Instance smoke_net : SmokeNet () code := {
  s_status e := Some (e, "");
  s_nonce _ := "1";
  s_cpHealth _ w := (Ok (true, 1), w);
  s_adapter _ w := (Some Unimplemented, w);
  s_nodeHealth _ w := (Err down, w);
  s_get _ _ w := (Err down, w);
  s_put _ _ _ w := (Some down, w);
  s_putChunked _ _ w := (Some down, w);
  s_getChunked _ _ w := (Err down, w);
  s_prefixMatch _ _ w := (Err down, w);
  s_capacity _ w := (Err down, w);
  s_newSDK w := (None, w);
  s_sdkPut _ _ w := (Some down, w);
  s_sdkGet _ w := (Err down, w);
  s_sdkPutWithAck _ _ _ w := (Err down, w)
}.
Definition results : list (Smoke.check code) :=
  [("controlplane/HealthCheck", []); ("controlplane/GetNodeList", []); ("controlplane/GetShardMap", [Rpc down]);
   ("controlplane/AdapterService.HealthCheck", []);
   ("routing/live metadata", [TopologyFetch (GetNodeListFailed down)]);
   ("replication/live metadata", [TopologyFetch (GetNodeListFailed down)]);
   ("node-0/dial", [Rpc down]); ("node-1/dial", [Rpc down]); ("node-2/dial", [Rpc down])].
Definition map_ids : gmap string string → list (string * string) := map_to_list.
Example run_down : runSmoke 1 map_ids WaitDemo.cfg () = Some (1, results).
Proof. reflexivity. Qed.
(** One owner per shard, two owners. *)
Definition two_owners : gmap Z string := {[ 0 := "a"; 1 := "b" ]}.
End SmokeDemo.

(** A small cluster that is up: three nodes, a shard each, and one replica of every shard.
    The nodes share a register of the last value written and one of the last chunked write;
    which address answers which key follows from the key alone. *)
Module SmokeUp.
Record registers := MkRegisters { last : bytes; stream : list Chunk }.

Definition cfg : Config :=
  MkConfig [MkControlPlane "cp-0" "10.0.0.8" 7000 7001 7002] "demo" 3 (MkEngine 1 1 "data") (MkRaft "raft" 100 100 100)
    [MkCfgNode "node-0" "10.0.0.1" 7100 7101; MkCfgNode "node-2" "10.0.0.2" 7100 7101;
     MkCfgNode "node-3" "10.0.0.3" 7100 7101] None 1 "cluster.yaml".
Definition topology : Snapshot :=
  MkSnapshot 5 (replicate 32 x07) 3 (AssignShards (NodeIDs cfg) 3) (config_addresses cfg)
    (default ∅ (AssignShardOwners (NodeIDs cfg) 3 1)) 1 "cp-0" 3.

Definition ends (s : string) (key : bytes) : bool := bool_decide (bytes_of_string s `suffix_of` key).
Definition begins (s : string) (key : bytes) : bool := bool_decide (bytes_of_string s `prefix_of` key).
Definition holder_addresses (key : bytes) : list string :=
  let owners := owners_at (Owners topology) (ShardForKey key 3) in
  (fun id => default "" (Nodes topology !! id)) <$> Primary owners :: Replicas owners.
(** The addresses of the holders serve the suites' keys, each node its own small key. *)
Definition held (address : string) (key : bytes) : bool :=
  ends ":small" key || begins "smoke:r" key && bool_decide (address ∈ holder_addresses key).

Definition refusal (key : bytes) : option (code * string) :=
  if ends "bad1" key then Some (InvalidArgument, "chunk_index")
  else if ends "bad2" key then Some (InvalidArgument, "declared")
  else if ends "bad3" key || ends "bad4" key then Some (InvalidArgument, "total_length")
  else if ends "bad5" key then Some (OutOfRange, "max-value-bytes")
  else if ends "bad6" key then Some (InvalidArgument, "different key")
  else if bool_decide (key = []) then Some (InvalidArgument, "key")
  else None.

#[global] Instance net : Net registers (code * string) := {
  n_now _ := 0;
  n_sleep _ w := w;
  n_dial _ w := (None, w);
  n_round _ w := (fun _ => (None, Ok true), w);
  n_nodeList _ w :=
    (Ok (MkNodeListResponse ((fun n => Some (MkNodeInfo (nd_NodeID n) (nd_Address n) true)) <$> cf_Nodes cfg) 5 (replicate 32 x07)), w);
  n_shardMap _ w := (Ok (WaitDemo.shards topology), w);
  n_fetch _ w := (Ok topology, w)
}.
#[global] Instance smoke_net : SmokeNet registers (code * string) := {
  s_status e := Some e;
  s_nonce _ := "1";
  s_cpHealth _ w := (Ok (true, 1), w);
  s_adapter _ w := (Some (Unimplemented, ""), w);
  s_nodeHealth address w :=
    (Ok (true, default "" (nd_NodeID <$> List.find (fun n => bool_decide (nd_Address n = address)) (cf_Nodes cfg)), 1), w);
  s_get address key w :=
    (if bool_decide (key = []) then Err (InvalidArgument, "key is empty")
     else if ends ":big" key then Err (FailedPrecondition, "use GetChunked")
     else if held address key then Ok (true, last w) else Ok (false, []), w);
  s_put _ key value w :=
    if ends "too-big-unary" key then (Some (InvalidArgument, "use PutChunked"), w) else (None, MkRegisters value (stream w));
  s_putChunked _ frames w :=
    match refusal (match frames with c :: _ => ch_Key c | [] => [] end) with
    | Some e => (Some e, w)
    | None => (None, MkRegisters (last w) frames)
    end;
  s_getChunked _ key w := (Ok (if ends ":big" key then Ok <$> stream w else []), w);
  s_prefixMatch _ prefix w :=
    (Ok [Ok (MkPrefix (prefix +:+ "small") [] false); Ok (MkPrefix (prefix +:+ "big") [] true)], w);
  s_capacity _ w := (Ok (2, 1, 1), w);
  s_newSDK w := (None, w);
  s_sdkPut _ value w := (None, MkRegisters value (stream w));
  s_sdkGet _ w := (Ok (Some (last w)), w);
  s_sdkPutWithAck _ value acks w :=
    if 1 <? acks then (Err (InvalidArgument, "not that many replicas"), w) else (Ok acks, MkRegisters value (stream w))
}.
Abbreviation act := (Smoke.act (W := registers) (E := code * string)).

(** *** The calls *)

Lemma get_held address key w : negb (bool_decide (key = []) || ends ":big" key) && held address key = true →
  s_get (SmokeNet := smoke_net) address key w = (Ok (true, last w), w).
Proof. cbn. destruct (bool_decide _), (ends _ _), (held _ _); done. Qed.
Lemma get_miss address key w : bool_decide (key = []) || ends ":big" key || held address key = false →
  s_get (SmokeNet := smoke_net) address key w = (Ok (false, []), w).
Proof. cbn. destruct (bool_decide _), (ends _ _), (held _ _); done. Qed.
Lemma put_stored address key value w : ends "too-big-unary" key = false →
  s_put (SmokeNet := smoke_net) address key value w = (None, MkRegisters value (stream w)).
Proof. cbn. by intros ->. Qed.
Lemma head_key key value size : 0 < size → match chunk_frames key value size with c :: _ => ch_Key c | [] => [] end = key.
Proof.
  intros Hs. unfold chunk_frames. destruct (chunk_total_bound value size Hs) as [H _]. rewrite seqZ_cons by lia. done.
Qed.
Lemma chunked_stored address key value size w : 0 < size → refusal key = None →
  s_putChunked (SmokeNet := smoke_net) address (chunk_frames key value size) w = (None, MkRegisters (last w) (chunk_frames key value size)).
Proof. intros Hs Hr. cbn. by rewrite head_key, Hr. Qed.

(** *** The suites *)

Lemma control_up w : runs_clean (checkControlPlane cfg "10.0.0.8:7000" : act ()) w () w.
Proof.
  unfold checkControlPlane. eapply clean_ask; [reflexivity|]. eapply clean_assert; [reflexivity|].
  eapply clean_ask; [reflexivity|]. eapply clean_assert; [vm_compute; reflexivity|].
  eapply clean_ask; [reflexivity|]. eapply clean_assert; [vm_compute; reflexivity|].
  eapply clean_ask; [reflexivity|]. apply clean_record. reflexivity.
Qed.

(** What a sample key must be for its check to pass. *)
Definition routes (key : bytes) : bool :=
  match OwnerForKey key 3 (ShardMap topology) with
  | None => false
  | Some owner =>
      let other := nonHolder (ShardForKey key 3) topology (sortedNodeIDs (Nodes topology)) in
      negb (bool_decide (key = []) || ends ":big" key) && held (default "" (Nodes topology !! owner)) key &&
      negb (held (default "" (Nodes topology !! other)) key)
  end.
Lemma sample_up i key w : routes key = true →
  ∃ w', runs_clean (routing_sample cfg topology (sortedNodeIDs (Nodes topology)) i key : act ()) w () w'.
Proof.
  unfold routes, routing_sample. change (cf_ShardCount cfg) with 3. destruct (OwnerForKey _ _ _) as [owner|]; [|done].
  set (other := nonHolder _ _ _). set (value := deterministicValue _ _). intros [Hheld Hother]%andb_true_iff.
  destruct (bool_decide (other = "")); [exists w; apply clean_pass|]. exists (MkRegisters value (stream w)).
  eapply clean_bind; [|apply clean_record; reflexivity]. unfold routing_key.
  eapply clean_ask; [reflexivity|]. eapply clean_ask; [reflexivity|].
  eapply clean_ask; [by apply get_held|]. eapply clean_ask.
  { apply get_miss. apply negb_true_iff in Hother. rewrite Hother. apply andb_true_iff in Hheld as [Hk%negb_true_iff _]. by rewrite Hk. }
  cbn [last]. rewrite sdk_clean, holder_clean. apply clean_ret.
Qed.

Definition up_keys : list bytes := numbered "smoke:routing:1" <$> [0; 1; 2; 3; 4; 5].
Lemma up_keys_sampled : routingSampleKeys "smoke:routing:1" routingSampleCount 3 (ShardMap topology) = Ok up_keys.
Proof. vm_compute. reflexivity. Qed.
Lemma up_keys_route key : key ∈ up_keys → routes key = true.
Proof.
  assert (forallb routes up_keys = true) as H by (vm_compute; reflexivity). generalize dependent up_keys. generalize routes.
  intros f l H Hk%list_elem_of_In. exact (proj1 (forallb_forall f l) H key Hk).
Qed.

Lemma routing_up w : ∃ w', runs_clean (checkRouting SmokeDemo.map_ids cfg "10.0.0.8:7000" : act ()) w () w'.
Proof.
  destruct (clean_for (fun '(i, key) => routing_sample cfg topology (sortedNodeIDs (Nodes topology)) i key : act ())
    (imap (fun i key => (i, key)) up_keys) w) as [w' Hw'].
  { intros [i key] v Hin. apply sample_up, up_keys_route.
    apply list_elem_of_lookup in Hin as (k & Hk). rewrite list_lookup_imap in Hk. apply list_elem_of_lookup. exists k.
    destruct (up_keys !! k); [|done]. cbn in Hk. congruence. }
  exists w'. unfold checkRouting. eapply clean_ask; [reflexivity|]. cbn beta iota.
  rewrite bool_decide_eq_true_2 by (vm_compute; reflexivity). cbn [negb].
  rewrite bool_decide_eq_false_2 by (vm_compute; lia).
  eapply clean_bind; [apply clean_pass|]. eapply clean_ask; [reflexivity|].
  eapply clean_bind; [apply clean_view; reflexivity|]. change (cf_ShardCount cfg) with 3.
  change ("smoke:routing:" +:+ s_nonce w) with "smoke:routing:1". rewrite up_keys_sampled.
  apply (clean_bind _ _ w None w); [|exact Hw']. assert (∀ l, runs_clean (dial_nodes l : act _) w None w) as Hdial; [|apply Hdial].
  induction l as [|[id a] l IH]; cbn [dial_nodes]; [apply clean_ret|]. eapply clean_ask; [reflexivity|exact IH].
Qed.

(** The shard of the strong-ack proof and its two keys. *)
Definition ack_key : bytes := default [] (smoke_keyForShard "smoke:replication:1" 0 3).
Definition over_key : bytes := default [] (smoke_keyForShard "smoke:replication:1:over" 0 3).
Lemma ack_key_found : smoke_keyForShard "smoke:replication:1" 0 3 = Some ack_key.
Proof. vm_compute. reflexivity. Qed.
Lemma over_key_found : smoke_keyForShard "smoke:replication:1:over" 0 3 = Some over_key.
Proof. vm_compute. reflexivity. Qed.

Lemma holders_up key value l str :
  forallb (fun h => negb (bool_decide (default "" (Nodes topology !! h) = "")) &&
                    (negb (bool_decide (key = []) || ends ":big" key) && held (default "" (Nodes topology !! h)) key)) l = true →
  runs_clean (read_holders topology key value l : act _) (MkRegisters value str) [] (MkRegisters value str).
Proof.
  induction l as [|h l IH]; cbn [forallb read_holders]; [intros _; apply clean_ret|].
  intros [[Ha%negb_true_iff Hh]%andb_true_iff Hl]%andb_true_iff. rewrite Ha. eapply clean_ask; [reflexivity|].
  eapply clean_ask; [by apply get_held|]. eapply clean_bind; [exact (IH Hl)|]. cbn [last]. rewrite holder_clean. apply clean_ret.
Qed.

Lemma ack_up fuel w : ∃ w', runs_clean (replication_proof (S fuel) cfg topology 0 : act _) w (Some ()) w'.
Proof.
  unfold replication_proof. generalize (deterministicValue (Z.to_nat 8192) 41). intros value.
  exists (MkRegisters value (stream w)). eapply clean_bind; [apply clean_view; reflexivity|].
  change (cf_ShardCount cfg) with 3. change ("smoke:replication:" +:+ s_nonce w) with "smoke:replication:1". rewrite ack_key_found.
  replace (u32 (Z.of_nat (length (Replicas (owners_at (Owners topology) 0))))) with 1 by (vm_compute; reflexivity).
  apply (clean_bind _ _ w (Some (Ok 1)) (MkRegisters value (stream w))).
  { unfold putWithAckConverging. eapply clean_bind; [apply clean_view; reflexivity|]. cbn [ack_loop].
    eapply clean_ask; [reflexivity|]. apply clean_ret. }
  change (1 <? 1) with false. cbn beta iota. eapply clean_bind; [apply clean_pass|].
  eapply clean_bind; [apply holders_up; vm_compute; reflexivity|]. eapply clean_assert; [reflexivity|].
  change ("smoke:replication:1" +:+ ":over") with "smoke:replication:1:over". rewrite over_key_found. cbn [negb bool_decide decide_rel].
  rewrite bool_decide_eq_true_2 by reflexivity. cbn [negb].
  eapply clean_ask; [reflexivity|]. eapply clean_assert; [reflexivity|]. apply clean_ret.
Qed.

Lemma replication_up fuel w : ∃ w', runs_clean (checkReplication (S fuel) cfg "10.0.0.8:7000" : act _) w (Some ()) w'.
Proof.
  destruct (ack_up fuel w) as [w' Hw']. exists w'. unfold checkReplication. eapply clean_ask; [reflexivity|]. cbn beta iota.
  rewrite bool_decide_eq_false_2 by (intros H; vm_compute in H; discriminate H).
  match goal with |- context [first_problem ?f ?l] => assert (first_problem f l = None) as -> by (vm_compute; reflexivity) end.
  eapply clean_bind; [apply clean_pass|]. change (ReplicationFactor topology) with 1. change (1 =? 0) with false. cbn beta iota.
  eapply clean_ask; [reflexivity|]. cbn beta iota.
  match goal with |- context [List.find ?f ?l] => assert (List.find f l = Some 0) as -> by (vm_compute; reflexivity) end. exact Hw'.
Qed.

Section node_up.
Context (n : CfgNode) (Hn : n ∈ cf_Nodes cfg).
Abbreviation id := (nd_NodeID n).
Abbreviation address := (nd_Address n).
(** What is checked of all configured nodes at once. *)
Lemma each_node (f : CfgNode → bool) : forallb f (cf_Nodes cfg) = true → f n = true.
Proof using Hn. intros H. eapply forallb_forall; [exact H|by apply list_elem_of_In]. Qed.
Ltac each f := apply (each_node f); vm_compute; reflexivity.

Lemma small_up w : s_get address (node_key id "small") w = (Ok (true, last w), w).
Proof using Hn.
  apply get_held. each (fun n => negb (bool_decide (node_key (nd_NodeID n) "small" = []) || ends ":big" (node_key (nd_NodeID n) "small")) &&
    held (nd_Address n) (node_key (nd_NodeID n) "small")).
Qed.
Lemma absent_up k w : k ∈ "never-written" :: rejected_keys → s_get address (node_key id k) w = (Ok (false, []), w).
Proof using Hn.
  intros Hk. apply get_miss, negb_true_iff. revert k Hk.
  assert (forallb (fun k => negb (bool_decide (node_key id k = []) || ends ":big" (node_key id k) || held address (node_key id k)))
    ("never-written" :: rejected_keys) = true) as H.
  { each (fun n => forallb (fun k => negb (bool_decide (node_key (nd_NodeID n) k = []) || ends ":big" (node_key (nd_NodeID n) k) ||
      held (nd_Address n) (node_key (nd_NodeID n) k))) ("never-written" :: rejected_keys)). }
  intros k Hk. exact (proj1 (forallb_forall _ _) H k (proj1 (list_elem_of_In _ _) Hk)).
Qed.

Lemma health_up w : runs_clean (node_health id address : act ()) w () w.
Proof using Hn.
  unfold node_health. eapply clean_ask; [reflexivity|]. apply clean_record. unfold health_problems. cbn [negb].
  rewrite bool_decide_eq_false_2; [reflexivity|]. intros Hne. apply Hne. apply (proj1 (bool_decide_eq_true _)).
  each (fun n => bool_decide (default "" (nd_NodeID <$> List.find (fun n' => bool_decide (nd_Address n' = nd_Address n)) (cf_Nodes cfg)) = nd_NodeID n)).
Qed.
Lemma small_stored value w : s_put address (node_key id "small") value w = (None, MkRegisters value (stream w)).
Proof using Hn. apply put_stored, negb_true_iff. each (fun n => negb (ends "too-big-unary" (node_key (nd_NodeID n) "small"))). Qed.
Lemma put_get_up w : ∃ w', runs_clean (node_put_get id address : act ()) w () w'.
Proof using Hn.
  unfold node_put_get. generalize small_value. intros value. exists (MkRegisters value (stream w)).
  eapply clean_ask; [apply small_stored|]. eapply clean_ask; [apply small_up|]. apply clean_record, holder_clean.
Qed.
Lemma get_miss_up w : runs_clean (node_get_miss id address : act ()) w () w.
Proof using Hn. unfold node_get_miss. eapply clean_ask; [apply absent_up; left|]. apply clean_record. reflexivity. Qed.
Lemma overwrite_up w : ∃ w', runs_clean (node_overwrite id address : act ()) w () w'.
Proof using Hn.
  unfold node_overwrite. generalize (deterministicValue (Z.to_nat 777) 2). intros value. exists (MkRegisters value (stream w)).
  eapply clean_ask; [apply small_stored|]. eapply clean_ask; [apply small_up|]. apply clean_record. cbn [last].
  rewrite bool_decide_eq_false_2; [reflexivity|]. intros H. by apply H.
Qed.
Lemma rejections_up w : runs_clean (node_rejections id address : act ()) w () w.
Proof using Hn.
  unfold node_rejections. generalize (replicate (Z.to_nat (unaryValueLimit + 1)) x00). intros value.
  eapply clean_ask; [reflexivity|]. eapply clean_assert; [reflexivity|].
  assert (ends "too-big-unary" (node_key id "too-big-unary") = true) as Hbig
    by each (fun n => ends "too-big-unary" (node_key (nd_NodeID n) "too-big-unary")).
  apply (clean_ask _ _ w (Some (InvalidArgument, "use PutChunked")) w); [cbn; by rewrite Hbig|]. apply clean_record. reflexivity.
Qed.
Lemma big_key : ends ":big" (node_key id "big") = true.
Proof using Hn. each (fun n => ends ":big" (node_key (nd_NodeID n) "big")). Qed.
Lemma chunked_up w : ∃ w', runs_clean (node_chunked id address : act ()) w () w'.
Proof using Hn.
  assert (smoke_getChunked (E := code * string) (Ok (Ok <$> chunk_frames (node_key id "big") large_value (1024 * 1024))) = Ok (large_value, true)) as Hround.
  { assert (blen large_value = 6 * 1024 * 1024) as Hlen.
    { unfold blen, large_value. rewrite length_deterministicValue. by rewrite Z2Nat.id. }
    pose proof (collect_frames (node_key id "big") large_value (1024 * 1024) ltac:(lia) (E := code * string) 6 0 false) as H.
    unfold chunk_frames. assert (chunk_total large_value (1024 * 1024) = 6) as Htot by (unfold chunk_total; by rewrite Hlen).
    rewrite Htot in H |- *. apply H; lia. }
  unfold node_chunked. revert Hround. generalize large_value. intros value Hround.
  exists (MkRegisters (last w) (chunk_frames (node_key id "big") value (1024 * 1024))).
  eapply clean_ask.
  { apply chunked_stored; [lia|]. assert (match refusal (node_key id "big") with None => true | _ => false end = true) as Hr
      by each (fun n => match refusal (node_key (nd_NodeID n) "big") with None => true | _ => false end).
    by destruct (refusal _). }
  eapply clean_ask; [reflexivity|]. apply clean_record. rewrite big_key. cbn [stream]. rewrite Hround. apply chunked_clean.
Qed.

Lemma chunked_refusals_up w : runs_clean (node_chunked_refusals id address : act ()) w () w.
Proof using Hn.
  unfold node_chunked_refusals. assert (bool_decide (node_key id "big" = []) = false) as Hne by reflexivity.
  apply (clean_ask _ _ w (Err (FailedPrecondition, "use GetChunked")) w).
  { cbn [s_get smoke_net]. by rewrite Hne, big_key. }
  eapply clean_assert; [reflexivity|]. apply (clean_ask _ _ w (Ok []) w); [|apply clean_record; reflexivity].
  assert (ends ":big" (node_key id "also-never-written") = false) as Hend
    by (apply negb_true_iff; each (fun n => negb (ends ":big" (node_key (nd_NodeID n) "also-never-written")))).
  cbn [s_getChunked smoke_net]. by rewrite Hend.
Qed.

(** A malformed stream is refused the way the suite wants it. *)
Definition well_refused (b : string * list Chunk * code * string) : bool :=
  let '(_, frames, want, word) := b in
  match refusal (match frames with c :: _ => ch_Key c | [] => [] end) with
  | Some e => match wantCode (W := registers) (Some e) want word with [] => true | _ => false end
  | None => false
  end.
Lemma bad_streams_up w : ∃ w', runs_clean (checkChunkedRejections cfg id address : act ()) w () w'.
Proof using Hn.
  destruct (clean_for (fun '(name, frames, want, word) => err ← call (s_putChunked address frames);
    record (id +:+ name) (wantCode (W := registers) err want word) : act ()) (bad_streams cfg id) w) as [w1 H1].
  { assert (forallb well_refused (bad_streams cfg id) = true) as Hall by each (fun n => forallb well_refused (bad_streams cfg (nd_NodeID n))).
    intros b v Hb. assert (well_refused b = true) as Hw by exact (proj1 (forallb_forall _ _) Hall b (proj1 (list_elem_of_In _ _) Hb)).
    destruct b as [[[name frames] want] word]. unfold well_refused in Hw. destruct (refusal _) as [e|] eqn:Hr; [|done].
    exists v. apply (clean_ask _ _ v (Some e) v); [cbn; by rewrite Hr|]. apply clean_record. by destruct (wantCode _ _ _). }
  exists w1. unfold checkChunkedRejections. eapply clean_bind; [exact H1|].
  apply (clean_bind _ _ w1 [] w1); [|by apply clean_record].
  assert (∀ l, l ⊆ "never-written" :: rejected_keys → runs_clean (stored_keys id address l : act _) w1 [] w1) as Hl; [|apply Hl; intros k Hk; by right].
  induction l as [|k l IH]; intros Hsub; cbn [stored_keys]; [apply clean_ret|].
  eapply clean_ask; [apply absent_up, Hsub; left|]. eapply clean_bind; [apply IH; intros k' Hk; apply Hsub; by right|]. apply clean_ret.
Qed.

Lemma capacity_up w : runs_clean (node_capacity id address : act ()) w () w.
Proof using Type. unfold node_capacity. eapply clean_ask; [reflexivity|]. apply clean_record. reflexivity. Qed.
Lemma prefix_up w : runs_clean (node_prefix id address : act ()) w () w.
Proof using Hn.
  unfold node_prefix. eapply clean_ask; [reflexivity|]. cbn [mbind result_bind collect_prefix pm_key].
  set (seen := <[_ := _]> _). assert (prefix_problems (E := code * string) id seen = []) as ->.
  { assert (match prefix_problems (E := code * string) id seen with [] => true | _ => false end = true) as H; [|by destruct (prefix_problems _ _)].
    each (fun n => match prefix_problems (E := code * string) (nd_NodeID n)
      (<[node_ns (nd_NodeID n) +:+ "big" := MkPrefix (node_ns (nd_NodeID n) +:+ "big") [] true]>
       (<[node_ns (nd_NodeID n) +:+ "small" := MkPrefix (node_ns (nd_NodeID n) +:+ "small") [] false]> ∅)) with [] => true | _ => false end). }
  eapply clean_assert; [reflexivity|]. rewrite bool_decide_eq_true_2 by reflexivity. cbn [negb].
  unfold seen. rewrite lookup_insert_eq. apply clean_record. reflexivity.
Qed.

Lemma node_up w : ∃ w', runs_clean (check_one_node cfg n : act ()) w () w'.
Proof using Hn.
  destruct (put_get_up w) as [w1 H1], (overwrite_up w1) as [w2 H2], (chunked_up w2) as [w3 H3], (bad_streams_up w3) as [w4 H4].
  exists w4. unfold check_one_node. eapply clean_ask; [reflexivity|]. unfold checkNode.
  eapply clean_bind; [apply health_up|]. eapply clean_bind; [exact H1|]. eapply clean_bind; [apply get_miss_up|].
  eapply clean_bind; [exact H2|]. eapply clean_bind; [apply rejections_up|]. eapply clean_bind; [exact H3|].
  eapply clean_bind; [apply chunked_refusals_up|]. eapply clean_bind; [exact H4|]. eapply clean_bind; [apply capacity_up|]. apply prefix_up.
Qed.
End node_up.

(** The whole suite against this cluster exits 0. *)
Lemma run_up : ∃ results, runSmoke 1 SmokeDemo.map_ids cfg (MkRegisters [] []) = Some (0, results).
Proof.
  destruct (routing_up (MkRegisters [] [])) as [w1 H1], (replication_up 0 w1) as [w2 H2].
  destruct (clean_for (check_one_node cfg : _ → act ()) (cf_Nodes cfg) w2) as [w3 H3]; [intros n v Hn; by apply node_up|].
  assert (runs_clean (smoke_suites 1 SmokeDemo.map_ids cfg "10.0.0.8:7000" : act _) (MkRegisters [] []) (Some ()) w3) as Hall.
  { unfold smoke_suites. eapply clean_bind; [apply control_up|]. eapply clean_bind; [exact H1|]. eapply clean_bind; [exact H2|].
    eapply clean_bind; [exact H3|]. apply clean_ret. }
  destruct (Hall [] [] ltac:(constructor)) as (rs & seen & Hrun & Hpass). exists rs.
  assert (dialAnyReplica (ControlPlaneAddresses cfg) (MkRegisters [] []) = (Ok "10.0.0.8:7000", MkRegisters [] [])) as Hdial by reflexivity.
  unfold runSmoke. rewrite Hdial, Hrun. cbn [r_results]. by rewrite (proj2 (failed_nil rs) Hpass).
Qed.
End SmokeUp.

(** The exact map of three nodes over eight shards is rejected, since [node-1] owns none. *)
Lemma control_plane_checks_exact_witness :
  node_list_problems (E := code) WaitDemo.cfg SmokeDemo.node_list = [] ∧
  shard_map_problems (E := code) WaitDemo.cfg 5 (replicate 32 x07) SmokeDemo.shard_map ≠ [].
Proof.
  destruct (control_plane_checks_exact (E := code) WaitDemo.cfg) as [Hnl Hsm];
    [apply (bool_decide_unpack _); vm_compute; exact I|discriminate|vm_compute; split; reflexivity|].
  split.
  - apply Hnl. split; [discriminate|]. split; [reflexivity|]. reflexivity.
  - intros H. apply Hsm in H as (_ & _ & _ & _ & H). destruct (H ltac:(vm_compute; discriminate) "node-1") as [shard Hsh].
    + apply (bool_decide_unpack _). vm_compute. exact I.
    + apply (elem_of_map_to_list (sm_ShardToNodeId SmokeDemo.shard_map)) in Hsh.
      assert ("node-1" ∈ (map_to_list (sm_ShardToNodeId SmokeDemo.shard_map)).*2) as Hin by (apply list_elem_of_fmap; by exists (shard, "node-1")).
      assert ("node-1" ∉ (map_to_list (sm_ShardToNodeId SmokeDemo.shard_map)).*2) as Hout by (apply (bool_decide_unpack _); vm_compute; exact I).
      exact (Hout Hin).
Defined.

(** A run that exits 0, and part of what it has seen: [node-2] served the small value after
    it was written, and a strong-ack write was served by every holder after it. *)
Lemma smoke_verdict_witness : ∃ results cp w0 s,
  runSmoke 1 SmokeDemo.map_ids SmokeUp.cfg (SmokeUp.MkRegisters [] []) = Some (0, results) ∧
  smoke_suites 1 SmokeDemo.map_ids SmokeUp.cfg cp (MkRun w0 [] []) = (Some (), s) ∧ results = r_results s ∧
  Forall (fun c => c.2 = []) results ∧
  replication_seen (W := SmokeUp.registers) (E := code * string) (r_seen s) SmokeUp.cfg cp ∧
  stores_seen (W := SmokeUp.registers) (E := code * string) (r_seen s) "node-2" "10.0.0.2:7100".
Proof.
  destruct SmokeUp.run_up as [results Hrun].
  destruct (smoke_verdict 1 SmokeDemo.map_ids SmokeUp.cfg (SmokeUp.MkRegisters [] []) 0 results) as (_ & Hzero & _);
    [apply (bool_decide_unpack _); vm_compute; exact I|discriminate|vm_compute; split; reflexivity|exact Hrun|].
  destruct (Hzero eq_refl) as (Hpass & cp & w0 & s & _ & Hs & Hres & _ & _ & Hrep & Hnode).
  exists results, cp, w0, s. do 5 (split; [assumption|]).
  apply (Hnode (MkCfgNode "node-2" "10.0.0.2" 7100 7101)). right. left.
Defined.

Lemma routing_sample_spread_witness :
  ∃ keys, routingSampleKeys "smoke" 3 2 SmokeDemo.two_owners = Ok keys ∧ NoDup keys.
Proof.
  exists (numbered "smoke" <$> [0; 1; 2]).
  assert (routingSampleKeys "smoke" 3 2 SmokeDemo.two_owners = Ok (numbered "smoke" <$> [0; 1; 2])) as Hk
    by (vm_compute; reflexivity).
  split; [exact Hk|]. apply (routing_sample_spread "smoke" 3 2 SmokeDemo.two_owners _ Hk).
Defined.

Lemma smoke_chunks_roundtrip_witness :
  smoke_getChunked (E := code) (Ok (Ok <$> chunk_frames [] [x01; x02; x03; x04; x05] 2)) = Ok ([x01; x02; x03; x04; x05], true).
Proof. apply (smoke_chunks_roundtrip [] [x01; x02; x03; x04; x05] 2); [reflexivity|vm_compute; discriminate]. Defined.
