(* ===== verification/BenchStats.v ===== *)
(** * Statistics of the benchmarks

    What cmd/pulsekv-cluster-bench (main.go, llm_shape.go) and cmd/pulsekv-node-bench
    (main.go) compute from the latencies and counters of a run: percentiles, the measured
    concentration of a skewed workload, the drift between the ends of a soak, the
    per-interval buckets and the bounded reservoir.  A float64 is Rocq's executable
    specification of binary64 ([SpecFloat]), so an index computed from a product of floats is
    the index the program computes. *)

From Stdlib Require Import SpecFloat.
From S2P Require Import Prelude.
Local Open Scope Z_scope.

(** ** float64 *)

Definition f64 : Type := spec_float.
Definition prec : Z := 53.
Definition emax : Z := 1024.
Definition fmul : f64 → f64 → f64 := SFmul prec emax.
Definition fdiv : f64 → f64 → f64 := SFdiv prec emax.
Definition fadd : f64 → f64 → f64 := SFadd prec emax.
Definition fsub : f64 → f64 → f64 := SFsub prec emax.
(** [float64(n)] *)
Definition of_int (n : Z) : f64 := binary_normalize prec emax n 0 false.
(** [int(f)]; Go leaves it open for a value an int cannot hold, which is [None]. *)
Definition to_int (f : f64) : option Z :=
  match f with
  | S754_zero _ => Some 0
  | S754_finite s m e =>
      let v := (if 0 <=? e then Zpos m * 2 ^ e else Zpos m / 2 ^ (- e)) in
      let v := if s then - v else v in
      if bool_decide (in_i64 v) then Some v else None
  | _ => None
  end.
(** [math.Ceil] *)
Definition ceil (f : f64) : f64 :=
  match f with
  | S754_finite s m e =>
      if 0 <=? e then f
      else if s then binary_normalize prec emax (- (Zpos m / 2 ^ (- e))) 0 true
      else binary_normalize prec emax (- ((- Zpos m) / 2 ^ (- e))) 0 false
  | _ => f
  end.

(** The constants of the reports: 0.50, 0.99 and 0.999 as binary64. *)
Definition p50 : f64 := S754_finite false 4503599627370496 (-53).
Definition p99 : f64 := S754_finite false 8917127262193582 (-53).
Definition p999 : f64 := S754_finite false 8998192055486251 (-53).

(** ** Percentiles *)

Definition dur_le (a b : Z) : Prop := a ≤ b.
#[export] Instance dur_le_dec : RelDecision dur_le := fun a b => Z.le_dec a b.
#[export] Instance dur_le_total : Total dur_le.
Proof. intros a b. unfold dur_le. lia. Qed.
#[export] Instance dur_le_trans : Transitive dur_le.
Proof. intros a b c. unfold dur_le. lia. Qed.
#[export] Instance dur_le_antisymm : AntiSymm (=) dur_le.
Proof. intros a b. unfold dur_le. lia. Qed.

Definition sortDurations (l : list Z) : list Z := merge_sort dur_le l.

(** [sorted[index]]; [None] is a panic or an index Go leaves open. *)
Definition percentile (sorted : list Z) (p : f64) : option Z :=
  match sorted with
  | [] => Some 0
  | _ =>
      let n := Z.of_nat (length sorted) in
      index ← to_int (fmul p (of_int n));
      let index := if n <=? index then n - 1 else index in
      if index <? 0 then None else sorted !! Z.to_nat index
  end.
(** The node benchmark's copy. *)
Definition pct (sorted : list Z) (p : f64) : option Z :=
  match sorted with
  | [] => Some 0
  | _ =>
      let n := Z.of_nat (length sorted) in
      idx ← to_int (fmul p (of_int n));
      let idx := if n <=? idx then n - 1 else idx in
      if idx <? 0 then None else sorted !! Z.to_nat idx
  end.
(** In milliseconds: [float64(d.Nanoseconds()) / 1e6]. *)
Definition percentileMs (sorted : list Z) (p : f64) : option f64 :=
  match sorted with
  | [] => Some (S754_zero false)
  | _ => d ← percentile sorted p; Some (fdiv (of_int d) (of_int 1000000))
  end.

(** ** Samples, buckets and the reservoir *)

Record latencySample := MkSample { ls_duration : Z; ls_isRead : bool }.

Record intervalBucket := MkBucket { ib_reads : list Z; ib_writes : list Z }.
Definition bucket_add (b : intervalBucket) (duration : Z) (isRead : bool) : intervalBucket :=
  if isRead then MkBucket (ib_reads b ++ [duration]) (ib_writes b) else MkBucket (ib_reads b) (ib_writes b ++ [duration]).
Definition bucket_drain (b : intervalBucket) : list Z * list Z * intervalBucket :=
  (ib_reads b, ib_writes b, MkBucket [] []).

(** [choice] is [rng.Int63n(r.seen)], used only once the reservoir is full. *)
Record reservoir (A : Type) := MkReservoir { rs_samples : list A; rs_limit : Z; rs_seen : Z }.
Arguments MkReservoir {A}.
Arguments rs_samples {A}.
Arguments rs_limit {A}.
Arguments rs_seen {A}.
Definition newReservoir {A} (limit : Z) : reservoir A := MkReservoir [] limit 0.
Definition reservoir_add {A} (r : reservoir A) (choice : Z) (sample : A) : reservoir A :=
  let seen := rs_seen r + 1 in
  if Z.of_nat (length (rs_samples r)) <? rs_limit r then MkReservoir (rs_samples r ++ [sample]) (rs_limit r) seen
  else if choice <? rs_limit r then MkReservoir (<[Z.to_nat choice := sample]> (rs_samples r)) (rs_limit r) seen
  else MkReservoir (rs_samples r) (rs_limit r) seen.
Definition snapshot {A} (r : reservoir A) : list A * Z := (rs_samples r, rs_seen r).

(** ** The shape of the workload *)

Definition count_ge (a b : Z) : Prop := b ≤ a.
#[export] Instance count_ge_dec : RelDecision count_ge := fun a b => Z.le_dec b a.

Record concentration := MkConcentration {
  cn_TopPercent : f64; cn_ShareOfOps : f64; cn_DistinctKeys : nat; cn_TotalOps : Z
}.
Definition sum_Z (l : list Z) : Z := foldr Z.add 0 l.
(** [None] when [int(math.Ceil(...))] is open, as it is for no list and percentage in use. *)
Definition top_of (n : Z) (topPercent : f64) : option Z :=
  top ← to_int (ceil (fdiv (fmul (of_int n) topPercent) (of_int 100)));
  let top := if top <? 1 then 1 else top in
  Some (if n <? top then n else top).
Definition measureConcentration (counts : list Z) (topPercent : f64) : option concentration :=
  let total := sum_Z counts in
  let sorted := merge_sort count_ge counts in
  top ← top_of (Z.of_nat (length counts)) topPercent;
  let head := sum_Z (take (Z.to_nat top) sorted) in
  let share := if 0 <? total then fdiv (fmul (of_int 100) (of_int head)) (of_int total) else S754_zero false in
  Some (MkConcentration topPercent share (length (filter (fun c => 0 < c) counts)) total).

(** ** Drift *)

(** A row of the time series; [ir_index] counts from 1. *)
Record intervalReport := MkInterval {
  ir_index : Z; ir_elapsed : f64; ir_operations : Z; ir_reads : Z; ir_writes : Z; ir_opsPerSecond : f64;
  ir_readP50 : f64; ir_readP99 : f64; ir_writeP50 : f64; ir_writeP99 : f64;
  ir_verified : Z; ir_misses : Z; ir_mismatches : Z; ir_errors : Z
}.
Record driftReport := MkDrift {
  dr_intervals : Z; dr_firstOps : f64; dr_lastOps : f64; dr_throughputChange : f64;
  dr_firstP99 : f64; dr_lastP99 : f64; dr_p99Change : f64
}.
Definition fmean (rows : list intervalReport) (pick : intervalReport → f64) : f64 :=
  match rows with
  | [] => S754_zero false
  | _ => fdiv (foldl (fun sum row => fadd sum (pick row)) (S754_zero false) rows) (of_int (Z.of_nat (length rows)))
  end.
Definition change (from to : f64) : f64 :=
  if SFeqb from (S754_zero false) then S754_zero false
  else fdiv (fmul (of_int 100) (fsub to from)) from.
Definition first_quarter {A} (l : list A) : list A := take (length l / 4) l.
Definition last_quarter {A} (l : list A) : list A := drop (length l - length l / 4) l.
Definition computeDrift (intervals : list intervalReport) : option driftReport :=
  if bool_decide (length intervals < 4)%nat then None else
  let first := first_quarter intervals in
  let last := last_quarter intervals in
  let firstOps := fmean first ir_opsPerSecond in
  let lastOps := fmean last ir_opsPerSecond in
  let firstP99 := fmean first ir_readP99 in
  let lastP99 := fmean last ir_readP99 in
  Some (MkDrift (Z.of_nat (length intervals)) firstOps lastOps (change firstOps lastOps)
          firstP99 lastP99 (change firstP99 lastP99)).

(** ** Percentiles are samples *)

Lemma percentile_elem sorted p d : percentile sorted p = Some d → d ∈ sorted ∨ sorted = [] ∧ d = 0.
Proof.
  destruct sorted as [|x l]; [intros [= <-]; by right|]. unfold percentile. generalize (x :: l) as sorted. intros sorted.
  intros (index & _ & H)%bind_Some. left. destruct (_ <? 0) in H; [done|]. by apply list_elem_of_lookup_2 in H.
Qed.

Lemma pct_percentile sorted p : pct sorted p = percentile sorted p.
Proof. done. Qed.

(** The value reported as the median of two samples is the larger one: the index is
    [int(p*n)], not the nearest rank. *)
Example median_of_two a b : percentile [a; b] p50 = Some b.
Proof. reflexivity. Qed.

(** ** Drift compares disjoint windows *)

Lemma quarters_disjoint {A} (l : list A) :
  (4 ≤ length l)%nat →
  ∃ middle, l = first_quarter l ++ middle ++ last_quarter l ∧
    length (first_quarter l) = (length l / 4)%nat ∧ length (last_quarter l) = (length l / 4)%nat ∧ (1 ≤ length l / 4)%nat.
Proof.
  intros Hl. unfold first_quarter, last_quarter. set (q := (length l / 4)%nat).
  assert (1 ≤ q ∧ 4 * q ≤ length l)%nat as [H1 H2].
  { split; [apply (Nat.Div0.div_le_mono 4 (length l) 4); lia|apply Nat.Div0.mul_div_le]. }
  exists (take (length l - q - q) (drop q l)). rewrite length_take, length_drop. split; [|lia].
  rewrite <-(take_drop q l) at 1. f_equal. rewrite <-(take_drop (length l - q - q) (drop q l)) at 1. f_equal.
  rewrite drop_drop. f_equal. lia.
Qed.

(** ** The concentration *)

Lemma sum_Z_app a b : sum_Z (a ++ b) = sum_Z a + sum_Z b.
Proof. unfold sum_Z. induction a; cbn; lia. Qed.
#[export] Instance sum_Z_Permutation : Proper ((≡ₚ) ==> (=)) sum_Z.
Proof. unfold sum_Z. induction 1; cbn; lia. Qed.

(** No choice of that many keys took more operations than the head of the sorted list. *)
Lemma top_is_hottest (sorted : list Z) chosen :
  StronglySorted count_ge sorted → chosen ⊆+ sorted → Forall (Z.le 0) sorted →
  sum_Z chosen ≤ sum_Z (take (length chosen) sorted).
Proof.
  intros Hs. revert chosen. induction Hs as [|x l _ IH HF]; intros chosen Hsub Hpos.
  { apply submseteq_nil_r in Hsub as ->. done. }
  inversion Hpos as [|? ? Hx Hpos']; subst. destruct (decide (x ∈ chosen)) as [Hin|Hout].
  - apply elem_of_Permutation in Hin as [rest Hrest]. rewrite Hrest in *. apply (submseteq_app_inv_l _ _ [x]) in Hsub.
    unfold sum_Z in *. cbn. specialize (IH rest Hsub Hpos'). lia.
  - destruct chosen as [|y rest]; [done|].
    assert (y :: rest ⊆+ l) as Hl. { apply submseteq_cons_r in Hsub as [?|(k & Hk & _)]; [done|]. exfalso. apply Hout. rewrite Hk. left. }
    assert (count_ge x y) as Hxy. { rewrite Forall_forall in HF. apply HF. eapply elem_of_submseteq; [|done]. left. }
    assert (rest ⊆+ l) as Hr by (etrans; [|done]; by apply submseteq_cons).
    specialize (IH rest Hr Hpos'). unfold sum_Z, count_ge in *. cbn. lia.
Qed.

(** ** The reservoir *)

(** Every reservoir a stream of [n] samples can leave, one per sequence of draws: a draw is
    made only once the reservoir is full, from the numbers below the count seen. *)
Definition draws (r : reservoir nat) : list Z :=
  if Z.of_nat (length (rs_samples r)) <? rs_limit r then [0] else seqZ 0 (rs_seen r + 1).
Fixpoint outcomes (limit : Z) (n : nat) : list (reservoir nat) :=
  match n with
  | O => [newReservoir limit]
  | S n => r ← outcomes limit n; (fun choice => reservoir_add r choice n) <$> draws r
  end.
Definition keeps (position : nat) (r : reservoir nat) : Prop := position ∈ rs_samples r.
#[export] Instance keeps_dec position r : Decision (keeps position r) := decide (position ∈ rs_samples r).

Lemma reservoir_add_size {A} (r : reservoir A) choice x :
  0 ≤ rs_limit r → Z.of_nat (length (rs_samples r)) = Z.min (rs_seen r) (rs_limit r) →
  rs_limit (reservoir_add r choice x) = rs_limit r ∧ rs_seen (reservoir_add r choice x) = rs_seen r + 1 ∧
  Z.of_nat (length (rs_samples (reservoir_add r choice x))) = Z.min (rs_seen r + 1) (rs_limit r).
Proof.
  intros Hlim Hlen. unfold reservoir_add. destruct (Z.ltb_spec (Z.of_nat (length (rs_samples r))) (rs_limit r)); cbn.
  { rewrite length_app. cbn. split_and!; [done..|lia]. }
  destruct (choice <? rs_limit r); cbn; rewrite ?length_insert; split_and!; [done..|lia| | |lia]; done.
Qed.

Lemma reservoir_add_submseteq {A} (r : reservoir A) choice x stream :
  0 ≤ choice → rs_samples r ⊆+ stream → rs_samples (reservoir_add r choice x) ⊆+ stream ++ [x].
Proof.
  intros Hc Hsub. unfold reservoir_add. destruct (_ <? _); cbn; [by apply submseteq_app|].
  destruct (_ <? _); cbn; [|by apply submseteq_inserts_r].
  destruct (rs_samples r !! Z.to_nat choice) as [old|] eqn:Hold.
  - rewrite insert_take_drop by (by eapply lookup_lt_Some). apply take_drop_middle in Hold.
    rewrite (Permutation_app_comm stream), <-Permutation_middle. cbn. apply submseteq_skip. etrans; [|exact Hsub].
    rewrite <-Hold at 3. apply submseteq_app; [done|]. by apply submseteq_cons.
  - rewrite list_insert_ge by (by apply lookup_ge_None). by apply submseteq_inserts_r.
Qed.

(** What every outcome satisfies. *)
Record outcome_ok (limit : Z) (n : nat) (r : reservoir nat) : Prop := {
  ok_limit : rs_limit r = limit;
  ok_seen : rs_seen r = Z.of_nat n;
  ok_size : Z.of_nat (length (rs_samples r)) = Z.min (Z.of_nat n) limit;
  ok_distinct : NoDup (rs_samples r);
  ok_range : Forall (fun p => (p < n)%nat) (rs_samples r)
}.

Lemma add_ok limit n r choice : 0 ≤ limit → outcome_ok limit n r → choice ∈ draws r → outcome_ok limit (S n) (reservoir_add r choice n).
Proof.
  intros Hlim [H1 H2 H3 H4 H5] Hc. destruct (reservoir_add_size r choice n) as (Hl & Hse & Hsz); [lia|lia|].
  assert (0 ≤ choice) as Hc0. { unfold draws in Hc. destruct (_ <? _); [by apply list_elem_of_singleton in Hc as ->|apply elem_of_seqZ in Hc; lia]. }
  assert (rs_samples r ⊆+ seq 0 n) as Hsub.
  { apply NoDup_submseteq; [done|]. intros p Hp. rewrite Forall_forall in H5. apply elem_of_seq. apply H5 in Hp. lia. }
  assert (rs_samples (reservoir_add r choice n) ⊆+ seq 0 (S n)) as Hsub'.
  { rewrite seq_S. by apply reservoir_add_submseteq. }
  split; [lia|lia|lia| |].
  - destruct (submseteq_Permutation _ _ Hsub') as [k Hk]. pose proof (NoDup_seq 0 (S n)) as Hnd. rewrite Hk in Hnd.
    by apply NoDup_app in Hnd as (? & _ & _).
  - apply Forall_forall. intros p Hp. eapply elem_of_submseteq in Hp; [|done]. apply elem_of_seq in Hp. lia.
Qed.

Lemma outcomes_ok limit n : 0 ≤ limit → Forall (outcome_ok limit n) (outcomes limit n).
Proof.
  intros Hlim. induction n as [|n IH]; cbn [outcomes].
  { repeat constructor; cbn; lia. }
  apply Forall_forall. intros r' (r & (choice & -> & Hc)%list_elem_of_fmap & Hr)%list_elem_of_bind.
  rewrite Forall_forall in IH. apply add_ok; auto.
Qed.

(** Counting the outcomes that satisfy a predicate, when each has as many successors of each
    kind as its own kind says. *)
Lemma count_bind {A B} (P : B → Prop) `{!∀ x, Decision (P x)} (Q : A → Prop) `{!∀ x, Decision (Q x)} (f : A → list B) l (a b : nat) :
  (∀ x, x ∈ l → Q x → length (filter P (f x)) = a) → (∀ x, x ∈ l → ¬ Q x → length (filter P (f x)) = b) →
  (length (filter P (l ≫= f)) = a * length (filter Q l) + b * length (filter (fun x => ¬ Q x) l))%nat.
Proof.
  intros Ha Hb. induction l as [|x l IH]; [cbn; lia|]. cbn [mbind list_bind].
  change (list_bind _ _ f l) with (l ≫= f). rewrite filter_app, length_app.
  rewrite IH; [|intros y Hy; apply Ha; by right|intros y Hy; apply Hb; by right].
  rewrite !filter_cons. destruct (decide (Q x)) as [Hq|Hq].
  - rewrite decide_False by (intros ?; done). rewrite (Ha x) by (done || left). cbn. lia.
  - rewrite decide_True by done. rewrite (Hb x) by (done || left). cbn. lia.
Qed.
Lemma length_filter_split {A} (Q : A → Prop) `{!∀ x, Decision (Q x)} l :
  (length (filter Q l) + length (filter (fun x => ¬ Q x) l) = length l)%nat.
Proof.
  induction l as [|x l IH]; [done|]. rewrite !filter_cons.
  destruct (decide (Q x)); [rewrite decide_False by auto|rewrite decide_True by done]; cbn; lia.
Qed.
Lemma count_seqZ (P : Z → Prop) `{!∀ x, Decision (P x)} n : length (filter P (seqZ 0 (Z.of_nat n))) = length (filter (fun i => P (Z.of_nat i)) (seq 0 n)).
Proof. unfold seqZ. rewrite Nat2Z.id, list_filter_fmap, length_fmap. f_equal. apply list_filter_iff. intros i. unfold compose. by rewrite Z.add_0_r. Qed.

Lemma count_one {A} `{!EqDecision A} (l : list A) x : NoDup l → x ∈ l → length (filter (fun y => y = x) l) = 1%nat.
Proof.
  intros Hnd [k Hk]%elem_of_Permutation. rewrite Hk in Hnd. apply NoDup_cons in Hnd as [Hx _]. rewrite Hk, filter_cons, decide_True by done.
  cbn. f_equal. destruct (filter _ k) as [|y l'] eqn:Hf; [done|]. exfalso. apply Hx.
  assert (y ∈ filter (fun y => y = x) k) as [-> ?]%list_elem_of_filter by (rewrite Hf; left). done.
Qed.
Lemma count_others n j : (j ≤ n)%nat → length (filter (fun c => ¬ c = Z.of_nat j) (seqZ 0 (Z.of_nat n + 1))) = n.
Proof.
  intros Hj. pose proof (length_filter_split (fun c => c = Z.of_nat j) (seqZ 0 (Z.of_nat n + 1))) as H.
  rewrite count_one in H; [|apply NoDup_seqZ|apply elem_of_seqZ; lia]. rewrite length_seqZ in H. lia.
Qed.
Lemma filter_keep {A} (P : A → Prop) `{!∀ x, Decision (P x)} l : Forall P l → filter P l = l.
Proof. induction 1 as [|x l Hx _ IH]; [done|]. by rewrite filter_cons, decide_True, IH. Qed.
Lemma filter_drop {A} (P : A → Prop) `{!∀ x, Decision (P x)} l : Forall (fun x => ¬ P x) l → filter P l = [].
Proof. induction 1 as [|x l Hx _ IH]; [done|]. by rewrite filter_cons, decide_False, IH. Qed.
Lemma count_below n l : (l ≤ n)%nat → length (filter (fun c => c < Z.of_nat l) (seqZ 0 (Z.of_nat n + 1))) = l.
Proof.
  intros Hl. replace (Z.of_nat n + 1) with (Z.of_nat l + (Z.of_nat n + 1 - Z.of_nat l)) by lia.
  rewrite seqZ_app, filter_app, length_app by lia. rewrite Z.add_0_l.
  rewrite filter_keep, filter_drop; [rewrite length_seqZ; cbn; lia| |]; apply Forall_forall; intros c Hc%elem_of_seqZ; lia.
Qed.

(** Full: which draws keep an old position, and which take the new one. *)
Lemma add_full limit n r choice : outcome_ok limit n r → limit ≤ Z.of_nat n →
  rs_samples (reservoir_add r choice n) = if choice <? limit then <[Z.to_nat choice := n]> (rs_samples r) else rs_samples r.
Proof.
  intros [H1 H2 H3 _ _] Hfull. unfold reservoir_add. rewrite H1, (proj2 (Z.ltb_ge _ _)) by lia. by destruct (choice <? limit).
Qed.

Lemma kept_old limit n r p choice : outcome_ok limit n r → limit ≤ Z.of_nat n → (p < n)%nat → 0 ≤ choice →
  keeps p (reservoir_add r choice n) ↔ ∃ j, rs_samples r !! j = Some p ∧ choice ≠ Z.of_nat j.
Proof.
  intros Hok Hfull Hp Hc. unfold keeps. rewrite (add_full limit) by done. destruct Hok as [_ _ Hsz Hnd _].
  destruct (Z.ltb_spec choice limit) as [Hlt|Hge].
  - rewrite list_elem_of_lookup. split.
    + intros [j Hj]. destruct (decide (Z.to_nat choice = j)) as [<-|Hne].
      * rewrite list_lookup_insert_eq in Hj by lia. simplify_eq. lia.
      * rewrite list_lookup_insert_ne in Hj by done. exists j. split; [done|lia].
    + intros (j & Hj & Hne). exists j. rewrite list_lookup_insert_ne by lia. done.
  - rewrite list_elem_of_lookup. split; [|naive_solver]. intros [j Hj]. exists j. split; [done|].
    apply lookup_lt_Some in Hj. lia.
Qed.
Lemma kept_new limit n r choice : outcome_ok limit n r → limit ≤ Z.of_nat n → 0 ≤ choice →
  keeps n (reservoir_add r choice n) ↔ choice < limit.
Proof.
  intros Hok Hfull Hc. unfold keeps. rewrite (add_full limit) by done. destruct Hok as [_ _ Hsz _ Hr].
  destruct (Z.ltb_spec choice limit) as [Hlt|Hge].
  - split; [done|]. intros _. apply list_elem_of_lookup. exists (Z.to_nat choice). apply list_lookup_insert_eq. lia.
  - split; [|lia]. rewrite Forall_forall in Hr. intros Hn%Hr. lia.
Qed.

Lemma filter_fmap_length {A B} (P : B → Prop) `{!∀ x, Decision (P x)} (f : A → B) l :
  length (filter P (f <$> l)) = length (filter (fun x => P (f x)) l).
Proof. induction l as [|x l IH]; [done|]. rewrite fmap_cons, !filter_cons. repeat case_decide; cbn; lia. Qed.
Lemma filter_length_iff {A} (P Q : A → Prop) `{!∀ x, Decision (P x), !∀ x, Decision (Q x)} l :
  (∀ x, x ∈ l → P x ↔ Q x) → length (filter P l) = length (filter Q l).
Proof.
  intros Hiff. induction l as [|x l IH]; [done|]. rewrite !filter_cons.
  assert (P x ↔ Q x) by (apply Hiff; left). assert (length (filter P l) = length (filter Q l)) by (apply IH; intros; apply Hiff; by right).
  repeat case_decide; cbn; tauto || lia.
Qed.

Section uniform.
Context (l : nat) (Hl : (0 < l)%nat).
Abbreviation N n := (length (outcomes (Z.of_nat l) n)).
Abbreviation K p n := (length (filter (keeps p) (outcomes (Z.of_nat l) n))).

Lemma draws_full n r : outcome_ok (Z.of_nat l) n r → (l ≤ n)%nat → draws r = seqZ 0 (Z.of_nat n + 1).
Proof using Hl. intros [H1 H2 H3 _ _] Hn. unfold draws. rewrite H1, H2, (proj2 (Z.ltb_ge _ _)) by lia. done. Qed.
Lemma draws_free n r : outcome_ok (Z.of_nat l) n r → (n < l)%nat → draws r = [0].
Proof using Hl. intros [H1 H2 H3 _ _] Hn. unfold draws. rewrite H1, (proj2 (Z.ltb_lt _ _)) by lia. done. Qed.

Lemma outcome_of n r : r ∈ outcomes (Z.of_nat l) n → outcome_ok (Z.of_nat l) n r.
Proof using Hl. pose proof (outcomes_ok (Z.of_nat l) n ltac:(lia)) as H. rewrite Forall_forall in H. auto. Qed.

Lemma N_full n : (l ≤ n)%nat → N (S n) = ((n + 1) * N n)%nat.
Proof using Hl.
  intros Hn. cbn [outcomes]. rewrite <-(filter_keep (fun _ => True) (_ ≫= _)) by (by apply Forall_true).
  rewrite (count_bind (fun _ => True) (fun _ => True) _ _ (n + 1) 0).
  - rewrite (filter_keep (fun _ => True) (outcomes _ _)) by (by apply Forall_true). lia.
  - intros r Hr _. rewrite filter_keep by (by apply Forall_true). rewrite length_fmap, (draws_full n) by (auto using outcome_of).
    rewrite length_seqZ. lia.
  - done.
Qed.
Lemma K_old_full n p : (l ≤ n)%nat → (p < n)%nat → K p (S n) = (n * K p n)%nat.
Proof using Hl.
  intros Hn Hp. cbn [outcomes]. rewrite (count_bind _ (keeps p) _ _ n 0); [lia| |]; intros r Hr Hk; apply outcome_of in Hr as Hok;
    rewrite filter_fmap_length, (draws_full n) by done.
  - apply list_elem_of_lookup in Hk as [j Hj]. assert (j < n)%nat as Hjn.
    { apply lookup_lt_Some in Hj as Hlt. destruct Hok as [_ _ Hsz _ _]. lia. }
    etrans; [|apply (count_others n j); lia]. apply filter_length_iff. intros c Hc%elem_of_seqZ.
    rewrite (kept_old (Z.of_nat l)) by (done || lia). split; [|eauto]. intros (j' & Hj' & Hne).
    by rewrite (NoDup_lookup _ _ _ _ (ok_distinct _ _ _ Hok) Hj Hj').
  - rewrite filter_drop; [done|]. apply Forall_forall. intros c Hc%elem_of_seqZ. rewrite (kept_old (Z.of_nat l)) by (done || lia).
    intros (j & Hj & _). apply Hk. by eapply list_elem_of_lookup_2.
Qed.
Lemma K_new_full n : (l ≤ n)%nat → K n (S n) = (l * N n)%nat.
Proof using Hl.
  intros Hn. cbn [outcomes]. rewrite (count_bind _ (fun _ => True) _ _ l 0).
  - rewrite (filter_keep (fun _ => True)) by (by apply Forall_true). lia.
  - intros r Hr _. apply outcome_of in Hr as Hok. rewrite filter_fmap_length, (draws_full n) by done.
    etrans; [|apply (count_below n l); lia]. apply filter_length_iff. intros c Hc%elem_of_seqZ. apply kept_new; [done|lia|lia].
  - done.
Qed.
(** Before it is full the reservoir keeps everything. *)
Lemma free_keeps n r : (n ≤ l)%nat → r ∈ outcomes (Z.of_nat l) n → ∀ p, (p < n)%nat → keeps p r.
Proof using Hl.
  intros Hn Hr p Hp. apply outcome_of in Hr as [_ _ Hsz Hnd Hrange].
  assert (rs_samples r ≡ₚ seq 0 n) as Hperm.
  { apply submseteq_length_Permutation; [|rewrite length_seq; lia]. apply NoDup_submseteq; [done|].
    intros q Hq. rewrite Forall_forall in Hrange. apply elem_of_seq. apply Hrange in Hq. lia. }
  unfold keeps. rewrite Hperm. apply elem_of_seq. lia.
Qed.

Lemma uniform_count n p : (p < n)%nat → (K p n * n = Nat.min l n * N n)%nat.
Proof using Hl.
  revert p. induction n as [|n IH]; intros p Hp; [lia|].
  destruct (decide (S n ≤ l)%nat) as [Hfree|Hfull].
  - rewrite (filter_keep (keeps p)); [lia|]. apply Forall_forall. intros r Hr. by apply (free_keeps (S n)).
  - rewrite N_full by lia. destruct (decide (p = n)) as [->|Hne].
    + rewrite K_new_full by lia. rewrite Nat.min_l by lia. lia.
    + rewrite K_old_full by lia. specialize (IH p ltac:(lia)). rewrite Nat.min_l in IH |- * by lia. nia.
Qed.
End uniform.

(** Positions stand for the samples: the reservoir never looks at what it stores. *)
Definition reservoir_map {A B} (f : A → B) (r : reservoir A) : reservoir B := MkReservoir (f <$> rs_samples r) (rs_limit r) (rs_seen r).
Lemma reservoir_add_map {A B} (f : A → B) r choice x :
  reservoir_add (reservoir_map f r) choice (f x) = reservoir_map f (reservoir_add r choice x).
Proof.
  unfold reservoir_add, reservoir_map. cbn. rewrite length_fmap. destruct (_ <? _); cbn; [by rewrite fmap_app|].
  destruct (_ <? _); cbn; [by rewrite list_fmap_insert|done].
Qed.

(** ** Claims *)

(** C35: the reservoir is what the report says it is, a uniform sample of known size.  After
    [n] operations it holds min(limit, n) of them, at distinct positions of the stream; and
    of the equally likely sequences of draws, the share that keep a given operation is
    min(limit, n)/n, whichever operation it is: the last ones count as much as the first. *)
Theorem reservoir_uniform (limit n position : nat)
    (Hlimit : (0 < limit)%nat) (Hposition : (position < n)%nat) :
  (length (filter (keeps position) (outcomes (Z.of_nat limit) n)) * n =
   Nat.min limit n * length (outcomes (Z.of_nat limit) n))%nat ∧
  ∀ r, r ∈ outcomes (Z.of_nat limit) n →
    length (rs_samples r) = Nat.min limit n ∧ rs_seen r = Z.of_nat n ∧ NoDup (rs_samples r) ∧
    Forall (fun p => (p < n)%nat) (rs_samples r).
Proof.
  split; [by apply uniform_count|]. intros r Hr. apply outcome_of in Hr as [_ ? Hsz ? ?]; [|done].
  split_and!; [lia|done..].
Qed.

(** Two of four operations: each is kept by half of the twelve sequences of draws. *)
Lemma reservoir_uniform_witness :
  (length (filter (keeps 3) (outcomes 2 4)) * 4 = 2 * length (outcomes 2 4))%nat ∧ length (outcomes 2 4) = 12%nat.
Proof. split; [apply (reservoir_uniform 2 4 3); lia|reflexivity]. Defined.
