(* ===== verification/BenchLoad.v ===== *)
(** * The load generator's workload (cmd/pulsekv-cluster-bench)

    How the benchmarks split a working set over workers, the load loop with its shared
    counters, buckets and reservoir, and the verdict on a run.  The workers are
    goroutines: a run is any interleaving of their events, and an event is a worker's
    own computation up to and with ONE access to what the workers and the reporter
    share (a key count, a live counter, a bucket, the reservoir), so that the theorems
    hold for every schedule of single accesses.  What the SDK and the random source
    return are the events' data. *)

From Stdlib Require Import SpecFloat.
From S2P Require Import Prelude GoStd Transport Client Values BenchStats ChaosOracle.
Local Open Scope Z_scope.

(** ** Configuration *)

Definition distributionUniform : string := "uniform".
Definition distributionZipf : string := "zipf".

Record benchmark := MkBenchmark {
  b_controlPlane : string; b_workers : Z; b_valueSize : Z; b_keys : Z; b_ops : Z; b_warmup : Z;
  b_readRatio : f64; b_seed : Z; b_keyPrefix : string;
  b_metadataTimeout : Z; b_rpcTimeout : Z; b_refreshInterval : Z;
  b_distribution : string; b_zipfS : f64; b_replicas : Z; b_duration : Z; b_interval : Z;
  b_jsonPath : string; b_continueOnError : bool; b_latencySamples : Z; b_metricsListen : string
}.

Inductive flag_error :=
| NoControlPlane | NoWorkers | NegativeValueSize | NoKeys | NoOps | NegativeWarmup | BadReadRatio | NoPrefix
| NoMetadataTimeout | NoRpcTimeout | NegativeRefresh | UnknownDistribution | BadZipf | ZipfNeedsTwoKeys
| NoReplicas | TooManyReplicas | NegativeDuration | NegativeInterval | FewSamples.

Definition is_nan (f : f64) : bool := match f with S754_nan => true | _ => false end.

(** The [switch] tries its cases in order; [None] is nil. *)
Definition benchmark_validate (b : benchmark) : option flag_error :=
  if blank (b_controlPlane b) then Some NoControlPlane
  else if b_workers b <? 1 then Some NoWorkers
  else if b_valueSize b <? 0 then Some NegativeValueSize
  else if b_keys b <? 1 then Some NoKeys
  else if b_ops b <? 1 then Some NoOps
  else if b_warmup b <? 0 then Some NegativeWarmup
  else if is_nan (b_readRatio b) || SFltb (b_readRatio b) (S754_zero false) || SFltb (of_int 1) (b_readRatio b) then Some BadReadRatio
  else if blank (b_keyPrefix b) then Some NoPrefix
  else if b_metadataTimeout b <=? 0 then Some NoMetadataTimeout
  else if b_rpcTimeout b <=? 0 then Some NoRpcTimeout
  else if b_refreshInterval b <? 0 then Some NegativeRefresh
  else if bool_decide (b_distribution b ≠ distributionUniform) && bool_decide (b_distribution b ≠ distributionZipf)
  then Some UnknownDistribution
  else if bool_decide (b_distribution b = distributionZipf) && SFleb (b_zipfS b) (of_int 1) then Some BadZipf
  else if bool_decide (b_distribution b = distributionZipf) && (b_keys b <? 2) then Some ZipfNeedsTwoKeys
  else if b_replicas b <? 1 then Some NoReplicas
  else if b_workers b <? b_replicas b then Some TooManyReplicas
  else if b_duration b <? 0 then Some NegativeDuration
  else if b_interval b <? 0 then Some NegativeInterval
  else if b_latencySamples b <? 1000 then Some FewSamples
  else None.

Definition sustained (b : benchmark) : bool := 0 <? b_duration b.
Definition reportInterval (b : benchmark) : Z := if 0 <? b_interval b then b_interval b else 30 * 1000000000.
Definition value_size (b : benchmark) : nat := Z.to_nat (b_valueSize b).

(** [rand.NewZipf] returns nil when the exponent is at most 1. *)
Inductive keyChooser := UniformChooser (keys : Z) | ZipfChooser (s : f64) (imax : Z).
Definition newKeyChooser (distribution : string) (zipfS : f64) (keys : Z) : option keyChooser :=
  if bool_decide (distribution = distributionUniform) then Some (UniformChooser keys)
  else if bool_decide (distribution = distributionZipf) then
    if SFleb zipfS (of_int 1) then None else Some (ZipfChooser zipfS (u64 (keys - 1)))
  else None.
(** What [next] can return. *)
Definition chooses (c : keyChooser) (key : Z) : Prop :=
  match c with UniformChooser keys => 0 ≤ key < keys | ZipfChooser _ imax => 0 ≤ key ≤ imax end.
#[export] Instance chooses_dec c key : Decision (chooses c key).
Proof. destruct c; apply _. Defined.

(** ** Splitting the work *)

(** Everything here is Go [int] arithmetic, which wraps: no flag check bounds the
    keys or the operations from above. *)
Definition per_worker (total workers : Z) : Z := i64 (total + workers - 1) `quot` workers.

(** The keys of one populating worker; a worker with none is not started. *)
Definition populate_range (keys workers worker : Z) : list Z :=
  let perWorker := per_worker keys workers in
  let lo := i64 (worker * perWorker) in
  let hi := Z.min (i64 (lo + perWorker)) keys in
  if hi <=? lo then [] else seqZ lo (hi - lo).
Definition operations_of (total workers worker : Z) : Z :=
  let perWorker := per_worker total workers in
  Z.min perWorker (i64 (total - i64 (worker * perWorker))).
(** The node benchmark's way of saying the same. *)
Definition node_range (keys workers w : Z) : list Z :=
  let per := per_worker keys workers in
  let lo := i64 (w * per) in
  let hi := i64 (lo + per) in
  let hi := if keys <? hi then keys else hi in
  if hi <=? lo then [] else seqZ lo (hi - lo).
Definition node_operations (total workers w : Z) : Z :=
  let per := per_worker total workers in
  if total <? i64 (i64 (w * per) + per) then i64 (total - i64 (w * per)) else per.

(** ** Populating *)

Section populate.
Context {E : Type}.
(** What each put returns and whether the context is done before it: a key is put once. *)
Context (put : Z → option E) (done : Z → bool).

(** The keys a worker wrote, and the put that failed. *)
Fixpoint populate_worker (keys : list Z) : list Z * option (Z * E) :=
  match keys with
  | [] => ([], None)
  | key :: keys =>
      if done key then ([], None) else
      match put key with
      | Some e => ([], Some (key, e))
      | None => let '(l, r) := populate_worker keys in (key :: l, r)
      end
  end.

Definition populate_all (range : Z → Z → Z → list Z) (keys workers : Z) : list (list Z * option (Z * E)) :=
  (fun w => populate_worker (range keys workers w)) <$> seqZ 0 workers.
(** [once.Do]: the first failing worker to get there; [order] lists the workers as they do. *)
Definition populate (range : Z → Z → Z → list Z) (keys workers : Z) (order : list nat) : option (Z * E) :=
  head (omap (fun w => default None (snd <$> populate_all range keys workers !! w)) order).
End populate.

(** ** The load loop *)

Section load.
Context {E : Type}.

Inductive bench_error := ChooserFailed | GetFailed (key : Z) (e : E) | PutFailed (key : Z) (e : E) | WrongValue (key : Z) (len : nat).

Record workerResult := MkResult {
  r_samples : list latencySample;
  r_reads : Z; r_writes : Z; r_hits : Z; r_verified : Z; r_misses : Z; r_mismatches : Z; r_rpcErrors : Z;
  r_firstErr : option bench_error
}.
Definition no_result : workerResult := MkResult [] 0 0 0 0 0 0 0 None.

Definition recordRPCError (err : bench_error) (r : workerResult) : workerResult :=
  MkResult (r_samples r) (r_reads r) (r_writes r) (r_hits r) (r_verified r) (r_misses r) (r_mismatches r)
    (r_rpcErrors r + 1) (match r_firstErr r with Some e => Some e | None => Some err end).
Definition count_read (r : workerResult) : workerResult :=
  MkResult (r_samples r) (r_reads r + 1) (r_writes r) (r_hits r) (r_verified r) (r_misses r) (r_mismatches r) (r_rpcErrors r) (r_firstErr r).
Definition count_write (r : workerResult) : workerResult :=
  MkResult (r_samples r) (r_reads r) (r_writes r + 1) (r_hits r) (r_verified r) (r_misses r) (r_mismatches r) (r_rpcErrors r) (r_firstErr r).
Definition count_miss (r : workerResult) : workerResult :=
  MkResult (r_samples r) (r_reads r) (r_writes r) (r_hits r) (r_verified r) (r_misses r + 1) (r_mismatches r) (r_rpcErrors r) (r_firstErr r).
Definition count_hit (r : workerResult) : workerResult :=
  MkResult (r_samples r) (r_reads r) (r_writes r) (r_hits r + 1) (r_verified r) (r_misses r) (r_mismatches r) (r_rpcErrors r) (r_firstErr r).
Definition count_verified (r : workerResult) : workerResult :=
  MkResult (r_samples r) (r_reads r) (r_writes r) (r_hits r) (r_verified r + 1) (r_misses r) (r_mismatches r) (r_rpcErrors r) (r_firstErr r).
Definition count_mismatch (r : workerResult) : workerResult :=
  MkResult (r_samples r) (r_reads r) (r_writes r) (r_hits r) (r_verified r) (r_misses r) (r_mismatches r + 1) (r_rpcErrors r) (r_firstErr r).
Definition keep_sample (sample : latencySample) (r : workerResult) : workerResult :=
  MkResult (r_samples r ++ [sample]) (r_reads r) (r_writes r) (r_hits r) (r_verified r) (r_misses r) (r_mismatches r) (r_rpcErrors r) (r_firstErr r).

Record liveCounters := MkLive {
  l_reads : Z; l_writes : Z; l_hits : Z; l_verified : Z; l_misses : Z; l_mismatches : Z; l_rpcErrors : Z
}.
Definition no_live : liveCounters := MkLive 0 0 0 0 0 0 0.
Definition live_add (a b : liveCounters) : liveCounters :=
  MkLive (l_reads a + l_reads b) (l_writes a + l_writes b) (l_hits a + l_hits b) (l_verified a + l_verified b)
    (l_misses a + l_misses b) (l_mismatches a + l_mismatches b) (l_rpcErrors a + l_rpcErrors b).

(** What an RPC returned. *)
Inductive answer := GotAnswer (r : result E (option bytes)) | PutAnswer (err : option E).
(** Where a worker is in its loop: between operations; key and kind drawn; waiting for
    a Get or a Put; latency in its bucket, not yet in the reservoir; answer not yet
    judged; bytes not yet compared; or returned. *)
Inductive phase :=
| Idle
| Drawn (key : Z) (isRead : bool)
| Reading (key : Z) | Writing (key : Z)
| Observed (key : Z) (a : answer) (sample : latencySample)
| Judging (key : Z) (a : answer)
| Checking (key : Z) (got : bytes)
| Stopped.
Record worker := MkWorker { w_operation : Z; w_phase : phase; w_result : workerResult }.

(** What the workers share; a collector that is off is [None]. *)
Record load := MkLoad {
  lo_workers : list worker;
  lo_live : option liveCounters;
  lo_buckets : option (list intervalBucket);
  lo_sampler : option (reservoir latencySample);
  lo_counts : option (list Z)
}.

(** [noteLive] *)
Definition noteLive (delta : liveCounters) (s : load) : load :=
  MkLoad (lo_workers s) ((fun l => live_add l delta) <$> lo_live s) (lo_buckets s) (lo_sampler s) (lo_counts s).
Definition set_worker (w : nat) (x : worker) (s : load) : load :=
  MkLoad (<[w := x]> (lo_workers s)) (lo_live s) (lo_buckets s) (lo_sampler s) (lo_counts s).
Definition count_key (key : Z) (s : load) : load :=
  MkLoad (lo_workers s) (lo_live s) (lo_buckets s) (lo_sampler s)
    ((fun l => alter (Z.add 1) (Z.to_nat key) l) <$> lo_counts s).
(** The two shared accesses of [observe]. *)
Definition bucket_note (w : nat) (sample : latencySample) (s : load) : load :=
  MkLoad (lo_workers s) (lo_live s)
    ((fun l => alter (fun k => bucket_add k (ls_duration sample) (ls_isRead sample)) w l) <$> lo_buckets s)
    (lo_sampler s) (lo_counts s).
Definition sampler_note (choice : Z) (sample : latencySample) (s : load) : load :=
  MkLoad (lo_workers s) (lo_live s) (lo_buckets s) ((fun r => reservoir_add r choice sample) <$> lo_sampler s) (lo_counts s).
End load.
Arguments bench_error E : clear implicits.
Arguments workerResult E : clear implicits.
Arguments answer E : clear implicits.
Arguments phase E : clear implicits.
Arguments worker E : clear implicits.
Arguments load E : clear implicits.

#[export] Instance stopped_dec {E} (p : phase E) : Decision (p = Stopped).
Proof. destruct p; first [left; reflexivity|right; discriminate]. Defined.
#[export] Instance latencySample_eq_dec : EqDecision latencySample.
Proof. solve_decision. Defined.

(** ** Events *)

Section run.
Context {E : Type}.
Context (b : benchmark) (record : bool).

(** [limit w] is the operation count of a fixed run; a sustained run asks the clock. *)
Context (limit : option (nat → Z)).

(** What [Judge] finds: an error, no value, a value, or a put that succeeded. *)
Inductive judgement := Failed | Missed | Hit | Stored.
#[export] Instance judgement_eq_dec : EqDecision judgement.
Proof. solve_decision. Defined.

(** One turn of the loop is Start, Count, GetDone or PutDone, Offer, Judge and, for a
    hit, Compare. *)
Inductive load_event :=
| Start (w : nat) (key : Z) (isRead : bool)                       (* keepGoing, the draws; the key's count *)
| Count (w : nat) (isRead : bool)                                 (* live.reads or live.writes; the RPC is sent *)
| GetDone (w : nat) (key : Z) (r : result E (option bytes)) (elapsed : Z)   (* the worker's bucket *)
| PutDone (w : nat) (key : Z) (err : option E) (elapsed : Z)
| Offer (w : nat) (sample : latencySample) (choice : Z)           (* the reservoir *)
| Judge (w : nat) (j : judgement)                                 (* live.rpcErrors, misses or hits, or nothing *)
| Compare (w : nat) (ok : bool)                                   (* live.verified or live.mismatches *)
| Return (w : nat).                                               (* keepGoing said no *)

Definition event_worker (ev : load_event) : nat :=
  match ev with
  | Start w _ _ | Count w _ | GetDone w _ _ _ | PutDone w _ _ _ | Offer w _ _ | Judge w _ | Compare w _ | Return w => w
  end.

Definition keepGoing (w : nat) (operation : Z) : bool :=
  match limit with Some l => operation <? l w | None => true end.
Definition may_return (w : nat) (operation : Z) : bool :=
  match limit with Some l => negb (operation <? l w) | None => true end.

Definition live_read : liveCounters := MkLive 1 0 0 0 0 0 0.
Definition live_write : liveCounters := MkLive 0 1 0 0 0 0 0.
Definition live_hit : liveCounters := MkLive 0 0 1 0 0 0 0.
Definition live_verified : liveCounters := MkLive 0 0 0 1 0 0 0.
Definition live_miss : liveCounters := MkLive 0 0 0 0 1 0 0.
Definition live_mismatch : liveCounters := MkLive 0 0 0 0 0 1 0.
Definition live_error : liveCounters := MkLive 0 0 0 0 0 0 1.

(** What an event adds to the live counters. *)
Definition live_worth (ev : load_event) : liveCounters :=
  match ev with
  | Count _ isRead => if isRead then live_read else live_write
  | Judge _ Failed => live_error
  | Judge _ Missed => live_miss
  | Judge _ Hit => live_hit
  | Compare _ ok => if ok then live_verified else live_mismatch
  | _ => no_live
  end.
(** The one shared access of an event. *)
Definition shared_step (ev : load_event) (s : load E) : load E :=
  match ev with
  | Start _ key _ => count_key key s
  | Count _ _ | Judge _ _ | Compare _ _ => noteLive (live_worth ev) s
  | GetDone w _ _ elapsed => bucket_note w (MkSample elapsed true) s
  | PutDone w _ _ elapsed => bucket_note w (MkSample elapsed false) s
  | Offer _ sample choice => sampler_note choice sample s
  | Return _ => s
  end.

(** An RPC error stops the worker unless errors are survived; [again] is the next turn. *)
Definition again (x : worker E) (r : workerResult E) : worker E := MkWorker (w_operation x + 1) Idle r.
Definition return_ (x : worker E) (r : workerResult E) : worker E := MkWorker (w_operation x) Stopped r.
Definition on_error (x : worker E) (err : bench_error E) : worker E :=
  let r := recordRPCError err (w_result x) in
  if b_continueOnError b then again x r else return_ x r.
(** [result.samples], of a fixed run that records. *)
Definition keep_local (sample : latencySample) (r : workerResult E) : workerResult E :=
  if record && negb (sustained b) then keep_sample sample r else r.

Definition judgement_of (a : answer E) : judgement :=
  match a with
  | GotAnswer (Err _) | PutAnswer (Some _) => Failed
  | GotAnswer (Ok None) => Missed
  | GotAnswer (Ok (Some _)) => Hit
  | PutAnswer None => Stored
  end.
Definition judge (x : worker E) (key : Z) (a : answer E) : worker E :=
  match a with
  | GotAnswer (Err e) => on_error x (GetFailed key e)
  | GotAnswer (Ok None) => again x (count_miss (w_result x))
  | GotAnswer (Ok (Some got)) => MkWorker (w_operation x) (Checking key got) (count_hit (w_result x))
  | PutAnswer (Some e) => on_error x (PutFailed key e)
  | PutAnswer None => again x (w_result x)
  end.
Definition compared (x : worker E) (key : Z) (got : bytes) (ok : bool) : worker E :=
  if ok then again x (count_verified (w_result x))
  else return_ x (recordRPCError (WrongValue key (length got)) (count_mismatch (w_result x))).

(** The worker's own part of an event; [None] where the event cannot happen. *)
Definition worker_step (x : worker E) (ev : load_event) : option (worker E) :=
  let next p r := MkWorker (w_operation x) p r in
  let r := w_result x in
  match ev, w_phase x with
  | Start w key isRead, Idle =>
      if keepGoing w (w_operation x) &&
         match newKeyChooser (b_distribution b) (b_zipfS b) (b_keys b) with Some c => bool_decide (chooses c key) | None => false end
      then Some (next (Drawn key isRead) r) else None
  | Count _ isRead, Drawn key drawn =>
      if Bool.eqb isRead drawn
      then Some (if isRead then next (Reading key) (count_read r) else next (Writing key) (count_write r)) else None
  | GetDone _ key answer elapsed, Reading asked =>
      if key =? asked
      then Some (next (Observed key (GotAnswer answer) (MkSample elapsed true)) (keep_local (MkSample elapsed true) r)) else None
  | PutDone _ key err elapsed, Writing asked =>
      if key =? asked
      then Some (next (Observed key (PutAnswer err) (MkSample elapsed false)) (keep_local (MkSample elapsed false) r)) else None
  | Offer _ sample _, Observed key a taken =>
      if bool_decide (sample = taken) then Some (next (Judging key a) r) else None
  | Judge _ j, Judging key a => if bool_decide (j = judgement_of a) then Some (judge x key a) else None
  | Compare _ ok, Checking key got =>
      if Bool.eqb ok (bool_decide (got = valueFor (value_size b) key)) then Some (compared x key got ok) else None
  | Return w, Idle => if may_return w (w_operation x) then Some (return_ x r) else None
  | _, _ => None
  end.

Definition load_step (s : load E) (ev : load_event) : option (load E) :=
  x ← lo_workers s !! event_worker ev;
  x' ← worker_step x ev;
  Some (set_worker (event_worker ev) x' (shared_step ev s)).

Fixpoint load_run (s : load E) (evs : list load_event) : option (load E) :=
  match evs with
  | [] => Some s
  | ev :: evs => s ← load_step s ev; load_run s evs
  end.

(** A worker with no operations is not started, and one without a key chooser returns at
    once. *)
Definition launch (w : nat) : worker E :=
  if match limit with Some l => l w <=? 0 | None => false end then MkWorker 0 Stopped no_result
  else match newKeyChooser (b_distribution b) (b_zipfS b) (b_keys b) with
       | None => MkWorker 0 Stopped (recordRPCError ChooserFailed no_result)
       | Some _ => MkWorker 0 Idle no_result
       end.
Definition load_init (live : option liveCounters) (buckets : option (list intervalBucket))
    (sampler : option (reservoir latencySample)) (counts : option (list Z)) : load E :=
  MkLoad (launch <$> seq 0 (Z.to_nat (b_workers b))) live buckets sampler counts.
(** Every goroutine has returned. *)
Definition finished (s : load E) : Prop := Forall (fun x => w_phase x = Stopped) (lo_workers s).
End run.
Arguments load_event E : clear implicits.

(** ** The verdict on a run *)

Section summary.
Context {E : Type}.
Record resultSummary := MkSummary {
  s_all : list Z; s_readTimes : list Z; s_writeTimes : list Z;
  s_reads : Z; s_writes : Z; s_hits : Z; s_verified : Z; s_misses : Z; s_mismatches : Z; s_rpcErrors : Z;
  s_firstErr : option (bench_error E)
}.
Definition first_some {A} (a b : option A) : option A := match a with Some _ => a | None => b end.
Definition summarize (results : list (workerResult E)) : resultSummary :=
  let total f := sum_Z (f <$> results) in
  let samples := results ≫= r_samples in
  MkSummary (sortDurations (ls_duration <$> samples))
    (sortDurations (ls_duration <$> filter (fun s => ls_isRead s = true) samples))
    (sortDurations (ls_duration <$> filter (fun s => ls_isRead s = false) samples))
    (total r_reads) (total r_writes) (total r_hits) (total r_verified) (total r_misses) (total r_mismatches) (total r_rpcErrors)
    (foldl (fun e r => first_some e (r_firstErr r)) None results).

(** The error keeps the summary it prints; [None] is nil. *)
Definition correctnessError (s : resultSummary) (expectedOperations : Z) : option resultSummary :=
  let total := s_reads s + s_writes s in
  if (s_rpcErrors s =? 0) && (s_misses s =? 0) && (s_mismatches s =? 0) && (s_verified s =? s_reads s) &&
     (total =? expectedOperations)
  then None else Some s.

Inductive sustained_error :=
| ReportFailed | ValueMismatches (n : Z) | Unverified (hits verified : Z) | HadErrors (n : Z) | NothingDone.
(** [jsonErr] is the failure to write the report, when one is asked for. *)
Definition finishSustained (b : benchmark) (s : resultSummary) (jsonErr : bool) : option sustained_error :=
  if bool_decide (b_jsonPath b ≠ "") && jsonErr then Some ReportFailed
  else if 0 <? s_mismatches s then Some (ValueMismatches (s_mismatches s))
  else if negb (s_verified s =? s_hits s) then Some (Unverified (s_hits s) (s_verified s))
  else if negb (b_continueOnError b) && (0 <? s_rpcErrors s) then Some (HadErrors (s_rpcErrors s))
  else if s_reads s + s_writes s =? 0 then Some NothingDone
  else None.
End summary.
Arguments resultSummary E : clear implicits.

(** ** The split covers the work, as long as it does not wrap *)

(** The numerator of the split fits an [int]. *)
Definition split_fits (total workers : Z) : Prop := 0 ≤ total ∧ 1 ≤ workers ∧ total + workers ≤ 2 ^ 63.

Lemma per_worker_bounds total workers : split_fits total workers →
  0 ≤ per_worker total workers ∧ total ≤ workers * per_worker total workers ≤ total + workers - 1.
Proof.
  intros (Ht & Hw & Hf). unfold per_worker. rewrite i64_id by (unfold in_i64; lia). rewrite Z.quot_div_nonneg by lia.
  pose proof (Z.div_pos (total + workers - 1) workers). pose proof (Z.div_mod (total + workers - 1) workers).
  pose proof (Z.mod_pos_bound (total + workers - 1) workers). lia.
Qed.

(** None of the products and sums of a worker wraps then. *)
Lemma split_exact total workers w : split_fits total workers → 0 ≤ w < workers →
  let per := per_worker total workers in
  i64 (w * per) = w * per ∧ i64 (w * per + per) = w * per + per ∧ i64 (total - w * per) = total - w * per.
Proof.
  intros Hf Hw per. destruct (per_worker_bounds total workers Hf) as [Hp [_ Hu]]. fold per in Hp, Hu. destruct Hf as (Ht & _ & Hf).
  assert (0 ≤ w * per ∧ w * per + per ≤ workers * per) as [? ?] by nia.
  split_and!; apply i64_id; unfold in_i64; lia.
Qed.

Lemma populate_range_exact total workers w : split_fits total workers → 0 ≤ w < workers →
  let per := per_worker total workers in
  populate_range total workers w = seqZ (w * per) (Z.min per (total - w * per)) ∧
  operations_of total workers w = Z.min per (total - w * per).
Proof.
  intros Hf Hw per. destruct (split_exact total workers w Hf Hw) as (E1 & E2 & E3). fold per in E1, E2, E3.
  unfold populate_range, operations_of. fold per. rewrite E1, E2, E3. split; [|done].
  destruct (Z.leb_spec (Z.min (w * per + per) total) (w * per)).
  - by rewrite seqZ_nil by lia.
  - f_equal. lia.
Qed.

Lemma length_populate_range total workers w : split_fits total workers → 0 ≤ w < workers →
  length (populate_range total workers w) = Z.to_nat (operations_of total workers w).
Proof. intros Hf Hw. destruct (populate_range_exact total workers w Hf Hw) as [-> ->]. apply length_seqZ. Qed.

Lemma ranges_prefix total workers (j : nat) : split_fits total workers → Z.of_nat j ≤ workers →
  concat (populate_range total workers <$> seqZ 0 (Z.of_nat j)) = seqZ 0 (Z.min (Z.of_nat j * per_worker total workers) total).
Proof.
  intros Hf Hj. destruct (per_worker_bounds total workers Hf) as [Hp _]. set (per := per_worker total workers) in *.
  pose proof (proj1 Hf) as Ht.
  induction j as [|j IH]; [cbn; rewrite Z.min_l by lia; done|].
  rewrite Nat2Z.inj_succ, <-Z.add_1_r, seqZ_app by lia. rewrite fmap_app, concat_app, IH by lia. rewrite Z.add_0_l.
  rewrite (seqZ_cons (Z.of_nat j) 1) by lia. cbn. rewrite app_nil_r.
  destruct (populate_range_exact total workers (Z.of_nat j) Hf ltac:(lia)) as [-> _]. fold per.
  destruct (decide (total ≤ Z.of_nat j * per)) as [Hle|Hgt].
  - rewrite (seqZ_nil (Z.of_nat j * per)), app_nil_r by lia. f_equal. nia.
  - rewrite (Z.min_l (Z.of_nat j * per)) by lia.
    replace (Z.min ((Z.of_nat j + 1) * per) total) with (Z.of_nat j * per + Z.min per (total - Z.of_nat j * per)) by nia.
    rewrite (seqZ_app 0) by nia. by rewrite Z.add_0_l.
Qed.

Lemma ranges_partition total workers : split_fits total workers →
  concat (populate_range total workers <$> seqZ 0 workers) = seqZ 0 total.
Proof.
  intros Hf. pose proof (proj2 Hf) as [Hw _]. rewrite <-(Z2Nat.id workers) at 2 by lia. rewrite ranges_prefix by (done || lia).
  rewrite Z2Nat.id by lia. rewrite Z.min_r; [done|]. by apply per_worker_bounds.
Qed.

Lemma operations_sum total workers : split_fits total workers →
  sum_Z ((fun w => Z.max 0 (operations_of total workers w)) <$> seqZ 0 workers) = total.
Proof.
  intros Hf. assert (∀ l, Forall (fun w => 0 ≤ w < workers) l →
    sum_Z ((fun w => Z.max 0 (operations_of total workers w)) <$> l) =
    Z.of_nat (length (concat (populate_range total workers <$> l)))) as ->.
  { unfold sum_Z. induction 1 as [|w l Hw _ IH]; [done|]. cbn. rewrite length_app, length_populate_range by done. cbn in IH. lia. }
  - rewrite ranges_partition, length_seqZ by done. destruct Hf. lia.
  - apply Forall_forall. intros w Hw%elem_of_seqZ. lia.
Qed.

(** Both benchmarks split alike, wrap or no wrap. *)
Lemma node_range_split keys workers w : node_range keys workers w = populate_range keys workers w.
Proof.
  unfold node_range, populate_range. set (hi := i64 (i64 (w * per_worker keys workers) + per_worker keys workers)).
  destruct (Z.ltb_spec keys hi); [by rewrite Z.min_r by lia|by rewrite Z.min_l by lia].
Qed.
Lemma node_split total workers w : split_fits total workers → 0 ≤ w < workers →
  node_operations total workers w = operations_of total workers w.
Proof.
  intros Hf Hw. destruct (split_exact total workers w Hf Hw) as (E1 & E2 & E3).
  unfold node_operations, operations_of. rewrite E1, E2, E3. destruct (Z.ltb_spec total (w * per_worker total workers + per_worker total workers)); lia.
Qed.

(** What the wrap does: with the largest [--keys] and two workers no key is put and
    [populate] returns nil; with the largest [--ops] no worker of either benchmark has
    anything to do. *)
Lemma split_wraps {E} (put : Z → option E) done order :
  concat (populate_all put done populate_range maxInt64 2).*1 = [] ∧
  populate put done populate_range maxInt64 2 order = None ∧
  Forall (fun w => operations_of maxInt64 16 w < 0 ∧ node_operations maxInt64 16 w < 0) (seqZ 0 16).
Proof.
  split_and!; [vm_compute; done| |repeat (constructor; [vm_compute; done|]); constructor].
  unfold populate. change (populate_all put done populate_range maxInt64 2) with [(@nil Z, @None (Z * E)); (@nil Z, None)].
  induction order as [|[|[|w]] order IH]; done.
Qed.

(** ** Populating writes every key *)

Lemma populate_worker_spec {E} (put : Z → option E) done keys l r :
  populate_worker put done keys = (l, r) →
  Forall (fun k => put k = None) l ∧ (r = None → Forall (fun k => done k = false) keys → l = keys) ∧
  (∀ k e, r = Some (k, e) → k ∈ keys ∧ put k = Some e).
Proof.
  revert l r. induction keys as [|k keys IH]; intros l r H; cbn in H.
  { injection H as <- <-. split_and!; [done..|]. naive_solver. }
  destruct (done k) eqn:Hd; [injection H as <- <-; split_and!; [done| |naive_solver]; intros _ HF; inversion HF; congruence|].
  destruct (put k) as [e|] eqn:Hp.
  { injection H as <- <-. split_and!; [done|done|]. intros k' e' [= <- <-]. split; [left|done]. }
  destruct (populate_worker put done keys) as [l' r'] eqn:Hrec. injection H as <- <-. destruct (IH _ _ eq_refl) as (H1 & H2 & H3).
  split_and!; [by constructor| |].
  - intros -> HF. inversion HF; subst. f_equal. by apply H2.
  - intros k' e' Hr. destruct (H3 _ _ Hr) as [? ?]. split; [by right|done].
Qed.

Lemma head_omap_None {A B} (f : A → option B) l : head (omap f l) = None ↔ ∀ x, x ∈ l → f x = None.
Proof.
  induction l as [|x l IH]; cbn; [split; [by intros _ ? ?%not_elem_of_nil|done]|].
  setoid_rewrite elem_of_cons. destruct (f x) eqn:Hx; cbn; [split; [done|intros H; rewrite H in Hx by auto; done]|]. cbn in IH. rewrite IH. naive_solver.
Qed.

Lemma sum_Z_insert {A} (f : A → Z) l i x y :
  l !! i = Some x → sum_Z (f <$> <[i := y]> l) = sum_Z (f <$> l) - f x + f y.
Proof.
  intros Hi. apply take_drop_middle in Hi as Hl. rewrite insert_take_drop by (by eapply lookup_lt_Some).
  rewrite <-Hl at 3. rewrite !fmap_app, !fmap_cons, !sum_Z_app. unfold sum_Z. cbn. lia.
Qed.

(** ** Every event adds what it is worth *)

Lemma live_ext a c :
  l_reads a = l_reads c → l_writes a = l_writes c → l_hits a = l_hits c → l_verified a = l_verified c →
  l_misses a = l_misses c → l_mismatches a = l_mismatches c → l_rpcErrors a = l_rpcErrors c → a = c.
Proof. destruct a, c. cbn. congruence. Qed.
Ltac vec := apply live_ext; cbn; lia.
Lemma live_add_assoc a c d : live_add a (live_add c d) = live_add (live_add a c) d.
Proof. vec. Qed.
Lemma live_add_comm a c : live_add a c = live_add c a.
Proof. vec. Qed.
Lemma live_add_nil a : live_add a no_live = a.
Proof. vec. Qed.
Lemma live_nil_add a : live_add no_live a = a.
Proof. vec. Qed.

Definition sum_worth {A} (f : A → liveCounters) (l : list A) : liveCounters := foldr live_add no_live (f <$> l).
Lemma sum_worth_app {A} (f : A → liveCounters) l k : sum_worth f (l ++ k) = live_add (sum_worth f l) (sum_worth f k).
Proof. induction l as [|x l IH]; cbn; [by rewrite live_nil_add|]. unfold sum_worth in *. cbn. by rewrite IH, live_add_assoc. Qed.
Lemma sum_worth_insert {A} (f : A → liveCounters) (l : list A) w x x' d :
  l !! w = Some x → f x' = live_add (f x) d → sum_worth f (<[w := x']> l) = live_add (sum_worth f l) d.
Proof.
  intros Hw Hd. revert w Hw. induction l as [|y l IH]; intros [|w] Hw; [done|done| |].
  - injection Hw as ->. change (<[0%nat := x']> (x :: l)) with (x' :: l). unfold sum_worth. rewrite !fmap_cons. cbn [foldr]. rewrite Hd. vec.
  - change (<[S w := x']> (y :: l)) with (y :: <[w := x']> l). specialize (IH w Hw). unfold sum_worth in *. rewrite !fmap_cons. cbn [foldr].
    rewrite IH. vec.
Qed.
Lemma alter_as_insert {A} (f : A → A) (l : list A) (i : nat) x : l !! i = Some x → alter f i l = <[i := f x]> l.
Proof. intros Hx. rewrite list_insert_alter. apply list_alter_ext; [|done]. naive_solver. Qed.

Section accounting.
Context {E : Type} (b : benchmark) (record : bool) (limit : option (nat → Z)).
Abbreviation step := (load_step (E := E) b record limit).
Abbreviation wstep := (worker_step (E := E) b record limit).

Definition res_vec (r : workerResult E) : liveCounters :=
  MkLive (r_reads r) (r_writes r) (r_hits r) (r_verified r) (r_misses r) (r_mismatches r) (r_rpcErrors r).
Definition totals (s : load E) : liveCounters := sum_worth (fun x => res_vec (w_result x)) (lo_workers s).

(** What an event adds to the workers' results: the same, but a mismatch is also an
    RPC error there. *)
Definition result_worth (ev : load_event E) : liveCounters :=
  match ev with Compare _ false => live_add live_mismatch live_error | _ => live_worth ev end.

(** What an answer comes to in the end, and where on the way there a phase is. *)
Definition got_worth (key : Z) (got : bytes) : liveCounters :=
  if bool_decide (got = valueFor (value_size b) key) then live_verified else live_add live_mismatch live_error.
Definition answer_worth (key : Z) (a : answer E) : liveCounters :=
  match a with
  | GotAnswer (Err _) | PutAnswer (Some _) => live_error
  | GotAnswer (Ok None) => live_miss
  | GotAnswer (Ok (Some got)) => live_add live_hit (got_worth key got)
  | PutAnswer None => no_live
  end.
Definition worth (ev : load_event E) : liveCounters :=
  match ev with
  | Start _ _ isRead => if isRead then live_read else live_write
  | GetDone _ key r _ => answer_worth key (GotAnswer r)
  | PutDone _ key err _ => answer_worth key (PutAnswer err)
  | _ => no_live
  end.
Definition due (p : phase E) : liveCounters :=
  match p with
  | Drawn _ isRead => if isRead then live_read else live_write
  | Observed key a _ | Judging key a => answer_worth key a
  | Checking key got => got_worth key got
  | _ => no_live
  end.
Definition dues (s : load E) : liveCounters := sum_worth (fun x => live_add (res_vec (w_result x)) (due (w_phase x))) (lo_workers s).

Lemma step_inv s ev s' : step s ev = Some s' →
  ∃ x x', lo_workers s !! event_worker ev = Some x ∧ wstep x ev = Some x' ∧ s' = set_worker (event_worker ev) x' (shared_step ev s).
Proof using Type. intros (x & Hx & (x' & Hx' & [= <-])%bind_Some)%bind_Some. eauto. Qed.
Lemma shared_workers ev (s : load E) : lo_workers (shared_step ev s) = lo_workers s.
Proof using Type. by destruct ev. Qed.
Lemma workers_step s ev s' : step s ev = Some s' → length (lo_workers s') = length (lo_workers s).
Proof using Type. intros (x & x' & _ & _ & ->)%step_inv. cbn. by rewrite length_insert, shared_workers. Qed.

Lemma res_keep_local sample r : res_vec (keep_local b record sample r) = res_vec r.
Proof using Type. unfold keep_local. by destruct (_ && _). Qed.

(** Case analysis on the events a worker can take part in. *)
Ltac worker_cases ev x H :=
  unfold worker_step in H;
  destruct ev as [w key isRead|w isRead|w key r elapsed|w key err elapsed|w sample choice|w j|w ok|w];
  destruct (w_phase x) as [|key' drawn|asked|asked|key' a taken|key' a|key' got|] eqn:Hphase; try discriminate H.

Lemma wstep_worth x ev x' : wstep x ev = Some x' →
  res_vec (w_result x') = live_add (res_vec (w_result x)) (result_worth ev) ∧
  live_add (res_vec (w_result x')) (due (w_phase x')) =
    live_add (live_add (res_vec (w_result x)) (due (w_phase x))) (worth ev).
Proof using Type.
  intros H. worker_cases ev x H.
  - destruct (keepGoing _ _ _ && _); [|done]. injection H as <-. cbn. split; destruct isRead; vec.
  - destruct (Bool.eqb_spec isRead drawn) as [->|]; [|done]. injection H as <-. destruct drawn; split; vec.
  - destruct (Z.eqb_spec key asked) as [->|]; [|done]. injection H as <-. cbn [w_result w_phase due worth]. rewrite res_keep_local. split; [vec|].
    by rewrite live_add_nil.
  - destruct (Z.eqb_spec key asked) as [->|]; [|done]. injection H as <-. cbn [w_result w_phase due worth]. rewrite res_keep_local. split; [vec|].
    by rewrite live_add_nil.
  - case_bool_decide; [|done]. injection H as <-. cbn [w_result w_phase due worth]. split; [vec|by rewrite live_add_nil].
  - case_bool_decide as Hj; [|done]. injection H as <-. subst j. unfold judge, on_error, got_worth.
    destruct a as [[[got|]|e]|[e|]]; cbn [judgement_of]; try destruct (b_continueOnError b); (split; [vec|]);
      cbn [w_result w_phase due worth answer_worth again return_ got_worth]; unfold got_worth; try case_bool_decide; vec.
  - destruct (Bool.eqb_spec ok (bool_decide (got = valueFor (value_size b) key'))) as [->|]; [|done]. injection H as <-.
    unfold compared, result_worth, got_worth. cbn [due]. unfold got_worth. case_bool_decide; split; vec.
  - destruct (may_return _ _ _); [|done]. injection H as <-. split; vec.
Qed.

Lemma step_totals s ev s' : step s ev = Some s' →
  totals s' = live_add (totals s) (result_worth ev) ∧ dues s' = live_add (dues s) (worth ev) ∧
  lo_live s' = (fun l => live_add l (live_worth ev)) <$> lo_live s.
Proof using Type.
  intros (x & x' & Hx & Hx' & ->)%step_inv. destruct (wstep_worth x ev x' Hx') as [H1 H2]. unfold totals, dues. cbn. rewrite shared_workers.
  split; [by eapply sum_worth_insert|]. split; [by eapply sum_worth_insert|].
  destruct ev as [| | | | |w []| |]; cbn; try done; destruct (lo_live s); cbn; by rewrite ?live_add_nil.
Qed.

Lemma run_totals s evs s' : load_run b record limit s evs = Some s' →
  totals s' = live_add (totals s) (sum_worth result_worth evs) ∧ dues s' = live_add (dues s) (sum_worth worth evs) ∧
  lo_live s' = (fun l => live_add l (sum_worth live_worth evs)) <$> lo_live s.
Proof using Type.
  revert s. induction evs as [|ev evs IH]; intros s; cbn [load_run].
  - intros [= <-]. unfold sum_worth. cbn. rewrite !live_add_nil. split_and!; [done..|]. destruct (lo_live s); [cbn; by rewrite live_add_nil|done].
  - intros (s1 & H1 & H2)%bind_Some. apply IH in H2 as (Ht & Hd & Hlv). destruct (step_totals s ev s1 H1) as (T1 & T2 & T3).
    rewrite Ht, Hd, Hlv, T1, T2, T3. change (ev :: evs) with ([ev] ++ evs). rewrite !sum_worth_app.
    assert (∀ f : load_event E → liveCounters, sum_worth f [ev] = f ev) as Hone by (intros f; apply live_add_nil). rewrite !Hone.
    split_and!; [by rewrite live_add_assoc..|]. destruct (lo_live s); [cbn; by rewrite live_add_assoc|done].
Qed.

(** Nothing is due of workers that have returned. *)
Lemma dues_finished s : finished s → dues s = totals s.
Proof using Type.
  unfold finished, dues, totals. induction (lo_workers s) as [|x l IH]; [done|]. intros [Hx Hl]%Forall_cons.
  unfold sum_worth in *. cbn. rewrite (IH Hl), Hx. cbn. by rewrite live_add_nil.
Qed.

(** The counters agree with the results at every moment. *)
Lemma live_result_worth evs :
  let lv := sum_worth live_worth evs in let v := sum_worth result_worth evs in
  l_reads lv = l_reads v ∧ l_writes lv = l_writes v ∧ l_hits lv = l_hits v ∧ l_verified lv = l_verified v ∧
  l_misses lv = l_misses v ∧ l_mismatches lv = l_mismatches v ∧ l_rpcErrors lv + l_mismatches lv = l_rpcErrors v.
Proof using Type.
  cbn zeta. induction evs as [|ev evs IH]; [done|]. unfold sum_worth in *. rewrite !fmap_cons. cbn [foldr].
  destruct ev as [|w []| | | |w []|w []|]; cbn in *; lia.
Qed.
End accounting.

(** ** What a worker's result says of its operations *)

Section invariant.
Context {E : Type} (b : benchmark) (record : bool) (limit : option (nat → Z)).
Abbreviation step := (load_step (E := E) b record limit).

(** A read that is counted and not yet decided. *)
Definition reading (p : phase E) : Z :=
  match p with Reading _ | Observed _ (GotAnswer _) _ | Judging _ (GotAnswer _) | Checking _ _ => 1 | _ => 0 end.
(** Of a fixed run: how far the worker has come. *)
Definition progress (l : nat → Z) (w : nat) (x : worker E) : Prop :=
  let done := r_reads (w_result x) + r_writes (w_result x) in
  match w_phase x with
  | Idle => done = w_operation x ∧ done ≤ Z.max 0 (l w)
  | Drawn _ _ => done = w_operation x ∧ done < l w
  | Stopped => 0 < r_rpcErrors (w_result x) ∨ done = Z.max 0 (l w)
  | _ => done = w_operation x + 1 ∧ done ≤ Z.max 0 (l w)
  end.
Record winv (w : nat) (x : worker E) : Prop := {
  wi_operation : 0 ≤ w_operation x;
  wi_errors : 0 ≤ r_rpcErrors (w_result x);
  wi_misses : 0 ≤ r_misses (w_result x);
  wi_mismatches : 0 ≤ r_mismatches (w_result x);
  wi_low : r_verified (w_result x) + reading (w_phase x) ≤ r_reads (w_result x);
  wi_high : r_reads (w_result x) ≤ r_verified (w_result x) + r_misses (w_result x) + r_rpcErrors (w_result x) + reading (w_phase x);
  wi_progress : ∀ l, limit = Some l → progress l w x
}.
Definition load_inv (s : load E) : Prop := ∀ w x, lo_workers s !! w = Some x → winv w x.

Lemma keep_local_fields sample r :
  let r' := keep_local (E := E) b record sample r in
  r_reads r' = r_reads r ∧ r_writes r' = r_writes r ∧ r_verified r' = r_verified r ∧ r_misses r' = r_misses r ∧
  r_mismatches r' = r_mismatches r ∧ r_rpcErrors r' = r_rpcErrors r.
Proof using Type. cbn. unfold keep_local. by destruct (_ && _). Qed.

(** The invariant of the worker before the event, as facts about its phase. *)
Ltac keep_winv Hphase H :=
  destruct H as [W0 W1 W2 W3 W4 W5 W6]; unfold progress in W6; rewrite Hphase in W4, W5, W6; cbn in W4, W5;
  split; cbn; try lia; intros lim Hlim; specialize (W6 lim Hlim); cbn in *; try lia.

Lemma winv_answered w x p sample :
  winv w x → reading (w_phase x) = reading p →
  (∀ l, progress l w x → progress l w (MkWorker (w_operation x) p (w_result x))) →
  winv w (MkWorker (w_operation x) p (keep_local b record sample (w_result x))).
Proof using Type.
  intros [W0 W1 W2 W3 W4 W5 W6] Hr Hp. destruct (keep_local_fields sample (w_result x)) as (K1 & K2 & K3 & K4 & K5 & K6).
  rewrite Hr in W4, W5. split; cbn; rewrite ?K1, ?K2, ?K3, ?K4, ?K5, ?K6; try lia.
  intros l Hl. specialize (Hp l (W6 l Hl)). unfold progress in *. cbn in *. by rewrite K1, K2, K6.
Qed.

Lemma winv_step x ev x' :
  worker_step b record limit x ev = Some x' → winv (event_worker ev) x → winv (event_worker ev) x'.
Proof using Type.
  intros H Hw. unfold worker_step in H.
  destruct ev as [w key isRead|w isRead|w key r elapsed|w key err elapsed|w sample choice|w j|w ok|w];
    destruct (w_phase x) as [|key' drawn|asked|asked|key' a taken|key' a|key' got|] eqn:Hphase; try discriminate H; cbn [event_worker] in *.
  - destruct (keepGoing limit w (w_operation x)) eqn:Hk; [|done]. destruct (newKeyChooser _ _ _); [|done]. cbn [andb] in H.
    case_bool_decide; [|done]. injection H as <-. unfold keepGoing in Hk. keep_winv Hphase Hw.
    rewrite Hlim in Hk. apply Z.ltb_lt in Hk. lia.
  - destruct (Bool.eqb_spec isRead drawn) as [->|]; [|done]. injection H as <-. destruct drawn; keep_winv Hphase Hw.
  - destruct (Z.eqb_spec key asked); [|done]. injection H as <-. apply winv_answered; [done|by rewrite Hphase|].
    intros l. unfold progress. rewrite Hphase. done.
  - destruct (Z.eqb_spec key asked); [|done]. injection H as <-. apply winv_answered; [done|by rewrite Hphase|].
    intros l. unfold progress. rewrite Hphase. done.
  - case_bool_decide; [|done]. injection H as <-. keep_winv Hphase Hw.
  - case_bool_decide; [|done]. injection H as <-. unfold judge, on_error.
    destruct a as [[[got|]|e]|[e|]]; try destruct (b_continueOnError b); keep_winv Hphase Hw.
  - destruct (Bool.eqb_spec ok (bool_decide (got = valueFor (value_size b) key'))) as [->|]; [|done]. injection H as <-.
    unfold compared. case_bool_decide; keep_winv Hphase Hw.
  - destruct (may_return limit w (w_operation x)) eqn:Hm; [|done]. injection H as <-. unfold may_return in Hm. keep_winv Hphase Hw.
    rewrite Hlim in Hm. apply negb_true_iff, Z.ltb_ge in Hm. right. lia.
Qed.

Lemma inv_step s ev s' : step s ev = Some s' → load_inv s → load_inv s'.
Proof using Type.
  intros (x & x' & Hx & Hx' & ->)%step_inv Hinv w y. cbn. rewrite shared_workers, list_lookup_insert.
  case_decide as Hd; [|apply Hinv]. destruct Hd as [<- _]. intros [= <-]. eapply winv_step; [done|]. by apply Hinv.
Qed.
Lemma inv_run s evs s' : load_run b record limit s evs = Some s' → load_inv s → load_inv s'.
Proof using Type.
  revert s. induction evs as [|ev evs IH]; intros s; cbn [load_run]; [by intros [= <-]|].
  intros (s1 & H1 & H2)%bind_Some Hinv. eapply IH; [done|]. by eapply inv_step.
Qed.
Lemma inv_init live buckets sampler counts : load_inv (load_init b limit live buckets sampler counts).
Proof using Type.
  intros w x. cbn. rewrite list_lookup_fmap. intros (i & (-> & Hi)%lookup_seq & ->)%fmap_Some. cbn [Nat.add]. unfold launch.
  destruct limit as [l|] eqn:Hlim.
  - destruct (Z.leb_spec (l w) 0); [|destruct (newKeyChooser _ _ _)]; split; cbn; try lia; intros l' Hl'; assert (l' = l) as -> by congruence; unfold progress; cbn; lia.
  - destruct (newKeyChooser _ _ _); split; cbn; try lia; done.
Qed.

Lemma workers_run (s : load E) evs s' : load_run b record limit s evs = Some s' → length (lo_workers s') = length (lo_workers s).
Proof using Type.
  revert s. induction evs as [|ev evs IH]; intros s; cbn [load_run]; [by intros [= <-]|].
  intros (s1 & H1 & H2)%bind_Some. rewrite (IH _ H2). by eapply workers_step.
Qed.
End invariant.

(** ** From counters to verdicts *)

Section verdict.
Context {E : Type} (b : benchmark).

(** The answer a correct cluster gives. *)
Definition good (ev : load_event E) : Prop :=
  match ev with
  | GetDone _ key r _ => r = Ok (Some (valueFor (value_size b) key))
  | PutDone _ _ err _ => err = None
  | _ => True
  end.
(** Wrong bytes; an RPC that failed; an operation begun. *)
Definition corrupt (ev : load_event E) : Prop :=
  match ev with GetDone _ key (Ok (Some got)) _ => got ≠ valueFor (value_size b) key | _ => False end.
Definition failed_rpc (ev : load_event E) : Prop :=
  match ev with GetDone _ _ (Err _) _ | PutDone _ _ (Some _) _ => True | _ => False end.
Definition begun (ev : load_event E) : Prop := match ev with Start _ _ _ => True | _ => False end.
#[export] Instance begun_dec ev : Decision (begun ev).
Proof. destruct ev; apply _. Defined.

Lemma worth_cases ev :
  (good ev ∧ l_rpcErrors (worth b ev) = 0 ∧ l_misses (worth b ev) = 0 ∨ ¬ good ev ∧ 0 < l_rpcErrors (worth b ev) + l_misses (worth b ev)) ∧
  0 ≤ l_rpcErrors (worth b ev) ∧ 0 ≤ l_misses (worth b ev) ∧ 0 ≤ l_mismatches (worth b ev) ∧
  l_hits (worth b ev) = l_verified (worth b ev) + l_mismatches (worth b ev) ∧
  (l_mismatches (worth b ev) = 0 ↔ ¬ corrupt ev) ∧
  (l_rpcErrors (worth b ev) = l_mismatches (worth b ev) ↔ ¬ failed_rpc ev) ∧
  l_mismatches (worth b ev) ≤ l_rpcErrors (worth b ev) ∧
  l_reads (worth b ev) + l_writes (worth b ev) = (if decide (begun ev) then 1 else 0).
Proof using Type.
  unfold worth, answer_worth, got_worth, good, corrupt, failed_rpc.
  destruct ev as [w key []|w []|w key [[got|]|e] el|w key [e|] el|w sample ch|w j|w ok|w];
    try (cbn; repeat case_decide; cbn in *; naive_solver lia).
Qed.

(** The same of a whole run. *)
Lemma sum_cases (evs : list (load_event E)) :
  let v := sum_worth (worth b) evs in
  (0 ≤ l_rpcErrors v ∧ 0 ≤ l_misses v ∧ 0 ≤ l_mismatches v ∧ l_mismatches v ≤ l_rpcErrors v) ∧
  (l_rpcErrors v = 0 ∧ l_misses v = 0 ↔ Forall good evs) ∧
  (l_mismatches v = 0 ↔ Forall (fun ev => ¬ corrupt ev) evs) ∧
  (l_rpcErrors v = l_mismatches v ↔ Forall (fun ev => ¬ failed_rpc ev) evs) ∧
  l_hits v = l_verified v + l_mismatches v ∧
  l_reads v + l_writes v = Z.of_nat (length (filter begun evs)).
Proof using Type.
  cbn zeta. induction evs as [|ev evs IH]; [cbn; repeat split; (lia || done || constructor)|].
  change (sum_worth ?f (ev :: evs)) with (live_add (f ev) (sum_worth f evs)).
  set (v := sum_worth (worth b) evs) in *.
  destruct IH as ((I1 & I2 & I3 & I4) & I5 & I6 & I7 & I8 & I9).
  destruct (worth_cases ev) as (Hg & H1 & H2 & H3 & H4 & H5 & H6 & H7 & H8).
  rewrite !Forall_cons, <-I5, <-I6, <-I7, <-H5, <-H6, filter_cons. cbn [live_add l_reads l_writes l_hits l_verified l_misses l_mismatches l_rpcErrors].
  assert (good ev ↔ l_rpcErrors (worth b ev) + l_misses (worth b ev) = 0) as Hgood by (destruct Hg as [(? & ? & ?)|[? ?]]; split; intros; lia || tauto).
  repeat split; rewrite ?Hgood in *; try (intros; destruct_and?; case_decide; cbn [length]; lia || tauto).
Qed.

Lemma summarize_totals (s : load E) :
  let r := summarize (w_result <$> lo_workers s) in
  s_reads r = l_reads (totals s) ∧ s_writes r = l_writes (totals s) ∧ s_hits r = l_hits (totals s) ∧
  s_verified r = l_verified (totals s) ∧ s_misses r = l_misses (totals s) ∧
  s_mismatches r = l_mismatches (totals s) ∧ s_rpcErrors r = l_rpcErrors (totals s).
Proof using Type.
  cbn. unfold totals, sum_Z. generalize (lo_workers s). intros l. induction l as [|x l IH]; [done|]. cbn in *.
  destruct IH as (-> & -> & -> & -> & -> & -> & ->). done.
Qed.

Lemma chooser_ok : benchmark_validate b = None → ∃ c, newKeyChooser (b_distribution b) (b_zipfS b) (b_keys b) = Some c.
Proof using Type.
  unfold benchmark_validate, newKeyChooser. intros H. repeat (case_match; [discriminate H|]).
  repeat case_bool_decide; cbn in *; try done; eauto. destruct (SFleb _ _); [done|eauto].
Qed.

Lemma init_dues limit live buckets sampler counts : benchmark_validate b = None →
  let s : load E := load_init b limit live buckets sampler counts in dues b s = no_live ∧ totals s = no_live.
Proof using Type.
  intros [c Hc]%chooser_ok. unfold dues, totals. cbn. generalize (seq 0 (Z.to_nat (b_workers b))). intros l.
  induction l as [|w l IH]; [done|]. unfold sum_worth in *. cbn. cbn in IH. destruct IH as [-> ->].
  unfold launch. rewrite Hc. destruct limit as [f|]; [destruct (f w <=? 0)|]; done.
Qed.
End verdict.

(** Workers that all returned without an error did all their operations and verified all
    their reads. *)
Lemma workers_clean {E} b total (s : load E) l :
  benchmark_validate b = None → split_fits total (b_workers b) → l = (fun w => operations_of total (b_workers b) (Z.of_nat w)) →
  load_inv (Some l) s → length (lo_workers s) = Z.to_nat (b_workers b) → finished s →
  (l_rpcErrors (totals s) = 0 ∧ l_misses (totals s) = 0 → l_verified (totals s) = l_reads (totals s)) ∧
  (l_rpcErrors (totals s) = 0 ∧ l_misses (totals s) = 0 → l_reads (totals s) + l_writes (totals s) = total).
Proof.
  intros Hvalid Htotal -> Hinv Hlen Hend. set (l := fun w => _) in *.
  assert (∀ (ws : list (worker E)) i, (∀ j x, ws !! j = Some x → winv (Some l) (i + j) x ∧ w_phase x = Stopped) →
    let v := sum_worth (fun x => res_vec (w_result x)) ws in
    0 ≤ l_rpcErrors v ∧ 0 ≤ l_misses v ∧
    (l_rpcErrors v = 0 ∧ l_misses v = 0 → l_verified v = l_reads v ∧
       l_reads v + l_writes v = sum_Z ((fun w => Z.max 0 (l w)) <$> seq i (length ws)))) as Hind.
  { induction ws as [|x ws IH]; intros i Hws; [cbn; lia|].
    destruct (Hws 0%nat x eq_refl) as [[H0 H1 H2 H3 H4 H5 H6] Hp]. rewrite Nat.add_0_r in H6. specialize (H6 l eq_refl).
    unfold progress in H6. rewrite Hp in H4, H5, H6. cbn [reading] in H4, H5.
    destruct (IH (S i)) as (I1 & I2 & I3).
    { intros j y Hj. replace (S i + j)%nat with (i + S j)%nat by lia. by apply Hws. }
    cbn [length seq]. unfold sum_worth in *. rewrite !fmap_cons. cbn [foldr live_add res_vec l_reads l_writes l_hits l_verified l_misses l_mismatches l_rpcErrors].
    unfold sum_Z. cbn [foldr]. fold (sum_Z ((fun w => Z.max 0 (l w)) <$> seq (S i) (length ws))).
    split; [lia|]. split; [lia|]. intros [Ha Hb]. destruct I3 as [I3 I4]; [lia|]. lia. }
  destruct (Hind (lo_workers s) 0%nat) as (_ & _ & H).
  { intros j x Hj. split; [by apply Hinv|]. unfold finished in Hend. rewrite Forall_forall in Hend. apply Hend. by eapply list_elem_of_lookup_2. }
  split; [by apply H|]. intros Hz. destruct (H Hz) as [_ Hsum]. fold (totals s) in Hsum. rewrite Hsum, Hlen.
  rewrite <-(operations_sum total (b_workers b)) by done. unfold seqZ. rewrite <-list_fmap_compose. f_equal.
  apply list_fmap_ext. intros _ w _. unfold l. cbn. by rewrite Z.add_0_r.
Qed.

(** A fixed run whose workers have all returned. *)
Lemma run_verdict {E} b record total live buckets sampler counts evs (s : load E) :
  benchmark_validate b = None → split_fits total (b_workers b) →
  load_run b record (Some (fun w => operations_of total (b_workers b) (Z.of_nat w)))
    (load_init b (Some (fun w => operations_of total (b_workers b) (Z.of_nat w))) live buckets sampler counts) evs = Some s →
  finished s →
  let r := summarize (w_result <$> lo_workers s) in
  (s_rpcErrors r = 0 ∧ s_misses r = 0 ↔ Forall (good b) evs) ∧
  (s_rpcErrors r = 0 ∧ s_misses r = 0 → s_verified r = s_reads r ∧ s_mismatches r = 0) ∧
  (s_rpcErrors r = 0 ∧ s_misses r = 0 → s_reads r + s_writes r = total) ∧
  Z.of_nat (length (filter begun evs)) = s_reads r + s_writes r.
Proof.
  intros Hvalid Htotal Hrun Hend r. set (l := fun w => operations_of total (b_workers b) (Z.of_nat w)) in Hrun.
  destruct (run_totals b record (Some l) _ _ _ Hrun) as (_ & Ht & _). rewrite (proj1 (init_dues b _ _ _ _ _ Hvalid)), live_nil_add, dues_finished in Ht by done.
  pose proof (inv_run b record (Some l) _ _ _ Hrun (inv_init b (Some l) live buckets sampler counts)) as Hinv.
  pose proof (workers_run b record (Some l) _ _ _ Hrun) as Hlen. cbn in Hlen. rewrite length_fmap, length_seq in Hlen.
  destruct (summarize_totals s) as (Sr & Sw & _ & Sv & Sm & Smm & Se). fold r in Sr, Sw, Sv, Sm, Smm, Se.
  destruct (sum_cases b evs) as (Hpos & Hgood & _ & _ & _ & Hbegun).
  rewrite <-Ht in Hgood, Hbegun, Hpos. rewrite Sr, Sw, Sv, Sm, Smm, Se.
  split; [done|]. destruct (workers_clean b total s l) as [Hver Hsum]; [done..|].
  split; [intros H; split; [by apply Hver|lia]|]. split; [exact Hsum|lia].
Qed.

(** ** Claims *)

(** The keys of a populating phase without failure. *)
Lemma populate_writes {E} (put : Z → option E) done keys workers order :
  split_fits keys workers →
  (∀ w, (w < Z.to_nat workers)%nat → w ∈ order) →
  (∀ k, done k = true → ∃ k' e, (k', e) ∈ omap snd (populate_all put done populate_range keys workers)) →
  populate put done populate_range keys workers order = None →
  concat (populate_all put done populate_range keys workers).*1 = seqZ 0 keys ∧ (∀ k, 0 ≤ k < keys → put k = None).
Proof.
  intros Hfits Horder Hcancel Hnil.
  assert (∀ x, x ∈ populate_all put done populate_range keys workers → x.2 = None) as Hnone.
  { intros [l r] (w & Hw)%list_elem_of_lookup. destruct r as [f|]; [|done]. exfalso.
    assert (w ∈ order) as Hin.
    { apply Horder. apply lookup_lt_Some in Hw. unfold populate_all in Hw. by rewrite length_fmap, length_seqZ in Hw. }
    unfold populate in Hnil. assert (f ∈ omap (fun w => default None (snd <$> populate_all put done populate_range keys workers !! w)) order) as Hf.
    { apply list_elem_of_omap. exists w. by rewrite Hw. }
    destruct (omap _ order); [by apply not_elem_of_nil in Hf|done]. }
  assert (∀ k, done k = false) as Hdone.
  { intros k. destruct (done k) eqn:Hk; [|done]. destruct (Hcancel k Hk) as (k' & e & (x & Hx & He)%list_elem_of_omap).
    apply Hnone in Hx. congruence. }
  assert ((populate_all put done populate_range keys workers).*1 = populate_range keys workers <$> seqZ 0 workers) as Hall.
  { unfold populate_all. rewrite <-list_fmap_compose. apply list_fmap_ext. intros i w Hi. cbn.
    destruct (populate_worker put done (populate_range keys workers w)) as [l r] eqn:Hp.
    assert (r = None) as ->.
    { apply (Hnone (l, r)). apply list_elem_of_fmap. exists w. split; [done|]. by eapply list_elem_of_lookup_2. }
    apply populate_worker_spec in Hp as (_ & H & _). apply H; [done|]. by apply Forall_true. }
  split; [rewrite Hall; by apply ranges_partition|].
  intros k Hk. assert (k ∈ concat (populate_all put done populate_range keys workers).*1) as Hin.
  { rewrite Hall, ranges_partition by done. apply elem_of_seqZ. lia. }
  apply list_elem_of_In, in_concat in Hin as (l & Hl & Hkl). apply list_elem_of_In in Hl, Hkl.
  apply list_elem_of_fmap in Hl as (x & -> & (w & -> & _)%list_elem_of_fmap).
  destruct (populate_worker put done (populate_range keys workers w)) as [l r] eqn:Hp. cbn in Hkl.
  apply populate_worker_spec in Hp as (HF & _). rewrite Forall_forall in HF. auto.
Qed.

(** The working set is populated exactly once.  When the keys and the workers together
    are at most 2^63, so that the split does not wrap, and [populate] returns nil (its
    context being cancelled only by a failed put), the keys of the workers, in worker
    order, are 0 to keys-1 without gap or overlap, and every one of them was put
    successfully; the node benchmark splits its keys and operations in the very same
    way. *)
Theorem populate_complete {E} (put : Z → option E) done keys workers order
    (Hfits : split_fits keys workers)
    (Horder : ∀ w, (w < Z.to_nat workers)%nat → w ∈ order)
    (Hcancel : ∀ k, done k = true → ∃ k' e, (k', e) ∈ omap snd (populate_all put done populate_range keys workers))
    (Hnil : populate put done populate_range keys workers order = None) :
  concat (populate_all put done populate_range keys workers).*1 = seqZ 0 keys ∧
  (∀ k, 0 ≤ k < keys → put k = None) ∧
  (∀ w, 0 ≤ w < workers →
     node_range keys workers w = populate_range keys workers w ∧
     node_operations keys workers w = operations_of keys workers w).
Proof.
  destruct (populate_writes put done keys workers order Hfits Horder Hcancel Hnil) as [H1 H2].
  split; [done|]. split; [done|]. intros w Hw. split; [apply node_range_split|by apply node_split].
Qed.

(** [populate] returns nil exactly when every put succeeds, once the split does not wrap
    and nothing but a failed put cancels the context. *)
Lemma populate_nil_iff {E} (put : Z → option E) done keys workers order :
  split_fits keys workers → (∀ w, (w < Z.to_nat workers)%nat → w ∈ order) →
  (∀ k, done k = true → ∃ k' e, (k', e) ∈ omap snd (populate_all put done populate_range keys workers)) →
  populate put done populate_range keys workers order = None ↔ ∀ k, 0 ≤ k < keys → put k = None.
Proof.
  intros Hf Ho Hc. split.
  - intros H. by apply (populate_writes put done keys workers order).
  - intros Hput. unfold populate. apply head_omap_None. intros w _.
    destruct (populate_all _ _ _ _ _ !! w) as [[l r]|] eqn:Hl; [cbn|done]. unfold populate_all in Hl.
    rewrite list_lookup_fmap in Hl. destruct (seqZ 0 workers !! w) as [w'|] eqn:Hs; [|done]. injection Hl as Hl.
    assert (∀ ks, Forall (fun k => 0 ≤ k < keys) ks → (populate_worker put done ks).2 = None) as Hnone.
    { induction ks as [|k ks IH]; [done|]. intros [Hk1 Hk2]%Forall_cons. cbn. destruct (done k); [done|]. rewrite (Hput k Hk1).
      specialize (IH Hk2). by destruct (populate_worker _ _ ks). }
    specialize (Hnone (populate_range keys workers w')). rewrite Hl in Hnone. apply Hnone.
    apply Forall_forall. intros k Hin. assert (k ∈ seqZ 0 keys) as Hk'; [|apply elem_of_seqZ in Hk'; lia].
    rewrite <-(ranges_partition keys workers) by done. apply list_elem_of_In, in_concat.
    exists (populate_range keys workers w'). split; [|by apply list_elem_of_In].
    apply list_elem_of_In, list_elem_of_fmap. exists w'. split; [done|]. by eapply list_elem_of_lookup_2.
Qed.

(** The verdict of a fixed run is right, whatever the interleaving of its workers.  Once
    every worker has returned, [correctnessError] is nil exactly when every read that
    answered returned the bytes of its key and every write succeeded; and then exactly the
    asked-for number of operations was performed.  The operations and the workers together
    are at most 2^63, so that the split does not wrap. *)
Theorem bench_verdict {E} b record total live buckets sampler counts evs (s : load E)
    (Hvalid : benchmark_validate b = None) (Htotal : split_fits total (b_workers b))
    (Hrun : load_run b record (Some (fun w => operations_of total (b_workers b) (Z.of_nat w)))
              (load_init b (Some (fun w => operations_of total (b_workers b) (Z.of_nat w))) live buckets sampler counts) evs = Some s)
    (Hend : finished s) :
  (correctnessError (summarize (w_result <$> lo_workers s)) total = None ↔ Forall (good b) evs) ∧
  (Forall (good b) evs → Z.of_nat (length (filter begun evs)) = total).
Proof.
  destruct (run_verdict b record total live buckets sampler counts evs s Hvalid Htotal Hrun Hend) as (Hgood & Hv & Hops & Hbegun).
  split.
  - unfold correctnessError. set (r := summarize _) in *. rewrite <-Hgood. split.
    + destruct (_ && _) eqn:H; [|done]. rewrite !andb_true_iff, !Z.eqb_eq in H. tauto.
    + intros H. destruct (Hv H) as [Hver Hmis]. rewrite Hver, Hmis, (Hops H). destruct H as [-> ->]. by rewrite !Z.eqb_refl.
  - intros H. rewrite Hbegun. apply Hops. by apply Hgood.
Qed.

(** At every moment of a soak each live counter is the sum over the workers, except that
    the workers' RPC errors also count the mismatches. *)
Lemma live_is_summary {E} b buckets sampler counts evs (s : load E) :
  benchmark_validate b = None →
  load_run b false None (load_init b None (Some no_live) buckets sampler counts) evs = Some s →
  let r := summarize (w_result <$> lo_workers s) in
  let live := sum_worth live_worth evs in
  lo_live s = Some live ∧
  l_reads live = s_reads r ∧ l_writes live = s_writes r ∧ l_hits live = s_hits r ∧ l_verified live = s_verified r ∧
  l_misses live = s_misses r ∧ l_mismatches live = s_mismatches r ∧ l_rpcErrors live + l_mismatches live = s_rpcErrors r.
Proof.
  intros Hvalid Hrun r live. destruct (run_totals b false None _ _ _ Hrun) as (Ht & _ & Hl).
  rewrite (proj2 (init_dues b _ _ _ _ _ Hvalid)), live_nil_add in Ht. cbn in Hl. rewrite live_nil_add in Hl. split; [done|].
  destruct (summarize_totals s) as (Sr & Sw & Sh & Sv & Sm & Smm & Se). fold r in Sr, Sw, Sh, Sv, Sm, Smm, Se.
  rewrite Sr, Sw, Sh, Sv, Sm, Smm, Se, Ht. apply live_result_worth.
Qed.

(** The verdict of a soak, under any interleaving, once its workers have returned.  The
    final check fails for wrong bytes, for an RPC that failed without
    [--continue-on-error], and for a run that began nothing, and for nothing else: misses never
    fail it, and the branch for hits that went unverified is unreachable. *)
Theorem sustained_verdict {E} b buckets sampler counts evs (s : load E)
    (Hvalid : benchmark_validate b = None)
    (Hrun : load_run b false None (load_init b None (Some no_live) buckets sampler counts) evs = Some s)
    (Hend : finished s) :
  let r := summarize (w_result <$> lo_workers s) in
  (finishSustained b r false = None ↔
     Forall (fun ev => ¬ corrupt b ev) evs ∧
     (b_continueOnError b = false → Forall (fun ev => ¬ failed_rpc ev) evs) ∧ filter begun evs ≠ []) ∧
  (∀ hits verified jsonErr, finishSustained b r jsonErr ≠ Some (Unverified hits verified)).
Proof.
  intros r. destruct (run_totals b false None _ _ _ Hrun) as (_ & Ht & _).
  rewrite (proj1 (init_dues b _ _ _ _ _ Hvalid)), live_nil_add, dues_finished in Ht by done.
  destruct (summarize_totals s) as (Sr & Sw & Sh & Sv & Sm & Smm & Se). fold r in Sr, Sw, Sh, Sv, Sm, Smm, Se.
  destruct (sum_cases b evs) as ((P1 & P2 & P3 & P4) & _ & Hc & Hf & Hhits & Hb).
  rewrite Ht in Sr, Sw, Sh, Sv, Sm, Smm, Se. clear Ht.
  set (v := sum_worth (worth b) evs) in *. rewrite <-Hc, <-Hf.
  assert (filter begun evs ≠ [] ↔ l_reads v + l_writes v ≠ 0) as ->.
  { rewrite Hb. destruct (filter begun evs); [|cbn; split; [lia|done]]. cbn. naive_solver. }
  unfold finishSustained. rewrite Sr, Sw, Sh, Sv, Smm, Se, andb_false_r. split.
  - destruct (Z.ltb_spec 0 (l_mismatches v)); [naive_solver lia|]. destruct (Z.eqb_spec (l_verified v) (l_hits v)); [|lia]. cbn [negb].
    destruct (b_continueOnError b), (Z.ltb_spec 0 (l_rpcErrors v)), (Z.eqb_spec (l_reads v + l_writes v) 0); cbn; naive_solver lia.
  - intros h w jsonErr. destruct (_ && jsonErr); [done|]. destruct (Z.ltb_spec 0 (l_mismatches v)); [done|].
    destruct (Z.eqb_spec (l_verified v) (l_hits v)); [|lia]. cbn [negb]. by repeat case_match.
Qed.

(** Two workers, three keys of eight bytes, three operations, for the witnesses. *)
Module BenchDemo.
Definition bench : benchmark :=
  MkBenchmark "127.0.0.1:7000" 2 8 3 3 0 p50 42 "bench" 1 1 0 "uniform" (of_int 1) 1 0 0 "" false 1000 "".
Definition read (w : nat) (key : Z) : list (load_event ()) :=
  [Start w key true; Count w true; GetDone w key (Ok (Some (valueFor 8 key))) 5; Offer w (MkSample 5 true) 0; Judge w Hit; Compare w true].
(** The second worker's write overlaps the first worker's reads. *)
Definition events : list (load_event ()) :=
  [Start 1 2 false; Count 1 false] ++ read 0 1 ++ [PutDone 1 2 None 9; Offer 1 (MkSample 9 false) 0] ++ read 0 0 ++
  [Judge 1 Stored; Return 1; Return 0].
Definition limit : nat → Z := fun w => operations_of 3 2 (Z.of_nat w).
Definition start : load () := load_init bench (Some limit) None None None None.
Definition final : load () := default start (load_run bench true (Some limit) start events).
(** A soak with a miss. *)
Definition soak : list (load_event ()) :=
  [Start 0 1 true; Count 0 true; GetDone 0 1 (Ok None) 3; Offer 0 (MkSample 3 true) 0; Judge 0 Missed; Return 1; Return 0].
Definition soak_start : load () := load_init bench None (Some no_live) None None None.
Definition soaked : load () := default soak_start (load_run bench false None soak_start soak).
End BenchDemo.

Lemma populate_complete_witness :
  concat (populate_all (E := ()) (fun _ => None) (fun _ => false) populate_range 3 2).*1 = [0; 1; 2].
Proof.
  apply (populate_complete (E := ()) (fun _ => None) (fun _ => false) 3 2 [0; 1]%nat); [unfold split_fits; lia| |discriminate|reflexivity].
  intros [|[|w]] Hw; [left|right; left|cbn in Hw; lia].
Defined.

Lemma bench_verdict_witness :
  correctnessError (summarize (w_result <$> lo_workers BenchDemo.final)) 3 = None ∧
  Z.of_nat (length (filter begun BenchDemo.events)) = 3.
Proof.
  assert (Forall (good BenchDemo.bench) BenchDemo.events) as Hgood by (repeat constructor).
  destruct (bench_verdict BenchDemo.bench true 3 None None None None BenchDemo.events BenchDemo.final) as [H1 H2];
    [vm_compute; reflexivity|unfold split_fits; cbn; lia|vm_compute; reflexivity|repeat constructor|].
  split; [by apply H1|by apply H2].
Defined.

(** The miss does not fail the soak. *)
Lemma sustained_verdict_witness :
  finishSustained BenchDemo.bench (summarize (w_result <$> lo_workers BenchDemo.soaked)) false = None.
Proof.
  apply (sustained_verdict BenchDemo.bench None None None BenchDemo.soak BenchDemo.soaked); [vm_compute; reflexivity..|repeat constructor|].
  split; [repeat constructor; intros []|]. split; [intros _; repeat constructor; intros []|discriminate].
Defined.
