(* ===== verification/NodeBench.v ===== *)
(** * The node benchmark (cmd/pulsekv-node-bench/main.go)

    One node, a connection per worker, no routing: flag checks, populating, the mixed load
    and the verdict.  The workers share nothing while they run, so a phase is the list of
    its workers' results; what the random source draws and the node answers is a table
    indexed by worker and iteration. *)

From Stdlib Require Import SpecFloat.
From S2P Require Import Prelude Transport Values BenchStats BenchLoad.
Local Open Scope Z_scope.

Record bench := MkBench {
  nb_address : string; nb_workers : Z; nb_valueSize : Z; nb_keys : Z; nb_ops : Z; nb_warmup : Z;
  nb_readRatio : f64; nb_seed : Z; nb_label : string; nb_keyPrefix : string; nb_timeout : Z
}.
(** The checks of [main]; a NaN ratio passes both comparisons. *)
Inductive bench_problem := NotPositive | RatioOutside.
Definition bench_flags (b : bench) : option bench_problem :=
  if (nb_workers b <? 1) || (nb_keys b <? 1) || (nb_ops b <? 1) || (nb_valueSize b <? 0) then Some NotPositive
  else if SFltb (nb_readRatio b) (S754_zero false) || SFltb (of_int 1) (nb_readRatio b) then Some RatioOutside
  else None.

Section node_bench.
Context {E : Type}.
Record nodeResult := MkNodeResult {
  n_samples : list latencySample; n_reads : Z; n_writes : Z; n_hits : Z; n_misses : Z; n_mismatches : Z; n_errors : Z;
  n_firstErr : option E
}.
(** One iteration: the key drawn, and what the RPC returned after [d]. *)
Inductive node_op := NodeGet (key : Z) (r : result E (option bytes)) (d : Z) | NodePut (key : Z) (err : option E) (d : Z).

(** The end of an iteration: the sample of a success, the count of a failure. *)
Definition node_error (record : bool) (sample : latencySample) (err : option E) (r : nodeResult) : nodeResult :=
  match err with
  | None => MkNodeResult (if record then n_samples r ++ [sample] else n_samples r) (n_reads r) (n_writes r) (n_hits r) (n_misses r)
              (n_mismatches r) (n_errors r) (n_firstErr r)
  | Some e => MkNodeResult (n_samples r) (n_reads r) (n_writes r) (n_hits r) (n_misses r) (n_mismatches r) (n_errors r + 1)
                (match n_firstErr r with Some f => Some f | None => Some e end)
  end.
Definition node_iteration (valueSize : Z) (record : bool) (r : nodeResult) (op : node_op) : nodeResult :=
  match op with
  | NodeGet key answer d =>
      let r := MkNodeResult (n_samples r) (n_reads r + 1) (n_writes r) (n_hits r) (n_misses r) (n_mismatches r) (n_errors r) (n_firstErr r) in
      match answer with
      | Err e => node_error record (MkSample d true) (Some e) r
      | Ok None =>
          node_error record (MkSample d true) None
            (MkNodeResult (n_samples r) (n_reads r) (n_writes r) (n_hits r) (n_misses r + 1) (n_mismatches r) (n_errors r) (n_firstErr r))
      | Ok (Some got) =>
          let bad := negb (Z.of_nat (length got) =? valueSize) || negb (bool_decide (got = valueFor (Z.to_nat valueSize) key)) in
          node_error record (MkSample d true) None
            (MkNodeResult (n_samples r) (n_reads r) (n_writes r) (n_hits r + 1) (n_misses r)
               (n_mismatches r + if bad then 1 else 0) (n_errors r) (n_firstErr r))
      end
  | NodePut key err d =>
      node_error record (MkSample d false) err
        (MkNodeResult (n_samples r) (n_reads r) (n_writes r + 1) (n_hits r) (n_misses r) (n_mismatches r) (n_errors r) (n_firstErr r))
  end.
Definition no_node_result : nodeResult := MkNodeResult [] 0 0 0 0 0 0 None.

(** The iterations of worker [w]: none when it is not started. *)
Definition node_plan (b : bench) (total : Z) (ops : Z → Z → node_op) (w : Z) : list node_op :=
  ops w <$> seqZ 0 (node_operations total (nb_workers b) w).
(** An error never ends the loop, and the error [mixed] returns is always nil. *)
Definition node_worker (valueSize : Z) (record : bool) (plan : list node_op) : nodeResult :=
  foldl (node_iteration valueSize record) no_node_result plan.
Definition node_mixed (b : bench) (total : Z) (record : bool) (ops : Z → Z → node_op) : list nodeResult :=
  (fun w => node_worker (nb_valueSize b) record (node_plan b total ops w)) <$> seqZ 0 (nb_workers b).

Record node_totals := MkTotals {
  t_all : list Z; t_readTimes : list Z; t_writeTimes : list Z;
  t_reads : Z; t_writes : Z; t_hits : Z; t_misses : Z; t_mismatches : Z; t_errors : Z; t_firstErr : option E
}.
Definition node_sum (results : list nodeResult) : node_totals :=
  let total f := sum_Z (f <$> results) in
  let samples := results ≫= n_samples in
  MkTotals (sortDurations (ls_duration <$> samples))
    (sortDurations (ls_duration <$> filter (fun s => ls_isRead s = true) samples))
    (sortDurations (ls_duration <$> filter (fun s => ls_isRead s = false) samples))
    (total n_reads) (total n_writes) (total n_hits) (total n_misses) (total n_mismatches) (total n_errors)
    (foldl (fun e r => first_some e (n_firstErr r)) None results).
(** [report]; [None] is nil.  With a first error the message also gives the RPC errors. *)
Inductive node_failure := WithErrors (mismatches misses errors : Z) (first : E) | WithoutErrors (mismatches misses : Z).
Definition node_report (results : list nodeResult) : option node_failure :=
  let t := node_sum results in
  if (0 <? t_mismatches t) || (0 <? t_misses t) || (0 <? t_errors t)
  then Some (match t_firstErr t with
             | Some e => WithErrors (t_mismatches t) (t_misses t) (t_errors t) e
             | None => WithoutErrors (t_mismatches t) (t_misses t)
             end)
  else None.

Inductive node_run_error := DialFailed (e : E) | CapacityFailed (e : E) | PopulateFailed (key : Z) (e : E) | Incorrect (f : node_failure).
(** [run]: [dial] is what the dial of each worker returns, [before] and [after] what the
    capacity calls do; the warmup's results are dropped. *)
Definition node_run (b : bench) (dial : Z → option E) (before after : option E)
    (put : Z → option E) (order : list nat) (warmup measured : Z → Z → node_op) : option node_run_error :=
  match omap dial (seqZ 0 (nb_workers b)) with
  | e :: _ => Some (DialFailed e)
  | [] =>
      match before with
      | Some e => Some (CapacityFailed e)
      | None =>
          match populate put (fun _ => false) node_range (nb_keys b) (nb_workers b) order with
          | Some (key, e) => Some (PopulateFailed key e)
          | None =>
              let _ := if 0 <? nb_warmup b then node_mixed b (nb_warmup b) false warmup else [] in
              let results := node_mixed b (nb_ops b) true measured in
              match after with
              | Some e => Some (CapacityFailed e)
              | None => match node_report results with Some f => Some (Incorrect f) | None => None end
              end
          end
      end
  end.
End node_bench.
Arguments nodeResult E : clear implicits.
Arguments node_op E : clear implicits.
Arguments node_totals E : clear implicits.

(** ** What a worker counts *)

Section node_verdict.
Context {E : Type} (valueSize : Z).




End node_verdict.





(** ** Claims *)


Module NodeBenchDemo.
Definition b : bench := MkBench "127.0.0.1:7100" 2 8 3 3 1 p50 42 "" "bench" 1.
Definition measured (w i : Z) : node_op () :=
  if w =? 0 then NodeGet i (Ok (Some (valueFor 8 i))) 1 else NodePut 2 None 1.
(** A warmup read of the wrong bytes. *)
Definition warmup (w i : Z) : node_op () := NodeGet 0 (Ok (Some [])) 1.
End NodeBenchDemo.


(** The largest [--ops] passes the flag checks, and then no worker starts and the run
    succeeds, whatever the node would have answered. *)
Lemma node_bench_wraps measured :
  let b := MkBench "127.0.0.1:7100" 16 8 16 maxInt64 0 p50 42 "" "bench" 1 in
  bench_flags b = None ∧
  node_run (E := ()) b (fun _ => None) None None (fun _ => None) (seq 0 16) measured measured = None ∧
  t_reads (node_sum (node_mixed b (nb_ops b) true measured)) + t_writes (node_sum (node_mixed b (nb_ops b) true measured)) = 0.
Proof.
  intros b. split; [vm_compute; reflexivity|].
  assert (node_mixed b (nb_ops b) true measured = replicate 16 no_node_result) as Hm by (vm_compute; reflexivity).
  split; [|rewrite Hm; reflexivity]. unfold node_run.
  change (omap (fun _ : Z => @None ()) (seqZ 0 (nb_workers b))) with (@nil ()).
  assert (populate (fun _ => @None ()) (fun _ => false) node_range (nb_keys b) (nb_workers b) (seq 0 16) = None) as ->
    by (vm_compute; reflexivity).
  rewrite Hm. vm_compute. reflexivity.
Qed.
