(* ===== verification/BenchRoute.v ===== *)
(** * The cluster benchmark's routing proof (cmd/pulsekv-cluster-bench/main.go)

    Before it measures anything the benchmark fetches the topology over connections of its
    own, checks the shard map against the router, finds one key for each shard owner,
    writes it through the SDK, reads it back from the owner's own address, and looks for
    it on a node that holds no copy of its shard.  What the cluster answers is an argument:
    the keys of the proof differ and so do the addresses, so a request is made once and an
    answer is a function of its request. *)

From S2P Require Import Prelude GoStd Router Topology Client Values ChaosOracle BenchLoad.
Local Open Scope Z_scope.

(** ** The topology *)

Record nodeEndpoint := MkEndpoint { ne_address : string; ne_alive : bool }.
Record clusterTopology := MkClusterTopology {
  ct_generation : Z;
  ct_shardCount : Z;
  ct_shardMap : gmap Z string;
  ct_nodes : gmap string nodeEndpoint;
  ct_nodeIDs : list string;
  ct_ownerIDs : list string;
  ct_replicas : gmap Z (list string)
}.

(** [splitEndpoints]: the addresses seen, and the list so far. *)
Definition bench_endpoint_step (st : gset string * list string) (raw : string) : gset string * list string :=
  let '(seen, out) := st in
  let address := TrimSpace raw in
  if bool_decide (address = "") || bool_decide (address ∈ seen) then st else ({[address]} ∪ seen, out ++ [address]).
Definition bench_splitEndpoints (text : string) : list string :=
  (foldl bench_endpoint_step (∅, []) (Split_comma text)).2.

Definition ownerIDs_of (shardMap : gmap Z string) : list string :=
  sort_strings (elements (list_to_set (map_to_list shardMap).*2 : gset string)).

Inductive topology_mismatch := NotHRW (shard : Z) (got want : string).
Definition validateTopology (snapshot : Snapshot) : result topology_mismatch clusterTopology :=
  let nodeIDs := sortedNodeIDs (Nodes snapshot) in
  let want := AssignShards nodeIDs (ShardCount snapshot) in
  match List.find (fun shard => negb (bool_decide (owner_at (ShardMap snapshot) shard = owner_at want shard)))
          (seqZ 0 (ShardCount snapshot)) with
  | Some shard => Err (NotHRW shard (owner_at (ShardMap snapshot) shard) (owner_at want shard))
  | None =>
      Ok (MkClusterTopology (Generation snapshot) (ShardCount snapshot) (ShardMap snapshot)
            ((fun address => MkEndpoint address true) <$> Nodes snapshot) nodeIDs
            (ownerIDs_of (ShardMap snapshot)) (Replicas <$> Owners snapshot))
  end.

Section fetch.
Context {E : Type}.
Inductive metadata_error :=
| NoUsableAddress | CreateMetadataClient (address : string) (e : E) | FetchFrom (address : string) (e : fetch_error E)
| Mismatch (e : topology_mismatch).
(** What [grpc.NewClient] and [clustertopology.Fetch] return for an address. *)
Context (connect : string → option E) (fetch : string → result (fetch_error E) Snapshot).
Fixpoint fetch_addresses (addresses : list string) (firstErr : option metadata_error) : result metadata_error clusterTopology :=
  match addresses with
  | [] => Err (default NoUsableAddress firstErr)
  | address :: rest =>
      match connect address with
      | Some e => fetch_addresses rest (first_some firstErr (Some (CreateMetadataClient address e)))
      | None =>
          match fetch address with
          | Ok snapshot => match validateTopology snapshot with Ok t => Ok t | Err e => Err (Mismatch e) end
          | Err e => fetch_addresses rest (first_some firstErr (Some (FetchFrom address e)))
          end
      end
  end.
Definition bench_fetchTopology (b : benchmark) : result metadata_error clusterTopology :=
  fetch_addresses (bench_splitEndpoints (b_controlPlane b)) None.
End fetch.
Arguments metadata_error E : clear implicits.

(** ** The sample keys *)

Definition maxRoutingCandidates : nat := Z.to_nat 1000000.
Record routingSample := MkRoutingSample { rs_key : bytes; rs_shard : Z; rs_owner : string }.

Inductive routing_error {E : Type} :=
| NeedTwoNodes | CandidateWithoutOwner (key : bytes) | OwnersMissing (found want : nat)
| DirectDial (id address : string) (e : E) | SdkPut (owner : string) (shard : Z) (e : E)
| OwnerGet (owner : string) (e : E) | OwnerMissed (owner : string) (shard : Z) (key : bytes)
| OwnerWrong (owner : string) (shard : Z) | NonHolderGet (id : string) (e : E)
| NonHolderHit (id : string) (shard : Z) (key : bytes) | DirectClose (e : E).
Arguments routing_error E : clear implicits.

(** ["%s:routing-check:%d:%08d"]; the nonce is the time in nanoseconds. *)
Definition candidate_key (b : benchmark) (nonce candidate : Z) : bytes :=
  bytes_of_string (b_keyPrefix b +:+ ":routing-check:" +:+ Itoa nonce +:+ ":" +:+ pad8 candidate).

Section samples.
Context {E : Type} (b : benchmark) (nonce : Z) (t : clusterTopology).
Fixpoint sample_owners (fuel : nat) (candidate : Z) (found : gmap string routingSample)
    : result (routing_error E) (gmap string routingSample) :=
  match fuel with
  | O => Ok found
  | S fuel =>
      if bool_decide (size found < length (ct_ownerIDs t))%nat then
        let key := candidate_key b nonce candidate in
        match OwnerForKey key (ct_shardCount t) (ct_shardMap t) with
        | None => Err (CandidateWithoutOwner key)
        | Some owner =>
            sample_owners fuel (candidate + 1)
              (match found !! owner with
               | Some _ => found
               | None => <[owner := MkRoutingSample key (ShardForKey key (ct_shardCount t)) owner]> found
               end)
        end
      else Ok found
  end.
Definition routingSamples : result (routing_error E) (list routingSample) :=
  found ← sample_owners maxRoutingCandidates 0 ∅;
  if negb (bool_decide (size found = length (ct_ownerIDs t))) then Err (OwnersMissing (size found) (length (ct_ownerIDs t)))
  else Ok ((fun owner => default (MkRoutingSample [] 0 "") (found !! owner)) <$> ct_ownerIDs t).
End samples.

Definition holderFreeNode (t : clusterTopology) (shard : Z) (primary : string) : option string :=
  let holders : gset string := {[primary]} ∪ list_to_set (default [] (ct_replicas t !! shard)) in
  let free id := bool_decide (id ∉ holders) in
  match List.find free (ct_ownerIDs t) with
  | Some id => Some id
  | None => List.find free (ct_nodeIDs t)
  end.

(** ** The proof *)

Section prove.
Context {E : Type} (b : benchmark) (t : clusterTopology).
(** [dial], [closed]: opening and closing the connection to a node; [put]: the SDK;
    [get]: [transport.Get] on the connection to an address. *)
Context (dial closed : string → option E) (put : bytes → bytes → option E) (get : string → bytes → result E (option bytes)).

Definition address_of (id : string) : string := default "" (ne_address <$> ct_nodes t !! id).
Definition sample_value (i : nat) : bytes := valueFor (value_size b) (b_keys b + Z.of_nat i + 1).

Definition prove_sample (i : nat) (x : routingSample) : option (routing_error E) :=
  match put (rs_key x) (sample_value i) with
  | Some e => Some (SdkPut (rs_owner x) (rs_shard x) e)
  | None =>
      match get (address_of (rs_owner x)) (rs_key x) with
      | Err e => Some (OwnerGet (rs_owner x) e)
      | Ok None => Some (OwnerMissed (rs_owner x) (rs_shard x) (rs_key x))
      | Ok (Some got) =>
          if negb (bool_decide (got = sample_value i)) then Some (OwnerWrong (rs_owner x) (rs_shard x)) else
          match holderFreeNode t (rs_shard x) (rs_owner x) with
          | None => None
          | Some other =>
              match get (address_of other) (rs_key x) with
              | Err e => Some (NonHolderGet other e)
              | Ok (Some _) => Some (NonHolderHit other (rs_shard x) (rs_key x))
              | Ok None => None
              end
          end
      end
  end.
Fixpoint prove_samples (i : nat) (samples : list routingSample) : option (routing_error E) :=
  match samples with
  | [] => None
  | x :: rest => match prove_sample i x with Some e => Some e | None => prove_samples (S i) rest end
  end.

(** The dials stop at the first failure; closing goes on and reports the first one. *)
Definition dialDirectNodes : option (routing_error E) :=
  head (omap (fun id => (DirectDial id (address_of id)) <$> dial id) (ct_nodeIDs t)).
Definition directNodes_Close : option E := head (omap closed (ct_nodeIDs t)).

Definition proveRouting (nonce : Z) : option (routing_error E) :=
  if bool_decide (length (ct_nodeIDs t) < 2)%nat then Some NeedTwoNodes else
  match routingSamples b nonce t with
  | Err e => Some e
  | Ok samples =>
      match dialDirectNodes with
      | Some e => Some e
      | None => first_some (prove_samples 0 samples) (DirectClose <$> directNodes_Close)
      end
  end.
End prove.

(** ** The topology it accepts *)

(** The addresses are the client library's. *)
Lemma bench_splitEndpoints_eq text : bench_splitEndpoints text = foldl endpoint_step [] (Split_comma text).
Proof.
  unfold bench_splitEndpoints. generalize (Split_comma text) as l. intros l.
  assert (∀ out, (foldl bench_endpoint_step (list_to_set out, out) l).2 = foldl endpoint_step out l) as H; [|apply (H [])].
  induction l as [|raw l IH]; intros out; [done|]. cbn [foldl]. rewrite <-IH. f_equal. f_equal.
  unfold bench_endpoint_step, endpoint_step. rewrite (bool_decide_ext _ _ (elem_of_list_to_set (C := gset string) (TrimSpace raw) out)).
  case_bool_decide; [done|]. case_bool_decide; [done|]. cbn. f_equal. rewrite list_to_set_app_L. cbn. set_solver.
Qed.

Lemma elem_of_ownerIDs m o : o ∈ ownerIDs_of m ↔ ∃ sh, m !! sh = Some o.
Proof.
  unfold ownerIDs_of, sort_strings. rewrite elem_of_merge_sort, elem_of_elements, elem_of_list_to_set, list_elem_of_fmap. split.
  - intros ([sh o'] & -> & H%elem_of_map_to_list). by exists sh.
  - intros [sh H%elem_of_map_to_list]. by exists (sh, o).
Qed.
Lemma NoDup_ownerIDs m : NoDup (ownerIDs_of m).
Proof. unfold ownerIDs_of, sort_strings. rewrite merge_sort_Permutation. apply NoDup_elements. Qed.

(** The topology record a snapshot is turned into. *)
Definition topology_of (s : Snapshot) : clusterTopology :=
  MkClusterTopology (Generation s) (ShardCount s) (ShardMap s) ((fun a => MkEndpoint a true) <$> Nodes s)
    (sortedNodeIDs (Nodes s)) (ownerIDs_of (ShardMap s)) (Replicas <$> Owners s).

Lemma find_None_Forall {A} (f : A → bool) l : List.find f l = None ↔ Forall (fun x => f x = false) l.
Proof.
  induction l as [|x l IH]; [by split|]. rewrite Forall_cons, <-IH. cbn. destruct (f x); [|tauto].
  split; [discriminate|intros []; discriminate].
Qed.

Lemma validateTopology_Ok s t : topology_ok s → validateTopology s = Ok t ↔ hrw s ∧ t = topology_of s.
Proof.
  intros [[_ Hne _ Hdom _ _ _] _]. unfold validateTopology.
  assert (List.find (fun sh => negb (bool_decide (owner_at (ShardMap s) sh =
      owner_at (AssignShards (sortedNodeIDs (Nodes s)) (ShardCount s)) sh))) (seqZ 0 (ShardCount s)) = None ↔ hrw s) as Hfind.
  { rewrite find_None_Forall, Forall_forall. split; [|by intros Hh sh _; rewrite <-Hh, bool_decide_eq_true_2].
    intros H. unfold hrw. apply map_eq. intros sh.
    destruct (decide (Nodes s ≠ ∅ ∧ 0 ≤ sh < ShardCount s)) as [Hsh|Hsh].
    - destruct Hsh as [Hn Hsh]. specialize (H sh). rewrite elem_of_seqZ in H.
      specialize (H ltac:(lia)). apply negb_false_iff, bool_decide_eq_true in H.
      assert (is_Some (ShardMap s !! sh)) as [o Ho] by by apply Hdom.
      unfold owner_at in H. rewrite Ho in *. cbn in H. rewrite lookup_AssignShards, decide_True in * by done.
      destruct (head (ranked_ids sh _)) as [o'|] eqn:Hr; [by f_equal|].
      exfalso. apply Hn. pose proof (length_ranked_ids sh (sortedNodeIDs (Nodes s))) as Hl.
      destruct (ranked_ids sh _); [|done]. apply map_empty. intros id. apply eq_None_not_Some.
      rewrite <-elem_of_sortedNodeIDs. by destruct (sortedNodeIDs (Nodes s)); [apply not_elem_of_nil|].
    - rewrite <-Hdom in Hsh. apply eq_None_not_Some in Hsh as Hnone. rewrite Hnone. symmetry. rewrite lookup_AssignShards. case_decide; [|done].
      assert (sortedNodeIDs (Nodes s) = []) as ->; [|done].
      assert (Nodes s = ∅) as -> by (destruct (decide (Nodes s = ∅)); [done|]; exfalso; apply Hsh, Hdom; done). done. }
  destruct (List.find _ _) eqn:Hf; [split; [done|intros [Hh _]; apply Hfind in Hh; congruence]|].
  split; [intros [= <-]; split; [by apply Hfind|done]|by intros [_ ->]].
Qed.

(** ** The samples *)

Section sample_lemmas.
Context {E : Type} (b : benchmark) (nonce : Z) (t : clusterTopology).

Definition sampled_for (owner : string) (x : routingSample) : Prop :=
  rs_owner x = owner ∧ rs_shard x = ShardForKey (rs_key x) (ct_shardCount t) ∧
  OwnerForKey (rs_key x) (ct_shardCount t) (ct_shardMap t) = Some owner.

Lemma sample_owners_ok fuel candidate found found' :
  map_Forall sampled_for found → sample_owners (E := E) b nonce t fuel candidate found = Ok found' → map_Forall sampled_for found'.
Proof using Type.
  revert candidate found. induction fuel as [|fuel IH]; intros candidate found Hf; cbn; [by intros [= <-]|].
  case_bool_decide; [|by intros [= <-]]. destruct (OwnerForKey _ _ _) as [owner|] eqn:Ho; [|done].
  apply IH. destruct (found !! owner); [done|]. by apply map_Forall_insert_2.
Qed.

Lemma routingSamples_ok samples :
  NoDup (ct_ownerIDs t) → (∀ sh o, ct_shardMap t !! sh = Some o → o ∈ ct_ownerIDs t) →
  routingSamples (E := E) b nonce t = Ok samples →
  rs_owner <$> samples = ct_ownerIDs t ∧ Forall (fun x => sampled_for (rs_owner x) x) samples.
Proof using Type.
  intros Hnd Hown. unfold routingSamples. destruct (sample_owners _ _ _ _ _ _) as [found|] eqn:Hs; [cbn|done].
  case_bool_decide as Hsize; [cbn|done]. intros [= <-]. apply sample_owners_ok in Hs; [|by apply map_Forall_empty].
  assert (∀ o, o ∈ ct_ownerIDs t → ∃ x, found !! o = Some x ∧ sampled_for o x) as Hall.
  { intros o Ho. assert (o ∈ dom found) as [x Hx]%elem_of_dom; [|exists x; split; [done|by apply Hs]].
    assert (dom found ⊆ (list_to_set (ct_ownerIDs t) : gset string)) as Hsub.
    { intros o' [x Hx]%elem_of_dom. apply elem_of_list_to_set. destruct (Hs o' x Hx) as (_ & _ & HO).
      unfold OwnerForKey in HO. destruct (ct_shardMap t !! _) eqn:HM; [|done]. case_bool_decide; simplify_eq. by eapply Hown. }
    assert (dom found = list_to_set (ct_ownerIDs t)) as ->; [|by apply elem_of_list_to_set].
    apply set_subseteq_size_eq; [done|]. rewrite size_dom, size_list_to_set; [lia|done]. }
  split.
  - rewrite <-list_fmap_compose. transitivity (id <$> ct_ownerIDs t); [|apply list_fmap_id].
    apply list_fmap_ext. intros i o Ho%list_elem_of_lookup_2. destruct (Hall o Ho) as (x & Hx & Hr & _). cbn. rewrite Hx. exact Hr.
  - apply Forall_fmap, Forall_forall. intros o Ho. destruct (Hall o Ho) as (x & Hl & Hx). cbn. rewrite Hl. cbn. destruct Hx as (Hx & ? & ?). unfold sampled_for. by rewrite Hx.
Qed.
End sample_lemmas.

Lemma prove_samples_None {E} b t (put : bytes → bytes → option E) get i samples :
  prove_samples b t put get i samples = None ↔ ∀ k x, samples !! k = Some x → prove_sample b t put get (i + k) x = None.
Proof.
  revert i. induction samples as [|x samples IH]; intros i; [cbn; split; [by intros _ []|done]|]. cbn. split.
  - destruct (prove_sample b t put get i x) eqn:Hx; [done|]. intros H [|k] y; cbn; [rewrite Nat.add_0_r; naive_solver|].
    rewrite Nat.add_succ_r. by apply (IH (S i)).
  - intros H. pose proof (H O x eq_refl) as H0. rewrite Nat.add_0_r in H0. rewrite H0. apply IH. intros k y Hy.
    specialize (H (S k) y Hy). by rewrite Nat.add_succ_r in H.
Qed.

(** ** Nodes without a copy *)

Definition shard_holders (s : Snapshot) (shard : Z) : list string := owner_at (ShardMap s) shard :: Snapshot_Replicas s shard.

Lemma holderFree_spec s shard primary :
  owner_at (ShardMap s) shard = primary → (∀ o, o ∈ ownerIDs_of (ShardMap s) → is_Some (Nodes s !! o)) →
  match holderFreeNode (topology_of s) shard primary with
  | Some other => is_Some (Nodes s !! other) ∧ other ∉ shard_holders s shard
  | None => ∀ id, is_Some (Nodes s !! id) → id ∈ shard_holders s shard
  end.
Proof.
  intros Hp Hlive. unfold holderFreeNode. cbn [ct_replicas ct_ownerIDs ct_nodeIDs topology_of]. set (holders := _ ∪ _).
  assert (∀ id, id ∈ holders ↔ id ∈ shard_holders s shard) as Hh.
  { intros id. unfold holders, shard_holders, Snapshot_Replicas. rewrite Hp, elem_of_cons, elem_of_union, elem_of_singleton, elem_of_list_to_set, lookup_fmap.
    by destruct (Owners s !! shard). }
  destruct (List.find _ (ownerIDs_of _)) as [o|] eqn:Ho.
  { apply find_some in Ho as [Hin%list_elem_of_In Hb%bool_decide_eq_true]. rewrite Hh in Hb. auto. }
  destruct (List.find _ (sortedNodeIDs _)) as [o|] eqn:Hn.
  { apply find_some in Hn as [Hin%list_elem_of_In Hb%bool_decide_eq_true]. rewrite Hh in Hb. by apply elem_of_sortedNodeIDs in Hin. }
  intros id Hid. apply find_None_Forall in Hn. rewrite Forall_forall in Hn. apply elem_of_sortedNodeIDs, Hn in Hid.
  apply bool_decide_eq_false, dec_stable in Hid. by apply Hh.
Qed.

(** The facts a topology in use gives the proof. *)
Lemma topology_of_facts s : topology_ok s → hrw s →
  NoDup (ct_ownerIDs (topology_of s)) ∧
  (∀ sh o, ct_shardMap (topology_of s) !! sh = Some o → o ∈ ct_ownerIDs (topology_of s)) ∧
  (∀ o, o ∈ ownerIDs_of (ShardMap s) → is_Some (Nodes s !! o)).
Proof.
  intros [[_ _ _ _ Hlive _ _] _] _. split; [apply NoDup_ownerIDs|]. split; [intros sh o Ho; apply elem_of_ownerIDs; by exists sh|].
  intros o [sh Ho]%elem_of_ownerIDs. by eapply Hlive.
Qed.

Lemma sampled_owner s x : sampled_for (topology_of s) (rs_owner x) x →
  rs_shard x = ShardForKey (rs_key x) (ShardCount s) ∧ owner_at (ShardMap s) (rs_shard x) = rs_owner x.
Proof.
  intros (_ & Hs & Ho). cbn in *. split; [done|]. unfold OwnerForKey, owner_at in *. rewrite Hs.
  destruct (ShardMap s !! _); [|done]. by case_bool_decide; simplify_eq.
Qed.

(** ** Claims *)

Definition answers_for {E} (b : benchmark) (s : Snapshot) (put : bytes → bytes → option E) (get : string → bytes → result E (option bytes))
    (i : nat) (x : routingSample) : Prop :=
  let at_node id := get (default "" (Nodes s !! id)) (rs_key x) in
  put (rs_key x) (sample_value b i) = None ∧ at_node (rs_owner x) = Ok (Some (sample_value b i)) ∧
  match holderFreeNode (topology_of s) (rs_shard x) (rs_owner x) with Some other => at_node other = Ok None | None => True end.

Lemma address_of_eq s id : address_of (topology_of s) id = default "" (Nodes s !! id).
Proof. unfold address_of. cbn. rewrite lookup_fmap. by destruct (Nodes s !! id). Qed.

Lemma prove_sample_None {E} b s (put : bytes → bytes → option E) get i x :
  prove_sample b (topology_of s) put get i x = None ↔ answers_for b s put get i x.
Proof.
  unfold prove_sample, answers_for. rewrite address_of_eq.
  destruct (put _ _); [naive_solver|]. destruct (get (default "" (Nodes s !! rs_owner x)) _) as [[got|]|]; [|naive_solver..].
  case_bool_decide as Hg; [subst got|naive_solver]. cbn. destruct (holderFreeNode _ _ _) as [other|]; [|naive_solver].
  rewrite address_of_eq. destruct (get _ _) as [[got|]|]; naive_solver.
Qed.

Record bench_topology_wf (t : clusterTopology) : Prop := {
  bt_nodes_sorted : StronglySorted String.le (ct_nodeIDs t) ∧ NoDup (ct_nodeIDs t);
  bt_nodes : ∀ id, id ∈ ct_nodeIDs t ↔ is_Some (ct_nodes t !! id);
  bt_addresses : ∀ id n, ct_nodes t !! id = Some n → ne_address n ≠ "" ∧ ne_alive n = true;
  bt_owners_sorted : StronglySorted String.le (ct_ownerIDs t) ∧ NoDup (ct_ownerIDs t);
  bt_owners : ct_ownerIDs t ⊆ ct_nodeIDs t;
  bt_routes : ct_nodeIDs t ≠ [] → ∀ key, ∃ o, OwnerForKey key (ct_shardCount t) (ct_shardMap t) = Some o ∧ o ∈ ct_ownerIDs t;
  bt_replicas : ∀ sh l, ct_replicas t !! sh = Some l → NoDup (owner_at (ct_shardMap t) sh :: l) ∧ l ⊆ ct_nodeIDs t
}.

(** C38: the topology the benchmark works with is well typed: the validator accepts a fetched
    snapshot exactly when its shard map is the router's, and what it returns lists each node
    and each shard owner once, in order; every node has an address, every owner is a node,
    every key has an owner in the list, and a shard's replicas are nodes, distinct and not
    its primary. *)
Theorem bench_topology_type s (Hs : topology_ok s) :
  (is_ok (validateTopology s) = true ↔ hrw s) ∧ (∀ t, validateTopology s = Ok t → bench_topology_wf t).
Proof.
  split.
  - pose proof (λ t, validateTopology_Ok s t Hs) as Hv. destruct (validateTopology s) as [t|e]; cbn; split; try done.
    + intros _. by apply (Hv t).
    + intros Hh. destruct (Hv (topology_of s)) as [_ H]. by discriminate H.
  - intros t [Hh ->]%validateTopology_Ok; [|done]. destruct Hs as [[Hc Hne Hinj Hdom Hlive Hown _] Hu]. split; cbn.
    + split; [apply merge_sort_StronglySorted; apply _|apply NoDup_sortedNodeIDs].
    + intros id. by rewrite elem_of_sortedNodeIDs, lookup_fmap, fmap_is_Some.
    + intros id n (a & <- & Ha)%lookup_fmap_Some. by destruct (Hne _ _ Ha).
    + split; [apply merge_sort_StronglySorted; apply _|apply NoDup_ownerIDs].
    + intros o [sh Ho]%elem_of_ownerIDs. apply elem_of_sortedNodeIDs. by eapply Hlive.
    + intros Hnodes key. pose proof (ShardForKey_range key (ShardCount s) Hc Hu) as Hr.
      assert (is_Some (ShardMap s !! ShardForKey key (ShardCount s))) as [o Ho].
      { apply Hdom. split; [intros He; by rewrite He in Hnodes|done]. }
      exists o. destruct (Hlive _ _ Ho) as [a Ha]. destruct (Hne _ _ Ha). unfold OwnerForKey.
      rewrite Ho, bool_decide_eq_false_2 by done. split; [done|]. apply elem_of_ownerIDs. eauto.
    + intros sh l (o & <- & Ho)%lookup_fmap_Some. destruct (Hown _ _ Ho) as (Hp & Hnd & Hl). unfold owner_at. rewrite Hp.
      split; [done|]. intros r Hr. rewrite Forall_forall in Hl. by apply elem_of_sortedNodeIDs, Hl.
Qed.

Lemma proveRouting_None {E} b s nonce (dial closed : string → option E) put get :
  proveRouting b (topology_of s) dial closed put get nonce = None ↔
  (2 ≤ size (Nodes s))%nat ∧ (∀ id, is_Some (Nodes s !! id) → dial id = None ∧ closed id = None) ∧
  ∃ samples, routingSamples (E := E) b nonce (topology_of s) = Ok samples ∧
    ∀ i x, samples !! i = Some x → answers_for b s put get i x.
Proof.
  unfold proveRouting. assert (length (ct_nodeIDs (topology_of s)) = size (Nodes s)) as ->.
  { cbn. rewrite sortedNodeIDs_Permutation, length_fmap. apply length_map_to_list. }
  case_bool_decide as Hsize; [split; [done|intros (? & _); lia]|].
  destruct (routingSamples _ _ _) as [samples|e]; [|split; [done|by intros (_ & _ & ? & ? & _)]].
  assert (first_some (prove_samples b (topology_of s) put get 0 samples) (DirectClose <$> directNodes_Close (topology_of s) closed) = None ↔
    (∀ i x, samples !! i = Some x → answers_for b s put get i x) ∧ ∀ id, is_Some (Nodes s !! id) → closed id = None) as Hend.
  { setoid_rewrite <-prove_sample_None. rewrite <-(prove_samples_None b _ put get O). setoid_rewrite <-elem_of_sortedNodeIDs.
    rewrite <-head_omap_None. unfold first_some, directNodes_Close. cbn [ct_nodeIDs topology_of].
    destruct (prove_samples _ _ _ _ _ _); [naive_solver|]. destruct (head _); cbn; naive_solver. }
  assert (dialDirectNodes (topology_of s) dial = None ↔ ∀ id, is_Some (Nodes s !! id) → dial id = None) as Hdial.
  { unfold dialDirectNodes. rewrite head_omap_None. cbn [ct_nodeIDs topology_of]. setoid_rewrite elem_of_sortedNodeIDs.
    by setoid_rewrite fmap_None. }
  destruct (dialDirectNodes _ _); [split; [done|]; intros (_ & H & _); assert (Some r = None) by (apply Hdial; naive_solver); done|].
  rewrite Hend. split.
  - intros [H1 H2]. split; [lia|]. split; [|by exists samples]. intros id Hid. split; [by apply Hdial|by apply H2].
  - intros (_ & H1 & samples' & [= <-] & H2). split; [done|]. intros id Hid. by apply H1.
Qed.

(** C37: the routing proof is exact and raises no false alarm.  It succeeds when, and only
    when, there are two nodes to tell apart, the direct connections open and close, and for
    one key of every shard owner the SDK's write succeeded, the owner's own address returned
    the bytes, and a node without a copy, if there is one, did not have the key.  The sample
    has exactly one key per owner; the second read is left out only for a shard every node
    holds; and a cluster in which a value is on its primary and replicas and nowhere else
    passes. *)
Theorem routing_proof_exact {E} b s t nonce (dial closed : string → option E) put get
    (Hs : topology_ok s) (Ht : validateTopology s = Ok t) :
  (proveRouting b t dial closed put get nonce = None ↔
   (2 ≤ size (Nodes s))%nat ∧ (∀ id, is_Some (Nodes s !! id) → dial id = None ∧ closed id = None) ∧
   ∃ samples, routingSamples (E := E) b nonce t = Ok samples ∧ ∀ i x, samples !! i = Some x → answers_for b s put get i x) ∧
  (∀ samples, routingSamples (E := E) b nonce t = Ok samples →
   rs_owner <$> samples = ct_ownerIDs t ∧
   (∀ i x, samples !! i = Some x →
      OwnerForKey (rs_key x) (ShardCount s) (ShardMap s) = Some (rs_owner x) ∧
      (holderFreeNode t (rs_shard x) (rs_owner x) = None ↔ ∀ id, is_Some (Nodes s !! id) → id ∈ shard_holders s (rs_shard x))) ∧
   ((2 ≤ size (Nodes s))%nat → (∀ id, is_Some (Nodes s !! id) → dial id = None ∧ closed id = None) →
    (∀ i x, samples !! i = Some x → put (rs_key x) (sample_value b i) = None ∧
       ∀ id a, Nodes s !! id = Some a →
         get a (rs_key x) = Ok (if bool_decide (id ∈ shard_holders s (rs_shard x)) then Some (sample_value b i) else None)) →
    proveRouting b t dial closed put get nonce = None)).
Proof.
  apply validateTopology_Ok in Ht as [Hh ->]; [|done]. split; [apply proveRouting_None|].
  intros samples Hsamples. destruct (topology_of_facts s Hs Hh) as (Hnd & Hin & Hlive).
  destruct (routingSamples_ok b nonce (topology_of s) samples Hnd Hin Hsamples) as [Hown HF]. split; [done|].
  rewrite Forall_lookup in HF. split.
  - intros i x Hx. pose proof (HF i x Hx) as Hsx. destruct (sampled_owner s x Hsx) as [_ Ho]. split; [apply Hsx|].
    pose proof (holderFree_spec s (rs_shard x) (rs_owner x) Ho Hlive) as Hfree.
    destruct (holderFreeNode _ _ _) as [other|]; [|done]. split; [done|]. destruct Hfree as [H1 H2]. intros H. destruct (H2 (H _ H1)).
  - intros Hsize Hdial Hgood. apply proveRouting_None. split; [done|]. split; [done|]. exists samples. split; [done|].
    intros i x Hx. destruct (Hgood i x Hx) as [Hput Hget]. pose proof (HF i x Hx) as Hsx. destruct (sampled_owner s x Hsx) as [_ Ho].
    pose proof (holderFree_spec s (rs_shard x) (rs_owner x) Ho Hlive) as Hfree.
    assert (is_Some (Nodes s !! rs_owner x)) as [a Ha].
    { apply Hlive, elem_of_ownerIDs. destruct Hsx as (_ & _ & HO). unfold OwnerForKey in HO. cbn in HO.
      destruct (ShardMap s !! _) eqn:HM; [|done]. case_bool_decide; simplify_eq. eauto. }
    split; [done|]. rewrite Ha. cbn. split.
    + rewrite (Hget _ _ Ha), bool_decide_eq_true_2; [done|]. unfold shard_holders. rewrite Ho. left.
    + destruct (holderFreeNode _ _ _) as [other|]; [|done]. destruct Hfree as [[a' Ha'] Hn]. rewrite Ha'. cbn.
      by rewrite (Hget _ _ Ha'), bool_decide_eq_false_2.
Qed.

(** The chaos fixture's cluster, holding each value on its primary and replicas. *)
Module BenchRouteDemo.
Definition s : Snapshot := ChaosDemo.baseline.
Definition t : clusterTopology := topology_of s.
Definition samples : list routingSample :=
  match routingSamples (E := ()) BenchDemo.bench 42 t with Ok l => l | Err _ => [] end.
Definition get (address : string) (key : bytes) : result () (option bytes) :=
  match list_find (fun x => rs_key x = key) samples with
  | Some (i, x) =>
      if bool_decide (address ∈ (fun id => default "" (Nodes s !! id)) <$> shard_holders s (rs_shard x))
      then Ok (Some (sample_value BenchDemo.bench i)) else Ok None
  | None => Ok None
  end.
Lemma ok : topology_ok s.
Proof. apply ChaosDemo.placed_ok; [vm_compute; reflexivity|discriminate]. Qed.
End BenchRouteDemo.

Lemma bench_topology_type_witness : bench_topology_wf BenchRouteDemo.t.
Proof. apply (bench_topology_type BenchRouteDemo.s BenchRouteDemo.ok). vm_compute. reflexivity. Defined.

Lemma routing_proof_exact_witness :
  ∃ samples, routingSamples (E := ()) BenchDemo.bench 42 BenchRouteDemo.t = Ok samples ∧
    ∀ i x, samples !! i = Some x → answers_for BenchDemo.bench BenchRouteDemo.s (fun _ _ => None) BenchRouteDemo.get i x.
Proof.
  apply (routing_proof_exact (E := ()) BenchDemo.bench BenchRouteDemo.s BenchRouteDemo.t 42 (fun _ => None) (fun _ => None) (fun _ _ => None)
           BenchRouteDemo.get BenchRouteDemo.ok); vm_compute; reflexivity.
Defined.
