(* ===== verification/BenchReport.v ===== *)
(** * The interval reporter and the metrics endpoint of the cluster benchmark

    cmd/pulsekv-cluster-bench/sustained.go ([reportIntervals]) and metrics.go.  During a
    soak one goroutine wakes at every tick, empties the workers' latency buckets one after
    the other, reads six atomic counters one after the other, and appends a row.  Each of
    those accesses is a step of its own here, interleaved in every possible way with the
    events of [BenchLoad], each of which makes at most one access to a bucket, a counter or
    the reservoir. *)

From Stdlib Require Import SpecFloat.
From S2P Require Import Prelude Promexport Exposition Values BenchStats BenchLoad.
Local Open Scope Z_scope.

(** [Duration.Seconds] *)
Definition seconds (d : Z) : f64 :=
  fadd (of_int (d `quot` 1000000000)) (fdiv (of_int (d `rem` 1000000000)) (of_int 1000000000)).

(** ** The reporter *)

(** Waiting for a tick, emptying the buckets from [next] on, or reading the counters. *)
Inductive rep_phase :=
| RWait
| RDrain (now : Z) (next : nat) (reads writes : list Z)
| RLoad (now : Z) (reads writes : list Z) (got : list Z).
(** [rp_last] holds the counters of the previous row, in the order they are read. *)
Record reporter := MkReporter {
  rp_series : list intervalReport; rp_last : list Z; rp_previous : Z; rp_phase : rep_phase
}.
Definition counter_loads : list (liveCounters → Z) := [l_reads; l_writes; l_verified; l_misses; l_mismatches; l_rpcErrors].
Definition new_reporter (started : Z) : reporter := MkReporter [] (replicate 6 0) started RWait.

(** One row; [None] is a panic of [percentile]. *)
Definition interval_row (started : Z) (r : reporter) (now : Z) (reads writes got : list Z) : option intervalReport :=
  match got, rp_last r with
  | [readsNow; writesNow; verifiedNow; missesNow; mismatchesNow; errorsNow], [reads0; writes0; verified0; misses0; mismatches0; errors0] =>
      let window := seconds (now - rp_previous r) in
      let operations := (readsNow - reads0) + (writesNow - writes0) in
      readP50 ← percentileMs reads p50;
      readP99 ← percentileMs reads p99;
      writeP50 ← percentileMs writes p50;
      writeP99 ← percentileMs writes p99;
      Some (MkInterval (Z.of_nat (length (rp_series r)) + 1) (seconds (now - started)) operations
              (readsNow - reads0) (writesNow - writes0) (fdiv (of_int operations) window)
              readP50 readP99 writeP50 writeP99
              (verifiedNow - verified0) (missesNow - misses0) (mismatchesNow - mismatches0) (errorsNow - errors0))
  | _, _ => None
  end.

Section system.
Context {E : Type} (b : benchmark) (started : Z).

Inductive bench_event := Work (ev : load_event E) | Tick (now : Z) | Reporter.
Definition set_buckets (buckets : list intervalBucket) (s : load E) : load E :=
  MkLoad (lo_workers s) (lo_live s) (Some buckets) (lo_sampler s) (lo_counts s).

(** The reporter's next access. *)
Definition reporter_step (s : load E) (r : reporter) : option (load E * reporter) :=
  match rp_phase r with
  | RWait => None
  | RDrain now next reads writes =>
      buckets ← lo_buckets s;
      match buckets !! next with
      | Some bucket =>
          let '(rd, wr, bucket') := bucket_drain bucket in
          Some (set_buckets (<[next := bucket']> buckets) s,
                MkReporter (rp_series r) (rp_last r) (rp_previous r) (RDrain now (S next) (reads ++ rd) (writes ++ wr)))
      | None => Some (s, MkReporter (rp_series r) (rp_last r) (rp_previous r) (RLoad now (sortDurations reads) (sortDurations writes) []))
      end
  | RLoad now reads writes got =>
      match counter_loads !! length got with
      | Some counter =>
          live ← lo_live s;
          Some (s, MkReporter (rp_series r) (rp_last r) (rp_previous r) (RLoad now reads writes (got ++ [counter live])))
      | None =>
          row ← interval_row started r now reads writes got;
          Some (s, MkReporter (rp_series r ++ [row]) got now RWait)
      end
  end.
Definition bench_step (st : load E * reporter) (ev : bench_event) : option (load E * reporter) :=
  let '(s, r) := st in
  match ev with
  | Work ev => s' ← load_step b false None s ev; Some (s', r)
  | Tick now =>
      match rp_phase r with
      | RWait => Some (s, MkReporter (rp_series r) (rp_last r) (rp_previous r) (RDrain now 0 [] []))
      | _ => None
      end
  | Reporter => reporter_step s r
  end.
Fixpoint bench_events (st : load E * reporter) (evs : list bench_event) : option (load E * reporter) :=
  match evs with
  | [] => Some st
  | ev :: evs => st ← bench_step st ev; bench_events st evs
  end.
(** What [runSustained] sets up. *)
Definition soak_init (counts : option (list Z)) : load E :=
  load_init b None (Some no_live) (Some (replicate (Z.to_nat (b_workers b)) (MkBucket [] []))) (Some (newReservoir (b_latencySamples b))) counts.
End system.
Arguments bench_event E : clear implicits.

(** ** The metrics endpoint *)

Section metrics.
Context (b : benchmark).
Definition bench_labels : gmap string string :=
  {["key_distribution" := b_distribution b; "key_prefix" := b_keyPrefix b]}.
Definition count_items (live : liveCounters) : list (item f64) :=
  [Help "pulsekv_workload_operations_total" "counter" "Operations this generator has issued, by kind.";
   Metric "pulsekv_workload_operations_total" (With bench_labels "kind" "read") (of_int (l_reads live));
   Metric "pulsekv_workload_operations_total" (With bench_labels "kind" "write") (of_int (l_writes live));
   Help "pulsekv_workload_reads_total" "counter"
     "Read outcomes. hit/(hit+miss) is the cache hit rate this workload actually saw. A mismatch is a read that returned the wrong bytes and is never tolerated.";
   Metric "pulsekv_workload_reads_total" (With bench_labels "result" "hit") (of_int (l_hits live));
   Metric "pulsekv_workload_reads_total" (With bench_labels "result" "miss") (of_int (l_misses live));
   Metric "pulsekv_workload_reads_total" (With bench_labels "result" "mismatch") (of_int (l_mismatches live));
   Help "pulsekv_workload_verified_total" "counter"
     "Reads compared byte-for-byte against the value written for that key. Every hit must appear here; a hit that was not verified is not evidence of anything.";
   Metric "pulsekv_workload_verified_total" bench_labels (of_int (l_verified live));
   Help "pulsekv_workload_rpc_errors_total" "counter"
     "Operations that failed outright. Expected to be nonzero while a fault is being injected and a topology change is in flight.";
   Metric "pulsekv_workload_rpc_errors_total" bench_labels (of_int (l_rpcErrors live));
   Help "pulsekv_workload_hit_rate" "gauge"
     "hits / (hits + misses) over the run so far. Reported directly as well as via the counters above, because it is the number a reader is looking for."] ++
  let total := l_hits live + l_misses live in
  if 0 <? total then [Metric "pulsekv_workload_hit_rate" bench_labels (fdiv (of_int (l_hits live)) (of_int total))] else [].
(** [elapsed] is the time since the measured phase began, if it has; [live] the counters as
    the handler read them. *)
Definition writeMetrics (elapsed : option Z) (live : option liveCounters) : list (item f64) :=
  [Help "pulsekv_workload_running" "gauge" "1 while the load generator is executing its measured phase.";
   Metric "pulsekv_workload_running" bench_labels (of_int (match live with Some _ => 1 | None => 0 end));
   Help "pulsekv_workload_elapsed_seconds" "gauge" "Seconds since the measured phase started."] ++
  match elapsed with Some d => [Metric "pulsekv_workload_elapsed_seconds" bench_labels (seconds d)] | None => [] end ++
  match live with Some live => count_items live | None => [] end.

(** Each family is declared once before its samples, and no series is written twice. *)
Lemma writeMetrics_valid elapsed live :
  declared [] (writeMetrics elapsed live) = true ∧ NoDup (series (writeMetrics elapsed live)).
Proof using Type.
  unfold writeMetrics, count_items. cbv zeta.
  destruct elapsed, live as [live|]; [destruct (0 <? _)|..|destruct (0 <? _)|];
    (split; [reflexivity|eapply series_NoDup; [vm_compute; reflexivity|vm_compute; reflexivity]]).
Qed.
End metrics.

(** ** What the rows add up to *)

Section rows.
Context {E : Type} (b : benchmark) (started : Z).

(** The latencies the workers have put in their buckets. *)
Definition read_times (evs : list (bench_event E)) : list Z :=
  omap (fun ev => match ev with Work (GetDone _ _ _ elapsed) => Some elapsed | _ => None end) evs.
Definition write_times (evs : list (bench_event E)) : list Z :=
  omap (fun ev => match ev with Work (PutDone _ _ _ elapsed) => Some elapsed | _ => None end) evs.
(** The workers' events, and how often the reporter woke. *)
Definition works (evs : list (bench_event E)) : list (load_event E) := omap (fun ev => match ev with Work ev => Some ev | _ => None end) evs.
Definition ticks (evs : list (bench_event E)) : nat :=
  length (omap (fun ev => match ev with Tick now => Some now | _ => None end) evs).

(** The latencies behind a row are sorted, and its percentiles are theirs. *)
Definition row_of (d : list Z * list Z) (i : nat) (row : intervalReport) : Prop :=
  ir_index row = Z.of_nat i + 1 ∧ StronglySorted dur_le d.1 ∧ StronglySorted dur_le d.2 ∧
  percentileMs d.1 p50 = Some (ir_readP50 row) ∧ percentileMs d.1 p99 = Some (ir_readP99 row) ∧
  percentileMs d.2 p50 = Some (ir_writeP50 row) ∧ percentileMs d.2 p99 = Some (ir_writeP99 row).
Definition row_counts : list (intervalReport → Z) := [ir_reads; ir_writes; ir_verified; ir_misses; ir_mismatches; ir_errors].
Definition row_sums (rows : list intervalReport) : list Z := (fun f => sum_Z (f <$> rows)) <$> row_counts.
Definition row_nonneg (row : intervalReport) : Prop :=
  Forall (fun f => 0 ≤ f row) row_counts ∧ ir_operations row = ir_reads row + ir_writes row.

(** How many of the events a counter counts, and a stretch of the run that is one row's
    share of it: it has the tick of the row, and the row gives its count. *)
Definition counted (f : liveCounters → Z) (evs : list (bench_event E)) : Z := f (sum_worth live_worth (works evs)).
Definition cut_of (f : liveCounters → Z) (g : intervalReport → Z) (cut : list (bench_event E)) (row : intervalReport) : Prop :=
  ticks cut = 1%nat ∧ g row = counted f cut.

Definition pending (p : rep_phase) : list Z * list Z :=
  match p with RWait => ([], []) | RDrain _ _ reads writes => (reads, writes) | RLoad _ reads writes _ => (reads, writes) end.
Definition in_buckets (f : intervalBucket → list Z) (s : load E) : list Z := concat (f <$> default [] (lo_buckets s)).
Definition got_of (p : rep_phase) : list Z := match p with RLoad _ _ _ got => got | _ => [] end.

(** The run so far as the [k]-th counter sees it: a stretch per row, then the stretch up
    to the reading for the row in progress, if there is one yet, then the rest. *)
Definition cuts_inv (f : liveCounters → Z) (g : intervalReport → Z) (k : nat) (evs : list (bench_event E)) (r : reporter) : Prop :=
  ∃ cuts rest, evs = concat cuts ++ rest ∧ Forall2 (cut_of f g) cuts (rp_series r) ∧
    ∀ x, got_of (rp_phase r) !! k = Some x →
      ∃ mid rest', rest = mid ++ rest' ∧ ticks mid = 1%nat ∧ x = counted f (concat cuts ++ mid).

Record report_inv (evs : list (bench_event E)) (s : load E) (r : reporter) (drained : list (list Z * list Z)) : Prop := {
  ri_length : length drained = length (rp_series r);
  ri_rows : ∀ i d row, drained !! i = Some d → rp_series r !! i = Some row → row_of d i row;
  ri_reads : concat drained.*1 ++ (pending (rp_phase r)).1 ++ in_buckets ib_reads s ≡ₚ read_times evs;
  ri_writes : concat drained.*2 ++ (pending (rp_phase r)).2 ++ in_buckets ib_writes s ≡ₚ write_times evs;
  ri_live : lo_live s = Some (sum_worth live_worth (works evs));
  ri_last : rp_last r = row_sums (rp_series r);
  ri_ops : Forall (fun row => ir_operations row = ir_reads row + ir_writes row) (rp_series r);
  ri_ticks : ticks evs = (length (rp_series r) + match rp_phase r with RWait => 0 | _ => 1 end)%nat;
  ri_cuts : ∀ k f g, counter_loads !! k = Some f → row_counts !! k = Some g → cuts_inv f g k evs r;
  ri_loaded : match rp_phase r with RLoad _ reads writes _ => StronglySorted dur_le reads ∧ StronglySorted dur_le writes | _ => True end;
  ri_buckets : ∃ bs, lo_buckets s = Some bs ∧ length bs = length (lo_workers s)
}.

(** *** Counting *)

Lemma works_app l k : works (l ++ k) = works l ++ works k.
Proof using Type. apply omap_app. Qed.
Lemma ticks_app l k : ticks (l ++ k) = (ticks l + ticks k)%nat.
Proof using Type. unfold ticks. by rewrite omap_app, length_app. Qed.
Lemma times_app f (l k : list (bench_event E)) : omap (B := Z) f (l ++ k) = omap f l ++ omap f k.
Proof using Type. apply omap_app. Qed.

Lemma counter_cases f : f ∈ counter_loads →
  (∀ a d, f (live_add a d) = f a + f d) ∧ f no_live = 0 ∧ ∀ ev, 0 ≤ f (live_worth (E := E) ev).
Proof using Type.
  intros Hf. unfold counter_loads in Hf. rewrite !elem_of_cons in Hf.
  destruct Hf as [->|[->|[->|[->|[->|[->|Hf]]]]]]; [..|by apply not_elem_of_nil in Hf];
    (split; [done|]; split; [done|]; intros [| w []| | | |w []|w []|]; cbn; lia).
Qed.
Lemma counted_app f l k : f ∈ counter_loads → counted f (l ++ k) = counted f l + counted f k.
Proof using Type. intros Hf. unfold counted. rewrite works_app, sum_worth_app. by apply counter_cases. Qed.
Lemma counted_nonneg f l : f ∈ counter_loads → 0 ≤ counted f l.
Proof using Type.
  intros Hf. unfold counted. destruct (counter_cases f Hf) as (Ha & H0 & Hw). induction (works l) as [|ev evs IH]; cbn.
  - rewrite H0. lia.
  - unfold sum_worth in *. cbn. rewrite Ha. specialize (Hw ev). lia.
Qed.
Lemma cuts_sum f g cuts rows : f ∈ counter_loads → Forall2 (cut_of f g) cuts rows →
  sum_Z (g <$> rows) = counted f (concat cuts) ∧ ticks (concat cuts) = length rows.
Proof using Type.
  intros Hf. induction 1 as [|cut row cuts rows [Ht Hg] _ [IH1 IH2]]; cbn [concat].
  - split; [|done]. destruct (counter_cases f Hf) as (_ & H0 & _). by unfold counted.
  - rewrite counted_app, ticks_app, fmap_cons by done. unfold sum_Z in *. cbn [foldr length]. lia.
Qed.
Lemma cuts_snoc f g k evs evs' r : cuts_inv f g k evs r → cuts_inv f g k (evs ++ evs') r.
Proof using Type.
  intros (cuts & rest & -> & Hc & Hx). exists cuts, (rest ++ evs'). split; [by rewrite app_assoc|]. split; [done|].
  intros x (mid & rest' & -> & Hm)%Hx. exists mid, (rest' ++ evs'). split; [by rewrite app_assoc|done].
Qed.
(** Nothing read for the row in progress yet. *)
Lemma cuts_fresh f g k evs r r' : cuts_inv f g k evs r → rp_series r' = rp_series r → got_of (rp_phase r') = [] → cuts_inv f g k evs r'.
Proof using Type. intros (cuts & rest & -> & Hc & _) Hs Hg. exists cuts, rest. rewrite Hs, Hg. split; [done|]. split; [done|]. intros x. by rewrite lookup_nil. Qed.

(** *** The workers' events *)

Lemma concat_insert {A B} (f : A → list B) l i x y : l !! i = Some x →
  f y ++ concat (f <$> l) ≡ₚ f x ++ concat (f <$> <[i := y]> l).
Proof using Type.
  revert i. induction l as [|z l IH]; intros [|i] Hi; simplify_eq/=; [by rewrite (Permutation_app_swap_app (f y))|].
  rewrite (Permutation_app_swap_app (f y)), IH by done. by rewrite (Permutation_app_swap_app (f x)).
Qed.

Lemma bucket_noted w (isRead : bool) elapsed bs : (w < length bs)%nat →
  let bs' := alter (fun k => bucket_add k elapsed isRead) w bs in
  length bs' = length bs ∧
  concat (ib_reads <$> bs') ≡ₚ concat (ib_reads <$> bs) ++ (if isRead then [elapsed] else []) ∧
  concat (ib_writes <$> bs') ≡ₚ concat (ib_writes <$> bs) ++ (if isRead then [] else [elapsed]).
Proof using Type.
  intros Hw bs'. unfold bs'. rewrite length_alter. split; [done|].
  destruct (lookup_lt_is_Some_2 bs w Hw) as [k Hk]. rewrite (alter_as_insert _ _ _ _ Hk).
  split; [pose proof (concat_insert ib_reads bs w k (bucket_add k elapsed isRead) Hk) as Hp
         |pose proof (concat_insert ib_writes bs w k (bucket_add k elapsed isRead) Hk) as Hp];
    destruct isRead; cbn in Hp; rewrite <-?app_assoc in Hp; apply Permutation_app_inv_l in Hp; rewrite <-Hp, ?app_nil_r; try done;
    apply Permutation_app_comm.
Qed.

Lemma step_buckets s ev s' bs : load_step b false None s ev = Some s' → lo_buckets s = Some bs → length bs = length (lo_workers s) →
  ∃ bs', lo_buckets s' = Some bs' ∧ length bs' = length (lo_workers s') ∧
    concat (ib_reads <$> bs') ≡ₚ concat (ib_reads <$> bs) ++ read_times [Work ev] ∧
    concat (ib_writes <$> bs') ≡ₚ concat (ib_writes <$> bs) ++ write_times [Work ev].
Proof using Type.
  intros Hs Hb Hl. rewrite (workers_step b false None _ _ _ Hs). apply step_inv in Hs as (x & x' & Hx & _ & ->).
  apply lookup_lt_Some in Hx. rewrite <-Hl in Hx |- *.
  destruct ev; cbn [event_worker] in Hx; cbn; rewrite Hb; cbn;
    first [eexists; split; [done|]; first [exact (bucket_noted w true elapsed bs Hx)|exact (bucket_noted w false elapsed bs Hx)]
          |exists bs; by rewrite !app_nil_r].
Qed.

Lemma inv_work evs s r drained ev s' : report_inv evs s r drained → load_step b false None s ev = Some s' →
  report_inv (evs ++ [Work ev]) s' r drained.
Proof using Type.
  intros [H1 H2 H3 H4 H5 H6 H7 H8 H9 H10 (bs & Hb & Hl)] Hs.
  destruct (step_buckets s ev s' bs Hs Hb Hl) as (bs' & Hb' & Hl' & Hr & Hw).
  split; try done.
  - unfold read_times, in_buckets in *. rewrite times_app, <-H3, Hb, Hb'. cbn [default]. rewrite Hr. unfold read_times. by rewrite !app_assoc.
  - unfold write_times, in_buckets in *. rewrite times_app, <-H4, Hb, Hb'. cbn [default]. rewrite Hw. unfold write_times. by rewrite !app_assoc.
  - destruct (step_totals b false None _ _ _ Hs) as (_ & _ & ->). rewrite H5, works_app, sum_worth_app. cbn. do 2 f_equal.
    unfold sum_worth. cbn. by rewrite live_add_nil.
  - rewrite ticks_app, H8. cbn. lia.
  - intros k f g Hf Hg. by apply cuts_snoc, H9.
  - by exists bs'.
Qed.

(** *** The reporter's accesses *)

Lemma inv_tick evs s r drained now : report_inv evs s r drained → rp_phase r = RWait →
  report_inv (evs ++ [Tick now]) s (MkReporter (rp_series r) (rp_last r) (rp_previous r) (RDrain now 0 [] [])) drained.
Proof using Type.
  intros [H1 H2 H3 H4 H5 H6 H7 H8 H9 H10 H11] Hw. rewrite Hw in H3, H4, H8.
  split; try done; unfold read_times, write_times in *.
  - by rewrite times_app, app_nil_r.
  - by rewrite times_app, app_nil_r.
  - by rewrite works_app, app_nil_r.
  - rewrite ticks_app, H8. cbn. lia.
  - intros k f g Hf Hg. eapply cuts_fresh; [by apply cuts_snoc, H9|done..].
Qed.

Lemma in_buckets_drain f s bs next k : lo_buckets s = Some bs → bs !! next = Some k → f (MkBucket [] []) = [] →
  in_buckets f s ≡ₚ f k ++ in_buckets f (set_buckets (<[next := MkBucket [] []]> bs) s).
Proof using Type.
  intros Hb Hk Hf. unfold in_buckets. rewrite Hb. cbn. pose proof (concat_insert f bs next k (MkBucket [] []) Hk) as Hp. by rewrite Hf in Hp.
Qed.

Lemma inv_drain evs s r drained now next reads writes bs k :
  report_inv evs s r drained → rp_phase r = RDrain now next reads writes → lo_buckets s = Some bs → bs !! next = Some k →
  report_inv (evs ++ [Reporter]) (set_buckets (<[next := MkBucket [] []]> bs) s)
    (MkReporter (rp_series r) (rp_last r) (rp_previous r) (RDrain now (S next) (reads ++ ib_reads k) (writes ++ ib_writes k))) drained.
Proof using Type.
  intros [H1 H2 H3 H4 H5 H6 H7 H8 H9 H10 (bs' & Hb' & Hl)] Hp Hb Hk. rewrite Hp in H3, H4, H8. cbn in H3, H4. rewrite Hb in Hb'. injection Hb' as <-.
  split; try done; unfold read_times, write_times in *.
  - rewrite times_app, app_nil_r, <-H3, (in_buckets_drain ib_reads s bs next k) by done. cbn. by rewrite !app_assoc.
  - rewrite times_app, app_nil_r, <-H4, (in_buckets_drain ib_writes s bs next k) by done. cbn. by rewrite !app_assoc.
  - by rewrite works_app, app_nil_r.
  - rewrite ticks_app, H8. cbn. lia.
  - intros i f g Hf Hg. eapply cuts_fresh; [by apply cuts_snoc, H9|done..].
  - eexists. split; [done|]. by rewrite length_insert.
Qed.

Lemma sortDurations_sorted l : StronglySorted dur_le (sortDurations l).
Proof using Type. apply StronglySorted_merge_sort; apply _. Qed.

Lemma inv_sort evs s r drained now next reads writes :
  report_inv evs s r drained → rp_phase r = RDrain now next reads writes →
  report_inv (evs ++ [Reporter]) s
    (MkReporter (rp_series r) (rp_last r) (rp_previous r) (RLoad now (sortDurations reads) (sortDurations writes) [])) drained.
Proof using Type.
  intros [H1 H2 H3 H4 H5 H6 H7 H8 H9 H10 H11] Hp. rewrite Hp in H3, H4, H8. cbn in H3, H4.
  split; try done; unfold read_times, write_times in *.
  - rewrite times_app, app_nil_r, <-H3. cbn. unfold sortDurations. by rewrite (merge_sort_Permutation dur_le reads).
  - rewrite times_app, app_nil_r, <-H4. cbn. unfold sortDurations. by rewrite (merge_sort_Permutation dur_le writes).
  - by rewrite works_app, app_nil_r.
  - rewrite ticks_app, H8. cbn. lia.
  - intros i f g Hf Hg. eapply cuts_fresh; [by apply cuts_snoc, H9|done..].
  - split; apply sortDurations_sorted.
Qed.

(** The reading of a counter closes its stretch. *)
Lemma inv_load evs s r drained now reads writes got counter :
  report_inv evs s r drained → rp_phase r = RLoad now reads writes got → counter_loads !! length got = Some counter →
  report_inv (evs ++ [Reporter]) s
    (MkReporter (rp_series r) (rp_last r) (rp_previous r) (RLoad now reads writes (got ++ [counted counter evs]))) drained.
Proof using Type.
  intros [H1 H2 H3 H4 H5 H6 H7 H8 H9 H10 H11] Hp Hc. rewrite Hp in H3, H4, H8, H10. cbn in H3, H4.
  split; try done; unfold read_times, write_times in *.
  - by rewrite times_app, app_nil_r.
  - by rewrite times_app, app_nil_r.
  - by rewrite works_app, app_nil_r.
  - rewrite ticks_app, H8. cbn. lia.
  - intros k f g Hf Hg. destruct (H9 k f g Hf Hg) as (cuts & rest & Hevs & Hcut & Hx). rewrite Hp in Hx. cbn [got_of] in Hx.
    exists cuts, (rest ++ [Reporter]). split; [by rewrite Hevs, <-app_assoc|]. split; [done|]. cbn [rp_phase got_of]. intros x [Hk|[Hk Hn]]%lookup_app_Some.
    + destruct (Hx x Hk) as (mid & rest' & -> & Hm). exists mid, (rest' ++ [Reporter]). split; [by rewrite app_assoc|done].
    + apply list_lookup_singleton_Some in Hn as [Hn <-]. assert (k = length got) as -> by lia. rewrite Hc in Hf. injection Hf as <-.
      exists rest, [Reporter]. split; [done|]. rewrite <-Hevs. split; [|done].
      destruct (cuts_sum counter g cuts (rp_series r)) as [_ Ht]; [by eapply list_elem_of_lookup_2|done|]. rewrite Hevs, ticks_app in H8. lia.
Qed.

Lemma sum_Z_snoc l x : sum_Z (l ++ [x]) = sum_Z l + x.
Proof using Type. unfold sum_Z. induction l as [|y l IH]; cbn in *; lia. Qed.

(** What a row says, counter by counter. *)
Lemma interval_row_fields r now reads writes got row : interval_row started r now reads writes got = Some row →
  length got = 6%nat ∧ length (rp_last r) = 6%nat ∧ ir_operations row = ir_reads row + ir_writes row ∧
  (StronglySorted dur_le reads → StronglySorted dur_le writes → row_of (reads, writes) (length (rp_series r)) row) ∧
  ∀ k g x l, row_counts !! k = Some g → got !! k = Some x → rp_last r !! k = Some l → g row = x - l.
Proof using Type.
  intros Hrow. unfold interval_row in Hrow.
  destruct got as [|g1 [|g2 [|g3 [|g4 [|g5 [|g6 [|]]]]]]]; [done..| |done].
  destruct (rp_last r) as [|l1 [|l2 [|l3 [|l4 [|l5 [|l6 [|]]]]]]]; [done..| |done].
  apply bind_Some in Hrow as (q1 & Hq1 & Hrow). apply bind_Some in Hrow as (q2 & Hq2 & Hrow).
  apply bind_Some in Hrow as (q3 & Hq3 & Hrow). apply bind_Some in Hrow as (q4 & Hq4 & [= <-]).
  split; [done|]. split; [done|]. split; [done|]. split; [intros ? ?; unfold row_of; cbn; by split_and!|].
  intros k g x l Hg Hx Hl. destruct k as [|[|[|[|[|[|k]]]]]]; cbn in Hg, Hx, Hl; simplify_eq; done.
Qed.

Lemma row_sums_snoc rows row k g : row_counts !! k = Some g →
  row_sums (rows ++ [row]) !! k = Some (sum_Z (g <$> rows) + g row).
Proof using Type. intros Hg. unfold row_sums. rewrite list_lookup_fmap, Hg. cbn [fmap option_fmap option_map]. by rewrite fmap_app, fmap_cons, sum_Z_snoc. Qed.

(** The row closes the stretches of all its counters. *)
Lemma cuts_emit evs s r drained got row now k f g : report_inv evs s r drained → got_of (rp_phase r) = got →
  length got = 6%nat → (∀ k g x l, row_counts !! k = Some g → got !! k = Some x → rp_last r !! k = Some l → g row = x - l) →
  counter_loads !! k = Some f → row_counts !! k = Some g →
  cuts_inv f g k evs (MkReporter (rp_series r ++ [row]) got now RWait).
Proof using Type.
  intros Hi Hgot Hlen Hrow Hf Hg. destruct (ri_cuts _ _ _ _ Hi k f g Hf Hg) as (cuts & rest & -> & Hc & Hx).
  assert (k < 6)%nat as Hk by (apply lookup_lt_Some in Hg; done).
  destruct (lookup_lt_is_Some_2 got k) as [x Hk']; [lia|]. rewrite Hgot in Hx. destruct (Hx x Hk') as (mid & rest' & -> & Hm & ->).
  assert (f ∈ counter_loads) as Hin by (by eapply list_elem_of_lookup_2).
  destruct (cuts_sum f g cuts (rp_series r) Hin Hc) as [Hsum _].
  exists (cuts ++ [mid]), rest'. split; [by rewrite concat_app, <-app_assoc; cbn; rewrite app_nil_r|]. split; [|cbn [rp_phase got_of]; intros x; by rewrite lookup_nil].
  apply Forall2_app; [done|]. constructor; [|done]. split; [done|].
  rewrite (Hrow k g _ (sum_Z (g <$> rp_series r)) Hg Hk').
  - rewrite counted_app by done. lia.
  - rewrite (ri_last _ _ _ _ Hi). unfold row_sums. by rewrite list_lookup_fmap, Hg.
Qed.

Lemma inv_emit evs s r drained now reads writes got row :
  report_inv evs s r drained → rp_phase r = RLoad now reads writes got → interval_row started r now reads writes got = Some row →
  report_inv (evs ++ [Reporter]) s (MkReporter (rp_series r ++ [row]) got now RWait) (drained ++ [(reads, writes)]).
Proof using Type.
  intros Hi Hp Hrow. destruct (interval_row_fields _ _ _ _ _ _ Hrow) as (Hlen & Hlast & Hops & Hof & Hcnt).
  pose proof (fun k f g => cuts_emit evs s r drained got row now k f g Hi ltac:(by rewrite Hp) Hlen Hcnt) as Hcuts.
  destruct Hi as [H1 H2 H3 H4 H5 H6 H7 H8 H9 H10 H11]. rewrite Hp in H3, H4, H8, H10. cbn in H3, H4. destruct H10 as [Hr Hw].
  split; try done; unfold read_times, write_times in *.
  - cbn. rewrite !length_app. cbn. lia.
  - intros i d row'. cbn [rp_series]. rewrite !lookup_app_Some. intros [Hd|[Hi Hd]] [Hx|[Hj Hx]].
    + by eapply H2.
    + apply lookup_lt_Some in Hd. lia.
    + apply lookup_lt_Some in Hx. lia.
    + apply list_lookup_singleton_Some in Hd as [Hd <-]. apply list_lookup_singleton_Some in Hx as [Hx <-].
      replace i with (length (rp_series r)) by lia. by apply Hof.
  - rewrite times_app, app_nil_r, <-H3, fmap_app, concat_app. cbn. by rewrite !app_nil_r, <-app_assoc.
  - rewrite times_app, app_nil_r, <-H4, fmap_app, concat_app. cbn. by rewrite !app_nil_r, <-app_assoc.
  - by rewrite works_app, app_nil_r.
  - cbn [rp_last rp_series]. apply list_eq_same_length with 6%nat; [done..|]. intros k x y Hk Hx Hy.
    destruct (lookup_lt_is_Some_2 row_counts k Hk) as [g Hg]. rewrite (row_sums_snoc _ _ _ _ Hg) in Hy. injection Hy as <-.
    rewrite (Hcnt k g x (sum_Z (g <$> rp_series r)) Hg Hx); [lia|]. rewrite H6. unfold row_sums. by rewrite list_lookup_fmap, Hg.
  - cbn. apply Forall_app. split; [done|]. by apply Forall_singleton.
  - rewrite ticks_app, H8. cbn. rewrite length_app. cbn. lia.
  - intros k f g Hf Hg. by apply cuts_snoc, Hcuts.
Qed.

Lemma report_step_inv evs s r drained ev s' r' : report_inv evs s r drained → bench_step b started (s, r) ev = Some (s', r') →
  ∃ drained', report_inv (evs ++ [ev]) s' r' drained'.
Proof using Type.
  intros Hi. destruct ev as [ev|now|]; cbn [bench_step].
  - intros (s1 & Hs & [= <- <-])%bind_Some. exists drained. by eapply inv_work.
  - destruct (rp_phase r) eqn:Hp; [|done..]. intros [= <- <-]. exists drained. by apply inv_tick.
  - unfold reporter_step. destruct (rp_phase r) as [|now next reads writes|now reads writes got] eqn:Hp; [done|..].
    + intros (bs & Hb & H)%bind_Some. destruct (bs !! next) as [k|] eqn:Hk; cbn in H; injection H as <- <-; exists drained.
      * by eapply inv_drain.
      * by eapply inv_sort.
    + destruct (counter_loads !! length got) as [counter|] eqn:Hc.
      * intros (live' & Hl & [= <- <-])%bind_Some. rewrite (ri_live _ _ _ _ Hi) in Hl. injection Hl as <-.
        exists drained. by apply (inv_load evs s r drained now reads writes got counter).
      * intros (row & Hrow & [= <- <-])%bind_Some. exists (drained ++ [(reads, writes)]). by eapply inv_emit.
Qed.

Lemma inv_events evs0 s r drained evs s' r' : report_inv evs0 s r drained → bench_events b started (s, r) evs = Some (s', r') →
  ∃ drained', report_inv (evs0 ++ evs) s' r' drained'.
Proof using Type.
  revert evs0 s r drained. induction evs as [|ev evs IH]; intros evs0 s r drained Hi; cbn.
  - intros [= <- <-]. rewrite app_nil_r. eauto.
  - intros ([s1 r1] & Hs & H)%bind_Some. destruct (report_step_inv _ _ _ _ _ _ _ Hi Hs) as (d & Hi'). rewrite cons_middle, app_assoc. by eapply IH.
Qed.

Lemma inv_start counts : report_inv [] (soak_init b counts) (new_reporter started) [].
Proof using Type.
  split; try done; cbn.
  - rewrite fmap_replicate. cbn. by induction (Z.to_nat (b_workers b)).
  - rewrite fmap_replicate. cbn. by induction (Z.to_nat (b_workers b)).
  - intros k f g _ _. exists [], []. split; [done|]. split; [constructor|]. done.
  - eexists. split; [done|]. by rewrite length_replicate, length_fmap, length_seq.
Qed.
End rows.

(** ** The workers do not see the reporter *)

Section project.
Context {E : Type} (b : benchmark) (started : Z).
Definition with_buckets (o : option (list intervalBucket)) (s : load E) : load E :=
  MkLoad (lo_workers s) (lo_live s) o (lo_sampler s) (lo_counts s).

Lemma step_rebucket s ev s' o : load_step b false None s ev = Some s' →
  ∃ o', load_step b false None (with_buckets o s) ev = Some (with_buckets o' s').
Proof using Type.
  intros (x & x' & Hx & Hx' & ->)%step_inv. unfold load_step. cbn. rewrite Hx. cbn. rewrite Hx'. cbn.
  destruct ev; by eexists.
Qed.

Lemma reporter_same s r s' r' : reporter_step started s r = Some (s', r') → ∃ o, s' = with_buckets o s.
Proof using Type.
  unfold reporter_step. destruct (rp_phase r); [done|..].
  - intros (bs & _ & H)%bind_Some. destruct (bs !! next); cbn in H; injection H as <- _; [by eexists|exists (lo_buckets s); by destruct s].
  - case_match.
    + intros (live & _ & [= <- _])%bind_Some. exists (lo_buckets s). by destruct s.
    + intros (row & _ & [= <- _])%bind_Some. exists (lo_buckets s). by destruct s.
Qed.

Lemma events_project s r evs s' r' o : bench_events b started (s, r) evs = Some (s', r') →
  ∃ o', load_run b false None (with_buckets o s) (works evs) = Some (with_buckets o' s').
Proof using Type.
  revert s r o. induction evs as [|ev evs IH]; intros s r o; cbn [bench_events]; [intros [= <- <-]; by exists o|].
  intros ([s1 r1] & Hs & H)%bind_Some. destruct ev as [ev|now|]; cbn in Hs |- *.
  - apply bind_Some in Hs as (s2 & Hs & [= <- <-]). destruct (step_rebucket s ev s2 o Hs) as [o1 Ho]. rewrite Ho. cbn. by eapply IH.
  - destruct (rp_phase r); [|done..]. injection Hs as <- <-. by eapply IH.
  - apply reporter_same in Hs as [o1 ->]. by apply (IH (with_buckets o1 s) r1 o).
Qed.
End project.

(** ** Claims *)

(** C39: the time series of a soak is exact, under every interleaving of the reporter's
    single accesses with the single accesses of the workers.  For each of the six counters
    the run is a sequence of consecutive stretches, one per row and each with one tick of
    the reporter, followed by a rest that no row covers (what happened after the last row
    read the counter): the row gives exactly how many events of its stretch the counter
    counts, and all stretches and the rest together give the total of the final report
    (whose RPC errors also count the mismatches).  Every latency put in a bucket is behind
    exactly one row, or still pending or in a bucket: none is lost or reported twice.  The
    rows are numbered from 1, have no negative counter, and give the percentiles of their
    latencies. *)
Theorem interval_series_exact {E} b started counts evs (s : load E) r
    (Hvalid : benchmark_validate b = None)
    (Hrun : bench_events b started (soak_init b counts, new_reporter started) evs = Some (s, r)) :
  let rows := rp_series r in
  let total := summarize (w_result <$> lo_workers s) in
  (∀ k f g, counter_loads !! k = Some f → row_counts !! k = Some g →
     ∃ cuts rest, evs = concat cuts ++ rest ∧ Forall2 (cut_of f g) cuts rows ∧
       (rp_phase r = RWait → ticks rest = 0%nat)) ∧
  (fun f => counted f evs) <$> counter_loads =
    [s_reads total; s_writes total; s_verified total; s_misses total; s_mismatches total; s_rpcErrors total - s_mismatches total] ∧
  (∃ drained, length drained = length rows ∧
     (∀ i d row, drained !! i = Some d → rows !! i = Some row → row_of d i row) ∧
     concat drained.*1 ++ (pending (rp_phase r)).1 ++ in_buckets ib_reads s ≡ₚ read_times evs ∧
     concat drained.*2 ++ (pending (rp_phase r)).2 ++ in_buckets ib_writes s ≡ₚ write_times evs) ∧
  Forall row_nonneg rows.
Proof.
  intros rows total. destruct (inv_events b started [] _ _ _ evs s r (inv_start b started counts) Hrun) as (drained & Hi).
  cbn [app] in Hi. split; [|split; [|split]].
  - intros k f g Hf Hg. destruct (ri_cuts _ _ _ _ Hi k f g Hf Hg) as (cuts & rest & -> & Hc & _). exists cuts, rest. split; [done|]. split; [done|].
    intros Hw. destruct (cuts_sum f g cuts (rp_series r)) as [_ Ht]; [by eapply list_elem_of_lookup_2|done|].
    pose proof (ri_ticks _ _ _ _ Hi) as Hn. rewrite Hw, ticks_app in Hn. lia.
  - destruct (events_project b started _ _ _ _ _ (lo_buckets (soak_init (E := E) b counts)) Hrun) as [o Hp].
    destruct (live_is_summary b _ _ counts _ _ Hvalid Hp) as (_ & Hr & Hw & _ & Hv & Hm & Hmm & He).
    change (lo_workers (with_buckets o s)) with (lo_workers s) in *. fold total in Hr, Hw, Hv, Hm, Hmm, He.
    unfold counter_loads, counted. cbn [fmap list_fmap]. rewrite Hr, Hw, Hv, Hm, Hmm. do 5 f_equal. f_equal. lia.
  - exists drained. split; [apply Hi|]. split; [apply Hi|]. split; apply Hi.
  - apply Forall_lookup. intros i row Hrow. split; [|exact (proj1 (Forall_lookup _ _) (ri_ops _ _ _ _ Hi) i row Hrow)].
    apply Forall_lookup. intros k g Hg. destruct (lookup_lt_is_Some_2 counter_loads k) as [f Hf]; [by apply lookup_lt_Some in Hg|].
    destruct (ri_cuts _ _ _ _ Hi k f g Hf Hg) as (cuts & rest & _ & Hc & _).
    eapply Forall2_lookup_r in Hc as (cut & _ & _ & ->); [|done]. apply counted_nonneg. by eapply list_elem_of_lookup_2.
Qed.

(** A soak of one operation per worker, with a tick in the middle of it. *)
Module BenchReportDemo.
Definition b : benchmark :=
  MkBenchmark "127.0.0.1:7000" 2 8 3 3 0 p50 42 "bench" 1 1 0 "uniform" (of_int 1) 1 5000000000 1000000000 "" false 1000 "".
Definition evs : list (bench_event ()) :=
  (Work <$> BenchDemo.read 0 1) ++ [Work (Start 1 2 false); Work (Count 1 false); Tick 1000000000] ++ replicate 2 Reporter ++
  [Work (PutDone 1 2 None 7); Work (Offer 1 (MkSample 7 false) 0); Work (Judge 1 Stored)] ++ replicate 8 Reporter ++
  (Work <$> BenchDemo.read 1 0) ++ [Work (Return 0); Work (Return 1)].
Definition final : load () * reporter :=
  default (soak_init b None, new_reporter 0) (bench_events b 0 (soak_init b None, new_reporter 0) evs).
End BenchReportDemo.

(** The write finished after its bucket had been emptied: its latency waits for a next
    row, and the last read is in no row at all. *)
Lemma interval_series_exact_witness :
  let rows := rp_series BenchReportDemo.final.2 in
  ir_verified <$> rows = [1] ∧ in_buckets ib_writes BenchReportDemo.final.1 = [7] ∧
  s_verified (summarize (w_result <$> lo_workers BenchReportDemo.final.1)) = 2 ∧
  ∃ cuts rest, BenchReportDemo.evs = concat cuts ++ rest ∧ Forall2 (cut_of l_verified ir_verified) cuts rows.
Proof.
  intros rows. split; [vm_compute; reflexivity|]. split; [vm_compute; reflexivity|]. split; [vm_compute; reflexivity|].
  destruct (interval_series_exact BenchReportDemo.b 0 None BenchReportDemo.evs BenchReportDemo.final.1 BenchReportDemo.final.2) as (H & _);
    [vm_compute; reflexivity|vm_compute; reflexivity|].
  destruct (H 2%nat l_verified ir_verified eq_refl eq_refl) as (cuts & rest & H1 & H2 & _).
  exists cuts, rest. split; [exact H1|exact H2].
Defined.
