(* ===== verification/BenchRun.v ===== *)
(** * A run of the cluster benchmark (cmd/pulsekv-cluster-bench: [run], [mixedAcross], [runSustained])

    The phases in order: fetching the topology, the SDK clients, the routing proof,
    populating, the discarded warmup, and the measured load, fixed or sustained; with the
    clients closed on every path.  What the cluster answers, and the schedule of the workers
    in each phase, are one record of inputs. *)

From S2P Require Import Prelude Topology Client Values ChaosOracle BenchStats BenchLoad BenchRoute BenchReport.
Local Open Scope Z_scope.

Section run.
Context {E : Type}.

Record run_in := MkRunIn {
  x_connect : string → option E; x_fetch : string → result (fetch_error E) Snapshot;   (* metadata, by address *)
  x_newSDK : Z → option E; x_closeSDK : Z → option E;                                 (* clients, by replica *)
  x_nonce : Z; x_dial : string → option E; x_closed : string → option E;              (* direct connections, by node *)
  x_put : bytes → bytes → option E; x_get : string → bytes → result E (option bytes);  (* the routing proof *)
  x_populate : Z → option E; x_done : Z → bool; x_order : list nat;
  x_warmup : list (load_event E);
  x_measured : list (load_event E);
  x_started : Z; x_soak : list (bench_event E);
  x_jsonErr : bool                                                                    (* writeJSONReport fails *)
}.

Inductive run_error :=
| FetchMetadata (e : metadata_error E) | CreateClient (replica : Z) (e : E) | RoutingVerification (e : routing_error E)
| PopulateFailed (key : Z) (e : E) | WarmupIncorrect (s : resultSummary E) | MeasurementIncorrect (s : resultSummary E)
| ReportFile | SustainedFailed (e : sustained_error) | CloseClient (e : E).

Definition ensureKeyCounts (b : benchmark) : option (list Z) :=
  if bool_decide (b_distribution b = distributionZipf) then Some (replicate (Z.to_nat (b_keys b)) 0) else None.

(** [None]: the events are not a complete schedule of the phase. *)
Definition mixedAcross (b : benchmark) (total : Z) (record : bool) (live : option liveCounters) (counts : option (list Z))
    (evs : list (load_event E)) : option (load E) :=
  let limit := Some (fun w => operations_of total (b_workers b) (Z.of_nat w)) in
  s ← load_run b record limit (load_init b limit live None None counts) evs;
  if bool_decide (finished s) then Some s else None.
Definition runSustained (b : benchmark) (x : run_in) (counts : option (list Z)) : option (option sustained_error) :=
  '(s, r) ← bench_events b (x_started x) (soak_init b counts, new_reporter (x_started x)) (x_soak x);
  match rp_phase r with
  | RWait => if bool_decide (finished s) then Some (finishSustained b (summarize (w_result <$> lo_workers s)) (x_jsonErr x)) else None
  | _ => None
  end.

(** The measured phase. *)
Definition run_measured (b : benchmark) (x : run_in) (counts : option (list Z)) : option (option run_error) :=
  if sustained b then (fun e : option sustained_error => SustainedFailed <$> e) <$> runSustained b x counts
  else
    s ← mixedAcross b (b_ops b) true (Some no_live) counts (x_measured x);
    let measured := summarize (w_result <$> lo_workers s) in
    Some (if bool_decide (b_jsonPath b ≠ "") && x_jsonErr x then Some ReportFile
          else MeasurementIncorrect <$> correctnessError measured (b_ops b)).
Definition run_warmup (b : benchmark) (x : run_in) : option (option run_error) :=
  let counts := ensureKeyCounts b in
  if 0 <? b_warmup b then
    s ← mixedAcross b (b_warmup b) false None counts (x_warmup x);
    match correctnessError (summarize (w_result <$> lo_workers s)) (b_warmup b) with
    | Some e => Some (Some (WarmupIncorrect e))
    | None => run_measured b x (lo_counts s)
    end
  else run_measured b x counts.
(** Everything between creating and closing the clients. *)
Definition run_phases (b : benchmark) (x : run_in) (t : clusterTopology) : option (option run_error) :=
  match proveRouting b t (x_dial x) (x_closed x) (x_put x) (x_get x) (x_nonce x) with
  | Some e => Some (Some (RoutingVerification e))
  | None =>
      match populate (x_populate x) (x_done x) populate_range (b_keys b) (b_workers b) (x_order x) with
      | Some (key, e) => Some (Some (PopulateFailed key e))
      | None => run_warmup b x
      end
  end.

(** The deferred loop: every client made is closed, and a first error is kept. *)
Definition close_clients (x : run_in) (made : Z) (err : option run_error) : option run_error :=
  first_some err (CloseClient <$> head (omap (x_closeSDK x) (seqZ 0 made))).
Definition benchmark_run (b : benchmark) (x : run_in) : option (option run_error) :=
  match bench_fetchTopology (x_connect x) (x_fetch x) b with
  | Err e => Some (Some (FetchMetadata e))
  | Ok t =>
      match head (omap (fun replica => pair replica <$> x_newSDK x replica) (seqZ 0 (b_replicas b))) with
      | Some (replica, e) => Some (close_clients x replica (Some (CreateClient replica e)))
      | None => err ← run_phases b x t; Some (close_clients x (b_replicas b) err)
      end
  end.

(** ** Each phase *)











End run.
Arguments run_in E : clear implicits.
Arguments run_error E : clear implicits.

(** ** Claims *)


(** A run against the fixture's cluster: one warmup read, three measured operations. *)
Module BenchRunDemo.
Definition b : benchmark :=
  MkBenchmark "127.0.0.1:7000,127.0.0.1:7001" 2 8 3 3 1 p50 42 "bench" 1 1 0 "uniform" (of_int 1) 2 0 0 "" false 1000 "".
Definition x : run_in () :=
  MkRunIn (fun a => if bool_decide (a = "127.0.0.1:7000") then Some () else None) (fun _ => Ok BenchRouteDemo.s)
    (fun _ => None) (fun _ => None) 42 (fun _ => None) (fun _ => None) (fun _ _ => None) BenchRouteDemo.get
    (fun _ => None) (fun _ => false) [1; 0]%nat (BenchDemo.read 0 2 ++ [Return 0]) BenchDemo.events 0 [] true.
(** A soak over the largest working set, whose only operation is a miss. *)
Definition huge : benchmark :=
  MkBenchmark "127.0.0.1:7000,127.0.0.1:7001" 2 8 maxInt64 3 0 p50 42 "bench" 1 1 0 "uniform" (of_int 1) 2 1000000000 0 "" false 1000 "".
Definition get_huge (address : string) (key : bytes) : result () (option bytes) :=
  match BenchRouteDemo.get address key, list_find (fun x => rs_key x = key) BenchRouteDemo.samples with
  | Ok (Some _), Some (i, _) => Ok (Some (sample_value huge i))
  | r, _ => r
  end.
Definition y : run_in () :=
  MkRunIn (x_connect x) (x_fetch x) (x_newSDK x) (x_closeSDK x) 42 (x_dial x) (x_closed x) (x_put x) get_huge
    (fun _ => Some ()) (fun _ => false) [1; 0]%nat [] [] 0 (Work <$> BenchDemo.soak) true.
End BenchRunDemo.


(** The run of [BenchRunDemo.huge] succeeds although no key was put, and no put would have
    succeeded. *)
Lemma bench_run_wraps :
  benchmark_validate BenchRunDemo.huge = None ∧ benchmark_run BenchRunDemo.huge BenchRunDemo.y = Some None ∧
  ∀ k, x_populate BenchRunDemo.y k = Some ().
Proof. split; [vm_compute; reflexivity|]. split; [vm_compute; reflexivity|done]. Qed.
