(* ===== verification/BenchSummary.v ===== *)
(** * What the cluster benchmark reports

    The tables of main.go ([printRow], [humanBytes]; cmd/pulsekv-node-bench/main.go has the
    same two) and the structured report of sustained.go and llm_shape.go ([baseReport],
    [writeFixedReport], and the one [finishSustained] writes).  Times are inputs; an index
    computed from floats is [option], as in [BenchStats].  The sums of latencies are int64. *)

From Stdlib Require Import SpecFloat.
From S2P Require Import Prelude BenchStats BenchLoad BenchReport.
Local Open Scope Z_scope.

(** ** The tables *)

(** Count, min, p50, p99, p999, max and mean of a non-empty sorted list. *)
Record table_row := MkRow { tr_count : nat; tr_min : Z; tr_p50 : Z; tr_p99 : Z; tr_p999 : Z; tr_max : Z; tr_mean : Z }.
(** [None] inside is the row of dashes; [None] outside a panic of [percentile]. *)
Definition printRow (sorted : list Z) : option (option table_row) :=
  match head sorted, last sorted with
  | Some lo, Some hi =>
      let sum := foldl (fun sum d => i64 (sum + d)) 0 sorted in
      q50 ← percentile sorted p50;
      q99 ← percentile sorted p99;
      q999 ← percentile sorted p999;
      Some (Some (MkRow (length sorted) lo q50 q99 q999 hi (sum `quot` Z.of_nat (length sorted))))
  | _, _ => Some None
  end.

(** The loop of [humanBytes]; it ends at exponent 3. *)
Fixpoint human_loop (todo : nat) (value divisor exponent : Z) : Z * Z :=
  match todo with
  | O => (divisor, exponent)
  | S todo =>
      if (1024 <=? value) && (exponent <? 3) then human_loop todo (value `quot` 1024) (i64 (divisor * 1024)) (exponent + 1)
      else (divisor, exponent)
  end.
Inductive human := Bytes (n : Z) | Scaled (n divisor : Z) (suffix : string).
(** [None] is an index outside "KMGT". *)
Definition humanBytes (n : Z) : option human :=
  if n <? 1024 then Some (Bytes n)
  else
    let '(divisor, exponent) := human_loop 4 (n `quot` 1024) 1024 0 in
    Scaled n divisor <$> ["K"; "M"; "G"; "T"] !! Z.to_nat exponent.

(** ** The structured report *)

(** The configuration half, which [baseReport] fills. *)
Record reportBase := MkBase {
  rb_started : Z; rb_finished : Z; rb_duration : f64; rb_controlPlane : string; rb_distribution : string; rb_zipfS : f64;
  rb_replicas : Z; rb_workers : Z; rb_valueSize : Z; rb_keys : Z; rb_readRatio : f64; rb_seed : Z;
  rb_concentration : concentration
}.
Record latencies := MkLatencies {
  la_readP50 : f64; la_readP99 : f64; la_readP999 : f64; la_writeP50 : f64; la_writeP99 : f64; la_writeP999 : f64
}.
Record runReport := MkRunReport {
  rr_base : reportBase; rr_mode : string;
  rr_operations : Z; rr_reads : Z; rr_writes : Z; rr_opsPerSecond : f64;
  rr_verified : Z; rr_hits : Z; rr_misses : Z; rr_mismatches : Z; rr_rpcErrors : Z;
  rr_latencySampled : bool; rr_latencySamples : nat; rr_latencies : latencies;
  rr_intervals : list intervalReport; rr_drift : option driftReport
}.

Definition zero_concentration : concentration := MkConcentration (S754_zero false) (S754_zero false) 0 0.
Definition baseReport (b : benchmark) (now elapsed : Z) (counts : list Z) : option reportBase :=
  age ← to_int (seconds elapsed);
  c ← (if bool_decide (b_distribution b = distributionZipf) then measureConcentration counts (of_int 1) else Some zero_concentration);
  Some (MkBase (now - age) now (seconds elapsed) (b_controlPlane b) (b_distribution b)
          (if bool_decide (b_distribution b = distributionZipf) then b_zipfS b else S754_zero false)
          (b_replicas b) (b_workers b) (b_valueSize b) (b_keys b) (b_readRatio b) (b_seed b) c).
Definition percentiles_of (reads writes : list Z) : option latencies :=
  a ← percentileMs reads p50; b ← percentileMs reads p99; c ← percentileMs reads p999;
  d ← percentileMs writes p50; e ← percentileMs writes p99; f ← percentileMs writes p999;
  Some (MkLatencies a b c d e f).

Section report.
Context {E : Type}.
Definition fill_report (base : reportBase) (mode : string) (s : resultSummary E) (elapsed : Z) (sampled : bool) (kept : nat)
    (l : latencies) (series : list intervalReport) (drift : option driftReport) : runReport :=
  let total := s_reads s + s_writes s in
  MkRunReport base mode total (s_reads s) (s_writes s) (fdiv (of_int total) (seconds elapsed))
    (s_verified s) (s_hits s) (s_misses s) (s_mismatches s) (s_rpcErrors s) sampled kept l series drift.
Definition writeFixedReport (b : benchmark) (s : resultSummary E) (now elapsed : Z) (counts : list Z) : option runReport :=
  base ← baseReport b now elapsed counts;
  l ← percentiles_of (s_readTimes s) (s_writeTimes s);
  Some (fill_report base "operations" s elapsed false (length (s_all s)) l [] None).
(** The sampler's latencies of one kind, sorted. *)
Definition sampled_times (isRead : bool) (samples : list latencySample) : list Z :=
  sortDurations (ls_duration <$> filter (fun x => ls_isRead x = isRead) samples).
Definition sustainedReport (b : benchmark) (s : resultSummary E) (sampler : reservoir latencySample) (series : list intervalReport)
    (now elapsed : Z) (counts : list Z) : option runReport :=
  let '(samples, seen) := snapshot sampler in
  base ← baseReport b now elapsed counts;
  l ← percentiles_of (sampled_times true samples) (sampled_times false samples);
  Some (fill_report base "duration" s elapsed (Z.of_nat (length samples) <? seen) (length samples) l series (computeDrift series)).
End report.

(** ** The tables are what they say *)

Lemma StronglySorted_bounds l lo hi x : StronglySorted dur_le l → head l = Some lo → last l = Some hi → x ∈ l → lo ≤ x ≤ hi.
Proof.
  intros Hs Hlo Hhi Hx. split.
  - destruct l as [|y l]; [done|]. injection Hlo as ->. apply StronglySorted_inv in Hs as [_ Hf].
    apply elem_of_cons in Hx as [->|Hx]; [lia|]. rewrite Forall_forall in Hf. by apply Hf.
  - apply last_Some in Hhi as [k ->]. apply elem_of_app in Hx as [Hx|Hx%list_elem_of_singleton]; [|lia].
    clear Hlo. induction k as [|y k IH]; [by apply not_elem_of_nil in Hx|]. apply StronglySorted_inv in Hs as [Hs Hf].
    apply elem_of_cons in Hx as [->|Hx]; [|by apply IH]. rewrite Forall_forall in Hf. apply Hf, elem_of_app. right. left.
Qed.

Lemma sum_bounds l lo hi : Forall (fun x => lo ≤ x ≤ hi) l → lo * Z.of_nat (length l) ≤ sum_Z l ≤ hi * Z.of_nat (length l).
Proof. unfold sum_Z. induction 1; cbn [foldr length]; lia. Qed.

Lemma foldl_i64_sum l a : Forall (fun x => 0 ≤ x) l → 0 ≤ a → a + sum_Z l < 2 ^ 63 → foldl (fun sum d => i64 (sum + d)) a l = a + sum_Z l.
Proof.
  unfold sum_Z. revert a. induction l as [|x l IH]; intros a Hl Ha Hb; cbn [foldl foldr] in *; [lia|].
  apply Forall_cons in Hl as [Hx Hl].
  assert (0 ≤ foldr Z.add 0 l) by (clear -Hl; induction Hl; cbn; lia).
  rewrite i64_id by (unfold in_i64; lia). rewrite IH by (done || lia). lia.
Qed.

(** Every number of a row lies between its min and its max, as long as the sum of the
    latencies fits its int64. *)
Lemma printRow_bounds sorted row : StronglySorted dur_le sorted → Forall (fun d => 0 ≤ d) sorted → sum_Z sorted < 2 ^ 63 →
  printRow sorted = Some (Some row) →
  Forall (fun x => tr_min row ≤ x ≤ tr_max row) [tr_p50 row; tr_p99 row; tr_p999 row; tr_mean row].
Proof.
  intros Hs Hpos Hsum. unfold printRow. destruct (head sorted) as [lo|] eqn:Hlo; [|done]. destruct (last sorted) as [hi|] eqn:Hhi; [|done].
  intros (q50 & H50 & H)%bind_Some. apply bind_Some in H as (q99 & H99 & H). apply bind_Some in H as (q999 & H999 & [= <-]). cbn.
  assert (sorted ≠ []) as Hne by (intros ->; done).
  assert (∀ p q, percentile sorted p = Some q → lo ≤ q ≤ hi) as Hq.
  { intros p q [Hin|[? _]]%percentile_elem; [|done]. by eapply StronglySorted_bounds. }
  rewrite foldl_i64_sum, Z.add_0_l by (done || lia).
  pose proof (sum_bounds sorted lo hi) as Hb. rewrite Forall_forall in Hb. specialize (Hb (fun x Hx => StronglySorted_bounds sorted lo hi x Hs Hlo Hhi Hx)).
  assert (0 < Z.of_nat (length sorted)) by (destruct sorted; [done|cbn; lia]).
  assert (0 ≤ lo) by (apply (proj1 (Forall_forall _ _) Hpos); destruct sorted; [done|injection Hlo as ->; left]).
  repeat (apply Forall_cons; split; [by eapply Hq|]). apply Forall_singleton.
  rewrite Z.quot_div_nonneg by lia. split; [apply Z.div_le_lower_bound; lia|apply Z.div_le_upper_bound; lia].
Qed.

(** The suffix is always one of the four, and the divisor its power: the value printed is at
    least 1, and below 1024 unless the suffix is the last. *)
Lemma humanBytes_scale n : in_i64 n → 1024 ≤ n →
  ∃ (e : nat) suffix, humanBytes n = Some (Scaled n (1024 ^ (Z.of_nat e + 1)) suffix) ∧ ["K"; "M"; "G"; "T"] !! e = Some suffix ∧
    1024 ^ (Z.of_nat e + 1) ≤ n ∧ (e ≠ 3%nat → n < 1024 ^ (Z.of_nat e + 2)).
Proof.
  intros Hi Hn. unfold humanBytes. rewrite (proj2 (Z.ltb_ge _ _) Hn).
  assert (∀ k, 0 < k → (n / k) `quot` 1024 = n / (k * 1024)) as Hquot.
  { intros k Hk. rewrite Z.quot_div_nonneg by (try apply Z.div_pos; lia). by rewrite Z.div_div by lia. }
  cbn [human_loop]. rewrite <-(Z.div_1_r n), !Hquot, Z.div_1_r by lia.
  change (i64 (1024 * 1024)) with (1024 ^ 2). change (i64 (1024 ^ 2 * 1024)) with (1024 ^ 3). change (i64 (1024 ^ 3 * 1024)) with (1024 ^ 4).
  change (1 * 1024 * 1024 * 1024) with (1024 ^ 3). change (1 * 1024 * 1024) with (1024 ^ 2). change (1 * 1024) with 1024.
  assert (∀ k, 0 < k → 1024 <= n / k ↔ 1024 * k ≤ n) as Hdiv.
  { intros k Hk. split; intros H; [|apply Z.div_le_lower_bound; lia]. pose proof (Z.mul_div_le n k Hk). nia. }
  destruct (Z.leb_spec 1024 (n / 1024)) as [H1|H1]; cbn [andb].
  2:{ exists 0%nat, "K". split; [reflexivity|]. split; [reflexivity|]. cbn. split; [lia|]. intros _. rewrite <-Z.nle_gt, Hdiv in H1 by lia. lia. }
  rewrite Hdiv in H1 by lia. destruct (Z.leb_spec 1024 (n / 1024 ^ 2)) as [H2|H2]; cbn [andb].
  2:{ exists 1%nat, "M". split; [reflexivity|]. split; [reflexivity|]. cbn. split; [lia|]. intros _. rewrite <-Z.nle_gt, Hdiv in H2 by lia. lia. }
  rewrite Hdiv in H2 by lia. destruct (Z.leb_spec 1024 (n / 1024 ^ 3)) as [H3|H3]; cbn [andb].
  2:{ exists 2%nat, "G". split; [reflexivity|]. split; [reflexivity|]. cbn. split; [lia|]. intros _. rewrite <-Z.nle_gt, Hdiv in H3 by lia. lia. }
  rewrite Hdiv in H3 by lia. exists 3%nat, "T". change (0 + 1 + 1 + 1 <? 3) with false. rewrite andb_false_r.
  split; [reflexivity|]. split; [reflexivity|]. cbn. split; [lia|done].
Qed.

(** ** The sampler of a soak *)

Section sampler.
Context {E : Type} (b : benchmark) (started : Z).
(** The latencies in the order the reservoir, and the buckets, were given them. *)
Definition offered (evs : list (bench_event E)) : list latencySample :=
  omap (fun ev => match ev with Work (Offer _ sample _) => Some sample | _ => None end) evs.
Definition observed (evs : list (bench_event E)) : list latencySample :=
  omap (fun ev => match ev with
                  | Work (GetDone _ _ _ elapsed) => Some (MkSample elapsed true)
                  | Work (PutDone _ _ _ elapsed) => Some (MkSample elapsed false)
                  | _ => None
                  end) evs.
(** Those between the one and the other. *)
Definition held (p : phase E) : list latencySample := match p with Observed _ _ sample => [sample] | _ => [] end.
Definition all_held (s : load E) : list latencySample := concat ((fun x => held (w_phase x)) <$> lo_workers s).

(** The reservoir has seen every latency, and holds them all until it is full. *)
Definition sampler_inv (limit : Z) (seen : list latencySample) (o : option (reservoir latencySample)) : Prop :=
  ∃ r, o = Some r ∧ rs_limit r = limit ∧ rs_seen r = Z.of_nat (length seen) ∧
    Z.of_nat (length (rs_samples r)) = Z.min (rs_seen r) limit ∧ (Z.of_nat (length seen) ≤ limit → rs_samples r = seen).

Lemma sampler_add limit seen o choice x : 0 ≤ limit → sampler_inv limit seen o →
  sampler_inv limit (seen ++ [x]) ((fun r => reservoir_add r choice x) <$> o).
Proof using Type.
  intros Hl (r & -> & Hlim & Hseen & Hlen & Hall). eexists. split; [done|].
  destruct (reservoir_add_size r choice x) as (H1 & H2 & H3); [lia|congruence|]. rewrite length_app. cbn [length].
  split; [congruence|]. split; [lia|]. split; [rewrite H3, H2, Hlim; done|].
  intros Hle. unfold reservoir_add. rewrite (proj2 (Z.ltb_lt _ _)) by lia. cbn. rewrite Hall by lia. done.
Qed.

Lemma sampler_work limit evs s ev s' : 0 ≤ limit → sampler_inv limit (offered evs) (lo_sampler s) →
  load_step b false None s ev = Some s' → sampler_inv limit (offered (evs ++ [Work ev])) (lo_sampler s').
Proof using Type.
  intros Hl Hi (x & x' & _ & _ & ->)%step_inv. unfold offered. rewrite omap_app. fold (offered evs).
  destruct ev; cbn; rewrite ?app_nil_r; try done. by apply sampler_add.
Qed.

Lemma sampler_events limit evs0 s r evs s' r' : 0 ≤ limit → sampler_inv limit (offered evs0) (lo_sampler s) →
  bench_events b started (s, r) evs = Some (s', r') → sampler_inv limit (offered (evs0 ++ evs)) (lo_sampler s').
Proof using Type.
  intros Hl. revert evs0 s r. induction evs as [|ev evs IH]; intros evs0 s r Hi; cbn [bench_events].
  { intros [= <- <-]. by rewrite app_nil_r. }
  intros ([s1 r1] & Hs & H)%bind_Some. rewrite cons_middle, app_assoc. refine (IH _ _ _ _ H). destruct ev as [ev|now|]; cbn in Hs.
  - apply bind_Some in Hs as (s2 & Hs & [= <- <-]). by eapply sampler_work.
  - destruct (rp_phase r); [|done..]. injection Hs as <- _. unfold offered. rewrite omap_app, app_nil_r. exact Hi.
  - apply reporter_same in Hs as [o ->]. unfold offered. rewrite omap_app, app_nil_r. exact Hi.
Qed.

(** Every latency put in a bucket is offered to the reservoir, or about to be. *)
Lemma wstep_held limit x ev x' : worker_step b false limit x ev = Some x' →
  held (w_phase x) = offered [Work ev] ∧ held (w_phase x') = observed [Work ev].
Proof using Type.
  intros H. unfold worker_step in H.
  destruct ev as [w key isRead|w isRead|w key r elapsed|w key err elapsed|w sample choice|w j|w ok|w];
    destruct (w_phase x) as [|key' drawn|asked|asked|key' a taken|key' a|key' got|]; try discriminate H.
  - destruct (keepGoing _ _ _ && _); [|done]. by injection H as <-.
  - destruct (Bool.eqb isRead drawn); [|done]. injection H as <-. by destruct isRead.
  - destruct (key =? asked); [|done]. by injection H as <-.
  - destruct (key =? asked); [|done]. by injection H as <-.
  - case_bool_decide; [|done]. subst. by injection H as <-.
  - case_bool_decide; [|done]. injection H as <-. unfold judge, on_error. destruct a as [[[got|]|e]|[e|]], (b_continueOnError b); done.
  - destruct (Bool.eqb ok _); [|done]. injection H as <-. unfold compared. by destruct ok.
  - destruct (may_return _ _ _); [|done]. by injection H as <-.
Qed.

Lemma held_events evs0 s r evs s' r' : offered evs0 ++ all_held s ≡ₚ observed evs0 →
  bench_events b started (s, r) evs = Some (s', r') → offered (evs0 ++ evs) ++ all_held s' ≡ₚ observed (evs0 ++ evs).
Proof using Type.
  revert evs0 s r. induction evs as [|ev evs IH]; intros evs0 s r Hi; cbn [bench_events].
  { intros [= <- <-]. by rewrite app_nil_r. }
  intros ([s1 r1] & Hs & H)%bind_Some. rewrite cons_middle, app_assoc. refine (IH _ _ _ _ H).
  unfold offered, observed. rewrite !omap_app. fold (offered evs0) (observed evs0). destruct ev as [ev|now|]; cbn [bench_step] in Hs.
  - apply bind_Some in Hs as (s2 & Hs & [= <- <-]). apply step_inv in Hs as (x & x' & Hx & Hx' & ->).
    fold (offered [Work ev]) (observed [Work ev]). destruct (wstep_held None x ev x' Hx') as [<- <-].
    pose proof (concat_insert (fun x : worker E => held (w_phase x)) _ _ _ x' Hx) as Hp.
    unfold all_held in *. cbn [set_worker lo_workers]. rewrite shared_workers, <-app_assoc, <-Hp.
    rewrite (Permutation_app_comm (held (w_phase x'))), app_assoc. by rewrite Hi.
  - destruct (rp_phase r); [|done..]. injection Hs as <- _. cbn. by rewrite !app_nil_r.
  - apply reporter_same in Hs as [o ->]. cbn. by rewrite !app_nil_r.
Qed.

Lemma held_finished s : finished s → all_held s = [].
Proof using Type.
  unfold finished, all_held. induction (lo_workers s) as [|x l IH]; [done|]. intros [Hx Hl]%Forall_cons. cbn. by rewrite Hx, IH.
Qed.

Lemma sort_perm l k : l ≡ₚ k → sortDurations l = sortDurations k.
Proof using Type.
  intros Hp. apply (StronglySorted_unique dur_le); [apply sortDurations_sorted..|].
  unfold sortDurations. by rewrite !merge_sort_Permutation.
Qed.
Lemma held_init counts : all_held (soak_init b counts : load E) = [].
Proof using Type.
  unfold all_held. cbn. generalize (seq 0 (Z.to_nat (b_workers b))). intros l. induction l as [|w l IH]; [done|]. cbn.
  rewrite IH, app_nil_r. unfold launch. by destruct (newKeyChooser _ _ _).
Qed.

Lemma length_split_kinds l :
  length l = (length (filter (fun x => ls_isRead x = true) l) + length (filter (fun x => ls_isRead x = false) l))%nat.
Proof using Type.
  induction l as [|[d []] l IH]; [done|..];
    (first [rewrite filter_cons_True, filter_cons_False by done|rewrite filter_cons_False, filter_cons_True by done]); cbn; lia.
Qed.
Lemma observed_times evs :
  ls_duration <$> filter (fun x => ls_isRead x = true) (observed evs) = read_times evs ∧
  ls_duration <$> filter (fun x => ls_isRead x = false) (observed evs) = write_times evs.
Proof using Type.
  induction evs as [|ev evs [IHr IHw]]; [done|].
  destruct ev as [[w key isRead|w isRead|w key answer elapsed|w key err elapsed|w sample choice|w j|w ok|w]|now|]; try done;
    unfold read_times, write_times, observed in *; cbn [omap list_omap];
    (first [rewrite filter_cons_True, filter_cons_False by done|rewrite filter_cons_False, filter_cons_True by done]);
    cbn; split; by f_equal.
Qed.
End sampler.

(** ** Claims *)

(** The report of a soak whose workers have returned says honestly where its percentiles
    come from.  It is marked as
    sampled exactly when more latencies were observed than the reservoir holds; it keeps as
    many as fit; when it is not marked, its percentiles are those of every read and every
    write that finished, in order of size; and its operations are its reads and writes. *)
Theorem soak_report_honest {E} b started counts evs (s : load E) r now elapsed keyCounts report
    (Hvalid : benchmark_validate b = None)
    (Hrun : bench_events b started (soak_init b counts, new_reporter started) evs = Some (s, r))
    (Hend : finished s)
    (Hreport : ∃ sampler, lo_sampler s = Some sampler ∧
       sustainedReport b (summarize (w_result <$> lo_workers s)) sampler (rp_series r) now elapsed keyCounts = Some report) :
  let seen := (length (read_times evs) + length (write_times evs))%nat in
  (rr_latencySampled report = true ↔ b_latencySamples b < Z.of_nat seen) ∧
  Z.of_nat (rr_latencySamples report) = Z.min (Z.of_nat seen) (b_latencySamples b) ∧
  (rr_latencySampled report = false →
   percentiles_of (sortDurations (read_times evs)) (sortDurations (write_times evs)) = Some (rr_latencies report)) ∧
  rr_operations report = rr_reads report + rr_writes report ∧ rr_intervals report = rp_series r.
Proof.
  intros seen. destruct Hreport as (sampler & Hs & Hreport).
  assert (0 ≤ b_latencySamples b) as Hl.
  { unfold benchmark_validate in Hvalid. repeat (case_match; [discriminate|]). rewrite ?Z.ltb_ge in *. lia. }
  destruct (sampler_events b started (b_latencySamples b) [] (soak_init b counts) (new_reporter started) evs s r Hl) as (sampler' & Hs' & Hlim & Hseen & Hlen & Hall); [|done|].
  { eexists. split; [done|]. cbn. split_and!; [done..|lia|done]. }
  rewrite Hs in Hs'. injection Hs' as <-. cbn [app] in *. destruct (observed_times evs) as [Hr Hw].
  assert (offered evs ≡ₚ observed evs) as Hperm.
  { pose proof (held_events b started [] (soak_init b counts) (new_reporter started) evs s r) as H. rewrite (held_finished s), app_nil_r in H by done.
    apply H; [|done]. by rewrite held_init. }
  assert (Z.of_nat (length (offered evs)) = Z.of_nat seen) as Hn.
  { unfold seen. rewrite <-Hr, <-Hw, !length_fmap, Hperm. f_equal. apply length_split_kinds. }
  unfold sustainedReport in Hreport. cbn [snapshot] in Hreport.
  apply bind_Some in Hreport as (base & _ & Hreport). apply bind_Some in Hreport as (l & Hp & [= <-]). cbn.
  split; [rewrite Z.ltb_lt; lia|]. split; [lia|]. split; [|done].
  intros Hle%Z.ltb_ge. rewrite Hall in Hp by lia. unfold sampled_times in Hp.
  assert (∀ k, ls_duration <$> filter (fun x => ls_isRead x = k) (offered evs) ≡ₚ
    ls_duration <$> filter (fun x => ls_isRead x = k) (observed evs)) as Hk by (intros k; by rewrite Hperm).
  by rewrite (sort_perm _ _ (Hk true)), (sort_perm _ _ (Hk false)), Hr, Hw in Hp.
Qed.

(** The soak of the reporter's fixture: too short to be sampled. *)
Module BenchSummaryDemo.
Definition s : load () := BenchReportDemo.final.1.
Definition r : reporter := BenchReportDemo.final.2.
Definition sampler : reservoir latencySample := default (newReservoir 0) (lo_sampler s).
Definition report : runReport :=
  default (MkRunReport (MkBase 0 0 p50 "" "" p50 0 0 0 0 p50 0 zero_concentration) "" 0 0 0 p50 0 0 0 0 0 true 0 (MkLatencies p50 p50 p50 p50 p50 p50) [] None)
    (sustainedReport BenchReportDemo.b (summarize (w_result <$> lo_workers s)) sampler (rp_series r) 1700000000 5000000000 []).
End BenchSummaryDemo.

Lemma soak_report_honest_witness :
  rr_latencySampled BenchSummaryDemo.report = false ∧
  percentiles_of (sortDurations (read_times BenchReportDemo.evs)) (sortDurations (write_times BenchReportDemo.evs)) =
    Some (rr_latencies BenchSummaryDemo.report).
Proof.
  split; [vm_compute; reflexivity|].
  apply (soak_report_honest BenchReportDemo.b 0 None BenchReportDemo.evs BenchSummaryDemo.s BenchSummaryDemo.r 1700000000 5000000000 []
           BenchSummaryDemo.report); [vm_compute; reflexivity..|repeat constructor| |vm_compute; reflexivity].
  exists BenchSummaryDemo.sampler. split; vm_compute; reflexivity.
Defined.
